(* ===== verification/_CoqProject ===== *)
-Q . S2P
Prelude.v
Hindsight.v
Waiter.v
MSQueue.v
Parking.v
Sides.v
Mutex.v
Semaphore.v
RWLock.v
RWLive.v
WaitGroup.v
Barrier.v
CondVar.v
CVLive.v
ProdCons.v
FairQueue.v
FairMSQueue.v
FairRWLock.v
FairLive.v
Programs.v
Guards.v
Examples.v
Locker.v
Once.v
Singleflight.v
Scheduler.v
Metrics.v
Auth.v
AuditLog.v
Access.v
Server.v
Registry.v
Delta.v
Http.v
Keys.v
Snapshot.v
ServerOps.v
Answers.v
Objects.v
Reports.v
ClientAPI.v
Client.v
Replies.v
Syncctl.v
ServerMain.v
Dial.v
