(* ===== verification/Prelude.v ===== *)
(** * Verification of advanced-synchronization-primitives

    The repository implements synchronization primitives for Go from
    [sync/atomic] operations and serves them over HTTP/WebSocket, with a
    client library and a command line.  This library models the primitives
    under src/internal/primitives, the packages scheduler, metrics, auth and
    audit beside them, the server of src/web with its main program, the
    client of src/pkg/client, the command line of src/cmd/syncctl and the
    programs of src/examples, and proves the theorems that make them correct.

    ** The program and its parts

    - waiter.go: the object a goroutine parks on (a channel of capacity one
      and a [cancelled] flag), the pool that recycles it, and a lock-free
      queue of waiters.  Every primitive below parks goroutines through it.
    - condvar.go (Mutex and CondVar), semaphore.go, rwlock.go, waitgroup.go,
      barrier.go: one or two atomic words, a waiter queue, statistics.
    - fair_waiter.go, fair_waiter_queue.go, fair_rwlock.go: a readers-writer
      lock with its own waiters and one FIFO queue.
    - once.go, singleflight.go: built on [sync.Mutex] and [sync.WaitGroup].
    - internal/scheduler: the registry of primitives and goroutines, and an
      event log written by a goroutine of its own.
    - internal/metrics: per-primitive counters and a wait-time histogram.
    - internal/auth: HS256 web tokens.
    - internal/audit: a log of events in a file that is rotated.
    - web/server.go: connections with roles, namespaces and rate limits;
      registries of primitives; operations on them in goroutines of their
      own, with a goroutine that holds a lock and releases it; the broadcast
      of differences to the web clients (web/static/js/app.js); snapshots;
      metrics, probes and static files over HTTP.
    - cmd/server: flags, configuration, start and shutdown.
    - pkg/client: a client with reconnection and one request at a time.
    - cmd/syncctl: a command line over the same protocol.
    - examples: four small programs that use a primitive each.

    ** How concurrency is modelled

    Prelude.v defines machines.  The body of an operation is a step function
    on program points: one step per atomic access, channel operation or
    pool operation, in the order of the source, and [outcome] says whether it
    goes on, returns or panics.  A machine has the shared state and a list of
    goroutines; a label chooses the goroutine that moves next and carries what
    the step cannot decide ([oracle]: the branch of a [select], the object
    [sync.Pool] hands out, the clock).  [execs] runs a list of labels and is
    executable, [reach] is reachability by any list of labels, and
    [reach_invariant] is the induction rule.  Every theorem about a machine
    quantifies over the number of goroutines and over all interleavings.
    Machine integers wrap around ([add32], [add64]); statistics are compared
    modulo 2^64 ([eq64], a setoid).  Goroutines call [Unlock], [ReleaseN] and
    the like only for what they hold, which the goroutine state tracks.  In
    the server and the client a step is a critical section, a channel
    operation or an access to a connection; code between two of them reads
    and writes only local variables.

    ** Files

    - Prelude.v: integers, sums over goroutines, machines, strings, tactics,
      hints.
    - Hindsight.v: machines that decide later about what they saw earlier.
    - Waiter.v: waiters, pool and the abstract queue (a link or an unlink is
      one step, the size counter another, [Dequeue_step] with its retry on
      cancelled waiters), and the ownership protocol [WInv]: who may touch a
      waiter when, that no token is lost and no pooled waiter is in use.
    - MSQueue.v: the pointer code of Enqueue and Dequeue (Michael and Scott)
      on a heap of nodes, and its refinement of the abstract queue.
    - Parking.v: the argument against lost wake-ups, abstracted over the
      primitive: if somebody is parked, the resource is taken or some
      goroutine is on its way to wake up.
    - Sides.v: two queues on one store of waiters: what is private to each,
      and what their size counters say.
    - Mutex.v, Semaphore.v, RWLock.v, WaitGroup.v, Barrier.v, CondVar.v: one
      primitive each; CondVar runs the steps of Mutex inside its own.
    - RWLive.v, CVLive.v: no wake-up of RWLock is lost; a CondVar and its
      Mutex do not disturb each other.
    - FairQueue.v, FairRWLock.v: the fair waiters, their queue and the lock;
      FairLive.v: none of its wake-ups is lost.  FairMSQueue.v: the pointer
      code of the fair queue with [peek] and [dequeueReaders], and its
      refinement of the abstract one.
    - Programs.v: programs of critical sections over a primitive that is a
      [Guard]: a class of what a lock or semaphore promises.  Against it:
      mutual exclusion, freedom from deadlock, what the bodies compute.
      Guards.v: Mutex, RWLock, FairRWLock and Semaphore are guards.
    - Examples.v: examples/rwlock and examples/semaphore as such programs,
      examples/barrier; ProdCons.v: examples/condvar.
    - Once.v, Singleflight.v: with an automaton as the specification of Once.
    - Locker.v: [sync.Locker] as a class with the three locks as instances,
      and a client proved against the class.
    - Scheduler.v, Metrics.v, Auth.v: the packages of these names.
    - AuditLog.v: internal/audit on a map of files, with its writer goroutine.
    - Access.v: the functions of the server that decide: validation, names
      and namespaces, roles, origins, rate limits.
    - Server.v: the state of the server, the handlers and the life of a
      connection.  A primitive is an abstract object there, whose operations
      take one step; Objects.v shows that the primitives implement it.
    - Registry.v: the maps of primitives, the scheduler and the metrics agree.
    - Delta.v: publication of updates, differences, the web client.
    - Http.v: the endpoints beside the WebSocket, their routing, the ping
      loop.
    - Keys.v: the key that decides whether a primitive has changed.
    - Snapshot.v: saving and restoring, start and shutdown.
    - ServerOps.v: the goroutines of operations and of held locks, beside the
      connections.  Answers.v: the account of requests and answers.
    - Objects.v: histories of objects; every primitive implements the object
      the server uses for it, and the server changes objects by these
      operations only.
    - Reports.v: the texts of the statistics, with the formats of [fmt] they
      use.
    - ClientAPI.v: the requests of the Go client, run through the server.
    - Client.v: [send], [Connect], [Close] and the read loop of the Go client.
    - Replies.v: which reply reaches which request.
    - Syncctl.v: the command line, with a model of package [flag].
    - ServerMain.v: the main program of the server.
    - Dial.v: how the client and the command line connect to the server.

    ** What the theorems show

    - Safety: mutual exclusion for Mutex, RWLock, FairRWLock and a CondVar
      with its Mutex; the permits of a Semaphore are conserved; a Barrier does
      not let anybody pass before its first trip; the panics of misuse are
      unreachable for programs that release what they hold; a connection is
      shown the primitives of its namespace only; roles are enforced.
    - No lost wake-up, under a stated condition: for Mutex, RWLock, FairRWLock
      and Semaphore without timeouts and cancellations, for WaitGroup, Barrier
      and CondVar always, a goroutine parked when nobody can move is parked
      for a reason.  For CondVar a published waiter stays reachable for
      [Signal].
    - The examples: the programs for RWLock, Semaphore and CondVar exclude
      what they should, never deadlock and end with the right data.
    - Refinement: the pointer code of both queues implements the abstract
      queues the primitives are made of; the primitives implement the objects
      of the server; Once its automaton, the audit log a sequence of entries
      cut into generations, differences the full state.
    - Invariants of the server: an id has one kind; maps, contexts, scheduler
      and metrics agree on every primitive unless one id is created and
      deleted at the same time; every lock the server holds for a client has
      a goroutine that will release it, unless a client says "unlock"; every
      request is answered once, whatever becomes of it, as long as the
      connection is open.
    - Round trips: tokens, from the command line through the client to the
      session they open; snapshots; the requests of the client and of the
      command line as the server reads them; metrics and reports.
    - The client: every reply reaches its request as long as no context is
      cancelled and no connection breaks; the delays between attempts to
      connect double up to a maximum.
    - Functional behaviour: what Dequeue and dequeueReaders take, what the
      callers of Singleflight return, what the event log, the metrics, the
      rate limits and the token functions compute.
    - Limits: where the code does not keep a promise there is an execution
      that shows it: a cancelled LockContext and a timed-out WaitTimeout drop
      a wake-up, Acquire parks although a permit is free, ReleaseN overflows,
      a reused WaitGroup and a Barrier release too early, Break strands a
      waiter, a writer of FairRWLock starves, Forget breaks deduplication; a
      failed rotation ends the audit log; a deleted id that is created again
      at once is lost; "unlock" after "lock" ends the server; an update
      during registration shows a foreign namespace; a refresh can lose an
      update; after a lost connection the client returns replies to the wrong
      requests; a closed client goes on dialling; an update that comes before
      the initial state makes it give up; the documented flags of the command
      line are ignored; the example for Barrier can deadlock.

    ** Bounds and fuel

    Machines need no fuel: an execution is as long as its list of labels.
    [Dequeue] run alone terminates with fuel above four steps per queued
    node, dequeueReaders with five; the theorems say so.  The writer of the
    audit log ends within a bound on its queue after [Close].  [trimFront]
    has the length of the string as fuel and every step removes a byte;
    [runSteps] runs a recording method of Metrics.v, which has at most 12
    steps.  The Barrier theorems bound the length of the execution by 2^63-1
    (its generation is an [int64] that the code compares with [>]) and parties
    plus goroutines by MaxInt32 (its [arrived] counter); the delays of the
    client are bounded by 2^62 ns.  These are out of reach in practice.

    ** Not modelled

    The Go memory model below sequential consistency ([sync/atomic] is
    sequentially consistent, channels and locks are used in the standard
    way), the clock beyond its readings.  HMAC, JSON, [url.Parse],
    [net.ParseIP] and [strconv] are arguments, and so are the websocket
    package and the way a header travels, and outside Reports.v the printing
    of durations and floats.  Of the server: the files it serves, the listener and
    TLS, and errors when writing to a client.  Of the client: the deadlines
    of [send]; of the command line: the layout of tables and JSON.  Of the
    examples: sleeps, and what is printed outside critical sections.  Accessors
    that only return a channel, the types of errors of the client and
    compile-time declarations have no definition of their own.

    ** Choices that carry weight

    - A primitive in the server is an object that acts in one step.  Objects.v
      justifies its states and who holds what; that a blocked call of the
      server is woken is the subject of the liveness theorems of the
      primitives, not of the server.
    - Waiters of the fair queue are enqueued once, as in fair_rwlock.go, so a
      waiter and its node are one.
    - In Answers.v an answer counts when it is handed to the connection;
      whether the network delivers it is outside. *)

From Stdlib Require Import ZArith Lia.
From stdpp Require Import base list gmap strings.

#[local] Open Scope Z_scope.

(** * Machine integers

    Go's signed integers wrap around silently.  [wrap32] and [wrap64] are the
    reduction of a mathematical integer to the range of [int32] and [int64]
    (two's complement), [wrapU64] to the range of [uint64]; the [addN]
    functions are the [Add] methods of the [sync/atomic] types and Go's [+]. *)

Definition wrap32 (z : Z) : Z := (z + 2147483648) mod 4294967296 - 2147483648.
Definition wrap64 (z : Z) : Z :=
  (z + 9223372036854775808) mod 18446744073709551616 - 9223372036854775808.
Definition wrapU64 (z : Z) : Z := z mod 18446744073709551616.

Definition add32 (a b : Z) : Z := wrap32 (a + b).
Definition add64 (a b : Z) : Z := wrap64 (a + b).
Definition addU64 (a b : Z) : Z := wrapU64 (a + b).

Definition int32_range (z : Z) : Prop := -2147483648 <= z < 2147483648.
Definition int64_range (z : Z) : Prop :=
  -9223372036854775808 <= z < 9223372036854775808.

Definition MaxInt32 : Z := 2147483647.
Definition MaxInt64 : Z := 9223372036854775807.

Lemma wrap32_id z : int32_range z -> wrap32 z = z.
Proof. unfold int32_range, wrap32. intros. rewrite Z.mod_small; lia. Qed.

Lemma wrap64_id z : int64_range z -> wrap64 z = z.
Proof. unfold int64_range, wrap64. intros. rewrite Z.mod_small; lia. Qed.

Lemma wrap32_range z : int32_range (wrap32 z).
Proof.
  unfold int32_range, wrap32.
  pose proof (Z.mod_pos_bound (z + 2147483648) 4294967296 ltac:(lia)). lia.
Qed.

Lemma wrap64_range z : int64_range (wrap64 z).
Proof.
  unfold int64_range, wrap64.
  pose proof (Z.mod_pos_bound (z + 9223372036854775808) 18446744073709551616 ltac:(lia)).
  lia.
Qed.

Lemma add32_id a b : int32_range (a + b) -> add32 a b = a + b.
Proof. apply wrap32_id. Qed.

Lemma add64_id a b : int64_range (a + b) -> add64 a b = a + b.
Proof. apply wrap64_id. Qed.

Lemma add32_wrap32 a b : add32 (wrap32 a) b = wrap32 (a + b).
Proof.
  unfold add32, wrap32. f_equal.
  replace ((a + 2147483648) mod 4294967296 - 2147483648 + b + 2147483648)
    with ((a + 2147483648) mod 4294967296 + b) by lia.
  rewrite Zplus_mod_idemp_l. f_equal. lia.
Qed.

Lemma add64_wrap64 a b : add64 (wrap64 a) b = wrap64 (a + b).
Proof.
  unfold add64, wrap64. f_equal.
  replace ((a + 9223372036854775808) mod 18446744073709551616 - 9223372036854775808 + b + 9223372036854775808)
    with ((a + 9223372036854775808) mod 18446744073709551616 + b) by lia.
  rewrite Zplus_mod_idemp_l. f_equal. lia.
Qed.

(** ** Congruence modulo 2^64

    A statistics counter is an [atomic.Int64] that wraps around; what can be
    said of it without bounding the number of operations is its value modulo
    2^64.  [a ≡₆₄ b] is that congruence, an equivalence for which addition,
    subtraction and the wrap-around itself are morphisms. *)

Definition eq64 (a b : Z) : Prop := exists k, a = b + k * 18446744073709551616.

Declare Scope sync_scope.
Delimit Scope sync_scope with sync.
Infix "≡₆₄" := eq64 (at level 70, no associativity) : sync_scope.
#[local] Open Scope sync_scope.

#[export] Instance eq64_equiv : Equivalence eq64.
Proof.
  split.
  - intros a. exists 0. lia.
  - intros a b [k ->]. exists (-k). lia.
  - intros a b c [k ->] [j ->]. exists (k + j). lia.
Qed.

#[export] Instance eq64_add : Proper (eq64 ==> eq64 ==> eq64) Z.add.
Proof. intros a b [k ->] c d [j ->]. exists (k + j). lia. Qed.

#[export] Instance eq64_sub : Proper (eq64 ==> eq64 ==> eq64) Z.sub.
Proof. intros a b [k ->] c d [j ->]. exists (k - j). lia. Qed.

Lemma wrap64_eq64 z : wrap64 z ≡₆₄ z.
Proof.
  unfold wrap64, eq64.
  exists (- ((z + 9223372036854775808) / 18446744073709551616)).
  pose proof (Z.div_mod (z + 9223372036854775808) 18446744073709551616 ltac:(lia)). lia.
Qed.

Lemma add64_eq64 a b : add64 a b ≡₆₄ a + b.
Proof. apply wrap64_eq64. Qed.

(** Two congruent [int64] values are equal. *)
Lemma eq64_inj a b : int64_range a -> int64_range b -> a ≡₆₄ b -> a = b.
Proof. unfold int64_range. intros Ha Hb [k ->]. nia. Qed.

(** * Sums over lists

    Counting arguments over the goroutines of a program are sums of a
    [Z]-valued measure over the list of goroutines. *)

Fixpoint sumf {A} (f : A -> Z) (l : list A) : Z :=
  match l with
  | [] => 0
  | x :: l => f x + sumf f l
  end.

Lemma sumf_app {A} (f : A -> Z) l1 l2 : sumf f (l1 ++ l2) = sumf f l1 + sumf f l2.
Proof. induction l1 as [|x l1 IH]; simpl; [lia|]. rewrite IH. lia. Qed.

Lemma sumf_insert {A} (f : A -> Z) l i x y :
  l !! i = Some y -> sumf f (<[i:=x]> l) = sumf f l - f y + f x.
Proof.
  revert i. induction l as [|z l IH]; intros [|i]; simpl; try discriminate.
  - intros [= ->]. lia.
  - intros H. rewrite (IH i H). lia.
Qed.

Lemma sumf_delete {A} (f : A -> Z) l i y :
  l !! i = Some y -> sumf f (delete i l) = sumf f l - f y.
Proof.
  revert i. induction l as [|z l IH]; intros [|i]; simpl; try discriminate.
  - intros [= ->]. lia.
  - intros H. change (delete (S i) (z :: l)) with (z :: delete i l). simpl.
    rewrite (IH i H). lia.
Qed.

Lemma sumf_ext {A} (f g : A -> Z) l : (forall x, f x = g x) -> sumf f l = sumf g l.
Proof. intros E. induction l; simpl; congruence. Qed.

Lemma sumf_nonneg {A} (f : A -> Z) l : (forall x, 0 <= f x) -> 0 <= sumf f l.
Proof. intros Hf. induction l as [|x l IH]; simpl; [lia|]. pose proof (Hf x). lia. Qed.

Lemma sumf_const {A} (z : Z) (l : list A) : sumf (fun _ => z) l = z * Z.of_nat (length l).
Proof. induction l as [|x l IH]; simpl; [lia|]. rewrite IH. lia. Qed.

Lemma b2z_nonneg b : 0 <= Z.b2z b.
Proof. by destruct b. Qed.

Lemma sumf_lookup_le {A} (f : A -> Z) l i y :
  (forall x, 0 <= f x) -> l !! i = Some y -> f y <= sumf f l.
Proof.
  intros Hf H. pose proof (sumf_delete f l i y H).
  pose proof (sumf_nonneg f (delete i l) Hf). lia.
Qed.

Lemma sumf_lookup_two {A} (f : A -> Z) l i j x y :
  (forall z, 0 <= f z) -> i <> j -> l !! i = Some x -> l !! j = Some y ->
  f x + f y <= sumf f l.
Proof.
  intros Hf Hij Hi Hj. revert i j Hij Hi Hj.
  induction l as [|z l IH]; intros [|i] [|j] Hij Hi Hj; simpl in *;
    try discriminate; try congruence.
  - simplify_eq. pose proof (sumf_lookup_le f l j y Hf Hj). lia.
  - simplify_eq. pose proof (sumf_lookup_le f l i x Hf Hi). lia.
  - assert (i <> j) by congruence. specialize (IH i j H Hi Hj). specialize (Hf z). lia.
Qed.

(** The same when the summands are only known to be nonnegative on the list. *)
Section SumForall.
Context {A : Type} (f : A -> Z) (P : A -> Prop).
Hypothesis HP : forall x, P x -> 0 <= f x.

Lemma sumf_nonneg_F l : Forall P l -> 0 <= sumf f l.
Proof. induction 1 as [|x l Hx _ IH]; simpl; [lia|]. specialize (HP x Hx). lia. Qed.

Lemma sumf_le_F l i y : Forall P l -> l !! i = Some y -> f y <= sumf f l.
Proof.
  intros Hl Hi. pose proof (sumf_delete f l i y Hi).
  pose proof (sumf_nonneg_F _ (Forall_delete _ _ i Hl)). lia.
Qed.

Lemma sumf_two_F l i j x y :
  Forall P l -> i <> j -> l !! i = Some x -> l !! j = Some y -> f x + f y <= sumf f l.
Proof.
  intros Hl Hij. revert i j Hij.
  induction Hl as [|z l Hz Hl IH]; intros [|i] [|j] Hij Hi Hj; simplify_eq/=.
  - pose proof (sumf_le_F l j y Hl Hj). lia.
  - pose proof (sumf_le_F l i x Hl Hi). lia.
  - specialize (IH i j ltac:(congruence) Hi Hj). specialize (HP z Hz). lia.
Qed.
End SumForall.

Lemma sumf_pos {A} (f : A -> Z) l :
  0 < sumf f l -> exists i x, l !! i = Some x /\ 0 < f x.
Proof.
  induction l as [|z l IH]; simpl; [lia|]. intros H.
  destruct (Z.lt_decidable 0 (f z)) as [Hz|Hz].
  - exists 0%nat, z. done.
  - destruct IH as (i & x & ? & ?); [lia|]. exists (S i), x. done.
Qed.

Lemma sumf_zero {A} (f : A -> Z) l :
  (forall i x, l !! i = Some x -> f x = 0) -> sumf f l = 0.
Proof.
  induction l as [|z l IH]; simpl; [done|]. intros H.
  rewrite (H 0%nat z), IH; [done| |done]. intros i x Hi. apply (H (S i) x Hi).
Qed.

Lemma sumf_single {A} (f : A -> Z) l i y :
  l !! i = Some y -> (forall j x, l !! j = Some x -> j <> i -> f x = 0) -> sumf f l = f y.
Proof.
  revert i. induction l as [|z l IH]; intros [|i] Hi H; simplify_eq/=.
  - rewrite sumf_zero; [lia|]. intros j x Hj. by apply (H (S j) x).
  - rewrite (H 0%nat z), (IH i); [done|done| |done|done]. intros j x Hj Hne.
    apply (H (S j) x Hj). congruence.
Qed.

Lemma sumf_le_length {A} (f : A -> Z) l :
  (forall x, f x <= 1) -> sumf f l <= Z.of_nat (length l).
Proof. intros Hf. induction l as [|z l IH]; simpl; [lia|]. specialize (Hf z). lia. Qed.

Lemma sumf_fmap {A B} (g : A -> B) (f : B -> Z) l : sumf f (g <$> l) = sumf (fun x => f (g x)) l.
Proof. induction l as [|z l IH]; simpl; [done|]. f_equal. done. Qed.

Lemma sumf_replicate {A} (f : A -> Z) n x : f x = 0 -> sumf f (replicate n x) = 0.
Proof. intros E. induction n; simpl; lia. Qed.

(** ** Occurrences *)

Definition hit (w x : nat) : Z := Z.b2z (bool_decide (x = w)).
Definition occ (w : nat) (l : list nat) : Z := sumf (hit w) l.

Lemma hit_bound w x : 0 <= hit w x <= 1.
Proof. unfold hit. case_bool_decide; simpl; lia. Qed.

Lemma hit_refl w : hit w w = 1.
Proof. unfold hit. by rewrite bool_decide_eq_true_2. Qed.

Lemma hit_ne w x : x <> w -> hit w x = 0.
Proof. intros. unfold hit. by rewrite bool_decide_eq_false_2. Qed.

Lemma occ_nonneg w l : 0 <= occ w l.
Proof. apply sumf_nonneg. apply hit_bound. Qed.

Lemma occ_app w l1 l2 : occ w (l1 ++ l2) = occ w l1 + occ w l2.
Proof. apply sumf_app. Qed.

Lemma occ_elem w l : w ∈ l <-> 1 <= occ w l.
Proof.
  induction l as [|x l IH]; unfold occ in *; simpl.
  - split; [by intros ?%not_elem_of_nil|lia].
  - rewrite elem_of_cons, IH. pose proof (hit_bound w x). pose proof (occ_nonneg w l).
    unfold occ in *. destruct (decide (x = w)) as [->|Hne].
    + rewrite hit_refl. split; [lia|by left].
    + rewrite (hit_ne w x Hne). split; [intros [->|?]; [done|lia]|right; lia].
Qed.

(** * Atomic steps, goroutines and interleavings

    A component is modelled by the atomic steps of its operations.  Between
    two steps of one goroutine any number of steps of the others may happen:
    an execution is a sequence of labels, and each label names the goroutine
    that moves.  A label also carries everything the step may not decide for
    itself: which branch a [select] with several ready cases takes ([alt]),
    which object [sync.Pool.Get] hands out ([pick]) and what the clock reads
    ([clk], in nanoseconds). *)

Record oracle := Oracle { alt : bool; pick : nat; clk : Z }.

(** What one atomic step of an operation does to its control: go on at the
    next program point, return a value, or panic. *)
Inductive outcome (P A : Type) :=
| Next (p : P)
| Return (a : A)
| Panic (msg : string).
Arguments Next {P A} p.
Arguments Return {P A} a.
Arguments Panic {P A} msg.

(** [Call t op now]: the idle goroutine [t] begins the operation [op].
    [Run t o]: goroutine [t] executes its next atomic step.
    [Cancel c]: the context [c] is cancelled. *)
Inductive label (Op : Type) :=
| Call (t : nat) (op : Op) (now : Z)
| Run (t : nat) (o : oracle)
| Cancel (c : nat).
Arguments Call {Op} t op now.
Arguments Run {Op} t o.
Arguments Cancel {Op} c.

(** A machine: the shared state [Sh], the local state [Th] of a goroutine,
    the operations [Op] and their atomic steps.  [run] is [None] when the
    goroutine is idle or blocked. *)
Record machine (Sh Th Op : Type) := Machine {
  call : Op -> Z -> Th -> option Th;
  run : oracle -> Th -> Sh -> option (Th * Sh);
  cancel : nat -> Sh -> Sh
}.
Arguments Machine {Sh Th Op} _ _ _.
Arguments call {Sh Th Op} _ _ _ _.
Arguments run {Sh Th Op} _ _ _ _.
Arguments cancel {Sh Th Op} _ _ _.

Section Machines.
Context {Sh Th Op : Type} (m : machine Sh Th Op).

Definition config : Type := Sh * list Th.

Definition exec (l : label Op) (c : config) : option config :=
  match l with
  | Call t op now =>
      th ← c.2 !! t; th' ← call m op now th; Some (c.1, <[t:=th']> c.2)
  | Run t o =>
      th ← c.2 !! t; r ← run m o th c.1; Some (r.2, <[t:=r.1]> c.2)
  | Cancel x => Some (cancel m x c.1, c.2)
  end.

Fixpoint execs (ls : list (label Op)) (c : config) : option config :=
  match ls with
  | [] => Some c
  | l :: ls => c' ← exec l c; execs ls c'
  end.

(** [reach P c0 c]: some interleaving whose labels all satisfy [P] leads
    from [c0] to [c]. *)
Inductive reach (P : label Op -> Prop) (c0 : config) : config -> Prop :=
| reach_refl : reach P c0 c0
| reach_step l c c' : reach P c0 c -> P l -> exec l c = Some c' -> reach P c0 c'.

(** The rule for invariants: true at the start, preserved by the beginning
    of every operation, by every atomic step and by cancellations. *)
Lemma reach_invariant (P : label Op -> Prop) (I : config -> Prop) c0 :
  I c0 ->
  (forall sh ths t th th' op now,
     I (sh, ths) -> P (Call t op now) -> ths !! t = Some th -> call m op now th = Some th' ->
     I (sh, <[t:=th']> ths)) ->
  (forall sh ths t th th' sh' o,
     I (sh, ths) -> P (Run t o) -> ths !! t = Some th -> run m o th sh = Some (th', sh') ->
     I (sh', <[t:=th']> ths)) ->
  (forall sh ths x, I (sh, ths) -> P (Cancel x) -> I (cancel m x sh, ths)) ->
  forall c, reach P c0 c -> I c.
Proof.
  intros H0 Hcall Hrun Hcancel c Hr.
  induction Hr as [|l [sh ths] c' _ IH HP Hl]; [done|].
  destruct l as [t op now|t o|x]; simpl in Hl.
  - destruct (ths !! t) as [th|] eqn:Ht; simpl in Hl; [|done].
    destruct (call m op now th) as [th'|] eqn:Hc; simpl in Hl; simplify_eq. eauto.
  - destruct (ths !! t) as [th|] eqn:Ht; simpl in Hl; [|done].
    destruct (run m o th sh) as [[th' sh']|] eqn:Hc; simpl in Hl; simplify_eq. eauto.
  - simplify_eq. eauto.
Qed.

Lemma reach_weaken (P Q : label Op -> Prop) c0 c :
  (forall l, P l -> Q l) -> reach P c0 c -> reach Q c0 c.
Proof. intros HPQ. induction 1; econstructor; eauto. Qed.

Lemma execs_reach_from (P : label Op -> Prop) c0 ls c c' :
  reach P c0 c -> Forall P ls -> execs ls c = Some c' -> reach P c0 c'.
Proof.
  revert c. induction ls as [|l ls IH]; intros c Hr HP; simpl; [by intros [= <-]|].
  apply Forall_cons in HP as [Hl HP].
  destruct (exec l c) as [c1|] eqn:E; simpl; [|done].
  apply IH; [|done]. by eapply reach_step.
Qed.

Lemma execs_reach (P : label Op -> Prop) ls c0 c :
  Forall P ls -> execs ls c0 = Some c -> reach P c0 c.
Proof. apply execs_reach_from. constructor. Qed.

(** Invariants that depend on the number of steps made so far. *)
Lemma execs_invariant (Q : label Op -> Prop) (I : nat -> config -> Prop) c0 :
  I 0%nat c0 ->
  (forall n sh ths t th th' op now,
     I n (sh, ths) -> Q (Call t op now) -> ths !! t = Some th -> call m op now th = Some th' ->
     I (S n) (sh, <[t:=th']> ths)) ->
  (forall n sh ths t th th' sh' o,
     I n (sh, ths) -> ths !! t = Some th -> run m o th sh = Some (th', sh') ->
     I (S n) (sh', <[t:=th']> ths)) ->
  (forall n sh ths x, I n (sh, ths) -> I (S n) (cancel m x sh, ths)) ->
  forall ls c, Forall Q ls -> execs ls c0 = Some c -> I (length ls) c.
Proof.
  intros H0 Hcall Hrun Hcancel.
  assert (Hgo : forall ls n c1 c, Forall Q ls -> I n c1 -> execs ls c1 = Some c -> I (n + length ls)%nat c).
  { induction ls as [|l ls IH]; intros n [sh ths] c HQ Hn Hl; simpl in Hl.
    - simplify_eq. by rewrite Nat.add_0_r.
    - apply Forall_cons in HQ as [HQ1 HQ]. apply bind_Some in Hl as (c1 & Hl & Hls).
      simpl. rewrite Nat.add_succ_r.
      apply (IH (S n) c1 c); [done| |done]. destruct l as [t op now|t o|x]; simpl in Hl.
      + apply bind_Some in Hl as (th & Ht & Hl). apply bind_Some in Hl as (th' & Hc & Hl).
        simplify_eq. eauto.
      + apply bind_Some in Hl as (th & Ht & Hl). apply bind_Some in Hl as ([th' sh'] & Hc & Hl).
        simplify_eq. eauto.
      + simplify_eq. eauto. }
  intros ls c HQ Hl. by apply (Hgo ls 0%nat c0 c).
Qed.

Lemma exec_run sh ths t o th th' sh' :
  ths !! t = Some th -> run m o th sh = Some (th', sh') ->
  exec (Run t o) (sh, ths) = Some (sh', <[t:=th']> ths).
Proof. intros Ht Hr. unfold exec. simpl. by rewrite Ht; simpl; rewrite Hr. Qed.

Lemma exec_call sh ths t op now th th' :
  ths !! t = Some th -> call m op now th = Some th' ->
  exec (Call t op now) (sh, ths) = Some (sh, <[t:=th']> ths).
Proof. intros Ht Hr. unfold exec. simpl. by rewrite Ht; simpl; rewrite Hr. Qed.

Lemma execs_app ls1 ls2 c : execs (ls1 ++ ls2) c = c' ← execs ls1 c; execs ls2 c'.
Proof.
  revert c. induction ls1 as [|l ls1 IH]; intros c; simpl; [done|].
  destruct (exec l c) as [c1|]; simpl; [apply IH|done].
Qed.

(** The configuration after an execution, for concrete ones. *)
Definition after (ls : list (label Op)) (c : config) : config := default c (execs ls c).

Lemma after_reach (P : label Op -> Prop) ls c0 :
  Forall P ls -> bool_decide (is_Some (execs ls c0)) = true ->
  reach P c0 ((after ls c0).1, (after ls c0).2).
Proof.
  intros HP [c Hc]%bool_decide_eq_true. unfold after. rewrite Hc. simpl.
  rewrite <- surjective_pairing. by eapply execs_reach.
Qed.
End Machines.

(** Invariants that depend on what has happened so far. *)
Lemma execs_history {Sh Th Op} (M : machine Sh Th Op) (I : list (label Op) -> config (Sh:=Sh) (Th:=Th) -> Prop) c0 :
  I [] c0 ->
  (forall ls t op now sh ths th th', I ls (sh, ths) -> ths !! t = Some th -> call M op now th = Some th' ->
     I (ls ++ [Call t op now]) (sh, <[t:=th']> ths)) ->
  (forall ls t o sh ths th th' sh', I ls (sh, ths) -> ths !! t = Some th -> run M o th sh = Some (th', sh') ->
     I (ls ++ [Run t o]) (sh', <[t:=th']> ths)) ->
  (forall ls x sh ths, I ls (sh, ths) -> I (ls ++ [Cancel x]) (cancel M x sh, ths)) ->
  forall ls c, execs M ls c0 = Some c -> I ls c.
Proof.
  intros H0 HC HR HX ls. induction ls as [|l ls IH] using rev_ind; intros c; [by intros [= <-]|].
  rewrite execs_app. intros ([sh ths] & Hc & Hl)%bind_Some. specialize (IH _ Hc). simpl in Hl.
  apply bind_Some in Hl as (c1 & Hl & [= <-]). destruct l as [t op now|t o|x]; simpl in Hl.
  - apply bind_Some in Hl as (th & Ht & Hl). apply bind_Some in Hl as (th' & Hc' & [= <-]). by eapply HC.
  - apply bind_Some in Hl as (th & Ht & Hl). apply bind_Some in Hl as ([th' sh'] & Hc' & [= <-]). by eapply HR.
  - injection Hl as <-. by apply HX.
Qed.

(** [n] steps of goroutine [t] with the default choices. *)
Definition o0 : oracle := Oracle false 0 0.
Definition runs {Op} (t n : nat) : list (label Op) := replicate n (Run t o0).

Definition any_label {Op} (_ : label Op) : Prop := True.

(** No context is ever cancelled. *)
Definition no_cancel {Op} (l : label Op) : Prop :=
  match l with Cancel _ => False | _ => True end.

#[export] Instance no_cancel_dec {Op} (l : label Op) : Decision (no_cancel l).
Proof. destruct l; simpl; apply _. Defined.

Lemma Forall_any {Op} (ls : list (label Op)) : Forall any_label ls.
Proof. by apply Forall_true. Qed.

(** * Strings *)

Lemma string_app_nil_r (a : string) : a +:+ "" = a.
Proof. induction a as [|x a IH]; [done|]. change (String x (a +:+ "") = String x a). by rewrite IH. Qed.

Lemma string_app_assoc (a b c : string) : (a +:+ b) +:+ c = a +:+ (b +:+ c).
Proof.
  induction a as [|x a IH]; [done|].
  change (String x ((a +:+ b) +:+ c) = String x (a +:+ (b +:+ c))). by rewrite IH.
Qed.

Lemma string_length_app (a b : string) : String.length (a +:+ b) = (String.length a + String.length b)%nat.
Proof.
  induction a as [|x a IH]; [done|].
  change (S (String.length (a +:+ b)) = S (String.length a + String.length b)). by rewrite IH.
Qed.

(** Concatenation of a list of strings. *)
Fixpoint concatS (l : list string) : string :=
  match l with [] => "" | x :: l => x +:+ concatS l end.

Lemma concatS_app l1 l2 : concatS (l1 ++ l2) = concatS l1 +:+ concatS l2.
Proof. induction l1 as [|x l1 IH]; simpl; [done|]. by rewrite IH, string_app_assoc. Qed.

(** * Automation *)

Create HintDb sync.

(** [inv_step]: take apart a hypothesis [f ... = Some _] about a step
    function, splitting every test the function makes. *)
Ltac inv_step H :=
  simpl in H;
  lazymatch type of H with
  | mbind _ _ = Some _ =>
      let H1 := fresh H in
      apply bind_Some in H as (? & H1 & H); inv_step H1; inv_step H
  | None = Some _ => discriminate H
  | _ =>
      first
        [ match type of H with
          | context [match ?x with _ => _ end] =>
              lazymatch x with
              | context [match _ with _ => _ end] => fail
              | _ => destruct x eqn:?; inv_step H
              end
          end
        | injection H as; subst
        | idtac ]
  end.

(** Turn boolean tests on integers in the context into facts for [lia]. *)
Ltac bool_facts :=
  repeat match goal with
  | H : (_ =? _) = true |- _ => apply Z.eqb_eq in H
  | H : (_ =? _) = false |- _ => apply Z.eqb_neq in H
  | H : (_ <? _) = true |- _ => apply Z.ltb_lt in H
  | H : (_ <? _) = false |- _ => apply Z.ltb_ge in H
  | H : (_ <=? _) = true |- _ => apply Z.leb_le in H
  | H : (_ <=? _) = false |- _ => apply Z.leb_gt in H
  | H : negb _ = true |- _ => apply negb_true_iff in H
  | H : negb _ = false |- _ => apply negb_false_iff in H
  | H : _ && _ = true |- _ => apply andb_true_iff in H as [? ?]
  | H : _ || _ = false |- _ => apply orb_false_iff in H as [? ?]
  end.

(** Decide a closed proposition by evaluation. *)
Ltac by_decide := apply (bool_decide_unpack _); vm_compute; exact I.
Ltac by_eval := vm_compute; reflexivity.
