(* ===== verification/Hindsight.v ===== *)
(** * Decisions taken back in time

    A lock-free operation may learn only later that what it saw was decisive:
    [Dequeue] of an empty queue sees nil, checks that head has not moved, and
    only then returns, when the queue need not be empty any more.  Its
    specification remembers what was seen (a machine with hindsight); the
    machines of the primitives decide at once.  This file shows that nothing
    is lost: an execution of the machine with hindsight is matched by one of
    the machine that decides at once, because the latter can reach every state
    in which some of the goroutines that may decide have done so. *)

From Stdlib Require Import ZArith Lia.
From stdpp Require Import base list.
From S2P Require Import Prelude.

(** [erase] forgets what a goroutine has seen, [early] is the state in which
    it would be had it decided when it saw it. *)
Class Hindsight {Sh ThH ThA Op : Type} (H : machine Sh ThH Op) (A : machine Sh ThA Op)
    (erase : ThH -> ThA) (early : ThH -> option ThA) : Prop := {
  hs_call : forall op now th th', call H op now th = Some th' ->
    call A op now (erase th) = Some (erase th') /\ early th' = None;
  hs_run : forall o th sh th' sh', run H o th sh = Some (th', sh') ->
    (early th' = None /\ exists o', run A o' (erase th) sh = Some (erase th', sh')) \/
    (sh' = sh /\ erase th' = erase th /\
       (early th' = early th \/ exists e o', early th' = Some e /\ run A o' (erase th) sh = Some (e, sh))) \/
    (sh' = sh /\ early th = Some (erase th') /\ early th' = None);
  hs_cancel : forall x sh, cancel H x sh = cancel A x sh
}.

Section Decide.
Context {Sh ThH ThA Op : Type} (H : machine Sh ThH Op) (A : machine Sh ThA Op).
Context (erase : ThH -> ThA) (early : ThH -> option ThA).
Context `{HS : !Hindsight H A erase early}.

(** A goroutine has decided, or not. *)
Definition decided (th : ThH) (a : ThA) : Prop := a = erase th \/ early th = Some a.

(** The goroutine [t] is put back to where it has not decided. *)
Lemma decided_back ths t th th' l :
  ths !! t = Some th -> Forall2 decided (<[t:=th']> ths) l ->
  exists a, l !! t = Some a /\ decided th' a /\ Forall2 decided ths (<[t:=erase th]> l) /\
    (forall b, decided th b -> Forall2 decided ths (<[t:=b]> l)) /\ <[t:=a]> l = l.
Proof.
  intros Ht HF. assert (Hlt : (t < length ths)%nat) by (by eapply lookup_lt_Some).
  destruct (Forall2_lookup_l _ _ _ t th' HF) as (a & Ha & Hd); [by apply list_lookup_insert_eq|].
  assert (K : forall b, decided th b -> Forall2 decided ths (<[t:=b]> l)).
  { intros b Hb. rewrite <- (list_insert_id ths t th Ht), <- (list_insert_insert_eq ths t th th').
    by apply Forall2_insert. }
  exists a. split_and!; [done|done| |done|by apply list_insert_id]. apply K. by left.
Qed.

Lemma decided_steps start sh ths :
  Forall (fun th => early th = None) start.2 ->
  reach H any_label start (sh, ths) ->
  forall l, Forall2 decided ths l -> reach A any_label (start.1, erase <$> start.2) (sh, l).
Proof.
  intros H0 HR. remember (sh, ths) as c eqn:E. revert sh ths E.
  induction HR as [|l0 [sh0 ths0] c' HR IH _ He]; intros sh ths -> l HF.
  - simpl in *. assert (l = erase <$> ths) as ->; [|apply reach_refl].
    clear - H0 HF. revert l HF. induction H0 as [|th ths Hth _ IH]; intros l HF.
    + apply Forall2_nil_inv_l in HF as ->. done.
    + apply Forall2_cons_inv_l in HF as (a & l' & Ha & HF & ->). simpl.
      rewrite (IH l' HF). destruct Ha as [->|Ha]; [done|congruence].
  - specialize (IH sh0 ths0 eq_refl). destruct l0 as [t op now|t o|x]; simpl in He.
    + apply bind_Some in He as (th & Ht & He). apply bind_Some in He as (th' & Hc & [= <- <-]).
      destruct (hs_call _ _ _ _ Hc) as [HA Hn].
      destruct (decided_back ths0 t th th' l Ht HF) as (a & Ha & Hd & HF' & _ & El).
      destruct Hd as [->|Hd]; [|congruence]. apply IH in HF'. eapply (reach_step _ _ _ (Call t op now)); [exact HF'|done|].
      simpl. rewrite list_lookup_insert_eq by (by eapply lookup_lt_Some). simpl. rewrite HA. simpl.
      by rewrite list_insert_insert_eq, El.
    + apply bind_Some in He as (th & Ht & He). apply bind_Some in He as ([th' sh'] & Hc & [= <- <-]).
      destruct (decided_back ths0 t th th' l Ht HF) as (a & Ha & Hd & HF' & HB & El).
      assert (Step : forall o' b, run A o' (erase th) sh0 = Some (b, sh') -> a = b -> reach A any_label (start.1, erase <$> start.2) (sh', l)).
      { intros o' b HA ->. apply IH in HF'. eapply (reach_step _ _ _ (Run t o')); [exact HF'|done|].
        simpl. rewrite list_lookup_insert_eq by (by eapply lookup_lt_Some). simpl. rewrite HA. simpl.
        by rewrite list_insert_insert_eq, El. }
      assert (Stay : sh' = sh0 -> decided th a -> reach A any_label (start.1, erase <$> start.2) (sh', l)).
      { intros -> Hb. apply IH. rewrite <- El. by apply HB. }
      destruct (hs_run _ _ _ _ _ Hc) as [[Hn [o' HA]]|[(-> & Ee & [Ey|(e & o' & Ey & HA)])|(-> & Ey & Hn)]].
      * destruct Hd as [Hd|Hd]; [by eapply Step|congruence].
      * apply Stay; [done|]. destruct Hd as [->|Hd]; [left; done|right; congruence].
      * destruct Hd as [->|Hd]; [apply Stay; [done|left; done]|]. eapply Step; [exact HA|congruence].
      * destruct Hd as [->|Hd]; [apply Stay; [done|by right]|congruence].
    + injection He as <- <-. eapply (reach_step _ _ _ (Cancel x)); [by apply IH|done|]. simpl. by rewrite (@hs_cancel _ _ _ _ _ _ _ _ HS).
Qed.

(** Every execution with hindsight is one of the machine that decides at
    once, as far as anybody can tell. *)
Lemma hindsight_refines start sh ths :
  Forall (fun th => early th = None) start.2 -> reach H any_label start (sh, ths) ->
  reach A any_label (start.1, erase <$> start.2) (sh, erase <$> ths).
Proof.
  intros H0 HR. apply (decided_steps start sh ths H0 HR). apply Forall2_fmap_r.
  apply Forall_Forall2_diag. apply Forall_true. by left.
Qed.
End Decide.
