(* ===== verification/Waiter.v ===== *)
(** * Waiters and waiter queues (internal/primitives/waiter.go)

    A [Waiter] parks one goroutine: a buffered channel of capacity one
    ([Ready], here the boolean "the channel holds a token") and the flag
    [cancelled] that tells dequeuers to skip it.  Waiters are recycled
    through a [sync.Pool].

    [WaiterQueue] is the interface the primitives use: the operations of the
    lock-free queue at the granularity at which their effects become visible,
    that is, linking a node, unlinking a node and moving the size counter are
    separate atomic steps.  MSQueue.v proves that the pointer-level
    Michael-Scott code implements exactly these steps.

    The second half of the file is the protocol all the primitives follow
    when they park a goroutine: who owns a waiter and who may still hold a
    reference to it ([WInv]), with one preservation lemma per kind of step. *)

From Stdlib Require Import ZArith Lia.
From stdpp Require Import base list gmap strings.
From S2P Require Import Prelude.

#[local] Open Scope Z_scope.

(** ** The heap of waiters and the pool *)

Record Waiter := mkWaiter {
  ID : Z;
  Ready : bool;        (* chan struct{} of capacity 1: does it hold a token? *)
  CreatedAt : Z;
  cancelled : bool
}.

(** A waiter as [sync.Pool]'s [New] function makes it. *)
Definition newWaiter : Waiter := mkWaiter 0 false 0 false.

(** Pointers to waiters are natural numbers; [nextp] is the next unused one. *)
Record wstore := mkStore {
  heap : gmap nat Waiter;
  pool : list nat;
  nextp : nat;
  waiterIDCounter : Z
}.

Definition emptyStore : wstore := mkStore ∅ [] 0 0.

Definition wget (s : wstore) (w : nat) : Waiter := default newWaiter (heap s !! w).

Definition wset (w : nat) (x : Waiter) (s : wstore) : wstore :=
  mkStore (<[w:=x]> (heap s)) (pool s) (nextp s) (waiterIDCounter s).

Definition setReady (b : bool) (x : Waiter) : Waiter :=
  mkWaiter (ID x) b (CreatedAt x) (cancelled x).
Definition setCancelled (b : bool) (x : Waiter) : Waiter :=
  mkWaiter (ID x) (Ready x) (CreatedAt x) b.

(** [waiterPool.Get()]: any pooled waiter, or a new one. *)
Definition poolGet (o : oracle) (s : wstore) : nat * wstore :=
  match pool s !! pick o with
  | Some w => (w, mkStore (heap s) (delete (pick o) (pool s)) (nextp s) (waiterIDCounter s))
  | None => (nextp s, mkStore (<[nextp s:=newWaiter]> (heap s)) (pool s) (S (nextp s))
                              (waiterIDCounter s))
  end.

(** The goroutine is the only one that knows the waiter until it enqueues it,
    so taking it from the pool, draining the channel and resetting the fields
    is one step ([WInv] below states that no one else holds a reference). *)
Definition getWaiter (o : oracle) (s : wstore) : nat * wstore :=
  let '(w, s) := poolGet o s in
  let id := addU64 (waiterIDCounter s) 1 in
  let s := mkStore (heap s) (pool s) (nextp s) id in
  (w, wset w (mkWaiter id false (clk o) false) s).

Definition putWaiter (w : nat) (s : wstore) : wstore :=
  let s := wset w (setCancelled false (setReady false (wget s w))) s in
  mkStore (heap s) (w :: pool s) (nextp s) (waiterIDCounter s).

#[global] Arguments putWaiter : simpl never.

Definition NewWaiter (o : oracle) (s : wstore) : nat * wstore := getWaiter o s.

(** ** Waking and parking *)

(** [Signal]: a non-blocking send on a channel of capacity one. *)
Definition Signal (w : nat) (s : wstore) : wstore := wset w (setReady true (wget s w)) s.

(** [Wait]: receive from the channel; [None] while it is empty. *)
Definition Wait (w : nat) (s : wstore) : option wstore :=
  if Ready (wget s w) then Some (wset w (setReady false (wget s w)) s) else None.

(** [WaitTimeout]: a [select] between the channel and a timer that may have
    fired; when both are ready Go picks either ([alt] true picks the timer). *)
Definition WaitTimeout (o : oracle) (w : nat) (s : wstore) : option (bool * wstore) :=
  if alt o then Some (false, s)
  else s' ← Wait w s; Some (true, s').

(** [WaitContext] up to the choice of a branch: [Some (true, _)] received a
    token, [Some (false, _)] saw the context done.  The store to [cancelled]
    that the second branch makes next is a step of its own. *)
Definition WaitContext (o : oracle) (ctxdone : bool) (w : nat) (s : wstore)
    : option (bool * wstore) :=
  if alt o && ctxdone then Some (false, s)
  else s' ← Wait w s; Some (true, s').

Definition cancelWaiter (w : nat) (s : wstore) : wstore :=
  wset w (setCancelled true (wget s w)) s.

(** ** The queue *)

Record WaiterQueue := mkQueue { items : list nat; qsize : Z }.

Definition NewWaiterQueue : WaiterQueue := mkQueue [] 0.

(** [Enqueue] becomes visible in two steps: the node is linked at the tail,
    then the size counter is incremented. *)
Definition Enqueue_link (w : nat) (q : WaiterQueue) : WaiterQueue :=
  mkQueue (items q ++ [w]) (qsize q).
Definition Enqueue_size (q : WaiterQueue) : WaiterQueue :=
  mkQueue (items q) (add64 (qsize q) 1).

(** [Dequeue]: unlink the first node, decrement the size, test [cancelled];
    a cancelled waiter goes back to the pool and the loop starts again. *)
Inductive dqpc := DqPop | DqSize (w : nat) | DqCheck (w : nat) | DqPut (w : nat).

Definition Dequeue_step (p : dqpc) (q : WaiterQueue) (s : wstore)
    : outcome dqpc (option nat) * WaiterQueue * wstore :=
  match p with
  | DqPop =>
      match items q with
      | [] => (Return None, q, s)
      | w :: l => (Next (DqSize w), mkQueue l (qsize q), s)
      end
  | DqSize w => (Next (DqCheck w), mkQueue (items q) (add64 (qsize q) (-1)), s)
  | DqCheck w => (if cancelled (wget s w) then Next (DqPut w) else Return (Some w), q, s)
  | DqPut w => (Next DqPop, q, putWaiter w s)
  end.

Definition Size (q : WaiterQueue) : Z := if qsize q <? 0 then 0 else qsize q.
Definition IsEmpty (q : WaiterQueue) : bool := Size q =? 0.

(** ** The shared state of a component: the primitive itself, the waiters of
    the process and the set of contexts that are done. *)

Record world (P : Type) := World { prim : P; store : wstore; ctxs : gset nat }.
Arguments World {P} _ _ _.
Arguments prim {P} _.
Arguments store {P} _.
Arguments ctxs {P} _.

Definition ctxDone {P} (c : nat) (w : world P) : bool := bool_decide (c ∈ ctxs w).
Definition cancelCtx {P} (c : nat) (w : world P) : world P :=
  World (prim w) (store w) ({[c]} ∪ ctxs w).
Definition withPrim {P} (p : P) (w : world P) : world P := World p (store w) (ctxs w).
Definition withStore {P} (s : wstore) (w : world P) : world P := World (prim w) s (ctxs w).

Lemma ctxDone_empty {P} c (w : world P) : ctxs w = ∅ -> ctxDone c w = false.
Proof. intros E. unfold ctxDone. rewrite E. apply bool_decide_eq_false_2. set_solver. Qed.

(** ** Reading back *)

Lemma wget_wset_eq w x s : wget (wset w x s) w = x.
Proof. unfold wget, wset. simpl. by rewrite lookup_insert_eq. Qed.

Lemma wget_wset_ne w w' x s : w <> w' -> wget (wset w x s) w' = wget s w'.
Proof. intros. unfold wget, wset. simpl. by rewrite lookup_insert_ne. Qed.

Lemma wget_wset w w' x s :
  wget (wset w x s) w' = if decide (w = w') then x else wget s w'.
Proof. case_decide; [subst; apply wget_wset_eq|by apply wget_wset_ne]. Qed.

Lemma wget_mkStore s p n i w : wget (mkStore (heap s) p n i) w = wget s w.
Proof. done. Qed.

Lemma wget_put w w' s :
  wget (putWaiter w s) w' =
  if decide (w = w') then setCancelled false (setReady false (wget s w)) else wget s w'.
Proof. unfold putWaiter. rewrite wget_mkStore. apply wget_wset. Qed.

Lemma pool_put w s : pool (putWaiter w s) = w :: pool s.
Proof. done. Qed.

Lemma nextp_put w s : nextp (putWaiter w s) = nextp s.
Proof. done. Qed.

Lemma pool_wset w x s : pool (wset w x s) = pool s.
Proof. done. Qed.

Lemma nextp_wset w x s : nextp (wset w x s) = nextp s.
Proof. done. Qed.

(** A waiter taken from the pool holds no token. *)
Lemma getWaiter_tokens o s w s' x :
  getWaiter o s = (w, s') -> Ready (wget s x) = false -> Ready (wget s' x) = false.
Proof.
  unfold getWaiter, poolGet. destruct (pool s !! pick o); intros [= <- <-] Hr;
    rewrite wget_wset; case_decide; try done.
  unfold wget in *. simpl. by rewrite lookup_insert_ne.
Qed.

(** * The parking protocol

    Seen from the protocol, a goroutine may own a waiter (the local variable
    [waiter] of an acquiring operation) and may have one in its hands (a
    waiter it has dequeued):
    - [OPriv w]: it owns [w] and nobody else refers to it;
    - [OShared w]: it owns [w] and has published it in a queue;
    - [OCanc w]: it owns a published [w] that it is about to cancel;
    - [HRaw w]: it has unlinked [w] but not yet tested [cancelled];
    - [HDead w]: it has found [w] cancelled and will return it to the pool;
    - [HSig w]: it has found [w] alive and will signal it. *)

Inductive ophase := ONone | OPriv (w : nat) | OShared (w : nat) | OCanc (w : nat).
Inductive hphase := HNone | HRaw (w : nat) | HDead (w : nat) | HSig (w : nat).
Record role := Role { own : ophase; hand : hphase }.

Definition idleRole : role := Role ONone HNone.

Definition priv (r : role) : option nat := match own r with OPriv w => Some w | _ => None end.
Definition shared (r : role) : option nat := match own r with OShared w => Some w | _ => None end.
Definition canc (r : role) : option nat := match own r with OCanc w => Some w | _ => None end.
Definition raw (r : role) : option nat := match hand r with HRaw w => Some w | _ => None end.
Definition dead (r : role) : option nat := match hand r with HDead w => Some w | _ => None end.
Definition alive (r : role) : option nat := match hand r with HSig w => Some w | _ => None end.

Definition refers (f : role -> option nat) (w : nat) (r : role) : Z :=
  match f r with Some x => hit w x | None => 0 end.
Definition cnt (f : role -> option nat) (w : nat) (rs : list role) : Z := sumf (refers f w) rs.

Lemma refers_bound f w r : 0 <= refers f w r <= 1.
Proof. unfold refers. destruct (f r); [apply hit_bound|lia]. Qed.

Lemma cnt_nonneg f w rs : 0 <= cnt f w rs.
Proof. apply sumf_nonneg. apply refers_bound. Qed.

(** The numbers of references of each kind to one waiter, its two flags and
    whether the pointer is still unused, and what they must satisfy. *)
Definition wok (P S C I R D G L : Z) (rd cn : bool) (unused : Prop) : Prop :=
  0 <= P /\ 0 <= S /\ 0 <= C /\ 0 <= I /\ 0 <= R /\ 0 <= D /\ 0 <= G /\ 0 <= L /\
  P + S + C + L <= 1 /\
  I + R + D + G + L + P <= 1 /\
  (1 <= S + C -> I + R + D + G + Z.b2z rd = 1) /\
  (1 <= P -> rd = false) /\
  (cn = true -> P + S + C = 0) /\
  (1 <= I + R -> cn = false -> 1 <= S + C) /\
  (1 <= D -> cn = true) /\
  (unused -> P + S + C + I + R + D + G + L = 0).

(** [WInv rs its s]: for every waiter there is at most one owner and at most
    one other reference; a pooled or private waiter is referred to by nobody
    else; a published waiter whose owner has not cancelled it is in a queue
    ([its]), in somebody's hands, or signalled; a cancelled waiter has no owner; a waiter in a queue that is
    not cancelled has one. *)
Definition WInv (rs : list role) (its : list nat) (s : wstore) : Prop :=
  forall w, wok (cnt priv w rs) (cnt shared w rs) (cnt canc w rs) (occ w its)
                (cnt raw w rs) (cnt dead w rs) (cnt alive w rs) (occ w (pool s))
                (Ready (wget s w)) (cancelled (wget s w)) (nextp s <= w)%nat.

Lemma cnt_insert f w rs t r r' :
  rs !! t = Some r -> cnt f w (<[t:=r']> rs) = cnt f w rs - refers f w r + refers f w r'.
Proof. apply sumf_insert. Qed.

Lemma cnt_lookup f w rs t r : rs !! t = Some r -> refers f w r <= cnt f w rs.
Proof. apply sumf_lookup_le. apply refers_bound. Qed.

Lemma hit_cases w x : (x = w /\ hit w x = 1) \/ (x <> w /\ hit w x = 0).
Proof. destruct (decide (x = w)) as [->|?]; [left; split; [done|apply hit_refl]|right; split; [done|by apply hit_ne]]. Qed.

(** Unfold the goal and the hypothesis [H : WInv ...] at one waiter [x] and
    leave a linear arithmetic goal. *)
Ltac winv_at H Ht x :=
  specialize (H x); unfold cancelWaiter, Signal; unfold WInv, wok in H |- *;
  rewrite !(cnt_insert _ _ _ _ _ _ Ht);
  pose proof (cnt_lookup priv x _ _ _ Ht); pose proof (cnt_lookup shared x _ _ _ Ht);
  pose proof (cnt_lookup canc x _ _ _ Ht); pose proof (cnt_lookup raw x _ _ _ Ht);
  pose proof (cnt_lookup dead x _ _ _ Ht); pose proof (cnt_lookup alive x _ _ _ Ht);
  repeat match goal with
  | |- context [cnt ?f x ?l] => let n := fresh "n" in set (n := cnt f x l) in *; clearbody n
  end;
  unfold refers, priv, shared, canc, raw, dead, alive in *; simpl in *;
  rewrite ?pool_put, ?nextp_put;
  repeat (rewrite wget_wset || rewrite wget_mkStore || rewrite wget_put); rewrite ?occ_app; unfold occ in *; simpl in *;
  rewrite ?Z.add_0_r.

Ltac winv_solve := 
  repeat match goal with
  | |- context [hit ?x ?w] =>
      let E := fresh "E" in
      destruct (hit_cases x w) as [[? E]|[? E]]; rewrite ?E in *; clear E; subst
  end;
  repeat case_decide; subst; try done; simpl in *;
  repeat match goal with
  | H : Ready (wget ?s ?w) = _ |- _ => rewrite H in *; clear H
  | H : cancelled (wget ?s ?w) = _ |- _ => rewrite H in *; clear H
  | _ : context [Ready (wget ?s ?w)] |- _ => destruct (Ready (wget s w))
  | _ : context [cancelled (wget ?s ?w)] |- _ => destruct (cancelled (wget s w))
  end; simpl in *;
  repeat match goal with
  | H : _ /\ _ |- _ => destruct H
  | |- _ /\ _ => split
  end; intros; simpl in *; try congruence; try lia; intuition (try congruence; try lia).

Section Protocol.
Context (rs : list role) (its : list nat) (s : wstore) (t : nat).

Lemma WInv_pool_get o h w s' :
  WInv rs its s -> rs !! t = Some (Role ONone h) -> getWaiter o s = (w, s') ->
  WInv (<[t:=Role (OPriv w) h]> rs) its s'.
Proof.
  intros H Ht. unfold getWaiter, poolGet.
  destruct (pool s !! pick o) as [w0|] eqn:Hp; intros E; simplify_eq.
  - intros x. winv_at H Ht x. rewrite (sumf_delete _ _ _ _ Hp).
    pose proof (sumf_lookup_le (hit x) _ _ _ (fun z => proj1 (hit_bound x z)) Hp).
    winv_solve.
  - intros x. winv_at H Ht x.
    assert (Hg : nextp s <> x -> wget (mkStore (<[nextp s:=newWaiter]> (heap s)) (pool s)
              (S (nextp s)) (addU64 (waiterIDCounter s) 1)) x = wget s x).
    { intros. unfold wget. simpl. by rewrite lookup_insert_ne. }
    destruct (hit_cases x (nextp s)) as [[Hx ->]|[Hx ->]]; subst.
    + rewrite decide_True by done. winv_solve.
    + rewrite decide_False, Hg by done. winv_solve.
Qed.

Lemma WInv_publish h w :
  WInv rs its s -> rs !! t = Some (Role (OPriv w) h) ->
  WInv (<[t:=Role (OShared w) h]> rs) (its ++ [w]) s.
Proof. intros H Ht x. winv_at H Ht x. winv_solve. Qed.

(** The published waiter is about to be cancelled by its owner ... *)
Lemma WInv_take h w :
  WInv rs its s -> rs !! t = Some (Role (OShared w) h) ->
  WInv (<[t:=Role (OCanc w) h]> rs) its s.
Proof. intros H Ht x. winv_at H Ht x. winv_solve. Qed.

(** ... which then forgets it. *)
Lemma WInv_cancel_taken h w :
  WInv rs its s -> rs !! t = Some (Role (OCanc w) h) ->
  WInv (<[t:=Role ONone h]> rs) its (cancelWaiter w s).
Proof. intros H Ht x. winv_at H Ht x. winv_solve. Qed.

Lemma WInv_cancel h w :
  WInv rs its s -> rs !! t = Some (Role (OShared w) h) ->
  WInv (<[t:=Role ONone h]> rs) its (cancelWaiter w s).
Proof. intros H Ht x. winv_at H Ht x. winv_solve. Qed.

Lemma WInv_receive h w s' :
  WInv rs its s -> rs !! t = Some (Role (OShared w) h) -> Wait w s = Some s' ->
  WInv (<[t:=Role (OPriv w) h]> rs) its s'.
Proof.
  unfold Wait. intros H Ht E. destruct (Ready (wget s w)) eqn:Hr; simplify_eq.
  intros x. winv_at H Ht x. winv_solve.
Qed.

Lemma WInv_put h w :
  WInv rs its s -> rs !! t = Some (Role (OPriv w) h) ->
  WInv (<[t:=Role ONone h]> rs) its (putWaiter w s).
Proof.
  intros H Ht x. winv_at H Ht x. winv_solve.
Qed.

Lemma WInv_unlink o w :
  WInv rs (w :: its) s -> rs !! t = Some (Role o HNone) ->
  WInv (<[t:=Role o (HRaw w)]> rs) its s.
Proof. intros H Ht x. pose proof (occ_nonneg x its). winv_at H Ht x. winv_solve. Qed.

Lemma WInv_alive o w :
  WInv rs its s -> rs !! t = Some (Role o (HRaw w)) ->
  WInv (<[t:=Role o (HSig w)]> rs) its s.
Proof. intros H Ht x. winv_at H Ht x. winv_solve. Qed.

Lemma WInv_dead o w :
  WInv rs its s -> rs !! t = Some (Role o (HRaw w)) -> cancelled (wget s w) = true ->
  WInv (<[t:=Role o (HDead w)]> rs) its s.
Proof. intros H Ht Hc x. winv_at H Ht x. winv_solve. Qed.

Lemma WInv_recycle o w :
  WInv rs its s -> rs !! t = Some (Role o (HDead w)) ->
  WInv (<[t:=Role o HNone]> rs) its (putWaiter w s).
Proof. intros H Ht x. winv_at H Ht x. winv_solve. Qed.

Lemma WInv_signal o w :
  WInv rs its s -> rs !! t = Some (Role o (HSig w)) ->
  WInv (<[t:=Role o HNone]> rs) its (Signal w s).
Proof. intros H Ht x. winv_at H Ht x. winv_solve. Qed.

(** Steps that do not touch waiters. *)
Lemma WInv_same r : WInv rs its s -> rs !! t = Some r -> WInv (<[t:=r]> rs) its s.
Proof. intros H Ht. by rewrite list_insert_id. Qed.
End Protocol.

(** The order of the queues does not matter to the protocol. *)
#[export] Instance occ_perm w : Proper ((≡ₚ) ==> (=)) (occ w).
Proof.
  induction 1 as [|x l l' _ IH|x y l|l1 l2 l3 _ IH1 _ IH2]; unfold occ in *; simpl; lia.
Qed.

#[export] Instance WInv_perm rs : Proper ((≡ₚ) ==> (=) ==> iff) (WInv rs).
Proof.
  intros l l' Hl s ? <-. unfold WInv. setoid_rewrite Hl. done.
Qed.

Lemma WInv_init n : WInv (replicate n idleRole) [] emptyStore.
Proof.
  intros w. unfold cnt. rewrite !sumf_replicate by done. unfold wok, occ; simpl; lia.
Qed.

(** ** [Dequeue] within the protocol *)

Definition dqHand (p : dqpc) : hphase :=
  match p with DqPop => HNone | DqSize w | DqCheck w => HRaw w | DqPut w => HDead w end.

Definition dqOut (r : outcome dqpc (option nat)) : hphase :=
  match r with
  | Next p => dqHand p
  | Return (Some w) => HSig w
  | _ => HNone
  end.

Lemma WInv_dequeue rs l t o p q s r q' s' :
  WInv rs (items q ++ l) s -> rs !! t = Some (Role o (dqHand p)) ->
  Dequeue_step p q s = (r, q', s') ->
  WInv (<[t:=Role o (dqOut r)]> rs) (items q' ++ l) s'.
Proof.
  intros H Ht E. destruct p as [|w|w|w]; simpl in *.
  - destruct (items q) as [|w its] eqn:Hi; simplify_eq; simpl.
    + rewrite Hi. by apply WInv_same.
    + by apply WInv_unlink.
  - simplify_eq. by apply WInv_same.
  - destruct (cancelled (wget s w)) eqn:Hc; simplify_eq; simpl.
    + by apply WInv_dead.
    + by apply WInv_alive.
  - simplify_eq; simpl. by apply WInv_recycle.
Qed.

Lemma WInv_enqueue rs l t h w q s :
  WInv rs (items q ++ l) s -> rs !! t = Some (Role (OPriv w) h) ->
  WInv (<[t:=Role (OShared w) h]> rs) (items (Enqueue_link w q) ++ l) s.
Proof.
  intros H Ht. simpl. rewrite <- app_assoc, (Permutation_app_comm [w] l), app_assoc.
  by apply WInv_publish.
Qed.

(** ** What the protocol guarantees *)

Lemma cnt_pos f w rs t r : rs !! t = Some r -> f r = Some w -> 1 <= cnt f w rs.
Proof.
  intros Ht Hf. pose proof (cnt_lookup f w _ _ _ Ht) as H.
  unfold refers in H. by rewrite Hf, hit_refl in H.
Qed.

Lemma cnt_exists f w rs : 0 < cnt f w rs -> exists t r, rs !! t = Some r /\ f r = Some w.
Proof.
  intros Hf. destruct (sumf_pos _ _ Hf) as (t & r & Hl & Hp). exists t, r. split; [done|].
  unfold refers in Hp. destruct (f r) as [x|]; [|lia].
  destruct (hit_cases w x) as [[-> _]|[_ E]]; [done|lia].
Qed.

(** A goroutine parked on a waiter that has no token: the waiter is still in
    a queue or in the hands of a goroutine that will signal it. *)
Lemma WInv_parked rs its s t h w :
  WInv rs its s -> rs !! t = Some (Role (OShared w) h) -> Ready (wget s w) = false ->
  w ∈ its \/ exists t' r, rs !! t' = Some r /\ (raw r = Some w \/ dead r = Some w \/ alive r = Some w).
Proof.
  intros H Ht Hr. specialize (H w). unfold wok in H. rewrite Hr in H.
  pose proof (cnt_pos shared w _ _ _ Ht eq_refl) as Hs.
  assert (Hsum : occ w its + cnt raw w rs + cnt dead w rs + cnt alive w rs = 1) by (simpl in H; lia).
  destruct (decide (1 <= occ w its)) as [Ho|Ho]; [left; by apply occ_elem|right].
  pose proof (occ_nonneg w its). pose proof (cnt_nonneg raw w rs).
  pose proof (cnt_nonneg dead w rs). pose proof (cnt_nonneg alive w rs).
  destruct (decide (0 < cnt raw w rs)) as [Ha|Ha]; [|destruct (decide (0 < cnt dead w rs)) as [Hb|Hb];
    [|assert (Hd : 0 < cnt alive w rs) by lia]].
  - destruct (cnt_exists _ _ _ Ha) as (t' & r & ? & ?). eauto 10.
  - destruct (cnt_exists _ _ _ Hb) as (t' & r & ? & ?). eauto 10.
  - destruct (cnt_exists _ _ _ Hd) as (t' & r & ? & ?). eauto 10.
Qed.

(** A waiter somebody has unlinked and found alive is still owned. *)
Lemma WInv_live_owner rs its s t o w :
  WInv rs its s -> rs !! t = Some (Role o (HRaw w)) -> cancelled (wget s w) = false ->
  exists t' r, rs !! t' = Some r /\ (own r = OShared w \/ own r = OCanc w).
Proof.
  intros H Ht Hc. specialize (H w). unfold wok in H. rewrite Hc in H.
  pose proof (cnt_pos raw w _ _ _ Ht eq_refl) as Hs.
  assert (Hsum : 0 < cnt shared w rs + cnt canc w rs) by (simpl in H; lia).
  pose proof (cnt_nonneg shared w rs). pose proof (cnt_nonneg canc w rs).
  assert (Hc' : 0 < cnt shared w rs \/ 0 < cnt canc w rs) by lia.
  destruct Hc' as [Hp|Hp]; destruct (cnt_exists _ _ _ Hp) as (t' & r & Hl & Hf);
    exists t', r; split; try done; unfold shared, canc in Hf;
    destruct (own r); simplify_eq; auto.
Qed.

Lemma Dequeue_no_panic p q s r q' s' e :
  Dequeue_step p q s = (r, q', s') -> r <> Panic e.
Proof. destruct p; simpl; repeat case_match; intros; simplify_eq; discriminate. Qed.

(** One queue, no other. *)
Lemma WInv_dequeue1 rs t o p q s r q' s' :
  WInv rs (items q) s -> rs !! t = Some (Role o (dqHand p)) ->
  Dequeue_step p q s = (r, q', s') ->
  WInv (<[t:=Role o (dqOut r)]> rs) (items q') s'.
Proof.
  intros H Ht E. rewrite <- (app_nil_r (items q')).
  eapply WInv_dequeue; [|done..]. by rewrite app_nil_r.
Qed.

Lemma WInv_deq_next rs t o p q s p' q' s' :
  WInv rs (items q) s -> rs !! t = Some (Role o (dqHand p)) ->
  Dequeue_step p q s = (Next p', q', s') ->
  WInv (<[t:=Role o (dqHand p')]> rs) (items q') s'.
Proof. intros. by eapply (WInv_dequeue1 _ _ _ _ _ _ (Next p')). Qed.

Lemma WInv_deq_some rs t o p q s w q' s' :
  WInv rs (items q) s -> rs !! t = Some (Role o (dqHand p)) ->
  Dequeue_step p q s = (Return (Some w), q', s') ->
  WInv (<[t:=Role o (HSig w)]> rs) (items q') s'.
Proof. intros. by eapply (WInv_dequeue1 _ _ _ _ _ _ (Return (Some w))). Qed.

Lemma WInv_deq_none rs t o p q s q' s' :
  WInv rs (items q) s -> rs !! t = Some (Role o (dqHand p)) ->
  Dequeue_step p q s = (Return None, q', s') ->
  WInv (<[t:=Role o HNone]> rs) (items q') s'.
Proof. intros. by eapply (WInv_dequeue1 _ _ _ _ _ _ (Return None)). Qed.

#[export] Hint Resolve WInv_same WInv_pool_get WInv_publish WInv_take WInv_cancel_taken
  WInv_cancel WInv_receive WInv_put WInv_signal WInv_deq_next WInv_deq_some WInv_deq_none
  WInv_enqueue : sync.

(** ** Two queues that share the pool *)
Section TwoQueues.
Context (rs : list role) (s : wstore) (t : nat) (rq wq : WaiterQueue).

Lemma two_enqueue_r h w :
  WInv rs (items rq ++ items wq) s -> rs !! t = Some (Role (OPriv w) h) ->
  WInv (<[t:=Role (OShared w) h]> rs) ((items rq ++ [w]) ++ items wq) s.
Proof. apply (WInv_enqueue rs (items wq) t h w rq s). Qed.

Lemma two_enqueue_w h w :
  WInv rs (items rq ++ items wq) s -> rs !! t = Some (Role (OPriv w) h) ->
  WInv (<[t:=Role (OShared w) h]> rs) (items rq ++ (items wq ++ [w])) s.
Proof. intros. rewrite app_assoc. by apply WInv_publish. Qed.

Lemma two_dequeue_r o d r q' s' :
  WInv rs (items rq ++ items wq) s -> rs !! t = Some (Role o (dqHand d)) ->
  Dequeue_step d rq s = (r, q', s') ->
  WInv (<[t:=Role o (dqOut r)]> rs) (items q' ++ items wq) s'.
Proof. apply WInv_dequeue. Qed.

Lemma two_dequeue_w o d r q' s' :
  WInv rs (items rq ++ items wq) s -> rs !! t = Some (Role o (dqHand d)) ->
  Dequeue_step d wq s = (r, q', s') ->
  WInv (<[t:=Role o (dqOut r)]> rs) (items rq ++ items q') s'.
Proof.
  intros H Ht E. rewrite (Permutation_app_comm (items rq)) in H |- *. by eapply WInv_dequeue.
Qed.

Lemma two_deq_next o d d' q' s' :
  WInv rs (items rq ++ items wq) s -> rs !! t = Some (Role o (dqHand d)) ->
  Dequeue_step d wq s = (Next d', q', s') ->
  WInv (<[t:=Role o (dqHand d')]> rs) (items rq ++ items q') s'.
Proof. intros. by eapply (two_dequeue_w _ _ (Next d')). Qed.

Lemma two_deq_some o d x q' s' :
  WInv rs (items rq ++ items wq) s -> rs !! t = Some (Role o (dqHand d)) ->
  Dequeue_step d wq s = (Return (Some x), q', s') ->
  WInv (<[t:=Role o (HSig x)]> rs) (items rq ++ items q') s'.
Proof. intros. by eapply (two_dequeue_w _ _ (Return (Some x))). Qed.

Lemma two_deq_none o d q' s' :
  WInv rs (items rq ++ items wq) s -> rs !! t = Some (Role o (dqHand d)) ->
  Dequeue_step d wq s = (Return None, q', s') ->
  WInv (<[t:=Role o HNone]> rs) (items rq ++ items q') s'.
Proof. intros. by eapply (two_dequeue_w _ _ (Return None)). Qed.
End TwoQueues.
#[export] Hint Resolve two_enqueue_r two_enqueue_w two_deq_next two_deq_some two_deq_none : sync.

(** [WaitTimeout] and [WaitContext] in terms of [Wait]. *)
Lemma WaitTimeout_inv o w s b s' :
  WaitTimeout o w s = Some (b, s') ->
  (b = true /\ Wait w s = Some s') \/ (b = false /\ s' = s).
Proof.
  unfold WaitTimeout. destruct (alt o); [intros [= <- <-]; by right|].
  destruct (Wait w s); simpl; [intros [= <- ->]; by left|done].
Qed.

Lemma WaitContext_inv o d w s b s' :
  WaitContext o d w s = Some (b, s') ->
  (b = true /\ Wait w s = Some s') \/ (b = false /\ s' = s /\ d = true).
Proof.
  unfold WaitContext. destruct (alt o), d; simpl;
    try (intros [= <- <-]; right; done);
    destruct (Wait w s); simpl; try done; intros [= <- ->]; by left.
Qed.

Section WaitVariants.
Context (rs : list role) (its : list nat) (s s' : wstore) (t : nat) (h : hphase) (w : nat).
Hypothesis Hinv : WInv rs its s.
Hypothesis Ht : rs !! t = Some (Role (OShared w) h).

Lemma WInv_ctx_true o d :
  WaitContext o d w s = Some (true, s') -> WInv (<[t:=Role (OPriv w) h]> rs) its s'.
Proof. intros [[_ ?]|[? _]]%WaitContext_inv; [eauto with sync|done]. Qed.

Lemma WInv_ctx_false o d :
  WaitContext o d w s = Some (false, s') -> WInv (<[t:=Role (OShared w) h]> rs) its s'.
Proof. intros [[? _]|(_ & -> & _)]%WaitContext_inv; [done|eauto with sync]. Qed.

Lemma WInv_timeout_true o :
  WaitTimeout o w s = Some (true, s') -> WInv (<[t:=Role (OPriv w) h]> rs) its s'.
Proof. intros [[_ ?]|[? _]]%WaitTimeout_inv; [eauto with sync|done]. Qed.

Lemma WInv_timeout_false o :
  WaitTimeout o w s = Some (false, s') -> WInv (<[t:=Role (OShared w) h]> rs) its s'.
Proof. intros [[? _]|(_ & ->)]%WaitTimeout_inv; [done|eauto with sync]. Qed.
End WaitVariants.
#[export] Hint Resolve WInv_ctx_true WInv_ctx_false WInv_timeout_true WInv_timeout_false : sync.

(** ** A delivered token stays

    The token of a waiter that a goroutine has published is consumed by that
    goroutine only: no step of another goroutine takes it away. *)
Section Tokens.
Context (rs : list role) (its : list nat) (s : wstore) (t t0 : nat) (h0 : hphase) (x : nat).
Hypothesis Hinv : WInv rs its s.
Hypothesis Ht0 : rs !! t0 = Some (Role (OShared x) h0).

Lemma shared_facts :
  cnt priv x rs = 0 /\ cnt shared x rs = 1 /\ cnt canc x rs = 0 /\ occ x (pool s) = 0 /\
  (x < nextp s)%nat /\ cancelled (wget s x) = false /\ cnt dead x rs = 0.
Proof.
  pose proof (Hinv x) as H. pose proof (cnt_pos shared x _ _ _ Ht0 eq_refl).
  unfold wok in H. destruct (cancelled (wget s x)).
  - exfalso. lia.
  - repeat split; try lia; try done.
Qed.

Lemma shared_unique r : t <> t0 -> rs !! t = Some r -> own r <> OShared x.
Proof.
  intros Hne Ht Hs. destruct shared_facts as (_ & Hc & _).
  pose proof (sumf_lookup_two (refers shared x) rs t t0 _ _
    (fun z => proj1 (refers_bound _ _ z)) Hne Ht Ht0) as Hle.
  unfold cnt in Hc. rewrite Hc in Hle. unfold refers, shared in Hle. simpl in Hle.
  rewrite Hs, hit_refl in Hle. lia.
Qed.

Lemma token_get o w s' :
  getWaiter o s = (w, s') -> Ready (wget s x) = true -> Ready (wget s' x) = true.
Proof.
  destruct shared_facts as (_ & _ & _ & Hp & Hn & _).
  unfold getWaiter, poolGet. destruct (pool s !! pick o) as [w0|] eqn:E; intros [= <- <-] Hr.
  - rewrite wget_wset. case_decide as Hw; [|by rewrite !wget_mkStore].
    pose proof (proj1 (occ_elem x (pool s))) as Ho. exfalso. subst.
    apply list_elem_of_lookup_2 in E. specialize (Ho E). lia.
  - rewrite wget_wset, decide_False by lia. unfold wget in *. simpl.
    rewrite lookup_insert_ne by lia. done.
Qed.

Lemma token_put_private w h :
  rs !! t = Some (Role (OPriv w) h) ->
  Ready (wget s x) = true -> Ready (wget (putWaiter w s) x) = true.
Proof.
  intros Ht Hr. rewrite wget_put. case_decide as E; [|done]. subst.
  destruct shared_facts as (H & _). pose proof (cnt_pos priv x _ _ _ Ht eq_refl). lia.
Qed.

Lemma token_recycle w o :
  rs !! t = Some (Role o (HDead w)) ->
  Ready (wget s x) = true -> Ready (wget (putWaiter w s) x) = true.
Proof.
  intros Ht Hr. rewrite wget_put. case_decide as E; [|done]. subst.
  destruct shared_facts as (_ & _ & _ & _ & _ & _ & H).
  pose proof (cnt_pos dead x _ _ _ Ht eq_refl). lia.
Qed.

Lemma token_signal w : Ready (wget s x) = true -> Ready (wget (Signal w s) x) = true.
Proof. intros. unfold Signal. rewrite wget_wset. by case_decide. Qed.

Lemma token_cancel w : Ready (wget s x) = true -> Ready (wget (cancelWaiter w s) x) = true.
Proof. intros. unfold cancelWaiter. rewrite wget_wset. case_decide; [by subst|done]. Qed.

Lemma token_wait w h s' :
  t <> t0 -> rs !! t = Some (Role (OShared w) h) -> Wait w s = Some s' ->
  Ready (wget s x) = true -> Ready (wget s' x) = true.
Proof.
  unfold Wait. intros Hne Ht E Hr. destruct (Ready (wget s w)); simplify_eq.
  rewrite wget_wset. case_decide as Hw; [|done]. subst.
  exfalso. by eapply (shared_unique _ Hne Ht).
Qed.

Lemma token_ctx o d b w h s' :
  t <> t0 -> rs !! t = Some (Role (OShared w) h) -> WaitContext o d w s = Some (b, s') ->
  Ready (wget s x) = true -> Ready (wget s' x) = true.
Proof. intros ? ? [[_ ?]|(_ & -> & _)]%WaitContext_inv; [by eapply token_wait|done]. Qed.

Lemma token_timeout o b w h s' :
  t <> t0 -> rs !! t = Some (Role (OShared w) h) -> WaitTimeout o w s = Some (b, s') ->
  Ready (wget s x) = true -> Ready (wget s' x) = true.
Proof. intros ? ? [[_ ?]|(_ & ->)]%WaitTimeout_inv; [by eapply token_wait|done]. Qed.

Lemma token_dequeue o p q r q' s' :
  rs !! t = Some (Role o (dqHand p)) -> Dequeue_step p q s = (r, q', s') ->
  Ready (wget s x) = true -> Ready (wget s' x) = true.
Proof.
  destruct p as [|w|w|w]; simpl; intros Ht E Hr; try (repeat case_match; simplify_eq; done).
  simplify_eq. by eapply token_recycle.
Qed.
End Tokens.
#[export] Hint Resolve token_get token_put_private token_signal token_cancel token_wait
  token_ctx token_timeout token_dequeue : sync.

(** A waiter in the hands of a goroutine that will signal it has no token. *)
Lemma in_hand_no_token rs its s t t0 o w h0 :
  WInv rs its s -> rs !! t = Some (Role o (HSig w)) ->
  rs !! t0 = Some (Role (OShared w) h0) -> Ready (wget s w) = false.
Proof.
  intros H Ht Ht0. specialize (H w). unfold wok in H.
  pose proof (cnt_pos shared w _ _ _ Ht0 eq_refl). pose proof (cnt_pos alive w _ _ _ Ht eq_refl).
  destruct (Ready (wget s w)); [|done]. simpl in H. lia.
Qed.

(** A pooled waiter is not in a queue and no goroutine refers to it. *)
Lemma WInv_pooled rs its s x :
  WInv rs its s -> x ∈ pool s ->
  (x ∉ its) /\ NoDup (pool s) /\
  forall t r, rs !! t = Some r ->
    own r <> OPriv x /\ own r <> OShared x /\ own r <> OCanc x /\
    hand r <> HRaw x /\ hand r <> HDead x /\ hand r <> HSig x.
Proof.
  intros H Hx.
  assert (Hn : NoDup (pool s)).
  { apply NoDup_alt. intros i j y Hi Hj. destruct (decide (i = j)) as [|Hne]; [done|].
    pose proof (sumf_lookup_two (hit y) _ i j y y (fun z => proj1 (hit_bound y z)) Hne Hi Hj) as Hle.
    rewrite hit_refl in Hle. specialize (H y). unfold wok, occ in H. lia. }
  specialize (H x). unfold wok in H. apply occ_elem in Hx.
  split; [|split; [done|]].
  - rewrite occ_elem. lia.
  - intros t [ow hd] Ht. simpl.
    pose proof (fun f => cnt_pos f x rs t _ Ht) as Hp.
    repeat split; intros ->; [specialize (Hp priv eq_refl)|specialize (Hp shared eq_refl)
      |specialize (Hp canc eq_refl)|specialize (Hp raw eq_refl)|specialize (Hp dead eq_refl)
      |specialize (Hp alive eq_refl)]; lia.
Qed.

(** Nobody but its owner refers to a private waiter. *)
Lemma WInv_private rs its s t r x :
  WInv rs its s -> rs !! t = Some r -> priv r = Some x ->
  (x ∉ its) /\
  forall t' r', rs !! t' = Some r' ->
    shared r' <> Some x /\ raw r' <> Some x /\ dead r' <> Some x /\ alive r' <> Some x.
Proof.
  intros H Hr Hp. specialize (H x). unfold wok in H. pose proof (cnt_pos priv x _ _ _ Hr Hp).
  split; [rewrite occ_elem; lia|]. intros t' r' Hr'.
  pose proof (fun f => cnt_pos f x rs t' _ Hr') as Hc.
  repeat split; intros E; specialize (Hc _ E); lia.
Qed.

(** ** A call of [Dequeue] that runs alone *)

Fixpoint Dequeue (fuel : nat) (p : dqpc) (q : WaiterQueue) (s : wstore)
    : option (option nat * WaiterQueue * wstore) :=
  match fuel with
  | O => None
  | S fuel =>
      match Dequeue_step p q s with
      | (Next p', q', s') => Dequeue fuel p' q' s'
      | (Return r, q', s') => Some (r, q', s')
      | (Panic _, _, _) => None
      end
  end.

(** The cancelled waiters at the front of the queue, and what follows them. *)
Fixpoint skipCancelled (s : wstore) (l : list nat) : list nat * list nat :=
  match l with
  | [] => ([], [])
  | w :: l' =>
      if cancelled (wget s w) then (w :: (skipCancelled s l').1, (skipCancelled s l').2)
      else ([], l)
  end.

Lemma skipCancelled_split s l : (skipCancelled s l).1 ++ (skipCancelled s l).2 = l.
Proof. induction l as [|w l IH]; simpl; [done|]. case_match; simpl; [|done]. by rewrite IH. Qed.

Lemma skipCancelled_ext s s' l :
  (forall w, w ∈ l -> cancelled (wget s w) = cancelled (wget s' w)) ->
  skipCancelled s l = skipCancelled s' l.
Proof.
  induction l as [|w l IH]; intros E; simpl; [done|].
  rewrite (E w) by (by left). rewrite IH; [done|]. intros; apply E; by right.
Qed.

(** [Dequeue] terminates and returns the first waiter, in FIFO order,
    that has not been cancelled; the cancelled ones before it are recycled,
    what follows it stays queued, and the size counter moves by the number
    of nodes unlinked.  It returns nil exactly when every queued waiter is
    cancelled. *)
Theorem dequeue_first_live l z s fuel :
  NoDup l -> (4 * length l < fuel)%nat ->
  let (dead, rest) := skipCancelled s l in
  exists s',
    Dequeue fuel DqPop (mkQueue l z) s =
      Some (head rest,
            mkQueue (tail rest) (fold_left (fun n _ => add64 n (-1)) (dead ++ take 1 rest) z), s') /\
    pool s' = rev dead ++ pool s /\
    (forall w, w ∉ dead -> wget s' w = wget s w).
Proof.
  revert z s fuel. induction l as [|w l IH]; intros z s fuel Hnd Hf.
  - destruct fuel as [|fuel]; [simpl in Hf; lia|]. by exists s.
  - apply NoDup_cons in Hnd as [Hw Hnd].
    do 4 (destruct fuel as [|fuel]; [simpl in Hf; lia|]). simpl in Hf.
    destruct (cancelled (wget s w)) eqn:Hc.
    + specialize (IH (add64 z (-1)) (putWaiter w s) fuel Hnd ltac:(lia)).
      rewrite (skipCancelled_ext (putWaiter w s) s) in IH.
      2: { intros x Hx. rewrite wget_put, decide_False; [done|]. by intros ->. }
      simpl. rewrite Hc. destruct (skipCancelled s l) as [dead rest] eqn:Hs; simpl.
      destruct IH as (s' & -> & Hp & Hg). exists s'. split; [done|].
      rewrite Hp, <- app_assoc. split; [done|].
      intros x [Hx1 Hx2]%not_elem_of_cons. rewrite (Hg x Hx2), wget_put, decide_False by done. done.
    + simpl. rewrite Hc. simpl. exists s. by rewrite ?take_0.
Qed.

Definition twoQueued : wstore := cancelWaiter 0 (mkStore ∅ [] 2 0).

Lemma dequeue_first_live_witness :
  exists s', Dequeue 9 DqPop (mkQueue [0; 1]%nat 2) twoQueued = Some (Some 1%nat, mkQueue [] 0, s')
    /\ pool s' = [0%nat] /\ (forall w, w ∉ [0%nat] -> wget s' w = wget twoQueued w).
Proof.
  apply (dequeue_first_live [0; 1]%nat 2 twoQueued 9); [by_decide|simpl; lia].
Defined.
