(* ===== verification/MSQueue.v ===== *)
(** * The lock-free queue, pointer by pointer (internal/primitives/waiter.go, lines 17-149)

    [Enqueue] and [Dequeue] of the Michael-Scott queue, one atomic load,
    store or compare-and-swap per step, run by any number of goroutines.
    The main result is a forward simulation: every execution of the pointer
    code is matched by an execution of the queue as its clients see it
    (a list, and the size counter moving separately), with the same results.
    The primitives of the other files are built on that abstract queue.  The
    proof goes through a queue with hindsight (Hindsight.v), whose [Dequeue]
    may return nil if the list was empty at some moment during the call. *)

From Stdlib Require Import ZArith Lia.
From stdpp Require Import base list gmap strings.
From S2P Require Import Prelude Hindsight Waiter.

#[local] Open Scope Z_scope.

(** ** Nodes and the queue *)

Record waiterNode := mkNode { waiter : option nat; next : option nat }.

Record msq := mkMsq {
  nodes : gmap nat waiterNode;   (* the node heap *)
  allocn : nat;                  (* next unused node pointer *)
  head : nat;
  tail : nat;
  size : Z
}.

(** The queue with its sentinel, node 0. *)
Definition NewQueue : msq := mkMsq {[0%nat := mkNode None None]} 1 0 0 0.

Definition nodeAt (q : msq) (n : nat) : waiterNode := default (mkNode None None) (nodes q !! n).

Definition alloc (w : nat) (q : msq) : nat * msq :=
  (allocn q, mkMsq (<[allocn q := mkNode (Some w) None]> (nodes q)) (S (allocn q))
                   (head q) (tail q) (size q)).
Definition setNext (n : nat) (x : option nat) (q : msq) : msq :=
  mkMsq (<[n := mkNode (waiter (nodeAt q n)) x]> (nodes q)) (allocn q) (head q) (tail q) (size q).
Definition casTail (old new : nat) (q : msq) : msq :=
  if Nat.eqb (tail q) old then mkMsq (nodes q) (allocn q) (head q) new (size q) else q.
Definition setHead (n : nat) (q : msq) : msq :=
  mkMsq (nodes q) (allocn q) n (tail q) (size q).
Definition addSize (d : Z) (q : msq) : msq :=
  mkMsq (nodes q) (allocn q) (head q) (tail q) (add64 (size q) d).

(** ** Enqueue *)
Inductive enqpc :=
| EAlloc (w : nat)                            (* node := &waiterNode{waiter: w} *)
| ELoadTail (n : nat)                         (* tail := q.tail.Load() *)
| ELoadNext (n tl : nat)                      (* next := tail.next.Load() *)
| ECheck (n tl : nat) (nx : option nat)       (* tail != q.tail.Load() *)
| ELink (n tl : nat)                          (* tail.next.CompareAndSwap(nil, node) *)
| ESwing (n tl : nat)                         (* q.tail.CompareAndSwap(tail, node) *)
| EHelp (n tl m : nat)                        (* q.tail.CompareAndSwap(tail, next) *)
| ESize.                                      (* q.size.Add(1) *)

Definition Enqueue_step (p : enqpc) (q : msq) : outcome enqpc unit * msq :=
  match p with
  | EAlloc w => let '(n, q) := alloc w q in (Next (ELoadTail n), q)
  | ELoadTail n => (Next (ELoadNext n (tail q)), q)
  | ELoadNext n tl => (Next (ECheck n tl (next (nodeAt q tl))), q)
  | ECheck n tl nx =>
      if negb (Nat.eqb tl (tail q)) then (Next (ELoadTail n), q)
      else (Next (match nx with None => ELink n tl | Some m => EHelp n tl m end), q)
  | ELink n tl =>
      match next (nodeAt q tl) with
      | None => (Next (ESwing n tl), setNext tl (Some n) q)
      | Some _ => (Next (ELoadTail n), q)
      end
  | ESwing n tl => (Next ESize, casTail tl n q)
  | EHelp n tl m => (Next (ELoadTail n), casTail tl m q)
  | ESize => (Return tt, addSize 1 q)
  end.

(** ** Dequeue *)
Inductive deqpc :=
| DLoadHead                                   (* head := q.head.Load() *)
| DLoadTail (hd : nat)                        (* tail := q.tail.Load() *)
| DLoadNext (hd tl : nat)                     (* next := head.next.Load() *)
| DCheck (hd tl : nat) (nx : option nat)      (* head != q.head.Load() *)
| DHelp (tl m : nat)                          (* q.tail.CompareAndSwap(tail, next) *)
| DCas (hd m : nat)                           (* q.head.CompareAndSwap(head, next) *)
| DSize (m : nat)                             (* q.size.Add(-1) *)
| DTest (m : nat)                             (* waiter := item.waiter; waiter.cancelled.Load() *)
| DPut (w : nat).                             (* putWaiter(waiter) *)

Definition nilDeref : string := "invalid memory address or nil pointer dereference".

Definition Dequeue_mstep (p : deqpc) (q : msq) (s : wstore)
    : outcome deqpc (option nat) * msq * wstore :=
  match p with
  | DLoadHead => (Next (DLoadTail (head q)), q, s)
  | DLoadTail hd => (Next (DLoadNext hd (tail q)), q, s)
  | DLoadNext hd tl => (Next (DCheck hd tl (next (nodeAt q hd))), q, s)
  | DCheck hd tl nx =>
      if negb (Nat.eqb hd (head q)) then (Next DLoadHead, q, s)
      else if Nat.eqb hd tl then
        match nx with
        | None => (Return None, q, s)
        | Some m => (Next (DHelp tl m), q, s)
        end
      else match nx with
           | Some m => (Next (DCas hd m), q, s)
           | None => (Panic nilDeref, q, s)   (* the CAS would install nil; item.waiter faults *)
           end
  | DHelp tl m => (Next DLoadHead, casTail tl m q, s)
  | DCas hd m =>
      if Nat.eqb (head q) hd then (Next (DSize m), setHead m q, s) else (Next DLoadHead, q, s)
  | DSize m => (Next (DTest m), addSize (-1) q, s)
  | DTest m =>
      match waiter (nodeAt q m) with
      | None => (Panic nilDeref, q, s)
      | Some w => (if cancelled (wget s w) then Next (DPut w) else Return (Some w), q, s)
      end
  | DPut w => (Next DLoadHead, q, putWaiter w s)
  end.

(** ** Goroutines

    [MIdle r]: between calls, [r] being what the last [Dequeue] returned. *)
Inductive msop := MsEnqueue (w : nat) | MsDequeue.

Inductive msframe :=
| MIdle (r : option (option nat))
| MEnq (p : enqpc)
| MDeq (p : deqpc)
| MPanic (e : string).

Definition mscall (op : msop) (now : Z) (f : msframe) : option msframe :=
  match f with
  | MIdle _ => Some (match op with MsEnqueue w => MEnq (EAlloc w) | MsDequeue => MDeq DLoadHead end)
  | _ => None
  end.

Definition msrun (o : oracle) (f : msframe) (sh : msq * wstore) : option (msframe * (msq * wstore)) :=
  match f with
  | MIdle _ | MPanic _ => None
  | MEnq p =>
      let '(r, q) := Enqueue_step p sh.1 in
      Some (match r with Next p => MEnq p | Return _ => MIdle None | Panic e => MPanic e end, (q, sh.2))
  | MDeq p =>
      let '(r, q, s) := Dequeue_mstep p sh.1 sh.2 in
      Some (match r with Next p => MDeq p | Return v => MIdle (Some v) | Panic e => MPanic e end, (q, s))
  end.

(** The owner of a waiter may cancel it at any moment. *)
Definition mscancel (w : nat) (sh : msq * wstore) : msq * wstore := (sh.1, cancelWaiter w sh.2).

Definition msqueue : machine (msq * wstore) msframe msop := Machine mscall msrun mscancel.

Definition msinitial (n : nat) (s : wstore) : config (Sh:=msq*wstore) (Th:=msframe) :=
  ((NewQueue, s), replicate n (MIdle None)).

(** * The specification

    The queue of Waiter.v, with the very steps the primitives are made of:
    [Enqueue_link], [Enqueue_size] and [Dequeue_step]. *)
Inductive qframe :=
| QIdle (r : option (option nat))
| QLink (w : nat)
| QSize
| QDeq (d : dqpc)
| QPanic (e : string).

Definition qcall (op : msop) (now : Z) (f : qframe) : option qframe :=
  match f with
  | QIdle _ => Some (match op with MsEnqueue w => QLink w | MsDequeue => QDeq DqPop end)
  | _ => None
  end.

Definition qrun (o : oracle) (f : qframe) (sh : WaiterQueue * wstore) : option (qframe * (WaiterQueue * wstore)) :=
  let '(q, s) := sh in
  match f with
  | QIdle _ | QPanic _ => None
  | QLink w => Some (QSize, (Enqueue_link w q, s))
  | QSize => Some (QIdle None, (Enqueue_size q, s))
  | QDeq d =>
      let '(r, q, s) := Dequeue_step d q s in
      Some (match r with Next d => QDeq d | Return v => QIdle (Some v) | Panic e => QPanic e end, (q, s))
  end.

Definition waiterQueue : machine (WaiterQueue * wstore) qframe msop :=
  Machine qcall qrun (fun w sh => (sh.1, cancelWaiter w sh.2)).

Definition qinitial (n : nat) (s : wstore) : config (Sh:=WaiterQueue*wstore) (Th:=qframe) :=
  ((NewWaiterQueue, s), replicate n (QIdle None)).

(** ** With hindsight

    A [Dequeue] may return nil only if the list was empty at some moment
    since the call began ([seen]). *)
Inductive sframe :=
| SIdle (r : option (option nat))
| SLink (w : nat)
| SSize
| SDeq (seen : bool)
| SDqSize (w : nat)
| SDqTest (w : nat)
| SDqPut (w : nat).

Definition scall (op : msop) (now : Z) (f : sframe) : option sframe :=
  match f with
  | SIdle _ => Some (match op with MsEnqueue w => SLink w | MsDequeue => SDeq false end)
  | _ => None
  end.

(** [pick o] chooses between looking at the list, unlinking its first
    element and returning nil. *)
Definition srun (o : oracle) (f : sframe) (sh : WaiterQueue * wstore)
    : option (sframe * (WaiterQueue * wstore)) :=
  let '(q, s) := sh in
  match f with
  | SIdle _ => None
  | SLink w => Some (SSize, (Enqueue_link w q, s))
  | SSize => Some (SIdle None, (Enqueue_size q, s))
  | SDeq seen =>
      match pick o, items q with
      | 0%nat, its => Some (SDeq (seen || bool_decide (its = [])), (q, s))
      | 1%nat, w :: l => Some (SDqSize w, (mkQueue l (qsize q), s))
      | 2%nat, _ => if seen then Some (SIdle (Some None), (q, s)) else None
      | _, _ => None
      end
  | SDqSize w => Some (SDqTest w, (mkQueue (items q) (add64 (qsize q) (-1)), s))
  | SDqTest w => Some (if cancelled (wget s w) then SDqPut w else SIdle (Some (Some w)), (q, s))
  | SDqPut w => Some (SDeq false, (q, putWaiter w s))
  end.

Definition queueSpec : machine (WaiterQueue * wstore) sframe msop :=
  Machine scall srun (fun w sh => (sh.1, cancelWaiter w sh.2)).

Definition specInitial (n : nat) (s : wstore) : config (Sh:=WaiterQueue*wstore) (Th:=sframe) :=
  ((NewWaiterQueue, s), replicate n (SIdle None)).

(** What a goroutine does whatever it has seen, and where it would be had it
    returned nil when it saw the list empty. *)
Definition unseen (g : sframe) : qframe :=
  match g with
  | SIdle r => QIdle r
  | SLink w => QLink w
  | SSize => QSize
  | SDeq _ => QDeq DqPop
  | SDqSize w => QDeq (DqSize w)
  | SDqTest w => QDeq (DqCheck w)
  | SDqPut w => QDeq (DqPut w)
  end.

Definition nilReturned (g : sframe) : option qframe :=
  match g with SDeq true => Some (QIdle (Some None)) | _ => None end.

#[export] Instance queueHindsight : Hindsight queueSpec waiterQueue unseen nilReturned.
Proof.
  split; [| |done].
  - intros op now th th' Hc. destruct th; try done. simpl in Hc. destruct op; by simplify_eq.
  - intros o th [q s] th' [q' s'] Hr. destruct th as [r|w| |seen|w|w|w]; simpl in Hr; simplify_eq; simpl; try (left; split; [done|by exists o0]).
    + destruct (pick o) as [|[|[|k]]]; [| |destruct seen; [|done]|by destruct (items q)].
      * injection Hr as <- <- <-. right; left. split; [done|]. split; [done|]. destruct seen; [by left|]. simpl.
        case_bool_decide as Ei; [right|by left]. exists (QIdle (Some None)), o0. split; [done|]. simpl. by rewrite Ei.
      * destruct (items q) as [|w l] eqn:Ei; [done|]. injection Hr as <- <- <-. left. split; [done|]. by exists o0.
      * simplify_eq. right; right. done.
    + left. destruct (cancelled (wget s' w)) eqn:Ec; (split; [done|]); by exists o0.
Qed.

(** * The simulation

    [c] is the list of all the nodes ever linked, oldest first; [h] and [t]
    are the positions of the head and of the tail in it.  The tail is at most
    one node behind, the head never overtakes it, and the queue holds the
    waiters of the nodes after the head. *)
Record ginv (q : msq) (c : list nat) (h t : nat) (aq : WaiterQueue) : Prop := {
  g_nodup : NoDup c;
  g_head : c !! h = Some (head q);
  g_tail : c !! t = Some (tail q);
  g_order : (h <= t)%nat;
  g_lag : (length c <= t + 2)%nat;
  g_next : forall i n, c !! i = Some n -> next (nodeAt q n) = c !! S i;
  g_alloc : forall n, n ∈ c -> (n < allocn q)%nat;
  g_items : Forall2 (fun n w => waiter (nodeAt q n) = Some w) (drop (S h) c) (items aq);
  g_size : size q = qsize aq
}.

(** A node that only the goroutine that allocated it knows. *)
Definition fresh (q : msq) (c : list nat) (n w : nat) : Prop :=
  (n ∉ c) /\ (n < allocn q)%nat /\ nodeAt q n = mkNode (Some w) None.

(** [n] was linked not after position [k]; [m] is its successor. *)
Definition upto (c : list nat) (k n : nat) : Prop := exists i, (i <= k)%nat /\ c !! i = Some n.
Definition linked (c : list nat) (k n m : nat) : Prop :=
  exists i, (i <= k)%nat /\ c !! i = Some n /\ c !! S i = Some m.

(** What a goroutine knows at each program point, and the program point of
    the specification it corresponds to. *)
Definition frel (q : msq) (c : list nat) (h t : nat) (f : msframe) (g : sframe) : Prop :=
  match f, g with
  | MIdle r, SIdle r' => r = r'
  | MEnq (EAlloc w), SLink w' => w = w'
  | MEnq (ELoadTail n), SLink w => fresh q c n w
  | MEnq (ELoadNext n tl), SLink w => fresh q c n w /\ upto c t tl
  | MEnq (ECheck n tl nx), SLink w =>
      fresh q c n w /\ upto c t tl /\ (forall m, nx = Some m -> linked c t tl m)
  | MEnq (ELink n tl), SLink w => fresh q c n w /\ upto c t tl
  | MEnq (ESwing n tl), SSize => linked c t tl n
  | MEnq (EHelp n tl m), SLink w => fresh q c n w /\ linked c t tl m
  | MEnq ESize, SSize => True
  | MDeq DLoadHead, SDeq _ => True
  | MDeq (DLoadTail hd), SDeq _ => upto c h hd
  | MDeq (DLoadNext hd tl), SDeq _ =>
      exists i j, c !! i = Some hd /\ c !! j = Some tl /\ (i <= h)%nat /\ (i <= j <= t)%nat
  | MDeq (DCheck hd tl nx), SDeq seen =>
      exists i j, c !! i = Some hd /\ c !! j = Some tl /\ (i <= h)%nat /\ (i <= j <= t)%nat /\
        match nx with None => seen = true /\ i = j | Some m => c !! S i = Some m end
  | MDeq (DHelp tl m), SDeq _ => linked c t tl m
  | MDeq (DCas hd m), SDeq _ =>
      exists i, c !! i = Some hd /\ c !! S i = Some m /\ (i <= h)%nat /\ (i < t)%nat
  | MDeq (DSize m), SDqSize w | MDeq (DTest m), SDqTest w =>
      waiter (nodeAt q m) = Some w /\ (m < allocn q)%nat
  | MDeq (DPut w), SDqPut w' => w = w'
  | _, _ => False
  end.

(** The node a goroutine has allocated and not linked yet. *)
Definition private (f : msframe) : option nat :=
  match f with
  | MEnq (ELoadTail n | ELoadNext n _ | ECheck n _ _ | ELink n _ | EHelp n _ _) => Some n
  | _ => None
  end.

(** How the shared state grows. *)
Record grows (q : msq) (c : list nat) (h t : nat) (q' : msq) (c' : list nat) (h' t' : nat) : Prop := {
  gr_chain : c `prefix_of` c';
  gr_head : (h <= h')%nat;
  gr_tail : (t <= t')%nat;
  gr_alloc : (allocn q <= allocn q')%nat;
  gr_waiter : forall n, (n < allocn q)%nat -> waiter (nodeAt q' n) = waiter (nodeAt q n)
}.

Lemma grows_refl q c h t : grows q c h t q c h t.
Proof. by constructor. Qed.

Section Growth.
Context (q : msq) (c : list nat) (h t : nat) (q' : msq) (c' : list nat) (h' t' : nat).
Hypothesis G : grows q c h t q' c' h' t'.

Lemma grows_lookup i n : c !! i = Some n -> c' !! i = Some n.
Proof. intros H. eapply prefix_lookup_Some; [done|apply G]. Qed.

Lemma grows_upto k k' n : (k <= k')%nat -> upto c k n -> upto c' k' n.
Proof. intros Hk (i & Hi & Hn). exists i. split; [lia|by apply grows_lookup]. Qed.

Lemma grows_linked k k' n m : (k <= k')%nat -> linked c k n m -> linked c' k' n m.
Proof. intros Hk (i & Hi & Hn & Hm). exists i. repeat split; [lia|by apply grows_lookup..]. Qed.

(** What a goroutine knows stays true when others move, if they leave its
    private node alone. *)
Lemma frel_grows f g :
  frel q c h t f g ->
  (forall n, private f = Some n -> n ∉ c -> (n < allocn q)%nat -> (n ∉ c') /\ nodeAt q' n = nodeAt q n) ->
  frel q' c' h' t' f g.
Proof.
  intros Hf Hp.
  assert (Hfr : forall n w, private f = Some n -> fresh q c n w -> fresh q' c' n w).
  { intros n w Hn (H1 & H2 & H3). destruct (Hp n Hn H1 H2) as [H4 H5].
    pose proof (gr_alloc _ _ _ _ _ _ _ _ G). repeat split; [done|lia|congruence]. }
  destruct G as [_ Gh Gt Ga Gw].
  destruct f as [r|p|p|e]; [done| | |by destruct g]; destruct p; destruct g; simpl in *; try done;
    repeat match goal with
    | H : _ /\ _ |- _ => destruct H
    | H : exists _, _ |- _ => destruct H
    end; repeat match goal with |- _ /\ _ => split end; eauto using grows_upto, grows_linked.
  - do 2 eexists. repeat split; [by apply grows_lookup..|lia|lia|lia].
  - do 2 eexists. repeat split; [by apply grows_lookup..|lia|lia|lia|].
    case_match; [by apply grows_lookup|done].
  - eexists. repeat split; [by apply grows_lookup..|lia|lia].
  - rewrite Gw by done. done.
  - lia.
  - rewrite Gw by done. done.
  - lia.
Qed.
End Growth.

(** ** Reading the node heap back *)

Lemma nodeAt_alloc_eq w q : nodeAt (alloc w q).2 (allocn q) = mkNode (Some w) None.
Proof. unfold nodeAt. simpl. by rewrite lookup_insert_eq. Qed.

Lemma nodeAt_alloc_ne w q n : n <> allocn q -> nodeAt (alloc w q).2 n = nodeAt q n.
Proof. intros. unfold nodeAt. simpl. by rewrite lookup_insert_ne. Qed.

Lemma nodeAt_setNext_eq n x q : nodeAt (setNext n x q) n = mkNode (waiter (nodeAt q n)) x.
Proof. unfold nodeAt at 1. simpl. by rewrite lookup_insert_eq. Qed.

Lemma nodeAt_setNext_ne n x q m : m <> n -> nodeAt (setNext n x q) m = nodeAt q m.
Proof. intros. unfold nodeAt at 1. simpl. by rewrite lookup_insert_ne. Qed.

Lemma waiter_setNext n x q m : waiter (nodeAt (setNext n x q) m) = waiter (nodeAt q m).
Proof.
  destruct (decide (m = n)) as [->|?]; [by rewrite nodeAt_setNext_eq|by rewrite nodeAt_setNext_ne].
Qed.

(** ** The steps that change the queue *)
Section Steps.
Context (q : msq) (c : list nat) (h t : nat) (aq : WaiterQueue).
Hypothesis I : ginv q c h t aq.

Lemma chain_index i j n : c !! i = Some n -> c !! j = Some n -> i = j.
Proof. apply NoDup_lookup, I. Qed.

Lemma chain_lt i n : c !! i = Some n -> (i < length c)%nat.
Proof. apply lookup_lt_Some. Qed.

Lemma chain_last i n : c !! i = Some n -> next (nodeAt q n) = None -> length c = S i.
Proof.
  intros Hi Hn. rewrite (g_next _ _ _ _ _ I _ _ Hi) in Hn.
  apply lookup_ge_None in Hn. pose proof (chain_lt _ _ Hi). lia.
Qed.

Lemma ginv_alloc w : ginv (alloc w q).2 c h t aq.
Proof.
  assert (E : forall n, n ∈ c -> nodeAt (alloc w q).2 n = nodeAt q n).
  { intros n Hn. apply nodeAt_alloc_ne. pose proof (g_alloc _ _ _ _ _ I n Hn). lia. }
  destruct I as [H1 H2 H3 H4 H5 H6 H7 H8 H9]. constructor; auto.
  - intros i n Hi. rewrite E by (by eapply list_elem_of_lookup_2). auto.
  - intros n Hn. simpl. pose proof (H7 n Hn). lia.
  - eapply Forall2_impl; [|intros ? ? Hx; exact Hx].
    assert (Hd : forall n, n ∈ drop (S h) c -> n ∈ c).
    { intros n Hn. rewrite <- (take_drop (S h) c). apply elem_of_app. by right. }
    clear - H8 E Hd. induction H8 as [|n w' l l' Hw _ IH]; constructor.
    + rewrite E; [done|]. apply Hd. by left.
    + apply IH. intros. apply Hd. by right.
Qed.

Lemma fresh_link_grows n w tl :
  fresh q c n w -> grows q c h t (setNext tl (Some n) q) (c ++ [n]) h t.
Proof.
  intros _. constructor; simpl; [by eexists|lia..|]. intros. apply waiter_setNext.
Qed.

Lemma ginv_link n w tl :
  fresh q c n w -> upto c t tl -> next (nodeAt q tl) = None ->
  ginv (setNext tl (Some n) q) (c ++ [n]) h t (Enqueue_link w aq).
Proof.
  intros (Hn & Ha & Hw) (i & Hi & Htl) Hnx. pose proof (chain_last _ _ Htl Hnx) as Hlen.
  pose proof I as [H1 H2 H3 H4 H5 H6 H7 H8 H9]. pose proof (chain_lt _ _ H3) as Ht.
  constructor; simpl; auto.
  - apply NoDup_app. split; [done|]. split; [|apply NoDup_singleton].
    intros x Hx ->%list_elem_of_singleton. done.
  - by apply lookup_app_l_Some.
  - by apply lookup_app_l_Some.
  - rewrite length_app. simpl. lia.
  - intros j m Hj. apply lookup_app_Some in Hj as [Hj|[Hge Hj]].
    + destruct (decide (m = tl)) as [->|Hne].
      * rewrite nodeAt_setNext_eq. simpl. rewrite (chain_index _ _ _ Hj Htl).
        rewrite lookup_app_r by lia. by replace (S i - length c)%nat with 0%nat by lia.
      * rewrite nodeAt_setNext_ne by done. rewrite (H6 _ _ Hj).
        assert (j <> i) by (intros ->; congruence). pose proof (chain_lt _ _ Hj).
        rewrite lookup_app_l by lia. done.
    + apply list_lookup_singleton_Some in Hj as [Hj <-].
      rewrite nodeAt_setNext_ne by (intros ->; apply Hn; by eapply list_elem_of_lookup_2).
      rewrite Hw. simpl. symmetry. apply lookup_ge_None. rewrite length_app. simpl. lia.
  - intros m [Hm|Hm]%elem_of_app; [auto|]. apply list_elem_of_singleton in Hm as ->. done.
  - rewrite drop_app_le by lia. apply Forall2_app.
    + eapply Forall2_impl; [done|]. intros. by rewrite waiter_setNext.
    + constructor; [|constructor]. rewrite waiter_setNext, Hw. done.
Qed.

Lemma ginv_casTail tl m :
  linked c t tl m -> exists t', (t <= t')%nat /\ ginv (casTail tl m q) c h t' aq.
Proof.
  intros (i & Hi & Htl & Hm). unfold casTail. destruct (Nat.eqb (tail q) tl) eqn:E.
  - apply Nat.eqb_eq in E. pose proof (g_tail _ _ _ _ _ I) as H3. rewrite E in H3.
    rewrite (chain_index _ _ _ Htl H3) in Hm. exists (S t). split; [lia|].
    destruct I as [H1 H2 _ H4 H5 H6 H7 H8 H9]. constructor; auto; lia.
  - exists t. split; [lia|done].
Qed.

Lemma casTail_nodes tl m n : nodeAt (casTail tl m q) n = nodeAt q n.
Proof. unfold casTail. by destruct (Nat.eqb (tail q) tl). Qed.

Lemma casTail_grows tl m t' : (t <= t')%nat -> grows q c h t (casTail tl m q) c h t'.
Proof.
  intros. constructor; try done; [unfold casTail; by destruct (Nat.eqb (tail q) tl)|].
  intros. by rewrite casTail_nodes.
Qed.

Lemma ginv_setHead hd m i :
  head q = hd -> c !! i = Some hd -> c !! S i = Some m -> (i < t)%nat ->
  exists w l, items aq = w :: l /\ waiter (nodeAt q m) = Some w /\ (m < allocn q)%nat /\
    ginv (setHead m q) c (S h) t (mkQueue l (qsize aq)) /\
    grows q c h t (setHead m q) c (S h) t.
Proof.
  intros Eh Hi Hm Hit. pose proof (g_head _ _ _ _ _ I) as H2. rewrite Eh in H2.
  pose proof (chain_index _ _ _ Hi H2) as ->.
  pose proof I as [H1 _ H3 H4 H5 H6 H7 H8 H9].
  rewrite (drop_S _ _ _ Hm) in H8. apply Forall2_cons_inv_l in H8 as (w & l & Hw & Hl & E).
  exists w, l. split; [done|]. split; [done|].
  split; [apply H7; by eapply list_elem_of_lookup_2|].
  split; [by constructor|by constructor; auto].
Qed.

Lemma ginv_addSize d :
  ginv (addSize d q) c h t (mkQueue (items aq) (add64 (qsize aq) d)).
Proof. destruct I as [H1 H2 H3 H4 H5 H6 H7 H8 H9]. constructor; auto. simpl. by rewrite H9. Qed.
End Steps.

(** One step of a goroutine: the specification makes one step or none, its
    state and the goroutine's knowledge follow, and the private nodes of the
    others are left alone. *)
Definition matches (q : msq) (s : wstore) (c : list nat) (h t : nat) (aq : WaiterQueue)
    (f : msframe) (g : sframe) (f' : msframe) (q' : msq) (s' : wstore) : Prop :=
  exists c' h' t' g' aq',
    ((g' = g /\ aq' = aq /\ s' = s) \/ exists o, srun o g (aq, s) = Some (g', (aq', s'))) /\
    ginv q' c' h' t' aq' /\ frel q' c' h' t' f' g' /\ grows q c h t q' c' h' t' /\
    (forall n, n ∉ c -> (n < allocn q)%nat -> private f <> Some n ->
       (n ∉ c') /\ nodeAt q' n = nodeAt q n) /\
    (private f' = private f \/ private f' = None \/ private f' = Some (allocn q)).

(** A step that reads only. *)
Lemma matches_read q s c h t aq f g f' :
  ginv q c h t aq -> frel q c h t f' g -> (private f' = private f \/ private f' = None) ->
  matches q s c h t aq f g f' q s.
Proof.
  intros HI Hf Hp. exists c, h, t, g, aq. repeat split; auto using grows_refl; try apply HI; tauto.
Qed.

Lemma enqueue_matches q s c h t aq p g r q' :
  ginv q c h t aq -> frel q c h t (MEnq p) g -> Enqueue_step p q = (r, q') ->
  matches q s c h t aq (MEnq p) g
    (match r with Next p => MEnq p | Return _ => MIdle None | Panic e => MPanic e end) q' s.
Proof.
  intros HI Hf Hs. pose proof (g_tail _ _ _ _ _ HI) as Htl. pose proof (g_next _ _ _ _ _ HI) as Hnx.
  destruct p as [w|n|n tl|n tl nx|n tl|n tl|n tl m|]; destruct g; simpl in Hf; try done; simpl in Hs.
  - simplify_eq. exists c, h, t, (SLink w0), aq.
    split; [by left|]. split; [by apply ginv_alloc|]. split.
    { repeat split; [|simpl; lia|apply nodeAt_alloc_eq].
      intros Hin. pose proof (g_alloc _ _ _ _ _ HI _ Hin). lia. }
    split; [constructor; simpl; auto; intros n Hn; apply (f_equal waiter), (nodeAt_alloc_ne w0 q n); lia|].
    split; [|auto]. intros n Hn Ha _. split; [done|]. apply (nodeAt_alloc_ne w0 q n). lia.
  - simplify_eq. apply matches_read; [done| |by left]. split; [done|]. by exists t.
  - simplify_eq. destruct Hf as [Hf (i & Hi & Hc)]. apply matches_read; [done| |by left].
    split; [done|]. split; [by exists i|]. intros m Hm. exists i. by rewrite <- Hm, (Hnx _ _ Hc).
  - destruct Hf as (Hf & Hu & Hl). destruct (negb (Nat.eqb tl (tail q))); simplify_eq.
    + apply matches_read; [done..|by left].
    + destruct nx as [m|]; apply matches_read; simpl; auto.
  - destruct Hf as [Hf Hu]. destruct (next (nodeAt q tl)) as [m|] eqn:E; simplify_eq.
    + apply matches_read; [done..|by left].
    + exists (c ++ [n]), h, t, SSize, (Enqueue_link w aq).
      split; [right; by exists o0|]. split; [by apply ginv_link|]. split.
      { destruct Hu as (i & Hi & Hc). exists i. split; [done|].
        split; [by apply lookup_app_l_Some|].
        rewrite lookup_app_r; rewrite (chain_last _ _ _ _ _ HI _ _ Hc E); [|lia].
        by rewrite Nat.sub_diag. }
      split; [by eapply fresh_link_grows|]. split; [|by right; left].
      intros n' Hn' _ Hp. simpl in Hp. split.
      { intros [?|E1]%elem_of_app; [done|]. apply list_elem_of_singleton in E1 as ->. by apply Hp. }
      apply nodeAt_setNext_ne. intros ->. destruct Hu as (i & _ & Hc).
      apply Hn'. by eapply list_elem_of_lookup_2.
  - simplify_eq. destruct (ginv_casTail _ _ _ _ _ HI _ _ Hf) as (t' & Ht & HI').
    exists c, h, t', SSize, aq. split; [by left|]. split; [done|]. split; [done|].
    split; [by apply casTail_grows|]. split; [|by left].
    intros. by rewrite casTail_nodes.
  - simplify_eq. destruct Hf as [Hf Hl].
    destruct (ginv_casTail _ _ _ _ _ HI _ _ Hl) as (t' & Ht & HI').
    pose proof (casTail_grows q c h t tl m t' Ht) as HG.
    exists c, h, t', (SLink w), aq. split; [by left|]. split; [done|]. split.
    { apply (frel_grows _ _ _ _ _ _ _ _ HG (MEnq (ELoadTail n))); [done|].
      intros. by rewrite casTail_nodes. }
    split; [done|]. split; [|by left]. intros. by rewrite casTail_nodes.
  - simplify_eq. exists c, h, t, (SIdle None), (Enqueue_size aq).
    split; [right; by exists o0|]. split; [by apply ginv_addSize|]. split; [done|].
    split; [by constructor|]. split; [done|by left].
Qed.

Ltac same_chain := split; [done|]; split; [done|]; split; [apply grows_refl|]; split; [done|by left].

Lemma dequeue_matches q s c h t aq p g r q' s' :
  ginv q c h t aq -> frel q c h t (MDeq p) g -> Dequeue_mstep p q s = (r, q', s') ->
  matches q s c h t aq (MDeq p) g
    (match r with Next p => MDeq p | Return v => MIdle (Some v) | Panic e => MPanic e end) q' s'.
Proof.
  intros HI Hf Hs. pose proof HI as [_ Hhd Htl Hord _ Hnx _ Hits _].
  destruct p as [|hd|hd tl|hd tl nx|tl m|hd m|m|m|w]; destruct g; simpl in Hf; try done; simpl in Hs.
  - simplify_eq. apply matches_read; [done| |by left]. by exists h.
  - simplify_eq. destruct Hf as (i & Hi & Hc). apply matches_read; [done| |by left].
    exists i, t. repeat split; auto; lia.
  - simplify_eq. destruct Hf as (i & j & Hi & Hj & Hih & Hij).
    destruct (next (nodeAt q' hd)) as [m|] eqn:E.
    + apply matches_read; [done| |by left]. exists i, j. rewrite <- E, (Hnx _ _ Hi). auto 10.
    + pose proof (chain_last _ _ _ _ _ HI _ _ Hi E) as Hlen.
      apply lookup_lt_Some in Hhd, Htl. pose proof (lookup_lt_Some _ _ _ Hj).
      assert (items aq = []) as Hemp.
      { rewrite drop_ge in Hits by lia. by inversion Hits. }
      exists c, h, t, (SDeq (seen || true)), aq.
      split; [right; exists (Oracle false 0 0); simpl; by rewrite Hemp|].
      split; [done|]. split; [|split; [apply grows_refl|split; [done|by left]]].
      exists i, j. repeat split; auto; try lia; apply orb_true_r.
  - destruct Hf as (i & j & Hi & Hj & Hih & Hij & Hm).
    destruct (negb (Nat.eqb hd (head q))) eqn:E1; simplify_eq; [by apply matches_read; [..|left]|].
    destruct (Nat.eqb hd tl) eqn:E2.
    + apply Nat.eqb_eq in E2 as <-. pose proof (chain_index _ _ _ _ _ HI _ _ _ Hi Hj) as <-.
      destruct nx as [m|]; simplify_eq.
      * apply matches_read; [done| |by left]. exists i. split; [lia|done].
      * destruct Hm as [-> _]. exists c, h, t, (SIdle (Some None)), aq.
        split; [right; by exists (Oracle false 2 0)|]. same_chain.
    + apply Nat.eqb_neq in E2. destruct nx as [m|]; simplify_eq.
      * apply matches_read; [done| |by left]. exists i. repeat split; auto.
        destruct (decide (i = j)) as [->|]; [congruence|lia].
      * destruct Hm as [_ ->]. congruence.
  - simplify_eq. destruct (ginv_casTail _ _ _ _ _ HI _ _ Hf) as (t' & Ht & HI').
    exists c, h, t', (SDeq seen), aq. split; [by left|]. split; [done|]. split; [done|].
    split; [by apply casTail_grows|]. split; [|by left]. intros. by rewrite casTail_nodes.
  - destruct Hf as (i & Hi & Hm & Hih & Hit).
    destruct (Nat.eqb (head q) hd) eqn:E; simplify_eq; [|by apply matches_read; [..|left]].
    apply Nat.eqb_eq in E.
    destruct (ginv_setHead _ _ _ _ _ HI hd m i) as (w & l & Ei & Hw & Ha & HI' & HG); auto.
    exists c, (S h), t, (SDqSize w), (mkQueue l (qsize aq)).
    split; [right; exists (Oracle false 1 0); simpl; by rewrite Ei|].
    split; [done|]. split; [done|]. split; [done|]. split; [done|by left].
  - simplify_eq. exists c, h, t, (SDqTest w), (mkQueue (items aq) (add64 (qsize aq) (-1))).
    split; [right; by exists o0|]. split; [by apply ginv_addSize|]. split; [done|].
    split; [by constructor|]. split; [done|by left].
  - destruct Hf as [Hw Ha]. rewrite Hw in Hs.
    exists c, h, t, (if cancelled (wget s w) then SDqPut w else SIdle (Some (Some w))), aq.
    destruct (cancelled (wget s w)) eqn:Hc; simplify_eq.
    + split; [right; exists o0; simpl; by rewrite Hc|]. same_chain.
    + split; [right; exists o0; simpl; by rewrite Hc|]. same_chain.
  - simplify_eq. exists c, h, t, (SDeq false), aq.
    split; [right; by exists o0|]. same_chain.
Qed.

(** ** Whole executions *)

Record Sim (c : (msq * wstore) * list msframe) (a : (WaiterQueue * wstore) * list sframe) : Prop := {
  sim_store : a.1.2 = c.1.2;
  sim_chain : exists ch h t, ginv c.1.1 ch h t a.1.1 /\ Forall2 (frel c.1.1 ch h t) c.2 a.2;
  sim_private : forall i j f f' n, c.2 !! i = Some f -> c.2 !! j = Some f' ->
    private f = Some n -> private f' = Some n -> i = j
}.

Lemma Sim_initial n s : Sim (msinitial n s) (specInitial n s).
Proof.
  constructor; simpl; [done| |].
  - exists [0%nat], 0%nat, 0%nat. split.
    + constructor; simpl; auto; try lia; [apply NoDup_singleton| |].
      * intros [|i] m; [|done]. intros [= <-]. done.
      * intros m ->%list_elem_of_singleton. lia.
    + by apply Forall2_replicate.
  - intros i j f f' m [-> _]%lookup_replicate. done.
Qed.

(** A private node is allocated and not linked. *)
Lemma private_fresh q ch h t f g n :
  frel q ch h t f g -> private f = Some n -> (n ∉ ch) /\ (n < allocn q)%nat.
Proof.
  destruct f as [r|p|p|e]; try done. destruct p, g; try done; simpl;
    intros H Hn; simplify_eq; unfold fresh in H; tauto.
Qed.

Lemma Sim_call q s fs aq gs i f f' op now :
  Sim ((q, s), fs) ((aq, s), gs) -> fs !! i = Some f -> mscall op now f = Some f' ->
  exists g g', gs !! i = Some g /\ scall op now g = Some g' /\
    Sim ((q, s), <[i:=f']> fs) ((aq, s), <[i:=g']> gs).
Proof.
  intros [_ (ch & h & t & HI & HF) HP] Hf Hc. simpl in *.
  destruct (Forall2_lookup_l _ _ _ _ _ HF Hf) as (g & Hg & Hfg).
  unfold mscall in Hc. destruct f as [r| | |]; try done. destruct g; simpl in Hfg; try done.
  assert (private f' = None) as Hn by (destruct op; by simplify_eq).
  eexists _, _. split; [done|]. split; [done|]. constructor; simpl; [done| |].
  - exists ch, h, t. split; [done|]. apply Forall2_insert; [done|]. destruct op; simplify_eq; by simpl.
  - intros i1 i2 f1 f2 n H1 H2 Hn1 Hn2.
    apply list_lookup_insert_Some in H1 as [(-> & <- & _)|[_ H1]]; [congruence|].
    apply list_lookup_insert_Some in H2 as [(-> & <- & _)|[_ H2]]; [congruence|]. eauto.
Qed.

(** The other goroutines after a step of goroutine [i]. *)
Lemma Sim_others q s fs aq gs ch h t i f f' g' q' ch' h' t' :
  Sim ((q, s), fs) ((aq, s), gs) -> Forall2 (frel q ch h t) fs gs -> fs !! i = Some f ->
  frel q' ch' h' t' f' g' -> grows q ch h t q' ch' h' t' ->
  (forall n, n ∉ ch -> (n < allocn q)%nat -> private f <> Some n ->
     (n ∉ ch') /\ nodeAt q' n = nodeAt q n) ->
  (private f' = private f \/ private f' = None \/ private f' = Some (allocn q)) ->
  Forall2 (frel q' ch' h' t') (<[i:=f']> fs) (<[i:=g']> gs) /\
  forall i1 i2 f1 f2 n, <[i:=f']> fs !! i1 = Some f1 -> <[i:=f']> fs !! i2 = Some f2 ->
    private f1 = Some n -> private f2 = Some n -> i1 = i2.
Proof.
  intros [_ _ HP] HF Hf Hfg' HG Hoth Hpr. simpl in HP.
  assert (Hne : forall j f2 n, j <> i -> fs !! j = Some f2 -> private f2 = Some n ->
            (n ∉ ch) /\ (n < allocn q)%nat /\ private f <> Some n).
  { intros j f2 n Hj Hf2 Hn. destruct (Forall2_lookup_l _ _ _ _ _ HF Hf2) as (g2 & _ & Hfg2).
    destruct (private_fresh _ _ _ _ _ _ _ Hfg2 Hn). repeat split; auto.
    intros Hp. apply Hj. by eapply HP. }
  split.
  - apply Forall2_same_length_lookup_2.
    { rewrite !length_insert. by eapply Forall2_length. }
    intros j f1 g1 H1 H2.
    apply list_lookup_insert_Some in H1 as [(<- & <- & Hlt)|[Hj H1]].
    + rewrite list_lookup_insert_eq in H2; [by simplify_eq|]. by rewrite <- (Forall2_length _ _ _ HF).
    + rewrite list_lookup_insert_ne in H2 by done.
      apply (frel_grows _ _ _ _ _ _ _ _ HG); [by eapply Forall2_lookup_lr|]. intros n Hn Hc Ha.
      apply Hoth; auto. destruct (Hne j f1 n) as (_ & _ & ?); auto.
  - assert (Hnew : forall j f2 n, j <> i -> fs !! j = Some f2 -> private f2 = Some n ->
              private f' <> Some n).
    { intros j f2 n Hj Hf2 Hn Hp. destruct (Hne j f2 n Hj Hf2 Hn) as (H1 & H2 & H3).
      destruct Hpr as [E|[E|E]]; rewrite E in Hp; [done|done|]; simplify_eq; lia. }
    intros i1 i2 f1 f2 n H1 H2 Hn1 Hn2.
    apply list_lookup_insert_Some in H1 as [(<- & <- & _)|[Hi1 H1]];
      apply list_lookup_insert_Some in H2 as [(<- & <- & _)|[Hi2 H2]]; eauto;
      exfalso; by eapply Hnew.
Qed.

Lemma Sim_run q s fs aq gs i f f' o q' s' :
  Sim ((q, s), fs) ((aq, s), gs) -> fs !! i = Some f -> msrun o f (q, s) = Some (f', (q', s')) ->
  exists g g' aq', gs !! i = Some g /\
    ((g' = g /\ aq' = aq /\ s' = s) \/ exists o', srun o' g (aq, s) = Some (g', (aq', s'))) /\
    Sim ((q', s'), <[i:=f']> fs) ((aq', s'), <[i:=g']> gs).
Proof.
  intros HS Hf Hr. pose proof HS as [_ (ch & h & t & HI & HF) _]. simpl in *.
  destruct (Forall2_lookup_l _ _ _ _ _ HF Hf) as (g & Hg & Hfg).
  assert (Hm : matches q s ch h t aq f g f' q' s').
  { unfold msrun in Hr. destruct f as [r|p|p|e]; try done; simpl in Hr.
    - destruct (Enqueue_step p q) as [r q1] eqn:E; simplify_eq. by apply enqueue_matches.
    - destruct (Dequeue_mstep p q s) as [[r q1] s1] eqn:E; simplify_eq. by apply dequeue_matches. }
  destruct Hm as (ch' & h' & t' & g' & aq' & Hstep & HI' & Hfg' & HG & Hoth & Hpr).
  destruct (Sim_others q s fs aq gs ch h t i f f' g' q' ch' h' t') as [H1 H2]; auto.
  exists g, g', aq'. split; [done|]. split; [done|]. constructor; simpl; [done| |exact H2].
  by exists ch', h', t'.
Qed.

(** The diagram: one step of the code, one step of the specification or none. *)
Lemma Sim_step l c a c' :
  Sim c a -> exec msqueue l c = Some c' ->
  exists a', (a' = a \/ exists l', exec queueSpec l' a = Some a') /\ Sim c' a'.
Proof.
  destruct c as [[q s] fs], a as [[aq s'] gs]. intros HS Hl.
  pose proof (sim_store _ _ HS) as E. simpl in E. subst s'.
  destruct l as [i op now|i o|x]; simpl in Hl.
  - apply bind_Some in Hl as (f & Hf & Hl). apply bind_Some in Hl as (f' & Hc & Hl). simplify_eq.
    destruct (Sim_call _ _ _ _ _ _ _ _ _ _ HS Hf Hc) as (g & g' & Hg & Hsc & HS').
    eexists. split; [right; exists (Call i op now)|exact HS']. by apply (exec_call queueSpec _ _ _ _ _ g).
  - apply bind_Some in Hl as (f & Hf & Hl). apply bind_Some in Hl as ([f' [q' s']] & Hr & Hl).
    simplify_eq/=. destruct (Sim_run _ _ _ _ _ _ _ _ _ _ _ HS Hf Hr) as (g & g' & aq' & Hg & Hst & HS').
    eexists. split; [|exact HS']. destruct Hst as [(-> & -> & ->)|[o' Ho]].
    + left. by rewrite list_insert_id.
    + right. exists (Run i o'). by apply (exec_run queueSpec _ _ _ _ g).
  - simplify_eq. eexists. split; [right; exists (Cancel x); done|].
    destruct HS as [_ H1 H2]. by constructor.
Qed.

(** The results of the calls that are over. *)
Definition msresult (f : msframe) : option (option (option nat)) :=
  match f with MIdle r => Some r | _ => None end.
Definition sresult (g : sframe) : option (option (option nat)) :=
  match g with SIdle r => Some r | _ => None end.

(** With hindsight. *)
Lemma msqueue_matches n s q s' fs :
  reach msqueue any_label (msinitial n s) ((q, s'), fs) ->
  exists aq gs, reach queueSpec any_label (specInitial n s) ((aq, s'), gs) /\
    qsize aq = size q /\
    (forall i f, fs !! i = Some f -> (forall e, f <> MPanic e) /\
       exists g, gs !! i = Some g /\ (forall r, msresult f = Some r -> sresult g = Some r)).
Proof.
  intros Hr.
  assert (exists a, reach queueSpec any_label (specInitial n s) a /\ Sim ((q, s'), fs) a)
    as ([[aq s''] gs] & Ha & HS).
  { induction Hr as [|l c c' _ (a & Ha & HS) _ Hl].
    - eexists. split; [apply reach_refl|apply Sim_initial].
    - destruct (Sim_step _ _ _ _ HS Hl) as (a' & Hs & HS'). exists a'. split; [|done].
      destruct Hs as [->|[l' Hl']]; [done|by eapply reach_step]. }
  destruct HS as [E (ch & h & t & HI & HF) _]. simpl in *. subst s''.
  exists aq, gs. split; [done|]. split; [by rewrite (g_size _ _ _ _ _ HI)|].
  intros i f Hf. destruct (Forall2_lookup_l _ _ _ _ _ HF Hf) as (g & Hg & Hfg).
  destruct f as [r|p|p|e]; [|split; [done|by exists g]..|by destruct g].
  split; [done|]. exists g. split; [done|]. intros r' [= <-]. by destruct g; simplify_eq/=.
Qed.

Definition qresult (g : qframe) : option (option (option nat)) :=
  match g with QIdle r => Some r | _ => None end.


(** Two goroutines enqueue 5 and 6 while the first is delayed before it moves
    the tail, a third dequeues twice. *)
Definition queueTrace : list (label msop) :=
  Call 0 (MsEnqueue 5) 0 :: runs 0 5 ++ Call 1 (MsEnqueue 6) 0 :: runs 1 11 ++
  runs 0 2 ++ Call 2 MsDequeue 0 :: runs 2 7 ++ Call 2 MsDequeue 0 :: runs 2 7.

