(* ===== verification/Parking.v ===== *)
(** * Wake-ups are not lost

    The blocking primitives share one argument for why a goroutine does not
    stay parked while the resource it waits for is free: whoever frees the
    resource then dequeues a waiter, and whoever enqueues one checks the
    resource again.  This file states the argument once, for goroutines seen
    through their [mode]; Mutex, Semaphore, RWLock and WaitGroup instantiate
    it. *)

From Stdlib Require Import ZArith Lia.
From stdpp Require Import base list gmap strings.
From S2P Require Import Prelude Waiter.

#[local] Open Scope Z_scope.

(** What a goroutine is doing, as far as wake-ups are concerned:
    - [MSeek]: it is going to look at the resource before it parks;
    - [MWait w]: it is parked on [w], or bound to park there;
    - [MWake]: it has freed the resource and is looking for a waiter to wake;
    - [MSig w]: it is about to signal [w];
    - [MOther]: none of these. *)
Inductive mode := MOther | MSeek | MWait (w : nat) | MWake | MSig (w : nat).

#[export] Instance mode_eq_dec : EqDecision mode.
Proof. solve_decision. Defined.

(** Something will happen without the help of others: the goroutine will look
    at the resource, or wake one that will. *)
Definition active (s : wstore) (ms : list mode) (m : mode) : Prop :=
  match m with
  | MSeek | MWake => True
  | MWait w => Ready (wget s w) = true
  | MSig w => MWait w ∈ ms
  | MOther => False
  end.

Definition someActive (s : wstore) (ms : list mode) : Prop :=
  exists t m, ms !! t = Some m /\ active s ms m.

Definition someParked (s : wstore) (ms : list mode) : Prop :=
  exists t w, ms !! t = Some (MWait w) /\ Ready (wget s w) = false.

(** While the resource is free and somebody is parked, somebody is active. *)
Definition NoLost (free : Prop) (s : wstore) (ms : list mode) : Prop :=
  free -> someParked s ms -> someActive s ms.

(** The same with a further reason [demand] for somebody to be active. *)
Definition NoLostFor (demand free : Prop) (s : wstore) (ms : list mode) : Prop :=
  free -> demand \/ someParked s ms -> someActive s ms.

Lemma NoLost_For free s ms : NoLost free s ms <-> NoLostFor False free s ms.
Proof. unfold NoLost, NoLostFor. tauto. Qed.

(** The mode of a goroutine agrees with its role in the parking protocol. *)
Definition agrees (free : Prop) (r : role) (m : mode) : Prop :=
  (forall w, m = MWait w -> own r = OShared w) /\
  match hand r with
  | HNone => forall w, m <> MSig w
  | HRaw _ | HDead _ => m = MWake
  | HSig w => m = MSig w
  end /\
  match own r with
  | OShared w => m = MSeek \/ m = MWait w
  | OCanc _ => ~ free
  | _ => True
  end.

Lemma agrees_free (free free' : Prop) r m : (free' -> free) -> agrees free r m -> agrees free' r m.
Proof. unfold agrees. intros Hf (H1 & H2 & H3). repeat split; auto. destruct (own r); auto. Qed.

(** The step of goroutine [t] leaves the tokens of the other goroutines alone. *)
Definition keepsTokens (rs : list role) (t : nat) (s s' : wstore) : Prop :=
  forall t0 h0 x, t0 <> t -> rs !! t0 = Some (Role (OShared x) h0) ->
    Ready (wget s x) = true -> Ready (wget s' x) = true.

Section Liveness.
Context (free : Prop) (rs : list role) (its : list nat) (s : wstore) (ms : list mode).
Hypothesis Hinv : WInv rs its s.
Hypothesis Hag : Forall2 (agrees free) rs ms.

Lemma agrees_at t m : ms !! t = Some m -> exists r, rs !! t = Some r /\ agrees free r m.
Proof.
  intros Hm. destruct (Forall2_lookup_r _ _ _ _ _ Hag Hm) as (r & Hr & ?). by exists r.
Qed.

(** Every goroutine that waits on a waiter which has left the queue has its
    token, or is about to be signalled. *)
Lemma unlinked_active t w :
  ms !! t = Some (MWait w) -> Ready (wget s w) = false -> w ∉ its -> someActive s ms.
Proof.
  intros Hm Hrd Hni. destruct (agrees_at _ _ Hm) as (r & Hr & (Hw & _ & _)).
  specialize (Hw w eq_refl). destruct r as [ow hd]. simpl in Hw. subst ow.
  destruct (WInv_parked _ _ _ _ _ _ Hinv Hr Hrd) as [?|(t1 & r1 & Hr1 & Hh)]; [done|].
  destruct (Forall2_lookup_l _ _ _ _ _ Hag Hr1) as (m1 & Hm1 & (_ & Hag1 & _)).
  exists t1, m1. split; [done|]. unfold raw, dead, alive in Hh.
  destruct (hand r1); try (destruct Hh as [?|[?|?]]; discriminate); subst m1; simpl; try done.
  destruct Hh as [?|[?|?]]; simplify_eq. by eapply list_elem_of_lookup_2.
Qed.

Lemma empty_NoLost : (forall w, w ∉ its) -> NoLost free s ms.
Proof. intros He _ (t & w & Hm & Hrd). eapply unlinked_active; eauto. Qed.

Section Step.
Context (t : nat) (m m' : mode) (s' : wstore) (free' : Prop).
Hypothesis Hm : ms !! t = Some m.

Lemma mode_at : <[t:=m']> ms !! t = Some m'.
Proof. apply list_lookup_insert_eq. by eapply lookup_lt_Some. Qed.

(** The goroutine that moves stays active. *)
Lemma self_active : active s' (<[t:=m']> ms) m' -> someActive s' (<[t:=m']> ms).
Proof. intros Ha. exists t, m'. split; [apply mode_at|done]. Qed.

Lemma self_NoLost :
  active s' (<[t:=m']> ms) m' -> NoLost free' s' (<[t:=m']> ms).
Proof. intros Ha _ _. by apply self_active. Qed.

Hypothesis Hkeeps : keepsTokens rs t s s'.

Lemma tokens_kept t0 w :
  t0 <> t -> ms !! t0 = Some (MWait w) ->
  Ready (wget s w) = true -> Ready (wget s' w) = true.
Proof.
  intros Hne Hw. destruct (agrees_at _ _ Hw) as ([ow hd] & Hr & (H1 & _)).
  specialize (H1 w eq_refl). simpl in H1. subst ow. by eapply Hkeeps.
Qed.

Lemma others_active t0 m0 :
  t0 <> t -> ms !! t0 = Some m0 -> (forall w, m = MWait w -> m' = MWait w) ->
  active s ms m0 -> active s' (<[t:=m']> ms) m0.
Proof.
  intros Hne Hm0 Hkeep Ha. destruct m0 as [| |w| |w]; simpl in *; try done.
  - by eapply tokens_kept.
  - apply list_elem_of_lookup in Ha as [t1 Ht1]. destruct (decide (t1 = t)) as [->|Hn].
    + rewrite Hm in Ht1. simplify_eq. rewrite (Hkeep w eq_refl) in *.
      eapply list_elem_of_lookup_2. apply list_lookup_insert_eq. by eapply lookup_lt_Some.
    + eapply (list_elem_of_lookup_2 _ t1). by rewrite list_lookup_insert_ne.
Qed.

(** A step that changes nothing for the parked goroutines. *)
Lemma passive_active :
  ~ active s ms m -> (forall w, m = MWait w -> m' = MWait w) ->
  someActive s ms -> someActive s' (<[t:=m']> ms).
Proof.
  intros Ha Hkeep (t2 & m2 & Hm2 & Ha2). assert (t2 <> t) by (intros ->; congruence).
  exists t2, m2. split; [by rewrite list_lookup_insert_ne|]. by apply others_active with t2.
Qed.

Lemma passive_parked :
  ~ active s ms m -> (forall w, m = MWait w <-> m' = MWait w) ->
  someParked s' (<[t:=m']> ms) -> someParked s ms.
Proof.
  intros Ha Hkeep (t1 & w & Hm1 & Hrd).
  apply list_lookup_insert_Some in Hm1 as [(<- & -> & _)|[Hne Hm1]].
  - rewrite (proj2 (Hkeep w) eq_refl) in *. exists t, w. split; [done|].
    destruct (Ready (wget s w)) eqn:E; [|done]. exfalso. by apply Ha.
  - exists t1, w. split; [done|]. destruct (Ready (wget s w)) eqn:E; [|done].
    exfalso. by rewrite (tokens_kept t1 w) in Hrd by auto.
Qed.

Lemma passive_NoLostFor (d d' : Prop) :
  NoLostFor d free s ms -> ~ active s ms m -> (free' -> free) -> (d' -> d) ->
  (forall w, m = MWait w <-> m' = MWait w) -> NoLostFor d' free' s' (<[t:=m']> ms).
Proof.
  intros HN Ha Hf Hd Hkeep Hf' Hp. apply passive_active; [done|intros; by apply Hkeep|].
  apply HN; [auto|]. destruct Hp as [?|?]; [left; auto|right; by apply passive_parked].
Qed.

Lemma passive_NoLost :
  NoLost free s ms -> ~ active s ms m -> (free' -> free) ->
  (forall w, m = MWait w <-> m' = MWait w) -> NoLost free' s' (<[t:=m']> ms).
Proof. rewrite !NoLost_For. intros. eapply passive_NoLostFor; eauto. Qed.

(** The goroutine has unlinked a waiter and found it alive: its owner is
    parked and going to be signalled, or awake, or has the resource. *)
Lemma found_active x o :
  rs !! t = Some (Role o (HRaw x)) -> cancelled (wget s x) = false ->
  s' = s -> free -> m' = MSig x -> someActive s' (<[t:=m']> ms).
Proof.
  intros Hr Hx _ Hf Em.
  destruct (WInv_live_owner _ _ _ _ _ _ Hinv Hr Hx) as (t0 & r0 & Hr0 & Hown).
  destruct (Forall2_lookup_l _ _ _ _ _ Hag Hr0) as (m0 & Hm0 & (_ & Hh0 & Hag0)).
  assert (Hne : t0 <> t).
  { intros ->. rewrite Hr in Hr0. injection Hr0 as <-. simpl in *. subst m0.
    destruct Hown as [-> | ->]; [by destruct Hag0|by apply Hag0]. }
  destruct Hown as [E|E]; rewrite E in Hag0; [|exfalso; by apply Hag0].
  destruct Hag0 as [-> | ->].
  - exists t0, MSeek. by rewrite list_lookup_insert_ne.
  - exists t, m'. split; [apply mode_at|]. rewrite Em. simpl.
    eapply (list_elem_of_lookup_2 _ t0). by rewrite list_lookup_insert_ne.
Qed.

Lemma found_NoLost x o :
  rs !! t = Some (Role o (HRaw x)) -> cancelled (wget s x) = false ->
  s' = s -> (free' -> free) -> m' = MSig x -> NoLost free' s' (<[t:=m']> ms).
Proof. intros Hr Hx Es Hf Em Hf' _. eapply found_active; eauto. Qed.

(** The goroutine delivers its signal. *)
Lemma signal_active x :
  m = MSig x -> s' = Signal x s -> (forall w, m' <> MWait w) ->
  someActive s ms -> someActive s' (<[t:=m']> ms).
Proof.
  intros Em Es Hm' HA. destruct (decide (MWait x ∈ ms)) as [[t0 Ht0]%list_elem_of_lookup|Hn].
  - exists t0, (MWait x). assert (t0 <> t) by (intros ->; congruence).
    rewrite list_lookup_insert_ne by done. split; [done|]. simpl. rewrite Es. unfold Signal.
    by rewrite wget_wset_eq.
  - apply passive_active; [by rewrite Em|by rewrite Em|done].
Qed.

Lemma signal_NoLostFor (d d' : Prop) x :
  NoLostFor d free s ms -> m = MSig x -> s' = Signal x s -> (free' -> free) -> (d' -> d) ->
  m' = MOther -> NoLostFor d' free' s' (<[t:=m']> ms).
Proof.
  intros HN Em Es Hf Hd Em' Hf' Hp. eapply signal_active; eauto; [by rewrite Em'|].
  apply HN; [auto|]. destruct Hp as [?|(t1 & w & Hm1 & Hrd)]; [left; auto|right].
  rewrite Em' in Hm1. apply list_lookup_insert_Some in Hm1 as [(_ & [=] & _)|[Hne Hm1]].
  exists t1, w. split; [done|]. destruct (Ready (wget s w)) eqn:E; [|done].
  exfalso. by rewrite (tokens_kept t1 w) in Hrd by auto.
Qed.

Lemma signal_NoLost x :
  NoLost free s ms -> m = MSig x -> s' = Signal x s -> (free' -> free) ->
  m' = MOther \/ m' = MWake -> NoLost free' s' (<[t:=m']> ms).
Proof.
  intros HN Em Es Hf [Em'|Em'].
  - rewrite NoLost_For in HN |- *. by eapply signal_NoLostFor.
  - apply self_NoLost. by rewrite Em'.
Qed.
End Step.
End Liveness.

(** A goroutine that is between calls or parked. *)
Definition restingMode (s : wstore) (m : mode) : Prop :=
  m = MOther \/ exists w, m = MWait w /\ Ready (wget s w) = false.

(** When everybody rests and somebody is parked, the resource is not free. *)
Lemma NoLost_resting (free : Prop) s ms :
  NoLost free s ms -> Forall (restingMode s) ms -> someParked s ms -> ~ free.
Proof.
  intros HN Hr Hp Hf. destruct (HN Hf Hp) as (t & m & Hm & Ha).
  destruct (Forall_lookup_1 _ _ _ _ Hr Hm) as [->|(w & -> & Hrd)]; simpl in Ha; congruence.
Qed.
