(* ===== verification/Sides.v ===== *)
(** * Two queues of one primitive, seen apart (internal/primitives/waiter.go)

    A readers-writer lock parks readers and writers in two queues whose
    waiters come from one pool.  Waiter.v states the parking protocol [WInv]
    for all of them together; this file shows that it also holds for each
    queue with the goroutines that use it ([side]), so that a waiter
    published in one queue is never signalled through the other, and relates
    the size counter of a queue to what is linked in it. *)

From Stdlib Require Import ZArith Lia.
From stdpp Require Import base list gmap strings.
From S2P Require Import Prelude Waiter.

#[local] Open Scope Z_scope.
#[local] Open Scope sync_scope.

(** ** The references of one side to a waiter *)

Definition refs (x : nat) (rs : list role) (its : list nat) : Z :=
  cnt priv x rs + cnt shared x rs + cnt canc x rs + occ x its +
  cnt raw x rs + cnt dead x rs + cnt alive x rs.

Lemma refs_nonneg x rs its : 0 <= refs x rs its.
Proof.
  unfold refs. pose proof (cnt_nonneg priv x rs). pose proof (cnt_nonneg shared x rs).
  pose proof (cnt_nonneg canc x rs). pose proof (cnt_nonneg raw x rs). pose proof (cnt_nonneg dead x rs).
  pose proof (cnt_nonneg alive x rs). pose proof (occ_nonneg x its). lia.
Qed.

Lemma cnt_app f x A B : cnt f x (A ++ B) = cnt f x A + cnt f x B.
Proof. apply sumf_app. Qed.

(** The protocol for all goroutines together and for each side alone. *)
Record Sides (A B : list role) (ia ib : list nat) (s : wstore) : Prop := {
  sides_all : WInv (A ++ B) (ia ++ ib) s;
  sides_l : WInv A ia s;
  sides_r : WInv B ib s
}.

Lemma WInv_swap A B ia ib s : WInv (A ++ B) (ia ++ ib) s -> WInv (B ++ A) (ib ++ ia) s.
Proof.
  intros H x. specialize (H x). rewrite !cnt_app, occ_app in *.
  rewrite !(Z.add_comm (cnt _ x B)), (Z.add_comm (occ x ib)). exact H.
Qed.

Lemma Sides_sym A B ia ib s : Sides A B ia ib s -> Sides B A ib ia s.
Proof. intros [H1 H2 H3]. split; [by apply WInv_swap|done..]. Qed.

(** A waiter belongs to one side. *)
Lemma Sides_apart A B ia ib s x :
  Sides A B ia ib s -> 1 <= refs x A ia -> refs x B ib = 0.
Proof.
  intros [H1 H2 H3] Hx. specialize (H1 x). specialize (H2 x). specialize (H3 x).
  unfold refs in *. unfold wok in *. rewrite !cnt_app, occ_app in H1.
  assert (Hd : forall a b : Z, 1 <= a + b -> 1 <= a \/ 1 <= b) by (intros; lia).
  destruct (Ready (wget s x)), (cancelled (wget s x)); simpl in *; lia.
Qed.

(** Only [x] differs. *)
Definition only (x : nat) (s s' : wstore) : Prop :=
  forall y, y <> x ->
    wget s' y = wget s y /\ occ y (pool s') = occ y (pool s) /\ (nextp s' <= y -> nextp s <= y)%nat.

Lemma WInv_frame rs its s s' x A ia :
  WInv rs its s -> refs x rs its = 0 -> only x s s' -> WInv A ia s' -> WInv rs its s'.
Proof.
  intros H Hx Ho HA y. destruct (decide (y = x)) as [->|Hne].
  - specialize (HA x). specialize (H x). unfold refs, wok in *.
    destruct (Ready (wget s' x)), (cancelled (wget s' x)); simpl; lia.
  - destruct (Ho y Hne) as (-> & -> & Hn). specialize (H y). unfold wok in *. tauto.
Qed.

(** ** What a step touches *)

Definition mentions (x : nat) (r : role) : Prop :=
  own r = OPriv x \/ own r = OShared x \/ own r = OCanc x \/
  hand r = HRaw x \/ hand r = HDead x \/ hand r = HSig x.

Lemma mentions_refs x r rs its t : rs !! t = Some r -> mentions x r -> 1 <= refs x rs its.
Proof.
  intros Ht Hm. pose proof (fun f => cnt_pos f x rs t r Ht) as Hp. unfold refs.
  pose proof (cnt_nonneg priv x rs). pose proof (cnt_nonneg shared x rs).
  pose proof (cnt_nonneg canc x rs). pose proof (cnt_nonneg raw x rs). pose proof (cnt_nonneg dead x rs).
  pose proof (cnt_nonneg alive x rs). pose proof (occ_nonneg x its).
  destruct Hm as [E|[E|[E|[E|[E|E]]]]];
    [specialize (Hp priv)|specialize (Hp shared)|specialize (Hp canc)|specialize (Hp raw)
    |specialize (Hp dead)|specialize (Hp alive)];
    unfold priv, shared, canc, raw, dead, alive in Hp; rewrite E in Hp; specialize (Hp eq_refl);
    unfold priv, shared, canc, raw, dead, alive in *; lia.
Qed.

(** A goroutine with role [r] touches a waiter it refers to or takes a new
    one from the pool. *)
Definition touches (r : role) (s s' : wstore) : Prop :=
  s' = s \/ exists x, only x s s' /\ (mentions x r \/ x ∈ pool s \/ (nextp s <= x)%nat).

(** A step of a goroutine of one side is no step for the other. *)
Lemma Sides_other A B ia ib s s' t r C ic :
  Sides A B ia ib s -> A !! t = Some r -> touches r s s' -> WInv C ic s' -> WInv B ib s'.
Proof.
  intros HS Ht [->|(x & Ho & Hx)] HC; [apply HS|].
  eapply WInv_frame; [apply HS| |exact Ho|exact HC].
  destruct Hx as [Hm|Hx]; [eapply Sides_apart; [exact HS|by eapply mentions_refs]|].
  pose proof (sides_all _ _ _ _ _ HS x) as H. pose proof (sides_l _ _ _ _ _ HS x) as HA.
  pose proof (sides_r _ _ _ _ _ HS x) as HB. unfold wok, refs in *. rewrite !cnt_app, occ_app in H.
  destruct Hx as [Hx%occ_elem|Hx]; lia.
Qed.

Lemma touches_id r s : touches r s s.
Proof. by left. Qed.

Lemma only_wset x v s : only x s (wset x v s).
Proof. intros y Hy. by rewrite wget_wset_ne. Qed.

Lemma touches_wset x v s r : mentions x r -> touches r s (wset x v s).
Proof. intros H. right. exists x. split; [apply only_wset|by left]. Qed.

Lemma touches_put x s r : mentions x r -> touches r s (putWaiter x s).
Proof.
  intros H. right. exists x. split; [|by left]. intros y Hy. rewrite wget_put, decide_False by done.
  rewrite pool_put, nextp_put. unfold occ. simpl. by rewrite hit_ne by done.
Qed.

Lemma touches_signal x s r : mentions x r -> touches r s (Signal x s).
Proof. apply touches_wset. Qed.

Lemma touches_cancel x s r : mentions x r -> touches r s (cancelWaiter x s).
Proof. apply touches_wset. Qed.

Lemma touches_wait x s s' r : mentions x r -> Wait x s = Some s' -> touches r s s'.
Proof. unfold Wait. intros H E. destruct (Ready _); simplify_eq. by apply touches_wset. Qed.

Lemma touches_ctx o d b x s s' r : mentions x r -> WaitContext o d x s = Some (b, s') -> touches r s s'.
Proof. intros H [[_ ?]|(_ & -> & _)]%WaitContext_inv; [by eapply touches_wait|apply touches_id]. Qed.

Lemma touches_get o x s s' r : getWaiter o s = (x, s') -> touches r s s'.
Proof.
  unfold getWaiter, poolGet. intros E. right. exists x.
  destruct (pool s !! pick o) as [y|] eqn:Ey; simplify_eq.
  - split; [|right; left; by eapply list_elem_of_lookup_2]. intros y Hy.
    rewrite wget_wset_ne by done. rewrite !wget_mkStore. split; [done|]. split; [|done]. simpl.
    unfold occ. rewrite (sumf_delete _ _ _ _ Ey), hit_ne by done. lia.
  - split; [|right; right; done]. intros y Hy. rewrite wget_wset_ne by done. simpl. unfold wget. simpl.
    rewrite lookup_insert_ne by done. split; [done|]. split; [done|]. lia.
Qed.

Lemma touches_dequeue o p q r q' s s' :
  Dequeue_step p q s = (r, q', s') -> touches (Role o (dqHand p)) s s'.
Proof.
  destruct p as [|w|w|w]; simpl; intros E; repeat case_match; simplify_eq; try apply touches_id.
  apply touches_put. unfold mentions. simpl. auto 10.
Qed.

(** ** The size counter

    The counter lags behind the list: it misses the waiters linked by
    enqueuers that have not counted them yet, and still counts those unlinked
    by dequeuers that have not taken them off. *)
Definition sized (q : WaiterQueue) (linking unlinking : Z) : Prop :=
  int64_range (qsize q) /\ qsize q ≡₆₄ Z.of_nat (length (items q)) - linking + unlinking.

Definition unlinkingPc (p : dqpc) : Z := match p with DqSize _ => 1 | _ => 0 end.

Definition unlinkingOut (r : outcome dqpc (option nat)) : Z :=
  match r with Next p => unlinkingPc p | _ => 0 end.

(** Congruent sums with the same value. *)
Ltac eq64_lia := match goal with |- ?a ≡₆₄ ?b => replace b with a by lia; reflexivity end.

Lemma sized_new : sized NewWaiterQueue 0 0.
Proof. split; [unfold int64_range; simpl; lia|reflexivity]. Qed.

Lemma sized_link x q l u : sized q l u -> sized (Enqueue_link x q) (l + 1) u.
Proof. intros [Hr H]. split; [done|]. simpl. rewrite H, length_app. simpl. eq64_lia. Qed.

Lemma sized_count q l u : sized q l u -> sized (Enqueue_size q) (l - 1) u.
Proof. intros [Hr H]. split; [apply wrap64_range|]. simpl. rewrite add64_eq64, H. eq64_lia. Qed.

Lemma sized_dequeue p q s r q' s' l u :
  Dequeue_step p q s = (r, q', s') -> sized q l u -> sized q' l (u - unlinkingPc p + unlinkingOut r).
Proof.
  destruct p as [|w|w|w]; simpl; intros E [Hr H]; simplify_eq; simpl.
  - destruct (items q) as [|y k] eqn:Ei; simplify_eq; (split; [done|]); simpl in *; rewrite ?Ei, H; simpl; eq64_lia.
  - split; [apply wrap64_range|]. simpl. rewrite add64_eq64, H. eq64_lia.
  - destruct (cancelled _); simplify_eq; (split; [done|]); rewrite H; simpl; eq64_lia.
  - split; [done|]. rewrite H. eq64_lia.
Qed.

(** A queue that looks nonempty has a waiter linked, or an enqueuer or a
    dequeuer is between its two steps. *)
Lemma sized_nonempty q l u :
  sized q l u -> IsEmpty q = false -> items q <> [] \/ l <> 0 \/ u <> 0.
Proof.
  unfold IsEmpty, Size. intros [Hr H] E.
  destruct (decide (items q = [])) as [Ei|]; [|by left].
  destruct (decide (l = 0)) as [->|]; [|by right; left].
  destruct (decide (u = 0)) as [->|]; [|by right; right].
  rewrite Ei in H. exfalso. apply eq64_inj in H; [|done|unfold int64_range; simpl; lia].
  rewrite H in E. done.
Qed.

#[export] Hint Resolve touches_id touches_put touches_signal touches_cancel touches_wait touches_ctx
  touches_get touches_dequeue : sync.
#[export] Hint Extern 1 (mentions _ _) => unfold mentions; simpl; tauto : sync.
