(* ===== verification/Mutex.v ===== *)
(** * Mutex (internal/primitives/condvar.go, lines 14-157 and 336-358)

    A non-handoff mutual-exclusion lock: a state word that goes from 0 to 1
    by compare-and-swap, and a queue of parked goroutines.  Every operation
    is given as its atomic steps, one constructor of [lockpc] or [unlockpc]
    per program point; the interleavings are those of [machine]. *)

From Stdlib Require Import ZArith Lia.
From stdpp Require Import base list gmap strings.
From S2P Require Import Prelude Waiter Parking.

#[local] Open Scope Z_scope.

Record Mutex := mkMutex {
  state : Z;                 (* 0 = unlocked, 1 = locked *)
  waiters : WaiterQueue;
  locks : Z;
  unlocks : Z;
  waits : Z;
  totalWaitTime : Z;
  createdAt : Z
}.

Definition NewMutex (now : Z) : Mutex := mkMutex 0 NewWaiterQueue 0 0 0 0 now.

Definition set_state v m := mkMutex v (waiters m) (locks m) (unlocks m) (waits m) (totalWaitTime m) (createdAt m).
Definition set_waiters v m := mkMutex (state m) v (locks m) (unlocks m) (waits m) (totalWaitTime m) (createdAt m).
Definition set_locks v m := mkMutex (state m) (waiters m) v (unlocks m) (waits m) (totalWaitTime m) (createdAt m).
Definition set_unlocks v m := mkMutex (state m) (waiters m) (locks m) v (waits m) (totalWaitTime m) (createdAt m).
Definition set_waits v m := mkMutex (state m) (waiters m) (locks m) (unlocks m) v (totalWaitTime m) (createdAt m).
Definition set_totalWaitTime v m := mkMutex (state m) (waiters m) (locks m) (unlocks m) (waits m) v (createdAt m).

Definition upd (f : Mutex -> Mutex) (w : world Mutex) : world Mutex := withPrim (f (prim w)) w.

(** ** Lock and LockContext

    The program points of the loop, in the order of the source:
    [LFast] the fast-path CAS, [LCtx] the non-blocking test of [ctx.Done()]
    (LockContext only), [LNew] [NewWaiter()], [LLink]/[LSize] [Enqueue],
    [LWaits] [m.waits.Add(1)], [LRecheck] the CAS after the enqueue,
    [LCancel] [waiter.cancelled.Store(true)], [LLocks] [m.locks.Add(1)],
    [LWait] the blocking receive, [LCtxCancel] the store that
    [Waiter.WaitContext] makes when the context wins, [LPut] [putWaiter],
    [LTotal] the update of [totalWaitTime]. *)
Inductive lockpc :=
| LFast | LCtx | LNew | LLink (w : nat) | LSize (w : nat) | LWaits (w : nat)
| LRecheck (w : nat) | LCancel (w : nat) | LLocks
| LWait (w : nat) | LCtxCancel (w : nat) | LPut (w : nat) | LTotal.

(** [start] is the local variable [startTime].  [Return true] is a normal
    return (nil error), [Return false] returns [ctx.Err()]. *)
Definition Lock_step (start : Z) (o : oracle) (p : lockpc) (w : world Mutex)
    : option (outcome lockpc bool * world Mutex) :=
  let m := prim w in
  match p with
  | LFast =>
      if state m =? 0 then Some (Next LLocks, upd (set_state 1) w)
      else Some (Next LNew, w)
  | LNew => let '(x, s) := NewWaiter o (store w) in Some (Next (LLink x), withStore s w)
  | LLink x => Some (Next (LSize x), upd (set_waiters (Enqueue_link x (waiters m))) w)
  | LSize x => Some (Next (LWaits x), upd (set_waiters (Enqueue_size (waiters m))) w)
  | LWaits x => Some (Next (LRecheck x), upd (set_waits (add64 (waits m) 1)) w)
  | LRecheck x =>
      if state m =? 0 then Some (Next (LCancel x), upd (set_state 1) w)
      else Some (Next (LWait x), w)
  | LCancel x => Some (Next LLocks, withStore (cancelWaiter x (store w)) w)
  | LLocks => Some (Return true, upd (set_locks (add64 (locks m) 1)) w)
  | LWait x => s ← Wait x (store w); Some (Next (LPut x), withStore s w)
  | LPut x => Some (Next LTotal, withStore (putWaiter x (store w)) w)
  | LTotal =>
      Some (Next LFast, upd (set_totalWaitTime (add64 (totalWaitTime m) (clk o - start))) w)
  | LCtx | LCtxCancel _ => None
  end.

(** [LockContext] differs from [Lock] where it looks at the context. *)
Definition LockContext_step (c : nat) (start : Z) (o : oracle) (p : lockpc) (w : world Mutex)
    : option (outcome lockpc bool * world Mutex) :=
  match p with
  | LFast =>
      if state (prim w) =? 0 then Some (Next LLocks, upd (set_state 1) w)
      else Some (Next LCtx, w)
  | LCtx => if ctxDone c w then Some (Return false, w) else Some (Next LNew, w)
  | LWait x =>
      '(signalled, s) ← WaitContext o (ctxDone c w) x (store w);
      Some (Next (if signalled : bool then LPut x else LCtxCancel x), withStore s w)
  | LCtxCancel x => Some (Return false, withStore (cancelWaiter x (store w)) w)
  | _ => Lock_step start o p w
  end.

(** ** Unlock *)
Inductive unlockpc :=
| ULoad | UUnlocks | UStore | UDeq (d : dqpc) | USignal (w : nat).

Definition Unlock_step (p : unlockpc) (w : world Mutex)
    : outcome unlockpc unit * world Mutex :=
  let m := prim w in
  match p with
  | ULoad =>
      if negb (state m =? 1) then (Panic "mutex: unlock of unlocked mutex", w)
      else (Next UUnlocks, w)
  | UUnlocks => (Next UStore, upd (set_unlocks (add64 (unlocks m) 1)) w)
  | UStore => (Next (UDeq DqPop), upd (set_state 0) w)
  | UDeq d =>
      let '(r, q, s) := Dequeue_step d (waiters m) (store w) in
      (match r with
       | Next d' => Next (UDeq d')
       | Return (Some x) => Next (USignal x)
       | Return None => Return tt
       | Panic e => Panic e
       end, withStore s (upd (set_waiters q) w))
  | USignal x => (Return tt, withStore (Signal x (store w)) w)
  end.

(** ** TryLock *)
Inductive trypc := TCas | TLocks.

Definition TryLock_step (p : trypc) (w : world Mutex) : outcome trypc bool * world Mutex :=
  let m := prim w in
  match p with
  | TCas =>
      if state m =? 0 then (Next TLocks, upd (set_state 1) w) else (Return false, w)
  | TLocks => (Return true, upd (set_locks (add64 (locks m) 1)) w)
  end.

Definition IsLocked (m : Mutex) : bool := state m =? 1.

Record MutexStats := mkMutexStats {
  Locks : Z; Unlocks : Z; Waits : Z; TotalWaitTimeNs : Z;
  IsLocked_ : bool; WaitersQueued : Z; Age : Z
}.

Definition GetStats (now : Z) (m : Mutex) : MutexStats :=
  mkMutexStats (locks m) (unlocks m) (waits m) (totalWaitTime m)
               (IsLocked m) (Size (waiters m)) (now - createdAt m).

(** ** Goroutines using one mutex

    A goroutine is between calls ([FIdle], with the result of the last one),
    inside a call, or dead after a panic.  [held] counts the acquisitions it
    has not released; a client calls [Unlock] only when it holds the lock,
    which is what Go requires of it. *)
Inductive mop := OpLock | OpLockContext (c : nat) | OpUnlock | OpTryLock.

Inductive frame :=
| FIdle (r : option bool)
| FLock (p : lockpc)
| FLockContext (c : nat) (p : lockpc)
| FUnlock (p : unlockpc)
| FTry (p : trypc)
| FPanic (msg : string).

Record thread := mkThread { frm : frame; startTime : Z; held : Z }.

Definition idle : thread := mkThread (FIdle None) 0 0.

Definition mcall (op : mop) (now : Z) (th : thread) : option thread :=
  match frm th with
  | FIdle _ =>
      match op with
      | OpLock => Some (mkThread (FLock LFast) now (held th))
      | OpLockContext c => Some (mkThread (FLockContext c LFast) now (held th))
      | OpUnlock =>
          if 0 <? held th then Some (mkThread (FUnlock ULoad) now (held th - 1)) else None
      | OpTryLock => Some (mkThread (FTry TCas) now (held th))
      end
  | _ => None
  end.

(** The goroutine after a step of an acquiring call. *)
Definition acquired {P} (k : P -> frame) (th : thread) (r : outcome P bool) : thread :=
  match r with
  | Next p => mkThread (k p) (startTime th) (held th)
  | Return b => mkThread (FIdle (Some b)) (startTime th) (held th + Z.b2z b)
  | Panic e => mkThread (FPanic e) (startTime th) (held th)
  end.

Definition mrun (o : oracle) (th : thread) (w : world Mutex) : option (thread * world Mutex) :=
  match frm th with
  | FIdle _ | FPanic _ => None
  | FLock p => '(r, w) ← Lock_step (startTime th) o p w; Some (acquired FLock th r, w)
  | FLockContext c p =>
      '(r, w) ← LockContext_step c (startTime th) o p w;
      Some (acquired (FLockContext c) th r, w)
  | FUnlock p =>
      let '(r, w) := Unlock_step p w in
      Some (match r with
            | Next p => mkThread (FUnlock p) (startTime th) (held th)
            | Return _ => mkThread (FIdle None) (startTime th) (held th)
            | Panic e => mkThread (FPanic e) (startTime th) (held th)
            end, w)
  | FTry p =>
      let '(r, w) := TryLock_step p w in Some (acquired FTry th r, w)
  end.

Definition mutex : machine (world Mutex) thread mop := Machine mcall mrun cancelCtx.

(** [n] goroutines and a new mutex. *)
Definition initial (n : nat) (now : Z) : config (Sh:=world Mutex) (Th:=thread) :=
  (World (NewMutex now) emptyStore ∅, replicate n idle).

(** * Invariants *)

(** How many times a goroutine holds the lock: the acquisitions it has
    returned from, plus the one in progress between the successful CAS and
    the return, or between the call of [Unlock] and the store of 0. *)
Definition holds (th : thread) : Z :=
  held th +
  match frm th with
  | FLock (LCancel _ | LLocks) | FLockContext _ (LCancel _ | LLocks)
  | FUnlock (ULoad | UUnlocks | UStore) | FTry TLocks => 1
  | _ => 0
  end.

Definition lockRole (p : lockpc) : role :=
  match p with
  | LLink w | LPut w => Role (OPriv w) HNone
  | LSize w | LWaits w | LRecheck w | LWait w | LCtxCancel w => Role (OShared w) HNone
  | LCancel w => Role (OCanc w) HNone
  | LFast | LCtx | LNew | LLocks | LTotal => idleRole
  end.

Definition unlockRole (p : unlockpc) : role :=
  match p with
  | UDeq d => Role ONone (dqHand d)
  | USignal w => Role ONone (HSig w)
  | _ => idleRole
  end.

Definition roleOf (th : thread) : role :=
  match frm th with
  | FLock p | FLockContext _ p => lockRole p
  | FUnlock p => unlockRole p
  | _ => idleRole
  end.

Definition wellFormed (th : thread) : Prop :=
  0 <= held th /\
  match frm th with
  | FPanic _ => False
  | FLock (LCtx | LCtxCancel _) => False
  | _ => True
  end.

Record Inv (c : world Mutex * list thread) : Prop := {
  inv_holders : state (prim c.1) = sumf holds c.2;
  inv_state : state (prim c.1) = 0 \/ state (prim c.1) = 1;
  inv_threads : Forall wellFormed c.2;
  inv_protocol : WInv (roleOf <$> c.2) (items (waiters (prim c.1))) (store c.1)
}.

Lemma holds_nonneg th : wellFormed th -> 0 <= holds th.
Proof.
  intros [H _]. unfold holds.
  destruct (frm th) as [|p|c p|p|p|]; try destruct p; simpl; lia.
Qed.

Lemma Inv_initial n now : Inv (initial n now).
Proof.
  constructor; simpl.
  - by rewrite sumf_replicate.
  - by left.
  - apply Forall_replicate. split; simpl; lia.
  - rewrite fmap_replicate. apply WInv_init.
Qed.

Lemma Inv_call w ths t th th' op now :
  Inv (w, ths) -> ths !! t = Some th -> mcall op now th = Some th' -> Inv (w, <[t:=th']> ths).
Proof.
  intros [Hh Hs Ht Hp] Hl Hc. simpl in *.
  assert (holds th' = holds th /\ roleOf th' = roleOf th /\ wellFormed th') as (E1 & E2 & E3).
  { pose proof (Forall_lookup_1 _ _ _ _ Ht Hl) as [Hw _].
    unfold mcall, holds, roleOf, wellFormed in *. destruct th as [f st h]; simpl in *.
    destruct f; try discriminate. destruct op; simplify_eq; simpl;
      try (repeat split; lia).
    destruct (0 <? h) eqn:E; simplify_eq; simpl. bool_facts. repeat split; lia. }
  constructor; simpl; auto.
  - rewrite (sumf_insert _ _ _ _ _ Hl). lia.
  - by apply Forall_insert.
  - rewrite list_fmap_insert, E2. apply WInv_same; [done|]. by rewrite list_lookup_fmap, Hl.
Qed.

(** Every step of a goroutine changes the state word exactly as it changes
    what the goroutine holds, and none of them panics. *)
Lemma run_state o th w th' w' :
  wellFormed th -> state (prim w) = 0 \/ state (prim w) = 1 -> holds th <= state (prim w) ->
  mrun o th w = Some (th', w') ->
  state (prim w') = state (prim w) - holds th + holds th' /\
  (state (prim w') = 0 \/ state (prim w') = 1) /\ wellFormed th'.
Proof.
  intros [Hheld Hwf] Hs Hle Hr. destruct th as [f st h]. unfold mrun, wellFormed, holds in *.
  simpl in *.
  destruct f as [| p | c p | p | p |]; [done| | | | |done];
    destruct p; simpl in Hr; inv_step Hr; try done; simpl in *; bool_facts;
    repeat match goal with |- context [Z.b2z ?b] => is_var b; destruct b end;
    repeat match goal with |- context [if ?b then LPut _ else _] => destruct b end;
    simpl in *; repeat split; try done; try lia.
  by eapply Dequeue_no_panic.
Qed.

(** Every step follows the parking protocol. *)
Lemma run_protocol o th w th' w' rs t :
  mrun o th w = Some (th', w') -> rs !! t = Some (roleOf th) ->
  WInv rs (items (waiters (prim w))) (store w) ->
  WInv (<[t:=roleOf th']> rs) (items (waiters (prim w'))) (store w').
Proof.
  intros Hr Ht H. destruct th as [f st h]. unfold mrun, roleOf in *. simpl in *.
  destruct f as [| p | c p | p | p |]; [done| | | | |done];
    destruct p; simpl in Hr; inv_step Hr; simpl in *; eauto with sync.
  exfalso. by eapply Dequeue_no_panic.
Qed.

Lemma Inv_run w ths t th th' w' o :
  Inv (w, ths) -> ths !! t = Some th -> mrun o th w = Some (th', w') ->
  Inv (w', <[t:=th']> ths).
Proof.
  intros [Hh Hs Ht Hp] Hl Hr. simpl in *.
  pose proof (Forall_lookup_1 _ _ _ _ Ht Hl) as Hwf.
  assert (Hle : holds th <= state (prim w)).
  { rewrite Hh. eapply sumf_le_F; eauto using holds_nonneg. }
  destruct (run_state _ _ _ _ _ Hwf Hs Hle Hr) as (E1 & E2 & E3).
  constructor; simpl; auto.
  - rewrite (sumf_insert _ _ _ _ _ Hl). lia.
  - by apply Forall_insert.
  - rewrite list_fmap_insert. eapply run_protocol; eauto. by rewrite list_lookup_fmap, Hl.
Qed.

Lemma reach_Inv P n now c : reach mutex P (initial n now) c -> Inv c.
Proof.
  apply reach_invariant; intros.
  - apply Inv_initial.
  - eapply Inv_call; eauto.
  - eapply Inv_run; eauto.
  - destruct H. by constructor.
Qed.

(** ** No wake-up is lost *)

Definition waitingOn (th : thread) : option nat :=
  match frm th with
  | FLock (LWait w) | FLockContext _ (LWait w) => Some w
  | _ => None
  end.

(** Blocked on an empty channel. *)
Definition parked (s : wstore) (th : thread) : Prop :=
  exists w, waitingOn th = Some w /\ Ready (wget s w) = false.

#[export] Instance parked_dec s th : Decision (parked s th).
Proof.
  unfold parked. destruct (waitingOn th) as [w|]; [|right; by intros (? & ? & _)].
  destruct (Ready (wget s w)) eqn:E; [right; intros (? & ? & ?); congruence|left; eauto].
Defined.

(** Nothing to do without the help of another goroutine. *)
Definition resting (s : wstore) (th : thread) : Prop :=
  parked s th \/ exists r, frm th = FIdle r.

#[export] Instance resting_dec s th : Decision (resting s th).
Proof.
  unfold resting. destruct (decide (parked s th)) as [?|Hn]; [left; by left|].
  destruct (frm th) eqn:E; try (right; intros [?|[? ?]]; [done|congruence]). left. eauto.
Defined.

(** How the argument of Parking.v sees a goroutine. *)
Definition modeOf (th : thread) : mode :=
  match frm th with
  | FLock p | FLockContext _ p =>
      match p with
      | LCancel _ | LLocks | LCtxCancel _ => MOther
      | LWait w => MWait w
      | _ => MSeek
      end
  | FUnlock (UDeq _) => MWake
  | FUnlock (USignal w) => MSig w
  | _ => MOther
  end.

Definition free (w : world Mutex) : Prop := state (prim w) = 0.

(** No goroutine is giving up its wait. *)
Definition notGivingUp (th : thread) : Prop :=
  match frm th with FLockContext _ (LCtxCancel _) => False | _ => True end.

Record Live (c : world Mutex * list thread) : Prop := {
  live_inv : Inv c;
  live_ctx : ctxs c.1 = ∅;
  live_wait : Forall notGivingUp c.2;
  live_woken : NoLost (free c.1) (store c.1) (modeOf <$> c.2)
}.

Lemma roles_lookup (ths : list thread) t th :
  ths !! t = Some th -> (roleOf <$> ths) !! t = Some (roleOf th).
Proof. intros H. by rewrite list_lookup_fmap, H. Qed.

Lemma modes_lookup (ths : list thread) t th :
  ths !! t = Some th -> (modeOf <$> ths) !! t = Some (modeOf th).
Proof. intros H. by rewrite list_lookup_fmap, H. Qed.

Lemma modes_agree w ths :
  Inv (w, ths) -> Forall notGivingUp ths ->
  Forall2 (agrees (free w)) (roleOf <$> ths) (modeOf <$> ths).
Proof.
  intros [Hh Hs Hwf _] Hg. simpl in *. apply Forall2_fmap_2, Forall_Forall2_diag.
  apply Forall_lookup. intros t th Hl.
  pose proof (sumf_le_F holds wellFormed holds_nonneg _ _ _ Hwf Hl) as Hle.
  destruct (Forall_lookup_1 _ _ _ _ Hwf Hl) as [Hheld Hf].
  pose proof (Forall_lookup_1 _ _ _ _ Hg Hl) as Hn.
  unfold agrees, free, modeOf, roleOf, notGivingUp, holds in *.
  destruct (frm th) as [|p|c p|p|p|]; try destruct p as []; simpl in *; try done;
    repeat split; intros; simplify_eq; auto; try lia; try (destruct d; simpl; by auto).
Qed.

(** The token of a parked goroutine is not touched by the others. *)
Lemma run_tokens w ths t th th' w' o :
  Inv (w, ths) -> ths !! t = Some th -> mrun o th w = Some (th', w') ->
  keepsTokens (roleOf <$> ths) t (store w) (store w').
Proof.
  intros [_ _ _ Hp] Hl Hr t0 h0 x Hne Hl0 Hx. simpl in *. apply roles_lookup in Hl.
  apply not_eq_sym in Hne.
  destruct th as [f st h]. unfold mrun, roleOf in *. simpl in *.
  destruct f as [| p | c p | p | p |]; [done| | | | |done];
    destruct p; simpl in Hr; inv_step Hr; simpl in *; eauto with sync.
Qed.

(** Every step of [Unlock] keeps parked goroutines from being forgotten. *)
Lemma unlock_NoLost w ths t p st h o th' w' :
  Live (w, ths) -> ths !! t = Some (mkThread (FUnlock p) st h) ->
  mrun o (mkThread (FUnlock p) st h) w = Some (th', w') ->
  NoLost (free w') (store w') (<[t:=modeOf th']> (modeOf <$> ths)).
Proof.
  intros [HI Hc Hg HN] Hl Hr. pose proof HI as [_ _ _ Hp]. simpl in *.
  pose proof (modes_agree _ _ HI Hg) as Hag. pose proof (run_tokens _ _ _ _ _ _ _ HI Hl Hr) as Hk.
  pose proof (modes_lookup _ _ _ Hl) as Hm. pose proof (roles_lookup _ _ _ Hl) as Hrl.
  pose proof (Inv_run _ _ _ _ _ _ _ HI Hl Hr) as HI'.
  assert (Hg' : Forall notGivingUp (<[t:=th']> ths)).
  { apply Forall_insert; [done|]. unfold mrun in Hr. simpl in Hr. inv_step Hr; done. }
  pose proof (modes_agree _ _ HI' Hg') as Hag'.
  unfold mrun in Hr. simpl in Hr. destruct p as [| | |[|x|x|x]|x]; simpl in *.
  - eapply passive_NoLost; eauto; destruct (negb _); simplify_eq; try done; by simpl; auto.
  - simplify_eq. by eapply passive_NoLost; eauto.
  - simplify_eq. by eapply self_NoLost.
  - destruct (items (waiters (prim w))) as [|y l] eqn:Hi; simplify_eq; [|by eapply self_NoLost].
    rewrite <- list_fmap_insert. eapply empty_NoLost; [apply HI'|exact Hag'|].
    intros y. simpl. rewrite Hi. apply not_elem_of_nil.
  - simplify_eq. by eapply self_NoLost.
  - destruct (cancelled (wget (store w) x)) eqn:Hx; simplify_eq; [by eapply self_NoLost|].
    eapply (found_NoLost (free w)); [exact Hp|exact Hag|exact Hm|exact Hrl|exact Hx|done|auto|done].
  - simplify_eq. by eapply self_NoLost.
  - simplify_eq. eapply signal_NoLost; eauto.
Qed.

Lemma NoLost_run w ths t th th' w' o :
  Live (w, ths) -> ths !! t = Some th -> mrun o th w = Some (th', w') ->
  NoLost (free w') (store w') (<[t:=modeOf th']> (modeOf <$> ths)).
Proof.
  intros HL Hl Hr. pose proof HL as [HI Hc Hg HN]. simpl in *.
  pose proof (modes_agree _ _ HI Hg) as Hag. pose proof (run_tokens _ _ _ _ _ _ _ HI Hl Hr) as Hk.
  pose proof (modes_lookup _ _ _ Hl) as Hm. pose proof (Forall_lookup_1 _ _ _ _ Hg Hl) as Hn.
  pose proof (Forall_lookup_1 _ _ _ _ (inv_threads _ HI) Hl) as [_ Hwf].
  destruct th as [f st h]. unfold notGivingUp, wellFormed in *. simpl in *.
  destruct f as [r|p|c p|p|p|e]; try done; [| |by eapply unlock_NoLost|];
    pose proof Hr as Hr'; unfold mrun in Hr; simpl in Hr;
    destruct p; simpl in Hr; inv_step Hr; try done; bool_facts;
    try (intros Hf; exfalso; unfold free in Hf; simpl in Hf; lia);
    try (eapply self_NoLost; [exact Hm|exact I]);
    try (eapply passive_NoLost; eauto; by simpl; auto; fail).
  - by rewrite ctxDone_empty in * by done.
  - match goal with H : WaitContext _ _ _ _ = _ |- _ =>
      apply WaitContext_inv in H as [[? _]|(_ & _ & Hd)]; [done|by rewrite ctxDone_empty in Hd] end.
Qed.

Lemma notGivingUp_run o th w th' w' :
  ctxs w = ∅ -> notGivingUp th -> mrun o th w = Some (th', w') -> notGivingUp th' /\ ctxs w' = ∅.
Proof.
  intros Hc Hg Hr. destruct th as [f st h]. unfold notGivingUp, mrun in *. simpl in *.
  destruct f as [r|p|c p|p|p|e]; try done; destruct p; simpl in Hr; inv_step Hr; simpl; auto.
  apply WaitContext_inv in Hr1 as [[? _]|(_ & _ & Hd)]; [done|]. by rewrite ctxDone_empty in Hd.
Qed.

Lemma Live_run w ths t th th' w' o :
  Live (w, ths) -> ths !! t = Some th -> mrun o th w = Some (th', w') -> Live (w', <[t:=th']> ths).
Proof.
  intros HL Hl Hr.
  destruct (notGivingUp_run o th w th' w' (live_ctx _ HL)
    (Forall_lookup_1 _ _ _ _ (live_wait _ HL) Hl) Hr) as [Hg Hc].
  constructor; simpl.
  - eapply Inv_run; eauto. apply HL.
  - done.
  - apply Forall_insert; [apply HL|done].
  - rewrite list_fmap_insert. by eapply NoLost_run.
Qed.

Lemma Live_call w ths t th th' op now :
  Live (w, ths) -> ths !! t = Some th -> mcall op now th = Some th' -> Live (w, <[t:=th']> ths).
Proof.
  intros [HI Hc Hg HN] Hl Hr. simpl in *.
  assert (modeOf th = MOther /\ (modeOf th' = MOther \/ modeOf th' = MSeek) /\ notGivingUp th')
    as (Hm & Hm' & Hg').
  { unfold mcall, modeOf, notGivingUp in *. destruct (frm th); try done.
    destruct op; simplify_eq; simpl; try (case_match; simplify_eq); repeat split; auto. }
  constructor; simpl; [by eapply Inv_call|done|by apply Forall_insert|].
  pose proof (modes_lookup _ _ _ Hl) as Hml. rewrite Hm in Hml. rewrite list_fmap_insert.
  destruct Hm' as [-> | ->]; [|by eapply self_NoLost].
  eapply passive_NoLost; [by apply modes_agree|exact Hml| |exact HN|auto..|done]. by intros ? ?.
Qed.

Lemma reach_Live n now c : reach mutex no_cancel (initial n now) c -> Live c.
Proof.
  apply reach_invariant; intros; try done.
  - constructor; simpl; try done; [apply Inv_initial|by apply Forall_replicate|].
    rewrite fmap_replicate. intros _ (t & x & [? _]%lookup_replicate & _). done.
  - by eapply Live_call.
  - by eapply Live_run.
Qed.

(** * Theorems *)

Lemma mu_held_le th : held th <= holds th.
Proof. unfold holds. destruct (frm th) as [|p|c p|p|p|]; try destruct p; simpl; lia. Qed.

(** Goroutines that hold the lock are one, and the word says so. *)
Lemma mu_unique P n now w ths i j a b :
  reach mutex P (initial n now) (w, ths) ->
  ths !! i = Some a -> ths !! j = Some b -> 0 < held a -> 0 < held b ->
  i = j /\ state (prim w) = 1 /\ held a = 1.
Proof.
  intros Hr Hi Hj Ha Hb. apply reach_Inv in Hr as [Hh Hs Hwf _]. simpl in *.
  pose proof (mu_held_le a). pose proof (mu_held_le b).
  pose proof (sumf_le_F holds wellFormed holds_nonneg _ _ _ Hwf Hi).
  destruct (decide (i = j)) as [->|Hne]; [repeat split; lia|].
  pose proof (sumf_two_F holds wellFormed holds_nonneg _ _ _ _ _ Hwf Hne Hi Hj). lia.
Qed.

(** C1: mutual exclusion.  Whatever the interleaving, the choices of the
    scheduler, the pool and the clock, and the contexts that get cancelled,
    two goroutines that both hold the lock are the same goroutine, it holds
    it once, and [IsLocked] reports the lock as taken. *)
Theorem mutual_exclusion n now w ths i j a b :
  reach mutex any_label (initial n now) (w, ths) ->
  ths !! i = Some a -> ths !! j = Some b -> 0 < held a -> 0 < held b ->
  i = j /\ held a = 1 /\ IsLocked (prim w) = true.
Proof.
  intros Hr Hi Hj Ha Hb. destruct (mu_unique _ _ _ _ _ _ _ _ _ Hr Hi Hj Ha Hb) as (Hij & Hs & H1).
  unfold IsLocked. rewrite Hs. auto.
Qed.

(** A program that calls [Unlock] only when it holds the mutex never
    panics with "unlock of unlocked mutex". *)
Theorem unlock_never_panics n now w ths t th e :
  reach mutex any_label (initial n now) (w, ths) -> ths !! t = Some th -> frm th <> FPanic e.
Proof.
  intros Hr Ht He. apply reach_Inv in Hr as [_ _ Hwf _]. simpl in Hwf.
  pose proof (Forall_lookup_1 _ _ _ _ Hwf Ht) as [_ H]. by rewrite He in H.
Qed.

(** A parked goroutine among goroutines at rest waits for a holder. *)
Lemma mutex_rest w ths t th :
  Live (w, ths) -> Forall (resting (store w)) ths -> ths !! t = Some th -> parked (store w) th ->
  exists t' th', ths !! t' = Some th' /\ 0 < held th'.
Proof.
  intros [[Hh Hs _ _] _ _ Hn] Hrest Ht (x & Hx & Hrd). simpl in *.
  assert (mode_wait : forall th y, waitingOn th = Some y -> modeOf th = MWait y).
  { intros th0 y. unfold waitingOn, modeOf. destruct (frm th0) as [|p|c p|p|p|]; try done;
      destruct p; try done; by intros [= <-]. }
  assert (~ free w) as Hf.
  { eapply NoLost_resting; [exact Hn| |].
    - apply Forall_fmap. eapply Forall_impl; [exact Hrest|]. intros th0 [(y & Hy & ?)|[r Hi]]; simpl.
      + right. exists y. eauto.
      + left. unfold modeOf. by rewrite Hi.
    - exists t, x. split; [|done]. by rewrite (modes_lookup _ _ _ Ht), (mode_wait _ _ Hx). }
  destruct (sumf_pos holds ths) as (t' & th' & Ht' & Hpos); [unfold free in Hf; lia|].
  exists t', th'. split; [done|].
  destruct (Forall_lookup_1 _ _ _ _ Hrest Ht') as [(y & Hy & _)|[r Hi]]; unfold holds, waitingOn in *.
  - destruct (frm th') as [|p|c p|p|p|]; try done; destruct p; try done; simpl in *; lia.
  - rewrite Hi in Hpos. lia.
Qed.

(** C2: no wake-up is lost.  As long as no context is cancelled, a state in
    which no goroutine can move by itself and one of them is parked in [Lock]
    is a state in which some goroutine holds the lock (and will wake a parked
    one when it releases it). *)
Theorem no_lost_wakeup n now w ths t th :
  reach mutex no_cancel (initial n now) (w, ths) ->
  Forall (resting (store w)) ths -> ths !! t = Some th -> parked (store w) th ->
  exists t' th', ths !! t' = Some th' /\ 0 < held th'.
Proof.
  intros Hr. by apply mutex_rest, (reach_Live n now).
Qed.

(** T0 takes the lock, T1 parks in [Lock]. *)
Definition contended : list (label mop) :=
  Call 0 OpLock 0 :: runs 0 2 ++ Call 1 OpLock 0 :: runs 1 6.

Lemma mutual_exclusion_witness :
  exists w ths a, reach mutex any_label (initial 2 0) (w, ths) /\ ths !! 0%nat = Some a /\
    0 < held a /\ IsLocked (prim w) = true.
Proof.
  assert (R := after_reach mutex any_label contended (initial 2 0)
    (Forall_any _) ltac:(by_eval)).
  exists (after mutex contended (initial 2 0)).1, (after mutex contended (initial 2 0)).2,
    (mkThread (FIdle (Some true)) 0 1).
  split; [exact R|]. split; [vm_compute; reflexivity|]. split; [simpl; lia|].
  apply (mutual_exclusion 2 0 _ _ 0 0 (mkThread (FIdle (Some true)) 0 1)
    (mkThread (FIdle (Some true)) 0 1) R); by_eval.
Defined.

Lemma unlock_never_panics_witness : FLock (LWait 0) <> FPanic "mutex: unlock of unlocked mutex".
Proof.
  apply (unlock_never_panics 2 0 (after mutex contended (initial 2 0)).1
    (after mutex contended (initial 2 0)).2 1 (mkThread (FLock (LWait 0)) 0 0)); [|by_eval].
  apply after_reach; [apply Forall_any|by_eval].
Defined.

Lemma no_lost_wakeup_witness :
  exists t' th', (after mutex contended (initial 2 0)).2 !! t' = Some th' /\ 0 < held th'.
Proof.
  apply (no_lost_wakeup 2 0 _ _ 1 (mkThread (FLock (LWait 0)) 0 0)
    (after_reach mutex no_cancel contended (initial 2 0)
      ltac:(by_decide) ltac:(by_eval))); [by_decide|by_eval|by_decide].
Defined.

(** T0 holds the lock, T1 waits in [LockContext], T2 in [Lock]; T0 unlocks
    and signals T1, whose context is cancelled before it looks. *)
Definition cancelRace : list (label mop) :=
  Call 0 OpLock 0 :: runs 0 2 ++ Call 1 (OpLockContext 7) 0 :: runs 1 7 ++
  Call 2 OpLock 0 :: runs 2 6 ++ Call 0 OpUnlock 0 :: runs 0 7 ++
  [Cancel 7; Run 1 (Oracle true 0 0); Run 1 o0].

(** The hypothesis of [no_lost_wakeup] is needed.  [Waiter.WaitContext]
    may choose [ctx.Done()] although the waiter has been dequeued and
    signalled; [LockContext] then returns the error without passing the
    wake-up on, and the execution [cancelRace] ends with the mutex free, a
    goroutine parked in [Lock] and nobody left to wake it. *)
Theorem lockcontext_drops_wakeup :
  exists w ths th, execs mutex cancelRace (initial 3 0) = Some (w, ths) /\
    Forall (resting (store w)) ths /\ ths !! 2%nat = Some th /\ parked (store w) th /\
    IsLocked (prim w) = false /\ items (waiters (prim w)) = [1%nat].
Proof.
  destruct (execs mutex cancelRace (initial 3 0)) as [[w ths]|] eqn:E; [|by vm_compute in E].
  exists w, ths, (mkThread (FLock (LWait 1)) 0 0). split; [done|].
  vm_compute in E. injection E as <- <-.
  split; [by_decide|].
  split; [reflexivity|]. split; [by_decide|].
  split; reflexivity.
Qed.

(** The waiter a goroutine's local variables refer to. *)
Definition refersTo (f : frame) : option nat :=
  match f with
  | FLock p | FLockContext _ p =>
      match p with
      | LLink w | LSize w | LWaits w | LRecheck w | LCancel w | LWait w | LCtxCancel w | LPut w => Some w
      | LFast | LCtx | LNew | LLocks | LTotal => None
      end
  | FUnlock (UDeq (DqSize w | DqCheck w | DqPut w)) | FUnlock (USignal w) => Some w
  | _ => None
  end.

(** Recycling is safe.  A waiter in the pool occurs there once, is in no
    queue, and no goroutine has a reference to it left: the next
    [NewWaiter] that takes it is its only user. *)
Theorem pooled_waiter_is_unused n now w ths x :
  reach mutex any_label (initial n now) (w, ths) -> x ∈ pool (store w) ->
  NoDup (pool (store w)) /\ (x ∉ items (waiters (prim w))) /\
  Forall (fun th => refersTo (frm th) <> Some x) ths.
Proof.
  intros Hr Hx. apply reach_Inv in Hr as [_ _ _ Hp]. simpl in Hp.
  destruct (WInv_pooled _ _ _ _ Hp Hx) as (H1 & H2 & H3). split; [done|]. split; [done|].
  apply Forall_lookup. intros t th Ht Hf. specialize (H3 t _ (roles_lookup _ _ _ Ht)).
  unfold refersTo, roleOf in *.
  destruct (frm th) as [|p|c p|p|p|]; try done; destruct p as []; try done;
    simpl in *; try (repeat case_match; simpl in *); simplify_eq; tauto.
Qed.

(** The goroutines whose acquisition is counted in [locks] and not yet in [unlocks]. *)
Definition unreleased (th : thread) : Z :=
  held th + match frm th with FUnlock (ULoad | UUnlocks) | FPanic _ => 1 | _ => 0 end.

#[local] Open Scope sync_scope.

Definition Balanced (c : world Mutex * list thread) : Prop :=
  locks (prim c.1) ≡₆₄ unlocks (prim c.1) + sumf unreleased c.2.

Lemma run_balance o th w th' w' :
  mrun o th w = Some (th', w') -> forall z,
  locks (prim w) ≡₆₄ unlocks (prim w) + z ->
  locks (prim w') ≡₆₄ unlocks (prim w') + (z - unreleased th + unreleased th').
Proof.
  intros Hr z Hz. destruct th as [f st h]. unfold mrun, unreleased in *. simpl in *.
  destruct f as [| p | c p | p | p |]; try done;
    destruct p; simpl in Hr; inv_step Hr; simpl in *; rewrite ?add64_eq64, Hz;
    repeat match goal with |- context [Z.b2z ?b] => is_var b; destruct b; simpl end;
    match goal with |- ?a ≡₆₄ ?b => try (replace b with a by lia; reflexivity) end.
  exfalso. by eapply Dequeue_no_panic.
Qed.

Lemma reach_Balanced n now c : reach mutex any_label (initial n now) c -> Balanced c.
Proof.
  apply reach_invariant; unfold Balanced; simpl.
  - by rewrite sumf_replicate.
  - intros sh ths t th th' op now' H _ Hl Hc. rewrite (sumf_insert _ _ _ _ _ Hl).
    replace (unreleased th') with (unreleased th); [by rewrite Z.sub_add|].
    unfold mcall, unreleased in *. destruct (frm th); try done.
    destruct op; simplify_eq; simpl; try lia. case_match; simplify_eq; simpl; lia.
  - intros sh ths t th th' sh' o H _ Hl Hr. rewrite (sumf_insert _ _ _ _ _ Hl).
    by eapply run_balance.
  - done.
Qed.

(** The statistics balance.  When every goroutine is between calls,
    [Locks] exceeds [Unlocks] by one if the mutex is locked and equals it
    otherwise (modulo 2^64, the counters being [int64]). *)
Theorem stats_balance n now w ths t :
  reach mutex any_label (initial n now) (w, ths) ->
  Forall (fun th => exists r, frm th = FIdle r) ths ->
  let st := GetStats t (prim w) in Locks st ≡₆₄ Unlocks st + Z.b2z (IsLocked_ st).
Proof.
  intros Hr Hidle. pose proof (reach_Balanced _ _ _ Hr) as Hb.
  apply reach_Inv in Hr as [Hh Hs _ _]. unfold Balanced in Hb. simpl in *. rewrite Hb.
  replace (sumf unreleased ths) with (sumf holds ths).
  - rewrite <- Hh. unfold IsLocked. destruct Hs as [-> | ->]; reflexivity.
  - clear - Hidle. induction Hidle as [|th l [r Hf] _ IH]; simpl; [done|].
    rewrite IH. unfold holds, unreleased. by rewrite Hf.
Qed.

(** T0 releases the lock, T1 wakes up, recycles its waiter and takes it. *)
Definition handedOver : list (label mop) :=
  contended ++ Call 0 OpUnlock 0 :: runs 0 7 ++ runs 1 5.

Lemma handedOver_reach :
  reach mutex any_label (initial 2 0)
    ((after mutex handedOver (initial 2 0)).1, (after mutex handedOver (initial 2 0)).2).
Proof. apply after_reach; [apply Forall_any|by_eval]. Qed.

Lemma pooled_waiter_is_unused_witness :
  (0%nat ∈ pool (store (after mutex handedOver (initial 2 0)).1)) /\
  (0%nat ∉ items (waiters (prim (after mutex handedOver (initial 2 0)).1))).
Proof.
  assert (H : 0%nat ∈ pool (store (after mutex handedOver (initial 2 0)).1)) by by_decide.
  split; [exact H|]. apply (pooled_waiter_is_unused 2 0 _ _ 0 handedOver_reach H).
Defined.

Lemma stats_balance_witness :
  let st := GetStats 5 (prim (after mutex handedOver (initial 2 0)).1) in
  Locks st ≡₆₄ Unlocks st + Z.b2z (IsLocked_ st).
Proof.
  apply (stats_balance 2 0 _ _ 5 handedOver_reach).
  apply Forall_lookup. intros [|[|t]] th E; [..|by vm_compute in E];
    eexists; vm_compute in E; injection E as <-; reflexivity.
Defined.
