(* ===== verification/Semaphore.v ===== *)
(** * Semaphore (internal/primitives/semaphore.go)

    A counting semaphore: an [int32] count of available permits changed by
    compare-and-swap, and a queue of parked goroutines.  [AcquireN],
    [AcquireNTimeout], [AcquireNContext], [TryAcquireN] and [ReleaseN] are
    given as atomic steps; [Acquire], [TryAcquire], [AcquireTimeout],
    [AcquireContext] and [Release] are the calls with n = 1. *)

From Stdlib Require Import ZArith Lia.
From stdpp Require Import base list gmap strings.
From S2P Require Import Prelude Waiter Parking.

#[local] Open Scope Z_scope.

Record Semaphore := mkSemaphore {
  capacity : Z;
  count : Z;                 (* atomic.Int32: available permits *)
  waiters : WaiterQueue;
  acquires : Z;
  releases : Z;
  waits : Z;
  timeouts : Z;
  totalWaitTime : Z;
  createdAt : Z
}.

(** [None] is the panic "semaphore: capacity must be positive". *)
Definition NewSemaphore (cap now : Z) : option Semaphore :=
  if cap <=? 0 then None else Some (mkSemaphore cap cap NewWaiterQueue 0 0 0 0 0 now).

Definition set_count v s := mkSemaphore (capacity s) v (waiters s) (acquires s) (releases s) (waits s) (timeouts s) (totalWaitTime s) (createdAt s).
Definition set_waiters v s := mkSemaphore (capacity s) (count s) v (acquires s) (releases s) (waits s) (timeouts s) (totalWaitTime s) (createdAt s).
Definition set_acquires v s := mkSemaphore (capacity s) (count s) (waiters s) v (releases s) (waits s) (timeouts s) (totalWaitTime s) (createdAt s).
Definition set_releases v s := mkSemaphore (capacity s) (count s) (waiters s) (acquires s) v (waits s) (timeouts s) (totalWaitTime s) (createdAt s).
Definition set_waits v s := mkSemaphore (capacity s) (count s) (waiters s) (acquires s) (releases s) v (timeouts s) (totalWaitTime s) (createdAt s).
Definition set_timeouts v s := mkSemaphore (capacity s) (count s) (waiters s) (acquires s) (releases s) (waits s) v (totalWaitTime s) (createdAt s).
Definition set_totalWaitTime v s := mkSemaphore (capacity s) (count s) (waiters s) (acquires s) (releases s) (waits s) (timeouts s) v (createdAt s).

Definition upd (f : Semaphore -> Semaphore) (w : world Semaphore) : world Semaphore :=
  withPrim (f (prim w)) w.

(** ** AcquireN and its variants

    The program points: [AEnter] the argument checks, [ALoad] the load of
    count, [ACas c] the CAS from the loaded [c], [AGate] the test of the
    deadline or the context (the variants only), [ANew] [NewWaiter],
    [ALink]/[ASize] [Enqueue], [AWaits] [s.waits.Add(1)], [ARecheck] the load
    after the enqueue, [ARecas] the CAS that follows it, [ACancel] the store
    to [cancelled] after it succeeded, [AAcquires] [s.acquires.Add], [AWait]
    the blocking receive, [AGiveUp] the store to [cancelled] of a wait that
    timed out or was cancelled, [ATimeouts] [s.timeouts.Add(1)], [APut]
    [putWaiter], [ATotal] the update of [totalWaitTime]. *)
Inductive acqpc :=
| AEnter | ALoad | ACas (c : Z) | AGate | ANew | ALink (w : nat) | ASize (w : nat) | AWaits (w : nat)
| ARecheck (w : nat) | ARecas (w : nat) (c : Z) | ACancel (w : nat) | AAcquires
| AWait (w : nat) | AGiveUp (w : nat) | ATimeouts | APut (w : nat) | ATotal.

(** [Return true]: acquired.  [start] is the local variable [startTime]. *)
Definition AcquireN_step (n start : Z) (o : oracle) (p : acqpc) (w : world Semaphore)
    : option (outcome acqpc bool * world Semaphore) :=
  let s := prim w in
  match p with
  | AEnter =>
      if n <=? 0 then Some (Panic "semaphore: n must be positive", w)
      else if capacity s <? n then Some (Panic "semaphore: n exceeds capacity", w)
      else Some (Next ALoad, w)
  | ALoad => Some (Next (if n <=? count s then ACas (count s) else ANew), w)
  | ACas c =>
      if count s =? c then Some (Next AAcquires, upd (set_count (add32 c (- n))) w)
      else Some (Next ALoad, w)
  | ANew => let '(x, st) := NewWaiter o (store w) in Some (Next (ALink x), withStore st w)
  | ALink x => Some (Next (ASize x), upd (set_waiters (Enqueue_link x (waiters s))) w)
  | ASize x => Some (Next (AWaits x), upd (set_waiters (Enqueue_size (waiters s))) w)
  | AWaits x => Some (Next (ARecheck x), upd (set_waits (add64 (waits s) 1)) w)
  | ARecheck x => Some (Next (if n <=? count s then ARecas x (count s) else AWait x), w)
  | ARecas x c =>
      if count s =? c then Some (Next (ACancel x), upd (set_count (add32 c (- n))) w)
      else Some (Next (AWait x), w)
  | ACancel x => Some (Next AAcquires, withStore (cancelWaiter x (store w)) w)
  | AAcquires => Some (Return true, upd (set_acquires (add64 (acquires s) n)) w)
  | AWait x => st ← Wait x (store w); Some (Next (APut x), withStore st w)
  | APut x => Some (Next ATotal, withStore (putWaiter x (store w)) w)
  | ATotal =>
      Some (Next ALoad, upd (set_totalWaitTime (add64 (totalWaitTime s) (clk o - start))) w)
  | AGate | AGiveUp _ | ATimeouts => None
  end.

(** With a deadline: no panic when n exceeds the capacity, the deadline is
    tested before the enqueue, and the wait may end by the timer. *)
Definition AcquireNTimeout_step (n start deadline : Z) (o : oracle) (p : acqpc) (w : world Semaphore)
    : option (outcome acqpc bool * world Semaphore) :=
  let s := prim w in
  match p with
  | AEnter =>
      if n <=? 0 then Some (Panic "semaphore: n must be positive", w)
      else if capacity s <? n then Some (Return false, w)
      else Some (Next ALoad, w)
  | ALoad => Some (Next (if n <=? count s then ACas (count s) else AGate), w)
  | AGate => Some (Next (if deadline <? clk o then ATimeouts else ANew), w)
  | AWait x =>
      '(signalled, st) ← WaitTimeout o x (store w);
      Some (Next (if signalled : bool then APut x else AGiveUp x), withStore st w)
  | AGiveUp x => Some (Next ATimeouts, withStore (cancelWaiter x (store w)) w)
  | ATimeouts => Some (Return false, upd (set_timeouts (add64 (timeouts s) 1)) w)
  | _ => AcquireN_step n start o p w
  end.

(** With a context. *)
Definition AcquireNContext_step (ctx : nat) (n start : Z) (o : oracle) (p : acqpc)
    (w : world Semaphore) : option (outcome acqpc bool * world Semaphore) :=
  let s := prim w in
  match p with
  | ALoad => Some (Next (if n <=? count s then ACas (count s) else AGate), w)
  | AGate => if ctxDone ctx w then Some (Return false, w) else Some (Next ANew, w)
  | AWait x =>
      '(signalled, st) ← WaitContext o (ctxDone ctx w) x (store w);
      Some (Next (if signalled : bool then APut x else AGiveUp x), withStore st w)
  | AGiveUp x => Some (Return false, withStore (cancelWaiter x (store w)) w)
  | _ => AcquireN_step n start o p w
  end.

(** ** TryAcquireN *)
Inductive trypc := TEnter | TLoad | TCas (c : Z) | TAcquires.

Definition TryAcquireN_step (n : Z) (p : trypc) (w : world Semaphore)
    : outcome trypc bool * world Semaphore :=
  let s := prim w in
  match p with
  | TEnter =>
      if n <=? 0 then (Panic "semaphore: n must be positive", w)
      else if capacity s <? n then (Return false, w) else (Next TLoad, w)
  | TLoad => if count s <? n then (Return false, w) else (Next (TCas (count s)), w)
  | TCas c =>
      if count s =? c then (Next TAcquires, upd (set_count (add32 c (- n))) w)
      else (Next TLoad, w)
  | TAcquires => (Return true, upd (set_acquires (add64 (acquires s) n)) w)
  end.

(** ** ReleaseN

    [RWake i d]: iteration [i] of the loop of [wakeOne] calls, inside
    [Dequeue]; [RSignal i x]: its [Signal].  [Return true] is the nil error,
    [Return false] the error "release would exceed capacity". *)
Inductive relpc :=
| REnter | RLoad | RCas (c : Z) | RReleases | RWake (i : Z) (d : dqpc) | RSignal (i : Z) (w : nat).

(** The head of the loop [for i := 0; i < n; i++]. *)
Definition wakeLoop (n i : Z) : outcome relpc bool :=
  if i <? n then Next (RWake i DqPop) else Return true.

Definition ReleaseN_step (n : Z) (p : relpc) (w : world Semaphore)
    : outcome relpc bool * world Semaphore :=
  let s := prim w in
  match p with
  | REnter => if n <=? 0 then (Panic "semaphore: n must be positive", w) else (Next RLoad, w)
  | RLoad =>
      if capacity s <? add32 (count s) n then (Return false, w) else (Next (RCas (count s)), w)
  | RCas c =>
      if count s =? c then (Next RReleases, upd (set_count (add32 c n)) w) else (Next RLoad, w)
  | RReleases => (wakeLoop n 0, upd (set_releases (add64 (releases s) n)) w)
  | RWake i d =>
      let '(r, q, st) := Dequeue_step d (waiters s) (store w) in
      (match r with
       | Next d' => Next (RWake i d')
       | Return (Some x) => Next (RSignal i x)
       | Return None => wakeLoop n (i + 1)
       | Panic e => Panic e
       end, withStore st (upd (set_waiters q) w))
  | RSignal i x => (wakeLoop n (i + 1), withStore (Signal x (store w)) w)
  end.

Definition GetCount (s : Semaphore) : Z := count s.
Definition GetCapacity (s : Semaphore) : Z := capacity s.

Record SemaphoreStats := mkSemaphoreStats {
  Capacity : Z; CurrentCount : Z; Acquires : Z; Releases : Z; Waits : Z; Timeouts : Z;
  TotalWaitTimeNs : Z; WaitersQueued : Z; Age : Z
}.

Definition GetStats (now : Z) (s : Semaphore) : SemaphoreStats :=
  mkSemaphoreStats (capacity s) (count s) (acquires s) (releases s) (waits s) (timeouts s)
    (totalWaitTime s) (Size (waiters s)) (now - createdAt s).

(** ** Goroutines using one semaphore

    [held] is the number of permits the goroutine has acquired minus those it
    has put back.  In a [strict] program a goroutine releases only permits it
    holds. *)
Inductive sop :=
| OpAcquire (n : Z) | OpAcquireTimeout (n timeout : Z) | OpAcquireContext (c : nat) (n : Z)
| OpTryAcquire (n : Z) | OpRelease (n : Z).

Inductive frame :=
| FIdle (r : option bool)
| FAcquire (n : Z) (p : acqpc)
| FAcquireTimeout (n deadline : Z) (p : acqpc)
| FAcquireContext (c : nat) (n : Z) (p : acqpc)
| FTry (n : Z) (p : trypc)
| FRelease (n : Z) (p : relpc)
| FPanic (msg : string).

Record thread := mkThread { frm : frame; startTime : Z; held : Z }.
Definition idle : thread := mkThread (FIdle None) 0 0.

Definition scall (strict : bool) (op : sop) (now : Z) (th : thread) : option thread :=
  match frm th with
  | FIdle _ =>
      match op with
      | OpAcquire n => Some (mkThread (FAcquire n AEnter) now (held th))
      | OpAcquireTimeout n d => Some (mkThread (FAcquireTimeout n (now + d) AEnter) now (held th))
      | OpAcquireContext c n => Some (mkThread (FAcquireContext c n AEnter) now (held th))
      | OpTryAcquire n => Some (mkThread (FTry n TEnter) now (held th))
      | OpRelease n =>
          if negb strict || (n <=? held th) then Some (mkThread (FRelease n REnter) now (held th))
          else None
      end
  | _ => None
  end.

(** The goroutine after a step of a call that acquires [n] permits when it
    returns true. *)
Definition acquired {P} (k : P -> frame) (n : Z) (th : thread) (r : outcome P bool) : thread :=
  match r with
  | Next p => mkThread (k p) (startTime th) (held th)
  | Return b => mkThread (FIdle (Some b)) (startTime th) (if b then held th + n else held th)
  | Panic e => mkThread (FPanic e) (startTime th) (held th)
  end.

(** The CAS of [ReleaseN], which leads to [RReleases], puts the permits back. *)
Definition released (n : Z) (th : thread) (r : outcome relpc bool) : thread :=
  match r with
  | Next RReleases => mkThread (FRelease n RReleases) (startTime th) (held th - n)
  | Next p => mkThread (FRelease n p) (startTime th) (held th)
  | Return b => mkThread (FIdle (Some b)) (startTime th) (held th)
  | Panic e => mkThread (FPanic e) (startTime th) (held th)
  end.

Definition srun (o : oracle) (th : thread) (w : world Semaphore)
    : option (thread * world Semaphore) :=
  let st := startTime th in
  match frm th with
  | FIdle _ | FPanic _ => None
  | FAcquire n p =>
      '(r, w) ← AcquireN_step n st o p w; Some (acquired (FAcquire n) n th r, w)
  | FAcquireTimeout n d p =>
      '(r, w) ← AcquireNTimeout_step n st d o p w; Some (acquired (FAcquireTimeout n d) n th r, w)
  | FAcquireContext c n p =>
      '(r, w) ← AcquireNContext_step c n st o p w; Some (acquired (FAcquireContext c n) n th r, w)
  | FTry n p => let '(r, w) := TryAcquireN_step n p w in Some (acquired (FTry n) n th r, w)
  | FRelease n p => let '(r, w) := ReleaseN_step n p w in Some (released n th r, w)
  end.

Definition semaphore (strict : bool) : machine (world Semaphore) thread sop :=
  Machine (scall strict) srun cancelCtx.

Definition initial (k : nat) (s : Semaphore) : config (Sh:=world Semaphore) (Th:=thread) :=
  (World s emptyStore ∅, replicate k idle).

(** * Invariants *)

(** The permits a goroutine has taken out of the semaphore: those it holds,
    plus the ones between the CAS of an acquisition and its return. *)
Definition out (th : thread) : Z :=
  held th +
  match frm th with
  | FAcquire n (ACancel _ | AAcquires) | FAcquireTimeout n _ (ACancel _ | AAcquires)
  | FAcquireContext _ n (ACancel _ | AAcquires) | FTry n TAcquires => n
  | _ => 0
  end.

Definition acqRole (p : acqpc) : role :=
  match p with
  | ALink w | APut w => Role (OPriv w) HNone
  | ASize w | AWaits w | ARecheck w | ARecas w _ | AWait w | AGiveUp w => Role (OShared w) HNone
  | ACancel w => Role (OCanc w) HNone
  | _ => idleRole
  end.

Definition relRole (p : relpc) : role :=
  match p with
  | RWake _ d => Role ONone (dqHand d)
  | RSignal _ w => Role ONone (HSig w)
  | _ => idleRole
  end.

Definition roleOf (th : thread) : role :=
  match frm th with
  | FAcquire _ p | FAcquireTimeout _ _ p | FAcquireContext _ _ p => acqRole p
  | FRelease _ p => relRole p
  | _ => idleRole
  end.

(** What the loaded values and the arguments satisfy at each program point. *)
Definition acqOk (cap n : Z) (p : acqpc) : Prop :=
  match p with
  | AEnter => True
  | ACas c | ARecas _ c => 0 < n <= c /\ c <= cap
  | _ => 0 < n <= cap
  end.

(** [small cap n]: a release of [n] cannot overflow [count+n]. *)
Definition small (cap n : Z) : Prop := n <= MaxInt32 - cap.

Definition wellFormed (cap : Z) (strict : bool) (th : thread) : Prop :=
  (strict = true -> 0 <= held th) /\
  match frm th with
  | FIdle _ | FPanic _ => True
  | FAcquire n p => acqOk cap n p /\ match p with AGate | AGiveUp _ | ATimeouts => False | _ => True end
  | FAcquireTimeout n _ p => acqOk cap n p
  | FAcquireContext _ n p => acqOk cap n p /\ match p with ATimeouts => False | _ => True end
  | FTry n p => match p with TEnter => True | TCas c => 0 < n <= c /\ c <= cap | _ => 0 < n <= cap end
  | FRelease n p =>
      (strict = true \/ small cap n) /\
      match p with
      | REnter => strict = true -> n <= held th
      | RLoad => 0 < n /\ (strict = true -> n <= held th)
      | RCas c => 0 < n /\ 0 <= c /\ c + n <= cap /\ (strict = true -> n <= held th)
      | _ => 0 < n
      end
  end.

Record Inv (strict : bool) (cap : Z) (c : world Semaphore * list thread) : Prop := {
  inv_cap : capacity (prim c.1) = cap /\ 0 < cap <= MaxInt32;
  inv_count : 0 <= count (prim c.1) <= cap;
  inv_permits : count (prim c.1) + sumf out c.2 = cap;
  inv_threads : Forall (wellFormed cap strict) c.2;
  inv_protocol : WInv (roleOf <$> c.2) (items (waiters (prim c.1))) (store c.1)
}.

Lemma out_nonneg cap th : wellFormed cap true th -> 0 <= out th.
Proof.
  intros [H Hf]. specialize (H eq_refl). unfold out.
  destruct (frm th) as [|n p|n d p|c n p|n p|n p|]; try destruct p; simpl in *; try lia.
Qed.

Lemma sem_Inv_initial strict k cap now s :
  cap <= MaxInt32 -> NewSemaphore cap now = Some s -> Inv strict cap (initial k s).
Proof.
  unfold NewSemaphore. intros Hc E. destruct (cap <=? 0) eqn:E0; simplify_eq. bool_facts.
  constructor; simpl.
  - lia.
  - lia.
  - rewrite sumf_replicate by done. lia.
  - apply Forall_replicate. split; simpl; lia.
  - rewrite fmap_replicate. apply WInv_init.
Qed.

(** The releases of the program are small, or the program is strict. *)
Definition okLabel (strict : bool) (cap : Z) (l : label sop) : Prop :=
  match l with
  | Call _ (OpRelease n) _ => strict = true \/ small cap n
  | _ => True
  end.

Lemma sem_call_state strict cap op now th th' t :
  wellFormed cap strict th -> okLabel strict cap (Call t op now) -> scall strict op now th = Some th' ->
  out th' = out th /\ roleOf th' = roleOf th /\ wellFormed cap strict th'.
Proof.
  intros [Hw _] Hok Hc. unfold scall, out, roleOf, wellFormed in *.
  destruct th as [f st h]; simpl in *. destruct f; try done.
  destruct op; simplify_eq; simpl in *; try (repeat split; auto; lia).
  destruct strict; simpl in *; [|simplify_eq; simpl; repeat split; auto; lia || done].
  destruct (n <=? h) eqn:E; simplify_eq; simpl. bool_facts. specialize (Hw eq_refl).
  repeat split; auto; lia.
Qed.

Lemma wakeLoop_cases n i :
  wakeLoop n i = Next (RWake i DqPop) \/ wakeLoop n i = Return true.
Proof. unfold wakeLoop. case_match; auto. Qed.

Ltac wake_cases :=
  repeat match goal with
  | |- context [wakeLoop ?n ?i] =>
      let H := fresh in destruct (wakeLoop_cases n i) as [H|H]; rewrite H; clear H; simpl
  end.

(** Every step moves permits between the semaphore and the goroutine; the
    count stays between 0 and the capacity. *)
Lemma sem_run_state strict cap o th w th' w' :
  wellFormed cap strict th -> capacity (prim w) = cap -> 0 < cap <= MaxInt32 ->
  0 <= count (prim w) <= cap -> (strict = true -> out th <= cap - count (prim w)) ->
  srun o th w = Some (th', w') ->
  capacity (prim w') = cap /\ 0 <= count (prim w') <= cap /\
  count (prim w') + out th' = count (prim w) + out th /\ wellFormed cap strict th'.
Proof.
  intros [Hheld Hwf] Hcap Hpos Hcnt Hle Hr. destruct th as [f st h].
  unfold srun, out, wellFormed, small, MaxInt32 in *. simpl in *.
  destruct f as [|n p|n d p|c n p|n p|n p|]; [done| | | | | |done];
    destruct p; simpl in Hr; inv_step Hr; try done; simpl in *; bool_facts;
    repeat match goal with |- context [if ?b then _ else _] => destruct b eqn:?; simpl in *; bool_facts end;
    wake_cases; simpl in *;
    try match goal with
    | |- context [add32 ?c ?n] => rewrite (add32_id c n) in * by (unfold int32_range; lia)
    | H : context [add32 ?c ?n] |- _ => rewrite (add32_id c n) in * by (unfold int32_range; destruct Hwf as [[->|?] ?]; lia)
    end;
    repeat split; auto; try tauto; try lia; try (intros Hst; specialize (Hheld Hst); lia).
  intros Hst. destruct Hwf as (_ & _ & _ & _ & H). specialize (H Hst). lia.
Qed.

Lemma sem_run_protocol o th w th' w' rs t :
  srun o th w = Some (th', w') -> rs !! t = Some (roleOf th) ->
  WInv rs (items (waiters (prim w))) (store w) ->
  WInv (<[t:=roleOf th']> rs) (items (waiters (prim w'))) (store w').
Proof.
  intros Hr Ht H. destruct th as [f st h]. unfold srun, roleOf in *. simpl in *.
  destruct f as [|n p|n d p|c n p|n p|n p|]; [done| | | | | |done];
    destruct p; simpl in Hr; inv_step Hr; simpl in *; wake_cases; simpl in *; eauto with sync;
    try (case_match; simpl; eauto with sync; fail).
  exfalso. by eapply Dequeue_no_panic.
Qed.

Lemma sem_Inv_run strict cap w ths t th th' w' o :
  Inv strict cap (w, ths) -> ths !! t = Some th -> srun o th w = Some (th', w') ->
  Inv strict cap (w', <[t:=th']> ths).
Proof.
  intros [[Hc Hp] Hn Hs Ht Hw] Hl Hr. simpl in *.
  pose proof (Forall_lookup_1 _ _ _ _ Ht Hl) as Hwf.
  assert (Hle : strict = true -> out th <= cap - count (prim w)).
  { intros ->. pose proof (sumf_le_F out _ (out_nonneg cap) _ _ _ Ht Hl). lia. }
  destruct (sem_run_state strict cap o th w th' w') as (E1 & E2 & E3 & E4); auto.
  constructor; simpl; auto.
  - rewrite (sumf_insert _ _ _ _ _ Hl). lia.
  - by apply Forall_insert.
  - rewrite list_fmap_insert. eapply sem_run_protocol; eauto. by rewrite list_lookup_fmap, Hl.
Qed.

Lemma sem_Inv_call strict cap w ths t th th' op now :
  Inv strict cap (w, ths) -> okLabel strict cap (Call t op now) -> ths !! t = Some th ->
  scall strict op now th = Some th' -> Inv strict cap (w, <[t:=th']> ths).
Proof.
  intros [Hc Hn Hs Ht Hw] Hok Hl Hr. simpl in *.
  destruct (sem_call_state _ _ _ _ _ _ t (Forall_lookup_1 _ _ _ _ Ht Hl) Hok Hr) as (E1 & E2 & E3).
  constructor; simpl; auto.
  - rewrite (sumf_insert _ _ _ _ _ Hl). lia.
  - by apply Forall_insert.
  - rewrite list_fmap_insert, E2. apply WInv_same; [done|]. by rewrite list_lookup_fmap, Hl.
Qed.

Lemma sem_reach_Inv strict cap now s k P c :
  cap <= MaxInt32 -> NewSemaphore cap now = Some s -> (forall l, P l -> okLabel strict cap l) ->
  reach (semaphore strict) P (initial k s) c -> Inv strict cap c.
Proof.
  intros Hc Hs HP. apply reach_invariant; intros.
  - by eapply sem_Inv_initial.
  - eapply sem_Inv_call; eauto.
  - eapply sem_Inv_run; eauto.
  - destruct H. by constructor.
Qed.

(** * Theorems: permits *)

(** C5: permits are conserved.  In a program whose goroutines release only
    what they hold, the count is between 0 and the capacity and the permits
    held by all the goroutines together never exceed the capacity; when no
    call is in progress the held permits and the count add up to it. *)
Theorem permits_conserved cap now s k w ths :
  cap <= MaxInt32 -> NewSemaphore cap now = Some s ->
  reach (semaphore true) any_label (initial k s) (w, ths) ->
  0 <= GetCount (prim w) <= GetCapacity (prim w) /\ GetCapacity (prim w) = cap /\
  sumf held ths <= cap - GetCount (prim w) /\
  (Forall (fun th => exists r, frm th = FIdle r) ths -> GetCount (prim w) + sumf held ths = cap).
Proof.
  intros Hc Hs Hr. eapply (sem_reach_Inv true) in Hr as [[E Hp] Hn Hsum Hwf _]; [|done..|].
  2: { intros [? [] ?| |]; simpl; auto. }
  unfold GetCount, GetCapacity. simpl in *. rewrite E. repeat split; try lia.
  - assert (sumf held ths <= sumf out ths); [|lia].
    clear - Hwf. induction Hwf as [|th l [Hh Hf] _ IH]; simpl; [lia|].
    assert (held th <= out th); [|lia]. specialize (Hh eq_refl). unfold out.
    destruct (frm th) as [|n p|n d p|c n p|n p|n p|]; try destruct p; simpl in *; try lia.
  - intros Hi. rewrite <- Hsum. f_equal.
    clear - Hi. induction Hi as [|th l [r Hf] _ IH]; simpl; [done|]. rewrite IH. unfold out. rewrite Hf. lia.
Qed.

(** In such a program [ReleaseN] never refuses a release. *)
Theorem release_never_refused cap now s k w ths t n p st h :
  cap <= MaxInt32 -> NewSemaphore cap now = Some s ->
  reach (semaphore true) any_label (initial k s) (w, ths) ->
  ths !! t = Some (mkThread (FRelease n p) st h) ->
  fst (ReleaseN_step n p w) <> Return false.
Proof.
  intros Hc Hs Hr Ht. eapply (sem_reach_Inv true) in Hr as [[E Hp] Hn Hsum Hwf _]; [|done..|].
  2: { intros [? [] ?| |]; simpl; auto. }
  simpl in *. pose proof (sumf_le_F out _ (out_nonneg cap) _ _ _ Hwf Ht) as Hle.
  destruct (Forall_lookup_1 _ _ _ _ Hwf Ht) as [Hh [_ Hf]]. specialize (Hh eq_refl).
  unfold out, MaxInt32 in *. destruct p; simpl in *; try (repeat case_match; done).
  - rewrite add32_id by (unfold int32_range; lia). rewrite E.
    destruct (cap <? count (prim w) + n) eqn:E1; bool_facts; [lia|done].
  - wake_cases; done.
  - destruct (Dequeue_step d (waiters (prim w)) (store w)) as [[r q] st0]. simpl.
    destruct r as [|[|]|]; wake_cases; done.
  - wake_cases; done.
Qed.

(** Whatever the program does, as long as each [ReleaseN(n)] has
    [n <= MaxInt32 - capacity], the count stays between 0 and the capacity:
    an over-release is refused. *)
Theorem count_in_range cap now s k w ths :
  cap <= MaxInt32 -> NewSemaphore cap now = Some s ->
  reach (semaphore false) (okLabel false cap) (initial k s) (w, ths) ->
  0 <= GetCount (prim w) <= cap.
Proof. intros Hc Hs Hr. eapply sem_reach_Inv in Hr as [_ Hn _ _ _]; eauto. Qed.

(** The bound is needed.  [count+n > capacity] is computed in [int32]:
    on a semaphore with capacity 10, [ReleaseN(MaxInt32)] by a goroutine that
    holds nothing is not refused: its CAS succeeds and leaves a negative count. *)
Theorem release_overflow :
  exists w ths, NewSemaphore 10 0 <> None /\
    execs (semaphore false) (Call 0 (OpRelease MaxInt32) 0 :: runs 0 4)
      (initial 1 (mkSemaphore 10 10 NewWaiterQueue 0 0 0 0 0 0)) = Some (w, ths) /\
    GetCount (prim w) = -2147483639 /\
    exists i st h, ths = [mkThread (FRelease MaxInt32 (RWake i DqPop)) st h].
Proof.
  eexists _, _. split; [done|]. split; [vm_compute; reflexivity|]. split; [reflexivity|]. eauto.
Qed.

(** * Theorems: wake-ups *)

Definition waitingOn (th : thread) : option nat :=
  match frm th with
  | FAcquire _ (AWait w) | FAcquireTimeout _ _ (AWait w) | FAcquireContext _ _ (AWait w) => Some w
  | _ => None
  end.

Definition parked (s : wstore) (th : thread) : Prop :=
  exists w, waitingOn th = Some w /\ Ready (wget s w) = false.

Definition resting (s : wstore) (th : thread) : Prop :=
  parked s th \/ exists r, frm th = FIdle r.

#[export] Instance sem_parked_dec s th : Decision (parked s th).
Proof.
  unfold parked. destruct (waitingOn th) as [w|]; [|right; by intros (? & ? & _)].
  destruct (Ready (wget s w)) eqn:E; [right; intros (? & ? & ?); congruence|left; eauto].
Defined.

#[export] Instance sem_resting_dec s th : Decision (resting s th).
Proof.
  unfold resting. destruct (decide (parked s th)) as [?|Hn]; [left; by left|].
  destruct (frm th) eqn:E; try (right; intros [?|[? ?]]; [done|congruence]). left. eauto.
Defined.

(** A goroutine at [ARecas] whose loaded count is out of date is bound to
    park. *)
Definition acqMode (c : Z) (p : acqpc) : mode :=
  match p with
  | AEnter | ACancel _ | AAcquires | AGiveUp _ | ATimeouts => MOther
  | AWait w => MWait w
  | ARecas w c' => if c' =? c then MSeek else MWait w
  | _ => MSeek
  end.

Definition modeOf (c : Z) (th : thread) : mode :=
  match frm th with
  | FAcquire _ p | FAcquireTimeout _ _ p | FAcquireContext _ _ p => acqMode c p
  | FRelease _ (RReleases | RWake _ _) => MWake
  | FRelease _ (RSignal _ w) => MSig w
  | _ => MOther
  end.

(** All permits are available. *)
Definition free (w : world Semaphore) : Prop := count (prim w) = capacity (prim w).

(** The program waits without deadlines and no context is cancelled. *)
Definition patient (l : label sop) : Prop :=
  match l with Cancel _ | Call _ (OpAcquireTimeout _ _) _ => False | _ => True end.

#[export] Instance patient_dec l : Decision (patient l).
Proof. destruct l as [? []| |]; simpl; apply _. Defined.

Definition notGivingUp (th : thread) : Prop :=
  match frm th with
  | FAcquireTimeout _ _ _ | FAcquireContext _ _ (AGiveUp _) => False
  | _ => True
  end.

Record Live (cap : Z) (c : world Semaphore * list thread) : Prop := {
  live_inv : Inv true cap c;
  live_ctx : ctxs c.1 = ∅;
  live_wait : Forall notGivingUp c.2;
  live_woken : NoLost (free c.1) (store c.1) (modeOf (count (prim c.1)) <$> c.2)
}.

Lemma sem_lookup {A} (f : thread -> A) (ths : list thread) t th :
  ths !! t = Some th -> (f <$> ths) !! t = Some (f th).
Proof. intros H. by rewrite list_lookup_fmap, H. Qed.

Lemma sem_modes_agree cap w ths :
  Inv true cap (w, ths) -> Forall notGivingUp ths ->
  Forall2 (agrees (free w)) (roleOf <$> ths) (modeOf (count (prim w)) <$> ths).
Proof.
  intros [[Hc Hp] Hn Hs Hwf _] Hg. simpl in *. apply Forall2_fmap_2, Forall_Forall2_diag.
  apply Forall_lookup. intros t th Hl.
  pose proof (sumf_le_F out _ (out_nonneg cap) _ _ _ Hwf Hl) as Hle.
  destruct (Forall_lookup_1 _ _ _ _ Hwf Hl) as [Hheld Hf]. specialize (Hheld eq_refl).
  pose proof (Forall_lookup_1 _ _ _ _ Hg Hl) as Hng.
  unfold agrees, free, modeOf, roleOf, notGivingUp, out in *. rewrite Hc.
  destruct (frm th) as [|n p|n d p|c n p|n p|n p|]; try destruct p as []; simpl in *; try done;
    try case_match; repeat split; intros; simplify_eq; auto; try lia;
    try (destruct d; simpl; by auto).
Qed.

Lemma sem_run_tokens cap w ths t th th' w' o :
  Inv true cap (w, ths) -> ths !! t = Some th -> srun o th w = Some (th', w') ->
  keepsTokens (roleOf <$> ths) t (store w) (store w').
Proof.
  intros [_ _ _ _ Hp] Hl Hr t0 h0 x Hne Hl0 Hx. simpl in *. apply (sem_lookup roleOf) in Hl.
  apply not_eq_sym in Hne.
  destruct th as [f st h]. unfold srun, roleOf in *. simpl in *.
  destruct f as [|n p|n d p|c n p|n p|n p|]; [done| | | | | |done];
    destruct p; simpl in Hr; inv_step Hr; simpl in *; eauto with sync.
Qed.

Section SemStep.
Context (cap : Z) (w : world Semaphore) (ths : list thread) (t : nat) (th th' : thread)
        (w' : world Semaphore) (o : oracle).
Hypothesis HL : Live cap (w, ths).
Hypothesis Hl : ths !! t = Some th.
Hypothesis Hr : srun o th w = Some (th', w').

Let c' := count (prim w').

Lemma sem_not_free : c' < cap -> NoLost (free w') (store w') (<[t:=modeOf c' th']> (modeOf c' <$> ths)).
Proof.
  intros Hlt Hf. destruct HL as [[[Hc ?] _ _ _ _] _ _ _]. simpl in *. exfalso.
  assert (capacity (prim w') = capacity (prim w)) as E.
  { clear - Hr. destruct th as [f st h]. unfold srun in Hr. simpl in Hr.
    destruct f as [|n p|n d p|c n p|n p|n p|]; try done; destruct p; simpl in Hr; inv_step Hr; done. }
  unfold free in Hf. subst c'. lia.
Qed.

(** The goroutine that moves is active afterwards. *)
Lemma sem_self : active (store w') (<[t:=modeOf c' th']> (modeOf c' <$> ths)) (modeOf c' th') ->
  NoLost (free w') (store w') (<[t:=modeOf c' th']> (modeOf c' <$> ths)).
Proof. intros Ha. eapply self_NoLost; [by apply sem_lookup|done]. Qed.

(** A step that changes neither the count nor what the goroutine waits for. *)
Lemma sem_passive :
  c' = count (prim w) -> capacity (prim w') = capacity (prim w) ->
  (forall x, modeOf c' th = MWait x <-> modeOf c' th' = MWait x) ->
  ~ active (store w) (modeOf c' <$> ths) (modeOf c' th) ->
  NoLost (free w') (store w') (<[t:=modeOf c' th']> (modeOf c' <$> ths)).
Proof.
  intros E Ec Hk Ha. destruct HL as [HI _ Hg HN]. simpl in *. rewrite <- E in HN.
  pose proof (sem_modes_agree _ _ _ HI Hg) as Hag. rewrite <- E in Hag.
  eapply passive_NoLost; [exact Hag|by apply sem_lookup| |exact HN|done| |done].
  - by eapply sem_run_tokens.
  - unfold free. fold c'. by rewrite E, Ec.
Qed.
End SemStep.

Lemma sem_release_NoLost cap w ths t n p st h o th' w' :
  Live cap (w, ths) -> ths !! t = Some (mkThread (FRelease n p) st h) ->
  srun o (mkThread (FRelease n p) st h) w = Some (th', w') ->
  NoLost (free w') (store w')
    (<[t:=modeOf (count (prim w')) th']> (modeOf (count (prim w')) <$> ths)).
Proof.
  intros HL Hl Hr. pose proof HL as [HI Hc Hg HN]. pose proof HI as [[Hcap _] Hn _ Hwf Hp]. simpl in *.
  pose proof (sem_modes_agree _ _ _ HI Hg) as Hag. pose proof (sem_run_tokens _ _ _ _ _ _ _ _ HI Hl Hr) as Hk.
  pose proof (sem_lookup roleOf _ _ _ Hl) as Hrl. pose proof (sem_Inv_run _ _ _ _ _ _ _ _ _ HI Hl Hr) as HI'.
  assert (Hg' : Forall notGivingUp (<[t:=th']> ths)).
  { apply Forall_insert; [done|]. unfold srun in Hr. simpl in Hr.
    destruct (ReleaseN_step n p w) as [r w1]. simplify_eq. destruct r as [[]| |]; done. }
  pose proof (sem_modes_agree _ _ _ HI' Hg') as Hag'.
  pose proof (sem_passive _ _ _ _ _ _ _ _ HL Hl Hr) as Hpass.
  pose proof (sem_self ths t _ th' w' Hl) as Hself.
  destruct (Forall_lookup_1 _ _ _ _ Hwf Hl) as [_ [_ Hpos]].
  unfold srun in Hr. simpl in Hr. destruct p as [| |c| |i [|x|x|x]|i x]; simpl in *.
  - destruct (n <=? 0); simplify_eq; apply Hpass; simpl; auto.
  - destruct (capacity (prim w) <? add32 (count (prim w)) n); simplify_eq; apply Hpass; simpl; auto.
  - destruct (count (prim w) =? c) eqn:E; simplify_eq; [by apply Hself|]. apply Hpass; simpl; auto.
  - simplify_eq. unfold wakeLoop in *. replace (0 <? n) with true in * by (symmetry; by apply Z.ltb_lt).
    by apply Hself.
  - destruct (items (waiters (prim w))) as [|y l] eqn:Hi; simplify_eq; [|by apply Hself].
    rewrite <- list_fmap_insert. eapply empty_NoLost; [apply HI'|exact Hag'|].
    intros y. simpl. rewrite Hi. apply not_elem_of_nil.
  - simplify_eq. by apply Hself.
  - destruct (cancelled (wget (store w) x)) eqn:Hx; simplify_eq; [by apply Hself|].
    eapply (found_NoLost (free w)); [exact Hp|exact Hag|by apply sem_lookup|exact Hrl|exact Hx|done|auto|done].
  - simplify_eq. by apply Hself.
  - simplify_eq. eapply (signal_NoLost (free w)); [exact Hag|by apply sem_lookup|exact Hk|exact HN|done|done|auto|].
    wake_cases; auto.
Qed.

Lemma sem_NoLost_run cap w ths t th th' w' o :
  Live cap (w, ths) -> ths !! t = Some th -> srun o th w = Some (th', w') ->
  NoLost (free w') (store w')
    (<[t:=modeOf (count (prim w')) th']> (modeOf (count (prim w')) <$> ths)).
Proof.
  intros HL Hl Hr. pose proof HL as [HI Hc Hg HN]. pose proof HI as [[Hcap Hcp] Hn _ Hwf _]. simpl in *.
  pose proof (sem_passive _ _ _ _ _ _ _ _ HL Hl Hr) as Hpass.
  pose proof (sem_not_free _ _ _ t _ th' w' o HL Hr) as Hnf.
  pose proof (sem_self ths t _ th' w' Hl) as Hself.
  pose proof (Forall_lookup_1 _ _ _ _ Hg Hl) as Hng. destruct (Forall_lookup_1 _ _ _ _ Hwf Hl) as [_ Hwt].
  destruct th as [f st h]. unfold notGivingUp in Hng. unfold MaxInt32 in Hcp. simpl in *.
  destruct f as [r|n p|n d p|c n p|n p|n p|e]; try done; [| | |by eapply sem_release_NoLost];
    unfold srun in Hr; simpl in Hr;
    destruct p; simpl in Hr; inv_step Hr; try done; bool_facts;
    try (apply Hself; exact I);
    try (apply Hpass; simpl; auto; fail);
    try (apply Hnf; simpl; simpl in Hwt; first [rewrite add32_id by (unfold int32_range; lia)|idtac]; lia).
  - apply Hself. unfold modeOf, acqMode. cbn [frm]. by rewrite Z.eqb_refl.
  - assert ((c =? count (prim w')) = false) as E by (apply Z.eqb_neq; lia).
    destruct (Ready (wget (store w') w0)) eqn:Erd; [by apply Hself|].
    apply Hpass; unfold modeOf, acqMode; cbn [frm]; rewrite ?E; [done|done|done|]. simpl. congruence.
  - by rewrite ctxDone_empty in *.
  - apply Hself. unfold modeOf, acqMode. cbn [frm]. by rewrite Z.eqb_refl.
  - assert ((c0 =? count (prim w')) = false) as E by (apply Z.eqb_neq; lia).
    destruct (Ready (wget (store w') w0)) eqn:Erd; [by apply Hself|].
    apply Hpass; unfold modeOf, acqMode; cbn [frm]; rewrite ?E; [done|done|done|]. simpl. congruence.
  - match goal with H : WaitContext _ _ _ _ = _ |- _ =>
      apply WaitContext_inv in H as [[? _]|(_ & _ & Hd)]; [done|by rewrite ctxDone_empty in Hd] end.
Qed.

Lemma sem_notGivingUp_run o th w th' w' :
  ctxs w = ∅ -> notGivingUp th -> srun o th w = Some (th', w') -> notGivingUp th' /\ ctxs w' = ∅.
Proof.
  intros Hc Hg Hr. destruct th as [f st h]. unfold notGivingUp, srun in *. simpl in *.
  destruct f as [|n p|n d p|c n p|n p|n p|]; try done; destruct p; simpl in Hr; inv_step Hr;
    simpl; wake_cases; auto.
  match goal with H : WaitContext _ _ _ _ = _ |- _ =>
    apply WaitContext_inv in H as [[? _]|(_ & _ & Hd)]; [done|by rewrite ctxDone_empty in Hd] end.
Qed.

Lemma sem_Live_call cap w ths t th th' op now :
  Live cap (w, ths) -> patient (Call t op now) -> ths !! t = Some th ->
  scall true op now th = Some th' -> Live cap (w, <[t:=th']> ths).
Proof.
  intros [HI Hc Hg HN] Hpt Hl Hr. simpl in *.
  assert (forall c, modeOf c th = MOther /\ modeOf c th' = MOther /\ notGivingUp th') as Hm.
  { unfold scall, modeOf, notGivingUp in *. destruct (frm th); try done.
    destruct op; simplify_eq; simpl; try case_match; simplify_eq; auto. }
  destruct (Hm (count (prim w))) as (Hm1 & Hm2 & Hg').
  constructor; simpl; [|done|by apply Forall_insert|].
  - eapply sem_Inv_call; eauto. destruct op; simpl; auto.
  - pose proof (sem_lookup (modeOf (count (prim w))) _ _ _ Hl) as Hml. rewrite Hm1 in Hml.
    rewrite list_fmap_insert, Hm2.
    eapply passive_NoLost; [by eapply sem_modes_agree|exact Hml| |exact HN|auto..|done]. by intros ? ?.
Qed.

Lemma sem_reach_Live cap now s k c :
  cap <= MaxInt32 -> NewSemaphore cap now = Some s ->
  reach (semaphore true) patient (initial k s) c -> Live cap c.
Proof.
  intros Hcap Hs. apply reach_invariant.
  - constructor; simpl; [by eapply sem_Inv_initial|done|by apply Forall_replicate|].
    rewrite fmap_replicate. intros _ (t & x & [? _]%lookup_replicate & _). done.
  - intros. by eapply sem_Live_call.
  - intros w ths t th th' w' o HL _ Hl Hr.
    destruct (sem_notGivingUp_run o th w th' w' (live_ctx _ _ HL)
      (Forall_lookup_1 _ _ _ _ (live_wait _ _ HL) Hl) Hr) as [Hg Hc].
    constructor; simpl; [|done| |].
    + eapply sem_Inv_run; eauto. apply HL.
    + apply Forall_insert; [apply HL|done].
    + rewrite list_fmap_insert. by eapply sem_NoLost_run.
  - done.
Qed.

(** A parked goroutine among goroutines at rest waits for a holder. *)
Lemma sem_rest cap w ths t th :
  Live cap (w, ths) -> Forall (resting (store w)) ths -> ths !! t = Some th -> parked (store w) th ->
  GetCount (prim w) < cap /\ exists t' th', ths !! t' = Some th' /\ 0 < held th'.
Proof.
  intros [[[Hc Hp] Hn Hsum _ _] _ _ HN] Hrest Ht (x & Hx & Hrd). simpl in *.
  assert (mode_wait : forall th y, waitingOn th = Some y -> modeOf (count (prim w)) th = MWait y).
  { intros th0 y. unfold waitingOn, modeOf. destruct (frm th0) as [|n p|n d p|c n p|n p|n p|]; try done;
      destruct p; try done; by intros [= <-]. }
  assert (~ free w) as Hf.
  { eapply NoLost_resting; [exact HN| |].
    - apply Forall_fmap. eapply Forall_impl; [exact Hrest|]. intros th0 [(y & Hy & ?)|[r Hi]]; simpl.
      + right. exists y. eauto.
      + left. unfold modeOf. by rewrite Hi.
    - exists t, x. split; [|done]. by rewrite (sem_lookup _ _ _ _ Ht), (mode_wait _ _ Hx). }
  unfold free, GetCount in *. split; [lia|].
  destruct (sumf_pos out ths) as (t' & th' & Ht' & Hpos); [lia|]. exists t', th'. split; [done|].
  destruct (Forall_lookup_1 _ _ _ _ Hrest Ht') as [(y & Hy & _)|[r Hi]]; unfold out, waitingOn in *.
  - destruct (frm th') as [|n p|n d p|c n p|n p|n p|]; try done; destruct p; try done; simpl in *; lia.
  - rewrite Hi in Hpos. lia.
Qed.

(** C8: a goroutine is not left parked on an idle semaphore.  In a program
    that releases only what it holds, sets no deadlines and cancels no
    context, a state in which no goroutine can move by itself and one is
    parked is a state in which some goroutine holds permits. *)
Theorem parked_implies_held cap now s k w ths t th :
  cap <= MaxInt32 -> NewSemaphore cap now = Some s ->
  reach (semaphore true) patient (initial k s) (w, ths) ->
  Forall (resting (store w)) ths -> ths !! t = Some th -> parked (store w) th ->
  GetCount (prim w) < cap /\ exists t' th', ths !! t' = Some th' /\ 0 < held th'.
Proof.
  intros Hcap Hs Hr. apply sem_rest. by eapply sem_reach_Live.
Qed.

Definition sem2 : Semaphore := mkSemaphore 2 2 NewWaiterQueue 0 0 0 0 0 0.

(** Capacity 2.  T0 and T1 take the permits; T2 and T3 find none; T0
    releases and finds nobody to wake; T2 and T3 enqueue, read the count 1;
    T1 releases, and both CAS fail; T1 wakes T2, which takes a permit. *)
Definition staleRecheck : list (label sop) :=
  Call 0 (OpAcquire 1) 0 :: runs 0 4 ++ Call 1 (OpAcquire 1) 0 :: runs 1 4 ++
  Call 2 (OpAcquire 1) 0 :: runs 2 2 ++ Call 3 (OpAcquire 1) 0 :: runs 3 2 ++
  Call 0 (OpRelease 1) 0 :: runs 0 5 ++ runs 2 5 ++ runs 3 5 ++
  Call 1 (OpRelease 1) 0 :: runs 1 3 ++ runs 2 1 ++ runs 3 1 ++ runs 1 5 ++ runs 2 6.

(** The conclusion of [parked_implies_held] cannot be strengthened to
    "no permit is available".  When the CAS that follows the enqueue fails
    because of another release, [AcquireN] does not retry but parks: after
    [staleRecheck], which respects all the rules, a goroutine is parked in
    [Acquire] although a permit is free and nobody is going to wake it. *)
Theorem acquire_parks_with_free_permit :
  exists w ths th, execs (semaphore true) staleRecheck (initial 4 sem2) = Some (w, ths) /\
    Forall patient staleRecheck /\ Forall (resting (store w)) ths /\
    ths !! 3%nat = Some th /\ parked (store w) th /\ GetCount (prim w) = 1.
Proof.
  destruct (execs (semaphore true) staleRecheck (initial 4 sem2)) as [[w ths]|] eqn:E; [|by vm_compute in E].
  exists w, ths, (mkThread (FAcquire 1 (AWait 1)) 0 0). split; [done|]. split; [by_decide|].
  vm_compute in E. injection E as <- <-.
  split; [by_decide|]. split; [reflexivity|]. split; [by_decide|reflexivity].
Qed.

(** T0 takes both permits, T1 parks. *)
Definition exhausted : list (label sop) :=
  Call 0 (OpAcquire 2) 0 :: runs 0 4 ++ Call 1 (OpAcquire 1) 0 :: runs 1 7.

Lemma permits_conserved_witness :
  let c := after (semaphore true) exhausted (initial 2 sem2) in
  0 <= GetCount (prim c.1) <= GetCapacity (prim c.1) /\ GetCapacity (prim c.1) = 2 /\
  sumf held c.2 <= 2 - GetCount (prim c.1) /\
  (Forall (fun th => exists r, frm th = FIdle r) c.2 -> GetCount (prim c.1) + sumf held c.2 = 2).
Proof.
  apply (permits_conserved 2 0 sem2 2); [by vm_compute|reflexivity|].
  apply after_reach; [apply Forall_any|by_eval].
Defined.

Lemma release_never_refused_witness :
  let c := after (semaphore true) (exhausted ++ Call 0 (OpRelease 2) 0 :: runs 0 1) (initial 2 sem2) in
  fst (ReleaseN_step 2 RLoad c.1) <> Return false.
Proof.
  apply (release_never_refused 2 0 sem2 2 _
    (after (semaphore true) (exhausted ++ Call 0 (OpRelease 2) 0 :: runs 0 1) (initial 2 sem2)).2
    0 2 RLoad 0 2); [by vm_compute|reflexivity| |by_eval].
  apply after_reach; [apply Forall_any|by_eval].
Defined.

Lemma count_in_range_witness :
  0 <= GetCount (prim (after (semaphore false) (Call 0 (OpRelease 7) 0 :: runs 0 2) (initial 1 sem2)).1) <= 2.
Proof.
  apply (count_in_range 2 0 sem2 1 _
    (after (semaphore false) (Call 0 (OpRelease 7) 0 :: runs 0 2) (initial 1 sem2)).2);
    [by vm_compute|reflexivity|].
  apply after_reach; [|by_eval].
  apply Forall_cons. split; [right; by vm_compute|repeat constructor].
Defined.

Lemma parked_implies_held_witness :
  let c := after (semaphore true) exhausted (initial 2 sem2) in
  GetCount (prim c.1) < 2 /\ exists t' th', c.2 !! t' = Some th' /\ 0 < held th'.
Proof.
  apply (parked_implies_held 2 0 sem2 2 _ _ 1 (mkThread (FAcquire 1 (AWait 0)) 0 0));
    [by vm_compute|reflexivity| |by_decide|by_eval|by_decide].
  apply after_reach; [by_decide|by_eval].
Defined.
