(* ===== verification/RWLock.v ===== *)
(** * RWLock (internal/primitives/rwlock.go)

    A readers-writer lock with writer preference: one [int32] word that holds
    the number of readers (bits 0-29) or the writer bit (bit 30), and a queue
    of parked goroutines for each kind. *)

From Stdlib Require Import ZArith Lia.
From stdpp Require Import base list gmap strings.
From S2P Require Import Prelude Waiter Parking.

#[local] Open Scope Z_scope.

Definition rwLockMaxReaders : Z := 1073741823.   (* 1<<30 - 1 *)
Definition rwLockWriterBit : Z := 1073741824.    (* 1 << 30 *)

Record RWLock := mkRWLock {
  state : Z;
  readerQueue : WaiterQueue;
  writerQueue : WaiterQueue;
  readerAcquires : Z;
  writerAcquires : Z;
  readerWaits : Z;
  writerWaits : Z;
  totalWaitTime : Z;
  currentReaders : Z;
  writerHeld : Z;
  createdAt : Z
}.

Definition NewRWLock (now : Z) : RWLock :=
  mkRWLock 0 NewWaiterQueue NewWaiterQueue 0 0 0 0 0 0 0 now.

Definition set_state v l := mkRWLock v (readerQueue l) (writerQueue l) (readerAcquires l) (writerAcquires l) (readerWaits l) (writerWaits l) (totalWaitTime l) (currentReaders l) (writerHeld l) (createdAt l).
Definition set_readerQueue v l := mkRWLock (state l) v (writerQueue l) (readerAcquires l) (writerAcquires l) (readerWaits l) (writerWaits l) (totalWaitTime l) (currentReaders l) (writerHeld l) (createdAt l).
Definition set_writerQueue v l := mkRWLock (state l) (readerQueue l) v (readerAcquires l) (writerAcquires l) (readerWaits l) (writerWaits l) (totalWaitTime l) (currentReaders l) (writerHeld l) (createdAt l).
Definition set_readerAcquires v l := mkRWLock (state l) (readerQueue l) (writerQueue l) v (writerAcquires l) (readerWaits l) (writerWaits l) (totalWaitTime l) (currentReaders l) (writerHeld l) (createdAt l).
Definition set_writerAcquires v l := mkRWLock (state l) (readerQueue l) (writerQueue l) (readerAcquires l) v (readerWaits l) (writerWaits l) (totalWaitTime l) (currentReaders l) (writerHeld l) (createdAt l).
Definition set_readerWaits v l := mkRWLock (state l) (readerQueue l) (writerQueue l) (readerAcquires l) (writerAcquires l) v (writerWaits l) (totalWaitTime l) (currentReaders l) (writerHeld l) (createdAt l).
Definition set_writerWaits v l := mkRWLock (state l) (readerQueue l) (writerQueue l) (readerAcquires l) (writerAcquires l) (readerWaits l) v (totalWaitTime l) (currentReaders l) (writerHeld l) (createdAt l).
Definition set_totalWaitTime v l := mkRWLock (state l) (readerQueue l) (writerQueue l) (readerAcquires l) (writerAcquires l) (readerWaits l) (writerWaits l) v (currentReaders l) (writerHeld l) (createdAt l).
Definition set_currentReaders v l := mkRWLock (state l) (readerQueue l) (writerQueue l) (readerAcquires l) (writerAcquires l) (readerWaits l) (writerWaits l) (totalWaitTime l) v (writerHeld l) (createdAt l).
Definition set_writerHeld v l := mkRWLock (state l) (readerQueue l) (writerQueue l) (readerAcquires l) (writerAcquires l) (readerWaits l) (writerWaits l) (totalWaitTime l) (currentReaders l) v (createdAt l).

Definition upd (f : RWLock -> RWLock) (w : world RWLock) : world RWLock := withPrim (f (prim w)) w.

(** [state & rwLockWriterBit != 0] *)
Definition writerActive (st : Z) : bool := negb (Z.land st rwLockWriterBit =? 0).

(** ** RLock and RLockContext

    [RLoad] the load of state, [RQueue st] the test [writerQueue.IsEmpty()],
    [RCas st] the CAS, [RCtx] the test of the context (RLockContext only),
    [RNew] ... [RWaits] creating and enqueuing the waiter, [RRecheck] the
    load after the enqueue, [RRecheckQ] the second [IsEmpty], [RRecas] the
    CAS, [RCancel] the store to [cancelled], [RCurrent]/[RAcquires] the
    counters, [RWait] the blocking receive, [RGiveUp] the store of a
    cancelled wait, [RPut], [RTotal] as in Mutex.v. *)
Inductive rpc :=
| RLoad | RQueue (st : Z) | RCas (st : Z) | RCtx | RNew | RLink (w : nat) | RSize (w : nat)
| RWaits (w : nat) | RRecheck (w : nat) | RRecheckQ (w : nat) (st : Z) | RRecas (w : nat) (st : Z)
| RCancel (w : nat) | RCurrent | RAcquires | RWait (w : nat) | RGiveUp (w : nat) | RPut (w : nat) | RTotal.

Definition RLock_step (start : Z) (o : oracle) (p : rpc) (w : world RWLock)
    : option (outcome rpc bool * world RWLock) :=
  let l := prim w in
  match p with
  | RLoad => Some (Next (if writerActive (state l) then RNew else RQueue (state l)), w)
  | RQueue st =>
      if negb (IsEmpty (writerQueue l)) then Some (Next RNew, w)
      else if rwLockMaxReaders <=? st then Some (Panic "rwlock: too many readers", w)
      else Some (Next (RCas st), w)
  | RCas st =>
      if state l =? st then Some (Next RCurrent, upd (set_state (add32 st 1)) w)
      else Some (Next RLoad, w)
  | RNew => let '(x, s) := NewWaiter o (store w) in Some (Next (RLink x), withStore s w)
  | RLink x => Some (Next (RSize x), upd (set_readerQueue (Enqueue_link x (readerQueue l))) w)
  | RSize x => Some (Next (RWaits x), upd (set_readerQueue (Enqueue_size (readerQueue l))) w)
  | RWaits x => Some (Next (RRecheck x), upd (set_readerWaits (add64 (readerWaits l) 1)) w)
  | RRecheck x => Some (Next (if writerActive (state l) then RWait x else RRecheckQ x (state l)), w)
  | RRecheckQ x st =>
      if IsEmpty (writerQueue l) && (st <? rwLockMaxReaders) then Some (Next (RRecas x st), w)
      else Some (Next (RWait x), w)
  | RRecas x st =>
      if state l =? st then Some (Next (RCancel x), upd (set_state (add32 st 1)) w)
      else Some (Next (RWait x), w)
  | RCancel x => Some (Next RCurrent, withStore (cancelWaiter x (store w)) w)
  | RCurrent => Some (Next RAcquires, upd (set_currentReaders (add32 (currentReaders l) 1)) w)
  | RAcquires => Some (Return true, upd (set_readerAcquires (add64 (readerAcquires l) 1)) w)
  | RWait x => s ← Wait x (store w); Some (Next (RPut x), withStore s w)
  | RPut x => Some (Next RTotal, withStore (putWaiter x (store w)) w)
  | RTotal =>
      Some (Next RLoad, upd (set_totalWaitTime (add64 (totalWaitTime l) (clk o - start))) w)
  | RCtx | RGiveUp _ => None
  end.

(** With a context the lock is tried first and too many readers is no panic. *)
Definition RLockContext_step (c : nat) (start : Z) (o : oracle) (p : rpc) (w : world RWLock)
    : option (outcome rpc bool * world RWLock) :=
  let l := prim w in
  match p with
  | RLoad => Some (Next (if writerActive (state l) then RCtx else RQueue (state l)), w)
  | RQueue st =>
      if IsEmpty (writerQueue l) && (st <? rwLockMaxReaders) then Some (Next (RCas st), w)
      else Some (Next RCtx, w)
  | RCtx => if ctxDone c w then Some (Return false, w) else Some (Next RNew, w)
  | RWait x =>
      '(signalled, s) ← WaitContext o (ctxDone c w) x (store w);
      Some (Next (if signalled : bool then RPut x else RGiveUp x), withStore s w)
  | RGiveUp x => Some (Return false, withStore (cancelWaiter x (store w)) w)
  | _ => RLock_step start o p w
  end.

(** ** Lock and LockContext *)
Inductive wpc :=
| WLoad | WCas | WCtx | WNew | WLink (w : nat) | WSize (w : nat) | WWaits (w : nat) | WRecas (w : nat)
| WCancel (w : nat) | WHeld | WAcquires | WWait (w : nat) | WGiveUp (w : nat) | WPut (w : nat) | WTotal.

Definition Lock_step (start : Z) (o : oracle) (p : wpc) (w : world RWLock)
    : option (outcome wpc bool * world RWLock) :=
  let l := prim w in
  match p with
  | WLoad => Some (Next (if negb (state l =? 0) then WNew else WCas), w)
  | WCas =>
      if state l =? 0 then Some (Next WHeld, upd (set_state rwLockWriterBit) w)
      else Some (Next WLoad, w)
  | WNew => let '(x, s) := NewWaiter o (store w) in Some (Next (WLink x), withStore s w)
  | WLink x => Some (Next (WSize x), upd (set_writerQueue (Enqueue_link x (writerQueue l))) w)
  | WSize x => Some (Next (WWaits x), upd (set_writerQueue (Enqueue_size (writerQueue l))) w)
  | WWaits x => Some (Next (WRecas x), upd (set_writerWaits (add64 (writerWaits l) 1)) w)
  | WRecas x =>
      if state l =? 0 then Some (Next (WCancel x), upd (set_state rwLockWriterBit) w)
      else Some (Next (WWait x), w)
  | WCancel x => Some (Next WHeld, withStore (cancelWaiter x (store w)) w)
  | WHeld => Some (Next WAcquires, upd (set_writerHeld 1) w)
  | WAcquires => Some (Return true, upd (set_writerAcquires (add64 (writerAcquires l) 1)) w)
  | WWait x => s ← Wait x (store w); Some (Next (WPut x), withStore s w)
  | WPut x => Some (Next WTotal, withStore (putWaiter x (store w)) w)
  | WTotal =>
      Some (Next WLoad, upd (set_totalWaitTime (add64 (totalWaitTime l) (clk o - start))) w)
  | WCtx | WGiveUp _ => None
  end.

Definition LockContext_step (c : nat) (start : Z) (o : oracle) (p : wpc) (w : world RWLock)
    : option (outcome wpc bool * world RWLock) :=
  match p with
  | WLoad => Some (Next (if state (prim w) =? 0 then WCas else WCtx), w)
  | WCtx => if ctxDone c w then Some (Return false, w) else Some (Next WNew, w)
  | WWait x =>
      '(signalled, s) ← WaitContext o (ctxDone c w) x (store w);
      Some (Next (if signalled : bool then WPut x else WGiveUp x), withStore s w)
  | WGiveUp x => Some (Return false, withStore (cancelWaiter x (store w)) w)
  | _ => Lock_step start o p w
  end.

(** ** Waking: a writer if there is one, else all readers

    The common tail of [RUnlock] and [Unlock], with [wakeAllReaders]. *)
Inductive wakepc := KWriter (d : dqpc) | KSignalW (w : nat) | KReaders (d : dqpc) | KSignalR (w : nat).

Definition wakeNext_step (p : wakepc) (w : world RWLock) : outcome wakepc unit * world RWLock :=
  let l := prim w in
  match p with
  | KWriter d =>
      let '(r, q, s) := Dequeue_step d (writerQueue l) (store w) in
      (match r with
       | Next d' => Next (KWriter d')
       | Return (Some x) => Next (KSignalW x)
       | Return None => Next (KReaders DqPop)
       | Panic e => Panic e
       end, withStore s (upd (set_writerQueue q) w))
  | KSignalW x => (Return tt, withStore (Signal x (store w)) w)
  | KReaders d =>
      let '(r, q, s) := Dequeue_step d (readerQueue l) (store w) in
      (match r with
       | Next d' => Next (KReaders d')
       | Return (Some x) => Next (KSignalR x)
       | Return None => Return tt
       | Panic e => Panic e
       end, withStore s (upd (set_readerQueue q) w))
  | KSignalR x => (Next (KReaders DqPop), withStore (Signal x (store w)) w)
  end.

(** ** RUnlock and Unlock *)
Inductive rupc := QLoad | QCas (st : Z) | QCurrent (new : Z) | QWake (k : wakepc).

Definition liftWake {P} (f : wakepc -> P) (r : outcome wakepc unit) : outcome P unit :=
  match r with Next k => Next (f k) | Return u => Return u | Panic e => Panic e end.

Definition RUnlock_step (p : rupc) (w : world RWLock) : outcome rupc unit * world RWLock :=
  let l := prim w in
  match p with
  | QLoad =>
      if Z.land (state l) rwLockMaxReaders =? 0
      then (Panic "rwlock: RUnlock of unlocked RWLock", w) else (Next (QCas (state l)), w)
  | QCas st =>
      if state l =? st then (Next (QCurrent (add32 st (-1))), upd (set_state (add32 st (-1))) w)
      else (Next QLoad, w)
  | QCurrent new =>
      (if Z.land new rwLockMaxReaders =? 0 then Next (QWake (KWriter DqPop)) else Return tt,
       upd (set_currentReaders (add32 (currentReaders l) (-1))) w)
  | QWake k => let '(r, w) := wakeNext_step k w in (liftWake QWake r, w)
  end.

Inductive upc := ULoad | UCas (st : Z) | UHeld | UWake (k : wakepc).

Definition Unlock_step (p : upc) (w : world RWLock) : outcome upc unit * world RWLock :=
  let l := prim w in
  match p with
  | ULoad =>
      if Z.land (state l) rwLockWriterBit =? 0
      then (Panic "rwlock: Unlock of unlocked RWLock", w) else (Next (UCas (state l)), w)
  | UCas st =>
      if state l =? st then (Next UHeld, upd (set_state 0) w)
      else (Panic "rwlock: inconsistent state in Unlock", w)
  | UHeld => (Next (UWake (KWriter DqPop)), upd (set_writerHeld 0) w)
  | UWake k => let '(r, w) := wakeNext_step k w in (liftWake UWake r, w)
  end.

(** ** TryRLock and TryLock *)
Inductive tryrpc := TrLoad | TrQueue (st : Z) | TrCas (st : Z) | TrCurrent | TrAcquires.

Definition TryRLock_step (p : tryrpc) (w : world RWLock) : outcome tryrpc bool * world RWLock :=
  let l := prim w in
  match p with
  | TrLoad => if writerActive (state l) then (Return false, w) else (Next (TrQueue (state l)), w)
  | TrQueue st =>
      if negb (IsEmpty (writerQueue l)) then (Return false, w)
      else if rwLockMaxReaders <=? st then (Return false, w) else (Next (TrCas st), w)
  | TrCas st =>
      if state l =? st then (Next TrCurrent, upd (set_state (add32 st 1)) w) else (Next TrLoad, w)
  | TrCurrent => (Next TrAcquires, upd (set_currentReaders (add32 (currentReaders l) 1)) w)
  | TrAcquires => (Return true, upd (set_readerAcquires (add64 (readerAcquires l) 1)) w)
  end.

Inductive trywpc := TwCas | TwHeld | TwAcquires.

Definition TryLock_step (p : trywpc) (w : world RWLock) : outcome trywpc bool * world RWLock :=
  let l := prim w in
  match p with
  | TwCas => if state l =? 0 then (Next TwHeld, upd (set_state rwLockWriterBit) w) else (Return false, w)
  | TwHeld => (Next TwAcquires, upd (set_writerHeld 1) w)
  | TwAcquires => (Return true, upd (set_writerAcquires (add64 (writerAcquires l) 1)) w)
  end.

Record RWLockStats := mkRWLockStats {
  ReaderAcquires : Z; WriterAcquires : Z; ReaderWaits : Z; WriterWaits : Z; TotalWaitTimeNs : Z;
  CurrentReaders : Z; WriterHeld : bool; ReadersWaiting : Z; WritersWaiting : Z; Age : Z
}.

Definition GetStats (now : Z) (l : RWLock) : RWLockStats :=
  mkRWLockStats (readerAcquires l) (writerAcquires l) (readerWaits l) (writerWaits l) (totalWaitTime l)
    (currentReaders l) (writerHeld l =? 1) (Size (readerQueue l)) (Size (writerQueue l)) (now - createdAt l).

(** ** Goroutines using one lock

    [rheld] and [wheld] count the read and write acquisitions a goroutine has
    not released; it calls [RUnlock] or [Unlock] only when it holds that kind
    of lock. *)
Inductive rwop := OpRLock | OpRLockContext (c : nat) | OpRUnlock | OpLock | OpLockContext (c : nat)
  | OpUnlock | OpTryRLock | OpTryLock.

Inductive frame :=
| FIdle (r : option bool)
| FRLock (p : rpc) | FRLockContext (c : nat) (p : rpc) | FRUnlock (p : rupc)
| FLock (p : wpc) | FLockContext (c : nat) (p : wpc) | FUnlock (p : upc)
| FTryRLock (p : tryrpc) | FTryLock (p : trywpc)
| FPanic (msg : string).

Record thread := mkThread { frm : frame; startTime : Z; rheld : Z; wheld : Z }.
Definition idle : thread := mkThread (FIdle None) 0 0 0.

Definition rwcall (op : rwop) (now : Z) (th : thread) : option thread :=
  let go f := Some (mkThread f now (rheld th) (wheld th)) in
  match frm th with
  | FIdle _ =>
      match op with
      | OpRLock => go (FRLock RLoad)
      | OpRLockContext c => go (FRLockContext c RLoad)
      | OpRUnlock =>
          if 0 <? rheld th then Some (mkThread (FRUnlock QLoad) now (rheld th - 1) (wheld th)) else None
      | OpLock => go (FLock WLoad)
      | OpLockContext c => go (FLockContext c WLoad)
      | OpUnlock =>
          if 0 <? wheld th then Some (mkThread (FUnlock ULoad) now (rheld th) (wheld th - 1)) else None
      | OpTryRLock => go (FTryRLock TrLoad)
      | OpTryLock => go (FTryLock TwCas)
      end
  | _ => None
  end.

(** The goroutine after a step of a call that acquires [dr] read locks and
    [dw] write locks when it returns true. *)
Definition acquired {P} (k : P -> frame) (dr dw : Z) (th : thread) (r : outcome P bool) : thread :=
  let f v rh wh := mkThread v (startTime th) rh wh in
  match r with
  | Next p => f (k p) (rheld th) (wheld th)
  | Return true => f (FIdle (Some true)) (rheld th + dr) (wheld th + dw)
  | Return false => f (FIdle (Some false)) (rheld th) (wheld th)
  | Panic e => f (FPanic e) (rheld th) (wheld th)
  end.

Definition finished {P} (k : P -> frame) (th : thread) (r : outcome P unit) : thread :=
  mkThread (match r with Next p => k p | Return _ => FIdle None | Panic e => FPanic e end)
    (startTime th) (rheld th) (wheld th).

Definition rwrun (o : oracle) (th : thread) (w : world RWLock) : option (thread * world RWLock) :=
  let st := startTime th in
  match frm th with
  | FIdle _ | FPanic _ => None
  | FRLock p => '(r, w) ← RLock_step st o p w; Some (acquired FRLock 1 0 th r, w)
  | FRLockContext c p =>
      '(r, w) ← RLockContext_step c st o p w; Some (acquired (FRLockContext c) 1 0 th r, w)
  | FRUnlock p => let '(r, w) := RUnlock_step p w in Some (finished FRUnlock th r, w)
  | FLock p => '(r, w) ← Lock_step st o p w; Some (acquired FLock 0 1 th r, w)
  | FLockContext c p =>
      '(r, w) ← LockContext_step c st o p w; Some (acquired (FLockContext c) 0 1 th r, w)
  | FUnlock p => let '(r, w) := Unlock_step p w in Some (finished FUnlock th r, w)
  | FTryRLock p => let '(r, w) := TryRLock_step p w in Some (acquired FTryRLock 1 0 th r, w)
  | FTryLock p => let '(r, w) := TryLock_step p w in Some (acquired FTryLock 0 1 th r, w)
  end.

Definition rwlock : machine (world RWLock) thread rwop := Machine rwcall rwrun cancelCtx.

Definition initial (k : nat) (now : Z) : config (Sh:=world RWLock) (Th:=thread) :=
  (World (NewRWLock now) emptyStore ∅, replicate k idle).

(** * The state word *)

Definition readable (st : Z) : Prop := 0 <= st <= rwLockMaxReaders.

Lemma land_writer_readable st : readable st -> Z.land st rwLockWriterBit = 0.
Proof.
  unfold readable, rwLockMaxReaders, rwLockWriterBit. intros H.
  change 1073741824 with (2 ^ 30). apply Z.bits_inj'. intros n Hn.
  rewrite Z.land_spec, Z.bits_0, Z.pow2_bits_eqb by lia.
  destruct (Z.eqb_spec 30 n) as [<-|]; [|by rewrite andb_false_r]. rewrite andb_true_r.
  destruct (Z.eq_dec st 0) as [->|]; [apply Z.bits_0|].
  apply Z.bits_above_log2; [lia|]. apply Z.log2_lt_pow2; lia.
Qed.

Lemma land_max_readable st : readable st -> Z.land st rwLockMaxReaders = st.
Proof.
  unfold readable, rwLockMaxReaders. intros H. change 1073741823 with (Z.ones 30).
  rewrite Z.land_ones by lia. apply Z.mod_small. lia.
Qed.

Lemma writerActive_readable st : readable st -> writerActive st = false.
Proof. intros H. unfold writerActive. by rewrite land_writer_readable. Qed.

Lemma writerActive_writer : writerActive rwLockWriterBit = true.
Proof. reflexivity. Qed.

(** * Invariants *)

Definition rholds (th : thread) : Z :=
  rheld th +
  match frm th with
  | FRLock (RCancel _ | RCurrent | RAcquires) | FRLockContext _ (RCancel _ | RCurrent | RAcquires)
  | FTryRLock (TrCurrent | TrAcquires) | FRUnlock (QLoad | QCas _) => 1
  | _ => 0
  end.

Definition wholds (th : thread) : Z :=
  wheld th +
  match frm th with
  | FLock (WCancel _ | WHeld | WAcquires) | FLockContext _ (WCancel _ | WHeld | WAcquires)
  | FTryLock (TwHeld | TwAcquires) | FUnlock (ULoad | UCas _) => 1
  | _ => 0
  end.

Definition rRole (p : rpc) : role :=
  match p with
  | RLink w | RPut w => Role (OPriv w) HNone
  | RSize w | RWaits w | RRecheck w | RRecheckQ w _ | RRecas w _ | RWait w | RGiveUp w =>
      Role (OShared w) HNone
  | RCancel w => Role (OCanc w) HNone
  | _ => idleRole
  end.

Definition wRole (p : wpc) : role :=
  match p with
  | WLink w | WPut w => Role (OPriv w) HNone
  | WSize w | WWaits w | WRecas w | WWait w | WGiveUp w => Role (OShared w) HNone
  | WCancel w => Role (OCanc w) HNone
  | _ => idleRole
  end.

Definition wakeRole (k : wakepc) : role :=
  match k with
  | KWriter d | KReaders d => Role ONone (dqHand d)
  | KSignalW w | KSignalR w => Role ONone (HSig w)
  end.

Definition roleOf (th : thread) : role :=
  match frm th with
  | FRLock p | FRLockContext _ p => rRole p
  | FLock p | FLockContext _ p => wRole p
  | FRUnlock (QWake k) | FUnlock (UWake k) => wakeRole k
  | _ => idleRole
  end.

Definition rOk (p : rpc) : Prop :=
  match p with
  | RQueue st | RRecheckQ _ st => readable st
  | RCas st | RRecas _ st => 0 <= st < rwLockMaxReaders
  | _ => True
  end.

Definition wellFormed (th : thread) : Prop :=
  (0 <= rheld th /\ 0 <= wheld th) /\
  match frm th with
  | FRLock p => rOk p /\ match p with RCtx | RGiveUp _ => False | _ => True end
  | FRLockContext _ p => rOk p
  | FLock (WCtx | WGiveUp _) => False
  | FRUnlock (QCas st) => 0 < st <= rwLockMaxReaders
  | FUnlock (UCas st) => st = rwLockWriterBit
  | FTryRLock (TrQueue st) => readable st
  | FTryRLock (TrCas st) => 0 <= st < rwLockMaxReaders
  | FPanic e => e = "rwlock: too many readers"
  | _ => True
  end.

(** Either some readers and no writer, or one writer and no reader. *)
Definition stateOk (st R W : Z) : Prop :=
  (st = R /\ W = 0 /\ readable R) \/ (st = rwLockWriterBit /\ W = 1 /\ R = 0).

Record Inv (c : world RWLock * list thread) : Prop := {
  inv_state : stateOk (state (prim c.1)) (sumf rholds c.2) (sumf wholds c.2);
  inv_threads : Forall wellFormed c.2;
  inv_protocol : WInv (roleOf <$> c.2)
                   (items (readerQueue (prim c.1)) ++ items (writerQueue (prim c.1))) (store c.1)
}.

Lemma rholds_nonneg th : wellFormed th -> 0 <= rholds th.
Proof.
  intros [[H _] _]. unfold rholds.
  destruct (frm th) as [|p|c p|p|p|c p|p|p|p|]; try destruct p; simpl; lia.
Qed.

Lemma wholds_nonneg th : wellFormed th -> 0 <= wholds th.
Proof.
  intros [[_ H] _]. unfold wholds.
  destruct (frm th) as [|p|c p|p|p|c p|p|p|p|]; try destruct p; simpl; lia.
Qed.

Lemma rw_Inv_initial k now : Inv (initial k now).
Proof.
  constructor; simpl.
  - left. rewrite !sumf_replicate by done. unfold readable, rwLockMaxReaders. lia.
  - apply Forall_replicate. split; simpl; [lia|done].
  - rewrite fmap_replicate. apply WInv_init.
Qed.

Lemma rw_Inv_call w ths t th th' op now :
  Inv (w, ths) -> ths !! t = Some th -> rwcall op now th = Some th' -> Inv (w, <[t:=th']> ths).
Proof.
  intros [Hs Ht Hp] Hl Hc. simpl in *.
  assert (rholds th' = rholds th /\ wholds th' = wholds th /\ roleOf th' = roleOf th /\ wellFormed th')
    as (E1 & E2 & E3 & E4).
  { pose proof (Forall_lookup_1 _ _ _ _ Ht Hl) as [Hw _].
    unfold rwcall, rholds, wholds, roleOf, wellFormed in *. destruct th as [f st rh wh]; simpl in *.
    destruct f; try discriminate. destruct op; simplify_eq; simpl;
      try (repeat split; simpl; try lia; fail);
      destruct (0 <? _) eqn:E; simplify_eq; simpl; bool_facts; repeat split; simpl; lia. }
  constructor; simpl; auto.
  - rewrite !(sumf_insert _ _ _ _ _ Hl), E1, E2. by rewrite !Z.sub_add.
  - by apply Forall_insert.
  - rewrite list_fmap_insert, E3. apply WInv_same; [done|]. by rewrite list_lookup_fmap, Hl.
Qed.

Lemma stateOk_readable st R W : stateOk st R W -> writerActive st = false -> readable st.
Proof. intros [(-> & _ & H)|(-> & _)] Ha; [done|by rewrite writerActive_writer in Ha]. Qed.

Lemma stateOk_reader st R W :
  stateOk st R W -> 0 < R -> Z.land st rwLockMaxReaders = st /\ 0 < st <= rwLockMaxReaders.
Proof.
  unfold stateOk. intros [(-> & _ & H)|(_ & _ & ->)] HR; [|lia].
  split; [by apply land_max_readable|unfold readable in H; lia].
Qed.

Lemma stateOk_writer st R W : stateOk st R W -> 0 < W -> st = rwLockWriterBit.
Proof. intros [(_ & -> & _)|(-> & _)] HW; [lia|done]. Qed.

Lemma wakeNext_state k w r w' :
  wakeNext_step k w = (r, w') ->
  state (prim w') = state (prim w) /\ ctxs w' = ctxs w /\ forall e, r <> Panic e.
Proof.
  destruct k as [d|x|d|x]; simpl; intros H; simplify_eq; auto;
    match type of H with context [Dequeue_step ?d ?q ?s] =>
      destruct (Dequeue_step d q s) as [[r1 q1] s1] eqn:E end;
    pose proof (fun e => Dequeue_no_panic _ _ _ _ _ _ e E) as Hn;
    destruct r1 as [|[|]|e]; simplify_eq; simpl; repeat split; auto; exfalso; by eapply Hn.
Qed.

(** Every step changes the state word as it changes what is held; the only
    panic is that of too many readers. *)
Lemma rw_run_state o th w th' w' R W :
  wellFormed th -> stateOk (state (prim w)) R W -> rholds th <= R -> wholds th <= W ->
  rwrun o th w = Some (th', w') ->
  stateOk (state (prim w')) (R - rholds th + rholds th') (W - wholds th + wholds th') /\ wellFormed th'.
Proof.
  intros [Hh Hwf] Hs HR HW Hr. destruct th as [f st rh wh].
  unfold rwrun, wellFormed, rholds, wholds in *. simpl in *.
  pose proof (stateOk_readable _ _ _ Hs) as Hrd. pose proof (stateOk_reader _ _ _ Hs) as Hrr.
  pose proof (stateOk_writer _ _ _ Hs) as Hww.
  destruct f as [|p|c p|p|p|c p|p|p|p|]; [done| | | | | | | | |done];
    destruct p; simpl in Hr; inv_step Hr; try done; simpl in *; bool_facts;
    unfold finished, liftWake in *; simpl in *;
    repeat match goal with |- context [match ?b with _ => _ end] =>
      is_var b; destruct b; simpl in * end;
    unfold stateOk, readable, rwLockMaxReaders, rwLockWriterBit in *;
    repeat match goal with
    | |- context [add32 ?c ?n] => rewrite (add32_id c n) in * by (unfold int32_range; lia)
    end;
    try (split; [|repeat split]; auto; lia).
  all: try match goal with
    | H : wakeNext_step _ _ = _ |- _ =>
        destruct (wakeNext_state _ _ _ _ H) as (E & _ & Hn); rewrite E;
        first [exfalso; by eapply Hn | split; [|done]; lia]
    end.
  rewrite Hww in * by lia. done.
Qed.

(** The role of a goroutine after a step of the waking loop. *)
Definition wakeOut (r : outcome wakepc unit) : role :=
  match r with Next k => wakeRole k | _ => idleRole end.

Lemma wakeNext_protocol k w r w' rs t :
  wakeNext_step k w = (r, w') -> rs !! t = Some (wakeRole k) ->
  WInv rs (items (readerQueue (prim w)) ++ items (writerQueue (prim w))) (store w) ->
  WInv (<[t:=wakeOut r]> rs)
    (items (readerQueue (prim w')) ++ items (writerQueue (prim w'))) (store w').
Proof.
  intros Hk Ht H. destruct k as [d|x|d|x]; simpl in *.
  - destruct (Dequeue_step d (writerQueue (prim w)) (store w)) as [[r1 q1] s1] eqn:E.
    pose proof (two_dequeue_w _ _ _ _ _ _ _ _ _ _ H Ht E) as H'.
    destruct r1 as [|[|]|e]; simplify_eq; simpl in *; auto.
  - simplify_eq. simpl. by apply WInv_signal.
  - destruct (Dequeue_step d (readerQueue (prim w)) (store w)) as [[r1 q1] s1] eqn:E.
    pose proof (two_dequeue_r _ _ _ _ _ _ _ _ _ _ H Ht E) as H'.
    destruct r1 as [|[|]|e]; simplify_eq; simpl in *; auto.
  - simplify_eq. simpl. by apply WInv_signal.
Qed.

Lemma rw_run_protocol o th w th' w' rs t :
  rwrun o th w = Some (th', w') -> rs !! t = Some (roleOf th) ->
  WInv rs (items (readerQueue (prim w)) ++ items (writerQueue (prim w))) (store w) ->
  WInv (<[t:=roleOf th']> rs)
    (items (readerQueue (prim w')) ++ items (writerQueue (prim w'))) (store w').
Proof.
  intros Hr Ht H. destruct th as [f st rh wh]. unfold rwrun, roleOf in *. simpl in *.
  destruct f as [|p|c p|p|p|c p|p|p|p|]; [done| | | | | | | | |done];
    destruct p; simpl in Hr; inv_step Hr; unfold finished, liftWake; simpl in *; eauto with sync;
    match goal with
    | E : wakeNext_step _ _ = (?r, _) |- _ =>
        pose proof (wakeNext_protocol _ _ _ _ _ _ E Ht H); by destruct r
    | _ => case_match; simpl; eauto with sync
    end.
Qed.

Lemma rw_Inv_run w ths t th th' w' o :
  Inv (w, ths) -> ths !! t = Some th -> rwrun o th w = Some (th', w') ->
  Inv (w', <[t:=th']> ths).
Proof.
  intros [Hs Ht Hp] Hl Hr. simpl in *.
  pose proof (Forall_lookup_1 _ _ _ _ Ht Hl) as Hwf.
  pose proof (sumf_le_F rholds _ rholds_nonneg _ _ _ Ht Hl) as HR.
  pose proof (sumf_le_F wholds _ wholds_nonneg _ _ _ Ht Hl) as HW.
  destruct (rw_run_state _ _ _ _ _ _ _ Hwf Hs HR HW Hr) as (E1 & E2).
  constructor; simpl; auto.
  - by rewrite !(sumf_insert _ _ _ _ _ Hl).
  - by apply Forall_insert.
  - rewrite list_fmap_insert. eapply rw_run_protocol; eauto. by rewrite list_lookup_fmap, Hl.
Qed.

Lemma rw_reach_Inv P k now c : reach rwlock P (initial k now) c -> Inv c.
Proof.
  apply reach_invariant; intros.
  - apply rw_Inv_initial.
  - eapply rw_Inv_call; eauto.
  - eapply rw_Inv_run; eauto.
  - destruct H. by constructor.
Qed.

(** * Theorems: exclusion *)

Lemma rheld_le th : rheld th <= rholds th.
Proof. unfold rholds. destruct (frm th) as [|p|c p|p|p|c p|p|p|p|]; try destruct p; simpl; lia. Qed.

Lemma wheld_le th : wheld th <= wholds th.
Proof. unfold wholds. destruct (frm th) as [|p|c p|p|p|c p|p|p|p|]; try destruct p; simpl; lia. Qed.

(** C6: readers and writers exclude each other.  While a goroutine holds the
    write lock nobody else holds it and nobody holds a read lock, in every
    interleaving and whatever contexts are cancelled; the read locks held
    never exceed [rwLockMaxReaders]. *)
Theorem writer_excludes k now w ths i j a b :
  reach rwlock any_label (initial k now) (w, ths) ->
  ths !! i = Some a -> ths !! j = Some b -> 0 < wheld a ->
  rheld b <= 0 /\ (0 < wheld b -> i = j) /\ wheld a = 1 /\ state (prim w) = rwLockWriterBit.
Proof.
  intros Hr Hi Hj Ha. apply rw_reach_Inv in Hr as [Hs Hwf _]. simpl in *.
  pose proof (sumf_le_F wholds _ wholds_nonneg _ _ _ Hwf Hi). pose proof (wheld_le a).
  pose proof (sumf_le_F rholds _ rholds_nonneg _ _ _ Hwf Hj). pose proof (rheld_le b).
  unfold stateOk in Hs. repeat split; try lia. intros Hb.
  destruct (decide (i = j)) as [|Hne]; [done|]. pose proof (wheld_le b).
  pose proof (sumf_two_F wholds _ wholds_nonneg _ _ _ _ _ Hwf Hne Hi Hj). lia.
Qed.

(** The read locks of a reachable state are counted by its state word:
    when no call is in progress and no writer holds the lock, the low bits
    are the number of read locks held, at most [rwLockMaxReaders]. *)
Theorem readers_counted k now w ths :
  reach rwlock any_label (initial k now) (w, ths) ->
  Forall (fun th => exists r, frm th = FIdle r) ths -> sumf wheld ths = 0 ->
  Z.land (state (prim w)) rwLockMaxReaders = sumf rheld ths /\
  0 <= sumf rheld ths <= rwLockMaxReaders.
Proof.
  intros Hr Hi HW. apply rw_reach_Inv in Hr as [Hs _ _]. simpl in *.
  assert (sumf rholds ths = sumf rheld ths /\ sumf wholds ths = sumf wheld ths) as [E1 E2].
  { clear - Hi. induction Hi as [|th l [r Hf] _ [IH1 IH2]]; simpl; [done|].
    unfold rholds at 1, wholds at 1. rewrite Hf. lia. }
  rewrite E1, E2 in Hs. destruct Hs as [(-> & _ & H)|(_ & H & _)]; [|lia].
  split; [by apply land_max_readable|exact H].
Qed.

(** A program that releases only what it holds never reaches one of the
    panics of [RUnlock] and [Unlock]; the only panic left is the limit on
    the number of readers. *)
Theorem rwlock_only_panic k now w ths t th :
  reach rwlock any_label (initial k now) (w, ths) -> ths !! t = Some th ->
  frm th <> FPanic "rwlock: RUnlock of unlocked RWLock" /\
  frm th <> FPanic "rwlock: Unlock of unlocked RWLock" /\
  frm th <> FPanic "rwlock: inconsistent state in Unlock".
Proof.
  intros Hr Ht. apply rw_reach_Inv in Hr as [_ Hwf _]. simpl in Hwf.
  pose proof (Forall_lookup_1 _ _ _ _ Hwf Ht) as [_ H].
  repeat split; intros He; by rewrite He in H.
Qed.

(** T0 holds the write lock, T1 is parked in [RLock], T2 in [Lock]. *)
Definition writerFirst : list (label rwop) :=
  Call 0 OpLock 0 :: runs 0 4 ++ Call 1 OpRLock 0 :: runs 1 6 ++ Call 2 OpLock 0 :: runs 2 6.

Lemma writerFirst_reach :
  reach rwlock any_label (initial 3 0)
    ((after rwlock writerFirst (initial 3 0)).1, (after rwlock writerFirst (initial 3 0)).2).
Proof. apply after_reach; [apply Forall_any|by_eval]. Qed.

Lemma writer_excludes_witness :
  rheld (mkThread (FRLock (RWait 0)) 0 0 0) <= 0 /\
  state (prim (after rwlock writerFirst (initial 3 0)).1) = rwLockWriterBit.
Proof.
  destruct (writer_excludes 3 0 _ _ 0 1 (mkThread (FIdle (Some true)) 0 0 1)
    (mkThread (FRLock (RWait 0)) 0 0 0) writerFirst_reach) as (H1 & _ & _ & H4);
    [by_eval|by_eval|by_eval|]. split; [exact H1|exact H4].
Defined.

(** Two readers. *)
Definition twoReaders : list (label rwop) :=
  Call 0 OpRLock 0 :: runs 0 5 ++ Call 1 OpRLock 0 :: runs 1 5.

Lemma readers_counted_witness :
  let c := after rwlock twoReaders (initial 2 0) in
  Z.land (state (prim c.1)) rwLockMaxReaders = sumf rheld c.2 /\
  0 <= sumf rheld c.2 <= rwLockMaxReaders.
Proof.
  apply (readers_counted 2 0).
  - apply after_reach; [apply Forall_any|by_eval].
  - apply Forall_lookup. intros [|[|t]] th E; [..|by vm_compute in E];
      eexists; vm_compute in E; injection E as <-; reflexivity.
  - by_eval.
Defined.

Lemma rwlock_only_panic_witness :
  FRLock (RWait 0) <> FPanic "rwlock: RUnlock of unlocked RWLock".
Proof.
  apply (rwlock_only_panic 3 0 _ _ 1 (mkThread (FRLock (RWait 0)) 0 0 0) writerFirst_reach). by_eval.
Defined.

(** T0 holds the write lock; T1 waits for it with a context, T2 without; T0
    unlocks and signals T1, whose context is cancelled before it looks. *)
Definition rwCancelRace : list (label rwop) :=
  Call 0 OpLock 0 :: runs 0 4 ++ Call 1 (OpLockContext 7) 0 :: runs 1 7 ++
  Call 2 OpLock 0 :: runs 2 6 ++ Call 0 OpUnlock 0 :: runs 0 7 ++
  [Cancel 7; Run 1 (Oracle true 0 0); Run 1 o0].

(** A cancelled [LockContext] can lose a wake-up.  After [rwCancelRace]
    the lock is free, nobody is inside a call except a goroutine that is
    parked in [Lock] without a token, and nothing will wake it. *)
Theorem rw_lockcontext_drops_wakeup :
  exists w r1 r2, execs rwlock rwCancelRace (initial 3 0) =
      Some (w, [mkThread (FIdle r1) 0 0 0; mkThread (FIdle r2) 0 0 0; mkThread (FLock (WWait 1)) 0 0 0])
    /\ Ready (wget (store w) 1) = false /\ state (prim w) = 0.
Proof. eexists _, _, _. split; [vm_compute; reflexivity|]. split; reflexivity. Qed.
