(* ===== verification/RWLive.v ===== *)
(** * RWLock loses no wake-up (internal/primitives/rwlock.go)

    Readers and writers park in two queues.  A goroutine that frees the lock
    wakes one writer, or all readers if no writer is queued; a reader also
    parks when the size counter of the writers' queue is not zero, which
    cancelled waiters keep up.  This file proves that as long as no context
    is cancelled nobody stays parked while the lock is free, and shows what
    the promise leaves out: a reader can park behind a reader. *)

From Stdlib Require Import ZArith Lia.
From stdpp Require Import base list gmap strings.
From S2P Require Import Prelude Waiter Parking.
From S2P Require Import Sides.
From S2P Require Import RWLock.

#[local] Open Scope Z_scope.

(** ** The two sides *)

Definition wakeRoleR (k : wakepc) : role :=
  match k with KReaders _ | KSignalR _ => wakeRole k | _ => idleRole end.

Definition wakeRoleW (k : wakepc) : role :=
  match k with KWriter _ | KSignalW _ => wakeRole k | _ => idleRole end.

Definition roleR (th : thread) : role :=
  match frm th with
  | FRLock p | FRLockContext _ p => rRole p
  | FRUnlock (QWake k) | FUnlock (UWake k) => wakeRoleR k
  | _ => idleRole
  end.

Definition roleW (th : thread) : role :=
  match frm th with
  | FLock p | FLockContext _ p => wRole p
  | FRUnlock (QWake k) | FUnlock (UWake k) => wakeRoleW k
  | _ => idleRole
  end.

Lemma roles_split th :
  (roleR th = roleOf th /\ roleW th = idleRole) \/ (roleW th = roleOf th /\ roleR th = idleRole).
Proof.
  unfold roleR, roleW, roleOf. destruct (frm th) as [|p|c p|p|p|c p|p|p|p|]; auto;
    destruct p as [| | |k]; auto; destruct k; auto.
Qed.

Lemma cnt_split f x ths :
  f idleRole = None ->
  cnt f x (roleOf <$> ths) = cnt f x ((roleR <$> ths) ++ (roleW <$> ths)).
Proof.
  intros Hf. rewrite cnt_app. unfold cnt. rewrite !sumf_fmap.
  induction ths as [|th ths IH]; [done|]. simpl. rewrite IH. unfold refers.
  destruct (roles_split th) as [[-> ->]|[-> ->]]; rewrite Hf; lia.
Qed.

Lemma WInv_split ths its s :
  WInv (roleOf <$> ths) its s <-> WInv ((roleR <$> ths) ++ (roleW <$> ths)) its s.
Proof. unfold WInv. setoid_rewrite cnt_split; done. Qed.

(** The step of a goroutine touches the waiters of its own side only. *)
Lemma wakeNext_touches k w r w' :
  wakeNext_step k w = (r, w') -> touches (wakeRole k) (store w) (store w').
Proof.
  destruct k as [d|x|d|x]; simpl; intros E; simplify_eq; simpl; eauto with sync.
  - destruct (Dequeue_step _ _ _) as [[r1 q1] s1] eqn:Ed. simplify_eq. simpl. by eapply touches_dequeue.
  - destruct (Dequeue_step _ _ _) as [[r1 q1] s1] eqn:Ed. simplify_eq. simpl. by eapply touches_dequeue.
Qed.

Lemma rw_run_touches o th w th' w' :
  rwrun o th w = Some (th', w') -> touches (roleOf th) (store w) (store w').
Proof.
  intros Hr. destruct th as [f st rh wh]. unfold rwrun, roleOf in *. simpl in *.
  destruct f as [|p|c p|p|p|c p|p|p|p|]; [done| | | | | | | | |done];
    destruct p; simpl in Hr; inv_step Hr; simpl in *; eauto with sync; by eapply wakeNext_touches.
Qed.

(** ** Each side follows the protocol *)

Definition wakeOutR (r : outcome wakepc unit) : role :=
  match r with Next k => wakeRoleR k | _ => idleRole end.
Definition wakeOutW (r : outcome wakepc unit) : role :=
  match r with Next k => wakeRoleW k | _ => idleRole end.

(** Does the goroutine work on the readers' queue? *)
Definition readerSide (th : thread) : bool :=
  match frm th with
  | FRLock _ | FRLockContext _ _ | FRUnlock (QWake (KReaders _ | KSignalR _))
  | FUnlock (UWake (KReaders _ | KSignalR _)) => true
  | _ => false
  end.

Lemma side_role th : if readerSide th then roleR th = roleOf th else roleW th = roleOf th.
Proof.
  unfold readerSide, roleR, roleW, roleOf. destruct (frm th) as [|p|c p|p|p|c p|p|p|p|]; auto;
    destruct p as [| | |k]; auto; destruct k; auto.
Qed.

(** A step leaves the queue of the other side alone, and the role there. *)
Lemma side_frame o th w th' w' :
  rwrun o th w = Some (th', w') ->
  if readerSide th then writerQueue (prim w') = writerQueue (prim w) /\ roleW th' = idleRole /\ roleW th = idleRole
  else readerQueue (prim w') = readerQueue (prim w) /\ roleR th' = idleRole /\ roleR th = idleRole.
Proof.
  intros Hr. destruct th as [f st rh wh]. unfold rwrun, readerSide, roleR, roleW in *. simpl in *.
  destruct f as [|p|c p|p|p|c p|p|p|p|]; [done| | | | | | | | |done];
    destruct p; try match goal with k : wakepc |- _ => destruct k end; simpl in Hr; inv_step Hr; simpl in *;
    repeat split; unfold acquired, finished, liftWake; simpl; try done; repeat case_match; done.
Qed.

Lemma reader_protocol o th w th' w' rs t :
  rwrun o th w = Some (th', w') -> readerSide th = true -> rs !! t = Some (roleR th) ->
  WInv rs (items (readerQueue (prim w))) (store w) ->
  WInv (<[t:=roleR th']> rs) (items (readerQueue (prim w'))) (store w').
Proof.
  intros Hr Hs Ht H. destruct th as [f st rh wh]. unfold rwrun, roleR, readerSide in *. simpl in *.
  destruct f as [|p|c p|p|p|c p|p|p|p|]; try done;
    destruct p; try done; try match goal with k : wakepc |- _ => destruct k end; try done;
    simpl in Hr; inv_step Hr; unfold finished, liftWake; simpl in *; eauto with sync;
    try (case_match; simpl; eauto with sync; fail); exfalso; by eapply Dequeue_no_panic.
Qed.

Lemma writer_protocol o th w th' w' rs t :
  rwrun o th w = Some (th', w') -> readerSide th = false -> rs !! t = Some (roleW th) ->
  WInv rs (items (writerQueue (prim w))) (store w) ->
  WInv (<[t:=roleW th']> rs) (items (writerQueue (prim w'))) (store w').
Proof.
  intros Hr Hs Ht H. destruct th as [f st rh wh]. unfold rwrun, roleW, readerSide in *. simpl in *.
  destruct f as [|p|c p|p|p|c p|p|p|p|]; try done;
    destruct p; try done; try match goal with k : wakepc |- _ => destruct k end; try done;
    simpl in Hr; inv_step Hr; unfold finished, liftWake; simpl in *; eauto with sync;
    try (case_match; simpl; eauto with sync; fail); exfalso; by eapply Dequeue_no_panic.
Qed.

(** ** Modes

    What the goroutines do, as the writers' queue sees it: draining the
    readers' queue is none of its business. *)
Definition modeW (th : thread) : mode :=
  match frm th with
  | FLock p | FLockContext _ p =>
      match p with
      | WCancel _ | WHeld | WAcquires | WGiveUp _ => MOther
      | WWait x => MWait x
      | _ => MSeek
      end
  | FRUnlock (QCurrent new) => if Z.land new rwLockMaxReaders =? 0 then MWake else MOther
  | FRUnlock (QWake (KWriter _)) | FUnlock (UHeld | UWake (KWriter _)) => MWake
  | FRUnlock (QWake (KSignalW x)) | FUnlock (UWake (KSignalW x)) => MSig x
  | _ => MOther
  end.

(** Waking all readers. *)
Definition draining (th : thread) : bool :=
  match frm th with
  | FRUnlock (QWake (KReaders _ | KSignalR _)) | FUnlock (UWake (KReaders _ | KSignalR _)) => true
  | _ => false
  end.

(** A reader that is parked, or has seen readers after linking its waiter and
    may park although the lock has become free since. *)
Definition readerWait (th : thread) : option nat :=
  match frm th with
  | FRLock p | FRLockContext _ p =>
      match p with
      | RWait x => Some x
      | RRecheckQ x st | RRecas x st => if st =? 0 then None else Some x
      | _ => None
      end
  | _ => None
  end.

Definition free (w : world RWLock) : Prop := state (prim w) = 0.

Definition notGivingUp (th : thread) : Prop :=
  match frm th with FRLockContext _ (RGiveUp _) | FLockContext _ (WGiveUp _) => False | _ => True end.

Definition linkingW (th : thread) : Z :=
  match frm th with FLock (WSize _) | FLockContext _ (WSize _) => 1 | _ => 0 end.

Definition unlinkingW (th : thread) : Z :=
  match frm th with
  | FRUnlock (QWake (KWriter d)) | FUnlock (UWake (KWriter d)) => unlinkingPc d
  | _ => 0
  end.

Definition readerParked (s : wstore) (ths : list thread) : Prop :=
  exists t th x, ths !! t = Some th /\ readerWait th = Some x /\ Ready (wget s x) = false.

(** Somebody is going to look at the lock as a writer or to wake one, or is
    waking the readers. *)
Definition wakers (s : wstore) (ths : list thread) : Prop :=
  someActive s (modeW <$> ths) \/ exists t th, ths !! t = Some th /\ draining th = true.

Record Live (c : world RWLock * list thread) : Prop := {
  live_inv : Inv c;
  live_ctx : ctxs c.1 = ∅;
  live_wait : Forall notGivingUp c.2;
  live_r : WInv (roleR <$> c.2) (items (readerQueue (prim c.1))) (store c.1);
  live_w : WInv (roleW <$> c.2) (items (writerQueue (prim c.1))) (store c.1);
  live_sized : sized (writerQueue (prim c.1)) (sumf linkingW c.2) (sumf unlinkingW c.2);
  live_writers : NoLostFor (items (writerQueue (prim c.1)) <> []) (free c.1) (store c.1) (modeW <$> c.2);
  live_readers : free c.1 -> readerParked (store c.1) c.2 -> wakers (store c.1) c.2
}.

Lemma Live_Sides w ths :
  Live (w, ths) ->
  Sides (roleR <$> ths) (roleW <$> ths) (items (readerQueue (prim w))) (items (writerQueue (prim w))) (store w).
Proof. intros H. split; [apply WInv_split, H|apply H|apply H]. Qed.

Lemma fmap_at {A} (f : thread -> A) (ths : list thread) t th :
  ths !! t = Some th -> (f <$> ths) !! t = Some (f th).
Proof. intros H. by rewrite list_lookup_fmap, H. Qed.

(** Both sides stay in order. *)
Lemma Live_sides_run w ths t th th' w' o :
  Live (w, ths) -> ths !! t = Some th -> rwrun o th w = Some (th', w') ->
  WInv (roleR <$> <[t:=th']> ths) (items (readerQueue (prim w'))) (store w') /\
  WInv (roleW <$> <[t:=th']> ths) (items (writerQueue (prim w'))) (store w').
Proof.
  intros HL Hl Hr. pose proof (Live_Sides _ _ HL) as HS.
  pose proof (inv_protocol _ (rw_Inv_run _ _ _ _ _ _ _ (live_inv _ HL) Hl Hr)) as HT. simpl in HT.
  pose proof (side_frame _ _ _ _ _ Hr) as HF. pose proof (side_role th) as Hrole.
  pose proof (rw_run_touches _ _ _ _ _ Hr) as Htch. rewrite !list_fmap_insert.
  destruct (readerSide th) eqn:Es.
  - destruct HF as (-> & -> & Hi). split.
    + eapply reader_protocol; eauto; [by apply fmap_at|apply HL].
    + rewrite list_insert_id by (by rewrite (fmap_at _ _ _ _ Hl), Hi).
      rewrite <- Hrole in Htch. eapply Sides_other; [exact HS|by apply fmap_at|exact Htch|exact HT].
  - destruct HF as (-> & -> & Hi). split.
    + rewrite list_insert_id by (by rewrite (fmap_at _ _ _ _ Hl), Hi). rewrite <- Hrole in Htch.
      eapply Sides_other; [exact (Sides_sym _ _ _ _ _ HS)|by apply fmap_at|exact Htch|exact HT].
    + eapply writer_protocol; eauto; [by apply fmap_at|apply HL].
Qed.

Lemma modesW_agree w ths :
  Inv (w, ths) -> Forall notGivingUp ths -> Forall2 (agrees (free w)) (roleW <$> ths) (modeW <$> ths).
Proof.
  intros [Hs Hwf _] Hg. simpl in *. apply Forall2_fmap_2, Forall_Forall2_diag.
  apply Forall_lookup. intros t th Hl.
  pose proof (sumf_le_F wholds _ wholds_nonneg _ _ _ Hwf Hl) as Hle.
  destruct (Forall_lookup_1 _ _ _ _ Hwf Hl) as [Hheld Hf].
  pose proof (Forall_lookup_1 _ _ _ _ Hg Hl) as Hn.
  unfold agrees, free, modeW, roleW, notGivingUp, wholds, stateOk in *.
  destruct (frm th) as [|p|c p|p|p|c p|p|p|p|]; try destruct p;
    try match goal with k : wakepc |- _ => destruct k end; simpl in *; try done;
    repeat split; intros; simplify_eq; auto; try (unfold rwLockWriterBit in *; lia);
    try (destruct d; simpl; by auto).
  all: case_match; done.
Qed.

(** The tokens of parked goroutines are not touched by the others. *)
Lemma rw_tokens w ths t th th' w' o :
  Live (w, ths) -> ths !! t = Some th -> rwrun o th w = Some (th', w') ->
  keepsTokens (roleOf <$> ths) t (store w) (store w').
Proof.
  intros [[_ _ Hp] _ _ _ _ _ _ _] Hl Hr t0 h0 x Hne Hl0 Hx. simpl in *. apply (fmap_at roleOf) in Hl.
  apply not_eq_sym in Hne. destruct th as [f st rh wh]. unfold rwrun, roleOf in *. simpl in *.
  destruct f as [|p|c p|p|p|c p|p|p|p|]; [done| | | | | | | | |done];
    destruct p; try match goal with k : wakepc |- _ => destruct k end;
    simpl in Hr; inv_step Hr; simpl in *; eauto with sync.
Qed.

Lemma keepsTokens_W ths t s s' :
  keepsTokens (roleOf <$> ths) t s s' -> keepsTokens (roleW <$> ths) t s s'.
Proof.
  intros H t0 h0 x Hne Hx. rewrite list_lookup_fmap in Hx.
  apply fmap_Some in Hx as (th0 & Hl0 & Hr0). apply (H t0 h0 x Hne).
  rewrite (fmap_at _ _ _ _ Hl0). destruct (roles_split th0) as [[_ E]|[E _]]; [by rewrite E in Hr0|congruence].
Qed.

Lemma sized_run w ths t th th' w' o :
  Live (w, ths) -> ths !! t = Some th -> rwrun o th w = Some (th', w') ->
  sized (writerQueue (prim w')) (sumf linkingW (<[t:=th']> ths)) (sumf unlinkingW (<[t:=th']> ths)).
Proof.
  intros HL Hl Hr. pose proof (live_sized _ HL) as H. simpl in H.
  rewrite !(sumf_insert _ _ _ _ _ Hl). set (l := sumf linkingW ths) in *. set (u := sumf unlinkingW ths) in *.
  clearbody l u. destruct th as [f st rh wh]. unfold rwrun, linkingW, unlinkingW in *. simpl in *.
  destruct f as [|p|c p|p|p|c p|p|p|p|]; [done| | | | | | | | |done];
    destruct p; try match goal with k : wakepc |- _ => destruct k end;
    simpl in Hr; inv_step Hr; unfold acquired, finished, liftWake; simpl in *;
    rewrite ?Z.sub_0_r, ?Z.add_0_r; try done;
    try (repeat case_match; simplify_eq; simpl; rewrite ?Z.sub_0_r, ?Z.add_0_r; done);
    try (by apply sized_link); try (by apply sized_count);
    match goal with E : Dequeue_step _ _ _ = _ |- _ => pose proof (sized_dequeue _ _ _ _ _ _ _ _ E H) as H' end;
    simpl in H'; rewrite ?Z.add_0_r in *; done.
Qed.

Lemma rw_notGivingUp_run o th w th' w' :
  ctxs w = ∅ -> notGivingUp th -> rwrun o th w = Some (th', w') -> notGivingUp th' /\ ctxs w' = ∅.
Proof.
  intros Hc Hg Hr. destruct th as [f st rh wh]. unfold notGivingUp, rwrun in *. simpl in *.
  destruct f as [|p|c p|p|p|c p|p|p|p|]; [done| | | | | | | | |done];
    destruct p; try match goal with k : wakepc |- _ => destruct k end;
    simpl in Hr; inv_step Hr; unfold acquired, finished, liftWake; simpl in *; auto;
    try (split; [|done]; repeat case_match; done).
  all: match goal with H : WaitContext _ _ _ _ = _ |- _ =>
    apply WaitContext_inv in H as [[? _]|(_ & _ & Hd)]; [done|by rewrite ctxDone_empty in Hd] end.
Qed.

(** The kinds of steps, as the writers' queue sees them. *)
Inductive step_kind (th th' : thread) (w w' : world RWLock) : Prop :=
| SkActive : modeW th' = MSeek \/ modeW th' = MWake -> step_kind th th' w w'
| SkTaken : ~ free w' -> step_kind th th' w w'
| SkOther : modeW th = MOther -> modeW th' = MOther -> writerQueue (prim w') = writerQueue (prim w) ->
    (free w' -> free w) -> step_kind th th' w w'
| SkEmpty : items (writerQueue (prim w')) = [] -> draining th' = true -> step_kind th th' w w'
| SkFound x : roleW th = Role ONone (HRaw x) -> cancelled (wget (store w) x) = false -> w' = w ->
    modeW th' = MSig x -> step_kind th th' w w'
| SkSignal x : modeW th = MSig x -> modeW th' = MOther -> w' = withStore (Signal x (store w)) w ->
    step_kind th th' w w'.

Lemma upd_id w : upd (set_writerQueue (writerQueue (prim w))) w = w.
Proof. destruct w as [[] s c]. done. Qed.

Lemma withStore_id (w : world RWLock) : withStore (store w) w = w.
Proof. by destruct w. Qed.

Lemma rw_step_kind o th w th' w' :
  ctxs w = ∅ -> notGivingUp th -> wellFormed th -> rwrun o th w = Some (th', w') -> step_kind th th' w w'.
Proof.
  intros Hc Hg [_ Hwf] Hr. destruct th as [f st rh wh]. unfold rwrun, notGivingUp in *. simpl in *.
  destruct f as [|p|c p|p|p|c p|p|p|p|]; [done| | | | | | | | |done];
    destruct p; try match goal with k : wakepc |- _ => destruct k end;
    try match goal with d : dqpc |- _ => destruct d end;
    simpl in Hr; inv_step Hr; unfold acquired, finished, liftWake in *; simpl in *; bool_facts;
    try (apply SkActive; simpl; by auto);
    try (apply SkTaken; unfold free; simpl; rewrite ?add32_id by (unfold int32_range, rwLockMaxReaders in *; lia);
         unfold rwLockWriterBit; lia);
    try (apply SkOther; simpl; done).
  all: try done; try (by rewrite ctxDone_empty in *);
    try match goal with H : WaitContext _ _ _ _ = _ |- _ =>
      apply WaitContext_inv in H as [[? _]|(_ & _ & Hd)]; [done|by rewrite ctxDone_empty in Hd] end;
    rewrite ?upd_id, ?withStore_id;
    try (apply SkEmpty; simpl; done); try (by eapply SkFound); try (by eapply SkSignal).
  - destruct (decide (add32 st0 (-1) = 0)) as [E|E]; [|by apply SkTaken].
    apply SkActive. right. unfold modeW. simpl. by rewrite E.
  - apply SkOther; simpl; try done. unfold modeW. simpl.
    by match goal with H : _ <> 0 |- _ => rewrite (proj2 (Z.eqb_neq _ _) H) end.
Qed.

(** The lock becomes free by the step of a goroutine that then wakes others. *)
Lemma freed_wakes o th w th' w' :
  wellFormed th -> rwrun o th w = Some (th', w') -> free w' -> free w \/ modeW th' = MWake.
Proof.
  intros [_ Hwf] Hr Hf. destruct th as [f st rh wh]. unfold rwrun in *. simpl in *.
  destruct f as [|p|c p|p|p|c p|p|p|p|]; [done| | | | | | | | |done];
    destruct p; try match goal with k : wakepc |- _ => destruct k end;
    simpl in Hr; inv_step Hr; unfold free, acquired, finished, liftWake, modeW in *; simpl in *; auto.
  all: try done; try (exfalso; rewrite add32_id in Hf by (unfold int32_range, rwLockMaxReaders in *; lia); lia).
  rewrite Hf. auto.
Qed.

(** Where a reader comes to be parked. *)
Lemma park_step o th w th' w' x :
  wellFormed th -> rwrun o th w = Some (th', w') -> readerWait th' = Some x ->
  (readerWait th = Some x /\ store w' = store w) \/ ~ free w' \/
  (w' = w /\ IsEmpty (writerQueue (prim w)) = false).
Proof.
  intros [_ Hwf] Hr Hp. destruct th as [f st rh wh]. unfold rwrun in *. simpl in *.
  destruct f as [|p|c p|p|p|c p|p|p|p|]; [done| | | | | | | | |done];
    destruct p; try match goal with k : wakepc |- _ => destruct k end;
    simpl in Hr; inv_step Hr; unfold free, acquired, finished, liftWake, readerWait in *; simpl in *; try done;
    repeat case_match; simplify_eq; bool_facts; auto.
  all: right; match goal with
    | H : writerActive (state _) = true |- _ => left; intros E; by rewrite E in H
    | H : _ && _ = false |- _ => apply andb_false_iff in H as [?|?]; [by right|];
        exfalso; bool_facts; unfold rwLockMaxReaders in *; lia
    | _ => left; congruence end.
Qed.

Lemma drain_end o th w th' w' :
  rwrun o th w = Some (th', w') -> draining th = true -> draining th' = false ->
  items (readerQueue (prim w)) = [] /\ store w' = store w /\ roleR th = idleRole.
Proof.
  intros Hr Hd Hd'. destruct th as [f st rh wh]. unfold rwrun, draining, roleR in *. simpl in *.
  destruct f as [|p|c p|p|p|c p|p|p|p|]; try done;
    destruct p; try match goal with k : wakepc |- _ => destruct k end; try done;
    simpl in Hr; inv_step Hr; unfold finished, liftWake in *; simpl in *; try done;
    try (exfalso; by eapply Dequeue_no_panic).
  all: match goal with E : Dequeue_step ?d _ _ = _ |- _ => destruct d; simpl in E end;
    repeat case_match; simplify_eq; done.
Qed.

Section Step.
Context (w w' : world RWLock) (ths : list thread) (t : nat) (th th' : thread) (o : oracle).
Hypothesis HL : Live (w, ths).
Hypothesis Hl : ths !! t = Some th.
Hypothesis Hr : rwrun o th w = Some (th', w').

Lemma kind_at : step_kind th th' w w'.
Proof.
  eapply rw_step_kind; [apply HL|exact (Forall_lookup_1 _ _ _ _ (live_wait _ HL) Hl)| |exact Hr].
  exact (Forall_lookup_1 _ _ _ _ (inv_threads _ (live_inv _ HL)) Hl).
Qed.

Lemma tokens_at : keepsTokens (roleW <$> ths) t (store w) (store w').
Proof. eapply keepsTokens_W, rw_tokens; eauto. Qed.

Lemma agree_at : Forall2 (agrees (free w)) (roleW <$> ths) (modeW <$> ths).
Proof. apply modesW_agree; apply HL. Qed.

Lemma agree_after : Forall2 (agrees (free w')) (roleW <$> <[t:=th']> ths) (modeW <$> <[t:=th']> ths).
Proof.
  apply modesW_agree; [eapply rw_Inv_run; eauto; apply HL|]. apply Forall_insert; [apply HL|].
  eapply rw_notGivingUp_run; [apply HL|exact (Forall_lookup_1 _ _ _ _ (live_wait _ HL) Hl)|exact Hr].
Qed.

(** While the lock stays free, somebody stays active for the writers, or the
    last one turns to the readers. *)
Lemma active_run :
  free w -> free w' -> someActive (store w) (modeW <$> ths) ->
  someActive (store w') (modeW <$> <[t:=th']> ths) \/ draining th' = true.
Proof.
  intros Hf Hf' HA. rewrite list_fmap_insert. pose proof (fmap_at modeW _ _ _ Hl) as Hm.
  pose proof tokens_at as Hk. pose proof agree_at as Hag.
  destruct kind_at as [Ha|Ht|E1 E2 _ _|_ Hd|x Er Hx E Em|x Em Em' E]; try done; auto; left.
  - eapply self_active; [exact Hm|]. by destruct Ha as [-> | ->].
  - eapply passive_active; eauto; rewrite E1; [by intros []|done].
  - subst w'. eapply (found_active (free w)); [exact (live_w _ HL)|exact Hag|exact Hm|
      rewrite <- Er; exact (fmap_at roleW _ _ _ Hl)|exact Hx|done|done|done].
  - eapply signal_active; eauto; [by rewrite E|by rewrite Em'].
Qed.

Lemma writers_run :
  NoLostFor (items (writerQueue (prim w')) <> []) (free w') (store w') (modeW <$> <[t:=th']> ths).
Proof.
  pose proof (live_writers _ HL) as HN. simpl in HN. pose proof (fmap_at modeW _ _ _ Hl) as Hm.
  pose proof tokens_at as Hk. pose proof agree_at as Hag. pose proof agree_after as Hag'.
  destruct (Live_sides_run _ _ _ _ _ _ _ HL Hl Hr) as [_ HW].
  destruct kind_at as [Ha|Ht|E1 E2 Eq Ef|He _|x Er Hx E Em|x Em Em' E].
  - intros _ _. rewrite list_fmap_insert. eapply self_active; [exact Hm|]. by destruct Ha as [-> | ->].
  - by intros ?.
  - rewrite list_fmap_insert. eapply passive_NoLostFor; eauto; rewrite ?E1, ?E2, ?Eq; auto; by intros [].
  - intros Hf [?|Hp]; [done|]. eapply (empty_NoLost (free w')); [exact HW|exact Hag'| |exact Hf|exact Hp].
    intros y. rewrite He. apply not_elem_of_nil.
  - intros Hf _. subst w'. rewrite list_fmap_insert.
    eapply (found_active (free w)); [exact (live_w _ HL)|exact Hag|exact Hm|
      rewrite <- Er; exact (fmap_at roleW _ _ _ Hl)|exact Hx|done|done|done].
  - rewrite list_fmap_insert, E. eapply signal_NoLostFor; eauto; try done; by rewrite E in Hk.
Qed.

(** A queue that looks nonempty while the lock is free has somebody active. *)
Lemma nonempty_active :
  free w -> IsEmpty (writerQueue (prim w)) = false -> someActive (store w) (modeW <$> ths).
Proof.
  intros Hf He. destruct (sized_nonempty _ _ _ (live_sized _ HL) He) as [Hi|[Hn|Hn]]; simpl in *.
  - by apply (live_writers _ HL); [|left].
  - destruct (sumf_pos linkingW ths) as (t1 & th1 & Ht1 & Hp).
    { pose proof (sumf_nonneg linkingW ths ltac:(intros y; unfold linkingW; repeat case_match; lia)). lia. }
    exists t1, MSeek. split; [|done]. rewrite (fmap_at _ _ _ _ Ht1). f_equal.
    unfold linkingW, modeW in *. repeat case_match; try done; lia.
  - destruct (sumf_pos unlinkingW ths) as (t1 & th1 & Ht1 & Hp).
    { pose proof (sumf_nonneg unlinkingW ths
        ltac:(intros y; unfold unlinkingW, unlinkingPc; repeat case_match; lia)). lia. }
    exists t1, MWake. split; [|done]. rewrite (fmap_at _ _ _ _ Ht1). f_equal.
    unfold unlinkingW, modeW in *. repeat case_match; try done; lia.
Qed.

Lemma wakers_run :
  free w -> free w' -> wakers (store w) ths ->
  wakers (store w') (<[t:=th']> ths) \/ (draining th = true /\ draining th' = false).
Proof.
  intros Hf Hf' [HA|(t1 & th1 & Ht1 & Hd)].
  - destruct (active_run Hf Hf' HA) as [?|?]; [left; by left|]. left. right. exists t, th'.
    split; [|done]. apply list_lookup_insert_eq. by eapply lookup_lt_Some.
  - destruct (decide (t1 = t)) as [->|Hne]; [|left; right; exists t1, th1; by rewrite list_lookup_insert_ne].
    simplify_eq. destruct (draining th') eqn:E; [|by right]. left. right. exists t, th'.
    split; [|done]. apply list_lookup_insert_eq. by eapply lookup_lt_Some.
Qed.

Lemma readerWait_role th0 x : readerWait th0 = Some x -> roleR th0 = Role (OShared x) HNone /\ roleOf th0 = roleR th0.
Proof.
  unfold readerWait, roleR, roleOf. repeat case_match; intros; simplify_eq; done.
Qed.

Lemma handR_draining th0 x :
  raw (roleR th0) = Some x \/ dead (roleR th0) = Some x \/ alive (roleR th0) = Some x -> draining th0 = true.
Proof.
  unfold roleR, draining. destruct (frm th0) as [|p|c p|p|p|c p|p|p|p|]; try destruct p;
    try match goal with k : wakepc |- _ => destruct k end; simpl; try done; intros [?|[?|?]]; done.
Qed.

(** The last dequeue of a goroutine that wakes the readers leaves nobody. *)
Lemma drained :
  draining th = true -> draining th' = false -> readerParked (store w') (<[t:=th']> ths) ->
  wakers (store w') (<[t:=th']> ths).
Proof.
  intros Hd Hd' (t0 & th0 & x & Ht0 & Hw & Hrd).
  destruct (drain_end _ _ _ _ _ Hr Hd Hd') as (Hi & Es & Hrole). rewrite Es in Hrd.
  apply list_lookup_insert_Some in Ht0 as [(<- & <- & _)|[Hne Ht0]].
  { exfalso. destruct th as [f st rh wh]. unfold draining, rwrun, readerWait in *. simpl in *.
    repeat case_match; simplify_eq; simpl in *; repeat case_match; simplify_eq. }
  destruct (readerWait_role _ _ Hw) as [Hr0 _].
  destruct (WInv_parked _ _ _ t0 HNone x (live_r _ HL)) as [H|(t1 & r1 & Hr1 & Hh)]; simpl; [|done| |].
  - by rewrite (fmap_at _ _ _ _ Ht0), Hr0.
  - simpl in H. rewrite Hi in H. by apply not_elem_of_nil in H.
  - rewrite list_lookup_fmap in Hr1. apply fmap_Some in Hr1 as (th1 & Ht1 & ->). simpl in Ht1.
    right. exists t1, th1. destruct (decide (t1 = t)) as [->|Hne1].
    + assert (th1 = th) as -> by congruence. rewrite Hrole in Hh. by destruct Hh as [?|[?|?]].
    + rewrite list_lookup_insert_ne by done. split; [done|]. by eapply handR_draining.
Qed.

Lemma readers_run :
  free w' -> readerParked (store w') (<[t:=th']> ths) -> wakers (store w') (<[t:=th']> ths).
Proof.
  intros Hf' HP. pose proof (Forall_lookup_1 _ _ _ _ (inv_threads _ (live_inv _ HL)) Hl) as Hwf.
  destruct (freed_wakes _ _ _ _ _ Hwf Hr Hf') as [Hf|Hm].
  2: { left. rewrite list_fmap_insert. eapply self_active; [exact (fmap_at modeW _ _ _ Hl)|]. by rewrite Hm. }
  assert (HW : wakers (store w) ths).
  { destruct HP as (t0 & th0 & x & Ht0 & Hw & Hrd).
    apply list_lookup_insert_Some in Ht0 as [(<- & <- & _)|[Hne Ht0]].
    - destruct (park_step _ _ _ _ _ _ Hwf Hr Hw) as [[Hw' Es]|[?|[-> He]]]; [|done|].
      + apply (live_readers _ HL Hf). exists t, th, x. simpl. by rewrite <- Es.
      + left. by apply nonempty_active.
    - apply (live_readers _ HL Hf). exists t0, th0, x. split; [done|]. split; [done|]. simpl.
      destruct (Ready (wget (store w) x)) eqn:E; [|done]. rewrite <- Hrd. symmetry.
      destruct (readerWait_role _ _ Hw) as [E1 E2].
      eapply (rw_tokens _ _ _ _ _ _ _ HL Hl Hr t0 HNone); [congruence| |exact E].
      by rewrite (fmap_at _ _ _ _ Ht0), E2, E1. }
  destruct (wakers_run Hf Hf' HW) as [?|[Hd Hd']]; [done|]. by apply drained.
Qed.

Lemma rw_Live_run : Live (w', <[t:=th']> ths).
Proof.
  destruct (rw_notGivingUp_run o th w th' w' (live_ctx _ HL)
    (Forall_lookup_1 _ _ _ _ (live_wait _ HL) Hl) Hr) as [Hg Hc].
  destruct (Live_sides_run _ _ _ _ _ _ _ HL Hl Hr) as [HR HW].
  constructor; simpl; auto.
  - eapply rw_Inv_run; eauto. apply HL.
  - apply Forall_insert; [apply HL|done].
  - by eapply sized_run.
  - apply writers_run.
  - apply readers_run.
Qed.
End Step.

Lemma rw_Live_call w ths t th th' op now :
  Live (w, ths) -> ths !! t = Some th -> rwcall op now th = Some th' -> Live (w, <[t:=th']> ths).
Proof.
  intros HL Hl Hr.
  assert (modeW th = MOther /\ (modeW th' = MOther \/ modeW th' = MSeek) /\ notGivingUp th' /\
    roleR th' = roleR th /\ roleW th' = roleW th /\ linkingW th' = linkingW th /\ unlinkingW th' = unlinkingW th /\
    readerWait th' = None /\ draining th = false)
    as (Hm & Hm' & Hg & E1 & E2 & E3 & E4 & Ew & Ed).
  { unfold rwcall, modeW, notGivingUp, roleR, roleW, linkingW, unlinkingW, readerWait, draining in *.
    destruct (frm th); try done.
    destruct op; simplify_eq; simpl; try (case_match; simplify_eq); repeat split; auto. }
  assert (Hact : someActive (store w) (modeW <$> ths) -> someActive (store w) (modeW <$> <[t:=th']> ths)).
  { rewrite list_fmap_insert. pose proof (fmap_at modeW _ _ _ Hl) as Hml.
    destruct Hm' as [-> | ->]; [|intros; by eapply self_active]. rewrite Hm in Hml.
    rewrite (list_insert_id _ _ _ Hml). done. }
  destruct HL as [HI Hc Hgs HR HW Hz HN HRd]. simpl in *. constructor; simpl; auto.
  - by eapply rw_Inv_call.
  - by apply Forall_insert.
  - by rewrite list_fmap_insert, E1, list_insert_id by (by apply fmap_at).
  - by rewrite list_fmap_insert, E2, list_insert_id by (by apply fmap_at).
  - rewrite !(sumf_insert _ _ _ _ _ Hl), E3, E4, !Z.sub_add. done.
  - intros Hf HD. apply Hact, HN; [done|]. destruct HD as [?|(t1 & x & Ht1 & Hx)]; [by left|]. right.
    exists t1, x. split; [|done]. rewrite list_fmap_insert in Ht1.
    apply list_lookup_insert_Some in Ht1 as [(_ & E & _)|[_ ?]]; [|done].
    exfalso. by destruct Hm' as [Hm'|Hm']; rewrite Hm' in E.
  - intros Hf (t0 & th0 & x & Ht0 & Hw & Hx).
    apply list_lookup_insert_Some in Ht0 as [(_ & <- & _)|[Hne Ht0]]; [congruence|].
    destruct HRd as [HA|(t1 & th1 & Ht1 & Hd)]; [done|by exists t0, th0, x|left; auto|right].
    exists t1, th1. split; [|done]. rewrite list_lookup_insert_ne; [done|]. intros ->. congruence.
Qed.

Lemma rw_reach_Live n now c : reach rwlock no_cancel (initial n now) c -> Live c.
Proof.
  apply reach_invariant; intros; try done.
  - constructor; simpl; try done.
    + apply rw_Inv_initial.
    + by apply Forall_replicate.
    + rewrite fmap_replicate. apply WInv_init.
    + rewrite fmap_replicate. apply WInv_init.
    + rewrite !sumf_replicate by done. apply sized_new.
    + rewrite fmap_replicate. intros _ [?|(t & x & [? _]%lookup_replicate & _)]; done.
    + intros _ (t & th & x & [-> _]%lookup_replicate & ? & _). done.
  - by eapply rw_Live_call.
  - by eapply rw_Live_run.
Qed.

(** * Theorems *)

Definition waitingOn (th : thread) : option nat :=
  match frm th with
  | FRLock (RWait x) | FRLockContext _ (RWait x) | FLock (WWait x) | FLockContext _ (WWait x) => Some x
  | _ => None
  end.

(** Blocked on an empty channel. *)
Definition parked (s : wstore) (th : thread) : Prop :=
  exists x, waitingOn th = Some x /\ Ready (wget s x) = false.

#[export] Instance parked_dec s th : Decision (parked s th).
Proof.
  unfold parked. destruct (waitingOn th) as [w|]; [|right; by intros (? & ? & _)].
  destruct (Ready (wget s w)) eqn:E; [right; intros (? & ? & ?); congruence|left; eauto].
Defined.

(** Nothing to do without the help of another goroutine. *)
Definition resting (s : wstore) (th : thread) : Prop :=
  parked s th \/ exists r, frm th = FIdle r.

#[export] Instance resting_dec s th : Decision (resting s th).
Proof.
  unfold resting. destruct (decide (parked s th)) as [?|Hn]; [left; by left|].
  destruct (frm th) eqn:E; try (right; intros [?|[? ?]]; [done|congruence]). left. eauto.
Defined.

Lemma resting_mode s th : resting s th -> restingMode s (modeW th) /\ draining th = false.
Proof.
  unfold resting, parked, waitingOn, restingMode, modeW, draining. intros [(x & Hx & Hrd)|[r E]].
  - repeat case_match; simplify_eq; eauto.
  - rewrite E. auto.
Qed.

Lemma resting_holds s th : resting s th -> rholds th = rheld th /\ wholds th = wheld th.
Proof.
  unfold resting, parked, waitingOn, rholds, wholds. intros [(x & Hx & _)|[r E]].
  - repeat case_match; simplify_eq; lia.
  - rewrite E. lia.
Qed.

(** A parked goroutine, seen from the two queues. *)
Lemma parked_side s (ths : list thread) t th :
  ths !! t = Some th -> parked s th -> someParked s (modeW <$> ths) \/ readerParked s ths.
Proof.
  intros Ht (x & Hx & Hrd). unfold waitingOn in Hx.
  destruct (frm th) as [|p|c p|p|p|c p|p|p|p|] eqn:E; try done; destruct p; simplify_eq;
    [right; exists t, th, x; unfold readerWait; by rewrite E| right; exists t, th, x; unfold readerWait; by rewrite E
    | left; exists t, x; rewrite (fmap_at _ _ _ _ Ht); unfold modeW; by rewrite E ..].
Qed.

(** A parked goroutine among goroutines at rest waits for a holder. *)
Lemma rw_rest w ths t th :
  Live (w, ths) -> Forall (resting (store w)) ths -> ths !! t = Some th -> parked (store w) th ->
  exists t' th', ths !! t' = Some th' /\ (0 < rheld th' \/ 0 < wheld th').
Proof.
  intros HL Hrest Ht Hp. pose proof (inv_state _ (live_inv _ HL)) as Hs. simpl in Hs.
  assert (HnA : ~ someActive (store w) (modeW <$> ths)).
  { intros (t1 & m & Hm & Ha). rewrite list_lookup_fmap in Hm. apply fmap_Some in Hm as (th1 & Ht1 & ->).
    destruct (resting_mode _ _ (Forall_lookup_1 _ _ _ _ Hrest Ht1)) as [[E|(y & E & Hy)] _];
      rewrite E in Ha; simpl in Ha; congruence. }
  assert (~ free w) as Hf.
  { intros Hf. destruct (parked_side _ _ _ _ Ht Hp) as [HP|HP].
    - apply HnA, (live_writers _ HL); [done|by right].
    - destruct (live_readers _ HL Hf HP) as [?|(t1 & th1 & Ht1 & Hd)]; [done|].
      destruct (resting_mode _ _ (Forall_lookup_1 _ _ _ _ Hrest Ht1)) as [_ E]. congruence. }
  assert (Hpos : 0 < sumf rholds ths \/ 0 < sumf wholds ths).
  { unfold free, stateOk, readable in *. lia. }
  destruct Hpos as [Hpos|Hpos]; destruct (sumf_pos _ _ Hpos) as (t' & th' & Ht' & Hh);
    exists t', th'; (split; [done|]);
    destruct (resting_holds _ _ (Forall_lookup_1 _ _ _ _ Hrest Ht')) as [E1 E2]; lia.
Qed.

(** C7: no wake-up of the readers-writer lock is lost.  As long as no context
    is cancelled, a state in which no goroutine can move by itself and one of
    them is parked in [RLock] or [Lock] is a state in which some goroutine
    holds a read lock or the write lock, and will wake others when it
    releases it.  The size counter of the writers' queue may count cancelled
    waiters meanwhile; it never leads to a stranded reader. *)
Theorem rw_no_lost_wakeup n now w ths t th :
  reach rwlock no_cancel (initial n now) (w, ths) ->
  Forall (resting (store w)) ths -> ths !! t = Some th -> parked (store w) th ->
  exists t' th', ths !! t' = Some th' /\ (0 < rheld th' \/ 0 < wheld th').
Proof.
  intros Hr. by apply rw_rest, (rw_reach_Live n now).
Qed.

Lemma rw_no_lost_wakeup_witness :
  exists t' th', (after rwlock writerFirst (initial 3 0)).2 !! t' = Some th' /\ (0 < rheld th' \/ 0 < wheld th').
Proof.
  apply (rw_no_lost_wakeup 3 0 _ _ 1 (mkThread (FRLock (RWait 0)) 0 0 0)
    (after_reach rwlock no_cancel writerFirst (initial 3 0) ltac:(by_decide) ltac:(by_eval)));
    [by_decide|by_eval|by_decide].
Defined.

(** T0 holds the write lock when T1 calls [RLock]; T0 unlocks before T1 has
    linked its waiter; T2 takes a read lock between T1's second load of the
    state and its CAS. *)
Definition readerBehindReader : list (label rwop) :=
  Call 0 OpLock 0 :: runs 0 4 ++ Call 1 OpRLock 0 :: runs 1 1 ++ Call 0 OpUnlock 0 :: runs 0 5 ++
  runs 1 6 ++ Call 2 OpRLock 0 :: runs 2 5 ++ runs 1 1.

(** A reader can be kept out by a reader alone: after [readerBehindReader] T1
    is parked in [RLock] although no writer holds the lock or waits for it,
    only T2 holds a read lock, and nothing but T2's [RUnlock] will wake T1. *)
Theorem reader_parks_behind_reader :
  exists w th, execs rwlock readerBehindReader (initial 3 0) =
      Some (w, [mkThread (FIdle None) 0 0 0; th; mkThread (FIdle (Some true)) 0 1 0])
    /\ parked (store w) th /\ state (prim w) = 1 /\ items (writerQueue (prim w)) = [] /\
    IsEmpty (writerQueue (prim w)) = true /\ items (readerQueue (prim w)) = [0%nat].
Proof.
  exists (after rwlock readerBehindReader (initial 3 0)).1, (mkThread (FRLock (RWait 0)) 0 0 0).
  split; [vm_compute; reflexivity|]. split; [by_decide|]. repeat split; vm_compute; reflexivity.
Qed.
