(* ===== verification/WaitGroup.v ===== *)
(** * WaitGroup (internal/primitives/waitgroup.go)

    A counter and a queue of goroutines parked until it is zero.  Whoever
    brings the counter to zero drains the queue. *)

From Stdlib Require Import ZArith Lia.
From stdpp Require Import base list gmap strings.
From S2P Require Import Prelude Waiter Parking.

#[local] Open Scope Z_scope.

Record WaitGroup := mkWaitGroup {
  counter : Z;               (* atomic.Int32 *)
  waiters : WaiterQueue;
  createdAt : Z;
  addCount : Z;
  doneCount : Z;
  waitCount : Z
}.

Definition NewWaitGroup (now : Z) : WaitGroup := mkWaitGroup 0 NewWaiterQueue now 0 0 0.

Definition set_counter v g := mkWaitGroup v (waiters g) (createdAt g) (addCount g) (doneCount g) (waitCount g).
Definition set_waiters v g := mkWaitGroup (counter g) v (createdAt g) (addCount g) (doneCount g) (waitCount g).
Definition set_addCount v g := mkWaitGroup (counter g) (waiters g) (createdAt g) v (doneCount g) (waitCount g).
Definition set_doneCount v g := mkWaitGroup (counter g) (waiters g) (createdAt g) (addCount g) v (waitCount g).
Definition set_waitCount v g := mkWaitGroup (counter g) (waiters g) (createdAt g) (addCount g) (doneCount g) v.

Definition upd (f : WaitGroup -> WaitGroup) (w : world WaitGroup) : world WaitGroup :=
  withPrim (f (prim w)) w.

(** ** wakeAll: signal every waiter until the queue is empty *)
Inductive wakepc := KDeq (d : dqpc) | KSignal (w : nat).

Definition wakeAll_step (p : wakepc) (w : world WaitGroup) : outcome wakepc unit * world WaitGroup :=
  match p with
  | KDeq d =>
      let '(r, q, s) := Dequeue_step d (waiters (prim w)) (store w) in
      (match r with
       | Next d' => Next (KDeq d')
       | Return (Some x) => Next (KSignal x)
       | Return None => Return tt
       | Panic e => Panic e
       end, withStore s (upd (set_waiters q) w))
  | KSignal x => (Next (KDeq DqPop), withStore (Signal x (store w)) w)
  end.

(** ** Add and Done

    [GCounter] the addition to the counter, [GCount n] the addition to
    [addCount] or [doneCount], [n] being the new value of the counter. *)
Inductive addpc := GCounter | GCount (n : Z) | GWake (k : wakepc).

Definition liftWake (r : outcome wakepc unit) : outcome addpc unit :=
  match r with Next k => Next (GWake k) | Return u => Return u | Panic e => Panic e end.

Definition Add_step (delta : Z) (p : addpc) (w : world WaitGroup) : outcome addpc unit * world WaitGroup :=
  let g := prim w in
  match p with
  | GCounter =>
      let n := add32 (counter g) (wrap32 delta) in
      (if n <? 0 then Panic "waitgroup: negative counter" else Next (GCount n), upd (set_counter n) w)
  | GCount n =>
      (if n =? 0 then Next (GWake (KDeq DqPop)) else Return tt,
       upd (set_addCount (add64 (addCount g) delta)) w)
  | GWake k => let '(r, w) := wakeAll_step k w in (liftWake r, w)
  end.

Definition Done_step (p : addpc) (w : world WaitGroup) : outcome addpc unit * world WaitGroup :=
  let g := prim w in
  match p with
  | GCounter =>
      let n := add32 (counter g) (-1) in
      (if n <? 0 then Panic "waitgroup: negative counter" else Next (GCount n), upd (set_counter n) w)
  | GCount n =>
      (if n =? 0 then Next (GWake (KDeq DqPop)) else Return tt,
       upd (set_doneCount (add64 (doneCount g) 1)) w)
  | GWake k => let '(r, w) := wakeAll_step k w in (liftWake r, w)
  end.

(** ** Wait and WaitContext *)
Inductive waitpc :=
| VLoad | VCount | VNew | VLink (w : nat) | VSize (w : nat) | VRecheck (w : nat) | VCancel (w : nat)
| VWait (w : nat) | VGiveUp (w : nat) | VPut (w : nat).

Definition Wait_step (o : oracle) (p : waitpc) (w : world WaitGroup)
    : option (outcome waitpc bool * world WaitGroup) :=
  let g := prim w in
  match p with
  | VLoad => if counter g =? 0 then Some (Return true, w) else Some (Next VCount, w)
  | VCount => Some (Next VNew, upd (set_waitCount (add64 (waitCount g) 1)) w)
  | VNew => let '(x, s) := NewWaiter o (store w) in Some (Next (VLink x), withStore s w)
  | VLink x => Some (Next (VSize x), upd (set_waiters (Enqueue_link x (waiters g))) w)
  | VSize x => Some (Next (VRecheck x), upd (set_waiters (Enqueue_size (waiters g))) w)
  | VRecheck x => Some (Next (if counter g =? 0 then VCancel x else VWait x), w)
  | VCancel x => Some (Return true, withStore (cancelWaiter x (store w)) w)
  | VWait x => s ← Wait x (store w); Some (Next (VPut x), withStore s w)
  | VPut x => Some (Return true, withStore (putWaiter x (store w)) w)
  | VGiveUp _ => None
  end.

Definition WaitContext_step (c : nat) (o : oracle) (p : waitpc) (w : world WaitGroup)
    : option (outcome waitpc bool * world WaitGroup) :=
  match p with
  | VWait x =>
      '(signalled, s) ← WaitContext o (ctxDone c w) x (store w);
      Some (Next (if signalled : bool then VPut x else VGiveUp x), withStore s w)
  | VGiveUp x => Some (Return false, withStore (cancelWaiter x (store w)) w)
  | _ => Wait_step o p w
  end.

Definition GetCount (g : WaitGroup) : Z := counter g.

Record WaitGroupStats := mkWaitGroupStats {
  Count : Z; AddCount : Z; DoneCount : Z; WaitCount : Z; Age : Z
}.

Definition GetStats (now : Z) (g : WaitGroup) : WaitGroupStats :=
  mkWaitGroupStats (counter g) (addCount g) (doneCount g) (waitCount g) (now - createdAt g).

(** ** Goroutines *)
Inductive gop := OpAdd (delta : Z) | OpDone | OpWait | OpWaitContext (c : nat).

Inductive frame :=
| FIdle (r : option bool)
| FAdd (delta : Z) (p : addpc)
| FDone (p : addpc)
| FWait (p : waitpc)
| FWaitContext (c : nat) (p : waitpc)
| FPanic (msg : string).

Definition gcall (op : gop) (now : Z) (f : frame) : option frame :=
  match f with
  | FIdle _ =>
      Some (match op with
            | OpAdd d => FAdd d GCounter
            | OpDone => FDone GCounter
            | OpWait => FWait VLoad
            | OpWaitContext c => FWaitContext c VLoad
            end)
  | _ => None
  end.

Definition ended {P A} (k : P -> frame) (v : A -> option bool) (r : outcome P A) : frame :=
  match r with Next p => k p | Return a => FIdle (v a) | Panic e => FPanic e end.

Definition grun (o : oracle) (f : frame) (w : world WaitGroup) : option (frame * world WaitGroup) :=
  match f with
  | FIdle _ | FPanic _ => None
  | FAdd d p => let '(r, w) := Add_step d p w in Some (ended (FAdd d) (fun _ => None) r, w)
  | FDone p => let '(r, w) := Done_step p w in Some (ended FDone (fun _ => None) r, w)
  | FWait p => '(r, w) ← Wait_step o p w; Some (ended FWait Some r, w)
  | FWaitContext c p => '(r, w) ← WaitContext_step c o p w; Some (ended (FWaitContext c) Some r, w)
  end.

Definition waitgroup : machine (world WaitGroup) frame gop := Machine gcall grun cancelCtx.

Definition initial (k : nat) (now : Z) : config (Sh:=world WaitGroup) (Th:=frame) :=
  (World (NewWaitGroup now) emptyStore ∅, replicate k (FIdle None)).

(** * Invariants *)

Definition waitRole (p : waitpc) : role :=
  match p with
  | VLink w | VPut w => Role (OPriv w) HNone
  | VSize w | VRecheck w | VCancel w | VWait w | VGiveUp w => Role (OShared w) HNone
  | _ => idleRole
  end.

Definition addRole (p : addpc) : role :=
  match p with
  | GWake (KDeq d) => Role ONone (dqHand d)
  | GWake (KSignal w) => Role ONone (HSig w)
  | _ => idleRole
  end.

Definition roleOf (f : frame) : role :=
  match f with
  | FWait p | FWaitContext _ p => waitRole p
  | FAdd _ p | FDone p => addRole p
  | _ => idleRole
  end.

Definition protocol (c : world WaitGroup * list frame) : Prop :=
  WInv (roleOf <$> c.2) (items (waiters (prim c.1))) (store c.1).

Lemma wg_wake_protocol k w r w' rs t :
  wakeAll_step k w = (r, w') -> rs !! t = Some (addRole (GWake k)) ->
  WInv rs (items (waiters (prim w))) (store w) ->
  (forall e, r <> Panic e) /\
  WInv (<[t:=match r with Next k' => addRole (GWake k') | _ => idleRole end]> rs)
    (items (waiters (prim w'))) (store w').
Proof.
  intros Hk Ht H. destruct k as [d|x]; simpl in *.
  - destruct (Dequeue_step d (waiters (prim w)) (store w)) as [[r1 q1] s1] eqn:E.
    pose proof (WInv_dequeue1 _ _ _ _ _ _ _ _ _ H Ht E) as H'.
    pose proof (fun e => Dequeue_no_panic _ _ _ _ _ _ e E) as Hn.
    destruct r1 as [|[|]|e]; simplify_eq; simpl in *; split; auto; try done. exfalso. by eapply Hn.
  - simplify_eq. simpl. split; [done|]. by apply WInv_signal.
Qed.

Lemma wg_run_protocol o f w f' w' rs t :
  grun o f w = Some (f', w') -> rs !! t = Some (roleOf f) ->
  WInv rs (items (waiters (prim w))) (store w) ->
  WInv (<[t:=roleOf f']> rs) (items (waiters (prim w'))) (store w').
Proof.
  intros Hr Ht H. unfold grun in Hr.
  destruct f as [r|d p|p|p|c p|e]; [done| | | | |done]; destruct p; simpl in Hr; inv_step Hr;
    unfold ended, liftWake; simpl in *; eauto with sync;
    try match goal with
    | E : wakeAll_step _ _ = (?r, _) |- _ =>
        destruct (wg_wake_protocol _ _ _ _ _ _ E Ht H) as [Hn H']; destruct r; simpl in *; auto
    end.
Qed.

Lemma wg_protocol_call w fs t f f' op now :
  protocol (w, fs) -> fs !! t = Some f -> gcall op now f = Some f' -> protocol (w, <[t:=f']> fs).
Proof.
  unfold protocol. simpl. intros H Hl Hc. rewrite list_fmap_insert.
  replace (roleOf f') with (roleOf f); [apply WInv_same; [done|]; by rewrite list_lookup_fmap, Hl|].
  destruct f; try done. destruct op; by simplify_eq/=.
Qed.

Lemma wg_protocol_run w fs t f f' w' o :
  protocol (w, fs) -> fs !! t = Some f -> grun o f w = Some (f', w') -> protocol (w', <[t:=f']> fs).
Proof.
  unfold protocol. simpl. intros H Hl Hr. rewrite list_fmap_insert.
  eapply wg_run_protocol; eauto. by rewrite list_lookup_fmap, Hl.
Qed.

Lemma wg_protocol_initial k now : protocol (initial k now).
Proof. unfold protocol. simpl. rewrite fmap_replicate. apply WInv_init. Qed.

(** ** No waiter is forgotten *)

(** Split the program points of the waking loop, too. *)
Ltac split_wake :=
  try match goal with k : wakepc |- _ => destruct k end.
Ltac split_dq :=
  split_wake; try match goal with d : dqpc |- _ => destruct d end.

Definition waitingOn (f : frame) : option nat :=
  match f with FWait (VWait w) | FWaitContext _ (VWait w) => Some w | _ => None end.

Definition parked (s : wstore) (f : frame) : Prop :=
  exists w, waitingOn f = Some w /\ Ready (wget s w) = false.

(** A goroutine that has brought the counter to zero and not yet found the
    queue empty. *)
Definition waker (f : frame) : bool :=
  match f with
  | FAdd _ (GCount n) | FDone (GCount n) => n =? 0
  | FAdd _ (GWake _) | FDone (GWake _) => true
  | _ => false
  end.

Definition resting (s : wstore) (f : frame) : Prop :=
  parked s f \/ exists r, f = FIdle r.

Definition drains (c : world WaitGroup * list frame) : Prop :=
  counter (prim c.1) = 0 ->
  (exists t f, c.2 !! t = Some f /\ parked (store c.1) f) ->
  exists t f, c.2 !! t = Some f /\ waker f = true.

Lemma wg_run_tokens w fs t f f' w' o :
  protocol (w, fs) -> fs !! t = Some f -> grun o f w = Some (f', w') ->
  keepsTokens (roleOf <$> fs) t (store w) (store w').
Proof.
  intros Hp Hl Hr t0 h0 x Hne Hl0 Hx. unfold protocol in Hp. simpl in *.
  assert (Hl' : (roleOf <$> fs) !! t = Some (roleOf f)) by (by rewrite list_lookup_fmap, Hl).
  apply not_eq_sym in Hne. unfold grun in Hr.
  destruct f as [r|d p|p|p|c p|e]; [done| | | | |done]; destruct p; split_wake; simpl in Hr;
    inv_step Hr; simpl in *; eauto with sync.
Qed.

(** A waiter that left the queue is in the hands of a waker. *)
Lemma hand_is_waker r f x :
  roleOf f = r -> raw r = Some x \/ dead r = Some x \/ alive r = Some x -> waker f = true.
Proof.
  intros <-. destruct f as [?|d p|p|p|c p|?]; simpl; try (intros [?|[?|?]]; done);
    destruct p; split_wake; simpl; try done; intros [?|[?|?]]; done.
Qed.

Lemma emptied_drains w fs : protocol (w, fs) -> items (waiters (prim w)) = [] -> drains (w, fs).
Proof.
  intros Hp Hi _ (t & f & Hl & x & Hx & Hrd). unfold protocol in Hp. simpl in *.
  assert (roleOf f = Role (OShared x) HNone) as Er.
  { destruct f as [|d p|p|p|c p|]; try done; destruct p; simplify_eq/=; done. }
  assert (Hr : (roleOf <$> fs) !! t = Some (Role (OShared x) HNone)).
  { by rewrite list_lookup_fmap, Hl; simpl; rewrite Er. }
  destruct (WInv_parked _ _ _ _ _ _ Hp Hr Hrd) as [Hin|(t1 & r & Hr1 & Hh)].
  { rewrite Hi in Hin. by apply not_elem_of_nil in Hin. }
  rewrite list_lookup_fmap in Hr1. destruct (fs !! t1) as [f1|] eqn:Hl1; simplify_eq/=.
  exists t1, f1. split; [done|]. by eapply hand_is_waker.
Qed.

(** What a step of a goroutine that is no waker afterwards looks like. *)
Lemma wg_run_cases o f w f' w' :
  grun o f w = Some (f', w') -> waker f' = false ->
  counter (prim w') <> 0 \/
  (waker f = true /\ items (waiters (prim w')) = []) \/
  (waker f = false /\ counter (prim w') = counter (prim w) /\ waitingOn f' = None).
Proof.
  intros Hr Hw. unfold grun in Hr.
  destruct f as [r|d p|p|p|c p|e]; [done| | | | |done];
    destruct p; split_dq; simpl in Hr; inv_step Hr; simpl in *; bool_facts;
    try done; try tauto; try (left; simpl; lia); try (right; left; auto; fail);
    try (right; right; repeat split; auto; lia).
Qed.

Lemma drains_run w fs t f f' w' o :
  protocol (w, fs) -> drains (w, fs) -> fs !! t = Some f -> grun o f w = Some (f', w') ->
  drains (w', <[t:=f']> fs).
Proof.
  intros Hp Hd Hl Hr. pose proof (lookup_lt_Some _ _ _ Hl) as Hlt.
  destruct (waker f') eqn:Hw.
  { intros _ _. exists t, f'. split; [by apply list_lookup_insert_eq|done]. }
  destruct (wg_run_cases _ _ _ _ _ Hr Hw) as [Hc|[[_ Hi]|(Hf & Hc & Hn)]].
  - intros Hz. done.
  - apply emptied_drains; [by eapply wg_protocol_run|done].
  - intros Hz (t1 & f1 & Hl1 & x & Hx & Hrd). simpl in *.
    assert (t1 <> t) as Hne1.
    { intros ->. rewrite list_lookup_insert_eq in Hl1 by done. by simplify_eq. }
    rewrite list_lookup_insert_ne in Hl1 by done.
    destruct Hd as (t2 & f2 & Hl2 & Hw2); simpl; [lia| |].
    + exists t1, f1. split; [done|]. exists x. split; [done|].
      destruct (Ready (wget (store w) x)) eqn:E; [|done]. exfalso.
      assert (Hrole : (roleOf <$> fs) !! t1 = Some (Role (OShared x) HNone)).
      { rewrite list_lookup_fmap, Hl1. simpl. f_equal.
        destruct f1 as [|d p|p|p|c p|]; try done; destruct p; simplify_eq/=; done. }
      by rewrite (wg_run_tokens _ _ _ _ _ _ _ Hp Hl Hr t1 HNone x Hne1 Hrole E) in Hrd.
    + simpl in Hl2. exists t2, f2. split; [|done]. rewrite list_lookup_insert_ne; [done|]. intros ->. congruence.
Qed.

Lemma drains_call w fs t f f' op now :
  drains (w, fs) -> fs !! t = Some f -> gcall op now f = Some f' -> drains (w, <[t:=f']> fs).
Proof.
  intros Hd Hl Hc Hz (t1 & f1 & Hl1 & x & Hx & Hrd). pose proof (lookup_lt_Some _ _ _ Hl) as Hlt.
  assert (waitingOn f' = None /\ waker f = false) as [Hn Hf].
  { destruct f; try done. destruct op; by simplify_eq/=. }
  simpl in *. assert (t1 <> t).
  { intros ->. rewrite list_lookup_insert_eq in Hl1 by done. by simplify_eq. }
  rewrite list_lookup_insert_ne in Hl1 by done.
  destruct Hd as (t2 & f2 & Hl2 & Hw2); simpl; [done|by exists t1, f1; split; [|exists x]|].
  simpl in Hl2. exists t2, f2. split; [|done]. rewrite list_lookup_insert_ne; [done|]. intros ->. congruence.
Qed.

Lemma wg_reach_drains k now c :
  reach waitgroup any_label (initial k now) c -> protocol c /\ drains c.
Proof.
  apply (reach_invariant waitgroup any_label (fun c => protocol c /\ drains c)).
  - split; [apply wg_protocol_initial|].
    intros _ (t & f & [-> _]%lookup_replicate & x & ? & _). done.
  - intros w fs t f f' op now' [Hp Hd] _ Hl Hc.
    split; [by eapply wg_protocol_call|by eapply drains_call].
  - intros w fs t f f' w' o [Hp Hd] _ Hl Hr.
    split; [by eapply wg_protocol_run|by eapply drains_run].
  - done.
Qed.

(** C15: no waiter is forgotten.  Whatever the interleaving and the contexts
    that are cancelled, when no goroutine can move by itself and one is
    parked in [Wait] or [WaitContext], the counter is not zero. *)
Theorem waitgroup_no_lost_wakeup k now w fs t f :
  reach waitgroup any_label (initial k now) (w, fs) ->
  Forall (resting (store w)) fs -> fs !! t = Some f -> parked (store w) f ->
  GetCount (prim w) <> 0.
Proof.
  intros Hr Hrest Hl Hp Hz. apply wg_reach_drains in Hr as [_ Hr].
  destruct (Hr Hz (ex_intro _ t (ex_intro _ f (conj Hl Hp)))) as (t1 & f1 & Hl1 & Hw). simpl in *.
  destruct (Forall_lookup_1 _ _ _ _ Hrest Hl1) as [(x & Hx & _)|[r ->]]; [|done].
  destruct f1 as [|d p|p|p|c p|]; done.
Qed.

(** ** The counters *)

#[local] Open Scope sync_scope.

(** What the additions in progress have put into the counter but not yet into
    the statistics (modulo 2^32). *)
Definition pending (f : frame) : Z :=
  match f with
  | FAdd d (GCount _) => d
  | FDone (GCount _) => -1
  | _ => 0
  end.

Definition eq32 (a b : Z) : Prop := exists k, a = b + k * 4294967296.

Lemma wrap32_eq32 z : eq32 (wrap32 z) z.
Proof.
  unfold wrap32, eq32. exists (- ((z + 2147483648) / 4294967296)).
  pose proof (Z.div_mod (z + 2147483648) 4294967296 ltac:(lia)). lia.
Qed.

#[export] Instance eq32_equiv : Equivalence eq32.
Proof.
  split.
  - intros a. exists 0. lia.
  - intros a b [k ->]. exists (-k). lia.
  - intros a b c [k ->] [j ->]. exists (k + j). lia.
Qed.

#[export] Instance eq32_add : Proper (eq32 ==> eq32 ==> eq32) Z.add.
Proof. intros a b [k ->] c d [j ->]. exists (k + j). lia. Qed.

#[export] Instance eq32_sub : Proper (eq32 ==> eq32 ==> eq32) Z.sub.
Proof. intros a b [k ->] c d [j ->]. exists (k - j). lia. Qed.

Lemma add32_eq32 a b : eq32 (add32 a b) (a + b).
Proof. apply wrap32_eq32. Qed.

Lemma add64_eq32 a b : eq32 (add64 a b) (a + b).
Proof.
  destruct (add64_eq64 a b) as [k ->]. exists (k * 4294967296). lia.
Qed.

(** Nobody has panicked. *)
Definition alright (f : frame) : bool := match f with FPanic _ => false | _ => true end.

Definition counted (c : world WaitGroup * list frame) : Prop :=
  Forall (fun f => alright f = true) c.2 ->
  eq32 (counter (prim c.1)) (addCount (prim c.1) - doneCount (prim c.1) + sumf pending c.2).

Lemma run_counted o f w f' w' z :
  grun o f w = Some (f', w') -> alright f' = true ->
  eq32 (counter (prim w)) (addCount (prim w) - doneCount (prim w) + z) ->
  eq32 (counter (prim w')) (addCount (prim w') - doneCount (prim w') + (z - pending f + pending f')).
Proof.
  intros Hr Ha Hz. unfold grun in Hr.
  destruct f as [r|d p|p|p|c p|e]; [done| | | | |done];
    destruct p; split_wake; simpl in Hr; inv_step Hr; simpl in *; try done;
    rewrite ?add64_eq32, ?add32_eq32, ?wrap32_eq32, Hz;
    match goal with |- eq32 ?a ?b => replace b with a by lia; reflexivity end.
Qed.

Lemma wg_reach_counted k now c : reach waitgroup any_label (initial k now) c -> counted c.
Proof.
  apply reach_invariant; unfold counted; simpl.
  - intros _. rewrite sumf_replicate by done. reflexivity.
  - intros w fs t f f' op now' H _ Hl Hc Ha. rewrite (sumf_insert _ _ _ _ _ Hl).
    assert (pending f = 0 /\ pending f' = 0 /\ alright f = true) as (-> & -> & Hf).
    { destruct f; try done. destruct op; by simplify_eq/=. }
    rewrite Z.sub_0_r, Z.add_0_r. apply H.
    rewrite <- (list_insert_id fs t f Hl), <- (list_insert_insert_eq fs t f f').
    by apply Forall_insert.
  - intros w fs t f f' w' o H _ Hl Hr Ha. rewrite (sumf_insert _ _ _ _ _ Hl).
    assert (alright f' = true).
    { apply (Forall_lookup_1 _ _ t _ Ha). apply list_lookup_insert_eq. by eapply lookup_lt_Some. }
    eapply run_counted; eauto. apply H.
    rewrite <- (list_insert_id fs t f Hl), <- (list_insert_insert_eq fs t f f').
    apply Forall_insert; [done|]. by destruct f.
  - done.
Qed.

(** The counter and the statistics agree.  When no call is in progress
    and nobody has panicked, [Count] is [AddCount - DoneCount] modulo 2^32. *)
Theorem waitgroup_stats k now w fs t :
  reach waitgroup any_label (initial k now) (w, fs) ->
  Forall (fun f => exists r, f = FIdle r) fs ->
  let st := GetStats t (prim w) in eq32 (Count st) (AddCount st - DoneCount st).
Proof.
  intros Hr Hi. apply wg_reach_counted in Hr. unfold counted in Hr. simpl in *. rewrite Hr.
  - rewrite sumf_zero; [by rewrite Z.add_0_r|].
    intros i f Hl. by destruct (Forall_lookup_1 _ _ _ _ Hi Hl) as [r ->].
  - eapply Forall_impl; [exact Hi|]. by intros f [r ->].
Qed.

(** T1 waits for a counter of one. *)
Definition oneTask : list (label gop) :=
  Call 0 (OpAdd 1) 0 :: runs 0 2 ++ Call 1 OpWait 0 :: runs 1 6.

#[export] Instance wg_parked_dec s f : Decision (parked s f).
Proof.
  unfold parked. destruct (waitingOn f) as [w|]; [|right; by intros (? & ? & _)].
  destruct (Ready (wget s w)) eqn:E; [right; intros (? & ? & ?); congruence|left; eauto].
Defined.

#[export] Instance wg_resting_dec s f : Decision (resting s f).
Proof.
  unfold resting. destruct (decide (parked s f)) as [?|Hn]; [left; by left|].
  destruct f eqn:E; try (right; intros [?|[? ?]]; [done|congruence]). left. eauto.
Defined.

Lemma waitgroup_no_lost_wakeup_witness :
  GetCount (prim (after waitgroup oneTask (initial 2 0)).1) <> 0.
Proof.
  apply (waitgroup_no_lost_wakeup 2 0 _ (after waitgroup oneTask (initial 2 0)).2 1 (FWait (VWait 0)));
    [|by_decide|by_eval|by_decide].
  apply after_reach; [apply Forall_any|by_eval].
Defined.

Definition addTwice : list (label gop) :=
  Call 0 (OpAdd 2) 0 :: runs 0 2 ++ Call 1 OpDone 0 :: runs 1 2.

Lemma waitgroup_stats_witness :
  let st := GetStats 9 (prim (after waitgroup addTwice (initial 2 0)).1) in
  eq32 (Count st) (AddCount st - DoneCount st).
Proof.
  apply (waitgroup_stats 2 0 _ (after waitgroup addTwice (initial 2 0)).2 9).
  - apply after_reach; [apply Forall_any|by_eval].
  - apply Forall_lookup. intros [|[|t]] th E; [..|by vm_compute in E];
      eexists; vm_compute in E; injection E as <-; reflexivity.
Defined.

(** T0 adds one task, T1 finishes it and is about to drain the queue when T0,
    whose first [Wait] would return at once, adds the next task and waits. *)
Definition reuse : list (label gop) :=
  Call 0 (OpAdd 1) 0 :: runs 0 2 ++ Call 1 OpDone 0 :: runs 1 2 ++
  Call 0 (OpAdd 1) 0 :: runs 0 2.

(** [Wait] of T0 from its call to its return, with T1 waking it meanwhile. *)
Definition reuseWait : list (label gop) :=
  Call 0 OpWait 0 :: runs 0 6 ++ runs 1 4 ++ runs 0 2.

(** A WaitGroup that is reused at once may release a waiter too early.
    [Wait] does not look at the counter again after the wake-up: in the
    execution [reuse ++ reuseWait] the counter is 1 from before the call of
    [Wait] to after its return. *)
Theorem reuse_wakes_early :
  exists c1, execs waitgroup reuse (initial 2 0) = Some c1 /\ GetCount (prim c1.1) = 1 /\
    (forall n c, execs waitgroup (take n reuseWait) c1 = Some c -> GetCount (prim c.1) = 1) /\
    exists c2, execs waitgroup reuseWait c1 = Some c2 /\ c2.2 !! 0%nat = Some (FIdle (Some true)).
Proof.
  eexists. split; [vm_compute; reflexivity|]. split; [reflexivity|]. split.
  - intros n c. destruct (decide (n < 14)%nat) as [Hn|Hn].
    + do 14 (destruct n as [|n]; [vm_compute; intros [= <-]; reflexivity|]). lia.
    + rewrite take_ge by (simpl; lia). vm_compute. by intros [= <-].
  - eexists. split; [vm_compute; reflexivity|reflexivity].
Qed.
