(* ===== verification/Barrier.v ===== *)
(** * Barrier (internal/primitives/barrier.go)

    A cyclic barrier: a count of arrived goroutines, a generation number that
    the last one to arrive advances, and a queue of parked goroutines that it
    then drains.  [Break] and [Reset] drain the queue, too. *)

From Stdlib Require Import ZArith Lia.
From stdpp Require Import base list gmap strings.
From S2P Require Import Prelude Waiter Parking.

#[local] Open Scope Z_scope.

Record Barrier := mkBarrier {
  parties : Z;               (* int32 *)
  arrived : Z;               (* atomic.Int32 *)
  generation : Z;            (* atomic.Int64 *)
  waiters : WaiterQueue;
  broken : bool;
  trips : Z;
  totalWaitTime : Z;
  createdAt : Z
}.

(** [None] is the panic "barrier: parties must be positive". *)
Definition NewBarrier (n now : Z) : option Barrier :=
  if n <=? 0 then None else Some (mkBarrier n 0 0 NewWaiterQueue false 0 0 now).

Definition set_arrived v b := mkBarrier (parties b) v (generation b) (waiters b) (broken b) (trips b) (totalWaitTime b) (createdAt b).
Definition set_generation v b := mkBarrier (parties b) (arrived b) v (waiters b) (broken b) (trips b) (totalWaitTime b) (createdAt b).
Definition set_waiters v b := mkBarrier (parties b) (arrived b) (generation b) v (broken b) (trips b) (totalWaitTime b) (createdAt b).
Definition set_broken v b := mkBarrier (parties b) (arrived b) (generation b) (waiters b) v (trips b) (totalWaitTime b) (createdAt b).
Definition set_trips v b := mkBarrier (parties b) (arrived b) (generation b) (waiters b) (broken b) v (totalWaitTime b) (createdAt b).
Definition set_totalWaitTime v b := mkBarrier (parties b) (arrived b) (generation b) (waiters b) (broken b) (trips b) v (createdAt b).

Definition upd (f : Barrier -> Barrier) (w : world Barrier) : world Barrier := withPrim (f (prim w)) w.

(** ** wakeAll, the drain loop that [Break] and [Reset] repeat *)
Inductive wakepc := KDeq (d : dqpc) | KSignal (w : nat).

Definition wakeAll_step (p : wakepc) (w : world Barrier) : outcome wakepc unit * world Barrier :=
  match p with
  | KDeq d =>
      let '(r, q, s) := Dequeue_step d (waiters (prim w)) (store w) in
      (match r with
       | Next d' => Next (KDeq d')
       | Return (Some x) => Next (KSignal x)
       | Return None => Return tt
       | Panic e => Panic e
       end, withStore s (upd (set_waiters q) w))
  | KSignal x => (Next (KDeq DqPop), withStore (Signal x (store w)) w)
  end.

(** ** Wait

    The program points, in the order of the source, with the local variables
    [g] (generation), [a] (arrived) and the waiter [w].  [BUndo]/[BUndoCas]
    are the loop that takes an over-subscribed arrival back, [BTrips],
    [BZero], [BTrip], [BWake] what the last party does, [BRecheck] the test
    of the generation after the enqueue, [BBroken2] and [BGen2] the tests
    after the wake-up.  [BSame], [BBack], [BBackCas], [BDrop] are what a
    timed-out or cancelled wait does ([w] is [None] when the waiter has
    already been cancelled). *)
Inductive bpc :=
| BBroken | BGen | BArrive (g : Z)
| BUndo (a : Z) | BUndoCas (a cur : Z)
| BTrips (a : Z) | BZero (a : Z) | BTrip (a : Z) | BWake (a : Z) (k : wakepc)
| BNew (g a : Z) | BLink (g a : Z) (w : nat) | BSize (g a : Z) (w : nat) | BRecheck (g a : Z) (w : nat)
| BCancel (a : Z) (w : nat) | BTotal (a : Z)
| BWait (g a : Z) (w : nat) | BPut (g a : Z) (w : nat) | BBroken2 (g a : Z) | BGen2 (g a : Z)
| BGiveUp (g : Z) (w : nat) | BSame (g : Z) (w : option nat)
| BBack (w : option nat) | BBackCas (w : option nat) (cur : Z) | BDrop (w : nat).

(** What a call returns besides the index: nil (or true), [ErrBarrierBroken],
    the error of the context, [context.DeadlineExceeded], or false. *)
Inductive berr := ENil | EBroken | ECtx | EDeadline | EFalse.

Definition Wait_step (start : Z) (o : oracle) (p : bpc) (w : world Barrier)
    : option (outcome bpc (Z * berr) * world Barrier) :=
  let b := prim w in
  match p with
  | BBroken => if broken b then Some (Return (-1, EBroken), w) else Some (Next BGen, w)
  | BGen => Some (Next (BArrive (generation b)), w)
  | BArrive g =>
      let a := add32 (arrived b) 1 in
      Some (Next (if parties b <? a then BUndo a else if a =? parties b then BTrips a else BNew g a),
            upd (set_arrived a) w)
  | BUndo a =>
      if arrived b <=? 0 then Some (Return (a - 1, ENil), w)
      else Some (Next (BUndoCas a (arrived b)), w)
  | BUndoCas a cur =>
      if arrived b =? cur then Some (Return (a - 1, ENil), upd (set_arrived (add32 cur (-1))) w)
      else Some (Next (BUndo a), w)
  | BTrips a => Some (Next (BZero a), upd (set_trips (add64 (trips b) 1)) w)
  | BZero a => Some (Next (BTrip a), upd (set_arrived 0) w)
  | BTrip a => Some (Next (BWake a (KDeq DqPop)), upd (set_generation (add64 (generation b) 1)) w)
  | BWake a k =>
      let '(r, w) := wakeAll_step k w in
      Some (match r with
            | Next k => Next (BWake a k) | Return _ => Return (a - 1, ENil) | Panic e => Panic e
            end, w)
  | BNew g a => let '(x, s) := NewWaiter o (store w) in Some (Next (BLink g a x), withStore s w)
  | BLink g a x => Some (Next (BSize g a x), upd (set_waiters (Enqueue_link x (waiters b))) w)
  | BSize g a x => Some (Next (BRecheck g a x), upd (set_waiters (Enqueue_size (waiters b))) w)
  | BRecheck g a x => Some (Next (if g <? generation b then BCancel a x else BWait g a x), w)
  | BCancel a x => Some (Next (BTotal a), withStore (cancelWaiter x (store w)) w)
  | BTotal a =>
      Some (Return (a - 1, ENil), upd (set_totalWaitTime (add64 (totalWaitTime b) (clk o - start))) w)
  | BWait g a x => s ← Wait x (store w); Some (Next (BPut g a x), withStore s w)
  | BPut g a x => Some (Next (BBroken2 g a), withStore (putWaiter x (store w)) w)
  | BBroken2 g a => if broken b then Some (Return (-1, EBroken), w) else Some (Next (BGen2 g a), w)
  | BGen2 g a => Some (if g <? generation b then Next (BTotal a) else Return (a - 1, ENil), w)
  | BGiveUp _ _ | BSame _ _ | BBack _ | BBackCas _ _ | BDrop _ => None
  end.

(** The loop that takes an arrival back after a timeout or a cancellation;
    [fin] is what the method does after it. *)
Definition undo_step (fin : option nat -> outcome bpc (Z * berr)) (p : bpc) (w : world Barrier)
    : option (outcome bpc (Z * berr) * world Barrier) :=
  let b := prim w in
  match p with
  | BSame g x => Some (if generation b =? g then Next (BBack x) else fin x, w)
  | BBack x => Some (if arrived b <=? 0 then fin x else Next (BBackCas x (arrived b)), w)
  | BBackCas x cur =>
      if arrived b =? cur then Some (fin x, upd (set_arrived (add32 cur (-1))) w)
      else Some (Next (BBack x), w)
  | _ => None
  end.

Definition afterTimeout (x : option nat) : outcome bpc (Z * berr) :=
  match x with Some w => Next (BDrop w) | None => Return (-1, EFalse) end.

Definition WaitTimeout_step (start : Z) (o : oracle) (p : bpc) (w : world Barrier)
    : option (outcome bpc (Z * berr) * world Barrier) :=
  let b := prim w in
  match p with
  | BBroken => if broken b then Some (Return (-1, EFalse), w) else Some (Next BGen, w)
  | BUndo a =>
      if arrived b <=? 0 then Some (Return (-1, EFalse), w)
      else Some (Next (BUndoCas a (arrived b)), w)
  | BUndoCas a cur =>
      if arrived b =? cur then Some (Return (-1, EFalse), upd (set_arrived (add32 cur (-1))) w)
      else Some (Next (BUndo a), w)
  | BWait g a x =>
      '(signalled, s) ← WaitTimeout o x (store w);
      Some (Next (if signalled : bool then BPut g a x else BSame g (Some x)), withStore s w)
  | BSame _ _ | BBack _ | BBackCas _ _ => undo_step afterTimeout p w
  | BDrop x => Some (Return (-1, EFalse), withStore (cancelWaiter x (store w)) w)
  | BBroken2 g a => if broken b then Some (Return (-1, EFalse), w) else Some (Next (BGen2 g a), w)
  | BGen2 g a => Some (if g <? generation b then Next (BTotal a) else Return (-1, EFalse), w)
  | _ => Wait_step start o p w
  end.

Definition WaitContext_step (c : nat) (start : Z) (o : oracle) (p : bpc) (w : world Barrier)
    : option (outcome bpc (Z * berr) * world Barrier) :=
  let b := prim w in
  match p with
  | BUndo a =>
      if arrived b <=? 0 then Some (Return (-1, EDeadline), w)
      else Some (Next (BUndoCas a (arrived b)), w)
  | BUndoCas a cur =>
      if arrived b =? cur then Some (Return (-1, EDeadline), upd (set_arrived (add32 cur (-1))) w)
      else Some (Next (BUndo a), w)
  | BWait g a x =>
      '(signalled, s) ← WaitContext o (ctxDone c w) x (store w);
      Some (Next (if signalled : bool then BPut g a x else BGiveUp g x), withStore s w)
  | BGiveUp g x => Some (Next (BSame g None), withStore (cancelWaiter x (store w)) w)
  | BSame _ _ | BBack _ | BBackCas _ _ => undo_step (fun _ => Return (-1, ECtx)) p w
  | _ => Wait_step start o p w
  end.

(** ** Break and Reset *)
Inductive drainpc := NBroken | NArrived | NGeneration | NDrain (k : wakepc).

Definition drain (r : outcome wakepc unit) : outcome drainpc unit :=
  match r with Next k => Next (NDrain k) | Return u => Return u | Panic e => Panic e end.

Definition Break_step (p : drainpc) (w : world Barrier) : option (outcome drainpc unit * world Barrier) :=
  match p with
  | NBroken => Some (Next (NDrain (KDeq DqPop)), upd (set_broken true) w)
  | NDrain k => let '(r, w) := wakeAll_step k w in Some (drain r, w)
  | NArrived | NGeneration => None
  end.

Definition Reset_step (p : drainpc) (w : world Barrier) : option (outcome drainpc unit * world Barrier) :=
  match p with
  | NBroken => Some (Next NArrived, upd (set_broken false) w)
  | NArrived => Some (Next NGeneration, upd (set_arrived 0) w)
  | NGeneration =>
      Some (Next (NDrain (KDeq DqPop)), upd (set_generation (add64 (generation (prim w)) 1)) w)
  | NDrain k => let '(r, w) := wakeAll_step k w in Some (drain r, w)
  end.

Definition IsBroken (b : Barrier) : bool := broken b.
Definition GetParties (b : Barrier) : Z := parties b.
Definition GetArrived (b : Barrier) : Z := arrived b.
Definition GetGeneration (b : Barrier) : Z := generation b.

Record BarrierStats := mkBarrierStats {
  Parties : Z; Arrived : Z; Generation : Z; Trips : Z; TotalWaitTimeNs : Z; WaitersQueued : Z; Age : Z
}.

Definition GetStats (now : Z) (b : Barrier) : BarrierStats :=
  mkBarrierStats (parties b) (arrived b) (generation b) (trips b) (totalWaitTime b)
    (Size (waiters b)) (now - createdAt b).

(** ** Goroutines *)
Inductive bop := OpWait | OpWaitTimeout | OpWaitContext (c : nat) | OpBreak | OpReset.

Inductive frame :=
| FIdle (r : option (Z * berr))
| FWait (start : Z) (p : bpc)
| FWaitTimeout (start : Z) (p : bpc)
| FWaitContext (c : nat) (start : Z) (p : bpc)
| FBreak (p : drainpc)
| FReset (p : drainpc)
| FPanic (msg : string).

Definition bcall (op : bop) (now : Z) (f : frame) : option frame :=
  match f with
  | FIdle _ =>
      Some (match op with
            | OpWait => FWait now BBroken
            | OpWaitTimeout => FWaitTimeout now BBroken
            | OpWaitContext c => FWaitContext c now BBroken
            | OpBreak => FBreak NBroken
            | OpReset => FReset NBroken
            end)
  | _ => None
  end.

Definition ended {Q A} (k : Q -> frame) (v : A -> option (Z * berr)) (r : outcome Q A) : frame :=
  match r with Next p => k p | Return a => FIdle (v a) | Panic e => FPanic e end.

Definition brun (o : oracle) (f : frame) (w : world Barrier) : option (frame * world Barrier) :=
  match f with
  | FIdle _ | FPanic _ => None
  | FWait st p => '(r, w) ← Wait_step st o p w; Some (ended (FWait st) Some r, w)
  | FWaitTimeout st p => '(r, w) ← WaitTimeout_step st o p w; Some (ended (FWaitTimeout st) Some r, w)
  | FWaitContext c st p =>
      '(r, w) ← WaitContext_step c st o p w; Some (ended (FWaitContext c st) Some r, w)
  | FBreak p => '(r, w) ← Break_step p w; Some (ended FBreak (fun _ => None) r, w)
  | FReset p => '(r, w) ← Reset_step p w; Some (ended FReset (fun _ => None) r, w)
  end.

Definition barrier : machine (world Barrier) frame bop := Machine bcall brun cancelCtx.

Definition initial (k : nat) (b : Barrier) : config (Sh:=world Barrier) (Th:=frame) :=
  (World b emptyStore ∅, replicate k (FIdle None)).

(** * Invariants *)

Definition bRole (p : bpc) : role :=
  match p with
  | BLink _ _ w | BPut _ _ w => Role (OPriv w) HNone
  | BSize _ _ w | BRecheck _ _ w | BCancel _ w | BWait _ _ w | BGiveUp _ w
  | BSame _ (Some w) | BBack (Some w) | BBackCas (Some w) _ | BDrop w => Role (OShared w) HNone
  | BWake _ (KDeq d) => Role ONone (dqHand d)
  | BWake _ (KSignal w) => Role ONone (HSig w)
  | _ => idleRole
  end.

Definition dRole (p : drainpc) : role :=
  match p with
  | NDrain (KDeq d) => Role ONone (dqHand d)
  | NDrain (KSignal w) => Role ONone (HSig w)
  | _ => idleRole
  end.

Definition roleOf (f : frame) : role :=
  match f with
  | FWait _ p | FWaitTimeout _ p | FWaitContext _ _ p => bRole p
  | FBreak p | FReset p => dRole p
  | _ => idleRole
  end.

Definition protocol (c : world Barrier * list frame) : Prop :=
  WInv (roleOf <$> c.2) (items (waiters (prim c.1))) (store c.1).

Definition kRole (k : wakepc) : role :=
  match k with KDeq d => Role ONone (dqHand d) | KSignal w => Role ONone (HSig w) end.

Lemma bar_wake_protocol k w r w' rs t :
  wakeAll_step k w = (r, w') -> rs !! t = Some (kRole k) ->
  WInv rs (items (waiters (prim w))) (store w) ->
  (forall e, r <> Panic e) /\
  WInv (<[t:=match r with Next k' => kRole k' | _ => idleRole end]> rs)
    (items (waiters (prim w'))) (store w').
Proof.
  intros Hk Ht H. destruct k as [d|x]; simpl in *.
  - destruct (Dequeue_step d (waiters (prim w)) (store w)) as [[r1 q1] s1] eqn:E.
    pose proof (WInv_dequeue1 _ _ _ _ _ _ _ _ _ H Ht E) as H'.
    pose proof (fun e => Dequeue_no_panic _ _ _ _ _ _ e E) as Hn.
    destruct r1 as [|[|]|e]; simplify_eq; simpl in *; split; auto; try done. exfalso. by eapply Hn.
  - simplify_eq. simpl. split; [done|]. by apply WInv_signal.
Qed.

Lemma bRole_wake a k : bRole (BWake a k) = kRole k.
Proof. by destruct k. Qed.
Lemma dRole_drain k : dRole (NDrain k) = kRole k.
Proof. by destruct k. Qed.

(** What the local variables satisfy; [P] is the number of parties. *)
Definition bOk (P gen : Z) (p : bpc) : Prop :=
  match p with
  | BBroken | BGen => True
  | BArrive g => 0 <= g <= gen
  | BUndo a => P < a
  | BUndoCas a cur => P < a /\ 0 < cur
  | BTrips a | BZero a | BTrip a | BWake a _ => a = P
  | BNew g a | BLink g a _ | BSize g a _ | BRecheck g a _ | BWait g a _ | BPut g a _
  | BBroken2 g a | BGen2 g a => 0 <= g <= gen /\ 1 <= a < P
  | BCancel a _ | BTotal a => 1 <= a < P
  | BGiveUp g _ | BSame g _ => 0 <= g <= gen
  | BBackCas _ cur => 0 < cur
  | BBack _ | BDrop _ => True
  end.

Definition wellFormed (P gen : Z) (f : frame) : Prop :=
  match f with
  | FIdle None => True
  | FIdle (Some (i, ENil)) => 0 <= i
  | FIdle (Some (i, _)) => i = -1
  | FWait _ p => bOk P gen p
  | FWaitTimeout _ p => bOk P gen p
  | FWaitContext _ _ p =>
      bOk P gen p /\ match p with BSame _ (Some _) | BBack (Some _) | BBackCas (Some _) _ => False | _ => True end
  | FBreak _ | FReset _ => True
  | FPanic _ => False
  end.

(** The goroutines that are taking an over-subscribed arrival back. *)
Definition undoing (f : frame) : Z :=
  match f with
  | FWait _ (BUndo _ | BUndoCas _ _) | FWaitTimeout _ (BUndo _ | BUndoCas _ _)
  | FWaitContext _ _ (BUndo _ | BUndoCas _ _) => 1
  | _ => 0
  end.

Lemma undoing_bound f : 0 <= undoing f <= 1.
Proof. destruct f as [|st p|st p|c st p|p|p|]; simpl; try lia; destruct p; simpl; lia. Qed.

Lemma bar_run_protocol o f w f' w' rs t P gen :
  wellFormed P gen f -> brun o f w = Some (f', w') -> rs !! t = Some (roleOf f) ->
  WInv rs (items (waiters (prim w))) (store w) ->
  WInv (<[t:=roleOf f']> rs) (items (waiters (prim w'))) (store w').
Proof.
  intros Hwf Hr Ht H. unfold brun in Hr.
  destruct f as [r|st p|st p|c st p|p|p|e]; [done| | | | | |done]; destruct p;
    try match goal with x : option nat |- _ => destruct x; simpl in Hwf; try (by destruct Hwf) end;
    simpl in Hr; unfold afterTimeout in Hr; inv_step Hr; unfold ended, drain; simpl in *; eauto with sync;
    try match goal with
    | E : wakeAll_step _ _ = (?r, _) |- _ =>
        destruct (bar_wake_protocol _ _ _ _ _ _ E Ht H) as [Hn H']; destruct r; simpl in *; auto
    end;
    repeat case_match; simpl; eauto with sync.
Qed.

Lemma wakeAll_keeps k w r w' :
  wakeAll_step k w = (r, w') ->
  parties (prim w') = parties (prim w) /\ arrived (prim w') = arrived (prim w) /\
  generation (prim w') = generation (prim w) /\ forall e, r <> Panic e.
Proof.
  destruct k as [d|x]; simpl; intros H; [|by simplify_eq].
  destruct (Dequeue_step d (waiters (prim w)) (store w)) as [[r1 q1] s1] eqn:E.
  pose proof (fun e => Dequeue_no_panic _ _ _ _ _ _ e E) as Hn.
  destruct r1 as [|[|]|e]; simplify_eq; simpl; repeat split; auto. exfalso. by eapply Hn.
Qed.

(** Every step keeps the count of arrivals in range and the generation
    growing; no step panics. *)
Lemma bar_run_state o f w f' w' P U :
  wellFormed P (generation (prim w)) f -> brun o f w = Some (f', w') ->
  parties (prim w) = P -> 0 < P -> 0 <= generation (prim w) < 9223372036854775807 ->
  0 <= arrived (prim w) <= P + U -> P + U < MaxInt32 -> undoing f <= U ->
  parties (prim w') = P /\
  generation (prim w) <= generation (prim w') <= generation (prim w) + 1 /\
  0 <= arrived (prim w') <= P + (U - undoing f + undoing f') /\
  wellFormed P (generation (prim w')) f'.
Proof.
  intros Hwf Hr HP Hpos Hg Ha HU Hu. unfold brun, MaxInt32 in *.
  destruct f as [r|st p|st p|c st p|p|p|e]; [done| | | | | |done]; destruct p;
    try match goal with x : option nat |- _ => destruct x; simpl in Hwf; try (by destruct Hwf) end;
    simpl in Hr; unfold afterTimeout in Hr; inv_step Hr; unfold ended, drain; simpl in *; bool_facts;
    try match goal with
    | E : wakeAll_step _ _ = (?r, _) |- _ =>
        destruct (wakeAll_keeps _ _ _ _ E) as (-> & -> & -> & Hn); try (is_var r; destruct r); simpl in *;
        try (exfalso; by eapply Hn)
    end;
    repeat match goal with |- context [if ?b then _ else _] => destruct b eqn:?; simpl in *; bool_facts end;
    repeat match goal with
    | |- context [add32 ?c ?n] => rewrite (add32_id c n) in * by (unfold int32_range; lia)
    | |- context [add64 ?c ?n] => rewrite (add64_id c n) in * by (unfold int64_range; lia)
    | H : context [add32 ?c ?n] |- _ => rewrite (add32_id c n) in * by (unfold int32_range; lia)
    end; simpl in *;
    repeat match goal with |- _ /\ _ => split end; auto; try lia.
Qed.

(** ** Parked goroutines and those that wake them *)

(** The generation a parked goroutine has captured, and its waiter. *)
Definition waitingOn (f : frame) : option (Z * nat) :=
  match f with
  | FWait _ (BWait g _ w) | FWaitTimeout _ (BWait g _ w) | FWaitContext _ _ (BWait g _ w) => Some (g, w)
  | _ => None
  end.

Definition parked (s : wstore) (g : Z) (f : frame) : Prop :=
  exists w, waitingOn f = Some (g, w) /\ Ready (wget s w) = false.

Definition waker (f : frame) : bool :=
  match f with
  | FWait _ (BWake _ _) | FWaitTimeout _ (BWake _ _) | FWaitContext _ _ (BWake _ _)
  | FBreak (NDrain _) | FReset (NDrain _) => true
  | _ => false
  end.

Definition resting (s : wstore) (f : frame) : Prop :=
  (exists g, parked s g f) \/ exists r, f = FIdle r.

(** While somebody is parked in a generation that is over, the queue is being
    drained. *)
Definition drains (c : world Barrier * list frame) : Prop :=
  (exists t f g, c.2 !! t = Some f /\ parked (store c.1) g f /\ g < generation (prim c.1)) ->
  exists t f, c.2 !! t = Some f /\ waker f = true.

Lemma bar_waiting_role f g x : waitingOn f = Some (g, x) -> roleOf f = Role (OShared x) HNone.
Proof.
  destruct f as [r|st p|st p|c st p|p|p|e]; try done; destruct p; simpl; intros; by simplify_eq.
Qed.

Lemma bar_run_tokens w fs t f f' w' o :
  protocol (w, fs) -> fs !! t = Some f -> brun o f w = Some (f', w') ->
  keepsTokens (roleOf <$> fs) t (store w) (store w').
Proof.
  intros Hp Hl Hr t0 h0 x Hne Hl0 Hx. unfold protocol in Hp. simpl in *.
  assert (Hl' : (roleOf <$> fs) !! t = Some (roleOf f)) by (by rewrite list_lookup_fmap, Hl).
  apply not_eq_sym in Hne. unfold brun in Hr.
  destruct f as [r|st p|st p|c st p|p|p|e]; [done| | | | | |done]; destruct p;
    try match goal with y : option nat |- _ => destruct y end;
    try match goal with k : wakepc |- _ => destruct k end;
    simpl in Hr; unfold afterTimeout in Hr; inv_step Hr; simpl in *; eauto with sync.
Qed.

Lemma bar_hand_is_waker f x :
  raw (roleOf f) = Some x \/ dead (roleOf f) = Some x \/ alive (roleOf f) = Some x -> waker f = true.
Proof.
  destruct f as [r|st p|st p|c st p|p|p|e]; simpl; try (intros [?|[?|?]]; done);
    destruct p; try match goal with y : option nat |- _ => destruct y end;
    try match goal with k : wakepc |- _ => destruct k end;
    simpl; try done; intros [?|[?|?]]; done.
Qed.

Lemma bar_emptied w fs : protocol (w, fs) -> items (waiters (prim w)) = [] -> drains (w, fs).
Proof.
  intros Hp Hi (t & f & g & Hl & (x & Hx & Hrd) & _). unfold protocol in Hp. simpl in *.
  assert (Hr : (roleOf <$> fs) !! t = Some (Role (OShared x) HNone)).
  { rewrite list_lookup_fmap, Hl. simpl. by rewrite (bar_waiting_role _ _ _ Hx). }
  destruct (WInv_parked _ _ _ _ _ _ Hp Hr Hrd) as [Hin|(t1 & r & Hr1 & Hh)].
  { rewrite Hi in Hin. by apply not_elem_of_nil in Hin. }
  rewrite list_lookup_fmap in Hr1. destruct (fs !! t1) as [f1|] eqn:Hl1; simplify_eq/=.
  exists t1, f1. split; [done|]. by eapply bar_hand_is_waker.
Qed.

Lemma bar_run_cases o f w f' w' :
  brun o f w = Some (f', w') -> waker f' = false ->
  (waker f = true /\ items (waiters (prim w')) = []) \/
  (waker f = false /\ generation (prim w') = generation (prim w) /\
   forall g x, waitingOn f' = Some (g, x) -> generation (prim w') <= g).
Proof.
  intros Hr Hw. unfold brun in Hr.
  destruct f as [r|st p|st p|c st p|p|p|e]; [done| | | | | |done]; destruct p;
    try match goal with y : option nat |- _ => destruct y end;
    try match goal with k : wakepc |- _ => destruct k end;
    try match goal with d : dqpc |- _ => destruct d end;
    simpl in Hr; unfold afterTimeout in Hr; inv_step Hr; simpl in *; bool_facts;
    try done; try (left; split; [done|assumption]);
    right; split; try done; split; try done; intros g0 x0 Hx; simplify_eq; lia.
Qed.

Lemma bar_drains_run w fs t f f' w' o :
  protocol (w, fs) -> protocol (w', <[t:=f']> fs) -> drains (w, fs) ->
  fs !! t = Some f -> brun o f w = Some (f', w') -> drains (w', <[t:=f']> fs).
Proof.
  intros Hp Hp' Hd Hl Hr. pose proof (lookup_lt_Some _ _ _ Hl) as Hlt.
  destruct (waker f') eqn:Hw.
  { intros _. exists t, f'. split; [by apply list_lookup_insert_eq|done]. }
  destruct (bar_run_cases _ _ _ _ _ Hr Hw) as [[_ Hi]|(Hf & Hc & Hn)].
  - by apply bar_emptied.
  - intros (t1 & f1 & g & Hl1 & (x & Hx & Hrd) & Hg). simpl in *.
    assert (t1 <> t) as Hne1.
    { intros ->. rewrite list_lookup_insert_eq in Hl1 by done. simplify_eq.
      specialize (Hn g x Hx). lia. }
    rewrite list_lookup_insert_ne in Hl1 by done.
    destruct Hd as (t2 & f2 & Hl2 & Hw2).
    + exists t1, f1, g. simpl. split; [done|]. split; [|lia]. exists x. split; [done|].
      destruct (Ready (wget (store w) x)) eqn:E; [|done]. exfalso.
      assert (Hrole : (roleOf <$> fs) !! t1 = Some (Role (OShared x) HNone)).
      { rewrite list_lookup_fmap, Hl1. simpl. by rewrite (bar_waiting_role _ _ _ Hx). }
      by rewrite (bar_run_tokens _ _ _ _ _ _ _ Hp Hl Hr t1 HNone x Hne1 Hrole E) in Hrd.
    + simpl in Hl2. exists t2, f2. split; [|done]. rewrite list_lookup_insert_ne; [done|].
      intros ->. congruence.
Qed.

(** The invariant after [n] steps of [k] goroutines on a barrier for [P]
    parties. *)
Record Inv (P : Z) (k n : nat) (c : world Barrier * list frame) : Prop := {
  inv_parties : parties (prim c.1) = P;
  inv_generation : 0 <= generation (prim c.1) <= Z.of_nat n;
  inv_arrived : 0 <= arrived (prim c.1) <= P + sumf undoing c.2;
  inv_length : length c.2 = k;
  inv_threads : Forall (wellFormed P (generation (prim c.1))) c.2;
  inv_protocol : protocol c;
  inv_drains : drains c
}.

Lemma bOk_mono P g g' p : g <= g' -> bOk P g p -> bOk P g' p.
Proof. intros. destruct p; simpl in *; lia. Qed.

Lemma wellFormed_mono P g g' f : g <= g' -> wellFormed P g f -> wellFormed P g' f.
Proof.
  intros Hg. destruct f as [r|st p|st p|c st p|p|p|e]; simpl; try done; [by apply bOk_mono..|].
  intros [H ?]. split; [by eapply bOk_mono|done].
Qed.

Lemma bar_call_state P gen op now f f' :
  bcall op now f = Some f' -> wellFormed P gen f ->
  roleOf f' = roleOf f /\ undoing f' = undoing f /\ wellFormed P gen f' /\
  waitingOn f' = None /\ waker f = false.
Proof. intros Hc _. destruct f; try done. destruct op; simplify_eq/=; auto. Qed.

Section Bounded.
Context (P : Z) (k : nat) (b : Barrier) (now : Z).
Hypothesis Hb : NewBarrier P now = Some b.
Hypothesis Hsize : P + Z.of_nat k < MaxInt32.

Lemma parties_pos : 0 < P.
Proof. unfold NewBarrier in Hb. destruct (P <=? 0) eqn:E; simplify_eq. bool_facts. lia. Qed.

Lemma bar_Inv_initial : Inv P k 0 (initial k b).
Proof.
  unfold NewBarrier in Hb. destruct (P <=? 0) eqn:E; simplify_eq. bool_facts.
  constructor; simpl; try done; try lia.
  - rewrite sumf_replicate by done. lia.
  - apply length_replicate.
  - by apply Forall_replicate.
  - unfold protocol. simpl. rewrite fmap_replicate. apply WInv_init.
  - intros (t & f & g & [-> _]%lookup_replicate & (x & ? & _) & _). done.
Qed.

Lemma bar_Inv_call n w fs t f f' op now' :
  Inv P k n (w, fs) -> fs !! t = Some f -> bcall op now' f = Some f' ->
  Inv P k (S n) (w, <[t:=f']> fs).
Proof.
  intros [H1 H2 H3 H4 H5 H6 H7] Hl Hc. simpl in *.
  destruct (bar_call_state P (generation (prim w)) _ _ _ _ Hc (Forall_lookup_1 _ _ _ _ H5 Hl))
    as (E1 & E2 & E3 & E4 & E5).
  constructor; simpl; auto.
  - lia.
  - rewrite (sumf_insert _ _ _ _ _ Hl). lia.
  - by rewrite length_insert.
  - by apply Forall_insert.
  - unfold protocol in *. simpl in *. rewrite list_fmap_insert, E1.
    apply WInv_same; [done|]. by rewrite list_lookup_fmap, Hl.
  - intros (t1 & f1 & g & Hl1 & Hp1 & Hg). simpl in *.
    apply list_lookup_insert_Some in Hl1 as [(<- & <- & _)|[Hne Hl1]].
    { destruct Hp1 as (x & Hx & _). congruence. }
    destruct H7 as (t2 & f2 & Hl2 & Hw2); [exists t1, f1, g; done|]. simpl in Hl2.
    exists t2, f2. split; [|done]. rewrite list_lookup_insert_ne; [done|]. intros ->. congruence.
Qed.

Lemma bar_Inv_run n w fs t f f' w' o :
  Z.of_nat n < 9223372036854775807 ->
  Inv P k n (w, fs) -> fs !! t = Some f -> brun o f w = Some (f', w') ->
  Inv P k (S n) (w', <[t:=f']> fs).
Proof.
  intros Hn [H1 H2 H3 H4 H5 H6 H7] Hl Hr. simpl in *.
  pose proof (Forall_lookup_1 _ _ _ _ H5 Hl) as Hwf. pose proof parties_pos.
  pose proof (sumf_lookup_le undoing _ _ _ (fun z => proj1 (undoing_bound z)) Hl) as Hu.
  pose proof (sumf_le_length undoing fs (fun z => proj2 (undoing_bound z))) as Hk. rewrite H4 in Hk.
  destruct (bar_run_state o f w f' w' P (sumf undoing fs)) as (E1 & E2 & E3 & E4); auto; try lia.
  assert (Hp' : protocol (w', <[t:=f']> fs)).
  { unfold protocol. simpl. rewrite list_fmap_insert.
    eapply bar_run_protocol; [exact Hwf|exact Hr| |exact H6]. by rewrite list_lookup_fmap, Hl. }
  constructor; simpl; auto.
  - lia.
  - by rewrite (sumf_insert _ _ _ _ _ Hl).
  - by rewrite length_insert.
  - apply Forall_insert; [|done]. eapply Forall_impl; [exact H5|].
    intros f0. apply wellFormed_mono. lia.
  - by eapply bar_drains_run.
Qed.

Lemma bar_execs_Inv ls c :
  Z.of_nat (length ls) < 9223372036854775807 ->
  execs barrier ls (initial k b) = Some c -> Inv P k (length ls) c.
Proof.
  intros Hlen Hx.
  assert (Hgo : Z.of_nat (length ls) <= 9223372036854775807 -> Inv P k (length ls) c); [|apply Hgo; lia].
  refine (execs_invariant barrier any_label
    (fun n c => Z.of_nat n <= 9223372036854775807 -> Inv P k n c) _ _ _ _ _ ls c (Forall_any _) Hx).
  - intros _. apply bar_Inv_initial.
  - intros n w fs t f f' op now' H _ Hl Hc Hn. eapply bar_Inv_call; [apply H; lia|done..].
  - intros n w fs t f f' w' o H Hl Hr Hn. eapply bar_Inv_run; [lia|apply H; lia|done..].
  - intros n w fs x H Hn. destruct (H ltac:(lia)). constructor; simpl in *; auto; lia.
Qed.

(** ** The first generation

    A program in which the goroutines, at most as many as there are parties,
    only call [Wait]. *)
Definition onlyWait (l : label bop) : Prop :=
  match l with Call _ op _ => op = OpWait | _ => True end.

(** Whether a goroutine has been counted in [arrived]. *)
Definition counted (f : frame) : Z :=
  match f with FWait _ (BBroken | BGen | BArrive _) | FIdle _ => 0 | _ => 1 end.

(** Before the first trip nobody has got further than parking, or than the
    steps that trip the barrier. *)
Definition early (f : frame) : bool :=
  match f with
  | FIdle None => true
  | FWait _ (BBroken | BGen | BArrive _ | BTrips _ | BZero _ | BTrip _ | BNew _ _ | BLink _ _ _
            | BSize _ _ _ | BRecheck _ _ _ | BWait _ _ _) => true
  | _ => false
  end.

Definition tripping (f : frame) : bool :=
  match f with FWait _ (BTrips _ | BZero _ | BTrip _) => true | _ => false end.

Record First (c : world Barrier * list frame) : Prop := {
  first_early : Forall (fun f => early f = true) c.2;
  first_arrived : arrived (prim c.1) = sumf counted c.2 \/ sumf counted c.2 = P;
  first_tripping : forall t f, c.2 !! t = Some f -> tripping f = true -> sumf counted c.2 = P;
  first_token : forall x, Ready (wget (store c.1) x) = false;
  first_broken : broken (prim c.1) = false
}.

Hypothesis Hfew : Z.of_nat k <= P.

Lemma counted_bound f : 0 <= counted f <= 1.
Proof. destruct f as [r|st p|st p|c st p|p|p|e]; simpl; try lia. destruct p; simpl; lia. Qed.

Lemma counted_room fs t f :
  length fs = k -> fs !! t = Some f -> counted f = 0 -> sumf counted fs < P.
Proof.
  intros Hlen Hl Hc. pose proof (sumf_delete counted _ _ _ Hl).
  pose proof (sumf_le_length counted (delete t fs) (fun z => proj2 (counted_bound z))) as H1.
  rewrite length_delete in H1 by (by eexists). apply lookup_lt_Some in Hl. lia.
Qed.

Lemma First_run n w fs t f f' w' o :
  Inv P k n (w, fs) -> Z.of_nat n < 9223372036854775807 ->
  generation (prim w) = 0 -> First (w, fs) -> fs !! t = Some f ->
  brun o f w = Some (f', w') -> generation (prim w') = 0 -> First (w', <[t:=f']> fs).
Proof.
  intros HI Hn Hg [F1 F2 F3 F4 F5] Hl Hr Hg'. pose proof HI as [H1 _ H3 H4 H5 _ _]. simpl in *.
  pose proof (Forall_lookup_1 _ _ _ _ F1 Hl) as Hf. pose proof (Forall_lookup_1 _ _ _ _ H5 Hl) as Hwf.
  pose proof (counted_room _ _ _ H4 Hl) as Hroom. pose proof (F3 t f Hl) as Htr.
  pose proof parties_pos. unfold MaxInt32 in Hsize.
  assert (Hgo : early f' = true -> broken (prim w') = false ->
    (forall x, Ready (wget (store w') x) = false) ->
    (arrived (prim w') = sumf counted fs - counted f + counted f' \/
     sumf counted fs - counted f + counted f' = P) ->
    (tripping f' = true -> sumf counted fs - counted f + counted f' = P) ->
    (counted f' = counted f \/ sumf counted fs < P) ->
    First (w', <[t:=f']> fs)).
  { intros G1 G2 G3 G4 G5 G6. constructor; simpl; auto.
    - by apply Forall_insert.
    - by rewrite (sumf_insert _ _ _ _ _ Hl).
    - intros t1 f1 Hl1 Ht1. rewrite (sumf_insert _ _ _ _ _ Hl).
      apply list_lookup_insert_Some in Hl1 as [(<- & <- & _)|[Hne Hl1]]; [auto|].
      specialize (F3 t1 f1 Hl1 Ht1). destruct G6; lia. }
  clear F1 F3 HI H5. unfold brun in Hr. destruct f as [[]|st p|st p|c st p|p|p|e]; try done.
  destruct p; try done; simpl in Hr, Hf, Hwf, Hroom, Htr; inv_step Hr; bool_facts;
    apply Hgo; simpl in *; auto; try lia; try (intros ?; lia);
    try (specialize (Hroom eq_refl); assert (arrived (prim w) = sumf counted fs) as Ea by lia;
         rewrite add32_id in * by (unfold int32_range; lia); lia).
  - by rewrite Hg in Hg'.
  - intros x. by eapply getWaiter_tokens.
  - exfalso. unfold Wait in *. by rewrite F4 in *.
  - exfalso. unfold Wait in *. by rewrite F4 in *.
Qed.

Lemma bar_execs_First ls w fs :
  Z.of_nat (length ls) < 9223372036854775807 -> Forall onlyWait ls ->
  execs barrier ls (initial k b) = Some (w, fs) -> generation (prim w) = 0 -> First (w, fs).
Proof.
  intros Hlen HQ Hx.
  assert (Hgo : Z.of_nat (length ls) <= 9223372036854775807 ->
    Inv P k (length ls) (w, fs) /\ (generation (prim w) = 0 -> First (w, fs))); [|apply Hgo; lia].
  refine (execs_invariant barrier onlyWait
    (fun n c => Z.of_nat n <= 9223372036854775807 ->
       Inv P k n c /\ (generation (prim c.1) = 0 -> First c)) _ _ _ _ _ ls (w, fs) HQ Hx).
  - intros _. split; [apply bar_Inv_initial|]. intros _. unfold NewBarrier in Hb.
    destruct (P <=? 0); simplify_eq. constructor; simpl; try done.
    + by apply Forall_replicate.
    + left. by rewrite sumf_replicate.
    + intros t f [-> _]%lookup_replicate. done.
  - intros n w1 fs1 t f f' op now' H Hq Hl Hc Hn. simpl in Hq. subst op.
    destruct (H ltac:(lia)) as [HI HF].
    split; [by eapply bar_Inv_call|]. simpl. intros Hg. destruct (HF Hg) as [F1 F2 F3 F4 F5].
    assert (counted f = 0 /\ f' = FWait now' BBroken) as [Hc0 ->].
    { destruct f; try done. by simplify_eq/=. }
    constructor; simpl in *; auto; [by apply Forall_insert| |].
    + by rewrite (sumf_insert _ _ _ _ _ Hl), Hc0, Z.sub_0_r, Z.add_0_r.
    + intros t1 f1 Hl1 Ht1. rewrite (sumf_insert _ _ _ _ _ Hl), Hc0, Z.sub_0_r, Z.add_0_r.
      apply list_lookup_insert_Some in Hl1 as [(<- & <- & _)|[Hne Hl1]]; [done|eauto].
  - intros n w1 fs1 t f f' w2 o H Hl Hr Hn. destruct (H ltac:(lia)) as [HI HF].
    split; [eapply bar_Inv_run; [lia|done..]|]. simpl. intros Hg.
    assert (generation (prim w1) = 0) as Hg1.
    { pose proof HI as [H1 H2 H3 H4 H5 _ _]. simpl in *.
      pose proof (Forall_lookup_1 _ _ _ _ H5 Hl) as Hwf. pose proof parties_pos.
      pose proof (sumf_lookup_le undoing _ _ _ (fun z => proj1 (undoing_bound z)) Hl) as Hu.
      pose proof (sumf_le_length undoing fs1 (fun z => proj2 (undoing_bound z))) as Hk. rewrite H4 in Hk.
      destruct (bar_run_state o f w1 f' w2 P (sumf undoing fs1)) as (_ & E2 & _); auto; lia. }
    eapply First_run; eauto. lia.
  - intros n w1 fs1 x H Hn. destruct (H ltac:(lia)) as [HI HF]. split.
    + destruct HI. constructor; simpl in *; auto; lia.
    + intros Hg. destruct (HF Hg). by constructor.
Qed.
End Bounded.

(** C16: no waiter is left behind.  After fewer than 2^63-1 steps of any
    interleaving, with timeouts, cancelled contexts, [Break] and [Reset], if
    no goroutine can move by itself and one is parked in the generation [g],
    then [g] is the current generation: nobody is parked in a generation
    that is over. *)
Theorem barrier_no_waiter_left_behind P k b now ls w fs t f g :
  NewBarrier P now = Some b -> P + Z.of_nat k < MaxInt32 ->
  Z.of_nat (length ls) < 9223372036854775807 ->
  execs barrier ls (initial k b) = Some (w, fs) ->
  Forall (resting (store w)) fs -> fs !! t = Some f -> parked (store w) g f ->
  GetGeneration (prim w) = g.
Proof.
  intros Hb Hk Hn Hx Hrest Hl Hp.
  pose proof (bar_execs_Inv P k b now Hb Hk ls _ Hn Hx) as [_ _ _ _ Hwf _ Hd]. simpl in *.
  assert (g <= generation (prim w)) as Hle.
  { pose proof (Forall_lookup_1 _ _ _ _ Hwf Hl) as Hf. destruct Hp as (x & Hx0 & _).
    destruct f as [r|st p|st p|c st p|p|p|e]; try done; destruct p; simplify_eq/=; lia. }
  unfold GetGeneration. destruct (decide (g = generation (prim w))) as [|Hne]; [done|]. exfalso.
  destruct Hd as (t1 & f1 & Hl1 & Hw); [exists t, f, g; simpl; repeat split; auto; lia|]. simpl in *.
  destruct (Forall_lookup_1 _ _ _ _ Hrest Hl1) as [(g1 & x & Hx1 & _)|[r ->]]; [|done].
  destruct f1 as [r|st p|st p|c st p|p|p|e]; try done; by destruct p.
Qed.

(** The results are in range.  The count of arrivals is never negative,
    no call panics, and a call returns a nil error exactly with an index
    that is not negative (the other results are -1 with an error). *)
Theorem barrier_results P k b now ls w fs t f :
  NewBarrier P now = Some b -> P + Z.of_nat k < MaxInt32 ->
  Z.of_nat (length ls) < 9223372036854775807 ->
  execs barrier ls (initial k b) = Some (w, fs) -> fs !! t = Some f ->
  0 <= GetArrived (prim w) <= P + Z.of_nat k /\
  (forall e, f <> FPanic e) /\
  (forall i e, f = FIdle (Some (i, e)) -> (e = ENil -> 0 <= i) /\ (e <> ENil -> i = -1)).
Proof.
  intros Hb Hk Hn Hx Hl.
  pose proof (bar_execs_Inv P k b now Hb Hk ls _ Hn Hx) as [_ _ Ha Hlen Hwf _ _]. simpl in *.
  pose proof (sumf_le_length undoing fs (fun z => proj2 (undoing_bound z))) as Hu. rewrite Hlen in Hu.
  pose proof (Forall_lookup_1 _ _ _ _ Hwf Hl) as Hf.
  unfold GetArrived. split; [lia|]. split; [by intros e ->|].
  intros i e ->. simpl in Hf. destruct e; split; intros; done.
Qed.

(** Nobody passes before the barrier has tripped.  When at most as many
    goroutines as there are parties use the barrier through [Wait], then as
    long as the generation is still 0 no call of [Wait] has returned. *)
Theorem barrier_first_generation P k b now ls w fs t f i e :
  NewBarrier P now = Some b -> P + Z.of_nat k < MaxInt32 -> Z.of_nat k <= P ->
  Z.of_nat (length ls) < 9223372036854775807 -> Forall onlyWait ls ->
  execs barrier ls (initial k b) = Some (w, fs) -> GetGeneration (prim w) = 0 ->
  fs !! t = Some f -> f <> FIdle (Some (i, e)).
Proof.
  intros Hb Hsz Hk Hn HQ Hx Hg Hl ->.
  pose proof (bar_execs_First P k b now Hb Hsz Hk ls w fs Hn HQ Hx Hg) as [F1 _ _ _ _].
  by pose proof (Forall_lookup_1 _ _ _ _ F1 Hl).
Qed.

#[export] Instance bar_parked_dec s f : Decision (exists g, parked s g f).
Proof.
  unfold parked. destruct (waitingOn f) as [[g w]|]; [|right; by intros (? & ? & ? & _)].
  destruct (Ready (wget s w)) eqn:E; [right; intros (? & ? & ? & ?); congruence|left; eauto].
Defined.

#[export] Instance bar_resting_dec s f : Decision (resting s f).
Proof.
  unfold resting. destruct (decide (exists g, parked s g f)) as [?|Hn]; [left; by left|].
  destruct f eqn:E; try (right; intros [?|[? ?]]; [done|congruence]). left. eauto.
Defined.

Definition barrier2 : Barrier := mkBarrier 2 0 0 NewWaiterQueue false 0 0 0.

(** T0 has arrived and is parked. *)
Definition oneArrived : list (label bop) := Call 0 OpWait 0 :: runs 0 7.

Definition arrivedState := (after barrier oneArrived (initial 2 barrier2)).

Lemma barrier_no_waiter_left_behind_witness : GetGeneration (prim arrivedState.1) = 0.
Proof.
  apply (barrier_no_waiter_left_behind 2 2 barrier2 0 oneArrived _ arrivedState.2 0
    (FWait 0 (BWait 0 1 0)) 0); try by_eval; [by_decide|].
  exists 0%nat. split; by_eval.
Defined.

Lemma barrier_results_witness : 0 <= GetArrived (prim arrivedState.1) <= 2 + Z.of_nat 2.
Proof.
  apply (barrier_results 2 2 barrier2 0 oneArrived arrivedState.1 arrivedState.2 0
    (FWait 0 (BWait 0 1 0))); by_eval.
Defined.

Lemma barrier_first_generation_witness : FWait 0 (BWait 0 1 0) <> FIdle (Some (0, ENil)).
Proof.
  apply (barrier_first_generation 2 2 barrier2 0 oneArrived arrivedState.1 arrivedState.2 0); try by_eval.
  - by vm_compute.
  - repeat constructor.
Defined.

(** T1 trips the barrier, signals T0 and is still draining the queue when T0
    arrives again and parks in the next generation. *)
Definition tripAndReturn : list (label bop) :=
  oneArrived ++ Call 1 OpWait 0 :: runs 1 10 ++ runs 0 5.
Definition secondWait : list (label bop) :=
  Call 0 OpWait 0 :: runs 0 7 ++ runs 1 4 ++ runs 0 4.

(** A goroutine can pass alone.  The drain that follows a trip also wakes
    waiters of the next generation, and [Wait] does not compare generations
    before it returns: on a barrier for two parties T0 returns from its
    second [Wait] with a nil error although T1 has not arrived again; the
    generation is the same before and after the call. *)
Theorem barrier_releases_early :
  exists c1 c2, execs barrier tripAndReturn (initial 2 barrier2) = Some c1 /\
    c1.2 !! 0%nat = Some (FIdle (Some (0, ENil))) /\
    execs barrier secondWait c1 = Some c2 /\ c2.2 !! 0%nat = Some (FIdle (Some (0, ENil))) /\
    GetGeneration (prim c1.1) = 1 /\ GetGeneration (prim c2.1) = 1 /\ GetArrived (prim c2.1) = 1 /\
    exists k, c2.2 !! 1%nat = Some (FWait 0 (BWake 2 k)).
Proof.
  eexists _, _. split; [vm_compute; reflexivity|]. split; [reflexivity|].
  split; [vm_compute; reflexivity|]. repeat split. by eexists.
Qed.

(** T0 has passed the test of [broken] when T1 breaks the barrier. *)
Definition breakRace : list (label bop) :=
  Call 0 OpWait 0 :: runs 0 1 ++ Call 1 OpBreak 0 :: runs 1 2 ++ runs 0 6.

(** [Break] can miss a goroutine.  [Wait] tests [broken] only before it
    arrives; after [breakRace] the barrier is broken, nobody is inside a call
    but T0, and T0 is parked without a token. *)
Theorem break_strands_waiter :
  exists w fs f, execs barrier breakRace (initial 2 barrier2) = Some (w, fs) /\
    IsBroken (prim w) = true /\ Forall (resting (store w)) fs /\
    fs !! 0%nat = Some f /\ parked (store w) 0 f.
Proof.
  destruct (execs barrier breakRace (initial 2 barrier2)) as [[w fs]|] eqn:E; [|by vm_compute in E].
  exists w, fs, (FWait 0 (BWait 0 1 0)). split; [done|]. vm_compute in E. injection E as <- <-.
  split; [reflexivity|]. split; [by_decide|]. split; [reflexivity|]. exists 0%nat. split; by_eval.
Qed.
