(* ===== verification/CondVar.v ===== *)
(** * CondVar (internal/primitives/condvar.go, lines 159-310)

    A condition variable used with the Mutex of Mutex.v: [Wait] publishes a
    waiter, releases the mutex, parks, and takes the mutex again.  The steps
    of the mutex inside [Wait] are those of Mutex.v, on the mutex component
    of the shared state. *)

From Stdlib Require Import ZArith Lia.
From stdpp Require Import base list gmap strings.
From S2P Require Import Prelude Waiter Mutex.

#[local] Open Scope Z_scope.

Record CondVar := mkCondVar {
  waiters : WaiterQueue;
  waits : Z;
  signals : Z;
  broadcasts : Z;
  totalWaitTime : Z;
  createdAt : Z
}.

Definition NewCondVar (now : Z) : CondVar := mkCondVar NewWaiterQueue 0 0 0 0 now.

Definition set_waiters v c := mkCondVar v (waits c) (signals c) (broadcasts c) (totalWaitTime c) (createdAt c).
Definition set_waits v c := mkCondVar (waiters c) v (signals c) (broadcasts c) (totalWaitTime c) (createdAt c).
Definition set_signals v c := mkCondVar (waiters c) (waits c) v (broadcasts c) (totalWaitTime c) (createdAt c).
Definition set_broadcasts v c := mkCondVar (waiters c) (waits c) (signals c) v (totalWaitTime c) (createdAt c).
Definition set_totalWaitTime v c := mkCondVar (waiters c) (waits c) (signals c) (broadcasts c) v (createdAt c).

(** A condition variable and the mutex it is used with. *)
Record pair := mkPair { cv : CondVar; mu : Mutex.Mutex }.

Definition upd (f : CondVar -> CondVar) (w : world pair) : world pair :=
  withPrim (mkPair (f (cv (prim w))) (mu (prim w))) w.

(** The mutex in the shared state, and putting it back after a step. *)
Definition mview (w : world pair) : world Mutex.Mutex := World (mu (prim w)) (store w) (ctxs w).
Definition mput (w : world pair) (v : world Mutex.Mutex) : world pair :=
  World (mkPair (cv (prim w)) (prim v)) (store v) (ctxs v).

(** ** Wait, WaitTimeout and WaitFor

    [CTest] the call of [cond()] in [WaitFor] (its value is a choice of the
    step), [CCheck] the test [m.IsLocked()], [CNew] ... [CWaits] publishing
    the waiter, [CUnlock] inside [m.Unlock()], [CWait] the blocking receive,
    [CDrop] cancelling the waiter after a timeout, [CPut] [putWaiter],
    [CTotal] the update of [totalWaitTime], [CLock] inside [m.Lock()].  [b]
    is the local variable [signaled]; [st] is [startTime] of [m.Lock()]. *)
Inductive cpc :=
| CTest | CCheck | CNew | CLink (w : nat) | CSize (w : nat) | CWaits (w : nat)
| CUnlock (w : nat) (p : unlockpc) | CWait (w : nat) | CDrop (w : nat) | CPut (w : nat)
| CTotal (b : bool) | CLock (b : bool) (st : Z) (p : lockpc).

Definition Wait_step (start : Z) (o : oracle) (p : cpc) (w : world pair)
    : option (outcome cpc bool * world pair) :=
  let c := cv (prim w) in
  match p with
  | CCheck =>
      if negb (IsLocked (mu (prim w))) then Some (Panic "condvar: Wait called on unlocked mutex", w)
      else Some (Next CNew, w)
  | CNew => let '(x, s) := NewWaiter o (store w) in Some (Next (CLink x), withStore s w)
  | CLink x => Some (Next (CSize x), upd (set_waiters (Enqueue_link x (waiters c))) w)
  | CSize x => Some (Next (CWaits x), upd (set_waiters (Enqueue_size (waiters c))) w)
  | CWaits x => Some (Next (CUnlock x ULoad), upd (set_waits (add64 (waits c) 1)) w)
  | CUnlock x q =>
      let '(r, v) := Unlock_step q (mview w) in
      Some (match r with
            | Next q => Next (CUnlock x q) | Return _ => Next (CWait x) | Panic e => Panic e
            end, mput w v)
  | CWait x => s ← Wait x (store w); Some (Next (CPut x), withStore s w)
  | CPut x => Some (Next (CTotal true), withStore (putWaiter x (store w)) w)
  | CTotal b =>
      Some (Next (CLock b (clk o) LFast),
            upd (set_totalWaitTime (add64 (totalWaitTime c) (clk o - start))) w)
  | CLock b st q =>
      '(r, v) ← Lock_step st o q (mview w);
      Some (match r with
            | Next q => Next (CLock b st q) | Return _ => Return b | Panic e => Panic e
            end, mput w v)
  | CTest | CDrop _ => None
  end.

Definition WaitTimeout_step (start : Z) (o : oracle) (p : cpc) (w : world pair)
    : option (outcome cpc bool * world pair) :=
  match p with
  | CCheck =>
      if negb (IsLocked (mu (prim w)))
      then Some (Panic "condvar: WaitTimeout called on unlocked mutex", w) else Some (Next CNew, w)
  | CWait x =>
      '(signalled, s) ← WaitTimeout o x (store w);
      Some (Next (if signalled : bool then CPut x else CDrop x), withStore s w)
  | CDrop x => Some (Next (CTotal false), withStore (cancelWaiter x (store w)) w)
  | _ => Wait_step start o p w
  end.

(** [WaitFor] calls [Wait] until [cond()] is true. *)
Definition WaitFor_step (start : Z) (o : oracle) (p : cpc) (w : world pair)
    : option (outcome cpc bool * world pair) :=
  match p with
  | CTest => Some (if alt o then Return true else Next CCheck, w)
  | _ =>
      '(r, w) ← Wait_step start o p w;
      Some (match r with Return _ => Next CTest | _ => r end, w)
  end.

(** ** Signal and Broadcast *)
Inductive sigpc := SDeq (d : dqpc) | SCount (w : nat) | SSignal (w : nat).

Definition Signal_step (p : sigpc) (w : world pair) : outcome sigpc unit * world pair :=
  let c := cv (prim w) in
  match p with
  | SDeq d =>
      let '(r, q, s) := Dequeue_step d (waiters c) (store w) in
      (match r with
       | Next d' => Next (SDeq d')
       | Return (Some x) => Next (SCount x)
       | Return None => Return tt
       | Panic e => Panic e
       end, withStore s (upd (set_waiters q) w))
  | SCount x => (Next (SSignal x), upd (set_signals (add64 (signals c) 1)) w)
  | SSignal x => (Return tt, withStore (Signal x (store w)) w)
  end.

(** [n] is the local variable [count]. *)
Inductive bcpc := BDeq (n : Z) (d : dqpc) | BSignal (n : Z) (w : nat) | BCount.

Definition Broadcast_step (p : bcpc) (w : world pair) : outcome bcpc unit * world pair :=
  let c := cv (prim w) in
  match p with
  | BDeq n d =>
      let '(r, q, s) := Dequeue_step d (waiters c) (store w) in
      (match r with
       | Next d' => Next (BDeq n d')
       | Return (Some x) => Next (BSignal n x)
       | Return None => if 0 <? n then Next BCount else Return tt
       | Panic e => Panic e
       end, withStore s (upd (set_waiters q) w))
  | BSignal n x => (Next (BDeq (add64 n 1) DqPop), withStore (Signal x (store w)) w)
  | BCount => (Return tt, upd (set_broadcasts (add64 (broadcasts c) 1)) w)
  end.

Record CondVarStats := mkCondVarStats {
  Waits : Z; Signals : Z; Broadcasts : Z; TotalWaitTimeNs : Z; WaitersQueued : Z; Age : Z
}.

Definition GetStats (now : Z) (c : CondVar) : CondVarStats :=
  mkCondVarStats (waits c) (signals c) (broadcasts c) (totalWaitTime c) (Size (waiters c))
    (now - createdAt c).

(** ** Goroutines

    [held] counts the acquisitions of the mutex the goroutine has not
    released; [Unlock] and the three waits are called only while it holds
    the mutex, and a wait that returns holds it again. *)
Inductive cop := OpLock | OpUnlock | OpTryLock | OpWait | OpWaitTimeout | OpWaitFor | OpSignal | OpBroadcast.

Inductive frame :=
| FIdle (r : option bool)
| FLock (st : Z) (p : lockpc)
| FUnlock (p : unlockpc)
| FTry (p : trypc)
| FWait (st : Z) (p : cpc)
| FWaitTimeout (st : Z) (p : cpc)
| FWaitFor (st : Z) (p : cpc)
| FSignal (p : sigpc)
| FBroadcast (p : bcpc)
| FPanic (msg : string).

Record thread := mkThread { frm : frame; held : Z }.

Definition ccall (op : cop) (now : Z) (th : thread) : option thread :=
  let give f := if 0 <? held th then Some (mkThread f (held th - 1)) else None in
  match frm th with
  | FIdle _ =>
      match op with
      | OpLock => Some (mkThread (FLock now LFast) (held th))
      | OpTryLock => Some (mkThread (FTry TCas) (held th))
      | OpSignal => Some (mkThread (FSignal (SDeq DqPop)) (held th))
      | OpBroadcast => Some (mkThread (FBroadcast (BDeq 0 DqPop)) (held th))
      | OpUnlock => give (FUnlock ULoad)
      | OpWait => give (FWait now CCheck)
      | OpWaitTimeout => give (FWaitTimeout now CCheck)
      | OpWaitFor => give (FWaitFor now CTest)
      end
  | _ => None
  end.

(** The goroutine after a step; [d v] is what a return with value [v] adds to
    the acquisitions it holds. *)
Definition after1 {P A} (k : P -> frame) (d : A -> Z) (v : A -> option bool) (th : thread)
    (r : outcome P A) : thread :=
  match r with
  | Next p => mkThread (k p) (held th)
  | Return a => mkThread (FIdle (v a)) (held th + d a)
  | Panic e => mkThread (FPanic e) (held th)
  end.

Definition crun (o : oracle) (th : thread) (w : world pair) : option (thread * world pair) :=
  match frm th with
  | FIdle _ | FPanic _ => None
  | FLock st p =>
      '(r, v) ← Lock_step st o p (mview w); Some (after1 (FLock st) Z.b2z Some th r, mput w v)
  | FUnlock p =>
      let '(r, v) := Unlock_step p (mview w) in
      Some (after1 FUnlock (fun _ => 0) (fun _ => None) th r, mput w v)
  | FTry p =>
      let '(r, v) := TryLock_step p (mview w) in Some (after1 FTry Z.b2z Some th r, mput w v)
  | FWait st p =>
      '(r, w) ← Wait_step st o p w; Some (after1 (FWait st) (fun _ => 1) Some th r, w)
  | FWaitTimeout st p =>
      '(r, w) ← WaitTimeout_step st o p w; Some (after1 (FWaitTimeout st) (fun _ => 1) Some th r, w)
  | FWaitFor st p =>
      (* each iteration calls Wait, which takes the time anew *)
      let st := match p with CTest => clk o | _ => st end in
      '(r, w) ← WaitFor_step st o p w; Some (after1 (FWaitFor st) (fun _ => 1) Some th r, w)
  | FSignal p =>
      let '(r, w) := Signal_step p w in Some (after1 FSignal (fun _ => 0) (fun _ => None) th r, w)
  | FBroadcast p =>
      let '(r, w) := Broadcast_step p w in
      Some (after1 FBroadcast (fun _ => 0) (fun _ => None) th r, w)
  end.

Definition condvar : machine (world pair) thread cop := Machine ccall crun cancelCtx.

Definition initial (k : nat) (now : Z) : config (Sh:=world pair) (Th:=thread) :=
  (World (mkPair (NewCondVar now) (NewMutex now)) emptyStore ∅,
   replicate k (mkThread (FIdle None) 0)).

(** * Invariants *)

Definition lockHolds (p : lockpc) : Z := match p with LCancel _ | LLocks => 1 | _ => 0 end.
Definition unlockHolds (p : unlockpc) : Z := match p with ULoad | UUnlocks | UStore => 1 | _ => 0 end.

Definition waitHolds (p : cpc) : Z :=
  match p with
  | CTest | CCheck | CNew | CLink _ | CSize _ | CWaits _ => 1
  | CUnlock _ q => unlockHolds q
  | CLock _ _ q => lockHolds q
  | CWait _ | CDrop _ | CPut _ | CTotal _ => 0
  end.

Definition holds (th : thread) : Z :=
  held th +
  match frm th with
  | FLock _ p => lockHolds p
  | FUnlock p => unlockHolds p
  | FTry TLocks => 1
  | FWait _ p | FWaitTimeout _ p | FWaitFor _ p => waitHolds p
  | _ => 0
  end.

Definition waitRole (p : cpc) : role :=
  match p with
  | CLink w | CPut w => Role (OPriv w) HNone
  | CSize w | CWaits w | CWait w | CDrop w => Role (OShared w) HNone
  | CUnlock w q => Role (OShared w) (hand (unlockRole q))
  | CLock _ _ q => lockRole q
  | _ => idleRole
  end.

Definition sigRole (p : sigpc) : role :=
  match p with SDeq d => Role ONone (dqHand d) | SCount w | SSignal w => Role ONone (HSig w) end.
Definition bcRole (p : bcpc) : role :=
  match p with
  | BDeq _ d => Role ONone (dqHand d) | BSignal _ w => Role ONone (HSig w) | BCount => idleRole
  end.

Definition roleOf (th : thread) : role :=
  match frm th with
  | FLock _ p => lockRole p
  | FUnlock p => unlockRole p
  | FWait _ p | FWaitTimeout _ p | FWaitFor _ p => waitRole p
  | FSignal p => sigRole p
  | FBroadcast p => bcRole p
  | _ => idleRole
  end.

Definition lockOk (p : lockpc) : Prop := match p with LCtx | LCtxCancel _ => False | _ => True end.

Definition wellFormed (th : thread) : Prop :=
  0 <= held th /\
  match frm th with
  | FPanic _ => False
  | FLock _ p => lockOk p
  | FWait _ (CTest | CDrop _) | FWaitTimeout _ CTest | FWaitFor _ (CDrop _) => False
  | FWait _ (CLock _ _ p) | FWaitTimeout _ (CLock _ _ p) | FWaitFor _ (CLock _ _ p) => lockOk p
  | _ => True
  end.

Record Inv (c : world pair * list thread) : Prop := {
  inv_holders : state (mu (prim c.1)) = sumf holds c.2;
  inv_state : state (mu (prim c.1)) = 0 \/ state (mu (prim c.1)) = 1;
  inv_threads : Forall wellFormed c.2;
  inv_protocol : WInv (roleOf <$> c.2)
    (items (waiters (cv (prim c.1))) ++ items (Mutex.waiters (mu (prim c.1)))) (store c.1)
}.

Lemma cv_holds_nonneg th : wellFormed th -> 0 <= holds th.
Proof.
  intros [H _]. unfold holds.
  destruct (frm th) as [|st p|p|p|st p|st p|st p|p|p|]; try destruct p; simpl; try lia;
    try match goal with q : unlockpc |- _ => destruct q; simpl; lia end;
    match goal with q : lockpc |- _ => destruct q; simpl; lia end.
Qed.

Lemma cv_Inv_initial k now : Inv (initial k now).
Proof.
  constructor; simpl.
  - by rewrite sumf_replicate.
  - by left.
  - apply Forall_replicate. split; simpl; [lia|done].
  - rewrite fmap_replicate. apply WInv_init.
Qed.

Lemma cv_Inv_call w ths t th th' op now :
  Inv (w, ths) -> ths !! t = Some th -> ccall op now th = Some th' -> Inv (w, <[t:=th']> ths).
Proof.
  intros [Hh Hs Ht Hp] Hl Hc. simpl in *.
  assert (holds th' = holds th /\ roleOf th' = roleOf th /\ wellFormed th') as (E1 & E2 & E3).
  { pose proof (Forall_lookup_1 _ _ _ _ Ht Hl) as [Hw _].
    unfold ccall, holds, roleOf, wellFormed in *. destruct th as [f h]; simpl in *.
    destruct f; try discriminate. destruct op; simplify_eq; simpl; try (repeat split; simpl; lia);
      destruct (0 <? h) eqn:E; simplify_eq; simpl; bool_facts; repeat split; simpl; lia. }
  constructor; simpl; auto.
  - rewrite (sumf_insert _ _ _ _ _ Hl). lia.
  - by apply Forall_insert.
  - rewrite list_fmap_insert, E2. apply WInv_same; [done|]. by rewrite list_lookup_fmap, Hl.
Qed.

(** The steps of the mutex, with what they do to the state word. *)
Definition bit (z : Z) : Prop := z = 0 \/ z = 1.

Lemma lock_state st o p (v v' : world Mutex.Mutex) r :
  lockOk p -> bit (state (prim v)) -> lockHolds p <= state (prim v) ->
  Lock_step st o p v = Some (r, v') ->
  bit (state (prim v')) /\
  match r with
  | Next q => lockOk q /\ state (prim v') = state (prim v) - lockHolds p + lockHolds q
  | Return b => b = true /\ state (prim v') = state (prim v) /\ lockHolds p = 1
  | Panic _ => False
  end.
Proof.
  unfold bit. intros Hok Hs Hle Hr.
  destruct p; simpl in Hr; inv_step Hr; try done; simpl in *; bool_facts; repeat split; auto; lia.
Qed.

Lemma unlock_state p (v v' : world Mutex.Mutex) r :
  bit (state (prim v)) -> unlockHolds p <= state (prim v) -> Unlock_step p v = (r, v') ->
  bit (state (prim v')) /\
  match r with
  | Next q => state (prim v') = state (prim v) - unlockHolds p + unlockHolds q
  | Return _ => state (prim v') = state (prim v) /\ unlockHolds p = 0
  | Panic _ => False
  end.
Proof.
  unfold bit. intros Hs Hle Hr.
  destruct p; simpl in Hr; inv_step Hr; simpl in *; bool_facts; split; auto; try lia.
  exfalso. by eapply Dequeue_no_panic.
Qed.

Definition waitOk (p : cpc) : Prop :=
  match p with CTest | CDrop _ => False | CLock _ _ q => lockOk q | _ => True end.

Lemma cv_wait_state st o p w w' r :
  waitOk p -> bit (state (mu (prim w))) -> waitHolds p <= state (mu (prim w)) ->
  Wait_step st o p w = Some (r, w') ->
  bit (state (mu (prim w'))) /\
  match r with
  | Next q => waitOk q /\ state (mu (prim w')) = state (mu (prim w)) - waitHolds p + waitHolds q
  | Return _ => state (mu (prim w')) = state (mu (prim w)) /\ waitHolds p = 1
  | Panic _ => False
  end.
Proof.
  intros Hok Hs Hle Hr. destruct p; simpl in Hr;
    try (inv_step Hr; simpl in *; repeat split; try done; lia).
  - unfold IsLocked in Hr. simpl in Hle. unfold bit in Hs.
    destruct (state (mu (prim w)) =? 1) eqn:E; simplify_eq/=; bool_facts; repeat split; auto; lia.
  - destruct (Unlock_step p (mview w)) as [r1 v] eqn:E.
    destruct (unlock_state _ (mview w) _ _ Hs Hle E) as [H0 H].
    destruct r1; simplify_eq; simpl in *; repeat split; try done; lia.
  - apply bind_Some in Hr as ([r1 v] & E & Hr).
    destruct (lock_state _ _ _ (mview w) _ _ Hok Hs Hle E) as [H0 H].
    destruct r1; simplify_eq; simpl in *; repeat split; try done; try tauto; lia.
Qed.

Definition timeoutOk (p : cpc) : Prop :=
  match p with CTest => False | CLock _ _ q => lockOk q | _ => True end.

Lemma cv_timeout_state st o p w w' r :
  timeoutOk p -> bit (state (mu (prim w))) -> waitHolds p <= state (mu (prim w)) ->
  WaitTimeout_step st o p w = Some (r, w') ->
  bit (state (mu (prim w'))) /\
  match r with
  | Next q => timeoutOk q /\ state (mu (prim w')) = state (mu (prim w)) - waitHolds p + waitHolds q
  | Return _ => state (mu (prim w')) = state (mu (prim w)) /\ waitHolds p = 1
  | Panic _ => False
  end.
Proof.
  intros Hok Hs Hle Hr.
  assert (Hw : waitOk p -> Wait_step st o p w = Some (r, w') ->
    bit (state (mu (prim w'))) /\ match r with
    | Next q => timeoutOk q /\ state (mu (prim w')) = state (mu (prim w)) - waitHolds p + waitHolds q
    | Return _ => state (mu (prim w')) = state (mu (prim w)) /\ waitHolds p = 1
    | Panic _ => False end).
  { intros Hp H. destruct (cv_wait_state _ _ _ _ _ _ Hp Hs Hle H) as [H0 H1]. split; [done|].
    destruct r as [q| |]; [|done..]. destruct H1 as [Hq H1]. split; [by destruct q|done]. }
  destruct p; try done; try (apply Hw; done).
  - simpl in Hr. unfold IsLocked in Hr. simpl in Hle. unfold bit in Hs.
    destruct (state (mu (prim w)) =? 1) eqn:E; simplify_eq/=; bool_facts; repeat split; auto; lia.
  - simpl in Hr. inv_step Hr; simpl in *; repeat split; try done; lia.
  - simpl in Hr. inv_step Hr; simpl in *; repeat split; try done; lia.
Qed.

Definition forOk (p : cpc) : Prop :=
  match p with CDrop _ => False | CLock _ _ q => lockOk q | _ => True end.

Lemma cv_for_state st o p w w' r :
  forOk p -> bit (state (mu (prim w))) -> waitHolds p <= state (mu (prim w)) ->
  WaitFor_step st o p w = Some (r, w') ->
  bit (state (mu (prim w'))) /\
  match r with
  | Next q => forOk q /\ state (mu (prim w')) = state (mu (prim w)) - waitHolds p + waitHolds q
  | Return _ => state (mu (prim w')) = state (mu (prim w)) /\ waitHolds p = 1
  | Panic _ => False
  end.
Proof.
  intros Hok Hs Hle Hr. assert (p = CTest \/ p <> CTest) as [->|Hne] by (destruct p; auto; by right).
  { simpl in Hr. destruct (alt o); simplify_eq; simpl; repeat split; auto; lia. }
  assert (Hr' : ('(r, w) ← Wait_step st o p w;
    Some (match r with Return _ => Next CTest | _ => r end, w)) = Some (r, w')) by (by destruct p).
  apply bind_Some in Hr' as ([r1 v] & E & Hr').
  assert (Hwo : waitOk p) by (clear - Hok Hne; by destruct p).
  destruct (cv_wait_state _ _ _ _ _ _ Hwo Hs Hle E) as [H0 H1].
  destruct r1 as [q| |]; simplify_eq; split; try done.
  - destruct H1 as [Hq H1]. split; [by destruct q|done].
  - destruct H1 as [H1 H2]. split; [done|]. simpl. lia.
Qed.

Lemma cv_run_state o th w th' w' :
  wellFormed th -> bit (state (mu (prim w))) -> holds th <= state (mu (prim w)) ->
  crun o th w = Some (th', w') ->
  state (mu (prim w')) = state (mu (prim w)) - holds th + holds th' /\
  bit (state (mu (prim w'))) /\ wellFormed th'.
Proof.
  intros [Hheld Hwf] Hs Hle Hr. destruct th as [f h]. unfold crun, wellFormed, holds in *. simpl in *.
  destruct f as [r|st p|p|p|st p|st p|st p|p|p|e]; try done.
  - apply bind_Some in Hr as ([r1 v] & E & Hr).
    destruct (lock_state _ _ p (mview w) _ _ Hwf Hs ltac:(simpl; lia) E) as [H0 H].
    destruct r1 as [q|b|]; simplify_eq; simpl in *; repeat split; try done; try tauto; try lia.
    all: destruct H as (-> & H1 & H2); simpl; lia.
  - destruct (Unlock_step p (mview w)) as [r1 v] eqn:E.
    destruct (unlock_state p (mview w) _ _ Hs ltac:(simpl; lia) E) as [H0 H].
    destruct r1; simplify_eq; simpl in *; repeat split; try done; lia.
  - unfold bit in *. destruct p; simpl in Hr; inv_step Hr; simpl in *; bool_facts; repeat split; auto; lia.
  - apply bind_Some in Hr as ([r1 v] & E & Hr).
    assert (Hok : waitOk p) by (clear - Hwf; by destruct p).
    assert (Hle' : waitHolds p <= state (mu (prim w))) by lia.
    destruct (cv_wait_state _ _ _ _ _ _ Hok Hs Hle' E) as [H0 H].
    destruct r1 as [q|b|]; simplify_eq; simpl in *; repeat split; try done; try lia.
    destruct H as [H _]. by destruct q.
  - apply bind_Some in Hr as ([r1 v] & E & Hr).
    assert (Hok : timeoutOk p) by (clear - Hwf; by destruct p).
    assert (Hle' : waitHolds p <= state (mu (prim w))) by lia.
    destruct (cv_timeout_state _ _ _ _ _ _ Hok Hs Hle' E) as [H0 H].
    destruct r1 as [q|b|]; simplify_eq; simpl in *; repeat split; try done; try lia.
    destruct H as [H _]. by destruct q.
  - apply bind_Some in Hr as ([r1 v] & E & Hr).
    assert (Hok : forOk p) by (clear - Hwf; by destruct p).
    assert (Hle' : waitHolds p <= state (mu (prim w))) by lia.
    destruct (cv_for_state _ _ _ _ _ _ Hok Hs Hle' E) as [H0 H].
    destruct r1 as [q|b|]; simplify_eq; simpl in *; repeat split; try done; try lia.
    destruct H as [H _]. by destruct q.
  - destruct p; simpl in Hr; inv_step Hr; simpl in *; repeat split; try done; try lia.
    exfalso. by eapply Dequeue_no_panic.
  - destruct p; simpl in Hr; inv_step Hr; simpl in *; repeat split; try done; try lia.
    exfalso. by eapply Dequeue_no_panic.
Qed.

(** ** The parking protocol

    The mutex's queue comes second in the protocol invariant. *)
Lemma cv_lock_protocol st o p (v v' : world Mutex.Mutex) r l rs t :
  lockOk p -> Lock_step st o p v = Some (r, v') -> rs !! t = Some (lockRole p) ->
  WInv rs (items l ++ items (Mutex.waiters (prim v))) (store v) ->
  WInv (<[t:=match r with Next q => lockRole q | _ => idleRole end]> rs)
    (items l ++ items (Mutex.waiters (prim v'))) (store v').
Proof.
  intros Hok Hr Ht H. destruct p; simpl in Hr; inv_step Hr; simpl in *; try done; eauto with sync.
Qed.

Lemma cv_unlock_protocol own0 p (v v' : world Mutex.Mutex) r l rs t :
  Unlock_step p v = (r, v') -> rs !! t = Some (Role own0 (hand (unlockRole p))) ->
  WInv rs (items l ++ items (Mutex.waiters (prim v))) (store v) ->
  WInv (<[t:=Role own0 (match r with Next q => hand (unlockRole q) | _ => HNone end)]> rs)
    (items l ++ items (Mutex.waiters (prim v'))) (store v').
Proof.
  intros Hr Ht H. destruct p; simpl in Hr; inv_step Hr; simpl in *; eauto with sync.
  exfalso. by eapply Dequeue_no_panic.
Qed.

Definition queues (w : world pair) : list nat :=
  items (waiters (cv (prim w))) ++ items (Mutex.waiters (mu (prim w))).

Definition noPanic {Q A} (r : outcome Q A) : Prop := match r with Panic _ => False | _ => True end.

Lemma cv_wait_protocol st o p w w' r rs t :
  waitOk p -> noPanic r ->
  Wait_step st o p w = Some (r, w') ->
  rs !! t = Some (waitRole p) -> WInv rs (queues w) (store w) ->
  WInv (<[t:=match r with Next q => waitRole q | _ => idleRole end]> rs) (queues w') (store w').
Proof.
  unfold queues. intros Hok Hnp Hr Ht H. destruct p; simpl in Hr, Ht; try done;
    try (inv_step Hr; simpl in *; try done; eauto with sync; fail).
  - destruct (Unlock_step p (mview w)) as [r1 v] eqn:E1.
    pose proof (cv_unlock_protocol _ _ (mview w) _ _ (waiters (cv (prim w))) _ _ E1 Ht H) as H'.
    destruct r1 as [| |e]; simplify_eq; simpl; [exact H'..|done].
  - apply bind_Some in Hr as ([r1 v] & E1 & Hr).
    pose proof (cv_lock_protocol _ _ _ (mview w) _ _ (waiters (cv (prim w))) _ _ Hok E1 Ht H) as H'.
    destruct r1 as [| |e]; simplify_eq; simpl; exact H'.
Qed.

Lemma cv_timeout_protocol st o p w w' r rs t :
  timeoutOk p -> noPanic r -> WaitTimeout_step st o p w = Some (r, w') ->
  rs !! t = Some (waitRole p) -> WInv rs (queues w) (store w) ->
  WInv (<[t:=match r with Next q => waitRole q | _ => idleRole end]> rs) (queues w') (store w').
Proof.
  intros Hok Hnp Hr Ht H.
  destruct p; try done; try (eapply cv_wait_protocol; [..|exact Hr|exact Ht|exact H]; done);
    unfold queues in *; simpl in Hr, Ht; inv_step Hr; simpl in *; try done; eauto with sync.
Qed.

Lemma cv_for_protocol st o p w w' r rs t :
  forOk p -> noPanic r -> WaitFor_step st o p w = Some (r, w') ->
  rs !! t = Some (waitRole p) -> WInv rs (queues w) (store w) ->
  WInv (<[t:=match r with Next q => waitRole q | _ => idleRole end]> rs) (queues w') (store w').
Proof.
  intros Hok Hnp Hr Ht H. assert (p = CTest \/ p <> CTest) as [->|Hne] by (destruct p; auto; by right).
  { simpl in Hr. destruct (alt o); simplify_eq; simpl in *; by apply WInv_same. }
  assert (Hr' : ('(r, w) ← Wait_step st o p w;
    Some (match r with Return _ => Next CTest | _ => r end, w)) = Some (r, w')) by (by destruct p).
  apply bind_Some in Hr' as ([r1 v] & E & Hr').
  assert (noPanic r1) as Hn1 by (by destruct r1; simplify_eq).
  assert (Hwo : waitOk p) by (clear - Hok Hne; by destruct p).
  pose proof (cv_wait_protocol _ _ _ _ _ _ _ _ Hwo Hn1 E Ht H) as H'.
  destruct r1; simplify_eq; exact H'.
Qed.

Lemma cv_run_protocol o th w th' w' rs t :
  wellFormed th -> wellFormed th' -> crun o th w = Some (th', w') -> rs !! t = Some (roleOf th) ->
  WInv rs (queues w) (store w) ->
  WInv (<[t:=roleOf th']> rs) (queues w') (store w').
Proof.
  intros [_ Hwf] [_ Hwf'] Hr Ht H. destruct th as [f h]. unfold crun, roleOf, wellFormed in *. simpl in *.
  destruct f as [r|st p|p|p|st p|st p|st p|p|p|e]; try done.
  - apply bind_Some in Hr as ([r1 v] & E & Hr). simplify_eq.
    pose proof (cv_lock_protocol _ _ _ (mview w) _ _ (waiters (cv (prim w))) _ _ Hwf E Ht H) as H'.
    destruct r1; exact H'.
  - destruct (Unlock_step p (mview w)) as [r1 v] eqn:E. simplify_eq.
    assert (unlockRole p = Role ONone (hand (unlockRole p))) as Er by (by destruct p).
    rewrite Er in Ht.
    pose proof (cv_unlock_protocol _ _ (mview w) _ _ (waiters (cv (prim w))) _ _ E Ht H) as H'.
    destruct r1 as [q| |]; simpl in *; try exact H'.
    assert (unlockRole q = Role ONone (hand (unlockRole q))) as -> by (by destruct q). exact H'.
  - destruct p; simpl in Hr; inv_step Hr; simpl in *; by apply WInv_same.
  - apply bind_Some in Hr as ([r1 v] & E & Hr). simplify_eq.
    assert (noPanic r1) as Hn1 by (by destruct r1).
    assert (Hok : waitOk p) by (clear - Hwf; by destruct p).
    pose proof (cv_wait_protocol _ _ _ _ _ _ _ _ Hok Hn1 E Ht H). by destruct r1.
  - apply bind_Some in Hr as ([r1 v] & E & Hr). simplify_eq.
    assert (noPanic r1) as Hn1 by (by destruct r1).
    assert (Hok : timeoutOk p) by (clear - Hwf; by destruct p).
    pose proof (cv_timeout_protocol _ _ _ _ _ _ _ _ Hok Hn1 E Ht H). by destruct r1.
  - apply bind_Some in Hr as ([r1 v] & E & Hr). simplify_eq.
    assert (noPanic r1) as Hn1 by (by destruct r1).
    assert (Hok : forOk p) by (clear - Hwf; by destruct p).
    pose proof (cv_for_protocol _ _ _ _ _ _ _ _ Hok Hn1 E Ht H). by destruct r1.
  - unfold queues in *. destruct p; simpl in Hr, Ht.
    + destruct (Dequeue_step d (waiters (cv (prim w))) (store w)) as [[r1 q1] s1] eqn:E.
      pose proof (two_dequeue_r _ _ _ _ _ _ _ _ _ _ H Ht E) as H'.
      destruct r1 as [|[|]|]; simplify_eq; exact H'.
    + simplify_eq. simpl. by apply WInv_same.
    + simplify_eq. simpl. by apply WInv_signal.
  - unfold queues in *. destruct p; simpl in Hr, Ht.
    + destruct (Dequeue_step d (waiters (cv (prim w))) (store w)) as [[r1 q1] s1] eqn:E.
      pose proof (two_dequeue_r _ _ _ _ _ _ _ _ _ _ H Ht E) as H'.
      destruct r1 as [|[|]|]; simplify_eq; try exact H'. simpl. by destruct (0 <? n).
    + simplify_eq. simpl. by apply WInv_signal.
    + simplify_eq. simpl. by apply WInv_same.
Qed.

Lemma cv_Inv_run w ths t th th' w' o :
  Inv (w, ths) -> ths !! t = Some th -> crun o th w = Some (th', w') -> Inv (w', <[t:=th']> ths).
Proof.
  intros [Hh Hs Ht Hp] Hl Hr. simpl in *.
  pose proof (Forall_lookup_1 _ _ _ _ Ht Hl) as Hwf.
  assert (Hle : holds th <= state (mu (prim w))).
  { rewrite Hh. eapply sumf_le_F; eauto using cv_holds_nonneg. }
  destruct (cv_run_state _ _ _ _ _ Hwf Hs Hle Hr) as (E1 & E2 & E3).
  constructor; simpl; auto.
  - rewrite (sumf_insert _ _ _ _ _ Hl). lia.
  - by apply Forall_insert.
  - rewrite list_fmap_insert. eapply (cv_run_protocol o th w); [done..| |exact Hp].
    by rewrite list_lookup_fmap, Hl.
Qed.

Lemma cv_reach_Inv P k now c : reach condvar P (initial k now) c -> Inv c.
Proof.
  apply reach_invariant; intros.
  - apply cv_Inv_initial.
  - eapply cv_Inv_call; eauto.
  - eapply cv_Inv_run; eauto.
  - destruct H. by constructor.
Qed.

(** ** The waiters of the condition variable and those of the mutex *)

(** The waiter a goroutine has published in the queue of the condition
    variable, and the one it has unlinked from the queue of the mutex. *)
Definition pcOwned (p : cpc) : option nat :=
  match p with CSize w | CWaits w | CUnlock w _ | CWait w | CDrop w => Some w | _ => None end.

Definition cvOwned (th : thread) : option nat :=
  match frm th with FWait _ p | FWaitTimeout _ p | FWaitFor _ p => pcOwned p | _ => None end.

Definition handOf (h : hphase) : option nat :=
  match h with HNone => None | HRaw w | HDead w | HSig w => Some w end.

Definition pcHand (p : cpc) : option nat :=
  match p with CUnlock _ q => handOf (hand (unlockRole q)) | _ => None end.

Definition muHand (th : thread) : option nat :=
  match frm th with
  | FUnlock p => handOf (hand (unlockRole p))
  | FWait _ p | FWaitTimeout _ p | FWaitFor _ p => pcHand p
  | _ => None
  end.

(** A waiter of the condition variable is never in the queue of the mutex nor
    in the hands of a goroutine that unlocks it. *)
Record Apart (c : world pair * list thread) : Prop := {
  apart_queue : forall t th x, c.2 !! t = Some th -> cvOwned th = Some x ->
    x ∉ items (Mutex.waiters (mu (prim c.1)));
  apart_hand : forall t th t' th' x, c.2 !! t = Some th -> cvOwned th = Some x ->
    c.2 !! t' = Some th' -> muHand th' <> Some x
}.

Lemma cvOwned_role th x : cvOwned th = Some x -> shared (roleOf th) = Some x /\ priv (roleOf th) = None.
Proof.
  unfold cvOwned, roleOf. destruct (frm th) as [r|st p|p|p|st p|st p|st p|p|p|e]; try done;
    destruct p; simpl; intros; by simplify_eq.
Qed.

Lemma handOf_role r x :
  handOf (hand r) = Some x -> raw r = Some x \/ dead r = Some x \/ alive r = Some x.
Proof. unfold raw, dead, alive. destruct (hand r); simpl; intros; simplify_eq; auto. Qed.

Lemma muHand_role th x : muHand th = Some x -> handOf (hand (roleOf th)) = Some x.
Proof.
  unfold muHand, roleOf. destruct (frm th) as [r|st p|p|p|st p|st p|st p|p|p|e]; try done; by destruct p.
Qed.

(** What a step does to the queue of the mutex and to what is in hand. *)
Lemma unlock_apart p (v v' : world Mutex.Mutex) r :
  Unlock_step p v = (r, v') ->
  (forall y, y ∈ items (Mutex.waiters (prim v')) -> y ∈ items (Mutex.waiters (prim v))) /\
  forall y, match r with Next q => handOf (hand (unlockRole q)) | _ => None end = Some y ->
    handOf (hand (unlockRole p)) = Some y \/ y ∈ items (Mutex.waiters (prim v)).
Proof.
  destruct p as [| | |[|x|x|x]|x]; simpl; intros H; simplify_eq; simpl;
    try (split; [done|intros y Hy; simplify_eq; by auto]).
  - destruct (negb _); simplify_eq; simpl; split; done.
  - destruct (items (Mutex.waiters (prim v))) as [|z l] eqn:E; simplify_eq; simpl.
    + rewrite E. done.
    + split; [intros; by right|]. intros y [= ->]. right. by left.
  - destruct (cancelled (wget (store v) x)); simplify_eq; simpl; split; auto.
Qed.

Lemma lock_apart st o p (v v' : world Mutex.Mutex) r y :
  Lock_step st o p v = Some (r, v') -> y ∈ items (Mutex.waiters (prim v')) ->
  y ∈ items (Mutex.waiters (prim v)) \/ priv (lockRole p) = Some y.
Proof.
  intros H. destruct p; simpl in H; inv_step H; simpl; auto.
  intros [?|E]%elem_of_app; [by left|]. apply list_elem_of_singleton in E as ->. by right.
Qed.

(** The three facts the separation of the waiters rests on: from the waiter
    owned, the private one and the one in hand before a step, and the queue
    of the mutex before and after it. *)
Record apart (own0 priv0 hand0 : option nat) (muq : list nat)
    (own1 hand1 : option nat) (muq' : list nat) : Prop := {
  ap_owned : forall x, own1 = Some x -> own0 = Some x \/ priv0 = Some x;
  ap_queue : forall y, y ∈ muq' -> y ∈ muq \/ (priv0 = Some y /\ own1 = None);
  ap_hand : forall y, hand1 = Some y -> hand0 = Some y \/ y ∈ muq
}.

Definition muq (w : world pair) : list nat := items (Mutex.waiters (mu (prim w))).

Definition outOwned (r : outcome cpc bool) : option nat :=
  match r with Next q => pcOwned q | _ => None end.
Definition outHand (r : outcome cpc bool) : option nat :=
  match r with Next q => pcHand q | _ => None end.

(** A step that leaves the queue of the mutex alone and unlinks nothing. *)
Lemma apart_same own0 priv0 hand0 l own1 hand1 :
  own1 = own0 \/ own1 = None \/ own1 = priv0 -> hand1 = hand0 \/ hand1 = None ->
  apart own0 priv0 hand0 l own1 hand1 l.
Proof.
  intros Ho Hh. constructor.
  - intros x ->. destruct Ho as [<-|[?|<-]]; auto; done.
  - auto.
  - intros y ->. destruct Hh as [<-|?]; auto; done.
Qed.

Lemma cv_wait_apart st o p w w' r :
  Wait_step st o p w = Some (r, w') ->
  apart (pcOwned p) (priv (waitRole p)) (pcHand p) (muq w) (outOwned r) (outHand r) (muq w').
Proof.
  intros H. destruct p; simpl in H; try (inv_step H; apply apart_same; by auto).
  - destruct (Unlock_step p (mview w)) as [r1 v] eqn:E.
    destruct (unlock_apart _ (mview w) _ _ E) as [H1 H2].
    destruct r1; simplify_eq; constructor; simpl; auto; done.
  - apply bind_Some in H as ([r1 v] & E & H).
    pose proof (fun y => lock_apart _ _ _ (mview w) v r1 y E) as Hq.
    destruct r1; simplify_eq; constructor; simpl; try done; intros y Hy;
      destruct (Hq y Hy); auto.
Qed.

Lemma cv_timeout_apart st o p w w' r :
  WaitTimeout_step st o p w = Some (r, w') ->
  apart (pcOwned p) (priv (waitRole p)) (pcHand p) (muq w) (outOwned r) (outHand r) (muq w').
Proof.
  intros H. destruct p; try exact (cv_wait_apart st o _ w w' r H); simpl in H; inv_step H; apply apart_same; by auto.
Qed.

Lemma cv_for_apart st o p w w' r :
  WaitFor_step st o p w = Some (r, w') ->
  apart (pcOwned p) (priv (waitRole p)) (pcHand p) (muq w) (outOwned r) (outHand r) (muq w').
Proof.
  intros H. assert (p = CTest \/ p <> CTest) as [->|Hne] by (destruct p; auto; by right).
  { simpl in H. destruct (alt o); simplify_eq; apply apart_same; auto. }
  assert (H' : ('(r, w) ← Wait_step st o p w;
    Some (match r with Return _ => Next CTest | _ => r end, w)) = Some (r, w')) by (by destruct p).
  apply bind_Some in H' as ([r1 v] & E & H').
  pose proof (cv_wait_apart _ _ _ _ _ _ E) as Ha. destruct r1; simplify_eq; exact Ha.
Qed.

Lemma cv_run_apart o th w th' w' :
  crun o th w = Some (th', w') ->
  apart (cvOwned th) (priv (roleOf th)) (muHand th) (muq w) (cvOwned th') (muHand th') (muq w').
Proof.
  intros H. destruct th as [f h]. unfold crun, cvOwned, muHand, roleOf in *. simpl in *.
  destruct f as [r|st p|p|p|st p|st p|st p|p|p|e]; try done.
  - apply bind_Some in H as ([r1 v] & E & H). simplify_eq.
    pose proof (fun y => lock_apart _ _ _ (mview w) v r1 y E) as Hq.
    destruct r1; constructor; simpl; try done; intros y Hy; destruct (Hq y Hy); auto.
  - destruct (Unlock_step p (mview w)) as [r1 v] eqn:E. simplify_eq.
    destruct (unlock_apart _ (mview w) _ _ E) as [H1 H2].
    destruct r1; constructor; simpl; auto; done.
  - destruct p; simpl in H; inv_step H; apply apart_same; auto.
  - apply bind_Some in H as ([r1 v] & E & H). simplify_eq. apply cv_wait_apart in E. by destruct r1.
  - apply bind_Some in H as ([r1 v] & E & H). simplify_eq. apply cv_timeout_apart in E. by destruct r1.
  - apply bind_Some in H as ([r1 v] & E & H). simplify_eq. apply cv_for_apart in E. by destruct r1.
  - destruct p; simpl in H; inv_step H; apply apart_same; auto.
  - destruct p; simpl in H; inv_step H; apply apart_same; auto.
Qed.

Lemma Apart_run w ths t th th' w' o :
  Inv (w, ths) -> Apart (w, ths) -> ths !! t = Some th -> crun o th w = Some (th', w') ->
  Apart (w', <[t:=th']> ths).
Proof.
  intros [_ _ _ Hp] [A1 A2] Hl Hr. simpl in *. destruct (cv_run_apart _ _ _ _ _ Hr) as [M1 M2 M3].
  assert (Hlook : forall t1 th1, ths !! t1 = Some th1 -> (roleOf <$> ths) !! t1 = Some (roleOf th1)).
  { intros t1 th1 E. by rewrite list_lookup_fmap, E. }
  assert (Hpr : forall x, priv (roleOf th) = Some x ->
    (x ∉ muq w) /\ forall t1 th1, ths !! t1 = Some th1 -> cvOwned th1 <> Some x /\ muHand th1 <> Some x).
  { intros x Hx. destruct (WInv_private _ _ _ _ _ _ Hp (Hlook _ _ Hl) Hx) as [Hni Hno].
    split; [intros Hin; apply Hni, elem_of_app; by right|]. intros t1 th1 Hl1.
    destruct (Hno _ _ (Hlook _ _ Hl1)) as (N1 & N2 & N3 & N4). split.
    - intros E. by destruct (cvOwned_role _ _ E).
    - intros E. apply muHand_role, handOf_role in E. tauto. }
  assert (Hown : forall t1 th1 x, <[t:=th']> ths !! t1 = Some th1 -> cvOwned th1 = Some x ->
    (exists t0 th0, ths !! t0 = Some th0 /\ cvOwned th0 = Some x) \/
    (priv (roleOf th) = Some x /\ cvOwned th' = Some x)).
  { intros t1 th1 x Hl1 Hx. apply list_lookup_insert_Some in Hl1 as [(-> & <- & _)|[_ Hl1]]; [|left; eauto].
    destruct (M1 x Hx); [left; eauto|by right]. }
  constructor; simpl.
  - intros t1 th1 x Hl1 Hx Hin. destruct (Hown _ _ _ Hl1 Hx) as [(t0 & th0 & Hl0 & Hx0)|[Hx0 Hx1]].
    + destruct (M2 x Hin) as [Hin0|[Hp0 _]]; [exact (A1 _ _ _ Hl0 Hx0 Hin0)|].
      destruct (Hpr x Hp0) as [_ Hno]. by destruct (Hno _ _ Hl0).
    + destruct (Hpr x Hx0) as [Hni _]. destruct (M2 x Hin) as [?|[_ ?]]; congruence.
  - intros t1 th1 t2 th2 x Hl1 Hx Hl2 Hh.
    assert (Hh0 : (exists t0 th0, ths !! t0 = Some th0 /\ muHand th0 = Some x) \/ x ∈ muq w).
    { apply list_lookup_insert_Some in Hl2 as [(-> & <- & _)|[_ Hl2]]; [|left; eauto].
      destruct (M3 x Hh); [left; eauto|by right]. }
    destruct (Hown _ _ _ Hl1 Hx) as [(t0 & th0 & Hl0 & Hx0)|[Hx0 _]].
    + destruct Hh0 as [(t3 & th3 & Hl3 & Hh3)|Hin]; [exact (A2 _ _ _ _ _ Hl0 Hx0 Hl3 Hh3)|exact (A1 _ _ _ Hl0 Hx0 Hin)].
    + destruct (Hpr x Hx0) as [Hni Hno].
      destruct Hh0 as [(t3 & th3 & Hl3 & Hh3)|Hin]; [by destruct (Hno _ _ Hl3)|done].
Qed.

Lemma Apart_call w ths t th th' op now :
  Apart (w, ths) -> ths !! t = Some th -> ccall op now th = Some th' -> Apart (w, <[t:=th']> ths).
Proof.
  intros [A1 A2] Hl Hc.
  assert (cvOwned th' = None /\ muHand th' = None) as [E1 E2].
  { unfold ccall, cvOwned, muHand in *. destruct (frm th); try done.
    destruct op; simplify_eq; simpl; try done; case_match; by simplify_eq. }
  constructor; simpl in *.
  - intros t1 th1 x Hl1 Hx. apply list_lookup_insert_Some in Hl1 as [(_ & <- & _)|[_ Hl1]]; [congruence|eauto].
  - intros t1 th1 t2 th2 x Hl1 Hx Hl2.
    apply list_lookup_insert_Some in Hl1 as [(_ & <- & _)|[_ Hl1]]; [congruence|].
    apply list_lookup_insert_Some in Hl2 as [(_ & <- & _)|[_ Hl2]]; [congruence|eauto].
Qed.

Lemma cv_reach_Apart k now c :
  reach condvar any_label (initial k now) c -> Inv c /\ Apart c.
Proof.
  apply (reach_invariant condvar any_label (fun c => Inv c /\ Apart c)).
  - split; [apply cv_Inv_initial|]. constructor; simpl.
    + intros t th x [-> _]%lookup_replicate. done.
    + intros t th t' th' x [-> _]%lookup_replicate. done.
  - intros w ths t th th' op now' [H1 H2] _ Hl Hc. split; [by eapply cv_Inv_call|by eapply Apart_call].
  - intros w ths t th th' w' o [H1 H2] _ Hl Hr. split; [by eapply cv_Inv_run|by eapply Apart_run].
  - intros w ths x [[] []] _. split; by constructor.
Qed.

(** * Theorems *)

Lemma cv_held_le th : wellFormed th -> held th <= holds th.
Proof.
  intros [H _]. unfold holds.
  destruct (frm th) as [|st p|p|p|st p|st p|st p|p|p|]; try destruct p; simpl; try lia;
    try match goal with q : unlockpc |- _ => destruct q; simpl; lia end;
    match goal with q : lockpc |- _ => destruct q; simpl; lia end.
Qed.


(** T0 waits, T1 takes the mutex, signals, releases it; T0 returns. *)
Definition signalled : list (label cop) :=
  Call 0 OpLock 0 :: runs 0 2 ++ Call 0 OpWait 0 :: runs 0 9 ++
  Call 1 OpLock 0 :: runs 1 2 ++ Call 1 OpSignal 0 :: runs 1 5 ++
  Call 1 OpUnlock 0 :: runs 1 4 ++ runs 0 5.


(** Whether a goroutine is inside [Signal] or [Broadcast] with [x] in hand. *)
Definition signalling (x : nat) (th : thread) : Prop :=
  match frm th with
  | FSignal (SDeq (DqSize w | DqCheck w | DqPut w) | SCount w | SSignal w)
  | FBroadcast (BDeq _ (DqSize w | DqCheck w | DqPut w) | BSignal _ w) => w = x
  | _ => False
  end.

Lemma signalling_or_unlocking th x :
  raw (roleOf th) = Some x \/ dead (roleOf th) = Some x \/ alive (roleOf th) = Some x ->
  signalling x th \/ muHand th = Some x.
Proof.
  unfold signalling, roleOf, muHand, raw, dead, alive.
  destruct (frm th) as [|st p|p|p|st p|st p|st p|p|p|]; try (intros [?|[?|?]]; done);
    destruct p as []; simpl; try (intros [?|[?|?]]; done); try (intros [?|[?|?]]; by simplify_eq; auto);
    match goal with
    | q : unlockpc |- _ => destruct (hand (unlockRole q))
    | q : lockpc |- _ => destruct q
    | d : dqpc |- _ => destruct d
    end; simpl; intros [?|[?|?]]; simplify_eq; auto.
Qed.

(** No signal is missed.  As soon as a goroutine in [Wait] has published
    its waiter, which is before it releases the mutex, the waiter stays in
    the queue of the condition variable until a [Signal] or [Broadcast]
    takes it, and whoever takes it delivers the token: a waiter without a
    token is in that queue or in the hands of such a call. *)
Theorem condvar_waiter_reachable k now w ths t th x :
  reach condvar any_label (initial k now) (w, ths) ->
  ths !! t = Some th -> cvOwned th = Some x -> Ready (wget (store w) x) = false ->
  (x ∈ items (waiters (cv (prim w)))) \/
  exists t' th', ths !! t' = Some th' /\ signalling x th'.
Proof.
  intros Hr Hl Hx Hrd. apply cv_reach_Apart in Hr as [[_ _ _ Hp] [A1 A2]]. simpl in *.
  destruct (roleOf th) as [ow hd] eqn:Er.
  assert (ow = OShared x) as ->.
  { destruct (cvOwned_role _ _ Hx) as [Hs _]. rewrite Er in Hs. unfold shared in Hs. simpl in Hs.
    by destruct ow; simplify_eq. }
  assert (Hrl : (roleOf <$> ths) !! t = Some (Role (OShared x) hd)) by (by rewrite list_lookup_fmap, Hl; simpl; rewrite Er).
  destruct (WInv_parked _ _ _ _ _ _ Hp Hrl Hrd) as [[Hin|Hin]%elem_of_app|(t1 & r & Hr1 & Hh)].
  - by left.
  - exfalso. exact (A1 _ _ _ Hl Hx Hin).
  - right. rewrite list_lookup_fmap in Hr1. destruct (ths !! t1) as [th1|] eqn:Hl1; simplify_eq/=.
    exists t1, th1. split; [done|]. specialize (A2 t th t1 th1 x Hl Hx Hl1).
    destruct (signalling_or_unlocking _ _ Hh); done.
Qed.

(** T0 waits and has released the mutex; nobody has signalled. *)
Definition parkedTrace : list (label cop) :=
  Call 0 OpLock 0 :: runs 0 2 ++ Call 0 OpWait 0 :: runs 0 9.

Lemma condvar_waiter_reachable_witness :
  exists w ths, reach condvar any_label (initial 2 0) (w, ths) /\
    ths !! 0%nat = Some (mkThread (FWait 0 (CWait 0)) 0) /\
    ((0%nat ∈ items (waiters (cv (prim w)))) \/
     exists t' th', ths !! t' = Some th' /\ signalling 0 th').
Proof.
  assert (R := after_reach condvar any_label parkedTrace (initial 2 0) (Forall_any _) ltac:(by_eval)).
  exists (after condvar parkedTrace (initial 2 0)).1, (after condvar parkedTrace (initial 2 0)).2.
  split; [exact R|]. split; [by_eval|].
  apply (condvar_waiter_reachable 2 0 _ _ 0 (mkThread (FWait 0 (CWait 0)) 0) 0 R); by_eval.
Defined.

(** T0 and T1 wait; T2 has dequeued the waiter of T0 and not yet signalled it
    when T0 times out and cancels it. *)
Definition signalRace : list (label cop) :=
  Call 0 OpLock 0 :: runs 0 2 ++ Call 0 OpWaitTimeout 0 :: runs 0 9 ++
  Call 1 OpLock 0 :: runs 1 2 ++ Call 1 OpWait 0 :: runs 1 9 ++
  Call 2 OpSignal 0 :: runs 2 3 ++ Run 0 (Oracle true 0 0) :: runs 0 4 ++ runs 2 2.

(** A signal can be lost to a waiter that times out.  After [signalRace]
    one [Signal] has been counted, [WaitTimeout] of T0 has returned false,
    no call but that of T1 is in progress, and T1 is still parked in [Wait]
    without a token, although it waited before the signal. *)
Theorem waittimeout_drops_signal :
  exists w ths, execs condvar signalRace (initial 3 0) = Some (w, ths) /\
    Signals (GetStats 0 (cv (prim w))) = 1 /\
    ths = [mkThread (FIdle (Some false)) 1; mkThread (FWait 0 (CWait 1)) 0; mkThread (FIdle None) 0] /\
    Ready (wget (store w) 1) = false.
Proof. eexists _, _. split; [vm_compute; reflexivity|]. repeat split. Qed.
