(* ===== verification/CVLive.v ===== *)
(** * The mutex of a condition variable loses no wake-up

    [Wait] releases the mutex before it parks and takes it again after it has
    been woken, so goroutines park in two queues, that of the mutex and that
    of the condition variable, with waiters of one pool.  This file shows
    that the two queues do not interfere: the goroutines' dealings with each
    follow the parking protocol by themselves, and the argument of Parking.v
    applies to the mutex as if the condition variable were not there. *)

From Stdlib Require Import ZArith Lia.
From stdpp Require Import base list gmap strings.
From S2P Require Import Prelude Waiter Parking.
From S2P Require Import Sides.
From S2P Require Import Mutex.
From S2P Require Import CondVar.

#[local] Open Scope Z_scope.

(** ** The two sides *)

(** What a goroutine does with the queue of the mutex ... *)
Definition pcSideM (p : cpc) : role :=
  match p with CUnlock _ q => unlockRole q | CLock _ _ q => lockRole q | _ => idleRole end.

Definition sideM (th : thread) : role :=
  match frm th with
  | FLock _ p => lockRole p
  | FUnlock p => unlockRole p
  | FWait _ p | FWaitTimeout _ p | FWaitFor _ p => pcSideM p
  | _ => idleRole
  end.

(** ... and with that of the condition variable. *)
Definition pcSideC (p : cpc) : role :=
  match p with
  | CLink x | CPut x => Role (OPriv x) HNone
  | CSize x | CWaits x | CUnlock x _ | CWait x | CDrop x => Role (OShared x) HNone
  | _ => idleRole
  end.

Definition sideC (th : thread) : role :=
  match frm th with
  | FWait _ p | FWaitTimeout _ p | FWaitFor _ p => pcSideC p
  | FSignal p => sigRole p
  | FBroadcast p => bcRole p
  | _ => idleRole
  end.

Definition projection (f : role -> option nat) : Prop :=
  f = priv \/ f = shared \/ f = canc \/ f = raw \/ f = dead \/ f = alive.

Lemma pc_sides f x p : projection f ->
  refers f x (waitRole p) = refers f x (pcSideM p) + refers f x (pcSideC p).
Proof.
  intros Hf. destruct p as [| | | | | |y q| | | | |b st q]; try destruct q; try destruct d; simpl;
    (destruct Hf as [-> |[-> |[-> |[-> |[-> | ->]]]]]; unfold refers; simpl; lia).
Qed.

Lemma th_sides f x th : projection f ->
  refers f x (roleOf th) = refers f x (sideM th) + refers f x (sideC th).
Proof.
  intros Hf. assert (Hi : refers f x idleRole = 0).
  { destruct Hf as [-> |[-> |[-> |[-> |[-> | ->]]]]]; unfold refers; simpl; lia. }
  unfold roleOf, sideM, sideC. destruct (frm th); rewrite ?Hi; try lia; by apply pc_sides.
Qed.

Lemma cnt_sides f x ths : projection f ->
  cnt f x (roleOf <$> ths) = cnt f x ((sideM <$> ths) ++ (sideC <$> ths)).
Proof.
  intros Hf. rewrite cnt_app. unfold cnt. rewrite !sumf_fmap.
  induction ths as [|th ths IH]; [done|]. simpl. rewrite IH, th_sides by done. lia.
Qed.

Definition cvq (w : world pair) : list nat := items (waiters (cv (prim w))).

(** Each side follows the parking protocol. *)
Record Split (w : world pair) (ths : list thread) : Prop := {
  split_m : WInv (sideM <$> ths) (muq w) (store w);
  split_c : WInv (sideC <$> ths) (cvq w) (store w)
}.

Lemma cv_Sides w ths : Inv (w, ths) -> Split w ths ->
  Sides (sideM <$> ths) (sideC <$> ths) (muq w) (cvq w) (store w).
Proof.
  intros [_ _ _ Hp] [Hm Hc]. simpl in Hp. split; [|done..]. intros x. specialize (Hp x).
  rewrite !cnt_sides in Hp by (unfold projection; tauto). rewrite occ_app in *.
  unfold muq, cvq. by rewrite (Z.add_comm (occ x (items (Mutex.waiters _)))).
Qed.

(** A step on one side is no step for the parked goroutines of the other. *)
Lemma Sides_tokens A B ia ib s s' t r :
  Sides A B ia ib s -> B !! t = Some r -> touches r s s' -> keepsTokens A t s s'.
Proof.
  intros HS Ht [-> |(x & Ho & Hx)] t0 h0 y _ H0 Hy; [done|].
  assert (Hm : mentions y (Role (OShared y) h0)) by (unfold mentions; auto).
  pose proof (mentions_refs y _ A ia t0 H0 Hm) as HA.
  destruct (decide (y = x)) as [-> |Hne]; [|by destruct (Ho y Hne) as [-> _]].
  exfalso. destruct Hx as [Hx|Hx].
  - pose proof (mentions_refs x r B ib t Ht Hx). pose proof (Sides_apart _ _ _ _ _ x HS HA). lia.
  - pose proof (sides_l _ _ _ _ _ HS x) as H. unfold wok, refs in *. destruct Hx as [Hx%occ_elem|Hx]; lia.
Qed.

(** ** The steps of one side *)

Definition outM (r : outcome lockpc bool) : role := match r with Next q => lockRole q | _ => idleRole end.
Definition outU (r : outcome unlockpc unit) : role := match r with Next q => unlockRole q | _ => idleRole end.

Lemma lock_touches st o p (v v' : world Mutex.Mutex) r :
  Lock_step st o p v = Some (r, v') -> touches (lockRole p) (store v) (store v').
Proof. intros H. destruct p; simpl in H; inv_step H; simpl; eauto with sync. Qed.

Lemma unlock_touches p (v v' : world Mutex.Mutex) r :
  Unlock_step p v = (r, v') -> touches (unlockRole p) (store v) (store v').
Proof.
  destruct p as [| | |d|x]; simpl; intros H; try (simplify_eq; simpl; eauto with sync; fail).
  - destruct (negb _); simplify_eq; eauto with sync.
  - destruct (Dequeue_step _ _ _) as [[r1 q1] s1] eqn:E. simplify_eq. simpl. by eapply touches_dequeue.
Qed.

Lemma unlockRole_hand p : unlockRole p = Role ONone (hand (unlockRole p)).
Proof. by destruct p. Qed.

Lemma lock_side st o p (v v' : world Mutex.Mutex) r rs t :
  lockOk p -> Lock_step st o p v = Some (r, v') -> rs !! t = Some (lockRole p) ->
  WInv rs (items (Mutex.waiters (prim v))) (store v) ->
  WInv (<[t:=outM r]> rs) (items (Mutex.waiters (prim v'))) (store v').
Proof. intros Hok Hr Ht H. exact (cv_lock_protocol _ _ _ _ _ _ NewWaiterQueue _ _ Hok Hr Ht H). Qed.

Lemma unlock_side p (v v' : world Mutex.Mutex) r rs t :
  Unlock_step p v = (r, v') -> rs !! t = Some (unlockRole p) ->
  WInv rs (items (Mutex.waiters (prim v))) (store v) ->
  WInv (<[t:=outU r]> rs) (items (Mutex.waiters (prim v'))) (store v').
Proof.
  intros Hr Ht H. rewrite unlockRole_hand in Ht.
  pose proof (cv_unlock_protocol _ _ _ _ _ NewWaiterQueue _ _ Hr Ht H) as H'.
  destruct r as [q|[]|e]; simpl in *; [by rewrite (unlockRole_hand q)|exact H'..].
Qed.

(** A step of a goroutine on the condition variable, with what it leaves in
    the hands of the goroutine. *)
Inductive cvStep (w w' : world pair) (r r' : role) : Prop :=
| CvStep : mu (prim w') = mu (prim w) -> touches r (store w) (store w') ->
    (forall rs t, rs !! t = Some r -> WInv rs (cvq w) (store w) ->
       WInv (<[t:=r']> rs) (cvq w') (store w')) -> cvStep w w' r r'.

Lemma cvStep_same w w' r :
  mu (prim w') = mu (prim w) -> store w' = store w -> cvq w' = cvq w -> cvStep w w' r r.
Proof. intros Em Es Eq. split; [done|rewrite Es; apply touches_id|]. intros. rewrite Es, Eq. by apply WInv_same. Qed.

Lemma wait_cvStep st o p w w' r :
  waitOk p -> noPanic r -> Wait_step st o p w = Some (r, w') ->
  match p with CUnlock _ _ | CLock _ _ _ => False | _ => True end ->
  cvStep w w' (pcSideC p) (match r with Next q => pcSideC q | _ => idleRole end).
Proof.
  intros Hok Hn Hr Hp. destruct p; try done; simpl in Hr; inv_step Hr; simpl in *; try done;
    (split; [done|simpl; eauto with sync|unfold cvq; simpl; eauto with sync]).
Qed.

Lemma signal_cvStep p w w' r :
  Signal_step p w = (r, w') -> noPanic r ->
  cvStep w w' (sigRole p) (match r with Next q => sigRole q | _ => idleRole end).
Proof.
  destruct p as [d|x|x]; simpl; intros Hr Hn; [|by simplify_eq; apply cvStep_same|].
  - destruct (Dequeue_step d (waiters (cv (prim w))) (store w)) as [[r1 q1] s1] eqn:E.
    assert (match r with Next q => sigRole q | _ => idleRole end = Role ONone (dqOut r1) /\
      w' = withStore s1 (upd (set_waiters q1) w)) as [-> ->].
    { by destruct r1 as [|[|]|]; simplify_eq. }
    split; [done|by eapply touches_dequeue|]. intros rs t Ht H. unfold cvq in *. simpl in *.
    eapply WInv_dequeue1; [exact H|exact Ht|exact E].
  - simplify_eq. split; [done|simpl; eauto with sync|]. intros. unfold cvq in *. simpl. by apply WInv_signal.
Qed.

Lemma broadcast_cvStep p w w' r :
  Broadcast_step p w = (r, w') -> noPanic r ->
  cvStep w w' (bcRole p) (match r with Next q => bcRole q | _ => idleRole end).
Proof.
  destruct p as [n d|n x|]; simpl; intros Hr Hn; [| |by simplify_eq; apply cvStep_same].
  - destruct (Dequeue_step d (waiters (cv (prim w))) (store w)) as [[r1 q1] s1] eqn:E.
    assert (match r with Next q => bcRole q | _ => idleRole end = Role ONone (dqOut r1) /\
      w' = withStore s1 (upd (set_waiters q1) w)) as [-> ->].
    { destruct r1 as [|[|]|]; simplify_eq; try done. simpl. by destruct (0 <? n). }
    split; [done|by eapply touches_dequeue|]. intros rs t Ht H. unfold cvq in *. simpl in *.
    eapply WInv_dequeue1; [exact H|exact Ht|exact E].
  - simplify_eq. split; [done|simpl; eauto with sync|]. intros. unfold cvq in *. simpl. by apply WInv_signal.
Qed.

Lemma timeout_cvStep st o p w w' r :
  timeoutOk p -> noPanic r -> WaitTimeout_step st o p w = Some (r, w') ->
  match p with CUnlock _ _ | CLock _ _ _ => False | _ => True end ->
  cvStep w w' (pcSideC p) (match r with Next q => pcSideC q | _ => idleRole end).
Proof.
  intros Hok Hn Hr Hp. destruct p; try done; try (eapply (wait_cvStep st o); [..|exact Hr|]; done);
    simpl in Hr; inv_step Hr; simpl in *; try done;
    (split; [done|simpl|unfold cvq; simpl; eauto with sync]); eauto with sync;
    match goal with H : WaitTimeout _ _ _ = _ |- _ =>
      apply WaitTimeout_inv in H as [[_ H]|[_ ->]]; eauto with sync end.
Qed.

(** ** Modes *)

Definition lockMode (p : lockpc) : mode :=
  match p with LCancel _ | LLocks | LCtxCancel _ => MOther | LWait x => MWait x | _ => MSeek end.

Definition unlockMode (p : unlockpc) : mode :=
  match p with UDeq _ => MWake | USignal x => MSig x | _ => MOther end.

Definition modeM (th : thread) : mode :=
  match frm th with
  | FLock _ p | FWait _ (CLock _ _ p) | FWaitTimeout _ (CLock _ _ p) | FWaitFor _ (CLock _ _ p) => lockMode p
  | FUnlock p | FWait _ (CUnlock _ p) | FWaitTimeout _ (CUnlock _ p) | FWaitFor _ (CUnlock _ p) => unlockMode p
  | _ => MOther
  end.

Definition free (w : world pair) : Prop := state (mu (prim w)) = 0.

(** The kinds of steps, as the two queues see them. *)
Inductive kind (th th' : thread) (w w' : world pair) : Prop :=
| KLock st o p r v : Lock_step st o p (mview w) = Some (r, v) -> lockOk p -> w' = mput w v ->
    sideM th = lockRole p -> sideM th' = outM r -> sideC th' = sideC th -> modeM th = lockMode p ->
    modeM th' = (match r with Next q => lockMode q | _ => MOther end) -> kind th th' w w'
| KUnlock p r v : Unlock_step p (mview w) = (r, v) -> w' = mput w v ->
    sideM th = unlockRole p -> sideM th' = outU r -> sideC th' = sideC th -> modeM th = unlockMode p ->
    modeM th' = (match r with Next q => unlockMode q | _ => MOther end) -> kind th th' w w'
| KTry : store w' = store w -> muq w' = muq w -> cvq w' = cvq w -> (free w' -> free w) ->
    sideM th' = sideM th -> sideC th' = sideC th -> modeM th = MOther -> modeM th' = MOther -> kind th th' w w'
| KCond : cvStep w w' (sideC th) (sideC th') -> sideM th = idleRole -> sideM th' = idleRole ->
    modeM th = MOther -> modeM th' = MOther \/ modeM th' = MSeek -> kind th th' w w'.

(** Inside [Unlock] or [Lock] of the mutex. *)
Definition onMutex (p : cpc) : bool := match p with CUnlock _ _ | CLock _ _ _ => true | _ => false end.

Definition waitFrame (k : cpc -> frame) : Prop :=
  exists st, k = FWait st \/ k = FWaitTimeout st \/ k = FWaitFor st.

Lemma frame_sides k p h : waitFrame k ->
  sideM (mkThread (k p) h) = pcSideM p /\ sideC (mkThread (k p) h) = pcSideC p /\
  modeM (mkThread (k p) h) = match p with CLock _ _ q => lockMode q | CUnlock _ q => unlockMode q | _ => MOther end.
Proof. intros [st [-> |[-> | ->]]]; by destruct p. Qed.

(** A step of a wait; [d] is the frame after the wait has returned. *)
Lemma wait_mutex_kind k d st o p w r w' h h' :
  waitFrame k -> waitOk p -> noPanic r -> onMutex p = true -> Wait_step st o p w = Some (r, w') ->
  (exists v, d = FIdle v) \/ d = k CTest ->
  kind (mkThread (k p) h) (mkThread (match r with Next q => k q | _ => d end) h') w w'.
Proof.
  intros Hk Hok Hn Hp Hr Hd.
  assert (Hd' : sideM (mkThread d h') = idleRole /\ sideC (mkThread d h') = idleRole /\ modeM (mkThread d h') = MOther).
  { destruct Hd as [[v ->]| ->]; [done|]. by apply (frame_sides k CTest h'). }
  destruct Hd' as (D1 & D2 & D3). destruct (frame_sides k p h Hk) as (S1 & S2 & S3).
  pose proof (fun p' => frame_sides k p' h' Hk) as N.
  destruct p as [| | | | | |x q| | | | |b st' q]; try done; simpl in Hr, S1, S2, S3.
  - destruct (Unlock_step q (mview w)) as [r1 v] eqn:E.
    destruct r1 as [q1|[]|e]; simplify_eq; try done.
    + destruct (N (CUnlock x q1)) as (N1 & N2 & N3). simpl in N1, N2, N3. by apply (KUnlock _ _ _ _ q _ v E); simpl; congruence || done.
    + destruct (N (CWait x)) as (N1 & N2 & N3). simpl in N1, N2, N3. by apply (KUnlock _ _ _ _ q _ v E); simpl; congruence || done.
  - apply bind_Some in Hr as ([r1 v] & E & Hr). destruct r1 as [q1|[]|e]; simplify_eq; try done;
      try (apply (KLock _ _ _ _ st' o q _ v E); simpl; congruence || done).
    destruct (N (CLock b st' q1)) as (N1 & N2 & N3). simpl in N1, N2, N3. by apply (KLock _ _ _ _ st' o q _ v E); simpl; congruence || done.
Qed.

Lemma wait_cond_kind k d p w r w' h h' :
  waitFrame k -> onMutex p = false -> noPanic r ->
  cvStep w w' (pcSideC p) (match r with Next q => pcSideC q | _ => idleRole end) ->
  match r with
  | Next (CLock _ _ q) => q = LFast | Next (CUnlock _ q) => q = ULoad | Return b => b = true \/ b = false | _ => True
  end ->
  (exists v, d = FIdle v) \/ d = k CTest ->
  kind (mkThread (k p) h) (mkThread (match r with Next q => k q | _ => d end) h') w w'.
Proof.
  intros Hk Hp Hn Hs Hq Hd.
  assert (Hd' : sideM (mkThread d h') = idleRole /\ sideC (mkThread d h') = idleRole /\ modeM (mkThread d h') = MOther).
  { destruct Hd as [[v ->]| ->]; [done|]. by apply (frame_sides k CTest h'). }
  destruct Hd' as (D1 & D2 & D3). destruct (frame_sides k p h Hk) as (S1 & S2 & S3).
  destruct r as [q|b|e]; [| |done].
  - destruct (frame_sides k q h' Hk) as (N1 & N2 & N3). apply KCond; rewrite ?S1, ?S2, ?S3, ?N1, ?N2, ?N3; try done.
    + by destruct p.
    + destruct q; try done; by subst.
    + by destruct p.
    + destruct q; try (by left); subst; auto.
  - apply KCond; rewrite ?S1, ?S2, ?S3, ?D1, ?D2, ?D3; auto; by destruct p.
Qed.

Lemma cond_next st o p w r w' :
  onMutex p = false -> Wait_step st o p w = Some (r, w') ->
  match r with
  | Next (CLock _ _ q) => q = LFast | Next (CUnlock _ q) => q = ULoad | Return b => b = true \/ b = false | _ => True
  end.
Proof. intros Hp Hr. destruct p; try done; simpl in Hr; inv_step Hr; done. Qed.

Lemma not_onMutex p : onMutex p = false -> match p with CUnlock _ _ | CLock _ _ _ => False | _ => True end.
Proof. by destruct p. Qed.

Lemma wait_kind k d st o p w r w' h h' :
  waitFrame k -> waitOk p -> noPanic r -> Wait_step st o p w = Some (r, w') ->
  (exists v, d = FIdle v) \/ d = k CTest ->
  kind (mkThread (k p) h) (mkThread (match r with Next q => k q | _ => d end) h') w w'.
Proof.
  intros Hk Hok Hn Hr Hd. destruct (onMutex p) eqn:Ep; [by eapply wait_mutex_kind|].
  apply wait_cond_kind; try done; [|by eapply cond_next].
  eapply wait_cvStep; [done|done|exact Hr|by apply not_onMutex].
Qed.

Lemma run_kind o th w th' w' :
  wellFormed th -> wellFormed th' -> crun o th w = Some (th', w') -> kind th th' w w'.
Proof.
  intros [_ Hwf] [_ Hwf'] Hr. destruct th as [f h]. unfold crun, wellFormed in *. simpl in *.
  destruct f as [r|st p|p|p|st p|st p|st p|p|p|e]; try done.
  - apply bind_Some in Hr as ([r1 v] & E & Hr). simplify_eq.
    by eapply (KLock _ _ _ _ st o p r1 v); try done; unfold sideM, sideC, modeM; destruct r1.
  - destruct (Unlock_step p (mview w)) as [r1 v] eqn:E. simplify_eq.
    by eapply (KUnlock _ _ _ _ p r1 v); try done; unfold sideM, sideC, modeM; destruct r1.
  - destruct p; simpl in Hr; inv_step Hr; apply KTry; unfold free; simpl; auto; bool_facts; lia.
  - apply bind_Some in Hr as ([r1 v] & E & Hr). simplify_eq.
    assert (Hn : noPanic r1) by (by destruct r1). assert (Hok : waitOk p) by (clear - Hwf; by destruct p).
    pose proof (wait_kind (FWait st) (FIdle (match r1 with Return b => Some b | _ => None end)) st o p w r1 w' h
      (match r1 with Return _ => h + 1 | _ => h end) ltac:(eexists; eauto) Hok Hn E ltac:(eauto)).
    by destruct r1.
  - apply bind_Some in Hr as ([r1 v] & E & Hr). simplify_eq.
    assert (Hn : noPanic r1) by (by destruct r1).
    set (h' := match r1 with Return _ => h + 1 | _ => h end).
    set (d := FIdle (match r1 with Return b => Some b | _ => None end)).
    assert (kind (mkThread (FWaitTimeout st p) h) (mkThread (match r1 with Next q => FWaitTimeout st q | _ => d end) h') w w').
    { assert (Hok : timeoutOk p) by (clear - Hwf; by destruct p). destruct (onMutex p) eqn:Ep.
      - apply (wait_mutex_kind (FWaitTimeout st) d st o p); [eexists; eauto|by destruct p|done..|by destruct p|by left; eexists].
      - apply (wait_cond_kind (FWaitTimeout st) d p); [eexists; eauto|done..| | |by left; eexists].
        + eapply (timeout_cvStep st o); [done|done|exact E|by apply not_onMutex].
        + destruct p; try done; try (by eapply (cond_next st o _ w _ w'); [|exact E]); simpl in E; inv_step E; by try case_match. }
    subst h' d. by destruct r1.
  - apply bind_Some in Hr as ([r1 v] & E & Hr). simplify_eq.
    assert (p = CTest \/ p <> CTest) as [-> |Hne] by (destruct p; auto; by right).
    { simpl in E. destruct (alt o); simplify_eq; apply KCond; auto; by apply cvStep_same. }
    assert (E' : ('(r, w) ← Wait_step st o p w;
      Some (match r with Return _ => Next CTest | _ => r end, w)) = Some (r1, w')) by (clear - E Hne; by destruct p).
    apply bind_Some in E' as ([r2 v] & E2 & E'). clear E.
    assert (Hn : noPanic r1) by (by destruct r1). assert (Hn2 : noPanic r2) by (by destruct r2; simplify_eq).
    assert (Hok : waitOk p) by (clear - Hwf Hne; by destruct p).
    pose proof (wait_kind (FWaitFor st) (FWaitFor st CTest) st o p w r2 v h h ltac:(eexists; eauto) Hok Hn2 E2 ltac:(auto)).
    assert (Est : match p with CTest => clk o | _ => st end = st) by (clear - Hne; by destruct p).
    destruct r2; simplify_eq; unfold after1; simpl in *; rewrite Est; done.
  - destruct (Signal_step p w) as [r1 v] eqn:E. simplify_eq. assert (Hn : noPanic r1) by (by destruct r1).
    pose proof (signal_cvStep _ _ _ _ E Hn). destruct r1; apply KCond; auto.
  - destruct (Broadcast_step p w) as [r1 v] eqn:E. simplify_eq. assert (Hn : noPanic r1) by (by destruct r1).
    pose proof (broadcast_cvStep _ _ _ _ E Hn). destruct r1; apply KCond; auto.
Qed.

(** ** Both sides stay in order, and nobody parked on the mutex is forgotten *)

Lemma sideM_agrees w ths : Inv (w, ths) -> Forall2 (agrees (free w)) (sideM <$> ths) (modeM <$> ths).
Proof.
  intros [Hh Hs Hwf _]. simpl in *. apply Forall2_fmap_2, Forall_Forall2_diag. apply Forall_lookup. intros t th Ht.
  pose proof (sumf_le_F holds wellFormed cv_holds_nonneg _ _ _ Hwf Ht) as Hle.
  destruct (Forall_lookup_1 _ _ _ _ Hwf Ht) as [Hheld Hf].
  assert (HL : forall p, lockOk p -> lockHolds p <= state (mu (prim w)) -> agrees (free w) (lockRole p) (lockMode p)).
  { intros p Hok Hp. unfold agrees, free. destruct p; simpl in *; try done; repeat split; intros; simplify_eq; auto; lia. }
  assert (HU : forall p, agrees (free w) (unlockRole p) (unlockMode p)).
  { intros p. unfold agrees. destruct p as [| | |[]|]; simpl; repeat split; intros; by simplify_eq. }
  assert (HO : agrees (free w) idleRole MOther) by (unfold agrees; simpl; repeat split; by intros).
  unfold sideM, modeM, holds in *. destruct (frm th) as [|st p|p|p|st p|st p|st p|p|p|]; auto;
    try (apply HL; [done|simpl in *; lia]);
    destruct p; simpl; auto; (apply HL; [done|simpl in *; lia]).
Qed.

Lemma sides_at {A} (f : thread -> A) (ths : list thread) t th :
  ths !! t = Some th -> (f <$> ths) !! t = Some (f th).
Proof. intros H. by rewrite list_lookup_fmap, H. Qed.

(** A step of [Lock] does not touch the tokens of others, nor of [Unlock]. *)
Lemma lock_tokens st o p (v v' : world Mutex.Mutex) r rs its t :
  Lock_step st o p v = Some (r, v') -> rs !! t = Some (lockRole p) -> WInv rs its (store v) ->
  keepsTokens rs t (store v) (store v').
Proof.
  intros Hr Ht H t0 h0 x Hne H0 Hx. apply not_eq_sym in Hne.
  destruct p; simpl in Hr; inv_step Hr; simpl in *; eauto with sync.
Qed.

Lemma unlock_tokens p (v v' : world Mutex.Mutex) r rs its t :
  Unlock_step p v = (r, v') -> rs !! t = Some (unlockRole p) -> WInv rs its (store v) ->
  keepsTokens rs t (store v) (store v').
Proof.
  intros Hr Ht H t0 h0 x Hne H0 Hx. apply not_eq_sym in Hne.
  destruct p; simpl in Hr; inv_step Hr; simpl in *; eauto with sync.
Qed.

Section Step.
Context (w w' : world pair) (ths : list thread) (t : nat) (th th' : thread).
Context (HI : Inv (w, ths)) (HS : Split w ths) (Ht : ths !! t = Some th).
Context (HI' : Inv (w', <[t:=th']> ths)) (HK : kind th th' w w').

Lemma Split_run : Split w' (<[t:=th']> ths).
Proof.
  pose proof (cv_Sides _ _ HI HS) as HSS. pose proof (sides_at sideM _ _ _ Ht) as HtM.
  pose proof (sides_at sideC _ _ _ Ht) as HtC. pose proof (inv_protocol _ HI') as HT.
  assert (Hmu : forall v r, w' = mput w v -> touches r (store w) (store w') -> sideM th = r -> sideC th' = sideC th ->
    WInv (sideC <$> <[t:=th']> ths) (cvq w') (store w')).
  { intros v r -> Hto Hr Hc. rewrite list_fmap_insert, Hc, list_insert_id by done.
    eapply Sides_other; [exact HSS|exact HtM|by rewrite Hr|exact HT]. }
  destruct HK as [st o p r v E Hok -> S1 S2 S3 M1 M2|p r v E -> S1 S2 S3 M1 M2|Es Em Ec Hf S2 S3 _ _|[Em Hto Hc] S1 S2 _ _].
  - split; [|eapply Hmu; eauto; by apply lock_touches in E].
    rewrite list_fmap_insert, S2. rewrite S1 in HtM. exact (lock_side _ _ _ (mview w) _ _ _ _ Hok E HtM (split_m _ _ HS)).
  - split; [|eapply Hmu; eauto; by apply unlock_touches in E].
    rewrite list_fmap_insert, S2. rewrite S1 in HtM. exact (unlock_side _ (mview w) _ _ _ _ E HtM (split_m _ _ HS)).
  - split; rewrite list_fmap_insert, ?Es, ?Em, ?Ec, ?S2, ?S3, list_insert_id by done; apply HS.
  - split; rewrite list_fmap_insert; [|apply Hc; [done|apply HS]].
    rewrite S2, list_insert_id by congruence. unfold muq. rewrite Em.
    eapply Sides_other; [exact (Sides_sym _ _ _ _ _ HSS)|exact HtC|done|exact HT].
Qed.

Lemma cv_NoLost_run :
  NoLost (free w) (store w) (modeM <$> ths) -> NoLost (free w') (store w') (modeM <$> <[t:=th']> ths).
Proof.
  intros HN. pose proof (sideM_agrees _ _ HI) as Hag. pose proof (sideM_agrees _ _ HI') as Hag'.
  pose proof (sides_at modeM _ _ _ Ht) as Hm. pose proof (sides_at sideM _ _ _ Ht) as HtM.
  pose proof (split_m _ _ HS) as HW. pose proof (split_m _ _ Split_run) as HW'.
  destruct HK as [st o p r v E Hok -> S1 S2 S3 M1 M2|p r v E -> S1 S2 S3 M1 M2|Es Em Ec Hf S2 S3 M1 M2|[Em Hto Hc] S1 S2 M1 M2].
  - rewrite S1 in HtM. pose proof (lock_tokens _ _ _ (mview w) _ _ _ _ _ E HtM HW) as Hk.
    rewrite list_fmap_insert, M2. rewrite M1 in Hm. unfold free in *. destruct p; simpl in E; inv_step E; try done; bool_facts;
      try (intros Hf; exfalso; simpl in Hf; lia); try (eapply self_NoLost; [exact Hm|exact I]);
      try (eapply passive_NoLost; eauto; by simpl; auto; fail).
  - rewrite S1 in HtM. pose proof (unlock_tokens _ (mview w) _ _ _ _ _ E HtM HW) as Hk.
    rewrite list_fmap_insert in *. rewrite M2 in *. rewrite M1 in Hm.
    destruct p as [| | |[|x|x|x]|x]; simpl in E.
    + destruct (negb _); simplify_eq; eapply passive_NoLost; eauto; by simpl; auto.
    + simplify_eq. by eapply passive_NoLost; eauto.
    + simplify_eq. by eapply self_NoLost.
    + destruct (items (Mutex.waiters (mu (prim w)))) as [|y l] eqn:Hi; simplify_eq; [|by eapply self_NoLost].
      eapply empty_NoLost; [exact HW'|exact Hag'|]. intros y. unfold muq. simpl. rewrite Hi. apply not_elem_of_nil.
    + simplify_eq. by eapply self_NoLost.
    + destruct (cancelled (wget (store w) x)) eqn:Hx; simplify_eq; [by eapply self_NoLost|].
      eapply (found_NoLost (free w)); [exact HW|exact Hag|exact Hm|exact HtM|exact Hx|done|auto|done].
    + simplify_eq. by eapply self_NoLost.
    + simplify_eq. eapply signal_NoLost; eauto.
  - rewrite list_fmap_insert. eapply passive_NoLost; [exact Hag|exact Hm| |exact HN|rewrite M1; by intros []|done|by rewrite M1, M2].
    rewrite Es. by intros ? ?.
  - pose proof (Sides_tokens _ _ _ _ _ _ _ _ (cv_Sides _ _ HI HS) (sides_at sideC _ _ _ Ht) Hto) as Hk.
    rewrite list_fmap_insert. destruct M2 as [M2|M2]; [|eapply self_NoLost; [exact Hm|by rewrite M2]].
    eapply passive_NoLost; [exact Hag|exact Hm|exact Hk|exact HN|rewrite M1; by intros []| |by rewrite M1, M2].
    unfold free. by rewrite Em.
Qed.
End Step.

(** ** In every reachable state *)

Record Live (c : world pair * list thread) : Prop := {
  live_inv : Inv c;
  live_split : Split c.1 c.2;
  live_woken : NoLost (free c.1) (store c.1) (modeM <$> c.2)
}.

Lemma cv_Live_run w ths t th th' w' o :
  Live (w, ths) -> ths !! t = Some th -> crun o th w = Some (th', w') -> Live (w', <[t:=th']> ths).
Proof.
  intros [HI HS HN] Ht Hr. simpl in *. pose proof (cv_Inv_run _ _ _ _ _ _ _ HI Ht Hr) as HI'.
  assert (Hwf' : wellFormed th').
  { apply (Forall_lookup_1 _ _ t _ (inv_threads _ HI')). apply list_lookup_insert_eq. by eapply lookup_lt_Some. }
  pose proof (run_kind _ _ _ _ _ (Forall_lookup_1 _ _ _ _ (inv_threads _ HI) Ht) Hwf' Hr) as HK.
  split; simpl; [done|by eapply Split_run|by eapply cv_NoLost_run].
Qed.

Lemma cv_Live_call w ths t th th' op now :
  Live (w, ths) -> ths !! t = Some th -> ccall op now th = Some th' -> Live (w, <[t:=th']> ths).
Proof.
  intros [HI [HM HC] HN] Ht Hc. simpl in *.
  assert (sideM th' = sideM th /\ sideC th' = sideC th /\ modeM th = MOther /\ (modeM th' = MOther \/ modeM th' = MSeek))
    as (S1 & S2 & M1 & M2).
  { unfold ccall, sideM, sideC, modeM in *. destruct (frm th); try done.
    destruct op; simplify_eq; simpl; auto; case_match; simplify_eq; simpl; auto. }
  pose proof (sides_at modeM _ _ _ Ht) as Hm. split; simpl; [by eapply cv_Inv_call|split|].
  - by rewrite list_fmap_insert, S1, list_insert_id by (by apply sides_at).
  - by rewrite list_fmap_insert, S2, list_insert_id by (by apply sides_at).
  - rewrite list_fmap_insert. destruct M2 as [-> | ->]; [|by eapply self_NoLost].
    by rewrite <- M1, list_insert_id.
Qed.

Lemma cv_reach_Live P k now c : reach condvar P (initial k now) c -> Live c.
Proof.
  apply reach_invariant; intros.
  - split; simpl; [apply cv_Inv_initial|split; simpl; rewrite fmap_replicate; apply WInv_init|].
    rewrite fmap_replicate. intros _ (t & x & [? _]%lookup_replicate & _). done.
  - by eapply cv_Live_call.
  - by eapply cv_Live_run.
  - destruct H as [[] [] ?]. by split.
Qed.

(** Nobody is linked twice in a queue, and nobody owns two waiters. *)
Lemma occ_NoDup (l : list nat) : (forall x, occ x l <= 1) -> NoDup l.
Proof.
  intros Hl. apply NoDup_alt. intros i j y Hi Hj. destruct (decide (i = j)) as [|Hne]; [done|exfalso].
  pose proof (sumf_lookup_two (hit y) l i j y y (fun z => proj1 (hit_bound y z)) Hne Hi Hj) as H.
  rewrite hit_refl in H. specialize (Hl y). unfold occ in Hl. lia.
Qed.

Lemma cnt_occ f x rs : cnt f x rs = occ x (omap f rs).
Proof.
  induction rs as [|r rs IH]; [done|]. change (cnt f x (r :: rs)) with (refers f x r + cnt f x rs).
  unfold refers. simpl. rewrite IH. by destruct (f r).
Qed.

Lemma WInv_NoDup rs its s : WInv rs its s -> NoDup its /\ NoDup (omap shared rs).
Proof.
  intros H. split; apply occ_NoDup; intros x; specialize (H x); unfold wok in H; rewrite <- ?cnt_occ; lia.
Qed.

(** * Theorems *)

Definition lockWait (p : lockpc) : option nat := match p with LWait x => Some x | _ => None end.
Definition waitWait (p : cpc) : option nat :=
  match p with CWait x => Some x | CLock _ _ q => lockWait q | _ => None end.

(** The channel a goroutine receives from; a wait with a timeout moves on by
    itself. *)
Definition waitingOn (th : thread) : option nat :=
  match frm th with
  | FLock _ p => lockWait p
  | FWait _ p | FWaitFor _ p => waitWait p
  | FWaitTimeout _ (CLock _ _ p) => lockWait p
  | _ => None
  end.

Definition parked (s : wstore) (th : thread) : Prop :=
  exists x, waitingOn th = Some x /\ Ready (wget s x) = false.

(** Nothing to do without the help of another goroutine. *)
Definition resting (s : wstore) (th : thread) : Prop :=
  parked s th \/ exists r, frm th = FIdle r.

#[export] Instance cv_parked_dec s th : Decision (parked s th).
Proof.
  unfold parked. destruct (waitingOn th) as [w|]; [|right; by intros (? & ? & _)].
  destruct (Ready (wget s w)) eqn:E; [right; intros (? & ? & ?); congruence|left; eauto].
Defined.

#[export] Instance cv_resting_dec s th : Decision (resting s th).
Proof.
  unfold resting. destruct (decide (parked s th)) as [?|Hn]; [left; by left|].
  destruct (frm th) eqn:E; try (right; intros [?|[? ?]]; [done|congruence]). left. eauto.
Defined.

(** Parked in [Wait] or [WaitFor] on the waiter it has published. *)
Definition awaiting (th : thread) : option nat :=
  match frm th with FWait _ (CWait x) | FWaitFor _ (CWait x) => Some x | _ => None end.

Lemma waitingOn_cases th x : waitingOn th = Some x ->
  modeM th = MWait x \/ awaiting th = Some x /\ modeM th = MOther /\ sideC th = Role (OShared x) HNone.
Proof.
  unfold waitingOn, awaiting, modeM, sideC. destruct (frm th) as [|st p|p|p|st p|st p|st p|p|p|]; try done;
    try (destruct p; try done; by intros [= ->]; left);
    destruct p as [| | | | | | | | | | |b s q]; simpl; try done; try (intros [= ->]; auto; fail);
    destruct q; simpl; try done; intros [= ->]; auto.
Qed.

Lemma cv_resting_mode s th : resting s th -> restingMode s (modeM th).
Proof.
  intros [(x & Hx & Hrd)|[r E]]; [|left; unfold modeM; by rewrite E].
  destruct (waitingOn_cases _ _ Hx) as [->|(_ & -> & _)]; [right|left]; eauto.
Qed.

Lemma cv_resting_holds s th : resting s th -> holds th = held th.
Proof.
  intros [(x & Hx & _)|[r E]]; unfold holds; [|rewrite E; lia]. unfold waitingOn in Hx.
  destruct (frm th) as [|st p|p|p|st p|st p|st p|p|p|]; try done; destruct p; try done; simpl in *;
    try lia; match goal with q : lockpc |- _ => destruct q; try done; simpl; lia end.
Qed.

Lemma cv_resting_hand s th : resting s th -> hand (sideC th) = HNone.
Proof.
  intros [(x & Hx & _)|[r E]]; unfold sideC; [|by rewrite E]. unfold waitingOn in Hx.
  destruct (frm th) as [|st p|p|p|st p|st p|st p|p|p|]; try done; by destruct p.
Qed.

(** A parked goroutine among goroutines at rest waits for a holder of the
    mutex, or for a signal that will find it. *)
Lemma cv_rest w ths t th :
  Live (w, ths) -> Forall (resting (store w)) ths -> ths !! t = Some th -> parked (store w) th ->
  (exists t' th', ths !! t' = Some th' /\ 0 < held th') \/
  exists x, awaiting th = Some x /\ x ∈ cvq w.
Proof.
  intros [[Hh Hs _ _] [_ HC] HN] Hrest Ht (x & Hx & Hrd). simpl in *.
  destruct (waitingOn_cases _ _ Hx) as [Hm|(Hx' & _ & Hc)].
  - left. assert (~ free w) as Hf.
    { eapply NoLost_resting; [exact HN| |].
      - apply Forall_fmap. eapply Forall_impl; [exact Hrest|]. intros ?. apply cv_resting_mode.
      - exists t, x. split; [|done]. by rewrite (sides_at _ _ _ _ Ht), Hm. }
    destruct (sumf_pos holds ths) as (t' & th' & Ht' & Hpos); [unfold free in Hf; lia|].
    exists t', th'. split; [done|]. rewrite <- (cv_resting_holds (store w)); [done|].
    exact (Forall_lookup_1 _ _ _ _ Hrest Ht').
  - right. exists x. split; [done|].
    destruct (WInv_parked _ _ _ t HNone x HC) as [?|(t1 & r & Hr & Hh1)]; [|done|done|].
    { by rewrite (sides_at _ _ _ _ Ht), Hc. }
    exfalso. rewrite list_lookup_fmap in Hr. apply fmap_Some in Hr as (th1 & Ht1 & ->).
    pose proof (cv_resting_hand _ _ (Forall_lookup_1 _ _ _ _ Hrest Ht1)) as E.
    unfold raw, dead, alive in Hh1. rewrite E in Hh1. by destruct Hh1 as [?|[?|?]].
Qed.


(** T0 waits; T1 signals, and T0 comes back while T1 holds the mutex. *)
Definition backTooEarly : list (label cop) :=
  parkedTrace ++ Call 1 OpLock 0 :: runs 1 2 ++ Call 1 OpSignal 0 :: runs 1 5 ++ runs 0 9.

