(* ===== verification/ProdCons.v ===== *)
(** * The producers and consumers of examples/condvar

    Three producers append items to a queue under a mutex and signal; two
    consumers wait for the queue to be non-empty and take items from it.  The
    goroutines run over the steps of CondVar.v, a condition variable with its
    mutex; what they print is part of the data, sleeps are left to the
    scheduler. *)

From Stdlib Require Import ZArith Lia.
From stdpp Require Import base list gmap strings.
From S2P Require Import Prelude.
From S2P Require Import Waiter.
From S2P Require Import Mutex.
From S2P Require Import CondVar.
From S2P Require Import Sides.
From S2P Require Import CVLive.
Import CondVar.

#[local] Open Scope Z_scope.

(** * The program *)

Definition numProducers : Z := 3.
Definition itemsPerProducer : Z := 3.
Definition numConsumers : Z := 2.
Definition totalItems : Z := numProducers * 3.
Definition itemsPerConsumer : Z := totalItems / numConsumers.

Inductive line := Produced (id item size : Z) | Waiting (id : Z) | Consumed (id item size : Z).

Record data := mkData { queue : list Z; printed : list line }.

Inductive role := Producer | Consumer.

(** Where a goroutine is in an iteration of its loop.  [GTest] is the test
    [len(queue) == 0], [GWaiting] inside [condvar.Wait], [GUse] the body:
    append or take an item; [GPanic] an index out of range. *)
Inductive stage :=
| GNext | GLocking | GTest | GWaiting | GUse | GUnlock | GUnlocking | GSignal | GSignaling | GPanic.

Record goroutine := Goroutine { gth : thread; grole : role; gid : Z; iter : Z; stg : stage }.

Definition limit (r : role) : Z := match r with Producer => itemsPerProducer | Consumer => itemsPerConsumer end.

Definition returned (th : thread) : bool := match frm th with FIdle _ => true | _ => false end.

Definition size (q : list Z) : Z := Z.of_nat (length q).

(** The body of the critical section. *)
Definition use (g : goroutine) (d : data) : option data :=
  match grole g with
  | Producer =>
      let item := gid g * 10 + iter g in
      let q := queue d ++ [item] in
      Some (mkData q (printed d ++ [Produced (gid g) item (size q)]))
  | Consumer =>
      match queue d with
      | [] => None
      | item :: q => Some (mkData q (printed d ++ [Consumed (gid g) item (size q)]))
      end
  end.

Definition world' : Type := world pair * data.

Definition at_ (s : stage) (g : goroutine) : goroutine := Goroutine (gth g) (grole g) (gid g) (iter g) s.
Definition with_ (th : thread) (s : stage) (g : goroutine) : goroutine := Goroutine th (grole g) (gid g) (iter g) s.
Definition again (g : goroutine) : goroutine := Goroutine (gth g) (grole g) (gid g) (iter g + 1) GNext.

(** A step inside a call that leads to [s] when the call has returned. *)
Definition inside (o : oracle) (s : stage) (g : goroutine) (w : world') : option (goroutine * world') :=
  if returned (gth g) then Some (at_ s g, w)
  else '(th, sh) ← crun o (gth g) w.1; Some (with_ th (stg g) g, (sh, w.2)).

Definition begin (op : cop) (o : oracle) (s : stage) (g : goroutine) (w : world') : option (goroutine * world') :=
  th ← ccall op (clk o) (gth g); Some (with_ th s g, w).

Definition grun (o : oracle) (g : goroutine) (w : world') : option (goroutine * world') :=
  match stg g with
  | GNext => if iter g <? limit (grole g) then begin OpLock o GLocking g w else None
  | GLocking => inside o (match grole g with Producer => GUse | Consumer => GTest end) g w
  | GTest =>
      match queue w.2 with
      | [] => th ← ccall OpWait (clk o) (gth g);
              Some (with_ th GWaiting g, (w.1, mkData [] (printed w.2 ++ [Waiting (gid g)])))
      | _ => Some (at_ GUse g, w)
      end
  | GWaiting => inside o GTest g w
  | GUse => Some (match use g w.2 with Some d => (at_ GUnlock g, (w.1, d)) | None => (at_ GPanic g, w) end)
  | GUnlock => begin OpUnlock o GUnlocking g w
  | GUnlocking =>
      match grole g with
      | Producer => inside o GSignal g w
      | Consumer => if returned (gth g) then Some (again g, w) else inside o GNext g w
      end
  | GSignal => begin OpSignal o GSignaling g w
  | GSignaling => if returned (gth g) then Some (again g, w) else inside o GNext g w
  | GPanic => None
  end.

Definition prodcons : machine world' goroutine cop := Machine (fun _ _ _ => None) grun (fun _ w => w).

Definition start (r : role) (id : Z) : goroutine := Goroutine (mkThread (FIdle None) 0) r id 0 GNext.

Definition main : config (Sh:=world') (Th:=goroutine) :=
  (((CondVar.initial 5 0).1, mkData [] []),
   (start Producer <$> seqZ 0 numProducers) ++ (start Consumer <$> seqZ 0 numConsumers)).

(** * What holds at every moment *)

Definition producedItems (d : data) : list Z :=
  omap (fun l => match l with Produced _ x _ => Some x | _ => None end) (printed d).
Definition consumedItems (d : data) : list Z :=
  omap (fun l => match l with Consumed _ x _ => Some x | _ => None end) (printed d).

(** Between [Lock] and [Unlock], in no call. *)
Definition holding (g : goroutine) : bool :=
  match stg g with GTest | GUse | GUnlock => true | _ => false end.

Definition idle (th : thread) : Prop := exists r, frm th = FIdle r.

(** What the mutex knows of it, and how far it can be. *)
Definition agrees (g : goroutine) : Prop :=
  let th := gth g in
  0 <= iter g <= limit (grole g) /\ (stg g <> GNext -> iter g < limit (grole g)) /\
  match stg g with
  | GNext | GSignal => idle th /\ held th = 0
  | GTest | GUse | GUnlock => idle th /\ held th = 1
  | GLocking => (exists st p, frm th = FLock st p) /\ held th = 0 \/ idle th /\ held th = 1
  | GWaiting => (exists st p, frm th = FWait st p) /\ held th = 0 \/ idle th /\ held th = 1
  | GUnlocking => ((exists p, frm th = FUnlock p) \/ idle th) /\ held th = 0
  | GSignaling => ((exists p, frm th = FSignal p) \/ idle th) /\ held th = 0
  | GPanic => False
  end.

(** Items the goroutine has moved. *)
Definition moved (g : goroutine) : Z :=
  iter g + match stg g with GUnlock | GUnlocking | GSignal | GSignaling => 1 | _ => 0 end.

Definition movedBy (r : role) (g : goroutine) : Z :=
  match grole g, r with Producer, Producer | Consumer, Consumer => moved g | _, _ => 0 end.

Record PC (c : world' * list goroutine) : Prop := {
  pc_prim : reach condvar no_cancel (CondVar.initial 5 0) (c.1.1, gth <$> c.2);
  pc_roles : grole <$> c.2 = [Producer; Producer; Producer; Consumer; Consumer];
  pc_agrees : Forall agrees c.2;
  pc_fifo : consumedItems c.1.2 ++ queue c.1.2 = producedItems c.1.2;
  pc_produced : size (producedItems c.1.2) = sumf (movedBy Producer) c.2;
  pc_consumed : size (consumedItems c.1.2) = sumf (movedBy Consumer) c.2;
  pc_tested : forall t g, c.2 !! t = Some g -> grole g = Consumer -> stg g = GUse -> queue c.1.2 <> []
}.

Lemma returned_idle th : returned th = true <-> idle th.
Proof. unfold returned, idle. destruct (frm th); split; try done; intros; eauto; by destruct H. Qed.

(** A step of a call goes on with it or returns from it. *)
Lemma pc_call_step o th sh th' sh' : wellFormed th' -> crun o th sh = Some (th', sh') ->
  match frm th with
  | FLock _ _ => (exists st p, frm th' = FLock st p) /\ held th' = held th \/ idle th' /\ held th' = held th + 1
  | FWait _ _ => (exists st p, frm th' = FWait st p) /\ held th' = held th \/ idle th' /\ held th' = held th + 1
  | FUnlock _ => ((exists p, frm th' = FUnlock p) \/ idle th') /\ held th' = held th
  | FSignal _ => ((exists p, frm th' = FSignal p) \/ idle th') /\ held th' = held th
  | _ => True
  end.
Proof.
  intros [_ Hwf] Hr. unfold crun, idle in *. destruct (frm th) as [|st p|p|p|st p|st p|st p|p|p|]; try done.
  - destruct (Lock_step st o p (mview sh)) as [[r v]|] eqn:E; [|done]. simpl in Hr. injection Hr as <- <-.
    destruct r as [q|b|e]; simpl in *; [left; eauto|right|done]. split; [by eexists|]. f_equal.
    destruct p; simpl in E; inv_step E; by simplify_eq.
  - destruct (Unlock_step p (mview sh)) as [r v]. injection Hr as <- <-.
    destruct r as [q|b|e]; simpl in *; [split; [by eauto|done]|split; [by eauto|lia]|done].
  - destruct (Wait_step st o p sh) as [[r v]|]; [|done]. simpl in Hr. injection Hr as <- <-.
    destruct r as [q|b|e]; simpl in *; [left; eauto|right; split; [by eexists|done]|done].
  - destruct (Signal_step p sh) as [r v]. injection Hr as <- <-.
    destruct r as [q|b|e]; simpl in *; [split; [by eauto|done]|split; [by eauto|lia]|done].
Qed.

Lemma gth_at (gs : list goroutine) t g : gs !! t = Some g -> (gth <$> gs) !! t = Some (gth g).
Proof. intros H. by rewrite list_lookup_fmap, H. Qed.

(** Two goroutines between [Lock] and [Unlock] are the same. *)
Lemma holding_exclusive c i j a b :
  PC c -> c.2 !! i = Some a -> c.2 !! j = Some b -> holding a = true -> holding b = true -> i = j.
Proof.
  intros HP Hi Hj Ha Hb. destruct (decide (i = j)) as [|Hne]; [done|exfalso].
  pose proof (cv_reach_Inv _ _ _ _ (pc_prim _ HP)) as [Hh Hs Hwf _]. simpl in *.
  assert (Hheld : forall t g, c.2 !! t = Some g -> holding g = true -> 1 <= holds (gth g)).
  { intros t g Ht Hg. pose proof (Forall_lookup_1 _ _ _ _ (pc_agrees _ HP) Ht) as (_ & _ & Ha').
    pose proof (cv_held_le _ (Forall_lookup_1 _ _ _ _ Hwf (gth_at _ _ _ Ht))).
    unfold holding in Hg. destruct (stg g); try done; lia. }
  pose proof (sumf_two_F holds wellFormed cv_holds_nonneg _ _ _ _ _ Hwf Hne (gth_at _ _ _ Hi) (gth_at _ _ _ Hj)).
  pose proof (Hheld _ _ Hi Ha). pose proof (Hheld _ _ Hj Hb). lia.
Qed.

Section Step.
Context (sh : world pair) (d : data) (gs : list goroutine) (t : nat) (g : goroutine).
Context (HP : PC ((sh, d), gs)) (Ht : gs !! t = Some g).

(** A step that leaves queue and items alone. *)
Lemma move_quiet sh' d' g' :
  reach condvar no_cancel (CondVar.initial 5 0) (sh', <[t:=gth g']> (gth <$> gs)) -> agrees g' ->
  queue d' = queue d -> producedItems d' = producedItems d -> consumedItems d' = consumedItems d ->
  grole g' = grole g -> moved g' = moved g -> (grole g' = Consumer -> stg g' = GUse -> queue d <> []) ->
  PC ((sh', d'), <[t:=g']> gs).
Proof.
  intros Hr Ha Eq Ep Ec Er Em Ht'. destruct HP as [_ Hro Hag Hf Hp Hc Hu]. simpl in *.
  assert (E : forall r, movedBy r g' = movedBy r g) by (intros r; unfold movedBy; by rewrite Er, Em).
  constructor; simpl.
  - by rewrite list_fmap_insert.
  - rewrite list_fmap_insert, Er, list_insert_id; [done|]. by rewrite list_lookup_fmap, Ht.
  - by apply Forall_insert.
  - congruence.
  - rewrite (sumf_insert _ _ _ _ _ Ht), E, Ep. lia.
  - rewrite (sumf_insert _ _ _ _ _ Ht), E, Ec. lia.
  - intros t2 g2 [(<- & <- & _)|[Hne H2]]%list_lookup_insert_Some; rewrite Eq; [done|by apply (Hu t2)].
Qed.

Lemma prim_same s : reach condvar no_cancel (CondVar.initial 5 0) (sh, <[t:=gth (at_ s g)]> (gth <$> gs)).
Proof. simpl. rewrite list_insert_id by (by apply gth_at). apply HP. Qed.

Lemma prim_call op now th' :
  ccall op now (gth g) = Some th' -> reach condvar no_cancel (CondVar.initial 5 0) (sh, <[t:=th']> (gth <$> gs)).
Proof.
  intros Hc. eapply (reach_step condvar _ _ (Call t op now)); [apply HP|done|].
  apply (exec_call condvar _ _ t op now (gth g)); [by apply gth_at|done].
Qed.

Lemma prim_run o th' sh' :
  crun o (gth g) sh = Some (th', sh') ->
  reach condvar no_cancel (CondVar.initial 5 0) (sh', <[t:=th']> (gth <$> gs)) /\ wellFormed th'.
Proof.
  intros Hr. assert (HR : reach condvar no_cancel (CondVar.initial 5 0) (sh', <[t:=th']> (gth <$> gs))).
  { eapply (reach_step condvar _ _ (Run t o)); [apply HP|done|].
    apply (exec_run condvar _ _ t o (gth g)); [by apply gth_at|done]. }
  split; [done|]. apply cv_reach_Inv in HR as [_ _ Hwf _]. apply (Forall_lookup_1 _ _ t _ Hwf).
  apply list_lookup_insert_eq. rewrite length_fmap. by eapply lookup_lt_Some.
Qed.

Lemma pc_agrees_at : agrees g.
Proof. exact (Forall_lookup_1 _ _ _ _ (pc_agrees _ HP) Ht). Qed.

(** The body of the critical section. *)
Lemma move_use d' : stg g = GUse -> use g d = Some d' -> PC ((sh, d'), <[t:=at_ GUnlock g]> gs).
Proof.
  intros Es Hu. pose proof pc_agrees_at as (Hi & Hl & Ha). rewrite Es in Ha.
  assert (Hag : agrees (at_ GUnlock g)) by (split; [done|]; split; [intros _; apply Hl; by rewrite Es|done]).
  pose proof HP as [_ Hro Has Hf Hp Hc Ht2]. simpl in Hro, Has, Hf, Hp, Hc, Ht2.
  assert (Em : moved (at_ GUnlock g) = moved g + 1) by (unfold moved; rewrite Es; simpl; lia).
  assert (Hother : forall t2 g2, <[t:=at_ GUnlock g]> gs !! t2 = Some g2 -> grole g2 = Consumer -> stg g2 = GUse -> False).
  { intros t2 g2 [(<- & <- & _)|[Hne H2]]%list_lookup_insert_Some _ E; [done|].
    apply Hne. apply (holding_exclusive _ t t2 g g2 HP Ht H2); unfold holding; [by rewrite Es|by rewrite E]. }
  assert (Hro' : grole <$> <[t:=at_ GUnlock g]> gs = grole <$> gs).
  { rewrite list_fmap_insert, list_insert_id; [done|]. by rewrite list_lookup_fmap, Ht. }
  unfold use in Hu. destruct (grole g) eqn:Er.
  - injection Hu as <-. constructor; simpl; [rewrite list_fmap_insert; exact (prim_same GUnlock)|congruence|by apply Forall_insert|..|by intros ? ? ? ? ?; exfalso; eapply Hother].
    + unfold producedItems, consumedItems in *. simpl. rewrite !omap_app. simpl. rewrite app_nil_r, app_assoc. by f_equal.
    + rewrite (sumf_insert _ _ _ _ _ Ht). unfold producedItems, size in *. simpl. rewrite omap_app, length_app. simpl.
      unfold movedBy at 2 3. simpl. rewrite Er, Em. lia.
    + rewrite (sumf_insert _ _ _ _ _ Ht). unfold consumedItems, size in *. simpl. rewrite omap_app, app_nil_r. simpl.
      unfold movedBy at 2 3. simpl. rewrite Er. lia.
  - destruct (queue d) as [|x q] eqn:Eq; [done|]. injection Hu as <-.
    constructor; simpl; [rewrite list_fmap_insert; exact (prim_same GUnlock)|congruence|by apply Forall_insert|..|by intros ? ? ? ? ?; exfalso; eapply Hother].
    + unfold producedItems, consumedItems in *. simpl. rewrite !omap_app. simpl. rewrite app_nil_r, <- app_assoc. done.
    + rewrite (sumf_insert _ _ _ _ _ Ht). unfold producedItems, size in *. simpl. rewrite omap_app, app_nil_r. simpl.
      unfold movedBy at 2 3. simpl. rewrite Er. lia.
    + rewrite (sumf_insert _ _ _ _ _ Ht). unfold consumedItems, size in *. simpl. rewrite omap_app, length_app. simpl.
      unfold movedBy at 2 3. simpl. rewrite Er, Em. lia.
Qed.

(** A call of the mutex or the condition variable. *)
Lemma move_begin op o s g' w' :
  begin op o s g (sh, d) = Some (g', w') -> agrees g' -> moved (at_ s g) = moved g ->
  s <> GUse -> PC (w', <[t:=g']> gs).
Proof.
  unfold begin. intros (th & Hc & [= <- <-])%bind_Some Ha Em Hs.
  apply move_quiet; try done. by apply (prim_call op (clk o)).
Qed.

Lemma move_inside o s g' w' :
  inside o s g (sh, d) = Some (g', w') ->
  (forall th sh', crun o (gth g) sh = Some (th, sh') -> wellFormed th -> agrees (with_ th (stg g) g)) ->
  (idle (gth g) -> agrees (at_ s g) /\ moved (at_ s g) = moved g /\ (grole g = Consumer -> s <> GUse)) ->
  stg g <> GUse -> PC (w', <[t:=g']> gs).
Proof.
  unfold inside. intros Hr Hrun Hret Hs. destruct (returned (gth g)) eqn:E.
  - injection Hr as <- <-. destruct (Hret (proj1 (returned_idle _) E)) as (Ha & Em & Hc).
    apply move_quiet; try done; [apply prim_same|]. intros E1 E2. by destruct (Hc E1).
  - apply bind_Some in Hr as ([th sh'] & Hc & [= <- <-]). destruct (prim_run o th sh' Hc) as [HR Hwf].
    apply move_quiet; try done. by eapply Hrun.
Qed.

Lemma call_goes th1 op o th' : idle th1 -> ccall op (clk o) th1 = Some th' ->
  match op with
  | OpLock => (exists st p, frm th' = FLock st p) /\ held th' = held th1
  | OpUnlock => (exists p, frm th' = FUnlock p) /\ held th' = held th1 - 1
  | OpWait => (exists st p, frm th' = FWait st p) /\ held th' = held th1 - 1
  | OpSignal => (exists p, frm th' = FSignal p) /\ held th' = held th1
  | _ => True
  end.
Proof.
  intros [r Hr]. unfold ccall. rewrite Hr. destruct op; try done; try (by intros [= <-]; eauto);
    destruct (0 <? held th1); try done; intros [= <-]; eauto.
Qed.

Lemma PC_run o g' w' : grun o g (sh, d) = Some (g', w') -> PC (w', <[t:=g']> gs).
Proof.
  intros Hr. pose proof pc_agrees_at as (Hi & Hl & Ha). unfold grun in Hr.
  assert (Hagain : idle (gth g) -> held (gth g) = 0 -> stg g = GUnlocking \/ stg g = GSignaling -> PC ((sh, d), <[t:=again g]> gs)).
  { intros Hid Hh Hst. assert (stg g <> GNext) as Hn by (by destruct Hst as [-> | ->]). specialize (Hl Hn).
    apply move_quiet; try done; [by apply (prim_same GNext)|split_and!; simpl; auto; (done || lia)|].
    unfold moved. by destruct Hst as [-> | ->]; simpl; lia. }
  destruct (stg g) eqn:Es; try specialize (Hl ltac:(done)).
  - (* GNext *) destruct (iter g <? limit (grole g)) eqn:E; [|done]. bool_facts.
    assert (Hr' := Hr). unfold begin in Hr'. apply bind_Some in Hr' as (th & Hc & [= <- <-]).
    destruct (call_goes _ _ _ _ (proj1 Ha) Hc) as [Hk Hh].
    apply (move_begin _ _ _ _ _ Hr); [|unfold moved; by rewrite Es|done].
    split_and!; simpl; auto; try lia. left. split; [done|]. lia.
  - (* GLocking *) apply (move_inside _ _ _ _ Hr); [| |by rewrite Es].
    + intros th sh' Hc Hwf. rewrite Es. split; [done|]. split; [done|]. pose proof (pc_call_step _ _ _ _ _ Hwf Hc) as Hk. simpl.
      destruct Ha as [[(st & p & E) Hh]|[[r E] Hh]]; [rewrite E in Hk; rewrite Hh in Hk; exact Hk|].
      unfold crun in Hc. by rewrite E in Hc.
    + intros Hid. destruct Ha as [[(st & p & E) _]|[_ Hh]]; [by destruct Hid as [r Hid]; rewrite Hid in E|].
      assert (A : forall s, s = GUse \/ s = GTest -> agrees (at_ s g)).
      { intros s Hs. split; [done|]. split; [done|]. by destruct Hs as [-> | ->]. }
      destruct (grole g); (split; [by apply A; auto|]); (split; [unfold moved; by rewrite Es|done]).
  - (* GTest *) destruct (queue d) as [|x q] eqn:Eq.
    + simpl in Hr. rewrite Eq in Hr. apply bind_Some in Hr as (th & Hc & [= <- <-]).
      destruct (call_goes _ _ _ _ (proj1 Ha) Hc) as [Hk Hh]. apply move_quiet; try done; [by apply (prim_call OpWait (clk o))|..].
      * split_and!; simpl; auto; try lia. left. split; [done|]. lia.
      * by unfold producedItems; simpl; rewrite omap_app, app_nil_r.
      * by unfold consumedItems; simpl; rewrite omap_app, app_nil_r.
      * unfold moved. by rewrite Es.
    + simpl in Hr. rewrite Eq in Hr. injection Hr as <- <-. apply move_quiet; try done; [by apply (prim_same GUse)|..].
      * unfold moved. by rewrite Es.
      * by rewrite Eq.
  - (* GWaiting *) apply (move_inside _ _ _ _ Hr); [| |by rewrite Es].
    + intros th sh' Hc Hwf. rewrite Es. split; [done|]. split; [done|]. pose proof (pc_call_step _ _ _ _ _ Hwf Hc) as Hk. simpl.
      destruct Ha as [[(st & p & E) Hh]|[[r E] Hh]]; [rewrite E in Hk; rewrite Hh in Hk; exact Hk|].
      unfold crun in Hc. by rewrite E in Hc.
    + intros Hid. destruct Ha as [[(st & p & E) _]|[_ Hh]]; [by destruct Hid as [r Hid]; rewrite Hid in E|].
      split; [by split_and!; simpl; auto; (done || lia)|]. split; [unfold moved; by rewrite Es|done].
  - (* GUse *) simpl in Hr. destruct (use g d) as [d'|] eqn:Eu; injection Hr as <- <-; [by apply move_use|].
    exfalso. unfold use in Eu. destruct (grole g) eqn:Er; [done|].
    pose proof (pc_tested _ HP t g Ht Er Es) as Hq. simpl in Hq. by destruct (queue d).
  - (* GUnlock *)
    assert (Hr' := Hr). unfold begin in Hr'. apply bind_Some in Hr' as (th & Hc & [= <- <-]).
    destruct (call_goes _ _ _ _ (proj1 Ha) Hc) as [Hk Hh].
    apply (move_begin _ _ _ _ _ Hr); [|unfold moved; by rewrite Es|done].
    split_and!; simpl; auto; try lia. destruct Ha. split; [by left|lia].
  - (* GUnlocking *)
    assert (Hrun : forall th sh', crun o (gth g) sh = Some (th, sh') -> wellFormed th -> agrees (with_ th (stg g) g)).
    { intros th sh' Hc Hwf. rewrite Es. split; [done|]. split; [done|]. pose proof (pc_call_step _ _ _ _ _ Hwf Hc) as Hk. simpl.
      destruct Ha as [[[p E]|[r E]] Hh]; [rewrite E in Hk; rewrite Hh in Hk; exact Hk|]. unfold crun in Hc. by rewrite E in Hc. }
    destruct (grole g) eqn:Er.
    + apply (move_inside _ _ _ _ Hr Hrun); [|by rewrite Es]. intros Hid.
      split; [|split; [unfold moved; by rewrite Es|done]]. unfold agrees; simpl; rewrite Er; destruct Ha; split_and!; auto; (done || lia).
    + destruct (returned (gth g)) eqn:E.
      * injection Hr as <- <-. apply Hagain; [by apply returned_idle|apply Ha|auto].
      * apply (move_inside _ _ _ _ Hr Hrun); [|by rewrite Es]. intros Hid%returned_idle. congruence.
  - (* GSignal *)
    assert (Hr' := Hr). unfold begin in Hr'. apply bind_Some in Hr' as (th & Hc & [= <- <-]).
    destruct (call_goes _ _ _ _ (proj1 Ha) Hc) as [Hk Hh].
    apply (move_begin _ _ _ _ _ Hr); [|unfold moved; by rewrite Es|done].
    split_and!; simpl; auto; try lia. destruct Ha. split; [by left|lia].
  - (* GSignaling *) destruct (returned (gth g)) eqn:E.
    + injection Hr as <- <-. apply Hagain; [by apply returned_idle|by destruct Ha|auto].
    + apply (move_inside _ _ _ _ Hr); [| |by rewrite Es]; [|intros Hid%returned_idle; congruence].
      intros th sh' Hc Hwf. rewrite Es. split; [done|]. split; [done|]. pose proof (pc_call_step _ _ _ _ _ Hwf Hc) as Hk. simpl.
      destruct Ha as [[[p E']|[r E']] Hh]; [rewrite E' in Hk; rewrite Hh in Hk; exact Hk|]. unfold crun in Hc. by rewrite E' in Hc.
  - done.
Qed.
End Step.

(** * The queue of the condition variable *)

(** In [Wait], before its waiter is linked. *)
Definition early (th : thread) : bool :=
  match frm th with FWait _ (CCheck | CNew | CLink _) => true | _ => false end.

(** In [Signal], about to look for a waiter. *)
Definition popping (th : thread) : bool := match frm th with FSignal (SDeq DqPop) => true | _ => false end.

(** What the step of a call does to the queue of waiters. *)
Inductive qstep (th th' : thread) (w w' : world pair) : Prop :=
| QSame : cvq w' = cvq w -> early th' = early th -> (popping th = true -> popping th' = true \/ cvq w = []) ->
    (forall x, shared (sideC th) = Some x -> shared (sideC th') = Some x \/ Ready (wget (store w) x) = true) ->
    qstep th th' w w'
| QLink x : cvq w' = cvq w ++ [x] -> early th = true -> early th' = false -> popping th = false ->
    shared (sideC th) = None -> shared (sideC th') = Some x -> qstep th th' w w'
| QPop x : cvq w = x :: cvq w' -> early th = false -> early th' = false -> popping th = true ->
    shared (sideC th) = None -> qstep th th' w w'.

Definition ours (th : thread) : Prop :=
  match frm th with FLock _ _ | FUnlock _ | FWait _ _ | FSignal _ => True | _ => False end.

Lemma call_queue o th w th' w' : ours th -> wellFormed th' -> crun o th w = Some (th', w') -> qstep th th' w w'.
Proof.
  intros Ho [_ Hwf] Hr. destruct th as [f h]. unfold ours, crun in *. simpl in *.
  destruct f as [r|st p|p|p|st p|st p|st p|p|p|e]; try done.
  - apply bind_Some in Hr as ([r1 v] & E & Hr). simplify_eq. by apply QSame; destruct r1.
  - destruct (Unlock_step p (mview w)) as [r1 v] eqn:E. simplify_eq. by apply QSame; destruct r1.
  - apply bind_Some in Hr as ([r1 v] & E & Hr). simplify_eq.
    destruct p as [| | |x|x|x|x q|x|x|x|b|b s q]; simpl in E; try done;
      try (inv_step E; apply QSame; simpl; (done || (intros; by auto)); fail).
    + simplify_eq. by apply (QLink _ _ _ _ x).
    + apply bind_Some in E as (s & E & Hr). simplify_eq. apply QSame; simpl; try done. intros y [= <-]. right.
      unfold Wait in E. by destruct (Ready _).
  - destruct (Signal_step p w) as [r1 v] eqn:E. simplify_eq. destruct p as [[|x|x|x]|x|x]; simpl in E.
    + unfold cvq. destruct (items (waiters (cv (prim w)))) as [|x l] eqn:Ei; simplify_eq.
      * apply QSame; unfold cvq; simpl; auto.
      * apply (QPop _ _ _ _ x); unfold cvq; simpl; auto.
    + simplify_eq. by apply QSame.
    + destruct (cancelled _); simplify_eq; by apply QSame.
    + simplify_eq. by apply QSame.
    + simplify_eq. by apply QSame.
    + simplify_eq. by apply QSame.
Qed.

(** A producer that has appended an item and not yet looked for a waiter. *)
Definition pending (g : goroutine) : Z :=
  match stg g with
  | GUnlock | GUnlocking => match grole g with Producer => 1 | Consumer => 0 end
  | GSignal => 1
  | GSignaling => Z.b2z (popping (gth g))
  | _ => 0
  end.

(** A consumer that is linked as a waiter, or has been and has not yet taken
    an item. *)
Definition after_ (g : goroutine) : Z :=
  match stg g with
  | GTest => 1
  | GUse => match grole g with Producer => 0 | Consumer => 1 end
  | GWaiting => Z.b2z (negb (early (gth g)))
  | _ => 0
  end.

Definition linked (g : goroutine) : Z := match shared (sideC (gth g)) with Some _ => 1 | None => 0 end.

(** Only consumers test the queue and wait. *)
Definition tests (g : goroutine) : Prop :=
  match stg g with GTest | GWaiting => grole g = Consumer | _ => True end.

Record PCL (c : world' * list goroutine) : Prop := {
  pl_pc : PC c;
  pl_tests : Forall tests c.2;
  pl_owned : forall x, x ∈ cvq c.1.1 -> exists t g, c.2 !! t = Some g /\ shared (sideC (gth g)) = Some x;
  pl_empty : forall t g, c.2 !! t = Some g -> early (gth g) = true -> queue c.1.2 = [];
  pl_enough : cvq c.1.1 <> [] ->
    size (queue c.1.2) <= sumf pending c.2 + sumf after_ c.2 - Z.of_nat (length (cvq c.1.1))
}.

Lemma pending_nonneg g : 0 <= pending g.
Proof. unfold pending. destruct (stg g); try lia; try (by destruct (grole g)). by destruct (popping (gth g)). Qed.

Lemma after_nonneg g : 0 <= after_ g.
Proof. unfold after_. destruct (stg g); try lia; try (by destruct (grole g)). by destruct (early (gth g)). Qed.

Lemma linked_after g : agrees g -> linked g <= after_ g.
Proof.
  intros (_ & _ & Ha). pose proof (after_nonneg g). unfold linked in *. destruct (shared (sideC (gth g))) as [x|] eqn:E; [|done].
  unfold sideC, after_, early, idle in *.
  destruct (stg g), (frm (gth g)) as [r|st p|p|p|st p|st p|st p|p|p|e]; try done; try destruct p; try done; naive_solver.
Qed.

Lemma sumf_mono {A} (f h : A -> Z) l : Forall (fun x => f x <= h x) l -> sumf f l <= sumf h l.
Proof. induction 1; simpl; lia. Qed.

Lemma PC_Split c : PC c -> Split c.1.1 (gth <$> c.2) /\ Inv (c.1.1, gth <$> c.2) /\ Live (c.1.1, gth <$> c.2).
Proof. intros HP. pose proof (cv_reach_Live _ _ _ _ (pc_prim _ HP)) as HL. split_and!; [apply HL|apply HL|done]. Qed.

Definition owners (gs : list goroutine) : list nat := omap shared (sideC <$> (gth <$> gs)).

Lemma owners_linked gs : Z.of_nat (length (owners gs)) = sumf linked gs.
Proof.
  unfold owners, linked. induction gs as [|g gs IH]; [done|]. simpl in *. destruct (shared _); simpl; [rewrite <- IH|exact IH].
  set (m := length _). lia.
Qed.

Lemma owners_elem gs x : x ∈ owners gs <-> exists t g, gs !! t = Some g /\ shared (sideC (gth g)) = Some x.
Proof.
  unfold owners. rewrite list_elem_of_omap. split.
  - intros (r & Hr & Hx). apply list_elem_of_fmap in Hr as (th & -> & Hth). apply list_elem_of_fmap in Hth as (g & -> & Hg).
    apply list_elem_of_lookup in Hg as [t Ht]. eauto.
  - intros (t & g & Ht & Hx). exists (sideC (gth g)). split; [|done].
    apply list_elem_of_fmap_2, list_elem_of_fmap_2. by eapply list_elem_of_lookup_2.
Qed.

(** Every linked waiter has an owner. *)
Lemma queue_le c : PCL c -> Z.of_nat (length (cvq c.1.1)) <= sumf linked c.2.
Proof.
  intros [HP _ Ho _ _]. destruct (PC_Split _ HP) as ([_ HC] & _ & _). rewrite <- owners_linked. apply inj_le.
  apply WInv_NoDup in HC as [Hn _]. apply submseteq_length, NoDup_submseteq; [done|].
  intros x Hx. by apply owners_elem, Ho.
Qed.

(** Two goroutines that hold the mutex, also inside a call, are the same. *)
Lemma one_holder c i j a b :
  PC c -> c.2 !! i = Some a -> c.2 !! j = Some b -> 1 <= holds (gth a) -> 1 <= holds (gth b) -> i = j.
Proof.
  intros HP Hi Hj Ha Hb. destruct (decide (i = j)) as [|Hne]; [done|exfalso].
  destruct (PC_Split _ HP) as (_ & [Hh Hs Hwf _] & _). simpl in *.
  pose proof (sumf_two_F holds wellFormed cv_holds_nonneg _ _ _ _ _ Hwf Hne (gth_at _ _ _ Hi) (gth_at _ _ _ Hj)). lia.
Qed.

Lemma early_holds th : wellFormed th -> early th = true -> 1 <= holds th.
Proof. intros [H _]. unfold early, holds. destruct (frm th) as [|?|?|?|st p| | | | |]; try done. destruct p; try done; simpl; lia. Qed.

Section StepL.
Context (sh : world pair) (d : data) (gs : list goroutine) (t : nat) (g : goroutine).
Context (HL : PCL ((sh, d), gs)) (Ht : gs !! t = Some g).
Context (sh' : world pair) (d' : data) (g' : goroutine) (HP' : PC ((sh', d'), <[t:=g']> gs)).

(** How the numbers may change. *)
Lemma PCL_step :
  tests g' ->
  (forall x, x ∈ cvq sh' -> shared (sideC (gth g')) = Some x \/ (x ∈ cvq sh /\ shared (sideC (gth g)) <> Some x)) ->
  (early (gth g') = true -> queue d' = []) ->
  queue d' = queue d \/ 1 <= holds (gth g) ->
  (cvq sh' <> [] -> size (queue d') <= sumf pending gs - pending g + pending g' + (sumf after_ gs - after_ g + after_ g')
     - Z.of_nat (length (cvq sh'))) ->
  PCL ((sh', d'), <[t:=g']> gs).
Proof.
  intros Htg Hown Hear Hq Hen. destruct HL as [HP Hts Ho He _]. simpl in *.
  constructor; simpl; [done|by apply Forall_insert|..].
  - intros x Hx. destruct (Hown x Hx) as [Hs|[Hin Hs]].
    + exists t, g'. split; [|done]. apply list_lookup_insert_eq. by eapply lookup_lt_Some.
    + destruct (Ho x Hin) as (t0 & g0 & Ht0 & Hs0). exists t0, g0. split; [|done].
      rewrite list_lookup_insert_ne; [done|]. intros ->. congruence.
  - intros t0 g0 [(<- & <- & _)|[Hne H0]]%list_lookup_insert_Some He0; [by apply Hear|].
    destruct Hq as [-> |Hg]; [by eapply He|]. exfalso. apply Hne.
    destruct (PC_Split _ HP) as (_ & [_ _ Hwf _] & _). simpl in Hwf.
    apply (one_holder ((sh, d), gs) t t0 g g0 HP Ht H0 Hg), early_holds; [|done].
    exact (Forall_lookup_1 _ _ _ _ Hwf (gth_at _ _ _ H0)).
  - intros Hc. rewrite !(sumf_insert _ _ _ _ _ Ht). specialize (Hen Hc). lia.
Qed.

(** A step that leaves the waiters alone. *)
Lemma PCL_same :
  tests g' ->
  cvq sh' = cvq sh -> sideC (gth g') = sideC (gth g) ->
  (early (gth g') = true -> (early (gth g) = true /\ queue d' = queue d) \/ queue d' = []) ->
  queue d' = queue d \/ 1 <= holds (gth g) ->
  size (queue d') - size (queue d) <= pending g' - pending g + after_ g' - after_ g ->
  PCL ((sh', d'), <[t:=g']> gs).
Proof.
  intros Htg Ec Es Hear Hq Hn. apply PCL_step; [done| | |done|].
  - intros x Hx. rewrite Ec in Hx. rewrite Es. destruct (decide (shared (sideC (gth g)) = Some x)); auto.
  - intros He. destruct (Hear He) as [[He' ->]|]; [|done]. exact (pl_empty _ HL t g Ht He').
  - rewrite Ec. intros Hc. pose proof (pl_enough _ HL Hc) as Hen. simpl in Hen. lia.
Qed.

(** A step of a call. *)
Lemma PCL_call :
  agrees g -> qstep (gth g) (gth g') sh sh' -> stg g' = stg g -> grole g' = grole g -> queue d' = queue d ->
  (early (gth g) = true -> stg g = GWaiting) -> (popping (gth g) = true -> stg g = GSignaling) ->
  (early (gth g') = true -> early (gth g) = true) -> PCL ((sh', d'), <[t:=g']> gs).
Proof.
  intros Ha HQ Est Ero Eq Hew Hps Hear.
  assert (Hg' : early (gth g') = true -> queue d' = []).
  { intros He. rewrite Eq. exact (pl_empty _ HL t g Ht (Hear He)). }
  assert (E1 : early (gth g') = early (gth g) -> after_ g' = after_ g) by (intros E; unfold after_; by rewrite Est, Ero, E).
  assert (Htg : tests g').
  { unfold tests. rewrite Est, Ero. exact (Forall_lookup_1 _ _ _ _ (pl_tests _ HL) Ht). }
  pose proof (pl_enough _ HL) as Hen. simpl in Hen.
  destruct (PC_Split _ (pl_pc _ HL)) as ([_ HC] & _ & _). simpl in HC.
  destruct HQ as [Ec Ee Hp Hs|x Ec E0 E2 E3 S1 S2|x Ec E0 E2 E3 S1]; apply PCL_step; auto.
  - intros x Hx. rewrite Ec in Hx. destruct (decide (shared (sideC (gth g)) = Some x)) as [Hx'|]; [|auto].
    destruct (Hs x Hx') as [?|Hr]; [auto|exfalso]. specialize (HC x). apply occ_elem in Hx.
    assert (H1 : 1 <= cnt shared x (sideC <$> (gth <$> gs))).
    { eapply cnt_pos; [|exact Hx']. by rewrite list_lookup_fmap, (gth_at _ _ _ Ht). }
    unfold wok in HC. rewrite Hr in HC. simpl in HC. lia.
  - rewrite Ec, Eq, (E1 Ee). intros Hc. specialize (Hen Hc).
    assert (pending g <= pending g'); [|lia]. unfold pending. rewrite Est, Ero. destruct (stg g); try lia.
    destruct (popping (gth g)) eqn:Ep; [|by destruct (popping (gth g'))]. by destruct (Hp eq_refl) as [-> |?].
  - intros y Hy. rewrite Ec in Hy. apply elem_of_app in Hy as [Hy|Hy%list_elem_of_singleton]; [|subst; auto].
    right. split; [done|congruence].
  - intros _. rewrite Eq, Ec, length_app. simpl.
    assert (pending g' = 0 /\ pending g = 0) as [-> ->] by (unfold pending; by rewrite Est, (Hew E0)).
    assert (after_ g' = 1 /\ after_ g = 0) as [-> ->] by (unfold after_; by rewrite Est, (Hew E0), E0, E2).
    destruct (decide (cvq sh = [])) as [El|Hne]; [|specialize (Hen Hne); lia].
    rewrite El. simpl.
    rewrite (pl_empty _ HL t g Ht E0 : queue d = []). unfold size. simpl.
    pose proof (sumf_nonneg pending gs pending_nonneg). pose proof (sumf_nonneg after_ gs after_nonneg). lia.
  - intros y Hy. right. rewrite Ec. split; [by right|congruence].
  - intros _. rewrite Eq. assert (Hne : cvq sh <> []) by congruence. specialize (Hen Hne). rewrite Ec in Hen. simpl in Hen.
    rewrite E1 by congruence. pose proof (pending_nonneg g').
    assert (pending g = 1) as -> by (unfold pending; by rewrite (Hps E3), E3). lia.
Qed.
End StepL.

Section RunL.
Context (sh : world pair) (d : data) (gs : list goroutine) (t : nat) (g : goroutine).
Context (HL : PCL ((sh, d), gs)) (Ht : gs !! t = Some g).

Lemma agrees_run : agrees g.
Proof. exact (Forall_lookup_1 _ _ _ _ (pc_agrees _ (pl_pc _ HL)) Ht). Qed.

(** Inside a call the stage says which one. *)
Lemma ours_stage : ~ idle (gth g) -> ours (gth g) /\
  (early (gth g) = true -> stg g = GWaiting) /\ (popping (gth g) = true -> stg g = GSignaling).
Proof.
  destruct agrees_run as (_ & _ & Ha). unfold ours, early, popping, idle in *. intros Hi.
  destruct (stg g), (frm (gth g)) as [r|st p|p|p|st p|st p|st p|p|p|e]; try done; try (exfalso; naive_solver);
    split_and!; try done; naive_solver.
Qed.

Lemma inside_L o s g' w' :
  inside o s g (sh, d) = Some (g', w') -> PC (w', <[t:=g']> gs) -> tests (at_ s g) ->
  (idle (gth g) -> pending (at_ s g) + after_ (at_ s g) >= pending g + after_ g) ->
  PCL (w', <[t:=g']> gs).
Proof.
  unfold inside. intros Hr HP' Htg Hn. destruct (returned (gth g)) eqn:E.
  - injection Hr as <- <-. apply returned_idle in E. specialize (Hn E).
    eapply PCL_same; [exact HL|exact Ht|exact HP'|exact Htg|done|done|..]; auto; simpl; lia.
  - apply bind_Some in Hr as ([th sh'] & Hc & [= <- <-]). simpl in HP', Hc.
    assert (Hi : ~ idle (gth g)) by (intros Hi%returned_idle; congruence).
    destruct (ours_stage Hi) as (Ho & Hew & Hps).
    destruct (prim_run _ _ _ _ _ (pl_pc _ HL) Ht o th sh' Hc) as [_ Hwf].
    pose proof (call_queue _ _ _ _ _ Ho Hwf Hc) as HQ.
    eapply PCL_call; [exact HL|exact Ht|exact HP'|exact agrees_run|exact HQ|done..|]. simpl.
    destruct HQ as [_ -> _ _|x _ ? -> _ _ _|x _ ? -> _ _]; done.
Qed.

Lemma begin_L op o s g' w' :
  begin op o s g (sh, d) = Some (g', w') -> PC (w', <[t:=g']> gs) -> op <> OpWait -> s <> GTest -> s <> GWaiting -> idle (gth g) ->
  pending g' + after_ g' >= pending g + after_ g -> PCL (w', <[t:=g']> gs).
Proof.
  unfold begin. intros (th & Hc & [= <- <-])%bind_Some HP' Hop Hs1 Hs2 [r Hi] Hn.
  assert (sideC th = sideC (gth g) /\ early th = false) as [Es He].
  { unfold ccall in Hc. rewrite Hi in Hc. unfold sideC, early. rewrite Hi.
    destruct op; try done; try (by simplify_eq); destruct (0 <? held (gth g)); by simplify_eq. }
  eapply PCL_same; [exact HL|exact Ht|exact HP'|by unfold tests; destruct s|done|exact Es|..]; simpl; auto; [congruence|lia].
Qed.

Lemma PCL_run o g' w' : grun o g (sh, d) = Some (g', w') -> PCL (w', <[t:=g']> gs).
Proof.
  intros Hr. pose proof (PC_run _ _ _ _ _ (pl_pc _ HL) Ht o g' w' Hr) as HP'.
  pose proof agrees_run as (_ & _ & Ha). unfold grun in Hr.
  pose proof (Forall_lookup_1 _ _ _ _ (pl_tests _ HL) Ht) as Htg. unfold tests in Htg.
  assert (Hagain : idle (gth g) -> stg g = GUnlocking /\ grole g = Consumer \/ stg g = GSignaling ->
    PC ((sh, d), <[t:=again g]> gs) -> PCL ((sh, d), <[t:=again g]> gs)).
  { intros [r Hi] Hs HPa. eapply PCL_same; [exact HL|exact Ht|exact HPa|done|done|done|..]; auto.
    destruct Hs as [[Es Er]|Es]; unfold pending, after_, popping; simpl; rewrite Es, ?Er, ?Hi; simpl; lia. }
  destruct (stg g) eqn:Es.
  - destruct (iter g <? limit (grole g)); [|done]. apply (begin_L _ _ _ _ _ Hr HP'); [done..|apply Ha|].
    unfold begin in Hr. apply bind_Some in Hr as (th & _ & [= <- <-]). unfold pending, after_. by rewrite Es.
  - apply (inside_L _ _ _ _ Hr HP'); [unfold tests; by destruct (grole g) eqn:Er|].
    intros _. unfold pending, after_. rewrite Es. destruct (grole g) eqn:Er; simpl; rewrite ?Er; lia.
  - simpl in Hr. destruct (queue d) as [|x q] eqn:Eq.
    + apply bind_Some in Hr as (th & Hc & [= <- <-]). destruct Ha as [[r Hi] Hh].
      assert (sideC th = idleRole /\ sideC (gth g) = idleRole) as [E1 E2].
      { unfold ccall in Hc. rewrite Hi in Hc. unfold sideC. rewrite Hi. destruct (0 <? held (gth g)); by simplify_eq. }
      assert (Hnew : pending (with_ th GWaiting g) = 0 /\ after_ (with_ th GWaiting g) = 0 /\ pending g = 0 /\ after_ g = 1).
      { unfold pending, after_, early. simpl. rewrite Es. split_and!; try done. unfold ccall in Hc. rewrite Hi in Hc.
        destruct (0 <? held (gth g)); by simplify_eq. }
      destruct Hnew as (N1 & N2 & N3 & N4).
      eapply PCL_step; [exact HL|exact Ht|exact HP'|exact Htg|..]; simpl; auto.
      * intros x Hx. right. split; [done|by rewrite E2].
      * intros _. rewrite N1, N2, N3, N4. pose proof (queue_le _ HL) as Hle. simpl in Hle.
        pose proof (sumf_nonneg pending gs pending_nonneg).
        assert (Hlg : linked g = 0) by (unfold linked; by rewrite E2).
        assert (sumf linked gs + 1 <= sumf after_ gs); [|unfold size; simpl; lia].
        pose proof (sumf_delete linked gs t g Ht). pose proof (sumf_delete after_ gs t g Ht).
        assert (sumf linked (delete t gs) <= sumf after_ (delete t gs)); [|lia].
        apply sumf_mono. apply Forall_delete. eapply Forall_impl; [exact (pc_agrees _ (pl_pc _ HL))|]. exact linked_after.
    + injection Hr as <- <-. eapply PCL_same; [exact HL|exact Ht|exact HP'|done|done|done|..]; auto.
      unfold pending, after_. simpl. rewrite Es, Htg. lia.
  - apply (inside_L _ _ _ _ Hr HP'); [exact Htg|]. intros [r Hi]. unfold pending, after_, early. simpl. rewrite Es, Hi. simpl. lia.
  - simpl in Hr. destruct (use g d) as [d'|] eqn:Eu; injection Hr as <- <-.
    + eapply PCL_same; [exact HL|exact Ht|exact HP'|done|done|done|..].
      * simpl. destruct Ha as [[r Hi] _]. unfold early. by rewrite Hi.
      * right. destruct Ha as [[r Hi] Hh]. unfold holds. rewrite Hi. lia.
      * unfold pending, after_, use, size in *. simpl. rewrite Es. destruct (grole g).
        -- injection Eu as <-. simpl. rewrite length_app. simpl. lia.
        -- destruct (queue d); [done|]. injection Eu as <-. simpl. lia.
    + pose proof (Forall_lookup_1 _ _ t (at_ GPanic g) (pc_agrees _ HP')) as (_ & _ & []).
      apply list_lookup_insert_eq. by eapply lookup_lt_Some.
  - apply (begin_L _ _ _ _ _ Hr HP'); [done..|apply Ha|].
    unfold begin in Hr. apply bind_Some in Hr as (th & _ & [= <- <-]). unfold pending, after_. rewrite Es. simpl. lia.
  - destruct (grole g) eqn:Er.
    + apply (inside_L _ _ _ _ Hr HP'); [done|]. intros _. unfold pending, after_. rewrite Es, Er. simpl. lia.
    + destruct (returned (gth g)) eqn:E; [injection Hr as <- <-; apply Hagain; [by apply returned_idle|auto|done]|].
      apply (inside_L _ _ _ _ Hr HP'); [done|]. intros Hi%returned_idle. congruence.
  - apply (begin_L _ _ _ _ _ Hr HP'); [done..|apply Ha|].
    unfold begin in Hr. apply bind_Some in Hr as (th & Hc & [= <- <-]). destruct Ha as [[r Hi] _].
    unfold ccall in Hc. rewrite Hi in Hc. injection Hc as <-. unfold pending, after_. rewrite Es. simpl. lia.
  - destruct (returned (gth g)) eqn:E; [injection Hr as <- <-; apply Hagain; [by apply returned_idle|auto|done]|].
    apply (inside_L _ _ _ _ Hr HP'); [done|]. intros Hi%returned_idle. congruence.
  - done.
Qed.
End RunL.

Lemma main_starts t g : main.2 !! t = Some g -> stg g = GNext /\ early (gth g) = false.
Proof.
  assert (H : Forall (fun g => stg g = GNext /\ early (gth g) = false) main.2) by (by repeat constructor).
  apply (Forall_lookup_1 _ _ _ _ H).
Qed.

Lemma reach_PCL c : reach prodcons any_label main c -> PCL c.
Proof.
  apply reach_invariant; intros; try done.
  - constructor; [constructor|..]; try done.
    + apply (reach_refl condvar).
    + repeat constructor; simpl; try done; by exists None.
    + by intros t g [-> _]%main_starts.
    + repeat constructor.
    + intros x Hx. by apply not_elem_of_nil in Hx.
  - destruct sh as [sh d]. by eapply PCL_run.
Qed.

(** * Nobody is left behind *)

Lemma lock_stuck st o p (v : world Mutex.Mutex) :
  lockOk p -> Lock_step st o p v = None -> exists x, lockWait p = Some x /\ Ready (wget (store v) x) = false.
Proof.
  intros Hok Hn. destruct p; simpl in *; try done; try (by destruct (state _ =? 0));
    try (by destruct (NewWaiter o (store v))).
  unfold Wait in Hn. destruct (Ready _) eqn:Er; [done|eauto].
Qed.

(** A call that cannot move is parked. *)
Lemma stuck_rests th w : wellFormed th -> ours th \/ idle th -> (forall o, crun o th w = None) -> resting (store w) th.
Proof.
  intros [_ Hwf] Ho Hn. specialize (Hn (Oracle false 0 0)). unfold ours, idle, resting, parked, waitingOn in *.
  destruct (frm th) as [r|st p|p|p|st p|st p|st p|p|p|e] eqn:E; try (destruct Ho as [[]|[? ?]]; discriminate);
    [right; eauto| | | |]; unfold crun in Hn; rewrite E in Hn.
  - left. apply bind_None in Hn as [Hn|([r v] & _ & Hn)]; [|done]. by eapply (lock_stuck _ _ _ (mview w)).
  - by destruct (Unlock_step p (mview w)).
  - left. apply bind_None in Hn as [Hn|([r v] & _ & Hn)]; [|done].
    destruct p as [| | | | | |x q| | | | |b s q]; simpl in *; try done; try (by destruct (NewWaiter _ (store w))).
    + by destruct (negb _).
    + by destruct (Unlock_step q (mview w)).
    + unfold Wait in Hn. destruct (Ready _) eqn:Er; [done|eauto].
    + apply bind_None in Hn as [Hn|([r v] & _ & Hn)]; [|done]. by eapply (lock_stuck _ _ _ (mview w)).
  - by destruct (Signal_step p w).
Qed.

Definition through (g : goroutine) : Prop := stg g = GNext /\ iter g = limit (grole g).

Lemma five_goroutines (gs : list goroutine) :
  grole <$> gs = [Producer; Producer; Producer; Consumer; Consumer] ->
  exists g0 g1 g2 g3 g4, gs = [g0; g1; g2; g3; g4] /\ grole g0 = Producer /\ grole g1 = Producer /\
    grole g2 = Producer /\ grole g3 = Consumer /\ grole g4 = Consumer.
Proof.
  intros Hro. destruct gs as [|g0 [|g1 [|g2 [|g3 [|g4 [|? ?]]]]]]; try done. injection Hro as R0 R1 R2 R3 R4.
  by exists g0, g1, g2, g3, g4.
Qed.

Section Stuck.
Context (sh : world pair) (d : data) (gs : list goroutine) (HL : PCL ((sh, d), gs)).
Context (Hstuck : forall t g o, gs !! t = Some g -> grun o g (sh, d) = None).

(** A goroutine that cannot move is through, or parked in [Lock] or [Wait]. *)
Lemma stuck_goroutine t g :
  gs !! t = Some g -> through g \/ (stg g = GLocking \/ stg g = GWaiting) /\ parked (store sh) (gth g).
Proof.
  intros Ht. pose proof (fun o => Hstuck t g o Ht) as Hs. pose proof (agrees_run _ _ _ _ _ HL Ht) as (Hi & _ & Ha).
  destruct (PC_Split _ (pl_pc _ HL)) as (_ & [_ _ Hwf _] & _). simpl in Hwf.
  pose proof (Forall_lookup_1 _ _ _ _ Hwf (gth_at _ _ _ Ht)) as Hw.
  assert (Hcall : ~ idle (gth g) -> (forall o, crun o (gth g) sh = None) -> parked (store sh) (gth g)).
  { intros Hn Hc. destruct (stuck_rests (gth g) sh Hw) as [?|[r Hr]]; [|done|done|by destruct Hn; exists r].
    left. by apply (ours_stage _ _ _ _ _ HL Ht). }
  assert (Hin : forall s, (forall o, inside o s g (sh, d) = None) -> parked (store sh) (gth g)).
  { intros s Hn. unfold inside in Hn. destruct (returned (gth g)) eqn:E; [by specialize (Hn (Oracle false 0 0))|].
    apply Hcall; [intros Hid%returned_idle; congruence|]. intros o. specialize (Hn o). simpl in Hn. by destruct (crun o (gth g) sh) as [[]|]. }
  pose proof (Hs (Oracle false 0 0)) as Hs0. unfold grun in Hs, Hs0.
  destruct (stg g) eqn:Es; try (destruct Ha as [[r Hr] Hh]).
  - left. split; [done|]. destruct (iter g <? limit (grole g)) eqn:E; bool_facts; [|lia].
    unfold begin, ccall in Hs0. by rewrite Hr in Hs0.
  - right. split; [auto|]. by eapply Hin.
  - exfalso. simpl in Hs0. destruct (queue d); [|done]. unfold ccall in Hs0. rewrite Hr in Hs0.
    destruct (0 <? held (gth g)) eqn:E; bool_facts; [done|lia].
  - right. split; [auto|]. by eapply Hin.
  - done.
  - exfalso. unfold begin, ccall in Hs0. rewrite Hr in Hs0. destruct (0 <? held (gth g)) eqn:E; bool_facts; [done|lia].
  - exfalso. assert (Hp : parked (store sh) (gth g)).
    { destruct (grole g); [by eapply Hin|]. destruct (returned (gth g)) eqn:E; [done|by eapply Hin]. }
    destruct Hp as (x & Hx & _), Ha as [[[p Hp]|[r Hp]] _]; unfold waitingOn in Hx; by rewrite Hp in Hx.
  - unfold begin, ccall in Hs0. by rewrite Hr in Hs0.
  - exfalso. assert (Hp : parked (store sh) (gth g)) by (destruct (returned (gth g)) eqn:E; [done|by eapply Hin]).
    destruct Hp as (x & Hx & _), Ha as [[[p Hp]|[r Hp]] _]; unfold waitingOn in Hx; by rewrite Hp in Hx.
  - done.
Qed.

Lemma through_rests g : agrees g -> through g -> idle (gth g) /\ held (gth g) = 0.
Proof. intros (_ & _ & Ha) [Es _]. by rewrite Es in Ha. Qed.

Lemma parked_busy s th : parked s th -> ~ idle th.
Proof. intros (x & Hx & _) [r Hr]. unfold waitingOn in Hx. by rewrite Hr in Hx. Qed.

(** Those that are parked wait for a signal, and their waiters are linked. *)
Lemma stuck_awaits t g :
  gs !! t = Some g -> parked (store sh) (gth g) -> exists x, awaiting (gth g) = Some x /\ x ∈ cvq sh.
Proof.
  intros Ht Hp. destruct (PC_Split _ (pl_pc _ HL)) as (_ & _ & HLv). simpl in HLv.
  assert (Hrest : Forall (resting (store sh)) (gth <$> gs)).
  { apply Forall_fmap, Forall_lookup. intros t0 g0 H0. destruct (stuck_goroutine t0 g0 H0) as [Hth|[_ ?]]; [right|by left].
    exact (proj1 (through_rests g0 (agrees_run _ _ _ _ _ HL H0) Hth)). }
  destruct (cv_rest _ _ _ _ HLv Hrest (gth_at _ _ _ Ht) Hp) as [(t' & th' & Ht' & Hh)|?]; [exfalso|done].
  rewrite list_lookup_fmap in Ht'. apply fmap_Some in Ht' as (g0 & H0 & ->).
  pose proof (agrees_run _ _ _ _ _ HL H0) as Ha0.
  destruct (stuck_goroutine t' g0 H0) as [Hth|[Hst Hp0]]; [destruct (through_rests g0 Ha0 Hth); lia|].
  pose proof (parked_busy _ _ Hp0) as Hn. destruct Ha0 as (_ & _ & Ha0).
  destruct Hst as [Hst|Hst]; rewrite Hst in Ha0; destruct Ha0 as [[_ ?]|[? _]]; [lia|done|lia|done].
Qed.

Lemma awaiting_shared th x : awaiting th = Some x -> shared (sideC th) = Some x.
Proof. unfold awaiting, sideC. destruct (frm th) as [|?|?|?|st p| |st p| | |]; try done; by destruct p. Qed.

(** Every consumer that could take an item is a linked waiter. *)
Lemma stuck_counts : sumf pending gs = 0 /\ sumf after_ gs <= Z.of_nat (length (cvq sh)).
Proof.
  split.
  { apply sumf_zero. intros t g Ht. unfold pending.
    destruct (stuck_goroutine t g Ht) as [[-> _]|[[-> | ->] _]]; done. }
  transitivity (sumf linked gs).
  - apply sumf_mono, Forall_lookup. intros t g Ht. unfold after_.
    assert (0 <= linked g) by (unfold linked; destruct (shared _); lia).
    destruct (stuck_goroutine t g Ht) as [[-> _]|[[-> | ->] Hp]]; [done|done|].
    destruct (stuck_awaits t g Ht Hp) as (x & Hx & _). unfold linked. rewrite (awaiting_shared _ _ Hx).
    by destruct (early (gth g)).
  - rewrite <- owners_linked. apply inj_le. destruct (PC_Split _ (pl_pc _ HL)) as ([_ HC] & _ & _).
    apply WInv_NoDup in HC as [_ Hn]. apply submseteq_length, NoDup_submseteq; [exact Hn|].
    intros x (t & g & Ht & Hx)%owners_elem. destruct (stuck_goroutine t g Ht) as [Hth|[_ Hp]].
    + destruct (through_rests g (agrees_run _ _ _ _ _ HL Ht) Hth) as [[r Hr] _]. unfold sideC in Hx. by rewrite Hr in Hx.
    + destruct (stuck_awaits t g Ht Hp) as (y & Hy & Hin). apply awaiting_shared in Hy. congruence.
Qed.

Lemma moved_le g : agrees g -> moved g <= limit (grole g).
Proof. intros (Hi & Hl & _). unfold moved. destruct (stg g); try lia; specialize (Hl ltac:(done)); lia. Qed.

Lemma through_moved g : through g -> moved g = limit (grole g).
Proof. intros [Es Ei]. unfold moved. rewrite Es, Ei. lia. Qed.

Lemma stuck_through : Forall through gs.
Proof.
  apply Forall_lookup. intros t g Ht. destruct (stuck_goroutine t g Ht) as [|[_ Hp]]; [done|exfalso].
  destruct (stuck_awaits t g Ht Hp) as (x & _ & Hx). destruct stuck_counts as [Hpe Haf].
  pose proof (pl_enough _ HL) as Hen. simpl in Hen.
  assert (Hq : queue d = []).
  { assert (Hne : cvq sh <> []) by (intros E; rewrite E in Hx; by apply not_elem_of_nil in Hx).
    specialize (Hen Hne). unfold size in Hen. destruct (queue d); [done|simpl in Hen; lia]. }
  pose proof (pl_pc _ HL) as [_ Hro Hag Hf Hp' Hc _]. simpl in *. rewrite Hq, app_nil_r in Hf. rewrite Hf, Hp' in Hc.
  assert (Hprod : forall t0 g0, gs !! t0 = Some g0 -> grole g0 = Producer -> moved g0 = 3).
  { intros t0 g0 H0 Hr0. destruct (stuck_goroutine t0 g0 H0) as [Hth|[Hst Hp0]]; [by rewrite (through_moved g0 Hth), Hr0|].
    exfalso. destruct (stuck_awaits t0 g0 H0 Hp0) as (y & Hy & _).
    pose proof (agrees_run _ _ _ _ _ HL H0) as (_ & _ & Ha0). pose proof (Forall_lookup_1 _ _ _ _ (pl_tests _ HL) H0) as Ht0.
    unfold tests, awaiting, idle in *. destruct Hst as [Es|Es]; rewrite Es in *; [|congruence].
    destruct Ha0 as [[(st & p & E) _]|[[r E] _]]; by rewrite E in Hy. }
  pose proof (five_goroutines gs Hro) as (g0 & g1 & g2 & g3 & g4 & E & R0 & R1 & R2 & R3 & R4).
  rewrite E in Hc, Hag, Hprod. unfold movedBy in Hc. simpl in Hc. rewrite R0, R1, R2, R3, R4 in Hc.
  rewrite (Hprod 0%nat g0 eq_refl R0), (Hprod 1%nat g1 eq_refl R1), (Hprod 2%nat g2 eq_refl R2) in Hc.
  pose proof (moved_le g3 (Forall_lookup_1 _ _ 3%nat _ Hag eq_refl)) as H3.
  pose proof (moved_le g4 (Forall_lookup_1 _ _ 4%nat _ Hag eq_refl)) as H4.
  rewrite R3 in H3. rewrite R4 in H4. assert (limit Consumer = 4) by done. lia.
Qed.

(** What is left in the queue at the end. *)
Lemma through_left : Forall through gs -> size (producedItems d) = 9 /\ size (queue d) = 1.
Proof.
  intros Hth. pose proof (pl_pc _ HL) as [_ Hro _ Hf Hp Hc _]. simpl in *.
  pose proof (five_goroutines gs Hro) as (g0 & g1 & g2 & g3 & g4 & E & R0 & R1 & R2 & R3 & R4).
  rewrite E in Hc, Hp, Hth. unfold movedBy in Hc, Hp. simpl in Hc, Hp. rewrite R0, R1, R2, R3, R4 in Hc, Hp.
  pose proof (through_moved g0 (Forall_lookup_1 _ _ 0%nat _ Hth eq_refl)) as M0.
  pose proof (through_moved g1 (Forall_lookup_1 _ _ 1%nat _ Hth eq_refl)) as M1.
  pose proof (through_moved g2 (Forall_lookup_1 _ _ 2%nat _ Hth eq_refl)) as M2.
  pose proof (through_moved g3 (Forall_lookup_1 _ _ 3%nat _ Hth eq_refl)) as M3.
  pose proof (through_moved g4 (Forall_lookup_1 _ _ 4%nat _ Hth eq_refl)) as M4.
  rewrite R0 in M0. rewrite R1 in M1. rewrite R2 in M2. rewrite R3 in M3. rewrite R4 in M4.
  assert (limit Consumer = 4) by done. assert (limit Producer = 3) by done.
  assert (size (consumedItems d) + size (queue d) = size (producedItems d)); [|lia].
  rewrite <- Hf. unfold size. rewrite length_app. lia.
Qed.
End Stuck.

(** * Theorem *)

(** C13: the program of examples/condvar is correct and comes to an end.  In
    every interleaving of its five goroutines over the steps of the mutex and
    the condition variable, nobody panics, goroutines that hold the mutex are
    one, and the items consumed, followed by those in the queue, are those
    produced, in order.  The goroutines come to a stop only when all are
    through: no signal and no wake-up is lost.  At the end all nine items have
    been produced and one of them is left in the queue: [totalItems /
    numConsumers] rounds down, so that the consumers take eight. *)
Theorem condvar_example w gs :
  reach prodcons any_label main (w, gs) ->
  (forall t g, gs !! t = Some g -> stg g <> GPanic) /\
  (forall i j a b, gs !! i = Some a -> gs !! j = Some b -> holding a = true -> holding b = true -> i = j) /\
  consumedItems w.2 ++ queue w.2 = producedItems w.2 /\
  ((forall t g o, gs !! t = Some g -> grun o g w = None) ->
     Forall through gs /\ size (producedItems w.2) = 9 /\ size (queue w.2) = 1).
Proof.
  intros Hr. destruct w as [sh d]. pose proof (reach_PCL _ Hr) as HL. split_and!.
  - intros t g Ht E. destruct (agrees_run _ _ _ _ _ HL Ht) as (_ & _ & Ha). by rewrite E in Ha.
  - intros i j a b Hi Hj. by eapply holding_exclusive; [exact (pl_pc _ HL)|..].
  - exact (pc_fifo _ (pl_pc _ HL)).
  - intros Hstuck. pose proof (stuck_through _ _ _ HL Hstuck) as Hth. split; [done|]. by apply (through_left sh d gs).
Qed.

(** The first consumer waits; the producers produce; the consumers take. *)
Definition consumerFirst : list (label cop) :=
  runs 3 14 ++ runs 0 46 ++ runs 1 42 ++ runs 2 42 ++ runs 3 50 ++ runs 4 48.

Lemma condvar_example_witness :
  size (queue (after prodcons consumerFirst main).1.2) = 1 /\
  consumedItems (after prodcons consumerFirst main).1.2 = [0; 1; 2; 10; 11; 12; 20; 21].
Proof.
  split; [|vm_compute; reflexivity].
  apply (condvar_example (after prodcons consumerFirst main).1 (after prodcons consumerFirst main).2).
  - apply after_reach; [apply Forall_any|by_eval].
  - intros t g o Hg. do 5 (destruct t as [|t]; [vm_compute in Hg; injection Hg as <-; reflexivity|]).
    by vm_compute in Hg.
Defined.
