(* ===== verification/FairQueue.v ===== *)
(** * The fair waiter queue
    (internal/primitives/fair_waiter.go, fair_waiter_queue.go)

    The waiters of FairRWLock and the single queue in which readers and
    writers line up.  The queue is the Michael-Scott queue of waiter.go with
    the waiter itself as the node: as in Waiter.v a link or an unlink is one
    step and the update of the size counter another.  [peek] looks at the
    first waiter without unlinking it, and unlinks the cancelled ones it
    meets.  The last section runs [dequeueReaders] on a queue that nobody
    else uses and shows what it takes. *)

From Stdlib Require Import ZArith Lia.
From stdpp Require Import base list gmap strings.
From S2P Require Import Prelude.

#[local] Open Scope Z_scope.

(** ** Waiters *)

Inductive fairWaiterKind := fairWaiterKindReader | fairWaiterKindWriter.

#[export] Instance fairWaiterKind_eq_dec : EqDecision fairWaiterKind.
Proof. solve_decision. Defined.

Record fairWaiter := mkFairWaiter {
  ID : Z;
  kind : fairWaiterKind;
  Ready : bool;        (* chan struct{} of capacity 1 *)
  CreatedAt : Z;
  signaled : bool;
  cancelled : bool
}.

Definition noWaiter : fairWaiter := mkFairWaiter 0 fairWaiterKindReader false 0 false false.

(** Waiters are allocated and never reused; pointers are natural numbers. *)
Record fheap := mkHeap { cells : gmap nat fairWaiter; nextp : nat; waiterIDCounter : Z }.

Definition emptyHeap : fheap := mkHeap ∅ 0 0.

Definition fget (h : fheap) (x : nat) : fairWaiter := default noWaiter (cells h !! x).
Definition fset (x : nat) (v : fairWaiter) (h : fheap) : fheap :=
  mkHeap (<[x:=v]> (cells h)) (nextp h) (waiterIDCounter h).

Definition setReady (b : bool) (x : fairWaiter) :=
  mkFairWaiter (ID x) (kind x) b (CreatedAt x) (signaled x) (cancelled x).
Definition setSignaled (b : bool) (x : fairWaiter) :=
  mkFairWaiter (ID x) (kind x) (Ready x) (CreatedAt x) b (cancelled x).
Definition setCancelled (b : bool) (x : fairWaiter) :=
  mkFairWaiter (ID x) (kind x) (Ready x) (CreatedAt x) (signaled x) b.

Definition newFairWaiter (k : fairWaiterKind) (o : oracle) (h : fheap) : nat * fheap :=
  let id := addU64 (waiterIDCounter h) 1 in
  (nextp h, mkHeap (<[nextp h:=mkFairWaiter id k false (clk o) false false]> (cells h))
                   (S (nextp h)) id).

(** [signal] is a store followed by a non-blocking send. *)
Definition signal_store (x : nat) (h : fheap) : fheap := fset x (setSignaled true (fget h x)) h.
Definition signal_send (x : nat) (h : fheap) : fheap := fset x (setReady true (fget h x)) h.

(** [wait]: receive; [None] while the channel is empty. *)
Definition wait (x : nat) (h : fheap) : option fheap :=
  if Ready (fget h x) then Some (fset x (setReady false (fget h x)) h) else None.

(** [waitContext] up to the choice of a branch; the store to [cancelled] of
    the second branch is [cancelFair], a step of its own. *)
Definition waitContext (o : oracle) (ctxdone : bool) (x : nat) (h : fheap) : option (bool * fheap) :=
  if alt o && ctxdone then Some (false, h) else h' ← wait x h; Some (true, h').

Definition cancelFair (x : nat) (h : fheap) : fheap := fset x (setCancelled true (fget h x)) h.

(** ** The queue *)

Record fairWaiterQueue := mkFQueue { items : list nat; fsize : Z }.

Definition newFairWaiterQueue : fairWaiterQueue := mkFQueue [] 0.

Definition enqueue_link (x : nat) (q : fairWaiterQueue) := mkFQueue (items q ++ [x]) (fsize q).
Definition enqueue_size (q : fairWaiterQueue) := mkFQueue (items q) (add64 (fsize q) 1).
Definition dequeue_size (q : fairWaiterQueue) := mkFQueue (items q) (add64 (fsize q) (-1)).

Definition sizeValue (q : fairWaiterQueue) : Z := if fsize q <? 0 then 0 else fsize q.
Definition isEmpty (q : fairWaiterQueue) : bool := sizeValue q =? 0.

(** [dequeue]: unlink the first waiter, decrement the size, and start again
    when it is cancelled. *)
Inductive fdpc := FdPop | FdSize (x : nat) | FdCheck (x : nat).

Definition dequeue_step (h : fheap) (p : fdpc) (q : fairWaiterQueue)
    : outcome fdpc (option nat) * fairWaiterQueue :=
  match p with
  | FdPop =>
      match items q with
      | [] => (Return None, q)
      | x :: l => (Next (FdSize x), mkFQueue l (fsize q))
      end
  | FdSize x => (Next (FdCheck x), dequeue_size q)
  | FdCheck x => (if cancelled (fget h x) then Next FdPop else Return (Some x), q)
  end.

(** [peek]: read the first waiter, test [cancelled], unlink a cancelled one
    by a CAS on [head], which fails when somebody else has unlinked it. *)
Inductive pkpc := PkLook | PkCheck (x : nat) | PkPop (x : nat) | PkSize.

Definition peek_step (h : fheap) (p : pkpc) (q : fairWaiterQueue)
    : outcome pkpc (option nat) * fairWaiterQueue :=
  match p with
  | PkLook =>
      match items q with
      | [] => (Return None, q)
      | x :: _ => (Next (PkCheck x), q)
      end
  | PkCheck x => (if cancelled (fget h x) then Next (PkPop x) else Return (Some x), q)
  | PkPop x =>
      match items q with
      | y :: l => if bool_decide (y = x) then (Next PkSize, mkFQueue l (fsize q)) else (Next PkLook, q)
      | [] => (Next PkLook, q)
      end
  | PkSize => (Next PkLook, dequeue_size q)
  end.

(** [dequeueReaders]; [rs] is the slice collected so far. *)
Inductive drpc := DrFirst (d : fdpc) | DrPeek (rs : list nat) (p : pkpc) | DrNext (rs : list nat) (d : fdpc).

Definition isReader (h : fheap) (x : nat) : bool :=
  bool_decide (kind (fget h x) = fairWaiterKindReader).

Definition dequeueReaders_step (h : fheap) (p : drpc) (q : fairWaiterQueue)
    : outcome drpc (list nat) * fairWaiterQueue :=
  match p with
  | DrFirst d =>
      let '(r, q) := dequeue_step h d q in
      (match r with
       | Next d => Next (DrFirst d)
       | Return None => Return []
       | Return (Some x) => if negb (isReader h x) then Return [x] else Next (DrPeek [x] PkLook)
       | Panic e => Panic e
       end, q)
  | DrPeek rs p =>
      let '(r, q) := peek_step h p q in
      (match r with
       | Next p => Next (DrPeek rs p)
       | Return None => Return rs
       | Return (Some x) => if negb (isReader h x) then Return rs else Next (DrNext rs FdPop)
       | Panic e => Panic e
       end, q)
  | DrNext rs d =>
      let '(r, q) := dequeue_step h d q in
      (match r with
       | Next d => Next (DrNext rs d)
       | Return None => Return rs
       | Return (Some x) =>
           if negb (isReader h x) then Return (rs ++ [x]) else Next (DrPeek (rs ++ [x]) PkLook)
       | Panic e => Panic e
       end, q)
  end.

(** ** Running an operation to its end on a queue nobody else uses *)

Section Solo.
Context {P A S : Type} (step : P -> S -> outcome P A * S).

Fixpoint solo (fuel : nat) (p : P) (s : S) : option (A * S) :=
  match fuel with
  | O => None
  | Datatypes.S fuel =>
      match step p s with
      | (Next p', s') => solo fuel p' s'
      | (Return a, s') => Some (a, s')
      | (Panic _, _) => None
      end
  end.

End Solo.

Section Readers.
Context (h : fheap).

(** The cancelled waiters at the front of a list. *)
Fixpoint dropCancelled (l : list nat) : list nat :=
  match l with [] => [] | x :: l => if cancelled (fget h x) then dropCancelled l else x :: l end.

(** The reference: take the waiters that are not cancelled as long as they
    are readers; the rest of the queue starts with a writer that is not
    cancelled, or is empty. *)
Fixpoint spanReaders (l : list nat) : list nat * list nat :=
  match l with
  | [] => ([], [])
  | x :: l' =>
      if cancelled (fget h x) then spanReaders l'
      else if isReader h x then (x :: (spanReaders l').1, (spanReaders l').2)
      else ([], l)
  end.

Definition takeReaders (l : list nat) : list nat * list nat :=
  match dropCancelled l with
  | [] => ([], [])
  | x :: l' => if isReader h x then (x :: (spanReaders l').1, (spanReaders l').2) else ([x], l')
  end.

(** A queue with no operation under way: the counter is the length. *)
Definition quiet (l : list nat) : fairWaiterQueue := mkFQueue l (Z.of_nat (length l)).

Lemma quiet_pop x l :
  Z.of_nat (length (x :: l)) <= MaxInt64 ->
  dequeue_size (mkFQueue l (Z.of_nat (length (x :: l)))) = quiet l.
Proof.
  unfold dequeue_size, quiet, MaxInt64. simpl. intros H. f_equal.
  rewrite add64_id; [lia|]. unfold int64_range. lia.
Qed.

(** Consuming fuel one step at a time. *)
Ltac solo_step fuel :=
  destruct fuel as [|fuel]; [simpl in *; lia|]; cbn [solo].

Lemma peek_readers rs l fuel :
  Z.of_nat (length l) <= MaxInt64 -> (5 * length l < fuel)%nat ->
  solo (dequeueReaders_step h) fuel (DrPeek rs PkLook) (quiet l) =
    Some (rs ++ (spanReaders l).1, quiet (spanReaders l).2).
Proof.
  revert rs fuel. induction l as [|x l IH]; intros rs fuel Hl Hf.
  - solo_step fuel. simpl. by rewrite app_nil_r.
  - assert (Hp := quiet_pop x l Hl). simpl in Hl, Hf, Hp. do 2 solo_step fuel. simpl.
    destruct (cancelled (fget h x)) eqn:Hc; simpl.
    + do 2 solo_step fuel. simpl. rewrite bool_decide_eq_true_2 by done. simpl.
      rewrite Hp. apply IH; lia.
    + destruct (isReader h x) eqn:Hr; simpl; [|by rewrite app_nil_r].
      do 3 solo_step fuel. simpl. rewrite Hc, Hr. simpl.
      rewrite Hp, IH by lia.
      by rewrite <- app_assoc.
Qed.

Lemma first_readers l fuel :
  Z.of_nat (length l) <= MaxInt64 -> (5 * length l < fuel)%nat ->
  solo (dequeueReaders_step h) fuel (DrFirst FdPop) (quiet l) =
    Some ((takeReaders l).1, quiet (takeReaders l).2).
Proof.
  unfold takeReaders. revert fuel. induction l as [|x l IH]; intros fuel Hl Hf; [by solo_step fuel|].
  assert (Hp := quiet_pop x l Hl). simpl in Hl, Hf, Hp. do 3 solo_step fuel. simpl.
  rewrite Hp.
  destruct (cancelled (fget h x)) eqn:Hc; simpl; [apply IH; lia|].
  destruct (isReader h x) eqn:Hr; simpl; [|done]. apply peek_readers; lia.
Qed.

Definition live (l : list nat) : list nat := filter (fun x => cancelled (fget h x) = false) l.

Lemma live_cons x l : live (x :: l) = if cancelled (fget h x) then live l else x :: live l.
Proof.
  unfold live. rewrite filter_cons. destruct (cancelled (fget h x)); [by rewrite decide_False|by rewrite decide_True].
Qed.

Lemma spanReaders_spec l :
  live l = (spanReaders l).1 ++ live (spanReaders l).2 /\ (spanReaders l).2 `suffix_of` l /\
  Forall (fun x => isReader h x = true) (spanReaders l).1 /\
  (forall y, head (spanReaders l).2 = Some y -> isReader h y = false /\ cancelled (fget h y) = false).
Proof.
  induction l as [|x l (IH1 & IH2 & IH3 & IH4)]; simpl; [done|]. rewrite live_cons.
  destruct (cancelled (fget h x)) eqn:Hc; [split_and!; auto; by apply suffix_cons_r|].
  destruct (isReader h x) eqn:Hr; simpl.
  - rewrite IH1 at 1. split_and!; auto; by apply suffix_cons_r.
  - rewrite live_cons, Hc. split_and!; auto. by intros y [= <-].
Qed.

Lemma takeReaders_spec l :
  let (rs, rest) := takeReaders l in
  live l = rs ++ live rest /\ rest `suffix_of` l /\
  (Forall (fun x => isReader h x = true) rs /\
     (forall y, head rest = Some y -> isReader h y = false /\ cancelled (fget h y) = false)
   \/ exists x, rs = [x] /\ isReader h x = false).
Proof.
  unfold takeReaders. induction l as [|x l IH]; simpl; [split_and!; auto; left; split; [done|by intros y]|]. rewrite live_cons.
  destruct (cancelled (fget h x)) eqn:Hc.
  - destruct (dropCancelled l) as [|y l']; [|destruct (isReader h y)];
      destruct IH as (IH1 & IH2 & IH3); split_and!; auto; by apply suffix_cons_r.
  - destruct (isReader h x) eqn:Hr; simpl; [|split_and!; [done|by apply suffix_cons_r|right; eauto]].
    destruct (spanReaders_spec l) as (H1 & H2 & H3 & H4). rewrite H1 at 1.
    split_and!; auto; by apply suffix_cons_r.
Qed.
End Readers.

(** [dequeueReaders] wakes the readers at the head together.  On a queue
    nobody else uses it terminates, and it takes, in FIFO order, the waiters
    that are not cancelled up to the first writer, or that writer alone when
    it is first; cancelled waiters in between are dropped, everything behind
    keeps its place, and the size counter stays the length of the queue. *)
Theorem dequeueReaders_takes_prefix h l fuel :
  Z.of_nat (length l) <= MaxInt64 -> (5 * length l < fuel)%nat ->
  exists rs rest,
    solo (dequeueReaders_step h) fuel (DrFirst FdPop) (quiet l) = Some (rs, quiet rest) /\
    live h l = rs ++ live h rest /\ rest `suffix_of` l /\
    (Forall (fun x => isReader h x = true) rs /\
       (forall y, head rest = Some y -> isReader h y = false /\ cancelled (fget h y) = false)
     \/ exists x, rs = [x] /\ isReader h x = false).
Proof.
  intros Hl Hf. pose proof (takeReaders_spec h l) as H. rewrite (surjective_pairing (takeReaders h l)) in H.
  eexists _, _. split; [by apply first_readers|exact H].
Qed.

(** A reader, a cancelled writer, a reader and a writer. *)
Definition sampleHeap : fheap :=
  let w k c := mkFairWaiter 0 k false 0 false c in
  mkHeap (list_to_map [(0%nat, w fairWaiterKindReader false); (1%nat, w fairWaiterKindWriter true);
                       (2%nat, w fairWaiterKindReader false); (3%nat, w fairWaiterKindWriter false)]) 4 0.

Lemma dequeueReaders_takes_prefix_witness :
  exists rs rest,
    solo (dequeueReaders_step sampleHeap) 21 (DrFirst FdPop) (quiet [0; 1; 2; 3]%nat) =
      Some (rs, quiet rest) /\ rs = [0; 2]%nat /\ rest `suffix_of` [0; 1; 2; 3]%nat.
Proof.
  destruct (dequeueReaders_takes_prefix sampleHeap [0; 1; 2; 3]%nat 21) as (rs & rest & H1 & _ & H2 & _);
    [unfold MaxInt64; simpl; lia|simpl; lia|].
  exists rs, rest. split; [exact H1|]. split; [|exact H2].
  vm_compute in H1. by injection H1 as <-.
Defined.
