(* ===== verification/FairMSQueue.v ===== *)
(** * The fair queue, pointer by pointer (internal/primitives/fair_waiter_queue.go)

    [enqueue], [dequeue], [peek] and [dequeueReaders], one atomic operation
    per step, run by any number of goroutines.  The nodes of this queue are
    the waiters themselves: node [n] of the heap of MSQueue.v holds the
    [next] field of the waiter [waiter n], and comes into being when
    [enqueue] stores nil there.  The result is the same as for the queue of
    waiter.go: a simulation by the queue of FairQueue.v, whose [dequeue_step],
    [peek_step] and [dequeueReaders_step] the fair lock is verified with. *)

From Stdlib Require Import ZArith Lia.
From stdpp Require Import base list gmap strings.
From S2P Require Import Prelude Hindsight Waiter MSQueue FairQueue.

#[local] Open Scope Z_scope.

(** ** The code *)

(** The loop that finds the first node, the same in [dequeue] and [peek]:
    [None] when the queue is empty, or head and its successor. *)
Inductive scpc :=
| ScHead                                      (* head := q.head.Load() *)
| ScTail (hd : nat)                           (* tail := q.tail.Load() *)
| ScNext (hd tl : nat)                        (* next := head.next.Load() *)
| ScCheck (hd tl : nat) (nx : option nat)     (* head != q.head.Load() *)
| ScHelp (tl m : nat).                        (* q.tail.CompareAndSwap(tail, next) *)

Definition scan_step (p : scpc) (q : msq) : outcome scpc (option (nat * nat)) * msq :=
  match p with
  | ScHead => (Next (ScTail (MSQueue.head q)), q)
  | ScTail hd => (Next (ScNext hd (MSQueue.tail q)), q)
  | ScNext hd tl => (Next (ScCheck hd tl (next (nodeAt q hd))), q)
  | ScCheck hd tl nx =>
      if negb (Nat.eqb hd (MSQueue.head q)) then (Next ScHead, q)
      else if Nat.eqb hd tl then
        match nx with None => (Return None, q) | Some m => (Next (ScHelp tl m), q) end
      else match nx with
           | Some m => (Return (Some (hd, m)), q)
           | None => (Panic nilDeref, q)
           end
  | ScHelp tl m => (Next ScHead, casTail tl m q)
  end.

(** [dequeue] unlinks the node, decrements the size and starts again when
    the waiter is cancelled. *)
Inductive fqdpc := FqScan (p : scpc) | FqCas (hd m : nat) | FqSize (m : nat) | FqTest (m : nat).

Definition dequeue_mstep (hp : fheap) (p : fqdpc) (q : msq) : outcome fqdpc (option nat) * msq :=
  match p with
  | FqScan p =>
      let '(r, q) := scan_step p q in
      (match r with
       | Next p => Next (FqScan p)
       | Return None => Return None
       | Return (Some (hd, m)) => Next (FqCas hd m)
       | Panic e => Panic e
       end, q)
  | FqCas hd m =>
      if Nat.eqb (MSQueue.head q) hd then (Next (FqSize m), setHead m q) else (Next (FqScan ScHead), q)
  | FqSize m => (Next (FqTest m), addSize (-1) q)
  | FqTest m =>
      match waiter (nodeAt q m) with
      | None => (Panic nilDeref, q)
      | Some x => (if FairQueue.cancelled (fget hp x) then Next (FqScan ScHead) else Return (Some x), q)
      end
  end.

(** [peek] tests the waiter first and unlinks it only when it is cancelled. *)
Inductive fqppc := PqScan (p : scpc) | PqTest (hd m : nat) | PqCas (hd m : nat) | PqSize.

Definition peek_mstep (hp : fheap) (p : fqppc) (q : msq) : outcome fqppc (option nat) * msq :=
  match p with
  | PqScan p =>
      let '(r, q) := scan_step p q in
      (match r with
       | Next p => Next (PqScan p)
       | Return None => Return None
       | Return (Some (hd, m)) => Next (PqTest hd m)
       | Panic e => Panic e
       end, q)
  | PqTest hd m =>
      match waiter (nodeAt q m) with
      | None => (Panic nilDeref, q)
      | Some x => (if FairQueue.cancelled (fget hp x) then Next (PqCas hd m) else Return (Some x), q)
      end
  | PqCas hd m =>
      if Nat.eqb (MSQueue.head q) hd then (Next PqSize, setHead m q) else (Next (PqScan ScHead), q)
  | PqSize => (Next (PqScan ScHead), addSize (-1) q)
  end.

(** ** Goroutines

    Who called: [dequeue] and [peek] are called by themselves, or by
    [dequeueReaders] with the readers collected so far. *)
Inductive dcont := DCall | DFirst | DNext (rs : list nat).
Inductive pcont := PCall | PMore (rs : list nat).

Inductive fqresult := RNone | RWaiter (x : option nat) | RReaders (rs : list nat).

Inductive fqframe :=
| FqIdle (r : fqresult)
| FqNew (k : fairWaiterKind)
| FqEnq (p : enqpc)
| FqDeq (p : fqdpc) (k : dcont)
| FqPk (p : fqppc) (k : pcont)
| FqPanic (e : string).

(** What happens to the result of a call: [inl] the operation is over,
    [inr] the next call ([inl] a [dequeue], [inr] a [peek]). *)
Definition afterDeq (hp : fheap) (k : dcont) (v : option nat) : fqresult + pcont :=
  match k, v with
  | DCall, v => inl (RWaiter v)
  | DFirst, None => inl (RReaders [])
  | DNext rs, None => inl (RReaders rs)
  | DFirst, Some x => if negb (isReader hp x) then inl (RReaders [x]) else inr (PMore [x])
  | DNext rs, Some x => if negb (isReader hp x) then inl (RReaders (rs ++ [x])) else inr (PMore (rs ++ [x]))
  end.

Definition afterPeek (hp : fheap) (k : pcont) (v : option nat) : fqresult + dcont :=
  match k, v with
  | PCall, v => inl (RWaiter v)
  | PMore rs, None => inl (RReaders rs)
  | PMore rs, Some x => if negb (isReader hp x) then inl (RReaders rs) else inr (DNext rs)
  end.

Inductive fqop := FqEnqueue (k : fairWaiterKind) | FqDequeue | FqPeek | FqDequeueReaders.

Definition fqcall (op : fqop) (now : Z) (f : fqframe) : option fqframe :=
  match f with
  | FqIdle _ =>
      Some match op with
           | FqEnqueue k => FqNew k
           | FqDequeue => FqDeq (FqScan ScHead) DCall
           | FqPeek => FqPk (PqScan ScHead) PCall
           | FqDequeueReaders => FqDeq (FqScan ScHead) DFirst
           end
  | _ => None
  end.

(** [FqNew]: [newFairWaiter] and [w.next.Store(nil)], on a waiter that nobody
    else knows yet. *)
Definition fqrun (o : oracle) (f : fqframe) (sh : msq * fheap) : option (fqframe * (msq * fheap)) :=
  let '(q, hp) := sh in
  match f with
  | FqIdle _ | FqPanic _ => None
  | FqNew k =>
      let '(x, hp) := newFairWaiter k o hp in
      let '(n, q) := alloc x q in
      Some (FqEnq (ELoadTail n), (q, hp))
  | FqEnq p =>
      let '(r, q) := Enqueue_step p q in
      Some (match r with Next p => FqEnq p | Return _ => FqIdle RNone | Panic e => FqPanic e end, (q, hp))
  | FqDeq p k =>
      let '(r, q) := dequeue_mstep hp p q in
      Some (match r with
            | Next p => FqDeq p k
            | Return v => match afterDeq hp k v with inl r => FqIdle r | inr k => FqPk (PqScan ScHead) k end
            | Panic e => FqPanic e
            end, (q, hp))
  | FqPk p k =>
      let '(r, q) := peek_mstep hp p q in
      Some (match r with
            | Next p => FqPk p k
            | Return v => match afterPeek hp k v with inl r => FqIdle r | inr k => FqDeq (FqScan ScHead) k end
            | Panic e => FqPanic e
            end, (q, hp))
  end.

(** The owner of a waiter may cancel it at any moment. *)
Definition fairqueue : machine (msq * fheap) fqframe fqop :=
  Machine fqcall fqrun (fun x sh => (sh.1, cancelFair x sh.2)).

Definition fqinitial (n : nat) : config (Sh:=msq*fheap) (Th:=fqframe) :=
  ((NewQueue, emptyHeap), replicate n (FqIdle RNone)).

(** * The specification

    The queue of FairQueue.v, with the very steps the fair lock is made of. *)
Inductive aframe :=
| AIdle (r : fqresult)
| ANew (k : fairWaiterKind)
| ALink (x : nat)
| ASize
| ADeq (p : fdpc)
| APk (p : pkpc)
| AReaders (p : drpc)
| APanic (e : string).

Definition acall (op : fqop) (now : Z) (f : aframe) : option aframe :=
  match f with
  | AIdle _ =>
      Some match op with
           | FqEnqueue k => ANew k
           | FqDequeue => ADeq FdPop
           | FqPeek => APk PkLook
           | FqDequeueReaders => AReaders (DrFirst FdPop)
           end
  | _ => None
  end.

Definition aended {P A} (k : P -> aframe) (v : A -> fqresult) (r : outcome P A) : aframe :=
  match r with Next p => k p | Return a => AIdle (v a) | Panic e => APanic e end.

Definition arun (o : oracle) (f : aframe) (sh : fairWaiterQueue * fheap) : option (aframe * (fairWaiterQueue * fheap)) :=
  let '(q, hp) := sh in
  match f with
  | AIdle _ | APanic _ => None
  | ANew k => let '(x, hp) := newFairWaiter k o hp in Some (ALink x, (q, hp))
  | ALink x => Some (ASize, (enqueue_link x q, hp))
  | ASize => Some (AIdle RNone, (enqueue_size q, hp))
  | ADeq p => let '(r, q) := dequeue_step hp p q in Some (aended ADeq RWaiter r, (q, hp))
  | APk p => let '(r, q) := peek_step hp p q in Some (aended APk RWaiter r, (q, hp))
  | AReaders p => let '(r, q) := dequeueReaders_step hp p q in Some (aended AReaders RReaders r, (q, hp))
  end.

Definition fairQueue : machine (fairWaiterQueue * fheap) aframe fqop :=
  Machine acall arun (fun x sh => (sh.1, cancelFair x sh.2)).

Definition ainitial (n : nat) : config (Sh:=fairWaiterQueue*fheap) (Th:=aframe) :=
  ((newFairWaiterQueue, emptyHeap), replicate n (AIdle RNone)).

(** ** With hindsight

    As for the other queue, nil may be returned only if the list was empty at
    some moment since the search began ([seen]). *)
Inductive sfframe :=
| SfIdle (r : fqresult)
| SfNew (k : fairWaiterKind)
| SfLink (x : nat)
| SfSize
| SfDeq (seen : bool) (k : dcont)
| SfDqStep (p : fdpc) (k : dcont)
| SfPk (seen : bool) (k : pcont)
| SfPkStep (p : pkpc) (k : pcont).

Definition sfcall (op : fqop) (now : Z) (f : sfframe) : option sfframe :=
  match f with
  | SfIdle _ =>
      Some match op with
           | FqEnqueue k => SfNew k
           | FqDequeue => SfDeq false DCall
           | FqPeek => SfPk false PCall
           | FqDequeueReaders => SfDeq false DFirst
           end
  | _ => None
  end.

Definition sfDeqRet (hp : fheap) (k : dcont) (v : option nat) : sfframe :=
  match afterDeq hp k v with inl r => SfIdle r | inr k => SfPk false k end.
Definition sfPkRet (hp : fheap) (k : pcont) (v : option nat) : sfframe :=
  match afterPeek hp k v with inl r => SfIdle r | inr k => SfDeq false k end.

(** After a step of [dequeue] or [peek]; [FdPop] and [PkLook] are where a
    search begins. *)
Definition sfDeqNext (hp : fheap) (k : dcont) (r : outcome fdpc (option nat)) : sfframe :=
  match r with
  | Next FdPop => SfDeq false k
  | Next p => SfDqStep p k
  | Return v => sfDeqRet hp k v
  | Panic _ => SfIdle RNone
  end.
Definition sfPkNext (hp : fheap) (k : pcont) (r : outcome pkpc (option nat)) : sfframe :=
  match r with
  | Next PkLook => SfPk false k
  | Next p => SfPkStep p k
  | Return v => sfPkRet hp k v
  | Panic _ => SfIdle RNone
  end.

(** [pick o] chooses between looking at the list, going on with its first
    element and returning nil. *)
Definition sfrun (o : oracle) (f : sfframe) (sh : fairWaiterQueue * fheap) : option (sfframe * (fairWaiterQueue * fheap)) :=
  let '(q, hp) := sh in
  match f with
  | SfIdle _ => None
  | SfNew k => let '(x, hp) := newFairWaiter k o hp in Some (SfLink x, (q, hp))
  | SfLink x => Some (SfSize, (enqueue_link x q, hp))
  | SfSize => Some (SfIdle RNone, (enqueue_size q, hp))
  | SfDeq seen k =>
      match pick o, FairQueue.items q with
      | 0%nat, its => Some (SfDeq (seen || bool_decide (its = [])) k, (q, hp))
      | 1%nat, _ :: _ => let '(r, q) := dequeue_step hp FdPop q in Some (sfDeqNext hp k r, (q, hp))
      | 2%nat, _ => if seen then Some (sfDeqRet hp k None, (q, hp)) else None
      | _, _ => None
      end
  | SfDqStep p k => let '(r, q) := dequeue_step hp p q in Some (sfDeqNext hp k r, (q, hp))
  | SfPk seen k =>
      match pick o, FairQueue.items q with
      | 0%nat, its => Some (SfPk (seen || bool_decide (its = [])) k, (q, hp))
      | 1%nat, _ :: _ => let '(r, q) := peek_step hp PkLook q in Some (sfPkNext hp k r, (q, hp))
      | 2%nat, _ => if seen then Some (sfPkRet hp k None, (q, hp)) else None
      | _, _ => None
      end
  | SfPkStep p k => let '(r, q) := peek_step hp p q in Some (sfPkNext hp k r, (q, hp))
  end.

Definition fairqueueSpec : machine (fairWaiterQueue * fheap) sfframe fqop :=
  Machine sfcall sfrun (fun x sh => (sh.1, cancelFair x sh.2)).

Definition sfinitial (n : nat) : config (Sh:=fairWaiterQueue*fheap) (Th:=sfframe) :=
  ((newFairWaiterQueue, emptyHeap), replicate n (SfIdle RNone)).

(** The searches on behalf of their callers. *)
Definition deqFrame (k : dcont) (p : fdpc) : aframe :=
  match k with DCall => ADeq p | DFirst => AReaders (DrFirst p) | DNext rs => AReaders (DrNext rs p) end.
Definition pkFrame (k : pcont) (p : pkpc) : aframe :=
  match k with PCall => APk p | PMore rs => AReaders (DrPeek rs p) end.

Definition fqUnseen (g : sfframe) : aframe :=
  match g with
  | SfIdle r => AIdle r
  | SfNew k => ANew k
  | SfLink x => ALink x
  | SfSize => ASize
  | SfDeq _ k => deqFrame k FdPop
  | SfDqStep p k => deqFrame k p
  | SfPk _ k => pkFrame k PkLook
  | SfPkStep p k => pkFrame k p
  end.

(** What the caller gets from an empty queue. *)
Definition fqNil (g : sfframe) : option aframe :=
  match g with
  | SfDeq true k => Some (AIdle match k with DCall => RWaiter None | DFirst => RReaders [] | DNext rs => RReaders rs end)
  | SfPk true k => Some (AIdle match k with PCall => RWaiter None | PMore rs => RReaders rs end)
  | _ => None
  end.

(** A step of a search is one of its caller. *)
Lemma deqFrame_run o k p q hp r q' :
  dequeue_step hp p q = (r, q') -> (forall e, r <> Panic e) ->
  arun o (deqFrame k p) (q, hp) = Some (fqUnseen (sfDeqNext hp k r), (q', hp)).
Proof.
  intros E Hp. destruct r as [p'|v|e]; [| |by destruct (Hp e)]; destruct k; simpl; rewrite E; simpl;
    try (by destruct p'); unfold sfDeqRet; simpl; destruct v as [x|]; simpl; try done; by destruct (isReader hp x).
Qed.

Lemma pkFrame_run o k p q hp r q' :
  peek_step hp p q = (r, q') -> (forall e, r <> Panic e) ->
  arun o (pkFrame k p) (q, hp) = Some (fqUnseen (sfPkNext hp k r), (q', hp)).
Proof.
  intros E Hp. destruct r as [p'|v|e]; [| |by destruct (Hp e)]; destruct k; simpl; rewrite E; simpl;
    try (by destruct p'); unfold sfPkRet; simpl; destruct v as [x|]; simpl; try done; by destruct (isReader hp x).
Qed.

Lemma dequeue_returns hp p q r q' e : dequeue_step hp p q = (r, q') -> r <> Panic e.
Proof. destruct p; simpl; repeat case_match; by intros [= <- <-]. Qed.

Lemma peek_returns hp p q r q' e : peek_step hp p q = (r, q') -> r <> Panic e.
Proof. destruct p; simpl; repeat case_match; by intros [= <- <-]. Qed.

Lemma sfDeqNext_nil hp k r : fqNil (sfDeqNext hp k r) = None.
Proof. destruct r as [[]|v|]; try done. unfold sfDeqNext, sfDeqRet. by destruct (afterDeq hp k v). Qed.

Lemma sfPkNext_nil hp k r : fqNil (sfPkNext hp k r) = None.
Proof. destruct r as [[]|v|]; try done. unfold sfPkNext, sfPkRet. by destruct (afterPeek hp k v). Qed.

#[export] Instance fairQueueHindsight : Hindsight fairqueueSpec fairQueue fqUnseen fqNil.
Proof.
  split; [| |done].
  - intros op now th th' Hc. destruct th; try done. simpl in Hc. destruct op; by simplify_eq.
  - intros o th [q hp] th' [q' hp'] Hr. destruct th as [r|k|x| |seen k|p k|seen k|p k]; simpl in Hr; try done.
    + simplify_eq. left. split; [done|]. by exists o.
    + simplify_eq. left. split; [done|]. by exists o.
    + simplify_eq. left. split; [done|]. by exists o.
    + destruct (pick o) as [|[|[|n]]]; [| |destruct seen; [|done]|by destruct (FairQueue.items q)].
      * injection Hr as <- <- <-. right; left. split; [done|]. split; [done|]. destruct seen; [by left|]. simpl.
        case_bool_decide as Ei; [right|by left]. eexists _, o0. split; [done|]. destruct k; simpl; by rewrite Ei.
      * destruct (FairQueue.items q) as [|x l] eqn:Ei; [done|]. injection Hr as <- <- <-. left. split; [done|]. exists o0.
        apply (deqFrame_run o0 k FdPop q hp (Next (FdSize x))); [simpl; by rewrite Ei|done].
      * injection Hr as <- <- <-. right; right. split; [done|]. unfold sfDeqRet. by destruct k.
    + destruct (dequeue_step hp p q) as [r q1] eqn:E. injection Hr as <- <- <-. left. split; [apply sfDeqNext_nil|].
      exists o0. apply deqFrame_run; [done|]. intros e. by eapply dequeue_returns.
    + destruct (pick o) as [|[|[|n]]]; [| |destruct seen; [|done]|by destruct (FairQueue.items q)].
      * injection Hr as <- <- <-. right; left. split; [done|]. split; [done|]. destruct seen; [by left|]. simpl.
        case_bool_decide as Ei; [right|by left]. eexists _, o0. split; [done|]. destruct k; simpl; by rewrite Ei.
      * destruct (FairQueue.items q) as [|x l] eqn:Ei; [done|]. injection Hr as <- <- <-. left. split; [done|]. exists o0.
        apply (pkFrame_run o0 k PkLook q hp (Next (PkCheck x))); [simpl; by rewrite Ei|done].
      * injection Hr as <- <- <-. right; right. split; [done|]. unfold sfPkRet. by destruct k.
    + destruct (peek_step hp p q) as [r q1] eqn:E. injection Hr as <- <- <-. left. split; [apply sfPkNext_nil|].
      exists o0. apply pkFrame_run; [done|]. intros e. by eapply peek_returns.
Qed.

(** * The simulation *)

(** The list and its counter, as the queue of MSQueue.v. *)
Definition listOf (q : fairWaiterQueue) : WaiterQueue := mkQueue (FairQueue.items q) (fsize q).

(** What a goroutine knows in the search. *)
Definition scRel (c : list nat) (h t : nat) (p : scpc) (seen : bool) : Prop :=
  match p with
  | ScHead => True
  | ScTail hd => upto c h hd
  | ScNext hd tl => exists i j, c !! i = Some hd /\ c !! j = Some tl /\ (i <= h)%nat /\ (i <= j <= t)%nat
  | ScCheck hd tl nx =>
      exists i j, c !! i = Some hd /\ c !! j = Some tl /\ (i <= h)%nat /\ (i <= j <= t)%nat /\
        match nx with None => seen = true /\ i = j | Some m => c !! S i = Some m end
  | ScHelp tl m => linked c t tl m
  end.

(** [m] follows [hd], which has been head, and is not beyond the tail. *)
Definition found (c : list nat) (h t hd m : nat) : Prop :=
  exists i, c !! i = Some hd /\ c !! S i = Some m /\ (i <= h)%nat /\ (i < t)%nat.

Definition holdsNode (q : msq) (m x : nat) : Prop := waiter (nodeAt q m) = Some x /\ (m < allocn q)%nat.

Definition fqrel (q : msq) (c : list nat) (h t : nat) (f : fqframe) (g : sfframe) : Prop :=
  match f, g with
  | FqIdle r, SfIdle r' => r = r'
  | FqNew k, SfNew k' => k = k'
  | FqEnq p, SfLink x => frel q c h t (MEnq p) (SLink x)
  | FqEnq p, SfSize => frel q c h t (MEnq p) SSize
  | FqDeq (FqScan p) k, SfDeq seen k' => k = k' /\ scRel c h t p seen
  | FqDeq (FqCas hd m) k, SfDeq _ k' => k = k' /\ found c h t hd m
  | FqDeq (FqSize m) k, SfDqStep (FdSize x) k' => k = k' /\ holdsNode q m x
  | FqDeq (FqTest m) k, SfDqStep (FdCheck x) k' => k = k' /\ holdsNode q m x
  | FqPk (PqScan p) k, SfPk seen k' => k = k' /\ scRel c h t p seen
  | FqPk (PqTest hd m) k, SfPkStep (PkCheck x) k' => k = k' /\ holdsNode q m x /\ found c h t hd m
  | FqPk (PqCas hd m) k, SfPkStep (PkPop x) k' => k = k' /\ holdsNode q m x /\ found c h t hd m
  | FqPk PqSize k, SfPkStep PkSize k' => k = k'
  | _, _ => False
  end.

Definition fqprivate (f : fqframe) : option nat := match f with FqEnq p => private (MEnq p) | _ => None end.

(** Every node is a waiter of its own. *)
Definition ownWaiters (q : msq) (hp : fheap) : Prop :=
  (forall n x, waiter (nodeAt q n) = Some x -> (x < nextp hp)%nat) /\
  (forall n m x, waiter (nodeAt q n) = Some x -> waiter (nodeAt q m) = Some x -> n = m).

Section Growth.
Context (q : msq) (c : list nat) (h t : nat) (q' : msq) (c' : list nat) (h' t' : nat).
Hypothesis G : grows q c h t q' c' h' t'.

Lemma scRel_grows p seen : scRel c h t p seen -> scRel c' h' t' p seen.
Proof.
  pose proof (grows_lookup _ _ _ _ _ _ _ _ G) as L. pose proof G as [_ Gh Gt _ _]. destruct p as [|hd|hd tl|hd tl nx|tl m]; simpl; [done| | | |].
  - by apply (grows_upto _ _ _ _ _ _ _ _ G).
  - intros (i & j & Hi & Hj & Hih & Hij). exists i, j. split_and!; eauto; lia.
  - intros (i & j & Hi & Hj & Hih & Hij & Hn). exists i, j. split_and!; eauto; try lia. destruct nx; eauto.
  - by apply (grows_linked _ _ _ _ _ _ _ _ G).
Qed.

Lemma found_grows hd m : found c h t hd m -> found c' h' t' hd m.
Proof.
  pose proof (grows_lookup _ _ _ _ _ _ _ _ G) as L. pose proof G as [_ Gh Gt _ _].
  intros (i & Hi & Hm & Hih & Hit). exists i. split_and!; eauto; lia.
Qed.

Lemma holdsNode_grows m x : holdsNode q m x -> holdsNode q' m x.
Proof. intros [H1 H2]. destruct G as [_ _ _ Ga Gw]. split; [by rewrite Gw|lia]. Qed.

Lemma fqrel_grows f g :
  fqrel q c h t f g ->
  (forall n, fqprivate f = Some n -> n ∉ c -> (n < allocn q)%nat -> (n ∉ c') /\ nodeAt q' n = nodeAt q n) ->
  fqrel q' c' h' t' f g.
Proof.
  intros Hf Hp. destruct f as [r|k|p|p k|p k|e], g as [r'|k'|x| |seen k'|p' k'|seen k'|p' k']; simpl in *; try (by destruct p); try done.
  - exact (frel_grows _ _ _ _ _ _ _ _ G (MEnq p) (SLink x) Hf Hp).
  - exact (frel_grows _ _ _ _ _ _ _ _ G (MEnq p) SSize Hf Hp).
  - destruct p; try done; destruct Hf; split; auto using scRel_grows, found_grows.
  - destruct p; try done; destruct p'; try done; destruct Hf; split; auto using holdsNode_grows.
  - destruct p; try done; destruct Hf; split; auto using scRel_grows.
  - destruct p; try done; destruct p'; try done; destruct Hf as [? []]; split_and!; auto using holdsNode_grows, found_grows.
Qed.
End Growth.

(** One step of a goroutine, as in MSQueue.v. *)
Definition fmatches (q : msq) (hp : fheap) (c : list nat) (h t : nat) (aq : fairWaiterQueue)
    (f : fqframe) (g : sfframe) (f' : fqframe) (q' : msq) (hp' : fheap) : Prop :=
  exists c' h' t' g' aq',
    ((g' = g /\ aq' = aq /\ hp' = hp) \/ exists o, sfrun o g (aq, hp) = Some (g', (aq', hp'))) /\
    ginv q' c' h' t' (listOf aq') /\ fqrel q' c' h' t' f' g' /\ grows q c h t q' c' h' t' /\
    (forall n, n ∉ c -> (n < allocn q)%nat -> fqprivate f <> Some n ->
       (n ∉ c') /\ nodeAt q' n = nodeAt q n) /\
    (fqprivate f' = fqprivate f \/ fqprivate f' = None \/ fqprivate f' = Some (allocn q)) /\
    ownWaiters q' hp'.

Section Matches.
Context (q : msq) (hp : fheap) (c : list nat) (h t : nat) (aq : fairWaiterQueue).
Hypothesis HI : ginv q c h t (listOf aq).
Hypothesis HW : ownWaiters q hp.

(** Steps that do not change the queue. *)
Lemma fmatches_read f g f' :
  fqrel q c h t f' g -> (fqprivate f' = fqprivate f \/ fqprivate f' = None) -> fmatches q hp c h t aq f g f' q hp.
Proof. intros Hf Hp. exists c, h, t, g, aq. repeat split; auto using grows_refl; try apply HI; try apply HW; tauto. Qed.

(** Steps the specification follows without changing the queue. *)
Lemma fmatches_local f g f' g' o :
  sfrun o g (aq, hp) = Some (g', (aq, hp)) -> fqrel q c h t f' g' -> fqprivate f' = None ->
  fmatches q hp c h t aq f g f' q hp.
Proof.
  intros Hs Hf Hp. exists c, h, t, g', aq. repeat split; auto using grows_refl; try apply HI; try apply HW; try tauto. eauto.
Qed.

Lemma ownWaiters_same q' : (forall n, waiter (nodeAt q' n) = waiter (nodeAt q n)) -> ownWaiters q' hp.
Proof. intros E. destruct HW as [H1 H2]. split; [intros n x; rewrite E; apply H1|intros n m x; rewrite !E; apply H2]. Qed.

(** The tail is moved on. *)
Lemma fmatches_help f g f' tl m :
  linked c t tl m -> (forall t', (t <= t')%nat -> fqrel (casTail tl m q) c h t' f' g) -> fqprivate f' = fqprivate f ->
  fmatches q hp c h t aq f g f' (casTail tl m q) hp.
Proof.
  intros Hl Hf Hp. destruct (ginv_casTail _ _ _ _ _ HI _ _ Hl) as (t' & Ht & HI').
  exists c, h, t', g, aq. split; [by left|]. split; [done|]. split; [by apply Hf|]. split; [by apply casTail_grows|].
  split; [intros; by rewrite casTail_nodes|]. split; [by left|]. apply ownWaiters_same. intros. by rewrite casTail_nodes.
Qed.

(** The search of [dequeue] and of [peek]. *)
Lemma scan_matches p seen r q' :
  scRel c h t p seen -> scan_step p q = (r, q') ->
  match r with
  | Next p' =>
      (q' = q /\ scRel c h t p' seen) \/
      (q' = q /\ FairQueue.items aq = [] /\ scRel c h t p' true) \/
      exists tl m, q' = casTail tl m q /\ linked c t tl m /\ p' = ScHead
  | Return None => q' = q /\ seen = true
  | Return (Some (hd, m)) =>
      q' = q /\ found c h t hd m /\ exists x l, FairQueue.items aq = x :: l /\ holdsNode q m x
  | Panic _ => False
  end.
Proof.
  intros Hf Hs. pose proof HI as [_ Hhd Htl Hord _ Hnx Hal Hits _].
  destruct p as [|hd|hd tl|hd tl nx|tl m]; simpl in Hs.
  - simplify_eq. left. split; [done|]. by exists h.
  - simplify_eq. destruct Hf as (i & Hi & Hc). left. split; [done|]. exists i, t. split_and!; auto; lia.
  - simplify_eq. destruct Hf as (i & j & Hi & Hj & Hih & Hij). destruct (next (nodeAt q' hd)) as [m|] eqn:E.
    + left. split; [done|]. exists i, j. rewrite <- E, (Hnx _ _ Hi). auto 10.
    + right; left. pose proof (chain_last _ _ _ _ _ HI _ _ Hi E) as Hlen.
      apply lookup_lt_Some in Hhd, Htl. pose proof (lookup_lt_Some _ _ _ Hj). split; [done|]. split.
      * rewrite drop_ge in Hits by lia. by inversion Hits.
      * exists i, j. split_and!; auto; lia.
  - destruct Hf as (i & j & Hi & Hj & Hih & Hij & Hm).
    destruct (negb (Nat.eqb hd (MSQueue.head q))) eqn:E1; simplify_eq; [left; by split|].
    apply negb_false_iff, Nat.eqb_eq in E1. subst hd.
    destruct (Nat.eqb (MSQueue.head q) tl) eqn:E2.
    + apply Nat.eqb_eq in E2 as <-. pose proof (chain_index _ _ _ _ _ HI _ _ _ Hi Hj) as <-.
      destruct nx as [m|]; simplify_eq; [|by destruct Hm]. left. split; [done|]. exists i. split; [lia|done].
    + apply Nat.eqb_neq in E2. destruct nx as [m|]; simplify_eq; [|destruct Hm as [_ ->]; congruence].
      pose proof (chain_index _ _ _ _ _ HI _ _ _ Hi Hhd) as ->. split; [done|]. split.
      * exists h. split_and!; auto. destruct (decide (h = j)) as [->|]; [congruence|lia].
      * rewrite (drop_S _ _ _ Hm) in Hits. apply Forall2_cons_inv_l in Hits as (x & l & Hx & _ & E). simpl in E.
        exists x, l. split; [done|]. split; [done|]. apply Hal. by eapply list_elem_of_lookup_2.
  - simplify_eq. right; right. by exists tl, m.
Qed.

(** Head moves on: the first waiter leaves the list. *)
Lemma unlink_first hd m x l :
  found c h t hd m -> MSQueue.head q = hd -> FairQueue.items aq = x :: l ->
  holdsNode q m x /\ ginv (setHead m q) c (S h) t (listOf (mkFQueue l (fsize aq))) /\ grows q c h t (setHead m q) c (S h) t.
Proof.
  intros (i & Hi & Hm & _ & Hit) Eh Ei.
  destruct (ginv_setHead _ _ _ _ _ HI hd m i Eh Hi Hm Hit) as (w & l' & E & Hw & Ha & HI' & HG).
  simpl in E. rewrite Ei in E. simplify_eq. done.
Qed.

Lemma unlinkable hd m : found c h t hd m -> MSQueue.head q = hd -> exists x l, FairQueue.items aq = x :: l.
Proof.
  intros (i & Hi & Hm & _ & Hit) Eh.
  destruct (ginv_setHead _ _ _ _ _ HI hd m i Eh Hi Hm Hit) as (w & l' & E & _). by exists w, l'.
Qed.

Lemma fmatches_unlink f g f' g' hd m x l o :
  found c h t hd m -> MSQueue.head q = hd -> FairQueue.items aq = x :: l ->
  sfrun o g (aq, hp) = Some (g', (mkFQueue l (fsize aq), hp)) ->
  (holdsNode q m x -> fqrel (setHead m q) c (S h) t f' g') -> fqprivate f' = None ->
  fmatches q hp c h t aq f g f' (setHead m q) hp.
Proof.
  intros Hf Eh Ei Hs Hr Hp. destruct (unlink_first hd m x l Hf Eh Ei) as (Hn & HI' & HG).
  exists c, (S h), t, g', (mkFQueue l (fsize aq)). split; [right; by exists o|]. split; [done|]. split; [by apply Hr|].
  split; [done|]. split; [done|]. split; [by right; left|]. by apply ownWaiters_same.
Qed.

(** The size is decremented. *)
Lemma fmatches_size f g f' g' o :
  sfrun o g (aq, hp) = Some (g', (dequeue_size aq, hp)) -> fqrel (addSize (-1) q) c h t f' g' -> fqprivate f' = None ->
  fmatches q hp c h t aq f g f' (addSize (-1) q) hp.
Proof.
  intros Hs Hr Hp. exists c, h, t, g', (dequeue_size aq). split; [right; by exists o|].
  split; [exact (ginv_addSize _ _ _ _ _ HI (-1))|]. split; [done|]. split; [by constructor|]. split; [done|].
  split; [by right; left|]. by apply ownWaiters_same.
Qed.

Lemma deqRet_rel k v : fqrel q c h t (match afterDeq hp k v with inl r => FqIdle r | inr k => FqPk (PqScan ScHead) k end) (sfDeqRet hp k v).
Proof. unfold sfDeqRet. by destruct (afterDeq hp k v). Qed.

Lemma pkRet_rel k v : fqrel q c h t (match afterPeek hp k v with inl r => FqIdle r | inr k => FqDeq (FqScan ScHead) k end) (sfPkRet hp k v).
Proof. unfold sfPkRet. by destruct (afterPeek hp k v). Qed.

Lemma deqRet_private k v : fqprivate (match afterDeq hp k v with inl r => FqIdle r | inr k => FqPk (PqScan ScHead) k end) = None.
Proof. by destruct (afterDeq hp k v). Qed.

Lemma pkRet_private k v : fqprivate (match afterPeek hp k v with inl r => FqIdle r | inr k => FqDeq (FqScan ScHead) k end) = None.
Proof. by destruct (afterPeek hp k v). Qed.

Lemma fdequeue_matches p k g r q' :
  fqrel q c h t (FqDeq p k) g -> dequeue_mstep hp p q = (r, q') ->
  fmatches q hp c h t aq (FqDeq p k) g
    (match r with
     | Next p => FqDeq p k
     | Return v => match afterDeq hp k v with inl r => FqIdle r | inr k => FqPk (PqScan ScHead) k end
     | Panic e => FqPanic e
     end) q' hp.
Proof.
  intros Hf Hs. destruct p as [p|hd m|m|m]; destruct g as [| | | |seen k'|p' k'|seen k'|p' k']; simpl in Hf; try done; simpl in Hs.
  - destruct Hf as [-> Hf]. destruct (scan_step p q) as [r1 q1] eqn:E. pose proof (scan_matches p seen r1 q1 Hf E) as H.
    destruct r1 as [p1|[[hd m]|]|e]; injection Hs as <- <-; [| | |done].
    + destruct H as [[-> H]|[(-> & Hi & H)|(tl & m & -> & Hl & ->)]].
      * by apply fmatches_read; [|left].
      * eapply (fmatches_local _ _ _ _ (Oracle false 0 0)); [simpl; rewrite Hi; done| |done].
        split; [done|]. simpl. by rewrite orb_true_r.
      * by apply fmatches_help.
    + destruct H as (-> & H & _). by apply fmatches_read; [|left].
    + destruct H as [-> ->]. eapply (fmatches_local _ _ _ _ (Oracle false 2 0)); [done|apply deqRet_rel|apply deqRet_private].
  - destruct Hf as [-> Hf]. destruct (Nat.eqb (MSQueue.head q) hd) eqn:E; injection Hs as <- <-; [|by apply fmatches_read; [|left]].
    apply Nat.eqb_eq in E. destruct (unlinkable hd m Hf E) as (x & l & Ei).
    eapply (fmatches_unlink _ _ _ _ hd m x l (Oracle false 1 0)); [done|done|done|simpl; rewrite Ei; done|by split|done].
  - destruct p' as [|x|x]; try done. destruct Hf as [-> Hf]. injection Hs as <- <-. by apply (fmatches_size _ _ _ (SfDqStep (FdCheck x) k') o0).
  - destruct p' as [|x|x]; try done. destruct Hf as [-> [Hx Ha]]. rewrite Hx in Hs. injection Hs as <- <-.
    destruct (FairQueue.cancelled (fget hp x)) eqn:E.
    + apply (fmatches_local _ _ _ (SfDeq false k') o0); [simpl; by rewrite E|done|done].
    + apply (fmatches_local _ _ _ (sfDeqRet hp k' (Some x)) o0); [simpl; by rewrite E|apply deqRet_rel|apply deqRet_private].
Qed.

(** Only the node that follows the head is that of the first waiter. *)
Lemma stale_first hd m x l :
  found c h t hd m -> MSQueue.head q <> hd -> holdsNode q m x -> FairQueue.items aq = x :: l -> False.
Proof.
  intros (i & Hi & Hm & Hih & _) Hne [Hx _] Ei. pose proof HI as [_ Hhd _ _ _ _ _ Hits _].
  simpl in Hits. rewrite Ei in Hits. apply Forall2_cons_inv_r in Hits as (n & l' & Hn & _ & Ed).
  pose proof (proj2 HW _ _ _ Hx Hn) as ->.
  assert (Hn' : c !! S h = Some n). { rewrite <- (Nat.add_0_r (S h)), <- lookup_drop, Ed. done. }
  pose proof (chain_index _ _ _ _ _ HI _ _ _ Hm Hn') as E. assert (i = h) by lia. subst. congruence.
Qed.

Lemma fpeek_matches p k g r q' :
  fqrel q c h t (FqPk p k) g -> peek_mstep hp p q = (r, q') ->
  fmatches q hp c h t aq (FqPk p k) g
    (match r with
     | Next p => FqPk p k
     | Return v => match afterPeek hp k v with inl r => FqIdle r | inr k => FqDeq (FqScan ScHead) k end
     | Panic e => FqPanic e
     end) q' hp.
Proof.
  intros Hf Hs. destruct p as [p|hd m|hd m|]; destruct g as [| | | |seen k'|p' k'|seen k'|p' k']; simpl in Hf; try done; simpl in Hs.
  - destruct Hf as [-> Hf]. destruct (scan_step p q) as [r1 q1] eqn:E. pose proof (scan_matches p seen r1 q1 Hf E) as H.
    destruct r1 as [p1|[[hd m]|]|e]; injection Hs as <- <-; [| | |done].
    + destruct H as [[-> H]|[(-> & Hi & H)|(tl & m & -> & Hl & ->)]].
      * by apply fmatches_read; [|left].
      * eapply (fmatches_local _ _ _ _ (Oracle false 0 0)); [simpl; rewrite Hi; done| |done].
        split; [done|]. simpl. by rewrite orb_true_r.
      * by apply fmatches_help.
    + destruct H as (-> & H & x & l & Ei & Hn).
      apply (fmatches_local _ _ _ (SfPkStep (PkCheck x) k') (Oracle false 1 0)); [simpl; by rewrite Ei|by split_and!|done].
    + destruct H as [-> ->]. eapply (fmatches_local _ _ _ _ (Oracle false 2 0)); [done|apply pkRet_rel|apply pkRet_private].
  - destruct p' as [|x|x|]; try done. destruct Hf as (-> & [Hx Ha] & Hf). rewrite Hx in Hs. injection Hs as <- <-.
    destruct (FairQueue.cancelled (fget hp x)) eqn:E.
    + apply (fmatches_local _ _ _ (SfPkStep (PkPop x) k') o0); [simpl; by rewrite E|by split_and!|done].
    + apply (fmatches_local _ _ _ (sfPkRet hp k' (Some x)) o0); [simpl; by rewrite E|apply pkRet_rel|apply pkRet_private].
  - destruct p' as [|x|x|]; try done. destruct Hf as (-> & Hn & Hf). destruct (Nat.eqb (MSQueue.head q) hd) eqn:E; injection Hs as <- <-.
    + apply Nat.eqb_eq in E. destruct (unlinkable hd m Hf E) as (y & l & Ei).
      destruct (unlink_first hd m y l Hf E Ei) as ([Hy _] & _). destruct Hn as [Hx _]. rewrite Hx in Hy. injection Hy as ->.
      eapply (fmatches_unlink _ _ _ (SfPkStep PkSize k') hd m y l o0); [done|done|done| |done|done].
      simpl. rewrite Ei. by rewrite bool_decide_eq_true_2.
    + apply Nat.eqb_neq in E. apply (fmatches_local _ _ _ (SfPk false k') o0); [|done|done].
      simpl. destruct (FairQueue.items aq) as [|y l] eqn:Ei; [done|]. rewrite bool_decide_eq_false_2; [done|].
      intros ->. by apply (stale_first hd m x l Hf E Hn).
  - destruct p' as [|x|x|]; try done. subst k. injection Hs as <- <-. by apply (fmatches_size _ _ _ (SfPk false k') o0).
Qed.

Lemma enqueue_waiters p r q' : Enqueue_step p q = (r, q') -> (forall x, p <> EAlloc x) -> forall n, waiter (nodeAt q' n) = waiter (nodeAt q n).
Proof.
  intros Hs Hp n. destruct p; simpl in Hs; repeat case_match; simplify_eq; try done;
    rewrite ?waiter_setNext, ?casTail_nodes; try done. by destruct (Hp w).
Qed.

(** The points of the two specifications at which an enqueue is. *)
Definition enqSpec (g0 : sframe) (g : sfframe) : Prop :=
  match g0, g with
  | SLink x, SfLink y => x = y
  | SSize, SfSize | SIdle None, SfIdle RNone => True
  | _, _ => False
  end.

Definition enqFrame (r : outcome enqpc unit) : fqframe :=
  match r with Next p => FqEnq p | Return _ => FqIdle RNone | Panic e => FqPanic e end.

Lemma fqrel_enq q1 c1 h1 t1 r g0 g :
  frel q1 c1 h1 t1 (match r with Next p => MEnq p | Return _ => MIdle None | Panic e => MPanic e end) g0 -> enqSpec g0 g ->
  fqrel q1 c1 h1 t1 (enqFrame r) g.
Proof.
  intros Hf Hg. destruct r as [p|u|e]; [|by destruct g0 as [[]| | | | | |], g as [[]| | | | | | |]|by destruct g0].
  destruct g0 as [[]|x| | | | |], g as [[]| |y| | | | |]; simpl in Hg; try done; [by destruct p|by subst].
Qed.

Lemma srun_enq o g0 g s g1 aq1 s1 :
  srun o g0 (listOf aq, s) = Some (g1, (aq1, s1)) -> enqSpec g0 g ->
  exists g' aq', enqSpec g1 g' /\ aq1 = listOf aq' /\ sfrun o0 g (aq, hp) = Some (g', (aq', hp)).
Proof.
  intros Hs Hg. destruct g0 as [[]|x| | | | |], g as [[]| |y| | | | |]; simpl in Hg, Hs; simplify_eq; try done.
  - by exists SfSize, (enqueue_link y aq).
  - by exists (SfIdle RNone), (enqueue_size aq).
Qed.

Lemma fenqueue_matches p g r q' :
  fqrel q c h t (FqEnq p) g -> (forall x, p <> EAlloc x) -> Enqueue_step p q = (r, q') ->
  fmatches q hp c h t aq (FqEnq p) g (enqFrame r) q' hp.
Proof.
  intros Hf Hp Hs. pose proof (enqueue_waiters p r q' Hs Hp) as Hw.
  assert (exists g0, frel q c h t (MEnq p) g0 /\ enqSpec g0 g) as (g0 & Hf0 & Hg).
  { destruct g as [| |x| | | | |]; try (by destruct p); [by exists (SLink x)|by exists SSize]. }
  destruct (enqueue_matches q emptyStore c h t (listOf aq) p g0 r q' HI Hf0 Hs)
    as (c' & h' & t' & g' & aq' & Hst & HI' & Hf' & HG & Ho & Hpr).
  assert (exists g2 aq2, enqSpec g' g2 /\ aq' = listOf aq2 /\
    ((g2 = g /\ aq2 = aq /\ hp = hp) \/ exists o, sfrun o g (aq, hp) = Some (g2, (aq2, hp)))) as (g2 & aq2 & Hg2 & -> & Hst2).
  { destruct Hst as [(-> & -> & _)|[o Hst]]; [exists g, aq; eauto 10|].
    destruct (srun_enq o g0 g emptyStore g' aq' emptyStore Hst Hg) as (g2 & aq2 & H1 & H2 & H3). eauto 10. }
  exists c', h', t', g2, aq2. split; [done|]. split; [done|]. split; [by eapply fqrel_enq|]. split; [done|]. split; [done|].
  split; [|by apply ownWaiters_same]. destruct r as [p1|u|e]; [exact Hpr|by right; left|by right; left].
Qed.

Lemma new_matches k g o x hp' n q' :
  fqrel q c h t (FqNew k) g -> newFairWaiter k o hp = (x, hp') -> alloc x q = (n, q') ->
  fmatches q hp c h t aq (FqNew k) g (FqEnq (ELoadTail n)) q' hp'.
Proof.
  intros Hf Hn Ha. destruct g; try done. simpl in Hf. subst k0. pose proof HI as [_ _ _ _ _ _ Hal _ _].
  assert (E : q' = (alloc x q).2) by (by rewrite Ha). injection Ha as <- _. injection Hn as <- <-.
  assert (En : forall n, waiter (nodeAt q' n) = if decide (n = allocn q) then Some (nextp hp) else waiter (nodeAt q n)).
  { intros m. subst q'. destruct (decide (m = allocn q)) as [->|Hm]; [by rewrite nodeAt_alloc_eq|by rewrite nodeAt_alloc_ne]. }
  exists c, h, t, (SfLink (nextp hp)), aq. split; [right; by exists o|]. subst q'.
  split; [by apply ginv_alloc|]. split.
  { split_and!; [intros Hc; specialize (Hal _ Hc); lia|simpl; lia|apply nodeAt_alloc_eq]. }
  split. { constructor; try done; [simpl; lia|]. intros m Hm. rewrite nodeAt_alloc_ne by lia. done. }
  split. { intros m Hm Hlt _. split; [done|]. apply nodeAt_alloc_ne. lia. }
  split; [by right; right|]. destruct HW as [H1 H2]. split.
  - intros m y. rewrite En. case_decide; [intros [= <-]; simpl; lia|]. intros Hy%H1. simpl. lia.
  - intros m m' y. rewrite !En. destruct (decide (m = allocn q)), (decide (m' = allocn q)); subst; try done.
    + intros [= <-] Hy%H1. lia.
    + intros Hy%H1 [= <-]. lia.
    + apply H2.
Qed.
End Matches.

(** ** Whole executions *)

(** An enqueue begins with a node of its own. *)
Definition hasNode (f : fqframe) : Prop := forall x, f <> FqEnq (EAlloc x).

Lemma hasNode_run o f sh f' sh' : fqrun o f sh = Some (f', sh') -> hasNode f'.
Proof.
  intros Hr x ->. destruct sh as [q hp]. destruct f as [r|k|p|p k|p k|e]; simpl in Hr; try done.
  - destruct p; simpl in Hr; repeat case_match; simplify_eq.
  - repeat case_match; by simplify_eq.
  - repeat case_match; by simplify_eq.
Qed.

Record FSim (c : (msq * fheap) * list fqframe) (a : (fairWaiterQueue * fheap) * list sfframe) : Prop := {
  fsim_heap : a.1.2 = c.1.2;
  fsim_chain : exists ch h t, ginv c.1.1 ch h t (listOf a.1.1) /\ Forall2 (fqrel c.1.1 ch h t) c.2 a.2;
  fsim_own : ownWaiters c.1.1 c.1.2;
  fsim_nodes : Forall hasNode c.2;
  fsim_private : forall i j f f' n, c.2 !! i = Some f -> c.2 !! j = Some f' ->
    fqprivate f = Some n -> fqprivate f' = Some n -> i = j
}.

Lemma FSim_initial n : FSim (fqinitial n) (sfinitial n).
Proof.
  constructor; simpl; [done| | | |].
  - exists [0%nat], 0%nat, 0%nat. split.
    + constructor; simpl; auto; try lia; [apply NoDup_singleton| |].
      * intros [|i] m; [|done]. intros [= <-]. done.
      * intros m ->%list_elem_of_singleton. lia.
    + by apply Forall2_replicate.
  - assert (E : forall n, waiter (nodeAt NewQueue n) = None).
    { intros [|m]; [done|]. unfold nodeAt. simpl. by rewrite lookup_singleton_ne. }
    split; intros m; [intros x|intros m' x]; by rewrite E.
  - apply Forall_replicate. by intros x.
  - intros i j f f' m [-> _]%lookup_replicate. done.
Qed.

Lemma fqprivate_fresh q ch h t f g n :
  fqrel q ch h t f g -> fqprivate f = Some n -> (n ∉ ch) /\ (n < allocn q)%nat.
Proof.
  destruct f as [r|k|p|p k|p k|e]; try done. destruct g as [| |x| | | | |]; try done; simpl; intros H Hn.
  - exact (private_fresh q ch h t (MEnq p) (SLink x) n H Hn).
  - exact (private_fresh q ch h t (MEnq p) SSize n H Hn).
Qed.

(** The other goroutines after a step of goroutine [i]. *)
Lemma FSim_others q hp fs aq gs ch h t i f f' g' q' ch' h' t' :
  FSim ((q, hp), fs) ((aq, hp), gs) -> Forall2 (fqrel q ch h t) fs gs -> fs !! i = Some f ->
  fqrel q' ch' h' t' f' g' -> grows q ch h t q' ch' h' t' ->
  (forall n, n ∉ ch -> (n < allocn q)%nat -> fqprivate f <> Some n -> (n ∉ ch') /\ nodeAt q' n = nodeAt q n) ->
  (fqprivate f' = fqprivate f \/ fqprivate f' = None \/ fqprivate f' = Some (allocn q)) ->
  Forall2 (fqrel q' ch' h' t') (<[i:=f']> fs) (<[i:=g']> gs) /\
  forall i1 i2 f1 f2 n, <[i:=f']> fs !! i1 = Some f1 -> <[i:=f']> fs !! i2 = Some f2 ->
    fqprivate f1 = Some n -> fqprivate f2 = Some n -> i1 = i2.
Proof.
  intros [_ _ _ _ HP] HF Hf Hfg' HG Hoth Hpr. simpl in HP.
  assert (Hne : forall j f2 n, j <> i -> fs !! j = Some f2 -> fqprivate f2 = Some n ->
            (n ∉ ch) /\ (n < allocn q)%nat /\ fqprivate f <> Some n).
  { intros j f2 n Hj Hf2 Hn. destruct (Forall2_lookup_l _ _ _ _ _ HF Hf2) as (g2 & _ & Hfg2).
    destruct (fqprivate_fresh _ _ _ _ _ _ _ Hfg2 Hn). split_and!; auto. intros Hp. apply Hj. by eapply HP. }
  split.
  - apply Forall2_same_length_lookup_2; [rewrite !length_insert; by eapply Forall2_length|].
    intros j f1 g1 [(<- & <- & Hlt)|[Hj H1]]%list_lookup_insert_Some H2.
    + rewrite list_lookup_insert_eq in H2; [by simplify_eq|]. by rewrite <- (Forall2_length _ _ _ HF).
    + rewrite list_lookup_insert_ne in H2 by done.
      apply (fqrel_grows _ _ _ _ _ _ _ _ HG); [by eapply Forall2_lookup_lr|]. intros n Hn Hc Ha.
      apply Hoth; auto. destruct (Hne j f1 n) as (_ & _ & ?); auto.
  - intros i1 i2 f1 f2 n H1 H2 Hn1 Hn2.
    assert (Hnew : forall j f2 n, j <> i -> fs !! j = Some f2 -> fqprivate f2 = Some n -> fqprivate f' <> Some n).
    { intros j f3 m Hj Hf2 Hn Hp. destruct (Hne j f3 m Hj Hf2 Hn) as (A1 & A2 & A3).
      destruct Hpr as [E|[E|E]]; rewrite E in Hp; [done|done|]; simplify_eq; lia. }
    apply list_lookup_insert_Some in H1 as [(<- & <- & _)|[Hi1 H1]];
      apply list_lookup_insert_Some in H2 as [(<- & <- & _)|[Hi2 H2]]; eauto; exfalso; by eapply Hnew.
Qed.

Lemma fqrun_matches q hp ch h t aq o f g f' q' hp' :
  ginv q ch h t (listOf aq) -> ownWaiters q hp -> hasNode f -> fqrel q ch h t f g -> fqrun o f (q, hp) = Some (f', (q', hp')) ->
  fmatches q hp ch h t aq f g f' q' hp'.
Proof.
  intros HI HW Hn Hf Hr. destruct f as [r|k|p|p k|p k|e]; simpl in Hr; try done.
  - destruct (newFairWaiter k o hp) as [x hp1] eqn:E1. destruct (alloc x q) as [n q1] eqn:E2. simplify_eq. by eapply new_matches.
  - destruct (Enqueue_step p q) as [r q1] eqn:E. simplify_eq.
    apply (fenqueue_matches q hp' ch h t aq HI HW p g r); [done|intros x ->; by apply (Hn x)|done].
  - destruct (dequeue_mstep hp p q) as [r q1] eqn:E. simplify_eq. by apply fdequeue_matches.
  - destruct (peek_mstep hp p q) as [r q1] eqn:E. simplify_eq. by apply fpeek_matches.
Qed.

Lemma FSim_run q hp fs aq gs i f f' o q' hp' :
  FSim ((q, hp), fs) ((aq, hp), gs) -> fs !! i = Some f -> fqrun o f (q, hp) = Some (f', (q', hp')) ->
  exists g g' aq', gs !! i = Some g /\
    ((g' = g /\ aq' = aq /\ hp' = hp) \/ exists o', sfrun o' g (aq, hp) = Some (g', (aq', hp'))) /\
    FSim ((q', hp'), <[i:=f']> fs) ((aq', hp'), <[i:=g']> gs).
Proof.
  intros HS Hf Hr. pose proof HS as [_ (ch & h & t & HI & HF) HW HN _]. simpl in *.
  destruct (Forall2_lookup_l _ _ _ _ _ HF Hf) as (g & Hg & Hfg).
  destruct (fqrun_matches q hp ch h t aq o f g f' q' hp' HI HW (Forall_lookup_1 _ _ _ _ HN Hf) Hfg Hr)
    as (ch' & h' & t' & g' & aq' & Hstep & HI' & Hfg' & HG & Hoth & Hpr & HW').
  destruct (FSim_others q hp fs aq gs ch h t i f f' g' q' ch' h' t') as [H1 H2]; auto.
  exists g, g', aq'. split; [done|]. split; [done|]. constructor; simpl; [done|by exists ch', h', t'|done| |exact H2].
  apply Forall_insert; [done|exact (hasNode_run o f (q, hp) f' (q', hp') Hr)].
Qed.

Lemma FSim_call q hp fs aq gs i f f' op now :
  FSim ((q, hp), fs) ((aq, hp), gs) -> fs !! i = Some f -> fqcall op now f = Some f' ->
  exists g g', gs !! i = Some g /\ sfcall op now g = Some g' /\ FSim ((q, hp), <[i:=f']> fs) ((aq, hp), <[i:=g']> gs).
Proof.
  intros HS Hf Hc. pose proof HS as [_ (ch & h & t & HI & HF) HW HN _]. simpl in *.
  destruct (Forall2_lookup_l _ _ _ _ _ HF Hf) as (g & Hg & Hfg). unfold fqcall in Hc. destruct f as [r| | | | |]; try done.
  destruct g as [r'| | | | | | |]; simpl in Hfg; try done. eexists _, _. split; [done|]. split; [done|].
  assert (fqprivate f' = None /\ hasNode f') as [Hn Hh] by (destruct op; by simplify_eq).
  destruct (FSim_others q hp fs aq gs ch h t i (FqIdle r) f'
    (match op with FqEnqueue k => SfNew k | FqDequeue => SfDeq false DCall | FqPeek => SfPk false PCall
     | FqDequeueReaders => SfDeq false DFirst end) q ch h t) as [H1 H2]; auto using grows_refl.
  { destruct op; by simplify_eq. }
  constructor; simpl; [done|by exists ch, h, t|done|by apply Forall_insert|exact H2].
Qed.

(** The diagram: one step of the code, one step of the specification or none. *)
Lemma FSim_step l c a c' :
  FSim c a -> exec fairqueue l c = Some c' ->
  exists a', (a' = a \/ exists l', exec fairqueueSpec l' a = Some a') /\ FSim c' a'.
Proof.
  destruct c as [[q s] fs], a as [[aq s'] gs]. intros HS Hl. pose proof (fsim_heap _ _ HS) as E. simpl in E. subst s'.
  destruct l as [i op now|i o|x]; simpl in Hl.
  - apply bind_Some in Hl as (f & Hf & Hl). apply bind_Some in Hl as (f' & Hc & Hl). simplify_eq.
    destruct (FSim_call _ _ _ _ _ _ _ _ _ _ HS Hf Hc) as (g & g' & Hg & Hsc & HS').
    eexists. split; [right; exists (Call i op now)|exact HS']. by apply (exec_call fairqueueSpec _ _ _ _ _ g).
  - apply bind_Some in Hl as (f & Hf & Hl). apply bind_Some in Hl as ([f' [q' s']] & Hr & Hl). simplify_eq/=.
    destruct (FSim_run _ _ _ _ _ _ _ _ _ _ _ HS Hf Hr) as (g & g' & aq' & Hg & Hst & HS').
    eexists. split; [|exact HS']. destruct Hst as [(-> & -> & ->)|[o' Ho]].
    + left. by rewrite list_insert_id.
    + right. exists (Run i o'). by apply (exec_run fairqueueSpec _ _ _ _ g).
  - simplify_eq. eexists. split; [right; exists (Cancel x); done|].
    destruct HS as [_ H1 [H2 H3] H4 H5]. by constructor.
Qed.

(** The results of the calls that are over. *)
Definition fqresultOf (f : fqframe) : option fqresult := match f with FqIdle r => Some r | _ => None end.
Definition sfresultOf (g : sfframe) : option fqresult := match g with SfIdle r => Some r | _ => None end.

(** With hindsight. *)
Lemma fairqueue_matches n q hp fs :
  reach fairqueue any_label (fqinitial n) ((q, hp), fs) ->
  exists aq gs, reach fairqueueSpec any_label (sfinitial n) ((aq, hp), gs) /\
    fsize aq = size q /\
    (forall i f, fs !! i = Some f -> (forall e, f <> FqPanic e) /\
       exists g, gs !! i = Some g /\ (forall r, fqresultOf f = Some r -> sfresultOf g = Some r)).
Proof.
  intros Hr.
  assert (exists a, reach fairqueueSpec any_label (sfinitial n) a /\ FSim ((q, hp), fs) a) as ([[aq hp'] gs] & Ha & HS).
  { induction Hr as [|l c c' _ (a & Ha & HS) _ Hl].
    - eexists. split; [apply reach_refl|apply FSim_initial].
    - destruct (FSim_step _ _ _ _ HS Hl) as (a' & Hs & HS'). exists a'. split; [|done].
      destruct Hs as [->|[l' Hl']]; [done|by eapply reach_step]. }
  destruct HS as [E (ch & h & t & HI & HF) _ _ _]. simpl in *. subst hp'.
  exists aq, gs. split; [done|]. split; [by rewrite (g_size _ _ _ _ _ HI)|].
  intros i f Hf. destruct (Forall2_lookup_l _ _ _ _ _ HF Hf) as (g & Hg & Hfg).
  destruct f as [r|k|p|p k|p k|e]; [|split; [done|by exists g]..|by destruct g].
  split; [done|]. exists g. split; [done|]. intros r' [= <-]. by destruct g; simplify_eq/=.
Qed.

Definition aresultOf (g : aframe) : option fqresult := match g with AIdle r => Some r | _ => None end.

(** C4: the fair queue refines the queue the fair lock is verified with.
    For every execution of the pointer code of enqueue, dequeue, peek and
    dequeueReaders by any number of goroutines, whatever waiters are
    cancelled meanwhile, there is an execution of the queue of FairQueue.v,
    made of the steps the lock uses, that ends with the same waiters, the same value of the size counter
    and the same results of all completed calls; and no goroutine ever
    dereferences nil. *)
Theorem fairqueue_refines n q hp fs :
  reach fairqueue any_label (fqinitial n) ((q, hp), fs) ->
  exists aq gs, reach fairQueue any_label (ainitial n) ((aq, hp), gs) /\
    fsize aq = size q /\
    (forall i f, fs !! i = Some f -> (forall e, f <> FqPanic e) /\
       exists g, gs !! i = Some g /\ (forall r, fqresultOf f = Some r -> aresultOf g = Some r)).
Proof.
  intros Hr. destruct (fairqueue_matches n q hp fs Hr) as (aq & gs & Ha & Eq & Hf).
  exists aq, (fqUnseen <$> gs). split; [|split; [done|]].
  - pose proof (hindsight_refines fairqueueSpec fairQueue fqUnseen fqNil (sfinitial n) (aq, hp) gs) as HR.
    unfold sfinitial in HR. simpl in HR. rewrite fmap_replicate in HR. apply HR; [by apply Forall_replicate|done].
  - intros i f Hi. destruct (Hf i f Hi) as (Hn & g & Hg & Hres). split; [done|]. exists (fqUnseen g).
    rewrite list_lookup_fmap, Hg. split; [done|]. intros r Hfr. apply Hres in Hfr. by destruct g.
Qed.

(** Two readers enqueue themselves, the first delayed before it moves the
    tail; a third goroutine takes both. *)
Definition readersTrace : list (label fqop) :=
  Call 0 (FqEnqueue fairWaiterKindReader) 0 :: runs 0 5 ++ Call 1 (FqEnqueue fairWaiterKindReader) 0 :: runs 1 11 ++
  runs 0 2 ++ Call 2 FqDequeueReaders 0 :: runs 2 23.

Lemma fairqueue_refines_witness :
  let c := after fairqueue readersTrace (fqinitial 3) in
  c.2 !! 2%nat = Some (FqIdle (RReaders [0%nat; 1%nat])) /\
  exists aq gs, reach fairQueue any_label (ainitial 3) ((aq, c.1.2), gs) /\
    fsize aq = size c.1.1 /\
    (forall i f, c.2 !! i = Some f -> (forall e, f <> FqPanic e) /\
       exists g, gs !! i = Some g /\ (forall r, fqresultOf f = Some r -> aresultOf g = Some r)).
Proof.
  split; [by_eval|]. apply fairqueue_refines. apply (execs_reach _ _ readersTrace); [apply Forall_any|by_eval].
Defined.
