(* ===== verification/FairRWLock.v ===== *)
(** * FairRWLock (internal/primitives/fair_rwlock.go)

    A readers-writer lock with one FIFO queue for both kinds, on the state
    word of RWLock.v.  A goroutine that finds the lock taken or the queue not
    empty enqueues a waiter and then loops: take the lock if the waiter has
    been signaled, or if it is first in the queue, else park. *)

From Stdlib Require Import ZArith Lia.
From stdpp Require Import base list gmap strings.
From S2P Require Import Prelude FairQueue RWLock.

#[local] Open Scope Z_scope.

Record FairRWLock := mkFair {
  state : Z;
  queue : fairWaiterQueue;
  readerAcquires : Z;
  writerAcquires : Z;
  readerWaits : Z;
  writerWaits : Z;
  totalWaitTime : Z;
  currentReaders : Z;
  writerHeld : Z;
  createdAt : Z
}.

Definition NewFairRWLock (now : Z) : FairRWLock := mkFair 0 newFairWaiterQueue 0 0 0 0 0 0 0 now.

Definition set_state v l := mkFair v (queue l) (readerAcquires l) (writerAcquires l) (readerWaits l) (writerWaits l) (totalWaitTime l) (currentReaders l) (writerHeld l) (createdAt l).
Definition set_queue v l := mkFair (state l) v (readerAcquires l) (writerAcquires l) (readerWaits l) (writerWaits l) (totalWaitTime l) (currentReaders l) (writerHeld l) (createdAt l).
Definition set_readerAcquires v l := mkFair (state l) (queue l) v (writerAcquires l) (readerWaits l) (writerWaits l) (totalWaitTime l) (currentReaders l) (writerHeld l) (createdAt l).
Definition set_writerAcquires v l := mkFair (state l) (queue l) (readerAcquires l) v (readerWaits l) (writerWaits l) (totalWaitTime l) (currentReaders l) (writerHeld l) (createdAt l).
Definition set_readerWaits v l := mkFair (state l) (queue l) (readerAcquires l) (writerAcquires l) v (writerWaits l) (totalWaitTime l) (currentReaders l) (writerHeld l) (createdAt l).
Definition set_writerWaits v l := mkFair (state l) (queue l) (readerAcquires l) (writerAcquires l) (readerWaits l) v (totalWaitTime l) (currentReaders l) (writerHeld l) (createdAt l).
Definition set_totalWaitTime v l := mkFair (state l) (queue l) (readerAcquires l) (writerAcquires l) (readerWaits l) (writerWaits l) v (currentReaders l) (writerHeld l) (createdAt l).
Definition set_currentReaders v l := mkFair (state l) (queue l) (readerAcquires l) (writerAcquires l) (readerWaits l) (writerWaits l) (totalWaitTime l) v (writerHeld l) (createdAt l).
Definition set_writerHeld v l := mkFair (state l) (queue l) (readerAcquires l) (writerAcquires l) (readerWaits l) (writerWaits l) (totalWaitTime l) (currentReaders l) v (createdAt l).

(** The shared state: the lock, its waiters, the contexts that are done. *)
Record fworld := FWorld { lk : FairRWLock; fh : fheap; fctxs : gset nat }.

Definition upd (f : FairRWLock -> FairRWLock) (w : fworld) : fworld := FWorld (f (lk w)) (fh w) (fctxs w).
Definition withHeap (h : fheap) (w : fworld) : fworld := FWorld (lk w) h (fctxs w).
Definition ctxDone (c : nat) (w : fworld) : bool := bool_decide (c ∈ fctxs w).
Definition cancelCtx (c : nat) (w : fworld) : fworld := FWorld (lk w) (fh w) ({[c]} ∪ fctxs w).

(** ** RLock and RLockContext

    [RLoad] the load of [state] without a waiter, [REmpty st] the test
    [queue.isEmpty()], [RCas st] the CAS, [RCtx] the test of the context
    (RLockContext only), [RNew] ... [RWaits] creating and enqueuing the
    waiter, [RSignaled x] the test [waiter.signaled] at the head of the loop,
    [RSLoad]/[RSCas] [tryAcquireSignaledReader], [RPeek]/[RQLoad]/[RQCas]/
    [RQCurrent] [tryAcquireQueuedReader], [RQCancel] the store to
    [cancelled], [RCurrent]/[RAcquires] the counters, [RWait] the blocking
    receive, [RTotal] the wait time, [RGiveUp] the store of a cancelled
    wait. *)
Inductive rpc :=
| RLoad | REmpty (st : Z) | RCas (st : Z) | RCtx | RNew | RLink (x : nat) | RSize (x : nat)
| RWaits (x : nat) | RSignaled (x : nat) | RSLoad (x : nat) | RSCas (x : nat) (st : Z)
| RPeek (x : nat) (p : pkpc) | RQLoad (x : nat) | RQCas (x : nat) (st : Z) | RQCurrent (x : nat)
| RQCancel (x : nat) | RCurrent | RAcquires | RWait (x : nat) | RTotal (x : nat) | RGiveUp (x : nat).

Definition tooMany {P A} : outcome P A := Panic "fairrwlock: too many readers".

(** The attempts of a goroutine with a waiter, on the program points of
    [RLock]: where [tryAcquireSignaledReader] returns false the loop goes
    round, where [tryAcquireQueuedReader] does, the goroutine parks. *)
Definition tryAcquireSignaledReader (x : nat) (loaded : option Z) (w : fworld) : outcome rpc bool * fworld :=
  let l := lk w in
  match loaded with
  | None =>
      if writerActive (state l) then (Next (RSignaled x), w)
      else if rwLockMaxReaders <=? state l then (tooMany, w) else (Next (RSCas x (state l)), w)
  | Some st =>
      if state l =? st then (Next RCurrent, upd (set_state (add32 st 1)) w) else (Next (RSLoad x), w)
  end.

Inductive tqpc := TqPeek (p : pkpc) | TqLoad | TqCas (st : Z) | TqCurrent.

Definition tryAcquireQueuedReader (x : nat) (p : tqpc) (w : fworld) : outcome rpc bool * fworld :=
  let l := lk w in
  match p with
  | TqPeek p =>
      let '(r, q) := peek_step (fh w) p (queue l) in
      (match r with
       | Next p => Next (RPeek x p)
       | Return h => Next (if bool_decide (h = Some x) then RQLoad x else RWait x)
       | Panic e => Panic e
       end, upd (set_queue q) w)
  | TqLoad =>
      if writerActive (state l) then (Next (RWait x), w)
      else if rwLockMaxReaders <=? state l then (tooMany, w) else (Next (RQCas x (state l)), w)
  | TqCas st =>
      if state l =? st then (Next (RQCurrent x), upd (set_state (add32 st 1)) w) else (Next (RQLoad x), w)
  | TqCurrent => (Next (RQCancel x), upd (set_currentReaders (add32 (currentReaders l) 1)) w)
  end.

#[global] Arguments tryAcquireSignaledReader x loaded w /.
#[global] Arguments tryAcquireQueuedReader x p w /.

Definition RLock_step (start : Z) (o : oracle) (p : rpc) (w : fworld)
    : option (outcome rpc bool * fworld) :=
  let l := lk w in
  match p with
  | RLoad => Some (Next (if writerActive (state l) then RNew else REmpty (state l)), w)
  | REmpty st =>
      if negb (isEmpty (queue l)) then Some (Next RNew, w)
      else if rwLockMaxReaders <=? st then Some (tooMany, w) else Some (Next (RCas st), w)
  | RCas st =>
      if state l =? st then Some (Next RCurrent, upd (set_state (add32 st 1)) w) else Some (Next RLoad, w)
  | RNew =>
      let '(x, h) := newFairWaiter fairWaiterKindReader o (fh w) in Some (Next (RLink x), withHeap h w)
  | RLink x => Some (Next (RSize x), upd (set_queue (enqueue_link x (queue l))) w)
  | RSize x => Some (Next (RWaits x), upd (set_queue (enqueue_size (queue l))) w)
  | RWaits x => Some (Next (RSignaled x), upd (set_readerWaits (add64 (readerWaits l) 1)) w)
  | RSignaled x => Some (Next (if signaled (fget (fh w) x) then RSLoad x else RPeek x PkLook), w)
  | RSLoad x => Some (tryAcquireSignaledReader x None w)
  | RSCas x st => Some (tryAcquireSignaledReader x (Some st) w)
  | RPeek x p => Some (tryAcquireQueuedReader x (TqPeek p) w)
  | RQLoad x => Some (tryAcquireQueuedReader x TqLoad w)
  | RQCas x st => Some (tryAcquireQueuedReader x (TqCas st) w)
  | RQCurrent x => Some (tryAcquireQueuedReader x TqCurrent w)
  | RQCancel x => Some (Next RAcquires, withHeap (cancelFair x (fh w)) w)
  | RCurrent => Some (Next RAcquires, upd (set_currentReaders (add32 (currentReaders l) 1)) w)
  | RAcquires => Some (Return true, upd (set_readerAcquires (add64 (readerAcquires l) 1)) w)
  | RWait x => h ← wait x (fh w); Some (Next (RTotal x), withHeap h w)
  | RTotal x =>
      Some (Next (RSignaled x), upd (set_totalWaitTime (add64 (totalWaitTime l) (clk o - start))) w)
  | RCtx | RGiveUp _ => None
  end.

(** With a context, too many readers in the first test is no panic but
    another turn of the loop. *)
Definition RLockContext_step (c : nat) (start : Z) (o : oracle) (p : rpc) (w : fworld)
    : option (outcome rpc bool * fworld) :=
  let l := lk w in
  match p with
  | RLoad => Some (Next (if writerActive (state l) then RCtx else REmpty (state l)), w)
  | REmpty st =>
      if negb (isEmpty (queue l)) then Some (Next RCtx, w)
      else Some (Next (if st <? rwLockMaxReaders then RCas st else RLoad), w)
  | RCtx => if ctxDone c w then Some (Return false, w) else Some (Next RNew, w)
  | RWait x =>
      '(ok, h) ← waitContext o (ctxDone c w) x (fh w);
      Some (Next (if ok : bool then RTotal x else RGiveUp x), withHeap h w)
  | RGiveUp x => Some (Return false, withHeap (cancelFair x (fh w)) w)
  | _ => RLock_step start o p w
  end.

(** ** Lock and LockContext *)
Inductive wpc :=
| WEmpty | WCas | WCtx | WNew | WLink (x : nat) | WSize (x : nat) | WWaits (x : nat)
| WSignaled (x : nat) | WSCas (x : nat) | WPeek (x : nat) (p : pkpc) | WQCas (x : nat) | WQHeld (x : nat)
| WQCancel (x : nat) | WHeld | WAcquires | WWait (x : nat) | WTotal (x : nat) | WGiveUp (x : nat).

(** The attempts of a goroutine with a waiter; the store to [writerHeld] that
    ends [tryAcquireSignaledWriter] is the point [WHeld] it shares with the
    acquisition of a free lock. *)
Definition tryAcquireSignaledWriter (x : nat) (w : fworld) : outcome wpc bool * fworld :=
  if state (lk w) =? 0 then (Next WHeld, upd (set_state rwLockWriterBit) w) else (Next (WSignaled x), w).

Inductive twqpc := TwPeek (p : pkpc) | TwqCas | TwqHeld.

Definition tryAcquireQueuedWriter (x : nat) (p : twqpc) (w : fworld) : outcome wpc bool * fworld :=
  let l := lk w in
  match p with
  | TwPeek p =>
      let '(r, q) := peek_step (fh w) p (queue l) in
      (match r with
       | Next p => Next (WPeek x p)
       | Return h => Next (if bool_decide (h = Some x) then WQCas x else WWait x)
       | Panic e => Panic e
       end, upd (set_queue q) w)
  | TwqCas =>
      if state l =? 0 then (Next (WQHeld x), upd (set_state rwLockWriterBit) w) else (Next (WWait x), w)
  | TwqHeld => (Next (WQCancel x), upd (set_writerHeld 1) w)
  end.

#[global] Arguments tryAcquireSignaledWriter x w /.
#[global] Arguments tryAcquireQueuedWriter x p w /.

Definition Lock_step (start : Z) (o : oracle) (p : wpc) (w : fworld)
    : option (outcome wpc bool * fworld) :=
  let l := lk w in
  match p with
  | WEmpty => Some (Next (if isEmpty (queue l) then WCas else WNew), w)
  | WCas =>
      if state l =? 0 then Some (Next WHeld, upd (set_state rwLockWriterBit) w) else Some (Next WNew, w)
  | WNew =>
      let '(x, h) := newFairWaiter fairWaiterKindWriter o (fh w) in Some (Next (WLink x), withHeap h w)
  | WLink x => Some (Next (WSize x), upd (set_queue (enqueue_link x (queue l))) w)
  | WSize x => Some (Next (WWaits x), upd (set_queue (enqueue_size (queue l))) w)
  | WWaits x => Some (Next (WSignaled x), upd (set_writerWaits (add64 (writerWaits l) 1)) w)
  | WSignaled x => Some (Next (if signaled (fget (fh w) x) then WSCas x else WPeek x PkLook), w)
  | WSCas x => Some (tryAcquireSignaledWriter x w)
  | WPeek x p => Some (tryAcquireQueuedWriter x (TwPeek p) w)
  | WQCas x => Some (tryAcquireQueuedWriter x TwqCas w)
  | WQHeld x => Some (tryAcquireQueuedWriter x TwqHeld w)
  | WQCancel x => Some (Next WAcquires, withHeap (cancelFair x (fh w)) w)
  | WHeld => Some (Next WAcquires, upd (set_writerHeld 1) w)
  | WAcquires => Some (Return true, upd (set_writerAcquires (add64 (writerAcquires l) 1)) w)
  | WWait x => h ← wait x (fh w); Some (Next (WTotal x), withHeap h w)
  | WTotal x =>
      Some (Next (WSignaled x), upd (set_totalWaitTime (add64 (totalWaitTime l) (clk o - start))) w)
  | WCtx | WGiveUp _ => None
  end.

Definition LockContext_step (c : nat) (start : Z) (o : oracle) (p : wpc) (w : fworld)
    : option (outcome wpc bool * fworld) :=
  let l := lk w in
  match p with
  | WEmpty => Some (Next (if isEmpty (queue l) then WCas else WCtx), w)
  | WCas =>
      if state l =? 0 then Some (Next WHeld, upd (set_state rwLockWriterBit) w) else Some (Next WCtx, w)
  | WCtx => if ctxDone c w then Some (Return false, w) else Some (Next WNew, w)
  | WWait x =>
      '(ok, h) ← waitContext o (ctxDone c w) x (fh w);
      Some (Next (if ok : bool then WTotal x else WGiveUp x), withHeap h w)
  | WGiveUp x => Some (Return false, withHeap (cancelFair x (fh w)) w)
  | _ => Lock_step start o p w
  end.

(** ** wakeNextWaiters

    [KPeek] the first [peek], [KReaders] inside [dequeueReaders], [KDeq]
    inside [dequeue], [KStore xs]/[KSend xs] the two steps of [signal] on the
    first of the waiters still to signal. *)
Inductive wakepc :=
| KPeek (p : pkpc) | KReaders (d : drpc) | KDeq (d : fdpc) | KStore (xs : list nat) | KSend (xs : list nat).

(** The [range] loop over the waiters still to signal. *)
Definition signalAll (xs : list nat) : outcome wakepc unit :=
  match xs with [] => Return tt | _ => Next (KStore xs) end.

Definition wakeNextWaiters_step (p : wakepc) (w : fworld) : outcome wakepc unit * fworld :=
  let l := lk w in
  match p with
  | KPeek p =>
      let '(r, q) := peek_step (fh w) p (queue l) in
      (match r with
       | Next p => Next (KPeek p)
       | Return None => Return tt
       | Return (Some x) => Next (if isReader (fh w) x then KReaders (DrFirst FdPop) else KDeq FdPop)
       | Panic e => Panic e
       end, upd (set_queue q) w)
  | KReaders d =>
      let '(r, q) := dequeueReaders_step (fh w) d (queue l) in
      (match r with
       | Next d => Next (KReaders d)
       | Return xs => signalAll xs
       | Panic e => Panic e
       end, upd (set_queue q) w)
  | KDeq d =>
      let '(r, q) := dequeue_step (fh w) d (queue l) in
      (match r with
       | Next d => Next (KDeq d)
       | Return None => Return tt
       | Return (Some x) => signalAll [x]
       | Panic e => Panic e
       end, upd (set_queue q) w)
  | KStore (x :: xs) => (Next (KSend (x :: xs)), withHeap (signal_store x (fh w)) w)
  | KSend (x :: xs) => (signalAll xs, withHeap (signal_send x (fh w)) w)
  | KStore [] | KSend [] => (Return tt, w)
  end.

(** ** RUnlock and Unlock *)
Inductive rupc := QLoad | QCas (st : Z) | QCurrent (new : Z) | QWake (k : wakepc).

Definition liftWake {P} (f : wakepc -> P) (r : outcome wakepc unit) : outcome P unit :=
  match r with Next k => Next (f k) | Return u => Return u | Panic e => Panic e end.

Definition RUnlock_step (p : rupc) (w : fworld) : outcome rupc unit * fworld :=
  let l := lk w in
  match p with
  | QLoad =>
      if Z.land (state l) rwLockMaxReaders =? 0
      then (Panic "fairrwlock: RUnlock of unlocked FairRWLock", w) else (Next (QCas (state l)), w)
  | QCas st =>
      if state l =? st then (Next (QCurrent (add32 st (-1))), upd (set_state (add32 st (-1))) w)
      else (Next QLoad, w)
  | QCurrent new =>
      (if Z.land new rwLockMaxReaders =? 0 then Next (QWake (KPeek PkLook)) else Return tt,
       upd (set_currentReaders (add32 (currentReaders l) (-1))) w)
  | QWake k => let '(r, w) := wakeNextWaiters_step k w in (liftWake QWake r, w)
  end.

Inductive upc := ULoad | UCas | UHeld | UWake (k : wakepc).

Definition Unlock_step (p : upc) (w : fworld) : outcome upc unit * fworld :=
  let l := lk w in
  match p with
  | ULoad =>
      if negb (state l =? rwLockWriterBit)
      then (Panic "fairrwlock: Unlock of unlocked FairRWLock", w) else (Next UCas, w)
  | UCas =>
      if state l =? rwLockWriterBit then (Next UHeld, upd (set_state 0) w)
      else (Panic "fairrwlock: inconsistent state in Unlock", w)
  | UHeld => (Next (UWake (KPeek PkLook)), upd (set_writerHeld 0) w)
  | UWake k => let '(r, w) := wakeNextWaiters_step k w in (liftWake UWake r, w)
  end.

(** ** TryRLock and TryLock *)
Inductive tryrpc := TrLoad | TrEmpty (st : Z) | TrCas (st : Z) | TrCurrent | TrAcquires.

Definition TryRLock_step (p : tryrpc) (w : fworld) : outcome tryrpc bool * fworld :=
  let l := lk w in
  match p with
  | TrLoad => if writerActive (state l) then (Return false, w) else (Next (TrEmpty (state l)), w)
  | TrEmpty st =>
      if negb (isEmpty (queue l)) then (Return false, w)
      else if rwLockMaxReaders <=? st then (Return false, w) else (Next (TrCas st), w)
  | TrCas st =>
      if state l =? st then (Next TrCurrent, upd (set_state (add32 st 1)) w) else (Next TrLoad, w)
  | TrCurrent => (Next TrAcquires, upd (set_currentReaders (add32 (currentReaders l) 1)) w)
  | TrAcquires => (Return true, upd (set_readerAcquires (add64 (readerAcquires l) 1)) w)
  end.

Inductive trywpc := TwEmpty | TwCas | TwHeld | TwAcquires.

Definition TryLock_step (p : trywpc) (w : fworld) : outcome trywpc bool * fworld :=
  let l := lk w in
  match p with
  | TwEmpty => if negb (isEmpty (queue l)) then (Return false, w) else (Next TwCas, w)
  | TwCas => if state l =? 0 then (Next TwHeld, upd (set_state rwLockWriterBit) w) else (Return false, w)
  | TwHeld => (Next TwAcquires, upd (set_writerHeld 1) w)
  | TwAcquires => (Return true, upd (set_writerAcquires (add64 (writerAcquires l) 1)) w)
  end.

Record FairRWLockStats := mkFairStats {
  Policy : string; ReaderAcquires : Z; WriterAcquires : Z; ReaderWaits : Z; WriterWaits : Z;
  TotalWaitTimeNs : Z; CurrentReaders : Z; WriterHeld : bool; WaitersQueued : Z; Age : Z
}.

Definition GetStats (now : Z) (l : FairRWLock) : FairRWLockStats :=
  mkFairStats "fair-fifo" (readerAcquires l) (writerAcquires l) (readerWaits l) (writerWaits l)
    (totalWaitTime l) (currentReaders l) (writerHeld l =? 1) (sizeValue (queue l)) (now - createdAt l).

(** ** Goroutines using one lock, as in RWLock.v *)
Inductive frame :=
| FIdle (r : option bool)
| FRLock (p : rpc) | FRLockContext (c : nat) (p : rpc) | FRUnlock (p : rupc)
| FLock (p : wpc) | FLockContext (c : nat) (p : wpc) | FUnlock (p : upc)
| FTryRLock (p : tryrpc) | FTryLock (p : trywpc)
| FPanic (msg : string).

Record thread := mkThread { frm : frame; startTime : Z; rheld : Z; wheld : Z }.
Definition idle : thread := mkThread (FIdle None) 0 0 0.

Definition fcall (op : rwop) (now : Z) (th : thread) : option thread :=
  let go f := Some (mkThread f now (rheld th) (wheld th)) in
  match frm th with
  | FIdle _ =>
      match op with
      | OpRLock => go (FRLock RLoad)
      | OpRLockContext c => go (FRLockContext c RLoad)
      | OpRUnlock =>
          if 0 <? rheld th then Some (mkThread (FRUnlock QLoad) now (rheld th - 1) (wheld th)) else None
      | OpLock => go (FLock WEmpty)
      | OpLockContext c => go (FLockContext c WEmpty)
      | OpUnlock =>
          if 0 <? wheld th then Some (mkThread (FUnlock ULoad) now (rheld th) (wheld th - 1)) else None
      | OpTryRLock => go (FTryRLock TrLoad)
      | OpTryLock => go (FTryLock TwEmpty)
      end
  | _ => None
  end.

Definition acquired {P} (k : P -> frame) (dr dw : Z) (th : thread) (r : outcome P bool) : thread :=
  let f v rh wh := mkThread v (startTime th) rh wh in
  match r with
  | Next p => f (k p) (rheld th) (wheld th)
  | Return true => f (FIdle (Some true)) (rheld th + dr) (wheld th + dw)
  | Return false => f (FIdle (Some false)) (rheld th) (wheld th)
  | Panic e => f (FPanic e) (rheld th) (wheld th)
  end.

Definition finished {P} (k : P -> frame) (th : thread) (r : outcome P unit) : thread :=
  mkThread (match r with Next p => k p | Return _ => FIdle None | Panic e => FPanic e end)
    (startTime th) (rheld th) (wheld th).

Definition frun (o : oracle) (th : thread) (w : fworld) : option (thread * fworld) :=
  let st := startTime th in
  match frm th with
  | FIdle _ | FPanic _ => None
  | FRLock p => '(r, w) ← RLock_step st o p w; Some (acquired FRLock 1 0 th r, w)
  | FRLockContext c p =>
      '(r, w) ← RLockContext_step c st o p w; Some (acquired (FRLockContext c) 1 0 th r, w)
  | FRUnlock p => let '(r, w) := RUnlock_step p w in Some (finished FRUnlock th r, w)
  | FLock p => '(r, w) ← Lock_step st o p w; Some (acquired FLock 0 1 th r, w)
  | FLockContext c p =>
      '(r, w) ← LockContext_step c st o p w; Some (acquired (FLockContext c) 0 1 th r, w)
  | FUnlock p => let '(r, w) := Unlock_step p w in Some (finished FUnlock th r, w)
  | FTryRLock p => let '(r, w) := TryRLock_step p w in Some (acquired FTryRLock 1 0 th r, w)
  | FTryLock p => let '(r, w) := TryLock_step p w in Some (acquired FTryLock 0 1 th r, w)
  end.

Definition fairrwlock : machine fworld thread rwop := Machine fcall frun cancelCtx.

Definition initial (k : nat) (now : Z) : config (Sh:=fworld) (Th:=thread) :=
  (FWorld (NewFairRWLock now) emptyHeap ∅, replicate k idle).

(** * Invariants *)

Definition rHolds (p : rpc) : Z :=
  match p with RQCurrent _ | RQCancel _ | RCurrent | RAcquires => 1 | _ => 0 end.
Definition wHolds (p : wpc) : Z :=
  match p with WQHeld _ | WQCancel _ | WHeld | WAcquires => 1 | _ => 0 end.

Definition rholds (th : thread) : Z :=
  rheld th +
  match frm th with
  | FRLock p | FRLockContext _ p => rHolds p
  | FTryRLock (TrCurrent | TrAcquires) | FRUnlock (QLoad | QCas _) => 1
  | _ => 0
  end.

Definition wholds (th : thread) : Z :=
  wheld th +
  match frm th with
  | FLock p | FLockContext _ p => wHolds p
  | FTryLock (TwHeld | TwAcquires) | FUnlock (ULoad | UCas) => 1
  | _ => 0
  end.

(** What a goroutine has added to [currentReaders]. *)
Definition counted (th : thread) : Z :=
  rheld th +
  match frm th with
  | FRLock (RQCancel _ | RAcquires) | FRLockContext _ (RQCancel _ | RAcquires)
  | FTryRLock TrAcquires | FRUnlock (QLoad | QCas _ | QCurrent _) => 1
  | _ => 0
  end.

Definition rOk (p : rpc) : Prop :=
  match p with
  | REmpty st => readable st
  | RCas st | RSCas _ st | RQCas _ st => 0 <= st < rwLockMaxReaders
  | _ => True
  end.

Definition wellFormed (th : thread) : Prop :=
  (0 <= rheld th /\ 0 <= wheld th) /\
  match frm th with
  | FRLock p => rOk p /\ match p with RCtx | RGiveUp _ => False | _ => True end
  | FRLockContext _ p => rOk p
  | FLock (WCtx | WGiveUp _) => False
  | FRUnlock (QCas st) => 0 < st <= rwLockMaxReaders
  | FTryRLock (TrEmpty st) => readable st
  | FTryRLock (TrCas st) => 0 <= st < rwLockMaxReaders
  | FPanic e => e = "fairrwlock: too many readers"
  | _ => True
  end.

Record Inv (c : fworld * list thread) : Prop := {
  inv_state : stateOk (state (lk c.1)) (sumf rholds c.2) (sumf wholds c.2);
  inv_current : currentReaders (lk c.1) = wrap32 (sumf counted c.2);
  inv_threads : Forall wellFormed c.2
}.

Lemma fair_rholds_nonneg th : wellFormed th -> 0 <= rholds th.
Proof.
  intros [[H _] _]. unfold rholds, rHolds.
  destruct (frm th) as [|p|c p|p|p|c p|p|p|p|]; try destruct p; simpl; lia.
Qed.

Lemma fair_wholds_nonneg th : wellFormed th -> 0 <= wholds th.
Proof.
  intros [[_ H] _]. unfold wholds, wHolds.
  destruct (frm th) as [|p|c p|p|p|c p|p|p|p|]; try destruct p; simpl; lia.
Qed.

Lemma fair_Inv_initial k now : Inv (initial k now).
Proof.
  constructor; simpl.
  - left. rewrite !sumf_replicate by done. unfold readable, rwLockMaxReaders. lia.
  - by rewrite sumf_replicate.
  - apply Forall_replicate. split; simpl; [lia|done].
Qed.

Lemma fair_Inv_call w ths t th th' op now :
  Inv (w, ths) -> ths !! t = Some th -> fcall op now th = Some th' -> Inv (w, <[t:=th']> ths).
Proof.
  intros [Hs Hn Ht] Hl Hc. simpl in *.
  assert (rholds th' = rholds th /\ wholds th' = wholds th /\ counted th' = counted th /\ wellFormed th')
    as (E1 & E2 & E3 & E4).
  { pose proof (Forall_lookup_1 _ _ _ _ Ht Hl) as [Hw _].
    unfold fcall, rholds, wholds, counted, wellFormed in *. destruct th as [f st rh wh]; simpl in *.
    destruct f; try discriminate. destruct op; simplify_eq; simpl;
      try (repeat split; simpl; try lia; fail);
      destruct (0 <? _) eqn:E; simplify_eq; simpl; bool_facts; repeat split; simpl; lia. }
  constructor; simpl; auto.
  - rewrite !(sumf_insert _ _ _ _ _ Hl), E1, E2. by rewrite !Z.sub_add.
  - rewrite (sumf_insert _ _ _ _ _ Hl), E3. by rewrite Z.sub_add.
  - by apply Forall_insert.
Qed.

Lemma peek_no_panic h p q r q' e : peek_step h p q = (r, q') -> r <> Panic e.
Proof.
  destruct p; simpl; intros H; simplify_eq; try done; try (case_match; simplify_eq; done).
  destruct (items q); simplify_eq; try done. case_match; by simplify_eq.
Qed.

Lemma dequeue_no_panic h p q r q' e : dequeue_step h p q = (r, q') -> r <> Panic e.
Proof. destruct p; simpl; intros H; simplify_eq; try done; case_match; by simplify_eq. Qed.

Lemma dequeueReaders_no_panic h p q r q' e : dequeueReaders_step h p q = (r, q') -> r <> Panic e.
Proof.
  destruct p as [d|rs p|rs d]; simpl; intros H.
  all: match type of H with (let '(_, _) := ?x in _) = _ => destruct x as [r1 q1] eqn:E end.
  all: first [pose proof (fun e => dequeue_no_panic _ _ _ _ _ e E) as Hn
             |pose proof (fun e => peek_no_panic _ _ _ _ _ e E) as Hn].
  all: destruct r1 as [|[x|]|m]; simplify_eq; try done; try (by destruct (Hn m));
    destruct (negb _); by simplify_eq.
Qed.

(** Waking touches neither the state word nor the counters, and never
    panics. *)
Lemma wakeNextWaiters_state k w r w' :
  wakeNextWaiters_step k w = (r, w') ->
  state (lk w') = state (lk w) /\ currentReaders (lk w') = currentReaders (lk w) /\
  forall e, r <> Panic e.
Proof.
  destruct k as [p|d|d|[|x xs]|[|x xs]]; simpl; intros H.
  - destruct (peek_step _ _ _) as [r1 q] eqn:E. pose proof (fun e => peek_no_panic _ _ _ _ _ e E) as Hn.
    destruct r1 as [|[|]|m]; simplify_eq; simpl; repeat split; try done; by destruct (Hn m).
  - destruct (dequeueReaders_step _ _ _) as [r1 q] eqn:E.
    pose proof (fun e => dequeueReaders_no_panic _ _ _ _ _ e E) as Hn.
    destruct r1 as [|[|]|m]; simplify_eq; simpl; repeat split; try done; by destruct (Hn m).
  - destruct (dequeue_step _ _ _) as [r1 q] eqn:E. pose proof (fun e => dequeue_no_panic _ _ _ _ _ e E) as Hn.
    destruct r1 as [|[|]|m]; simplify_eq; simpl; repeat split; try done; by destruct (Hn m).
  - by simplify_eq.
  - by simplify_eq.
  - by simplify_eq.
  - simplify_eq. simpl. repeat split. by destruct xs.
Qed.

(** Every step changes the state word as it changes what is held. *)
Lemma fair_run_state o th w th' w' R W C :
  wellFormed th -> stateOk (state (lk w)) R W -> rholds th <= R -> wholds th <= W ->
  currentReaders (lk w) = wrap32 C ->
  frun o th w = Some (th', w') ->
  stateOk (state (lk w')) (R - rholds th + rholds th') (W - wholds th + wholds th') /\
  currentReaders (lk w') = wrap32 (C - counted th + counted th') /\ wellFormed th'.
Proof.
  intros [Hh Hwf] Hs HR HW HC Hr. destruct th as [f st rh wh].
  unfold frun, wellFormed, rholds, wholds, counted, rHolds, wHolds in *. simpl in *.
  pose proof (stateOk_readable _ _ _ Hs) as Hrd. pose proof (stateOk_reader _ _ _ Hs) as Hrr.
  pose proof (stateOk_writer _ _ _ Hs) as Hww.
  destruct f as [|p|c p|p|p|c p|p|p|p|]; [done| | | | | | | | |done];
    destruct p; simpl in Hr; inv_step Hr; try done; simpl in *; bool_facts;
    unfold finished, liftWake in *; simpl in *;
    try (match goal with
    | H : wakeNextWaiters_step _ _ = _ |- _ =>
        destruct (wakeNextWaiters_state _ _ _ _ H) as (E1 & E2 & Hn); rewrite E1, E2
    end);
    repeat match goal with |- context [match ?b with _ => _ end] =>
      is_var b; destruct b; simpl in * end;
    try (exfalso; by eapply Hn);
    (split; [|split; [rewrite HC, ?add32_wrap32; f_equal; lia|]]);
    unfold stateOk, readable, rwLockMaxReaders, rwLockWriterBit in *;
    rewrite ?add32_id by (unfold int32_range; lia); try lia; repeat split; try lia; auto.
  all: exfalso; match goal with H : peek_step _ _ _ = (Panic ?m, _) |- _ =>
    by apply (peek_no_panic _ _ _ _ _ m H) end.
Qed.

Lemma fair_Inv_run w ths t th th' w' o :
  Inv (w, ths) -> ths !! t = Some th -> frun o th w = Some (th', w') -> Inv (w', <[t:=th']> ths).
Proof.
  intros [Hs Hn Ht] Hl Hr. simpl in *.
  pose proof (Forall_lookup_1 _ _ _ _ Ht Hl) as Hwf.
  pose proof (sumf_le_F rholds _ fair_rholds_nonneg _ _ _ Ht Hl) as HR.
  pose proof (sumf_le_F wholds _ fair_wholds_nonneg _ _ _ Ht Hl) as HW.
  destruct (fair_run_state _ _ _ _ _ _ _ _ Hwf Hs HR HW Hn Hr) as (E1 & E2 & E3).
  constructor; simpl; auto.
  - by rewrite !(sumf_insert _ _ _ _ _ Hl).
  - by rewrite (sumf_insert _ _ _ _ _ Hl).
  - by apply Forall_insert.
Qed.

Lemma fair_reach_Inv P k now c : reach fairrwlock P (initial k now) c -> Inv c.
Proof.
  apply reach_invariant; intros.
  - apply fair_Inv_initial.
  - eapply fair_Inv_call; eauto.
  - eapply fair_Inv_run; eauto.
  - destruct H. by constructor.
Qed.

(** * Theorems *)

Lemma fair_rheld_le th : rheld th <= rholds th.
Proof. unfold rholds, rHolds. destruct (frm th) as [|p|c p|p|p|c p|p|p|p|]; try destruct p; simpl; lia. Qed.

Lemma fair_wheld_le th : wheld th <= wholds th.
Proof. unfold wholds, wHolds. destruct (frm th) as [|p|c p|p|p|c p|p|p|p|]; try destruct p; simpl; lia. Qed.


(** The statistics count the readers.  When no call is in progress
    [CurrentReaders] is the number of read locks held, which the low bits of
    the state word hold too. *)
Theorem fair_current_readers k now w ths now' :
  reach fairrwlock any_label (initial k now) (w, ths) ->
  Forall (fun th => exists r, frm th = FIdle r) ths ->
  CurrentReaders (GetStats now' (lk w)) = sumf rheld ths /\
  Z.land (state (lk w)) rwLockMaxReaders = sumf rheld ths.
Proof.
  intros Hr Hi. apply fair_reach_Inv in Hr as [Hs Hn _]. simpl in *.
  assert (sumf rholds ths = sumf rheld ths /\ sumf counted ths = sumf rheld ths) as [E1 E2].
  { clear - Hi. induction Hi as [|th l [r Hf] _ [IH1 IH2]]; simpl; [done|].
    unfold rholds at 1, counted at 1. rewrite Hf. lia. }
  rewrite E1 in Hs. rewrite E2 in Hn. rewrite Hn. unfold stateOk, readable, rwLockMaxReaders in *.
  rewrite wrap32_id by (unfold int32_range; lia). split; [done|].
  destruct Hs as [(-> & _ & H)|(-> & _ & ->)]; [by apply land_max_readable|done].
Qed.

(** Two readers. *)
Definition twoReaders : list (label rwop) :=
  Call 0 OpRLock 0 :: runs 0 5 ++ Call 1 OpRLock 0 :: runs 1 5.
(** T0 holds the write lock, T1 is parked in [RLock]. *)
Definition writerFirst : list (label rwop) :=
  Call 0 OpLock 0 :: runs 0 4 ++ Call 1 OpRLock 0 :: runs 1 9.


Lemma fair_current_readers_witness :
  let c := after fairrwlock twoReaders (initial 2 0) in
  CurrentReaders (GetStats 0 (lk c.1)) = sumf rheld c.2 /\
  Z.land (state (lk c.1)) rwLockMaxReaders = sumf rheld c.2.
Proof.
  apply (fair_current_readers 2 0).
  - apply after_reach; [apply Forall_any|by_eval].
  - apply Forall_lookup. intros [|[|t]] th E; [..|by vm_compute in E];
      eexists; vm_compute in E; injection E as <-; reflexivity.
Defined.

(** ** Where the lock is not first in, first out

    T0 holds a read lock, T2 is parked in [Lock]; T0 releases, which takes
    the waiter of T2 out of the queue and signals it; before T2 runs, T0 takes
    a read lock again. *)
Definition writerSignaled : list (label rwop) :=
  Call 0 OpRLock 0 :: runs 0 5 ++ Call 2 OpLock 0 :: runs 2 10 ++
  Call 0 OpRUnlock 0 :: runs 0 10 ++ Call 0 OpRLock 0 :: runs 0 5 ++ runs 2 3.

(** T2 tries once; T1 takes a read lock, T0 releases and takes one again, T1
    releases: at no time is there no reader. *)
Definition starvingRound : list (label rwop) :=
  runs 2 2 ++ Call 1 OpRLock 0 :: runs 1 5 ++ Call 0 OpRUnlock 0 :: runs 0 3 ++
  Call 0 OpRLock 0 :: runs 0 5 ++ Call 1 OpRUnlock 0 :: runs 1 3.

(** The configuration after [writerSignaled], with [a] read acquisitions. *)
Definition starving (a : Z) : config (Sh:=fworld) (Th:=thread) :=
  Eval vm_compute in
    let c := after fairrwlock writerSignaled (initial 3 0) in (upd (set_readerAcquires a) c.1, c.2).

Lemma starvingRound_exec a : execs fairrwlock starvingRound (starving a) = Some (starving (add64 (add64 a 1) 1)).
Proof. lazy -[add64]. reflexivity. Qed.

Lemma starving_rounds n a :
  execs fairrwlock (mjoin (replicate n starvingRound)) (starving (wrap64 a)) =
    Some (starving (wrap64 (a + 2 * Z.of_nat n))).
Proof.
  revert a. induction n as [|n IH]; intros a.
  - by replace (a + 2 * Z.of_nat 0) with a by lia.
  - replace (a + 2 * Z.of_nat (S n)) with (a + 1 + 1 + 2 * Z.of_nat n) by lia.
    rewrite <- IH, <- !add64_wrap64. cbn [replicate mjoin list_join].
    by rewrite execs_app, starvingRound_exec.
Qed.

(** A writer can starve.  A writer whose waiter has been dequeued and
    signaled is no longer in the queue, so goroutines that come later see an
    empty queue and take read locks before it: for every [n] there is an
    execution in which T2 was first in the queue, has been signaled and has
    tried [n] times to take the lock, [2 n + 2] read locks have been taken,
    all but one by calls that began after the signal, and T2 still waits. *)
Theorem fair_writer_starves n :
  exists w ths, execs fairrwlock (writerSignaled ++ mjoin (replicate n starvingRound)) (initial 3 0) = Some (w, ths) /\
    ths !! 2%nat = Some (mkThread (FLock (WSCas 0)) 0 0 0) /\ signaled (fget (fh w) 0) = true /\
    isEmpty (queue (lk w)) = true /\
    ReaderAcquires (GetStats 0 (lk w)) = wrap64 (2 * Z.of_nat n + 2).
Proof.
  exists (starving (wrap64 (2 + 2 * Z.of_nat n))).1, (starving (wrap64 (2 + 2 * Z.of_nat n))).2.
  rewrite execs_app.
  replace (execs fairrwlock writerSignaled (initial 3 0)) with (Some (starving (wrap64 2))) by by_eval.
  cbn [mbind option_bind]. rewrite starving_rounds.
  split; [by rewrite <- surjective_pairing|]. repeat split. by rewrite Z.add_comm.
Qed.

(** T0 releases the write lock and stops before it clears [writerHeld]; T1
    takes the lock and returns; T0 goes on. *)
Definition heldRace : list (label rwop) :=
  Call 0 OpLock 0 :: runs 0 4 ++ Call 0 OpUnlock 0 :: runs 0 2 ++
  Call 1 OpLock 0 :: runs 1 4 ++ runs 0 2.

(** The flag [WriterHeld] of the statistics can be wrong for as long as a
    writer holds the lock: [Unlock] clears it after it has released the
    lock.  After [heldRace] no call is in progress, T1 holds the write lock
    and the statistics say that nobody does. *)
Theorem fair_writerheld_stale :
  exists w ths, execs fairrwlock heldRace (initial 2 0) = Some (w, ths) /\
    ths = [idle; mkThread (FIdle (Some true)) 0 0 1] /\ state (lk w) = rwLockWriterBit /\
    WriterHeld (GetStats 0 (lk w)) = false.
Proof. eexists _, _. split; [vm_compute; reflexivity|]. repeat split. Qed.
