(* ===== verification/FairLive.v ===== *)
(** * No lost wake-up in FairRWLock (internal/primitives/fair_rwlock.go)

    A goroutine of FairRWLock.v is seen as one of a few modes: it has made a
    waiter, it seeks the lock with its waiter in the queue, it is parked, it
    has taken the lock out of the queue, or it wakes others.  Every step of
    the lock is one of the actions of [act] on the modes, the queue and the
    waiters ([frun_act]); the invariant [Fair] is preserved by every action,
    so the argument does not look at the program points again.

    The reason why nobody is forgotten: while the lock is free and the queue
    has a waiter that is not cancelled, either some goroutine is about to
    wake one ([strong]), or the owner of the first such waiter is still on
    its way through [peek] and will find its own waiter there. *)

From Stdlib Require Import ZArith Lia.
From stdpp Require Import base list gmap strings.
From S2P Require Import Prelude FairQueue RWLock FairRWLock.

#[local] Open Scope Z_scope.

(** * Modes *)

(** Where a seeking goroutine is: outside the attempts ([PEntry]), trying
    because it was signaled ([PSpin]), in the attempt of a queued waiter
    ([PGo]), there looking at a waiter ([PCheck]) or unlinking it
    ([PPop]). *)
Inductive seekpc := PEntry | PSpin | PGo | PCheck (y : nat) | PPop (y : nat).

(** [MWake search pend send pop]: [search] as long as it has found nobody,
    [pend] the waiters unlinked and not signaled, [send] the one whose token
    is still to be sent, [pop] a cancelled one to unlink. *)
Inductive mode :=
| MNew (x : nat)
| MSeek (x : nat) (p : seekpc)
| MPark (x : nat)
| MHold (x : nat)
| MWake (search : bool) (pend : list nat) (send pop : option nat).

Abbreviation MNone := (MWake false [] None None).

Definition seekOf (p : pkpc) : seekpc :=
  match p with PkLook | PkSize => PGo | PkCheck y => PCheck y | PkPop y => PPop y end.

Definition modeR (p : rpc) : mode :=
  match p with
  | RLoad | REmpty _ | RCas _ | RCtx | RNew | RCurrent | RAcquires | RGiveUp _ => MNone
  | RLink x => MNew x
  | RSize x | RWaits x | RSignaled x | RTotal x => MSeek x PEntry
  | RSLoad x | RSCas x _ => MSeek x PSpin
  | RPeek x p => MSeek x (seekOf p)
  | RQLoad x | RQCas x _ => MSeek x PGo
  | RQCurrent x | RQCancel x => MHold x
  | RWait x => MPark x
  end.

Definition modeW (p : wpc) : mode :=
  match p with
  | WEmpty | WCas | WCtx | WNew | WHeld | WAcquires | WGiveUp _ => MNone
  | WLink x => MNew x
  | WSize x | WWaits x | WSignaled x | WTotal x => MSeek x PEntry
  | WSCas x => MSeek x PSpin
  | WPeek x p => MSeek x (seekOf p)
  | WQCas x => MSeek x PGo
  | WQHeld x | WQCancel x => MHold x
  | WWait x => MPark x
  end.

Definition handOf (d : fdpc) : list nat := match d with FdPop => [] | FdSize x | FdCheck x => [x] end.
Definition popOf (p : pkpc) : option nat := match p with PkPop y => Some y | _ => None end.

Definition modeK (k : wakepc) : mode :=
  match k with
  | KPeek p => MWake true [] None (popOf p)
  | KReaders (DrFirst d) | KDeq d => MWake true (handOf d) None None
  | KReaders (DrPeek rs p) => MWake false rs None (popOf p)
  | KReaders (DrNext rs d) => MWake false (rs ++ handOf d) None None
  | KStore xs => MWake false xs None None
  | KSend (x :: xs) => MWake false xs (Some x) None
  | KSend [] => MNone
  end.

Definition modeOf (th : thread) : mode :=
  match frm th with
  | FRLock p | FRLockContext _ p => modeR p
  | FLock p | FLockContext _ p => modeW p
  | FRUnlock (QCurrent new) => if Z.land new rwLockMaxReaders =? 0 then MWake true [] None None else MNone
  | FUnlock UHeld => MWake true [] None None
  | FRUnlock (QWake k) | FUnlock (UWake k) => modeK k
  | _ => MNone
  end.

Definition free (w : fworld) : Prop := state (lk w) = 0.

(** * Actions *)

Section Act.
Context (f f' : Prop) (its its' : list nat) (h h' : fheap).

(** Nothing but the word of the lock changes. *)
Definition still : Prop := its' = its /\ h' = h.
Definition same : Prop := its' = its /\ h' = h /\ (f' -> f).
(** At most the waiter [y] is unlinked from the head. *)
Definition unlinks (y : nat) : Prop := (its = y :: its' \/ its' = its) /\ h' = h /\ (f' -> f).

Inductive act : mode -> mode -> Prop :=
| ActSame m : same -> act m m
| ActRelease : still -> act MNone (MWake true [] None None)
| ActNew k o : its' = its -> h' = (newFairWaiter k o h).2 -> (f' -> f) -> act MNone (MNew (nextp h))
| ActLink x : its' = its ++ [x] -> h' = h -> (f' -> f) -> act (MNew x) (MSeek x PEntry)
| ActEnter x : signaled (fget h x) = false -> same -> act (MSeek x PEntry) (MSeek x PGo)
| ActSpin x : signaled (fget h x) = true -> same -> act (MSeek x PEntry) (MSeek x PSpin)
| ActRespin x : same -> act (MSeek x PSpin) (MSeek x PEntry)
| ActSpinTake x : still -> ~ f' -> act (MSeek x PSpin) MNone
| ActLook x y l : its = y :: l -> same -> act (MSeek x PGo) (MSeek x (PCheck y))
| ActSelf x : same -> act (MSeek x (PCheck x)) (MSeek x PGo)
| ActDead x y : cancelled (fget h y) = true -> same -> act (MSeek x (PCheck y)) (MSeek x (PPop y))
| ActPop x y : unlinks y -> act (MSeek x (PPop y)) (MSeek x PGo)
| ActParkOther x y :
    y <> x -> cancelled (fget h y) = false -> same -> act (MSeek x (PCheck y)) (MPark x)
| ActParkEmpty x : its = [] -> same -> act (MSeek x PGo) (MPark x)
| ActParkBusy x : ~ f -> same -> act (MSeek x PGo) (MPark x)
| ActTake x : still -> ~ f' -> act (MSeek x PGo) (MHold x)
| ActCancel x : its' = its -> h' = cancelFair x h -> ~ f -> ~ f' -> act (MHold x) MNone
| ActWake x :
    Ready (fget h x) = true -> its' = its -> h' = fset x (setReady false (fget h x)) h -> (f' -> f) ->
    act (MPark x) (MSeek x PEntry)
| ActKDead s p y : cancelled (fget h y) = true -> same -> act (MWake s p None None) (MWake s p None (Some y))
| ActKPop s p y : unlinks y -> act (MWake s p None (Some y)) (MWake s p None None)
| ActKEmpty : its = [] -> same -> act (MWake true [] None None) MNone
| ActKTake s p y : its = y :: its' -> h' = h -> (f' -> f) -> act (MWake s p None None) (MWake s (p ++ [y]) None None)
| ActKDrop s p y : cancelled (fget h y) = true -> same -> act (MWake s (p ++ [y]) None None) (MWake s p None None)
| ActKFound p y : y ∈ p -> cancelled (fget h y) = false -> same -> act (MWake true p None None) (MWake false p None None)
| ActKSignal x xs :
    its' = its -> h' = signal_store x h -> (f' -> f) ->
    act (MWake false (x :: xs) None None) (MWake false xs (Some x) None)
| ActKSend x xs :
    its' = its -> h' = signal_send x h -> (f' -> f) ->
    act (MWake false xs (Some x) None) (MWake false xs None None).

End Act.

Definition actW (w w' : fworld) : mode -> mode -> Prop :=
  act (free w) (free w') (items (queue (lk w))) (items (queue (lk w'))) (fh w) (fh w').

#[local] Hint Extern 1 (same _ _ _ _ _ _) => (split_and!; [done..|tauto]) : core.
#[local] Hint Extern 1 (still _ _ _ _) => (split; done) : core.

(** Not about to return with an error. *)
Definition calm (th : thread) : Prop :=
  match frm th with FRLockContext _ (RGiveUp _) | FLockContext _ (WGiveUp _) => False | _ => True end.

Definition panicked (th : thread) : Prop := match frm th with FPanic _ => True | _ => False end.

Lemma ctxDone_none c w : fctxs w = ∅ -> ctxDone c w = false.
Proof. intros E. unfold ctxDone. rewrite E. by apply bool_decide_eq_false_2. Qed.

Lemma waitContext_none o c w x r :
  fctxs w = ∅ -> waitContext o (ctxDone c w) x (fh w) = Some r -> exists h', r = (true, h') /\ wait x (fh w) = Some h'.
Proof.
  intros E. unfold waitContext. rewrite (ctxDone_none _ _ E), andb_false_r. intros H.
  apply bind_Some in H as (h' & E1 & [= <-]). eauto.
Qed.

Lemma wait_ready x h h' : wait x h = Some h' -> Ready (fget h x) = true /\ h' = fset x (setReady false (fget h x)) h.
Proof. unfold wait. destruct (Ready _); naive_solver. Qed.

(** Every step of a goroutine is an action. *)
Lemma seek_act w x p r q' :
  peek_step (fh w) p (queue (lk w)) = (r, q') ->
  actW w (upd (set_queue q') w) (MSeek x (seekOf p))
    match r with
    | Next p' => MSeek x (seekOf p')
    | Return h => if bool_decide (h = Some x) then MSeek x PGo else MPark x
    | Panic _ => MNone
    end.
Proof.
  intros H. unfold actW. destruct p as [|y|y|]; simpl in H.
  - destruct (items (queue (lk w))) as [|y l] eqn:E; simplify_eq; simpl.
    + rewrite E. by apply ActParkEmpty.
    + rewrite E. by eapply ActLook.
  - destruct (cancelled (fget (fh w) y)) eqn:E; simplify_eq; simpl; [by apply ActDead|].
    case_bool_decide; simplify_eq; [by apply ActSelf|]. by apply (ActParkOther _ _ _ _ _ _ x y); [intros ->|..].
  - destruct (items (queue (lk w))) as [|z l] eqn:E; simplify_eq; simpl; [|case_bool_decide; simplify_eq; simpl];
      rewrite ?E; apply ActPop; (split; [auto|done]).
  - simplify_eq. by apply ActSame.
Qed.

(** The three loops of a goroutine that wakes. *)
Lemma wake_peek_act w s pend p r q' :
  peek_step (fh w) p (queue (lk w)) = (r, q') ->
  match r with
  | Next p' => actW w (upd (set_queue q') w) (MWake s pend None (popOf p)) (MWake s pend None (popOf p'))
  | Return h => items q' = items (queue (lk w)) /\ popOf p = None /\ (h = None -> items q' = [])
  | Panic _ => False
  end.
Proof.
  intros H. unfold actW. destruct p as [|y|y|]; simpl in H.
  - destruct (items (queue (lk w))) as [|y l] eqn:E; simplify_eq; simpl; [auto|]. rewrite E. by apply ActSame.
  - destruct (cancelled (fget (fh w) y)) eqn:E; simplify_eq; simpl; [by apply ActKDead|done].
  - destruct (items (queue (lk w))) as [|z l] eqn:E; simplify_eq; simpl; [|case_bool_decide; simplify_eq; simpl];
      rewrite ?E; apply ActKPop; (split; [auto|done]).
  - simplify_eq. by apply ActSame.
Qed.

Lemma wake_dequeue_act w s pend d r q' :
  dequeue_step (fh w) d (queue (lk w)) = (r, q') ->
  match r with
  | Next d' => actW w (upd (set_queue q') w) (MWake s (pend ++ handOf d) None None) (MWake s (pend ++ handOf d') None None)
  | Return None => items q' = [] /\ items (queue (lk w)) = [] /\ handOf d = []
  | Return (Some x) => items q' = items (queue (lk w)) /\ handOf d = [x] /\ cancelled (fget (fh w) x) = false
  | Panic _ => False
  end.
Proof.
  intros H. unfold actW. destruct d as [|y|y]; simpl in H.
  - destruct (items (queue (lk w))) as [|y l] eqn:E; simplify_eq; simpl; [auto|]. rewrite app_nil_r.
    by apply ActKTake.
  - simplify_eq. by apply ActSame.
  - destruct (cancelled (fget (fh w) y)) eqn:E; simplify_eq; simpl; [|done]. rewrite app_nil_r.
    by apply ActKDrop.
Qed.

Definition modeOut (r : outcome wakepc unit) : mode := match r with Next k => modeK k | _ => MNone end.

Lemma modeOut_signalAll xs : modeOut (signalAll xs) = MWake false xs None None.
Proof. by destruct xs. Qed.

Lemma same_act w q m :
  items q = items (queue (lk w)) -> actW w (upd (set_queue q) w) m m.
Proof. intros E. apply ActSame. split; [exact E|done]. Qed.

Lemma wake_act k w r w' :
  wakeNextWaiters_step k w = (r, w') -> actW w w' (modeK k) (modeOut r).
Proof.
  destruct k as [p|[d|rs p|rs d]|d|xs|xs]; simpl; intros H.
  - destruct (peek_step _ _ _) as [r1 q] eqn:E. apply (wake_peek_act w true []) in E.
    destruct r1 as [p'|[x|]|]; simplify_eq; simpl; [done|..|done]; destruct E as (E1 & -> & E2).
    + destruct (isReader _ _); by apply same_act.
    + apply ActKEmpty; [rewrite <- E1; auto|]. split; [exact E1|done].
  - destruct (dequeue_step _ _ _) as [r1 q] eqn:E. apply (wake_dequeue_act w true []) in E.
    destruct r1 as [d'|[x|]|]; [simplify_eq; done|..|done]; destruct E as (E1 & E2 & E3).
    + rewrite E2. destruct (isReader _ _); simplify_eq; simpl;
        (apply (ActKFound _ _ _ _ _ _ [x] x); [by constructor|done|by split]).
    + rewrite E3. simplify_eq. simpl. apply ActKEmpty; [exact E2|]. split; [by rewrite <- E2 in E1|done].
  - destruct (peek_step _ _ _) as [r1 q] eqn:E. apply (wake_peek_act w false rs) in E.
    destruct r1 as [p'|[x|]|]; simplify_eq; simpl; [done|..|done]; destruct E as (E1 & -> & E2).
    + destruct (isReader _ _); simpl; rewrite ?modeOut_signalAll, ?app_nil_r; by apply same_act.
    + rewrite modeOut_signalAll. by apply same_act.
  - destruct (dequeue_step _ _ _) as [r1 q] eqn:E. apply (wake_dequeue_act w false rs) in E.
    destruct r1 as [d'|[x|]|]; [simplify_eq; done|..|done]; destruct E as (E1 & E2 & E3).
    + rewrite E2. destruct (isReader _ _); simplify_eq; simpl; rewrite ?modeOut_signalAll; by apply same_act.
    + rewrite E3, app_nil_r. simplify_eq. rewrite modeOut_signalAll. apply same_act. congruence.
  - destruct (dequeue_step _ _ _) as [r1 q] eqn:E. apply (wake_dequeue_act w true []) in E.
    destruct r1 as [d'|[x|]|]; simplify_eq; simpl; [done|..|done]; destruct E as (E1 & E2 & E3).
    + rewrite E2. apply (ActKFound _ _ _ _ _ _ [x] x); [by constructor|done|by split].
    + rewrite E3. apply ActKEmpty; [exact E2|]. split; [by rewrite <- E2 in E1|done].
  - destruct xs as [|x xs]; simplify_eq; [by apply ActSame|]. by apply ActKSignal.
  - destruct xs as [|x xs]; simplify_eq; [by apply ActSame|]. rewrite modeOut_signalAll. by apply ActKSend.
Qed.

Lemma call_act th th' op now : fcall op now th = Some th' -> modeOf th = MNone /\ modeOf th' = MNone.
Proof.
  unfold fcall. destruct th as [f st rh wh]. simpl. destruct f; try done.
  destruct op; try (by intros [= <-]); destruct (0 <? _); by intros [= <-].
Qed.

Ltac taken := unfold free; simpl; rewrite ?add32_id by (unfold int32_range, rwLockMaxReaders in *; lia);
  unfold rwLockWriterBit; lia.

Lemma frun_act o th w th' w' :
  fctxs w = ∅ -> calm th -> ~ panicked th' -> wellFormed th -> (0 < rholds th \/ 0 < wholds th -> ~ free w) ->
  frun o th w = Some (th', w') -> actW w w' (modeOf th) (modeOf th').
Proof.
  intros Hc Hs Hs' [Hh Hwf] Hf Hr. destruct th as [f st rh wh].
  unfold frun, calm, panicked, wellFormed, rholds, wholds, rHolds, wHolds, modeOf in *. simpl in *.
  destruct f as [|p|c p|p|p|c p|p|p|p|]; [done| | | | | | | | |done];
    destruct p; try done; try (rewrite Hc in Hr); simpl in Hr; inv_step Hr; unfold acquired, finished, liftWake in *;
    simpl in *; bool_facts;
    try (match goal with H : wait _ _ = Some _ |- _ => apply wait_ready in H as [? ->] end);
    try (match goal with H : waitContext _ _ _ _ = Some _ |- _ =>
      apply (waitContext_none _ _ _ _ _ Hc) in H as (? & ? & [? ->]%wait_ready); simplify_eq end).
  all: try done.
  all: try (apply ActSame; split_and!; [done|done|unfold free; simpl; taken || done]).
  all: try (apply ActSpinTake; [done|taken]).
  all: try (apply ActTake; [done|taken]).
  all: try (by eapply ActNew).
  all: try (by apply ActLink).
  all: try (by apply ActEnter). all: try (by apply ActSpin). all: try (by apply ActRespin).
  all: try (by apply ActWake).
  all: try (by apply ActCancel; [done..|apply Hf; lia|apply Hf; lia]).
  all: try (match goal with H : peek_step _ _ _ = _ |- actW _ _ (MSeek ?x _) _ =>
    apply (seek_act _ x) in H; simpl in H;
    try match goal with B : bool_decide _ = _ |- _ => rewrite B in H end; exact H end).
  all: try (apply ActParkBusy; [intros E; unfold free in E; rewrite ?E in *; done|done]).
  all: try (match goal with H : wakeNextWaiters_step _ _ = (?r, _) |- _ =>
    apply wake_act in H; destruct r; [exact H|exact H|done] end).
  - destruct (Z.land _ _ =? 0) eqn:E; [by apply ActRelease|]. apply ActSame. split; [done|]. split; [done|].
    unfold free. simpl. intros E'. by rewrite E' in E.
  - by apply ActRelease.
Qed.

(** * The invariant *)

Definition waiterOf (m : mode) : option nat :=
  match m with MNew x | MSeek x _ | MPark x | MHold x => Some x | MWake _ _ _ _ => None end.

(** The waiter is in the queue or has been. *)
Definition linked (m : mode) : option nat :=
  match m with MSeek x _ | MPark x | MHold x => Some x | _ => None end.

(** And its owner still wants the lock. *)
Definition registered (m : mode) : option nat :=
  match m with MSeek x _ | MPark x => Some x | _ => None end.

(** And may park without looking at [signaled] again. *)
Definition trying (m : mode) : option nat :=
  match m with MSeek x (PGo | PCheck _ | PPop _) | MPark x => Some x | _ => None end.

Definition pending (m : mode) : list nat := match m with MWake _ p _ _ => p | _ => [] end.
Definition sendOf (m : mode) : option nat := match m with MWake _ _ s _ => s | _ => None end.

Definition modeOk (h : fheap) (m : mode) : Prop :=
  (forall x, waiterOf m = Some x -> (x < nextp h)%nat /\ cancelled (fget h x) = false) /\
  match m with
  | MNew x => signaled (fget h x) = false
  | MSeek x PSpin => signaled (fget h x) = true
  | MSeek _ (PPop y) | MWake _ _ _ (Some y) => cancelled (fget h y) = true
  | _ => True
  end /\
  (forall x, sendOf m = Some x -> (x < nextp h)%nat).

(** About to wake somebody who waits, or woken and on its way. *)
Definition strong (h : fheap) (m : mode) : Prop :=
  (exists p s o, m = MWake true p s o) \/ (exists x, x ∈ pending m /\ cancelled (fget h x) = false) \/
  exists x, registered m = Some x /\ signaled (fget h x) = true.

Definition someStrong (h : fheap) (ms : list mode) : Prop := exists t m, ms !! t = Some m /\ strong h m.

(** The waiters in the queue or in the hands of a goroutine that wakes. *)
Definition places (its : list nat) (ms : list mode) : list nat := its ++ mjoin (pending <$> ms).

(** Nothing is allocated from [nextp] on. *)
Definition heapOk (h : fheap) : Prop := forall x, (nextp h <= x)%nat -> cells h !! x = None.

Definition seekerFirst (h : fheap) (its : list nat) (ms : list mode) : Prop :=
  forall x t, head (live h its) = Some x -> ms !! t <> Some (MPark x).

Definition lookUpToDate (h : fheap) (its : list nat) (ms : list mode) : Prop :=
  forall t x y, ms !! t = Some (MSeek x (PCheck y)) -> y <> x -> x ∈ its ->
    head its = Some y \/ cancelled (fget h y) = true.

Record Fair (f : Prop) (its : list nat) (h : fheap) (ms : list mode) : Prop := {
  fr_heap : heapOk h;
  fr_ok : Forall (modeOk h) ms;
  fr_own : forall t1 t2 m1 m2 x, ms !! t1 = Some m1 -> ms !! t2 = Some m2 ->
    waiterOf m1 = Some x -> waiterOf m2 = Some x -> t1 = t2;
  fr_nodup : NoDup (places its ms);
  fr_places : forall x, x ∈ places its ms ->
    (x < nextp h)%nat /\ signaled (fget h x) = false /\
    (cancelled (fget h x) = false -> exists t m, ms !! t = Some m /\ linked m = Some x);
  fr_where : forall t m x, ms !! t = Some m -> registered m = Some x ->
    x ∈ places its ms \/ signaled (fget h x) = true;
  fr_ready : forall t m x, ms !! t = Some m -> trying m = Some x -> signaled (fget h x) = true ->
    Ready (fget h x) = true \/ exists t' m', ms !! t' = Some m' /\ sendOf m' = Some x;
  fr_live : f -> someStrong h ms \/ seekerFirst h its ms /\ lookUpToDate h its ms
}.

Lemma fget_fset x v h y : fget (fset x v h) y = if decide (x = y) then v else fget h y.
Proof.
  unfold fget, fset. simpl. case_decide; [subst; by rewrite lookup_insert_eq|by rewrite lookup_insert_ne].
Qed.

Lemma fset_field {A} (g : fairWaiter -> A) x v h y : g v = g (fget h x) -> g (fget (fset x v h) y) = g (fget h y).
Proof. intros E. rewrite fget_fset. case_decide; by subst. Qed.

Lemma fget_new k o h y : y <> nextp h -> fget (newFairWaiter k o h).2 y = fget h y.
Proof. intros H. unfold fget. simpl. by rewrite lookup_insert_ne. Qed.

Lemma fset_heapOk x v h : (x < nextp h)%nat -> heapOk h -> heapOk (fset x v h).
Proof. intros Hx H y Hy. simpl in *. rewrite lookup_insert_ne by lia. by apply H. Qed.

Lemma cancelled_old h y : heapOk h -> cancelled (fget h y) = true -> (y < nextp h)%nat.
Proof.
  intros H Hc. destruct (decide (y < nextp h)%nat) as [|Hn]; [done|]. unfold fget in Hc.
  by rewrite H in Hc by lia.
Qed.

Lemma places_at (ms : list mode) t m : ms !! t = Some m ->
  exists R, mjoin (pending <$> ms) ≡ₚ pending m ++ R /\
    forall m', mjoin (pending <$> <[t:=m']> ms) ≡ₚ pending m' ++ R.
Proof.
  intros Ht. exists (mjoin (pending <$> take t ms) ++ mjoin (pending <$> drop (S t) ms)).
  assert (E : forall m', mjoin (pending <$> take t ms ++ m' :: drop (S t) ms) ≡ₚ
    pending m' ++ mjoin (pending <$> take t ms) ++ mjoin (pending <$> drop (S t) ms)).
  { intros m'. rewrite fmap_app, fmap_cons, join_app. simpl.
    by rewrite !app_assoc, (Permutation_app_comm (mjoin _) (pending m')). }
  split; [|intros m'; rewrite insert_take_drop by (by eapply lookup_lt_Some); apply E].
  rewrite <- (take_drop_middle ms t m Ht) at 1. apply E.
Qed.

Lemma pending_place its (ms : list mode) t m x : ms !! t = Some m -> x ∈ pending m -> x ∈ places its ms.
Proof.
  intros Ht Hx. unfold places. apply elem_of_app. right. destruct (places_at ms t m Ht) as (R & -> & _).
  apply elem_of_app. by left.
Qed.

Lemma live_ext h h' l :
  (forall x, x ∈ l -> cancelled (fget h' x) = cancelled (fget h x)) -> live h' l = live h l.
Proof.
  induction l as [|x l IH]; intros H; [done|]. rewrite !live_cons, H by left. rewrite IH; [done|].
  intros y Hy. apply H. by right.
Qed.

Lemma live_app h l l' : live h (l ++ l') = live h l ++ live h l'.
Proof. apply filter_app. Qed.

Section Step.
Context (f f' : Prop) (its its' : list nat) (h h' : fheap) (ms : list mode) (t : nat) (m m' : mode).
Context (HF : Fair f its h ms) (Ht : ms !! t = Some m) (HA : act f f' its its' h h' m m').
Context (Hdec : f \/ ~ f) (Hhold : forall t2 x, <[t:=m']> ms !! t2 = Some (MHold x) -> ~ f').

Ltac act_cases :=
  destruct HA;
  try match goal with
  | H : same _ _ _ _ _ _ |- _ => destruct H as (-> & -> & ?)
  | H : still _ _ _ _ |- _ => destruct H as (-> & ->)
  | H : unlinks _ _ _ _ _ _ _ |- _ => destruct H as (? & -> & ?)
  end; subst.

Abbreviation ms' := (<[t:=m']> ms).

Lemma own_ok : modeOk h m.
Proof. exact (Forall_lookup_1 _ _ _ _ (fr_ok _ _ _ _ HF) Ht). Qed.

Lemma pending_old x : x ∈ pending m -> (x < nextp h)%nat.
Proof. intros Hx. by apply (fr_places _ _ _ _ HF x), (pending_place its ms t m). Qed.

(** ** The waiters *)

Lemma act_waiter : waiterOf m' = None \/ waiterOf m' = waiterOf m \/ (waiterOf m = None /\ waiterOf m' = Some (nextp h)).
Proof. destruct HA; simpl; auto. Qed.

(** Only a goroutine that has taken the lock cancels, and its own waiter. *)
Lemma act_cancelled x : (x < nextp h)%nat ->
  cancelled (fget h' x) = cancelled (fget h x) \/
  m = MHold x /\ m' = MNone /\ ~ f /\ ~ f' /\ cancelled (fget h' x) = true.
Proof.
  intros Hx. act_cases; auto.
  - left. rewrite fget_new by lia. done.
  - unfold cancelFair. rewrite fget_fset. case_decide; [subst; right; auto|by left].
  - left. by apply fset_field.
  - left. by apply fset_field.
  - left. by apply fset_field.
Qed.

Lemma act_signaled x : (x < nextp h)%nat ->
  signaled (fget h' x) = signaled (fget h x) \/
  signaled (fget h' x) = true /\ exists xs, m = MWake false (x :: xs) None None /\ m' = MWake false xs (Some x) None.
Proof.
  intros Hx. act_cases; auto.
  - left. rewrite fget_new by lia. done.
  - left. by apply fset_field.
  - left. by apply fset_field.
  - unfold signal_store. rewrite fget_fset. case_decide; [subst; right; eauto|by left].
  - left. by apply fset_field.
Qed.

Lemma act_Ready x : (x < nextp h)%nat -> Ready (fget h x) = true ->
  Ready (fget h' x) = true \/ m = MPark x /\ m' = MSeek x PEntry.
Proof.
  intros Hx HR. act_cases; auto.
  - left. rewrite fget_new by lia. done.
  - left. rewrite <- HR. by apply fset_field.
  - rewrite fget_fset. case_decide; subst; auto.
  - left. rewrite <- HR. by apply fset_field.
  - left. unfold signal_send. rewrite fget_fset. case_decide; by subst.
Qed.

Lemma act_nextp : (nextp h <= nextp h')%nat.
Proof.
  act_cases; simpl; lia.
Qed.

Lemma act_heapOk : heapOk h'.
Proof.
  pose proof (fr_heap _ _ _ _ HF) as H0. pose proof own_ok as (Hw & _ & Hs). pose proof pending_old as Hp.
  act_cases; try done.
  - intros y Hy. simpl in *. rewrite lookup_insert_ne by lia. apply H0. lia.
  - apply fset_heapOk; [by apply Hw|done].
  - apply fset_heapOk; [by apply Hw|done].
  - apply fset_heapOk; [apply Hp; by left|done].
  - apply fset_heapOk; [by apply Hs|done].
Qed.

Lemma cancelled_mono y : cancelled (fget h y) = true -> cancelled (fget h' y) = true.
Proof.
  intros Hc. destruct (act_cancelled y (cancelled_old h y (fr_heap _ _ _ _ HF) Hc)) as [-> |(_ & _ & _ & _ & ?)]; done.
Qed.

Lemma other_ok t2 m2 : t2 <> t -> ms !! t2 = Some m2 -> modeOk h' m2.
Proof.
  intros Hne H2. pose proof act_nextp as Hn.
  pose proof (Forall_lookup_1 _ _ _ _ (fr_ok _ _ _ _ HF) H2) as (Hw & Hm & Hs). split_and!.
  - intros x Hx. destruct (Hw x Hx) as [Hlt Hc]. split; [lia|].
    destruct (act_cancelled x Hlt) as [-> |(E & _)]; [done|].
    destruct Hne. symmetry. apply (fr_own _ _ _ _ HF t t2 m m2 x Ht H2); [by rewrite E|done].
  - destruct m2 as [x|x []| | |s p z [y|]]; try done; try (by apply cancelled_mono).
    + destruct (Hw x eq_refl) as [Hlt Hc]. destruct (act_signaled x Hlt) as [-> |(_ & xs & E & _)]; [done|].
      destruct (fr_places _ _ _ _ HF x) as (_ & _ & Ho); [by apply (pending_place its ms t m); [|rewrite E; left]|].
      destruct (Ho Hc) as (t3 & m3 & H3 & Hl). assert (t2 = t3) as <-.
      { apply (fr_own _ _ _ _ HF t2 t3 (MNew x) m3 x); try done. by destruct m3. }
      rewrite H2 in H3. by injection H3 as <-.
    + destruct (Hw x eq_refl) as [Hlt _]. by destruct (act_signaled x Hlt) as [-> |[-> _]].
  - intros x Hx. specialize (Hs x Hx). lia.
Qed.

Lemma self_ok : modeOk h' m'.
Proof.
  pose proof own_ok as (Hw & Hm & Hs). pose proof pending_old as Hp. pose proof act_nextp as Hn.
  pose proof cancelled_mono as Hc. pose proof act_cancelled as Hk. pose proof act_signaled as Hg.
  assert (Hw' : forall x, waiterOf m' = Some x -> waiterOf m = Some x -> (x < nextp h')%nat /\ cancelled (fget h' x) = false).
  { intros x E' E. destruct (Hw x E) as [Hlt E2]. split; [lia|].
    destruct (Hk x Hlt) as [-> |(_ & E1 & _)]; [done|by rewrite E1 in E']. }
  split_and!.
  - intros x E. destruct act_waiter as [E'|[E'|[E1 E2]]]; [congruence|apply Hw'; congruence|].
    rewrite E2 in E. injection E as <-. clear Hw' Hk Hg. act_cases; try congruence; try done.
    split; [simpl; lia|]. unfold fget. simpl. by rewrite lookup_insert_eq.
  - act_cases; try done; try (by destruct p); simpl.
    + unfold fget. simpl. by rewrite lookup_insert_eq.
  - intros x E. act_cases; try (by apply Hs); try done. injection E as <-. apply Hp. by left.
Qed.

Lemma act_ok : Forall (modeOk h') ms'.
Proof.
  apply Forall_lookup. intros t2 m2 [(<- & <- & _)|[Hne H2]]%list_lookup_insert_Some; [apply self_ok|by apply (other_ok t2)].
Qed.

Lemma act_own t1 t2 m1 m2 x :
  ms' !! t1 = Some m1 -> ms' !! t2 = Some m2 -> waiterOf m1 = Some x -> waiterOf m2 = Some x -> t1 = t2.
Proof.
  assert (Hself : forall t2 m2, t2 <> t -> ms !! t2 = Some m2 -> waiterOf m' = Some x -> waiterOf m2 = Some x -> False).
  { intros t3 m3 Hne H3 E' E3. destruct act_waiter as [E|[E|[_ E]]]; [congruence|..].
    - apply Hne. symmetry. apply (fr_own _ _ _ _ HF t t3 m m3 x); congruence.
    - destruct (Forall_lookup_1 _ _ _ _ (fr_ok _ _ _ _ HF) H3) as [Hw _]. destruct (Hw x E3). simplify_eq. lia. }
  intros [(<- & <- & _)|[Hn1 H1]]%list_lookup_insert_Some [(<- & <- & _)|[Hn2 H2]]%list_lookup_insert_Some E1 E2; [done|..].
  - by destruct (Hself t2 m2).
  - by destruct (Hself t1 m1).
  - by apply (fr_own _ _ _ _ HF t1 t2 m1 m2 x).
Qed.

(** ** The places *)

(** A waiter that is linked was nowhere before. *)
Lemma new_nowhere x : m = MNew x -> x ∉ places its ms.
Proof.
  intros E Hx. destruct own_ok as (Hw & _). rewrite E in Hw. destruct (Hw x eq_refl) as [_ Hc].
  destruct (fr_places _ _ _ _ HF x Hx) as (_ & _ & Ho). destruct (Ho Hc) as (t2 & m2 & H2 & Hl).
  assert (t = t2) as <-.
  { apply (fr_own _ _ _ _ HF t t2 m m2 x Ht H2); [by rewrite E|by destruct m2]. }
  rewrite Ht in H2. by injection H2 as <-; rewrite E in Hl.
Qed.

(** A step moves waiters between the places, adds a linked one, or takes some
    away. *)
Lemma act_places :
  places its' ms' ⊆+ places its ms \/
  exists x, m = MNew x /\ m' = MSeek x PEntry /\ places its' ms' ≡ₚ x :: places its ms.
Proof.
  destruct (places_at ms t m Ht) as (R & E1 & E2). unfold places. rewrite E1, (E2 m').
  act_cases; simpl; try (by left).
  - right. exists x. split_and!; try done. rewrite (E2 (MSeek x PEntry)), E1, <- app_assoc. simpl.
    by rewrite <- Permutation_middle.
  - left. destruct H as [-> | ->]; [by apply submseteq_cons|done].
  - left. destruct H as [-> | ->]; [by apply submseteq_cons|done].
  - left. apply Permutation_submseteq. rewrite <- app_assoc. simpl. by rewrite !app_assoc, <- Permutation_middle.
  - left. apply submseteq_app; [done|]. apply submseteq_app; [by apply submseteq_inserts_r|done].
  - left. apply submseteq_app; [done|]. by apply submseteq_cons.
Qed.

Lemma act_nodup : NoDup (places its' ms').
Proof.
  pose proof (fr_nodup _ _ _ _ HF) as Hd. destruct act_places as [H|(x & E & _ & H)].
  - apply submseteq_Permutation in H as [k E]. rewrite E in Hd. by apply NoDup_app in Hd as [Hd _].
  - rewrite H. constructor; [by apply new_nowhere|done].
Qed.

(** The signaled waiter leaves the places. *)
Lemma signaled_leaves x xs : m = MWake false (x :: xs) None None -> m' = MWake false xs (Some x) None -> x ∉ places its' ms'.
Proof.
  intros E E' Hx. pose proof (fr_nodup _ _ _ _ HF) as Hd. destruct (places_at ms t m Ht) as (R & P1 & P2).
  assert (its' = its) as Hi by (rewrite E, E' in HA; by inversion HA).
  unfold places in *. rewrite P1, E in Hd. rewrite (P2 m'), E', Hi in Hx. simpl in *.
  rewrite <- Permutation_middle in Hd. by apply NoDup_cons in Hd as [Hd _].
Qed.

Lemma linked_kept x : linked m = Some x -> signaled (fget h x) = false ->
  linked m' = Some x \/ cancelled (fget h' x) = true.
Proof.
  intros Hl Hs. pose proof own_ok as (_ & Hm & _). act_cases; simpl in *; simplify_eq; auto; try congruence.
  right. unfold cancelFair. rewrite fget_fset. by rewrite decide_True.
Qed.

Lemma act_placed x : x ∈ places its' ms' ->
  (x < nextp h')%nat /\ signaled (fget h' x) = false /\
  (cancelled (fget h' x) = false -> exists t2 m2, ms' !! t2 = Some m2 /\ linked m2 = Some x).
Proof.
  intros Hx. pose proof act_nextp as Hn. pose proof (lookup_lt_Some _ _ _ Ht) as Hlt.
  assert (x ∈ places its ms \/ m = MNew x /\ m' = MSeek x PEntry) as [Hin|[E E']].
  { destruct act_places as [H|(y & E & E' & H)]; [left; by apply (elem_of_submseteq _ _ _ Hx H)|].
    rewrite H in Hx. apply elem_of_cons in Hx as [-> |?]; auto. }
  - destruct (fr_places _ _ _ _ HF x Hin) as (Hxn & Hs & Ho). split; [lia|]. split.
    + destruct (act_signaled x Hxn) as [-> |(_ & xs & E & E')]; [done|]. by destruct (signaled_leaves x xs E E').
    + intros Hc. destruct (cancelled (fget h x)) eqn:Hc0; [by rewrite cancelled_mono in Hc|].
      destruct (Ho eq_refl) as (t2 & m2 & H2 & Hl). destruct (decide (t2 = t)) as [-> |Hne].
      * rewrite Ht in H2. injection H2 as <-. exists t, m'. rewrite list_lookup_insert_eq by done.
        split; [done|]. destruct (linked_kept x Hl Hs) as [?|?]; [done|congruence].
      * exists t2, m2. by rewrite list_lookup_insert_ne.
  - pose proof own_ok as (Hw & Hm & _). rewrite E in Hw, Hm. destruct (Hw x eq_refl) as [Hxn _]. split; [lia|].
    split; [|intros _; exists t, m'; rewrite list_lookup_insert_eq by done; by rewrite E'].
    destruct (act_signaled x Hxn) as [-> |(_ & xs & E2 & _)]; [done|congruence].
Qed.

(** A waiter that is not cancelled leaves the places only by a signal. *)
Lemma place_kept x : x ∈ places its ms -> cancelled (fget h x) = false ->
  x ∈ places its' ms' \/ signaled (fget h' x) = true.
Proof.
  destruct (places_at ms t m Ht) as (R & E1 & E2). unfold places. rewrite E1, (E2 m').
  pose proof own_ok as (_ & Hm & _). intros Hx Hc.
  act_cases; simpl in *; try (by left).
  - left. rewrite !elem_of_app in *. tauto.
  - left. destruct H as [-> | ->]; [|done]. apply elem_of_cons in Hx as [-> |?]; [congruence|done].
  - left. destruct H as [-> | ->]; [|done]. apply elem_of_cons in Hx as [-> |?]; [congruence|done].
  - left. rewrite elem_of_cons, !elem_of_app in Hx. rewrite !elem_of_app, list_elem_of_singleton. tauto.
  - left. rewrite !elem_of_app, list_elem_of_singleton in Hx. rewrite !elem_of_app.
    destruct Hx as [?|[[?|?]|?]]; auto; congruence.
  - rewrite elem_of_app, elem_of_cons in Hx. rewrite elem_of_app. destruct Hx as [?|[-> |?]]; auto.
    right. unfold signal_store. rewrite fget_fset. by rewrite decide_True.
Qed.

Lemma act_where t2 m2 x : ms' !! t2 = Some m2 -> registered m2 = Some x ->
  x ∈ places its' ms' \/ signaled (fget h' x) = true.
Proof.
  assert (Hold : forall t2 m2, ms !! t2 = Some m2 -> registered m2 = Some x ->
    x ∈ places its' ms' \/ signaled (fget h' x) = true).
  { intros t3 m3 H3 Hr. destruct (Forall_lookup_1 _ _ _ _ (fr_ok _ _ _ _ HF) H3) as [Hw _].
    destruct (Hw x) as [Hlt Hc]; [by destruct m3|]. destruct (fr_where _ _ _ _ HF t3 m3 x H3 Hr) as [?|?].
    - by apply place_kept.
    - right. by destruct (act_signaled x Hlt) as [-> |[-> _]]. }
  intros [(<- & <- & _)|[Hne H2]]%list_lookup_insert_Some Hr; [|by apply (Hold t2 m2)].
  assert (registered m = Some x \/ its' = its ++ [x]) as [?| ->].
  { clear Hold. act_cases; simpl in *; simplify_eq; auto. }
  - by apply (Hold t m).
  - left. unfold places. rewrite !elem_of_app, list_elem_of_singleton. auto.
Qed.

Lemma trying_self x : trying m' = Some x ->
  h' = h /\ sendOf m = None /\ (trying m = Some x \/ signaled (fget h x) = false).
Proof. intros E. act_cases; simpl in *; simplify_eq; split_and!; auto. by destruct m. Qed.

Lemma act_ready t2 m2 x : ms' !! t2 = Some m2 -> trying m2 = Some x -> signaled (fget h' x) = true ->
  Ready (fget h' x) = true \/ exists t3 m3, ms' !! t3 = Some m3 /\ sendOf m3 = Some x.
Proof.
  pose proof (lookup_lt_Some _ _ _ Ht) as Hlt.
  intros [(<- & <- & _)|[Hne H2]]%list_lookup_insert_Some Hy Hs.
  - destruct (trying_self x Hy) as (E & Hn & [Hm|Hm]); rewrite E in *; [|congruence].
    destruct (fr_ready _ _ _ _ HF t m x Ht Hm Hs) as [?|(t3 & m3 & H3 & E3)]; [by left|right].
    exists t3, m3. rewrite list_lookup_insert_ne; [done|]. intros <-. congruence.
  - destruct (Forall_lookup_1 _ _ _ _ (fr_ok _ _ _ _ HF) H2) as [Hw _].
    destruct (Hw x) as [Hx _]; [by destruct m2 as [|? []| | |]|].
    destruct (act_signaled x Hx) as [E|(_ & xs & _ & E')].
    2:{ right. exists t, m'. rewrite list_lookup_insert_eq by done. by rewrite E'. }
    rewrite E in Hs. destruct (fr_ready _ _ _ _ HF t2 m2 x H2 Hy Hs) as [HR|(t3 & m3 & H3 & E3)].
    + destruct (act_Ready x Hx HR) as [?|[Em _]]; [by left|]. destruct Hne.
      apply (fr_own _ _ _ _ HF t t2 m m2 x Ht H2); [by rewrite Em|by destruct m2 as [|? []| | |]].
    + destruct (decide (t3 = t)) as [-> |Hn3]; [|right; exists t3, m3; by rewrite list_lookup_insert_ne].
      rewrite Ht in H3. injection H3 as <-. clear E. act_cases; simpl in *; simplify_eq.
      * right. exists t, m. by rewrite list_lookup_insert_eq.
      * left. unfold signal_send. rewrite fget_fset. by rewrite decide_True.
Qed.

(** ** Nobody is forgotten *)

(** As long as the lock stays free no waiter is cancelled. *)
Lemma cancelled_free x : f -> (x < nextp h)%nat -> cancelled (fget h' x) = cancelled (fget h x).
Proof. intros Hf Hx. destruct (act_cancelled x Hx) as [?|(_ & _ & ? & _)]; done. Qed.

Lemma item_old x : x ∈ its -> (x < nextp h)%nat.
Proof. intros Hx. apply (fr_places _ _ _ _ HF x). unfold places. apply elem_of_app. by left. Qed.

Lemma strong_other t1 m1 : f -> ms !! t1 = Some m1 -> strong h m1 -> strong h' m1.
Proof.
  intros Hf H1 [?|[(x & Hx & Hc)|(x & Hx & Hs)]]; [by left|right; left|right; right]; exists x; (split; [done|]).
  - rewrite cancelled_free; [done..|]. by apply (fr_places _ _ _ _ HF x), (pending_place its ms t1 m1).
  - destruct (Forall_lookup_1 _ _ _ _ (fr_ok _ _ _ _ HF) H1) as [Hw _].
    destruct (Hw x) as [Hlt _]; [by destruct m1|]. by destruct (act_signaled x Hlt) as [-> |[-> _]].
Qed.

(** The goroutine that signals passes its part on to the one it wakes. *)
Lemma signal_passes x xs : f -> f' -> m = MWake false (x :: xs) None None -> m' = MWake false xs (Some x) None ->
  cancelled (fget h x) = false -> someStrong h' ms'.
Proof.
  intros Hf Hf' E E' Hc.
  destruct (fr_places _ _ _ _ HF x) as (Hx & _ & Ho); [by apply (pending_place its ms t m); [|rewrite E; left]|].
  destruct (Ho Hc) as (t2 & m2 & H2 & Hl). assert (Hne : t <> t2) by (intros <-; rewrite Ht in H2; by simplify_eq).
  assert (H2' : ms' !! t2 = Some m2) by (by rewrite list_lookup_insert_ne).
  exists t2, m2. split; [done|]. right. right. exists x. split.
  - destruct m2 as [|? ?| |y|]; simpl in *; simplify_eq; try done. by destruct (Hhold t2 x H2').
  - rewrite E, E' in HA. inversion HA; subst. unfold signal_store. rewrite fget_fset. by rewrite decide_True.
Qed.

Lemma strong_self : f -> f' -> strong h m -> strong h' m' \/ someStrong h' ms' \/ its' = [].
Proof.
  intros Hf Hf' Hs. pose proof (fun x (Hx : x ∈ pending m) => cancelled_free x Hf (pending_old x Hx)) as Hk.
  pose proof (strong_other t m Hf Ht Hs) as Hs'. pose proof signal_passes as Hsig.
  destruct Hs as [(p & z & o & E)|[(x & Hx & Hc)|(x & Hx & Hg)]].
  - clear Hs' Hk Hsig. act_cases; simplify_eq; auto; try (left; left; by eauto).
    left. right. left. eauto.
  - specialize (Hk x Hx). rewrite Hc in Hk. clear Hs'.
    destruct HA; simpl in *; try (by apply not_elem_of_nil in Hx); try (left; right; left; exists x; by split).
    + left. right. left. exists x. simpl. rewrite elem_of_app. auto.
    + apply elem_of_app in Hx as [Hx| ->%list_elem_of_singleton]; [|congruence]. left. right. left. by exists x.
    + apply elem_of_cons in Hx as [-> |Hx]; [|left; right; left; by exists x]. right. left. by apply (Hsig x0 xs).
  - clear Hsig Hk. left. act_cases; simpl in *; simplify_eq; try done; right; right; exists x; split; auto.
  rewrite <- Hg. by apply fset_field.
Qed.

Lemma strong_step : f -> f' -> someStrong h ms -> someStrong h' ms' \/ its' = [].
Proof.
  intros Hf Hf' (t1 & m1 & H1 & Hs). destruct (decide (t1 = t)) as [-> |Hne].
  - rewrite Ht in H1. injection H1 as <-. destruct (strong_self Hf Hf' Hs) as [?|?]; [|tauto]. left.
    exists t, m'. split; [|done]. apply list_lookup_insert_eq. by eapply lookup_lt_Some.
  - left. exists t1, m1. rewrite list_lookup_insert_ne by done. split; [done|by apply (strong_other t1)].
Qed.

(** Becoming free makes somebody search. *)
Lemma release_strong : ~ f -> f' -> someStrong h' ms'.
Proof.
  intros Hf Hf'. exists t, m'. rewrite list_lookup_insert_eq by (by eapply lookup_lt_Some). split; [done|].
  clear Hhold. act_cases; try tauto. left. eauto.
Qed.

(** How the queue of live waiters changes while the lock stays free. *)
Lemma live_step : f -> f' ->
  its' = its /\ live h' its' = live h its \/
  (exists x, m = MNew x /\ m' = MSeek x PEntry /\ its' = its ++ [x] /\ live h' its' = live h its ++ [x]) \/
  (exists y, its = y :: its' /\ cancelled (fget h y) = true /\ live h' its' = live h its) \/
  someStrong h' ms'.
Proof.
  intros Hf Hf'. pose proof (live_ext h h' its (fun x Hx => cancelled_free x Hf (item_old x Hx))) as HL.
  pose proof own_ok as (Hw & Hm & _). pose proof (lookup_lt_Some _ _ _ Ht) as Hlt.
  assert (Hpop : forall y l, its = y :: l -> cancelled (fget h y) = true -> h' = h -> live h' l = live h its).
  { intros y l -> Hc ->. by rewrite live_cons, Hc. }
  act_cases; auto.
  - right. left. exists x. split_and!; try done. rewrite live_app, live_cons.
    by destruct (Hw x eq_refl) as [_ ->].
  - destruct H as [E| ->]; [|auto]. right. right. left. exists y. split_and!; try done. by eapply Hpop.
  - destruct H as [E| ->]; [|auto]. right. right. left. exists y. split_and!; try done. by eapply Hpop.
  - right. right. destruct (cancelled (fget h y)) eqn:E; [left; exists y; split_and!; try done; by eapply Hpop|].
    right. exists t, (MWake s (p ++ [y]) None None). rewrite list_lookup_insert_eq by done. split; [done|].
    right. left. exists y. simpl. rewrite elem_of_app, list_elem_of_singleton. auto.
Qed.

Lemma park_self x : m' = MPark x ->
  m = MPark x \/ its = [] \/ ~ f \/
  its' = its /\ h' = h /\ exists y, m = MSeek x (PCheck y) /\ y <> x /\ cancelled (fget h y) = false.
Proof. intros E. clear Hhold. act_cases; simplify_eq; eauto 10. Qed.

Lemma head_live x y (l : list nat) : cancelled (fget h y) = false -> head l = Some y -> head (live h l) = Some x -> x = y.
Proof. intros Hc Hy Hx. destruct l as [|z l]; [done|]. injection Hy as ->. rewrite live_cons, Hc in Hx. by injection Hx. Qed.

Lemma act_seekerFirst : f -> f' -> seekerFirst h its ms -> lookUpToDate h its ms ->
  someStrong h' ms' \/ seekerFirst h' its' ms'.
Proof.
  intros Hf Hf' HS HU. destruct (live_step Hf Hf') as [[E L]|[(z & Em & Em' & E & L)|[(y & E & Hy & L)|?]]]; [..|by left];
    right; intros x t2 Hx H2; rewrite L in Hx;
    apply list_lookup_insert_Some in H2 as [(<- & Ep & _)|[Hne H2]].
  - destruct (park_self x Ep) as [Em|[Ei|[?|(_ & _ & y & Em & Hyx & Hc)]]]; [|by rewrite Ei in Hx|done|].
    + apply (HS x t Hx). by rewrite Ht, Em.
    + rewrite Em in Ht. assert (x ∈ its).
      { destruct (live h its) as [|z l] eqn:El; [done|]. injection Hx as ->.
        assert (H : x ∈ live h its) by (rewrite El; by left). by apply list_elem_of_filter in H as [_ ?]. }
      destruct (HU t x y Ht Hyx) as [Hh|?]; [done| |congruence]. apply Hyx. symmetry. by apply (head_live x y its).
  - by apply (HS x t2).
  - congruence.
  - destruct (live h its) as [|z' l] eqn:El; [|apply (HS x t2); [by rewrite El|done]].
    injection Hx as ->. apply Hne. apply (fr_own _ _ _ _ HF t t2 m (MPark x) x Ht H2); [by rewrite Em|done].
  - destruct (park_self x Ep) as [Em|[Ei|[?|(Ei & _)]]]; [|by rewrite Ei in E|done|].
    + apply (HS x t Hx). by rewrite Ht, Em.
    + rewrite Ei in E. by apply (f_equal length) in E; simpl in E; lia.
  - by apply (HS x t2).
Qed.

Lemma act_lookUpToDate : f -> f' -> lookUpToDate h its ms -> someStrong h' ms' \/ lookUpToDate h' its' ms'.
Proof.
  intros Hf Hf' HU. pose proof cancelled_mono as Hmono.
  destruct (live_step Hf Hf') as [[E _]|[(z & Em & Em' & E & _)|[(y0 & E & Hy & _)|?]]]; [..|by left];
    right; intros t2 x y H2 Hyx Hx; apply list_lookup_insert_Some in H2 as [(<- & Ep & _)|[Hne H2]].
  - rewrite E in *.
    assert (m = m' \/ head its = Some y) as [Em|?] by (clear - HA Ep; destruct HA; simplify_eq; auto); [|auto].
    destruct (HU t x y) as [?|?]; auto. congruence.
  - rewrite E in *. destruct (HU t2 x y H2 Hyx Hx); auto.
  - congruence.
  - rewrite E in *. apply elem_of_app in Hx as [Hx| ->%list_elem_of_singleton].
    + destruct (HU t2 x y H2 Hyx Hx) as [Hh|?]; [left|auto]. by destruct its.
    + destruct Hne. apply (fr_own _ _ _ _ HF t t2 m _ z Ht H2); [by rewrite Em|done].
  - assert (its' = its) as Ei.
    { clear - HA Ep. destruct HA as [? H| | | | | | | |? ? ? ? H| | | | | | | | | | | | | | | | |];
        simplify_eq; by destruct H as (? & _). }
    rewrite Ei in E. apply (f_equal length) in E. simpl in E. lia.
  - destruct (HU t2 x y H2 Hyx) as [Hh|?]; [rewrite E; by right| |auto]. rewrite E in Hh. injection Hh as ->. auto.
Qed.

Lemma act_Fair : Fair f' its' h' ms'.
Proof.
  constructor.
  - apply act_heapOk.
  - apply act_ok.
  - apply act_own.
  - apply act_nodup.
  - apply act_placed.
  - apply act_where.
  - apply act_ready.
  - intros Hf'. destruct Hdec as [Hf|Hf]; [|left; by apply release_strong].
    assert (He : its' = [] -> seekerFirst h' its' ms' /\ lookUpToDate h' its' ms').
    { intros ->. split; [by intros ? ?|]. intros ? ? ? _ _ H. by apply not_elem_of_nil in H. }
    destruct (fr_live _ _ _ _ HF Hf) as [Hs|[HS HU]]; [destruct (strong_step Hf Hf' Hs); auto|].
    destruct (act_seekerFirst Hf Hf' HS HU), (act_lookUpToDate Hf Hf' HU); auto.
Qed.
End Step.

(** * The lock *)

Record FairInv (c : fworld * list thread) : Prop := {
  fi_inv : Inv c;
  fi_ctx : fctxs c.1 = ∅;
  fi_calm : Forall calm c.2;
  fi_fair : Forall (fun th => ~ panicked th) c.2 ->
    Fair (free c.1) (items (queue (lk c.1))) (fh c.1) (modeOf <$> c.2)
}.

Lemma wake_ctxs k w r w' : wakeNextWaiters_step k w = (r, w') -> fctxs w' = fctxs w.
Proof.
  destruct k as [p|d|d|[|x xs]|[|x xs]]; simpl; intros H;
    try (match type of H with (let '(_, _) := ?e in _) = _ => destruct e end); by simplify_eq.
Qed.

Lemma calm_run o th w th' w' :
  fctxs w = ∅ -> calm th -> frun o th w = Some (th', w') -> calm th' /\ fctxs w' = ∅.
Proof.
  intros Hc Hg Hr. destruct th as [f st rh wh]. unfold calm, frun in *. simpl in *.
  destruct f as [|p|c p|p|p|c p|p|p|p|]; [done| | | | | | | | |done];
    destruct p; simpl in Hr; inv_step Hr; unfold acquired, finished, liftWake; simpl in *; auto.
  all: try (match goal with H : waitContext _ _ _ _ = Some _ |- _ =>
    apply (waitContext_none _ _ _ _ _ Hc) in H as (? & ? & _); by simplify_eq end).
  all: match goal with H : wakeNextWaiters_step _ _ = (?r, _) |- _ =>
    apply wake_ctxs in H; rewrite H; by destruct r end.
Qed.

(** A goroutine in possession of the lock keeps it from being free. *)
Lemma held_not_free w ths t th :
  Inv (w, ths) -> ths !! t = Some th -> 0 < rholds th \/ 0 < wholds th -> ~ free w.
Proof.
  intros [Hs _ Hwf] Ht Hh Hf. simpl in *.
  pose proof (sumf_le_F rholds _ fair_rholds_nonneg _ _ _ Hwf Ht).
  pose proof (sumf_le_F wholds _ fair_wholds_nonneg _ _ _ Hwf Ht).
  unfold stateOk, readable, free, rwLockWriterBit in *. lia.
Qed.

Lemma hold_not_free w ths t x : Inv (w, ths) -> (modeOf <$> ths) !! t = Some (MHold x) -> ~ free w.
Proof.
  intros HI Ht. rewrite list_lookup_fmap in Ht. apply fmap_Some in Ht as (th & Ht & E).
  apply (held_not_free w ths t th HI Ht). pose proof (Forall_lookup_1 _ _ _ _ (inv_threads _ HI) Ht) as [Hh _].
  unfold modeOf, rholds, wholds in *. simpl in Hh.
  destruct (frm th) as [|p|c p|p|p|c p|p|p|p|]; try done; destruct p; simpl in *; try done; try lia;
    try (match goal with k : wakepc |- _ => destruct k as [|[]| | |[]] end; done); by case_match.
Qed.

Lemma FairInv_run w ths t th th' w' o :
  FairInv (w, ths) -> ths !! t = Some th -> frun o th w = Some (th', w') -> FairInv (w', <[t:=th']> ths).
Proof.
  intros [HI Hc Hg HF] Ht Hr. simpl in *. pose proof (Forall_lookup_1 _ _ _ _ Hg Ht) as Hgt.
  destruct (calm_run _ _ _ _ _ Hc Hgt Hr) as [Hg' Hc']. pose proof (fair_Inv_run _ _ _ _ _ _ _ HI Ht Hr) as HI'.
  constructor; simpl; [done..|by apply Forall_insert|]. intros Hp.
  assert (Hp' : ~ panicked th').
  { apply (Forall_lookup_1 _ _ t _ Hp). apply list_lookup_insert_eq. by eapply lookup_lt_Some. }
  rewrite list_fmap_insert. eapply (act_Fair (free w)).
  - apply HF. apply Forall_lookup. intros t2 th2 H2. destruct (decide (t2 = t)) as [-> |Hne].
    + rewrite Ht in H2. injection H2 as <-. unfold frun, panicked in *. destruct (frm th); by (tauto || done).
    + apply (Forall_lookup_1 _ _ t2 _ Hp). by rewrite list_lookup_insert_ne.
  - rewrite list_lookup_fmap, Ht. reflexivity.
  - apply (frun_act o th w th' w' Hc Hgt Hp' (Forall_lookup_1 _ _ _ _ (inv_threads _ HI) Ht)); [|done].
    by apply (held_not_free w ths t).
  - unfold free. destruct (decide (state (lk w) = 0)); auto.
  - intros t2 x. rewrite <- list_fmap_insert. by apply hold_not_free.
Qed.

Lemma FairInv_call w ths t th th' op now :
  FairInv (w, ths) -> ths !! t = Some th -> fcall op now th = Some th' -> FairInv (w, <[t:=th']> ths).
Proof.
  intros [HI Hc Hg HF] Ht Hr. simpl in *. destruct (call_act _ _ _ _ Hr) as [E E'].
  constructor; simpl; [by eapply fair_Inv_call|done|..].
  - apply Forall_insert; [done|]. unfold fcall, calm in *. destruct th as [f st rh wh]. simpl in *.
    destruct f; try done. destruct op; simplify_eq; try done; case_match; by simplify_eq.
  - intros Hp. rewrite list_fmap_insert, E'. rewrite list_insert_id; [|by rewrite list_lookup_fmap, Ht; simpl; rewrite E].
    apply HF. apply Forall_lookup. intros t2 th2 H2. destruct (decide (t2 = t)) as [-> |Hne].
    + rewrite Ht in H2. injection H2 as <-. unfold fcall, panicked in *. destruct (frm th); by (tauto || done).
    + apply (Forall_lookup_1 _ _ t2 _ Hp). by rewrite list_lookup_insert_ne.
Qed.

Lemma Fair_initial f n : Fair f [] emptyHeap (replicate n MNone).
Proof.
  assert (Hj : mjoin (pending <$> replicate n MNone) = []) by (rewrite fmap_replicate; by induction n).
  constructor; try (intros ? ? ? [-> _]%lookup_replicate; done).
  - by intros x _.
  - apply Forall_replicate. by split_and!.
  - intros ? ? ? ? ? [-> _]%lookup_replicate; done.
  - unfold places. rewrite Hj. constructor.
  - unfold places. rewrite Hj. intros x H. by apply not_elem_of_nil in H.
  - intros _. right. split; [by intros ? ?|]. intros ? ? ? _ _ H. by apply not_elem_of_nil in H.
Qed.

Lemma reach_FairInv n now c : reach fairrwlock no_cancel (initial n now) c -> FairInv c.
Proof.
  apply reach_invariant; intros; try done.
  - constructor; simpl; [apply fair_Inv_initial|done|by apply Forall_replicate|intros _].
    rewrite fmap_replicate. apply Fair_initial.
  - by eapply FairInv_call.
  - by eapply FairInv_run.
Qed.

(** * Theorems *)

Definition waitingOn (th : thread) : option nat :=
  match frm th with
  | FRLock (RWait x) | FRLockContext _ (RWait x) | FLock (WWait x) | FLockContext _ (WWait x) => Some x
  | _ => None
  end.

(** Blocked on an empty channel. *)
Definition parked (h : fheap) (th : thread) : Prop :=
  exists x, waitingOn th = Some x /\ Ready (fget h x) = false.

#[export] Instance fair_parked_dec h th : Decision (parked h th).
Proof.
  unfold parked. destruct (waitingOn th) as [w|]; [|right; by intros (? & ? & _)].
  destruct (Ready (fget h w)) eqn:E; [right; intros (? & ? & ?); congruence|left; eauto].
Defined.

(** Nothing to do without the help of another goroutine. *)
Definition resting (h : fheap) (th : thread) : Prop := parked h th \/ exists r, frm th = FIdle r.

#[export] Instance fair_resting_dec h th : Decision (resting h th).
Proof.
  unfold resting. destruct (decide (parked h th)) as [?|Hn]; [left; by left|].
  destruct (frm th) eqn:E; try (right; intros [?|[? ?]]; [done|congruence]). left. eauto.
Defined.

Lemma fair_resting h th : resting h th ->
  (modeOf th = MNone \/ exists x, modeOf th = MPark x /\ Ready (fget h x) = false) /\
  rholds th = rheld th /\ wholds th = wheld th /\ ~ panicked th.
Proof.
  unfold resting, parked, waitingOn, modeOf, rholds, wholds, panicked. intros [(x & Hx & HR)|[r ->]].
  - destruct (frm th) as [|p|c p|p|p|c p|p|p|p|]; try done; destruct p; simplify_eq; simpl;
      (split; [by eauto|]); (split; [lia|]); (split; [lia|tauto]).
  - split; [by left|]. split; [lia|]. split; [lia|tauto].
Qed.

Lemma parked_mode h th : parked h th -> exists x, modeOf th = MPark x /\ Ready (fget h x) = false.
Proof.
  unfold parked, waitingOn, modeOf. intros (x & Hx & HR). exists x. split; [|done].
  destruct (frm th) as [|p|c p|p|p|c p|p|p|p|]; try done; destruct p; by simplify_eq.
Qed.

(** When everybody rests, nobody is strong, every waiter that somebody is
    parked on is in the queue, and the lock is taken. *)
Section Rest.
Context (f : Prop) (its : list nat) (h : fheap) (ms : list mode).
Context (HF : Fair f its h ms).
Context (HR : Forall (fun m => m = MNone \/ exists x, m = MPark x /\ Ready (fget h x) = false) ms).

Lemma rest_unsignaled t x : ms !! t = Some (MPark x) -> signaled (fget h x) = false.
Proof.
  intros Ht. destruct (signaled (fget h x)) eqn:E; [|done].
  destruct (fr_ready _ _ _ _ HF t _ x Ht eq_refl E) as [Hy|(t2 & m2 & H2 & Hs)].
  - destruct (Forall_lookup_1 _ _ _ _ HR Ht) as [?|(y & Hy' & ?)]; [done|]. injection Hy' as ->. congruence.
  - by destruct (Forall_lookup_1 _ _ _ _ HR H2) as [-> |(y & -> & _)].
Qed.

Lemma rest_not_strong : ~ someStrong h ms.
Proof.
  intros (t & m & Ht & Hs). destruct (Forall_lookup_1 _ _ _ _ HR Ht) as [-> |(y & -> & _)].
  - destruct Hs as [(? & ? & ? & ?)|[(x & H & _)|(x & ? & _)]]; [done|by apply not_elem_of_nil in H|done].
  - destruct Hs as [(? & ? & ? & ?)|[(x & H & _)|(x & [= <-] & E)]]; [done|by apply not_elem_of_nil in H|].
    by rewrite (rest_unsignaled t) in E.
Qed.

Lemma rest_places x : x ∈ places its ms -> x ∈ its.
Proof.
  unfold places. rewrite elem_of_app. intros [?|H]; [done|]. exfalso.
  assert (E : mjoin (pending <$> ms) = []).
  { clear - HR. induction HR as [|m l Hm Hl IH]; [done|]. change (pending m ++ mjoin (pending <$> l) = []). rewrite IH by done.
    by destruct Hm as [-> |(y & -> & _)]. }
  rewrite E in H. by apply not_elem_of_nil in H.
Qed.

Lemma rest_not_free t x : ms !! t = Some (MPark x) -> ~ f.
Proof.
  intros Ht Hf. destruct (fr_live _ _ _ _ HF Hf) as [?|[HS _]]; [by apply rest_not_strong|].
  destruct (fr_where _ _ _ _ HF t _ x Ht eq_refl) as [Hx|E]; [|by rewrite (rest_unsignaled t) in E].
  apply rest_places in Hx. destruct (Forall_lookup_1 _ _ _ _ (fr_ok _ _ _ _ HF) Ht) as [Hw _].
  assert (Hl : x ∈ live h its) by (apply list_elem_of_filter; split; [by apply Hw|done]).
  destruct (live h its) as [|y l] eqn:E; [by apply not_elem_of_nil in Hl|].
  assert (Hy : y ∈ live h its) by (rewrite E; by left). apply list_elem_of_filter in Hy as [Hc Hy].
  destruct (fr_places _ _ _ _ HF y) as (_ & _ & Ho); [apply elem_of_app; by left|].
  destruct (Ho Hc) as (t2 & m2 & H2 & Hm). apply (HS y t2); [by rewrite E|]. rewrite H2. f_equal.
  destruct (Forall_lookup_1 _ _ _ _ HR H2) as [-> |(z & -> & _)]; simpl in Hm; by simplify_eq.
Qed.
End Rest.

(** A parked goroutine among goroutines at rest waits for a holder. *)
Lemma fair_rest w ths t th :
  FairInv (w, ths) -> Forall (resting (fh w)) ths -> ths !! t = Some th -> parked (fh w) th ->
  exists t' th', ths !! t' = Some th' /\ (0 < rheld th' \/ 0 < wheld th').
Proof.
  intros [HI _ _ HF] Hrest Ht Hp. simpl in *.
  destruct (parked_mode _ _ Hp) as (x & Hm & _).
  assert (Hf : ~ free w).
  { apply (rest_not_free _ _ _ _ (HF (Forall_impl _ _ _ Hrest (fun th H => proj2 (proj2 (proj2 (fair_resting _ _ H)))))))
      with t x; [|by rewrite list_lookup_fmap, Ht; simpl; rewrite Hm].
    apply Forall_fmap. apply (Forall_impl _ _ _ Hrest). intros th2 H2. exact (proj1 (fair_resting _ _ H2)). }
  pose proof (inv_state _ HI) as Hs. simpl in Hs.
  assert (Hpos : 0 < sumf rholds ths \/ 0 < sumf wholds ths).
  { unfold free, stateOk, readable in *. lia. }
  destruct Hpos as [Hpos|Hpos]; destruct (sumf_pos _ _ Hpos) as (t' & th' & Ht' & Hh);
    exists t', th'; (split; [done|]);
    destruct (fair_resting _ _ (Forall_lookup_1 _ _ _ _ Hrest Ht')) as (_ & E1 & E2 & _); lia.
Qed.

(** C10: no wake-up of the fair lock is lost.  As long as no context is
    cancelled, a state in which no goroutine can move by itself and one of
    them is parked in [RLock] or [Lock] is a state in which some goroutine
    holds a read lock or the write lock, and will wake the first in the queue
    when it releases it, although cancelled waiters, attempts of goroutines
    that are first in the queue, and several goroutines that wake others may
    overlap in any way. *)
Theorem fair_no_lost_wakeup n now w ths t th :
  reach fairrwlock no_cancel (initial n now) (w, ths) ->
  Forall (resting (fh w)) ths -> ths !! t = Some th -> parked (fh w) th ->
  exists t' th', ths !! t' = Some th' /\ (0 < rheld th' \/ 0 < wheld th').
Proof.
  intros Hr. by apply fair_rest, (reach_FairInv n now).
Qed.

Lemma fair_no_lost_wakeup_witness :
  exists t' th', (after fairrwlock writerFirst (initial 2 0)).2 !! t' = Some th' /\ (0 < rheld th' \/ 0 < wheld th').
Proof.
  apply (fair_no_lost_wakeup 2 0 _ _ 1 (mkThread (FRLock (RWait 0)) 0 0 0)
    (after_reach fairrwlock no_cancel writerFirst (initial 2 0) ltac:(by_decide) ltac:(by_eval)));
    [by_decide|by_eval|by_decide].
Defined.
