(* ===== verification/Programs.v ===== *)
(** * Programs of critical sections

    What the programs under src/examples have in common: goroutines that
    enter and leave critical sections, one after the other, and touch shared
    data inside.  The class [Guard] says what a primitive promises to such a
    program: entering and leaving can always be called, never panic, and a
    goroutine that waits among goroutines that cannot move waits for somebody
    inside.  The lemmas of the section [Program] are proved against the class;
    Guards.v discharges it for the locks and the semaphore. *)

From Stdlib Require Import ZArith Lia.
From stdpp Require Import base list gmap strings.
From S2P Require Import Prelude.

#[local] Open Scope Z_scope.

(** Where a goroutine is, as the primitive sees it. *)
Inductive phase (Op : Type) := Outside | Entering (e : Op) | Inside (e : Op) | Leaving.
Arguments Outside {Op}. Arguments Entering {Op} e. Arguments Inside {Op} e. Arguments Leaving {Op}.

(** What a step of a call leads to. *)
Definition follows {Op} (p p' : phase Op) : Prop :=
  match p with
  | Entering e => p' = Entering e \/ p' = Inside e
  | Leaving => p' = Leaving \/ p' = Outside
  | Outside | Inside _ => False
  end.

(** In a section that has an end. *)
Definition phased {Th Op} (at_phase : phase Op -> Th -> Prop) (pairs : Op -> Op -> Prop) (th : Th) : Prop :=
  exists p, at_phase p th /\ match p with Entering e | Inside e => exists l, pairs e l | _ => True end.

(** How [g_stuck] below follows: goroutines that cannot move are at rest and
    parked if they are entering, and one that is parked among others at rest
    waits for a holder, which is inside. *)
Lemma stuck_rest {Th Op} (at_phase : phase Op -> Th -> Prop) pairs (rest park holder : Th -> Prop) (ths : list Th) :
  Forall (phased at_phase pairs) ths ->
  (forall t th p, ths !! t = Some th -> at_phase p th ->
     rest th /\ p <> Leaving /\ forall e, p = Entering e -> park th) ->
  (forall t th, Forall rest ths -> ths !! t = Some th -> park th -> exists t' th', ths !! t' = Some th' /\ holder th') ->
  (forall t th, ths !! t = Some th -> phased at_phase pairs th -> holder th -> exists e, at_phase (Inside e) th) ->
  Forall (fun th => ~ at_phase Leaving th) ths /\
  (forall t th e, ths !! t = Some th -> at_phase (Entering e) th ->
     exists t' th' e', ths !! t' = Some th' /\ at_phase (Inside e') th').
Proof.
  intros Hph HB HW HH.
  assert (HR : Forall rest ths).
  { apply Forall_lookup. intros t th Ht. destruct (Forall_lookup_1 _ _ _ _ Hph Ht) as (p & Hp & _).
    by apply (HB t th p Ht Hp). }
  split.
  - apply Forall_lookup. intros t th Ht Hp. by destruct (HB t th Leaving Ht Hp) as (_ & ? & _).
  - intros t th e Ht Hp. destruct (HW t th HR Ht) as (t' & th' & Ht' & Hh); [by eapply (HB t th (Entering e) Ht Hp)|].
    destruct (HH t' th' Ht' (Forall_lookup_1 _ _ _ _ Hph Ht') Hh) as [e' He']. eauto.
Qed.

Class Guard {Sh Th Op : Type} (m : machine Sh Th Op) := {
  gstart : nat -> config (Sh:=Sh) (Th:=Th);
  (** The invariant of the primitive, for [k] goroutines. *)
  ginv : nat -> config (Sh:=Sh) (Th:=Th) -> Prop;
  (** [pairs e l]: [l] releases what [e] acquires. *)
  pairs : Op -> Op -> Prop;
  at_phase : phase Op -> Th -> Prop;
  returned : Th -> bool;
  (** Not in a section at the same time. *)
  conflict : Op -> Op -> Prop;
  (** How many goroutines the primitive is made for. *)
  glimit : Z;
  g_start : forall k, Z.of_nat k < glimit ->
    ginv k (gstart k) /\ Forall (at_phase Outside) (gstart k).2 /\ length (gstart k).2 = k;
  g_returned : forall p th, at_phase p th ->
    returned th = match p with Outside | Inside _ => true | _ => false end;
  g_distinct : forall e th, at_phase (Inside e) th -> ~ at_phase Outside th;
  g_enter : forall e l now th, pairs e l -> at_phase Outside th ->
    exists th', call m e now th = Some th' /\ at_phase (Entering e) th';
  g_leave : forall e l now th, pairs e l -> at_phase (Inside e) th ->
    exists th', call m l now th = Some th' /\ at_phase Leaving th';
  g_call : forall k sh ths t op now th th',
    Z.of_nat k < glimit -> ginv k (sh, ths) -> (exists e l, pairs e l /\ (op = e \/ op = l)) ->
    ths !! t = Some th -> call m op now th = Some th' -> ginv k (sh, <[t:=th']> ths);
  g_run : forall k sh ths t p o th th' sh',
    Z.of_nat k < glimit -> ginv k (sh, ths) -> Forall (phased at_phase pairs) ths ->
    ths !! t = Some th -> at_phase p th -> run m o th sh = Some (th', sh') ->
    ginv k (sh', <[t:=th']> ths) /\ exists p', follows p p' /\ at_phase p' th';
  g_stuck : forall k sh ths,
    Z.of_nat k < glimit -> ginv k (sh, ths) -> Forall (phased at_phase pairs) ths ->
    Forall (fun th => forall o, run m o th sh = None) ths ->
    Forall (fun th => ~ at_phase Leaving th) ths /\
    (forall t th e, ths !! t = Some th -> at_phase (Entering e) th ->
       exists t' th' e', ths !! t' = Some th' /\ at_phase (Inside e') th');
  g_exclusive : forall k sh ths i j a b e e',
    Z.of_nat k < glimit -> ginv k (sh, ths) -> ths !! i = Some a -> ths !! j = Some b -> i <> j ->
    at_phase (Inside e) a -> at_phase (Inside e') b -> ~ conflict e e'
}.

(** * Programs *)

Section Program.
Context {Sh Th Op D : Type} (m : machine Sh Th Op) `{!Guard m}.

(** A critical section; its body may read the primitive's counters. *)
Record csection := Section_ { enter : Op; leave : Op; body : Sh -> D -> D }.

Inductive stage := SBefore | SEntering | SBody | SLeave | SLeaving.

(** A goroutine: its part of the primitive, the sections still to run, and
    where it is in the first of them. *)
Record goroutine := Goroutine { gth : Th; todo : list csection; stg : stage }.

Definition prun (o : oracle) (g : goroutine) (w : Sh * D) : option (goroutine * (Sh * D)) :=
  match todo g with
  | [] => None
  | s :: rest =>
      match stg g with
      | SBefore => th ← call m (enter s) (clk o) (gth g); Some (Goroutine th (todo g) SEntering, w)
      | SEntering =>
          if returned (gth g) then Some (Goroutine (gth g) (todo g) SBody, w)
          else '(th, sh) ← run m o (gth g) w.1; Some (Goroutine th (todo g) SEntering, (sh, w.2))
      | SBody => Some (Goroutine (gth g) (todo g) SLeave, (w.1, body s w.1 w.2))
      | SLeave => th ← call m (leave s) (clk o) (gth g); Some (Goroutine th (todo g) SLeaving, w)
      | SLeaving =>
          if returned (gth g) then Some (Goroutine (gth g) rest SBefore, w)
          else '(th, sh) ← run m o (gth g) w.1; Some (Goroutine th (todo g) SLeaving, (sh, w.2))
      end
  end.

Definition program : machine (Sh * D) goroutine Op := Machine (fun _ _ _ => None) prun (fun _ w => w).

Definition pstart (ps : list (list csection)) (d : D) : config (Sh:=Sh * D) (Th:=goroutine) :=
  (((gstart (length ps)).1, d), zip_with (fun th p => Goroutine th p SBefore) (gstart (length ps)).2 ps).

(** ** What holds at every moment *)

Definition goodSection (s : csection) : Prop := pairs (enter s) (leave s).

(** The phase of the primitive agrees with the stage of the program. *)
Definition agrees (g : goroutine) : Prop :=
  Forall goodSection (todo g) /\
  match todo g, stg g with
  | [], SBefore | _ :: _, SBefore => at_phase Outside (gth g)
  | s :: _, SEntering => at_phase (Entering (enter s)) (gth g) \/ at_phase (Inside (enter s)) (gth g)
  | s :: _, (SBody | SLeave) => at_phase (Inside (enter s)) (gth g)
  | _ :: _, SLeaving => at_phase Leaving (gth g) \/ at_phase Outside (gth g)
  | [], _ => False
  end.

Record PInv (ps : list (list csection)) (c : Sh * D * list goroutine) : Prop := {
  pi_prim : ginv (length ps) (c.1.1, gth <$> c.2);
  pi_agrees : Forall agrees c.2;
  pi_length : length c.2 = length ps
}.

Definition through (g : goroutine) : Prop := todo g = [].

Lemma agrees_phased g : agrees g -> phased at_phase pairs (gth g).
Proof.
  intros [Hs Ha]. destruct (todo g) as [|s rest], (stg g); try done;
    try (apply Forall_cons in Hs as [Hs _]); try (by exists Outside);
    try (by exists (Inside (enter s)); (split; [done|exists (leave s)])).
  - destruct Ha as [Ha|Ha]; [exists (Entering (enter s))|exists (Inside (enter s))]; (split; [done|by exists (leave s)]).
  - destruct Ha as [Ha|Ha]; [by exists Leaving|by exists Outside].
Qed.

Lemma PInv_phased ps c : PInv ps c -> Forall (phased at_phase pairs) (gth <$> c.2).
Proof. intros H. apply Forall_fmap. exact (Forall_impl _ _ _ (pi_agrees _ _ H) agrees_phased). Qed.

Lemma gth_lookup (gs : list goroutine) t g : gs !! t = Some g -> (gth <$> gs) !! t = Some (gth g).
Proof. intros H. by rewrite list_lookup_fmap, H. Qed.

Context (ps : list (list csection)) (Hlim : Z.of_nat (length ps) < glimit).

Lemma PInv_run sh d gs t g o g' w' :
  PInv ps (sh, d, gs) -> gs !! t = Some g -> prun o g (sh, d) = Some (g', w') -> PInv ps (w', <[t:=g']> gs).
Proof.
  intros HI Ht Hr. pose proof (Forall_lookup_1 _ _ _ _ (pi_agrees _ _ HI) Ht) as [Hs Ha].
  pose proof (gth_lookup _ _ _ Ht) as Hth. pose proof (pi_prim _ _ HI) as HP. simpl in HP.
  assert (Hmove : forall sh' g2 d', ginv (length ps) (sh', <[t:=gth g2]> (gth <$> gs)) -> agrees g2 ->
    PInv ps ((sh', d'), <[t:=g2]> gs)).
  { intros sh' g2 d' HR Hg. constructor; simpl; [by rewrite list_fmap_insert|by apply Forall_insert; [apply HI|]|].
    rewrite length_insert. apply HI. }
  assert (Hsame : ginv (length ps) (sh, <[t:=gth g]> (gth <$> gs))) by (by rewrite list_insert_id).
  unfold prun in Hr. destruct (todo g) as [|s rest] eqn:Et; [done|].
  pose proof (Forall_cons_1 _ _ _ Hs) as [Hp Hrest]. unfold goodSection in Hp. destruct (stg g) eqn:Es.
  - apply bind_Some in Hr as (th' & Hc & [= <- <-]). destruct (g_enter _ _ (clk o) _ Hp Ha) as (th2 & Hc2 & Ha2).
    rewrite Hc in Hc2. injection Hc2 as <-. apply Hmove; [|split; [done|simpl; auto]].
    apply (g_call _ _ _ t (enter s) (clk o) (gth g) th' Hlim HP); [eauto 6|done..].
  - destruct (returned (gth g)) eqn:Hret.
    + injection Hr as <- <-. apply Hmove; [done|]. split; [done|]. simpl. destruct Ha as [Ha|Ha]; [|done].
      by rewrite (g_returned _ _ Ha) in Hret.
    + apply bind_Some in Hr as ([th' sh'] & Hc & [= <- <-]).
      destruct Ha as [Ha|Ha]; [|by rewrite (g_returned _ _ Ha) in Hret].
      destruct (g_run _ _ _ _ _ _ _ _ _ Hlim HP (PInv_phased _ _ HI) Hth Ha Hc) as (HR & p' & Hf & Hp').
      apply Hmove; [done|]. split; [done|]. simpl. destruct Hf as [-> | ->]; auto.
  - injection Hr as <- <-. apply Hmove; [done|]. by split.
  - apply bind_Some in Hr as (th' & Hc & [= <- <-]). destruct (g_leave _ _ (clk o) _ Hp Ha) as (th2 & Hc2 & Ha2).
    rewrite Hc in Hc2. injection Hc2 as <-. apply Hmove; [|split; [done|simpl; auto]].
    apply (g_call _ _ _ t (leave s) (clk o) (gth g) th' Hlim HP); [eauto 6|done..].
  - destruct (returned (gth g)) eqn:Hret.
    + injection Hr as <- <-. apply Hmove; [done|]. split; [done|]. simpl.
      destruct Ha as [Ha|Ha]; [by rewrite (g_returned _ _ Ha) in Hret|]. by destruct rest.
    + apply bind_Some in Hr as ([th' sh'] & Hc & [= <- <-]).
      destruct Ha as [Ha|Ha]; [|by rewrite (g_returned _ _ Ha) in Hret].
      destruct (g_run _ _ _ _ _ _ _ _ _ Hlim HP (PInv_phased _ _ HI) Hth Ha Hc) as (HR & p' & Hf & Hp').
      apply Hmove; [done|]. split; [done|]. simpl. destruct Hf as [-> | ->]; auto.
Qed.

Lemma PInv_start d : Forall (Forall goodSection) ps -> PInv ps (pstart ps d).
Proof.
  intros Hg. destruct (g_start (length ps) Hlim) as (Hi & Ho & Hl). constructor; simpl.
  - replace (gth <$> _) with (gstart (length ps)).2; [by rewrite <- surjective_pairing|].
    apply list_eq. intros i. rewrite list_lookup_fmap, lookup_zip_with.
    destruct ((gstart (length ps)).2 !! i) as [th|] eqn:E; simpl; [|done].
    destruct (ps !! i) eqn:E2; [done|]. apply lookup_ge_None in E2. apply lookup_lt_Some in E. lia.
  - apply Forall_lookup. intros i g (th & p & -> & H1 & H2)%lookup_zip_with_Some.
    split; simpl; [by apply (Forall_lookup_1 _ _ _ _ Hg H2)|].
    pose proof (Forall_lookup_1 _ _ _ _ Ho H1). by destruct p.
  - rewrite length_zip_with. lia.
Qed.

Lemma reach_PInv d c : Forall (Forall goodSection) ps -> reach program any_label (pstart ps d) c -> PInv ps c.
Proof.
  intros Hg. apply reach_invariant; [by apply PInv_start|done|intros [sh d'] ? ? ? ? ? ?; intros; by eapply PInv_run|].
  intros [sh d'] gs x HI _. exact HI.
Qed.

(** A goroutine that is not through and cannot move waits inside a call. *)
Lemma stuck_waits sh d g :
  agrees g -> (forall o, prun o g (sh, d) = None) -> ~ through g ->
  (exists e, at_phase (Entering e) (gth g)) \/ at_phase Leaving (gth g).
Proof.
  intros [Hs Ha] Hn Hf. unfold prun, through in *. destruct (todo g) as [|s rest]; [done|].
  pose proof (Forall_cons_1 _ _ _ Hs) as [Hp _]. unfold goodSection in Hp. specialize (Hn (Oracle false 0 0)).
  destruct (stg g).
  - destruct (g_enter _ _ 0 _ Hp Ha) as (th' & Hc & _). simpl in Hn. by rewrite Hc in Hn.
  - destruct Ha as [Ha|Ha]; [eauto|]. by rewrite (g_returned _ _ Ha) in Hn.
  - done.
  - destruct (g_leave _ _ 0 _ Hp Ha) as (th' & Hc & _). simpl in Hn. by rewrite Hc in Hn.
  - destruct Ha as [Ha|Ha]; [by right|]. by rewrite (g_returned _ _ Ha) in Hn.
Qed.

(** The other way round, somebody inside is not through. *)
Lemma inside_moves sh d g e : agrees g -> at_phase (Inside e) (gth g) -> exists o, prun o g (sh, d) <> None.
Proof.
  intros [Hs Ha] Hi. exists (Oracle false 0 0). unfold prun. pose proof (g_distinct e _ Hi) as Hd.
  pose proof (g_returned _ _ Hi) as Hr. simpl in Hr. destruct (todo g) as [|s rest], (stg g); try done.
  - by rewrite Hr.
  - apply Forall_cons in Hs as [Hp _]. destruct (g_leave _ _ 0 _ Hp Ha) as (th' & Hc & _). simpl. by rewrite Hc.
  - by rewrite Hr.
Qed.

(** Nobody can move: everybody is through. *)
Lemma program_progress sh d gs :
  PInv ps (sh, d, gs) -> (forall t g o, gs !! t = Some g -> prun o g (sh, d) = None) -> Forall through gs.
Proof.
  intros HI Hstuck. pose proof (pi_agrees _ _ HI) as Ha. simpl in Ha.
  assert (Hrun : Forall (fun th => forall o, run m o th sh = None) (gth <$> gs)).
  { apply Forall_fmap, Forall_lookup. intros t g Ht o. simpl. destruct (run m o (gth g) sh) as [[th' sh']|] eqn:Hr; [|done].
    exfalso. pose proof (Forall_lookup_1 _ _ _ _ Ha Ht) as Hg. destruct (agrees_phased _ Hg) as (p & Hp & _).
    destruct (g_run (length ps) sh (gth <$> gs) t p o (gth g) th' sh' Hlim (pi_prim _ _ HI) (PInv_phased _ _ HI))
      as (_ & p' & Hf & _); [by apply gth_lookup|done..|]. specialize (Hstuck t g o Ht). pose proof (g_returned _ _ Hp) as Hret.
    destruct Hg as [Hs Hg]. unfold prun in Hstuck. destruct (todo g) as [|s rest], (stg g), p; try done;
      rewrite ?Hret in Hstuck; simpl in Hstuck; rewrite ?Hr in Hstuck; try done;
      try (by rewrite (g_returned _ _ Hg) in Hret). }
  destruct (g_stuck _ _ _ Hlim (pi_prim _ _ HI) (PInv_phased _ _ HI) Hrun) as [HL HE].
  apply Forall_lookup. intros t g Ht. destruct (todo g) as [|s rest] eqn:Et; [done|]. exfalso.
  destruct (stuck_waits sh d g) as [[e He]|Hl].
  - by apply (Forall_lookup_1 _ _ _ _ Ha Ht).
  - intros o. by apply (Hstuck t).
  - unfold through. congruence.
  - destruct (HE t (gth g) e) as (t' & th' & e' & H' & Hi); [by apply gth_lookup|done|].
    rewrite list_lookup_fmap in H'. apply fmap_Some in H' as (g' & Hg' & ->).
    destruct (inside_moves sh d g' e' (Forall_lookup_1 _ _ _ _ Ha Hg') Hi) as [o Ho]. by apply Ho, (Hstuck t').
  - exact (Forall_lookup_1 _ _ _ _ HL (gth_lookup _ _ _ Ht) Hl).
Qed.

(** Two goroutines at the bodies of their sections do not conflict. *)
Lemma bodies_apart sh d gs i j a b s s' :
  PInv ps (sh, d, gs) -> gs !! i = Some a -> gs !! j = Some b -> i <> j ->
  stg a = SBody -> stg b = SBody -> head (todo a) = Some s -> head (todo b) = Some s' ->
  ~ conflict (enter s) (enter s').
Proof.
  intros HI Hi Hj Hne Ea Eb Ha Hb.
  assert (Hin : forall g x, agrees g -> stg g = SBody -> head (todo g) = Some x -> at_phase (Inside (enter x)) (gth g)).
  { intros g x [_ Hg] E Ex. destruct (todo g); [done|]. injection Ex as ->. by rewrite E in Hg. }
  apply (g_exclusive _ _ _ i j (gth a) (gth b) _ _ Hlim (pi_prim _ _ HI)); [by apply gth_lookup..|done| |];
    apply Hin; try done; by apply (Forall_lookup_1 _ _ _ _ (pi_agrees _ _ HI)) in Hi, Hj.
Qed.

(** ** The data *)

(** The sections at hand whose body the goroutine has run. *)
Definition passed (g : goroutine) : list csection :=
  match stg g with SLeave | SLeaving => take 1 (todo g) | _ => [] end.

(** A step runs the body of the section at hand, or leaves the data alone. *)
Lemma prun_data o g sh d g' w' : prun o g (sh, d) = Some (g', w') ->
  (exists s rest, todo g = s :: rest /\ stg g = SBody /\ w' = (sh, body s sh d) /\ todo g' = todo g /\ passed g' = [s]) \/
  w'.2 = d /\ exists ran, todo g = ran ++ todo g' /\ passed g = ran ++ passed g'.
Proof.
  unfold prun, passed. destruct (todo g) as [|s rest]; [done|]. intros Hr.
  destruct (stg g) eqn:Es; try (destruct (returned (gth g))); inv_step Hr; simpl;
    first [left; exists s, rest; by split_and!|right; split; [done|]; first [by exists []|by exists [s]]].
Qed.

(** A part [view t] of the data that only the sections of goroutine [t]
    change, the [i]-th of them by [f t i], is what the sections it has run
    make of it. *)
Lemma view_done {A} (view : nat -> D -> A) (f : nat -> nat -> A -> A) d0 c :
  (forall t u p i s sh d, ps !! u = Some p -> p !! i = Some s ->
     view t (body s sh d) = if decide (t = u) then f t i (view t d) else view t d) ->
  reach program any_label (pstart ps d0) c ->
  forall t g, c.2 !! t = Some g -> exists ran, ps !! t = Some (ran ++ todo g) /\
    view t c.1.2 = foldl (fun a i => f t i a) (view t d0) (seq 0 (length (ran ++ passed g))).
Proof.
  intros Hb.
  apply (reach_invariant program any_label (fun c => forall t g, c.2 !! t = Some g -> exists ran,
    ps !! t = Some (ran ++ todo g) /\
    view t c.1.2 = foldl (fun a i => f t i a) (view t d0) (seq 0 (length (ran ++ passed g)))));
    [|done|intros [sh d] gs t g g' w' o IH _ Ht Hr u gu Hu|intros [sh d] gs x H _; exact H]; simpl in *.
  - intros t g (th & p & -> & _ & Hp)%lookup_zip_with_Some. by exists [].
  - destruct (IH t g Ht) as (ran & Hp & Hv).
    destruct (prun_data _ _ _ _ _ _ Hr) as [(s & rest & Et & Es & -> & Et' & Ep)|[-> (ran' & Et & Ep)]]; simpl.
    + assert (Hs : (ran ++ todo g) !! length ran = Some s) by (rewrite Et; by apply list_lookup_middle).
      apply list_lookup_insert_Some in Hu as [(<- & <- & _)|[Hne Hu]].
      * exists ran. rewrite Et', Ep. split; [done|]. unfold passed in Hv. rewrite Es, app_nil_r in Hv.
        rewrite length_app, seq_app, foldl_app, <- Hv, (Hb t t _ _ _ _ _ Hp Hs), decide_True by done. done.
      * destruct (IH u gu Hu) as (ran2 & Hp2 & Hv2). exists ran2. split; [done|].
        by rewrite (Hb u t _ _ _ _ _ Hp Hs), decide_False.
    + apply list_lookup_insert_Some in Hu as [(<- & <- & _)|[Hne Hu]]; [|by apply IH].
      exists (ran ++ ran'). rewrite <- !app_assoc, <- Et, <- Ep. done.
Qed.

(** What is left to do is the end of the program. *)
Lemma todo_suffix d0 c : reach program any_label (pstart ps d0) c ->
  forall t g, c.2 !! t = Some g -> exists ran, ps !! t = Some (ran ++ todo g).
Proof.
  intros Hr t g Ht.
  destruct (view_done (fun _ _ => tt) (fun _ _ a => a) d0 c) with t g as (ran & H & _); [|done|done|by exists ran].
  intros. by case_decide.
Qed.

(** An invariant of the data that every body preserves. *)
Lemma data_invariant (Q : D -> Prop) d0 c :
  Forall (Forall goodSection) ps -> Q d0 ->
  (forall sh d gs t g p s rest, PInv ps (sh, d, gs) -> gs !! t = Some g -> ps !! t = Some p -> s ∈ p ->
     todo g = s :: rest -> stg g = SBody -> Q d -> Q (body s sh d)) ->
  reach program any_label (pstart ps d0) c -> Q c.1.2.
Proof.
  intros Hg H0 Hb. induction 1 as [|l c c' Hr IH _ Hx]; [done|].
  pose proof (reach_PInv d0 c Hg Hr) as HI. destruct c as [[sh d] gs]. simpl in *.
  destruct l as [t op now|t o|x]; simpl in Hx; inv_step Hx; simpl in *; [|done].
  rename x into g, x0 into r, Hx0 into Ht, Hx1 into Hg'. destruct r as [g' w'].
  destruct (prun_data _ _ _ _ _ _ Hg') as [(s & rest & Et & Es & -> & _)|[E _]]; [|simpl; by rewrite E].
  destruct (todo_suffix d0 _ Hr t g Ht) as [ran Hp]. simpl. eapply Hb; eauto.
  rewrite Et. apply elem_of_app. right. left.
Qed.
End Program.
