(* ===== verification/Guards.v ===== *)
(** * The locks and the semaphore as guards of critical sections

    Instances of the class of Programs.v for Mutex, RWLock, FairRWLock and
    Semaphore, from the invariants and the wake-up lemmas of their files. *)

From Stdlib Require Import ZArith Lia.
From stdpp Require Import base list gmap strings.
From S2P Require Import Prelude.
From S2P Require Import Waiter.
From S2P Require Import Mutex.
From S2P Require Import Semaphore.
From S2P Require Import RWLock.
From S2P Require Import RWLive.
From S2P Require Import FairQueue.
From S2P Require Import FairRWLock.
From S2P Require Import FairLive.
From S2P Require Import Programs.

#[local] Open Scope Z_scope.

Lemma Wait_blocked x s : Wait x s = None -> Waiter.Ready (wget s x) = false.
Proof. unfold Wait. by destruct (Waiter.Ready _). Qed.

Lemma wait_blocked x h : wait x h = None -> FairQueue.Ready (fget h x) = false.
Proof. unfold wait. by destruct (FairQueue.Ready _). Qed.

(** ** Mutex *)
Module MutexGuard.
Import Mutex.

Definition phaseOf (p : phase mop) (th : thread) : Prop :=
  match p with
  | Outside => (exists r, frm th = FIdle r) /\ held th = 0
  | Entering OpLock => (exists p, frm th = FLock p) /\ held th = 0
  | Inside OpLock => (exists r, frm th = FIdle r) /\ held th = 1
  | Leaving => (exists p, frm th = FUnlock p) /\ held th = 0
  | _ => False
  end.

Definition pairsOf (e l : mop) : Prop := e = OpLock /\ l = OpUnlock.

Lemma mu_phased_held th : phased phaseOf pairsOf th -> 0 < held th -> phaseOf (Inside OpLock) th.
Proof.
  intros ([|e|e|] & Hp & He) Hh; simpl in *; try lia.
  - destruct He as (l & -> & _). simpl in Hp. lia.
  - destruct He as (l & -> & _). exact Hp.
Qed.

Lemma mu_blocked w th p :
  wellFormed th -> phaseOf p th -> (forall o, mrun o th w = None) ->
  resting (store w) th /\ p <> Leaving /\ (forall e, p = Entering e -> parked (store w) th).
Proof.
  intros [_ Hwf] Hp Hn. specialize (Hn (Oracle false 0 0)). unfold resting.
  destruct p as [|e|e|].
  - destruct Hp as [Hr _]. by split_and!; [right|..].
  - destruct e; try done. destruct Hp as [[q Hq] _].
    assert (HP : parked (store w) th); [|split_and!; auto].
    unfold parked, waitingOn, mrun in *. rewrite Hq in *. destruct q; simpl in *; try done; try (repeat case_match; done).
    eexists. split; [done|]. by apply Wait_blocked; destruct (Wait _ _).
  - destruct e; try done. destruct Hp as [Hr _]. by split_and!; [right|..].
  - destruct Hp as [[q Hq] _]. unfold mrun in Hn. rewrite Hq in Hn. exfalso. by destruct (Unlock_step q w).
Qed.

Lemma mu_run_phase w ths t th o th' w' p :
  Live (w, ths) -> Live (w', <[t:=th']> ths) -> ths !! t = Some th -> phaseOf p th -> mrun o th w = Some (th', w') ->
  exists p', follows p p' /\ phaseOf p' th'.
Proof.
  intros _ [[_ _ Hwf _] _ _ _] Ht Hp Hr. simpl in Hwf.
  assert (Hw : wellFormed th').
  { apply (Forall_lookup_1 _ _ t _ Hwf). apply list_lookup_insert_eq. by eapply lookup_lt_Some. }
  destruct Hw as [_ Hw]. destruct th as [f st hd]. unfold mrun in Hr. simpl in *. destruct p as [|[]|[]|]; try done; simpl in Hp.
  - by destruct Hp as [[r ->] _].
  - destruct Hp as [[q ->] ->]. destruct (Lock_step st o q w) as [[r w2]|] eqn:E; [|done]. simpl in Hr. injection Hr as <- <-.
    destruct r as [q'|b|e]; [exists (Entering OpLock); simpl; eauto 6| |done].
    exists (Inside OpLock). split; [by right|]. simpl. destruct q; simpl in E; inv_step E; simplify_eq; simpl; eauto.
  - by destruct Hp as [[r ->] _].
  - destruct Hp as [[q ->] ->]. destruct (Unlock_step q w) as [r w2]. injection Hr as <- <-.
    destruct r as [q'|b|e]; [exists Leaving; simpl; eauto 6|exists Outside; simpl; eauto 6|done].
Qed.

#[export] Instance mutexGuard : Guard mutex.
Proof.
  refine {|
    gstart k := initial k 0;
    ginv k c := Live c /\ length c.2 = k;
    pairs := pairsOf;
    at_phase := phaseOf;
    returned th := match frm th with FIdle _ => true | _ => false end;
    conflict _ _ := True;
    glimit := 2147483648
  |}.
  - intros k _. simpl. rewrite length_replicate. split_and!; try done; [|by apply Forall_replicate; simpl; eauto].
    apply (reach_Live k 0). constructor.
  - intros [|[]|[]|] th; simpl; try done; by intros [[r ->] _].
  - intros e th Hi Ho. destruct e; try done. destruct Hi as [_ E], Ho as [_ E']. lia.
  - intros e l now th [-> _] [[r Hr] Hh]. unfold mutex, call, mcall. rewrite Hr. eexists. split; [done|]. simpl. eauto.
  - intros e l now th [-> ->] [[r Hr] Hh]. unfold mutex, call, mcall. rewrite Hr, Hh. eexists. split; [done|].
    simpl. eauto.
  - intros k sh ths t op now th th' _ [HL Hk] _ Ht Hc. split; [by eapply Live_call|simpl in *; by rewrite length_insert].
  - intros k sh ths t p o th th' sh' _ [HL Hk] _ Ht Hp Hr. pose proof (Live_run _ _ _ _ _ _ _ HL Ht Hr) as HL'.
    split; [split; [exact HL'|simpl in *; by rewrite length_insert]|]. exact (mu_run_phase _ _ _ _ _ _ _ _ HL HL' Ht Hp Hr).
  - intros k sh ths _ [HL Hk] Hph Hn. pose proof (inv_threads _ (live_inv _ HL)) as Hwf. simpl in *.
    apply (stuck_rest _ _ (resting (store sh)) (parked (store sh)) (fun th => 0 < held th) _ Hph).
    + intros t th p Ht Hp. apply mu_blocked; [by apply (Forall_lookup_1 _ _ _ _ Hwf Ht)|done|].
      by apply (Forall_lookup_1 _ _ _ _ Hn Ht).
    + intros t th. by apply mutex_rest.
    + intros t th _ Hp Hh. exists OpLock. by apply mu_phased_held.
  - intros k sh ths i j a b e e' _ [HL _] Hi Hj Hne Ha Hb _. destruct e, e'; try done. simpl in Ha, Hb.
    pose proof (live_inv _ HL) as [Hh Hs Hwf _]. simpl in *. pose proof (mu_held_le a). pose proof (mu_held_le b).
    pose proof (sumf_two_F holds wellFormed holds_nonneg _ _ _ _ _ Hwf Hne Hi Hj). lia.
Defined.
End MutexGuard.

(** ** RWLock *)
Module RWGuard.
Import RWLock RWLive.

Definition isIdle (th : thread) : Prop := exists r, frm th = FIdle r.

Definition phaseOf (p : phase rwop) (th : thread) : Prop :=
  match p with
  | Outside => isIdle th /\ rheld th = 0 /\ wheld th = 0
  | Entering OpRLock => (exists p, frm th = FRLock p) /\ rheld th = 0 /\ wheld th = 0
  | Entering OpLock => (exists p, frm th = FLock p) /\ rheld th = 0 /\ wheld th = 0
  | Inside OpRLock => isIdle th /\ rheld th = 1 /\ wheld th = 0
  | Inside OpLock => isIdle th /\ rheld th = 0 /\ wheld th = 1
  | Leaving => ((exists p, frm th = FRUnlock p) \/ exists p, frm th = FUnlock p) /\ rheld th = 0 /\ wheld th = 0
  | _ => False
  end.

Definition pairsOf (e l : rwop) : Prop := e = OpRLock /\ l = OpRUnlock \/ e = OpLock /\ l = OpUnlock.

Lemma rwg_phased_held th : phased phaseOf pairsOf th -> 0 < rheld th \/ 0 < wheld th -> exists e, phaseOf (Inside e) th.
Proof.
  intros ([|e|e|] & Hp & He) Hh; simpl in *; try lia.
  - destruct e; try done; lia.
  - by exists e.
Qed.

(** In a section a goroutine counts for one reader at most. *)
Lemma rwg_phased_rholds th : phased phaseOf pairsOf th -> rholds th <= 1.
Proof.
  unfold rholds, isIdle. intros ([|[]|[]|] & Hp & _); simpl in *; try done; unfold isIdle in *;
    try (destruct Hp as ([r ->] & -> & _); simpl; lia);
    try (destruct Hp as ([p ->] & -> & _); destruct p; simpl; lia).
  destruct Hp as ([[p ->]|[p ->]] & -> & _); [destruct p|]; simpl; lia.
Qed.

(** The number of readers a goroutine has loaded. *)
Definition loadedAtMost (k : nat) (th : thread) : Prop :=
  match frm th with FRLock (RQueue st) => st <= Z.of_nat k | _ => True end.

Lemma rwg_blocked w th p :
  wellFormed th -> phaseOf p th -> (forall o, rwrun o th w = None) ->
  resting (store w) th /\ p <> Leaving /\ (forall e, p = Entering e -> parked (store w) th).
Proof.
  intros [_ Hwf] Hp Hn. specialize (Hn (Oracle false 0 0)). unfold resting, isIdle in *.
  destruct p as [|e|e|].
  - destruct Hp as [Hr _]. by split_and!; [right|..].
  - assert (HP : parked (store w) th); [|split_and!; auto].
    destruct e; try done; destruct Hp as [[q Hq] _]; unfold parked, waitingOn, rwrun in *; rewrite Hq in *;
      destruct q; simpl in *; try done; try (repeat case_match; tauto || done);
      (eexists; split; [done|]; by apply Wait_blocked; destruct (Wait _ _)).
  - destruct e; try done; destruct Hp as [Hr _]; by split_and!; [right|..].
  - unfold rwrun in Hn. exfalso. destruct Hp as [[[q Hq]|[q Hq]] _]; rewrite Hq in Hn;
      [by destruct (RUnlock_step q w)|by destruct (Unlock_step q w)].
Qed.

(** The calls that release know nothing of the limit on readers. *)
Lemma rwg_RUnlock_panic q w w' : RUnlock_step q w <> (Panic "rwlock: too many readers", w').
Proof.
  intros H. destruct q as [|st0|new|k]; simpl in H; try (case_match; by simplify_eq).
  destruct (wakeNext_step k w) as [r w2] eqn:E. destruct r as [|[]|e]; simplify_eq.
  by destruct (proj2 (proj2 (wakeNext_state _ _ _ _ E)) e).
Qed.

Lemma rwg_Unlock_panic q w w' : Unlock_step q w <> (Panic "rwlock: too many readers", w').
Proof.
  intros H. destruct q as [|st0| |k]; simpl in H; try (case_match; by simplify_eq); try by simplify_eq.
  destruct (wakeNext_step k w) as [r w2] eqn:E. destruct r as [|[]|e]; simplify_eq.
  by destruct (proj2 (proj2 (wakeNext_state _ _ _ _ E)) e).
Qed.

Lemma rwg_run_phase k w ths t th o th' w' p :
  Live (w, ths) -> Live (w', <[t:=th']> ths) -> length ths = k -> Z.of_nat k < rwLockMaxReaders ->
  Forall (phased phaseOf pairsOf) ths -> Forall (loadedAtMost k) ths ->
  ths !! t = Some th -> phaseOf p th -> rwrun o th w = Some (th', w') ->
  loadedAtMost k th' /\ exists p', follows p p' /\ phaseOf p' th'.
Proof.
  intros HL [[_ Hwf _] _ _ _ _ _ _ _] Hk Hlim Hph Hload Ht Hp Hr. simpl in Hwf.
  assert (Hw : wellFormed th').
  { apply (Forall_lookup_1 _ _ t _ Hwf). apply list_lookup_insert_eq. by eapply lookup_lt_Some. }
  assert (Hst : writerActive (state (prim w)) = false -> state (prim w) <= Z.of_nat k).
  { pose proof (inv_state _ (live_inv _ HL)) as Hs. simpl in Hs.
    assert (sumf rholds ths <= Z.of_nat k).
    { rewrite <- Hk. clear - Hph. induction Hph as [|x l Hx _ IH]; simpl; [lia|]. apply rwg_phased_rholds in Hx. lia. }
    destruct Hs as [(-> & _)|(-> & _)]; [done|]. by vm_compute. }
  pose proof (Forall_lookup_1 _ _ _ _ Hload Ht) as Hl. destruct Hw as [_ Hw].
  destruct th as [f st rh wh]. unfold rwrun, loadedAtMost, isIdle in *. simpl in *.
  destruct p as [|[]|[]|]; try done; simpl in Hp; unfold isIdle in *; simpl in *.
  - by destruct Hp as ([r ->] & _).
  - destruct Hp as ([q ->] & -> & ->). destruct (RLock_step st o q w) as [[r w2]|] eqn:E; [|done]. simpl in Hr.
    injection Hr as <- <-.
    destruct q; simpl in E; inv_step E; simplify_eq; simpl in *; bool_facts;
      try (split; [by auto|]; (exists (Entering OpRLock); simpl; by eauto 8) || (exists (Inside OpRLock); simpl; unfold isIdle; by eauto 8)).
    exfalso. lia.
  - destruct Hp as ([q ->] & -> & ->). destruct (Lock_step st o q w) as [[r w2]|] eqn:E; [|done]. simpl in Hr.
    injection Hr as <- <-.
    destruct q; simpl in E; inv_step E; simplify_eq; simpl in *; bool_facts;
      try (split; [by auto|]; (exists (Entering OpLock); simpl; by eauto 8) || (exists (Inside OpLock); simpl; unfold isIdle; by eauto 8)).
  - by destruct Hp as ([r ->] & _).
  - by destruct Hp as ([r ->] & _).
  - destruct Hp as ([[q ->]|[q ->]] & -> & ->); [destruct (RUnlock_step q w) as [r w2] eqn:E|destruct (Unlock_step q w) as [r w2] eqn:E];
      injection Hr as <- <-; (destruct r as [q'|b|e]; [| |simpl in Hw; subst; by apply rwg_RUnlock_panic in E || apply rwg_Unlock_panic in E]);
      (split; [done|]);
      [exists Leaving|exists Outside|exists Leaving|exists Outside]; simpl; unfold isIdle; eauto 8.
Qed.

#[export] Instance rwGuard : Guard rwlock.
Proof.
  refine {|
    gstart k := initial k 0;
    ginv k c := Live c /\ length c.2 = k /\ Forall (loadedAtMost k) c.2;
    pairs := pairsOf;
    at_phase := phaseOf;
    returned th := match frm th with FIdle _ => true | _ => false end;
    conflict e e' := e = OpLock \/ e' = OpLock;
    glimit := rwLockMaxReaders
  |}.
  - intros k _. simpl. rewrite length_replicate. split_and!; try done; [|by apply Forall_replicate..|].
    + apply (rw_reach_Live k 0). constructor.
    + apply Forall_replicate. simpl. unfold isIdle. simpl. eauto.
  - intros [|[]|[]|] th; simpl; try done; unfold isIdle; try (by intros ([r ->] & _)). by intros ([[p ->]|[p ->]] & _).
  - intros e th Hi Ho. destruct e; try done; simpl in *; lia.
  - intros e l now th Hp ([r Hr] & H1 & H2). unfold rwlock, call, rwcall. rewrite Hr.
    destruct Hp as [[-> _]|[-> _]]; (eexists; split; [done|]); simpl; eauto.
  - intros e l now th Hp Hi. unfold rwlock, call, rwcall.
    destruct Hp as [[-> ->]|[-> ->]]; destruct Hi as ([r Hr] & H1 & H2); rewrite Hr, ?H1, ?H2;
      (eexists; split; [done|]); simpl; eauto.
  - intros k sh ths t op now th th' _ (HL & Hk & Hload) _ Ht Hc.
    split_and!; [by eapply rw_Live_call|simpl in *; by rewrite length_insert|]. simpl in *.
    apply Forall_insert; [done|]. unfold rwcall, loadedAtMost in *. destruct (frm th); try done.
    destruct op; simplify_eq; try done; case_match; by simplify_eq.
  - intros k sh ths t p o th th' sh' Hlim (HL & Hk & Hload) Hph Ht Hp Hr.
    pose proof (rw_Live_run _ _ _ _ _ _ _ HL Ht Hr) as HL'. simpl in *.
    destruct (rwg_run_phase k _ _ _ _ _ _ _ _ HL HL' Hk Hlim Hph Hload Ht Hp Hr) as [Hl' Hp'].
    split; [|done]. split_and!; [done|by rewrite length_insert|by apply Forall_insert].
  - intros k sh ths _ (HL & Hk & _) Hph Hn. pose proof (inv_threads _ (live_inv _ HL)) as Hwf. simpl in *.
    apply (stuck_rest _ _ (resting (store sh)) (parked (store sh)) (fun th => 0 < rheld th \/ 0 < wheld th) _ Hph).
    + intros t th p Ht Hp. apply rwg_blocked; [by apply (Forall_lookup_1 _ _ _ _ Hwf Ht)|done|].
      by apply (Forall_lookup_1 _ _ _ _ Hn Ht).
    + intros t th. by apply rw_rest.
    + intros t th _. apply rwg_phased_held.
  - intros k sh ths i j a b e e' _ (HL & _) Hi Hj Hne Ha Hb Hc. pose proof (live_inv _ HL) as [Hs Hwf _]. simpl in *.
    pose proof (sumf_two_F wholds _ wholds_nonneg _ _ _ _ _ Hwf Hne Hi Hj).
    pose proof (sumf_two_F rholds _ rholds_nonneg _ _ _ _ _ Hwf Hne Hi Hj).
    pose proof (wheld_le a). pose proof (wheld_le b). pose proof (rheld_le a). pose proof (rheld_le b).
    pose proof (wholds_nonneg a (Forall_lookup_1 _ _ _ _ Hwf Hi)). pose proof (wholds_nonneg b (Forall_lookup_1 _ _ _ _ Hwf Hj)).
    unfold stateOk in Hs. destruct Hc as [-> | ->]; [destruct e'; try done|destruct e; try done]; simpl in Ha, Hb; lia.
Defined.
End RWGuard.

(** ** FairRWLock *)
Module FairGuard.
Import RWLock FairQueue FairRWLock FairLive.

Definition isIdle (th : thread) : Prop := exists r, frm th = FIdle r.

Definition phaseOf (p : phase rwop) (th : thread) : Prop :=
  match p with
  | Outside => isIdle th /\ rheld th = 0 /\ wheld th = 0
  | Entering OpRLock => (exists p, frm th = FRLock p) /\ rheld th = 0 /\ wheld th = 0
  | Entering OpLock => (exists p, frm th = FLock p) /\ rheld th = 0 /\ wheld th = 0
  | Inside OpRLock => isIdle th /\ rheld th = 1 /\ wheld th = 0
  | Inside OpLock => isIdle th /\ rheld th = 0 /\ wheld th = 1
  | Leaving => ((exists p, frm th = FRUnlock p) \/ exists p, frm th = FUnlock p) /\ rheld th = 0 /\ wheld th = 0
  | _ => False
  end.

Definition pairsOf (e l : rwop) : Prop := e = OpRLock /\ l = OpRUnlock \/ e = OpLock /\ l = OpUnlock.

Lemma fg_phased_held th : phased phaseOf pairsOf th -> 0 < rheld th \/ 0 < wheld th -> exists e, phaseOf (Inside e) th.
Proof.
  intros ([|e|e|] & Hp & He) Hh; simpl in *; try lia.
  - destruct e; try done; lia.
  - by exists e.
Qed.

(** In a section a goroutine counts for one reader at most. *)
Lemma fg_phased_rholds th : phased phaseOf pairsOf th -> rholds th <= 1.
Proof.
  unfold rholds, isIdle. intros ([|[]|[]|] & Hp & _); simpl in *; try done; unfold isIdle in *;
    try (destruct Hp as ([r ->] & -> & _); simpl; lia);
    try (destruct Hp as ([p ->] & -> & _); destruct p; simpl; lia).
  destruct Hp as ([[p ->]|[p ->]] & -> & _); [destruct p|]; simpl; lia.
Qed.

(** The number of readers a goroutine has loaded. *)
Definition loadedAtMost (k : nat) (th : thread) : Prop :=
  match frm th with FRLock (REmpty st) => st <= Z.of_nat k | _ => True end.

Lemma fg_blocked w th p :
  wellFormed th -> phaseOf p th -> (forall o, frun o th w = None) ->
  resting (fh w) th /\ p <> Leaving /\ (forall e, p = Entering e -> parked (fh w) th).
Proof.
  intros [_ Hwf] Hp Hn. specialize (Hn (Oracle false 0 0)). unfold resting, isIdle in *.
  destruct p as [|e|e|].
  - destruct Hp as [Hr _]. by split_and!; [right|..].
  - assert (HP : parked (fh w) th); [|split_and!; auto].
    destruct e; try done; destruct Hp as [[q Hq] _]; unfold parked, waitingOn, frun in *; rewrite Hq in *;
      destruct q; simpl in *; try done; try (repeat case_match; tauto || done);
      (eexists; split; [done|]; by apply wait_blocked; destruct (wait _ _)).
  - destruct e; try done; destruct Hp as [Hr _]; by split_and!; [right|..].
  - unfold frun in Hn. exfalso. destruct Hp as [[[q Hq]|[q Hq]] _]; rewrite Hq in Hn;
      [by destruct (RUnlock_step q w)|by destruct (Unlock_step q w)].
Qed.

(** The calls that release know nothing of the limit on readers. *)
Lemma fg_RUnlock_panic q w w' : RUnlock_step q w <> (Panic "fairrwlock: too many readers", w').
Proof.
  intros H. destruct q as [|st0|new|k]; simpl in H; try (case_match; by simplify_eq).
  destruct (wakeNextWaiters_step k w) as [r w2] eqn:E. destruct r as [|[]|e]; simplify_eq.
  by destruct (proj2 (proj2 (wakeNextWaiters_state _ _ _ _ E)) e).
Qed.

Lemma fg_Unlock_panic q w w' : Unlock_step q w <> (Panic "fairrwlock: too many readers", w').
Proof.
  intros H. destruct q as [| | |k]; simpl in H; try (case_match; by simplify_eq); try by simplify_eq.
  destruct (wakeNextWaiters_step k w) as [r w2] eqn:E. destruct r as [|[]|e]; simplify_eq.
  by destruct (proj2 (proj2 (wakeNextWaiters_state _ _ _ _ E)) e).
Qed.

Lemma fg_run_phase k w ths t th o th' w' p :
  FairInv (w, ths) -> FairInv (w', <[t:=th']> ths) -> length ths = k -> Z.of_nat k < rwLockMaxReaders ->
  Forall (phased phaseOf pairsOf) ths -> Forall (loadedAtMost k) ths ->
  ths !! t = Some th -> phaseOf p th -> frun o th w = Some (th', w') ->
  loadedAtMost k th' /\ exists p', follows p p' /\ phaseOf p' th'.
Proof.
  intros HL [[_ _ Hwf] _ _ _] Hk Hlim Hph Hload Ht Hp Hr. simpl in Hwf.
  assert (Hw : wellFormed th').
  { apply (Forall_lookup_1 _ _ t _ Hwf). apply list_lookup_insert_eq. by eapply lookup_lt_Some. }
  assert (Hst : writerActive (state (lk w)) = false -> state (lk w) <= Z.of_nat k).
  { pose proof (inv_state _ (fi_inv _ HL)) as Hs. simpl in Hs.
    assert (sumf rholds ths <= Z.of_nat k).
    { rewrite <- Hk. clear - Hph. induction Hph as [|x l Hx _ IH]; simpl; [lia|]. apply fg_phased_rholds in Hx. lia. }
    destruct Hs as [(-> & _)|(-> & _)]; [done|]. by vm_compute. }
  pose proof (Forall_lookup_1 _ _ _ _ Hload Ht) as Hl. destruct Hw as [_ Hw].
  destruct th as [f st rh wh]. unfold frun, loadedAtMost, isIdle in *. simpl in *.
  destruct p as [|[]|[]|]; try done; simpl in Hp; unfold isIdle in *; simpl in *.
  - by destruct Hp as ([r ->] & _).
  - destruct Hp as ([q ->] & -> & ->). destruct (RLock_step st o q w) as [[r w2]|] eqn:E; [|done]. simpl in Hr.
    injection Hr as <- <-.
    destruct q; simpl in E; inv_step E; simplify_eq; simpl in *; bool_facts;
      try (split; [by auto|]; (exists (Entering OpRLock); simpl; by eauto 8) || (exists (Inside OpRLock); simpl; unfold isIdle; by eauto 8)).
    all: exfalso; first [lia|specialize (Hst eq_refl); lia|
      match goal with H : peek_step _ _ _ = (Panic ?e, _) |- _ => by apply (peek_no_panic _ _ _ _ _ e H) end].
  - destruct Hp as ([q ->] & -> & ->). destruct (Lock_step st o q w) as [[r w2]|] eqn:E; [|done]. simpl in Hr.
    injection Hr as <- <-.
    destruct q; simpl in E; inv_step E; simplify_eq; simpl in *; bool_facts;
      try (split; [by auto|]; (exists (Entering OpLock); simpl; by eauto 8) || (exists (Inside OpLock); simpl; unfold isIdle; by eauto 8)).
    all: exfalso; first [lia|specialize (Hst eq_refl); lia|
      match goal with H : peek_step _ _ _ = (Panic ?e, _) |- _ => by apply (peek_no_panic _ _ _ _ _ e H) end].
  - by destruct Hp as ([r ->] & _).
  - by destruct Hp as ([r ->] & _).
  - destruct Hp as ([[q ->]|[q ->]] & -> & ->); [destruct (RUnlock_step q w) as [r w2] eqn:E|destruct (Unlock_step q w) as [r w2] eqn:E];
      injection Hr as <- <-; (destruct r as [q'|b|e]; [| |simpl in Hw; subst; by apply fg_RUnlock_panic in E || apply fg_Unlock_panic in E]);
      (split; [done|]);
      [exists Leaving|exists Outside|exists Leaving|exists Outside]; simpl; unfold isIdle; eauto 8.
Qed.

#[export] Instance fairGuard : Guard fairrwlock.
Proof.
  refine {|
    gstart k := initial k 0;
    ginv k c := FairInv c /\ length c.2 = k /\ Forall (loadedAtMost k) c.2;
    pairs := pairsOf;
    at_phase := phaseOf;
    returned th := match frm th with FIdle _ => true | _ => false end;
    conflict e e' := e = OpLock \/ e' = OpLock;
    glimit := rwLockMaxReaders
  |}.
  - intros k _. simpl. rewrite length_replicate. split_and!; try done; [|by apply Forall_replicate..|].
    + apply (reach_FairInv k 0). constructor.
    + apply Forall_replicate. simpl. unfold isIdle. simpl. eauto.
  - intros [|[]|[]|] th; simpl; try done; unfold isIdle; try (by intros ([r ->] & _)). by intros ([[p ->]|[p ->]] & _).
  - intros e th Hi Ho. destruct e; try done; simpl in *; lia.
  - intros e l now th Hp ([r Hr] & H1 & H2). unfold fairrwlock, call, fcall. rewrite Hr.
    destruct Hp as [[-> _]|[-> _]]; (eexists; split; [done|]); simpl; eauto.
  - intros e l now th Hp Hi. unfold fairrwlock, call, fcall.
    destruct Hp as [[-> ->]|[-> ->]]; destruct Hi as ([r Hr] & H1 & H2); rewrite Hr, ?H1, ?H2;
      (eexists; split; [done|]); simpl; eauto.
  - intros k sh ths t op now th th' _ (HL & Hk & Hload) _ Ht Hc.
    split_and!; [by eapply FairInv_call|simpl in *; by rewrite length_insert|]. simpl in *.
    apply Forall_insert; [done|]. unfold fcall, loadedAtMost in *. destruct (frm th); try done.
    destruct op; simplify_eq; try done; case_match; by simplify_eq.
  - intros k sh ths t p o th th' sh' Hlim (HL & Hk & Hload) Hph Ht Hp Hr.
    pose proof (FairInv_run _ _ _ _ _ _ _ HL Ht Hr) as HL'. simpl in *.
    destruct (fg_run_phase k _ _ _ _ _ _ _ _ HL HL' Hk Hlim Hph Hload Ht Hp Hr) as [Hl' Hp'].
    split; [|done]. split_and!; [done|by rewrite length_insert|by apply Forall_insert].
  - intros k sh ths _ (HL & Hk & _) Hph Hn. pose proof (inv_threads _ (fi_inv _ HL)) as Hwf. simpl in *.
    apply (stuck_rest _ _ (resting (fh sh)) (parked (fh sh)) (fun th => 0 < rheld th \/ 0 < wheld th) _ Hph).
    + intros t th p Ht Hp. apply fg_blocked; [by apply (Forall_lookup_1 _ _ _ _ Hwf Ht)|done|].
      by apply (Forall_lookup_1 _ _ _ _ Hn Ht).
    + intros t th. by apply fair_rest.
    + intros t th _. apply fg_phased_held.
  - intros k sh ths i j a b e e' _ (HL & _) Hi Hj Hne Ha Hb Hc. pose proof (fi_inv _ HL) as [Hs _ Hwf]. simpl in *.
    pose proof (sumf_two_F wholds _ fair_wholds_nonneg _ _ _ _ _ Hwf Hne Hi Hj).
    pose proof (sumf_two_F rholds _ fair_rholds_nonneg _ _ _ _ _ Hwf Hne Hi Hj).
    pose proof (fair_wheld_le a). pose proof (fair_wheld_le b). pose proof (fair_rheld_le a). pose proof (fair_rheld_le b).
    pose proof (fair_wholds_nonneg a (Forall_lookup_1 _ _ _ _ Hwf Hi)). pose proof (fair_wholds_nonneg b (Forall_lookup_1 _ _ _ _ Hwf Hj)).
    unfold stateOk in Hs. destruct Hc as [-> | ->]; [destruct e'; try done|destruct e; try done]; simpl in Ha, Hb; lia.
Defined.
End FairGuard.

(** ** Semaphore

    A section may hold any number of permits up to the capacity. *)
Module SemGuard.
Import Semaphore.

Section Sem.
Context (cap now0 : Z) (s0 : Semaphore).
Context (Hcap : cap <= MaxInt32) (Hnew : NewSemaphore cap now0 = Some s0).

Definition phaseOf (p : phase sop) (th : thread) : Prop :=
  match p with
  | Outside => (frm th = FIdle None \/ frm th = FIdle (Some true)) /\ held th = 0
  | Entering (OpAcquire n) => (exists p, frm th = FAcquire n p) /\ held th = 0 /\ 1 <= n <= cap
  | Inside (OpAcquire n) => frm th = FIdle (Some true) /\ held th = n /\ 1 <= n <= cap
  | Leaving =>
      exists n p, frm th = FRelease n p /\ 1 <= n /\ held th = match p with REnter | RLoad | RCas _ => n | _ => 0 end
  | _ => False
  end.

Definition pairsOf (e l : sop) : Prop := exists n, e = OpAcquire n /\ l = OpRelease n /\ 1 <= n <= cap.

Lemma phase_held th p : phaseOf p th -> 0 < held th ->
  (exists e, phaseOf (Inside e) th) \/ phaseOf Leaving th.
Proof.
  intros Hp Hh. destruct p as [|[]|[]|]; try done; simpl in Hp; try lia; [left; by eexists (OpAcquire _)|by right].
Qed.

Lemma leaving_runs w th : phaseOf Leaving th -> exists o, srun o th w <> None.
Proof.
  intros (n & p & E & _). exists (Oracle false 0 0). unfold srun. rewrite E. by destruct (ReleaseN_step n p w).
Qed.

Lemma semg_blocked w th p :
  wellFormed cap true th -> phaseOf p th -> (forall o, srun o th w = None) ->
  resting (store w) th /\ p <> Leaving /\ (forall e, p = Entering e -> parked (store w) th).
Proof.
  intros [_ Hwf] Hp Hn. unfold resting. destruct p as [|e|e|].
  - destruct Hp as [[Hr|Hr] _]; by split_and!; [right; eauto|..].
  - destruct e as [n|n d|c n|n|n]; try done. destruct Hp as [[q Hq] _].
    assert (HP : parked (store w) th); [|split_and!; auto]. specialize (Hn (Oracle false 0 0)).
    unfold parked, waitingOn, srun in *. rewrite Hq in *. destruct q; simpl in *; try (repeat case_match; tauto || done).
    eexists. split; [done|]. by apply Wait_blocked; destruct (Wait _ _).
  - destruct e; try done. destruct Hp as [Hr _]. by split_and!; [right; eauto|..].
  - destruct (leaving_runs w th Hp) as [o Ho]. by destruct Ho.
Qed.

Lemma semg_run_phase w ths t th o th' w' p :
  Live cap (w, ths) -> ths !! t = Some th -> phaseOf p th -> srun o th w = Some (th', w') ->
  exists p', follows p p' /\ phaseOf p' th'.
Proof.
  intros HL Ht Hp Hr. pose proof (live_inv _ _ HL) as [[Hc _] Hcnt Hsum Hwf _]. simpl in *.
  destruct (Forall_lookup_1 _ _ _ _ Hwf Ht) as [Hh Hf]. specialize (Hh eq_refl).
  pose proof (sumf_le_F out _ (out_nonneg cap) _ _ _ Hwf Ht) as Hle.
  destruct th as [f st hd]. unfold srun, out in *. simpl in *.
  destruct p as [|[]|[]|]; try done; simpl in Hp.
  - by destruct Hp as [[-> | ->] _].
  - destruct Hp as ([q ->] & -> & Hn). destruct (AcquireN_step n st o q w) as [[r w2]|] eqn:E; [|done]. simpl in Hr.
    injection Hr as <- <-. destruct q; simpl in E; inv_step E; simplify_eq; simpl in *; bool_facts;
      try (exists (Entering (OpAcquire n)); simpl; by eauto 8); try (exists (Inside (OpAcquire n)); simpl; by eauto 8);
      exfalso; lia.
  - by destruct Hp as (-> & _).
  - destruct Hp as (n & q & -> & Hn & Hhd). destruct (ReleaseN_step n q w) as [r w2] eqn:E. injection Hr as <- <-.
    destruct q; simpl in E; simplify_eq; unfold MaxInt32 in *.
    + case_match; simplify_eq; bool_facts; [lia|]. exists Leaving. simpl. eauto 10.
    + rewrite add32_id in E by (unfold int32_range; lia). case_match; simplify_eq; bool_facts; [lia|].
      exists Leaving. simpl. eauto 10.
    + case_match; simplify_eq; exists Leaving; simpl; (split; [by left|]); eexists _, _; (split; [done|]); split; lia.
    + unfold wakeLoop. destruct (0 <? n); simpl; [exists Leaving|exists Outside]; simpl; eauto 10.
    + destruct (Dequeue_step _ _ _) as [[r1 q1] s1] eqn:E1. pose proof (fun m => Dequeue_no_panic _ _ _ _ _ _ m E1) as Hnp.
      unfold wakeLoop in E. destruct r1 as [|[]|m]; simplify_eq; [exists Leaving|exists Leaving| |by destruct (Hnp m)];
        simpl; eauto 10.
      destruct (_ <? n); [exists Leaving|exists Outside]; simpl; eauto 10.
    + unfold wakeLoop. destruct (_ <? n); simpl; [exists Leaving|exists Outside]; simpl; eauto 10.
Qed.

Definition semGuard : Guard (semaphore true).
Proof.
  refine {|
    gstart k := initial k s0;
    ginv k c := reach (semaphore true) patient (initial k s0) c /\ length c.2 = k;
    pairs := pairsOf;
    at_phase := phaseOf;
    returned th := match frm th with FIdle _ => true | _ => false end;
    conflict e e' := match e, e' with OpAcquire n, OpAcquire n' => cap < n + n' | _, _ => False end;
    glimit := 2147483648
  |}.
  - intros k _. simpl. rewrite length_replicate. split_and!; try done; [constructor|]. apply Forall_replicate. simpl. auto.
  - intros [|[]|[]|] th; simpl; try done.
    + by intros [[-> | ->] _].
    + by intros ([p ->] & _).
    + by intros (-> & _).
    + by intros (n & p & -> & _).
  - intros e th Hi Ho. destruct e; try done. simpl in *. lia.
  - intros e l now th (n & -> & -> & Hn) [Hr Hh]. unfold semaphore, call, scall.
    destruct Hr as [-> | ->]; (eexists; split; [done|]); simpl; eauto.
  - intros e l now th (n & -> & -> & Hn) (Hr & Hh & _). unfold semaphore, call, scall. rewrite Hr, Hh, Z.leb_refl. simpl.
    eexists. split; [done|]. simpl. eexists _, _. split; [done|]. simpl. lia.
  - intros k sh ths t op now th th' _ [HR Hk] (e & l & (n & -> & -> & _) & Ho) Ht Hc. simpl in *.
    split; [|by rewrite length_insert]. apply (reach_step _ _ _ (Call t op now) _ _ HR); [by destruct Ho as [-> | ->]|].
    by apply (exec_call _ _ _ _ _ _ th).
  - intros k sh ths t p o th th' sh' _ [HR Hk] _ Ht Hp Hr. simpl in *. split.
    + split; [|by rewrite length_insert]. apply (reach_step _ _ _ (Run t o) _ _ HR); [done|]. by apply (exec_run _ _ _ _ _ th).
    + apply (sem_reach_Live cap now0 s0 k _ Hcap Hnew) in HR. by eapply semg_run_phase.
  - intros k sh ths _ [HR Hk] Hph Hn. apply (sem_reach_Live cap now0 s0 k _ Hcap Hnew) in HR as HL.
    pose proof (inv_threads _ _ _ (live_inv _ _ HL)) as Hwf. simpl in *.
    apply (stuck_rest _ _ (resting (store sh)) (parked (store sh)) (fun th => 0 < held th) _ Hph).
    + intros t th p Ht Hp. apply semg_blocked; [by apply (Forall_lookup_1 _ _ _ _ Hwf Ht)|done|].
      by apply (Forall_lookup_1 _ _ _ _ Hn Ht).
    + intros t th HRs Ht Hp. by destruct (sem_rest cap sh ths t th HL HRs Ht Hp) as [_ ?].
    + intros t th Ht (p & Hp & _) Hh. destruct (phase_held th p Hp Hh) as [?|Hl]; [done|].
      destruct (leaving_runs sh th Hl) as [o Ho]. destruct Ho. by apply (Forall_lookup_1 _ _ _ _ Hn Ht).
  - intros k sh ths i j a b e e' _ [HR _] Hi Hj Hne Ha Hb Hc.
    apply (sem_reach_Live cap now0 s0 k _ Hcap Hnew) in HR as HL.
    pose proof (live_inv _ _ HL) as [_ Hcnt Hsum Hwf _]. simpl in *. destruct e as [n| | | |], e' as [n'| | | |]; try done.
    pose proof (sumf_two_F out _ (out_nonneg cap) _ _ _ _ _ Hwf Hne Hi Hj) as H2.
    destruct Ha as (Fa & Ea & _), Hb as (Fb & Eb & _). 
    assert (out a = n) by (unfold out; rewrite Fa; lia). assert (out b = n') by (unfold out; rewrite Fb; lia). lia.
Defined.
End Sem.
End SemGuard.
