(* ===== verification/Examples.v ===== *)
(** * The example programs (examples/rwlock, semaphore, barrier)

    Each program starts goroutines, waits for all of them and prints the
    statistics.  The goroutines of the first two run critical sections and
    are programs of Programs.v over the real lock and semaphore; the lines
    they print inside are part of the data, sleeps are left to the
    scheduler. *)

From Stdlib Require Import ZArith Lia.
From stdpp Require Import base list gmap strings pretty.
From S2P Require Import Prelude.
From S2P Require Import Waiter.
From S2P Require Import Semaphore.
From S2P Require Import RWLock.
From S2P Require Import Barrier.
From S2P Require Import Programs.
From S2P Require Import Guards.

#[local] Open Scope Z_scope.

(** ** examples/rwlock *)
Module RWExample.
Import RWGuard RWLock.

Inductive rwline := Reading (id : Z) (data : gmap string Z) | Wrote (id : Z) (key : string) (v : Z).

(** The map and what has been printed. *)
Record shared := mkShared { sharedData : gmap string Z; printed : list rwline }.

Definition numReaders : Z := 5.
Definition numWriters : Z := 2.

Definition writerKey (id : Z) : string := "writer" +:+ pretty id.

Definition readBody (id : Z) (_ : world RWLock) (d : shared) : shared :=
  mkShared (sharedData d) (printed d ++ [Reading id (sharedData d)]).

Definition writeBody (id j : Z) (_ : world RWLock) (d : shared) : shared :=
  let m := <[writerKey id:=id * 10 + j]> (sharedData d) in
  mkShared m (printed d ++ [Wrote id (writerKey id) (default 0 (m !! writerKey id))]).

Definition reader (id : Z) : list (csection (Sh:=world RWLock) (Op:=rwop) (D:=shared)) :=
  replicate 3 (Section_ OpRLock OpRUnlock (readBody id)).

Definition writer (id : Z) : list (csection (Sh:=world RWLock) (Op:=rwop) (D:=shared)) :=
  (fun j => Section_ OpLock OpUnlock (writeBody id j)) <$> seqZ 0 2.

Definition rwlock_goroutines : list (list csection) :=
  (reader <$> seqZ 0 numReaders) ++ (writer <$> seqZ 0 numWriters).

Definition rwlock_main : config := pstart rwlock rwlock_goroutines (mkShared ∅ []).

Lemma rw_goroutines_good : Forall (Forall (goodSection rwlock)) rwlock_goroutines.
Proof.
  unfold rwlock_goroutines. apply Forall_app. split; apply Forall_fmap, Forall_true; intros id.
  - apply Forall_replicate. by left.
  - apply Forall_fmap, Forall_true. intros j. by right.
Qed.

(** The part of the map a writer is responsible for; the writers are the
    goroutines 5 and 6. *)
Definition written (t : nat) (d : shared) : option Z :=
  if decide (t < 5)%nat then None else sharedData d !! writerKey (Z.of_nat t - 5).

Definition write (t i : nat) (v : option Z) : option Z :=
  if decide (t < 5)%nat then v else Some ((Z.of_nat t - 5) * 10 + Z.of_nat i).

Lemma writerKey_inj i j : writerKey i = writerKey j -> i = j.
Proof. unfold writerKey. intros H. simplify_eq. by apply (inj pretty). Qed.

Lemma written_step t u p i s sh d : rwlock_goroutines !! u = Some p -> p !! i = Some s ->
  written t (body s sh d) = if decide (t = u) then write t i (written t d) else written t d.
Proof.
  unfold rwlock_goroutines. intros [Hu|(Hlen & Hu)]%lookup_app_Some Hi; rewrite list_lookup_fmap in Hu;
    apply fmap_Some in Hu as (id & Hid & ->); apply lookup_seqZ in Hid as [-> Hlt].
  - apply lookup_replicate in Hi as [-> _]. unfold written, write, numReaders in *. simpl.
    repeat case_decide; try done; lia.
  - unfold writer in Hi. rewrite list_lookup_fmap in Hi. apply fmap_Some in Hi as (j & Hj & ->).
    apply lookup_seqZ in Hj as [-> _]. change (length (reader <$> seqZ 0 numReaders)) with 5%nat in *.
    unfold written, write. simpl. destruct (decide (t < 5)%nat) as [|Hn]; [by case_decide|].
    destruct (decide (t = u)) as [-> |Hne].
    + replace (Z.of_nat u - 5) with (0 + Z.of_nat (u - 5)) by lia. rewrite lookup_insert_eq. done.
    + rewrite lookup_insert_ne; [done|]. intros E%writerKey_inj. lia.
Qed.

(** Only the writers put keys into the map. *)
Definition keysOk (d : shared) : Prop := forall k, is_Some (sharedData d !! k) -> k = "writer0" \/ k = "writer1".

Lemma goroutine_sections t p s : rwlock_goroutines !! t = Some p -> s ∈ p ->
  (exists id, s = Section_ OpRLock OpRUnlock (readBody id)) \/
  exists id j, 0 <= id < 2 /\ s = Section_ OpLock OpUnlock (writeBody id j).
Proof.
  unfold rwlock_goroutines. intros [Hu|(Hlen & Hu)]%lookup_app_Some Hs; rewrite list_lookup_fmap in Hu;
    apply fmap_Some in Hu as (id & Hid & ->); apply lookup_seqZ in Hid as [-> Hlt].
  - apply elem_of_replicate in Hs as [-> _]. eauto.
  - apply list_elem_of_fmap in Hs as (j & -> & _). right. eexists _, j. split; [|done].
    change (length (reader <$> seqZ 0 numReaders)) with 5%nat in *. unfold numWriters in *. lia.
Qed.

Lemma keysOk_reach c : reach (program rwlock) any_label rwlock_main c -> keysOk c.1.2.
Proof.
  apply data_invariant; [by vm_compute|exact rw_goroutines_good|by intros k [v H]|].
  intros sh d gs t g p s rest _ _ Hp Hs _ _ HQ k.
  destruct (goroutine_sections t p s Hp Hs) as [[id ->]|(id & j & Hid & ->)]; simpl; [by apply HQ|].
  intros [v [[<- _]|[_ ?]]%lookup_insert_Some]; [|by apply HQ; exists v].
  assert (id = 0 \/ id = 1) as [-> | ->] by lia; auto.
Qed.

(** C14: the program of examples/rwlock is free of races and deadlocks and
    computes what it should.  In every interleaving of its seven goroutines
    over the steps of the lock, two goroutines that access the map at the
    same time are both readers; the goroutines come to a stop only when all
    of them are through; and then the map holds the last value of each of
    the two writers and nothing else. *)
Theorem rwlock_example w gs :
  reach (program rwlock) any_label rwlock_main (w, gs) ->
  (forall i j a b s s', gs !! i = Some a -> gs !! j = Some b -> i <> j -> stg a = SBody -> stg b = SBody ->
     head (todo a) = Some s -> head (todo b) = Some s' -> enter s <> OpLock /\ enter s' <> OpLock) /\
  ((forall t g o, gs !! t = Some g -> prun rwlock o g w = None) ->
     Forall through gs /\ sharedData w.2 = {["writer0":=1; "writer1":=11]}).
Proof.
  intros Hr. assert (Hlim : Z.of_nat (length rwlock_goroutines) < glimit (m:=rwlock)) by by vm_compute.
  pose proof (reach_PInv rwlock rwlock_goroutines Hlim _ _ rw_goroutines_good Hr) as HI. destruct w as [sh d]. split.
  - intros i j a b s s' Hi Hj Hne Ha Hb Es Es'.
    pose proof (bodies_apart rwlock rwlock_goroutines Hlim _ _ _ _ _ _ _ _ _ HI Hi Hj Hne Ha Hb Es Es') as Hc.
    split; intros E; apply Hc; simpl; auto.
  - intros Hstuck. pose proof (program_progress rwlock rwlock_goroutines Hlim _ _ _ HI Hstuck) as Hf. split; [done|].
    assert (Hw : forall t, (t < 7)%nat -> written t d = if decide (t < 5)%nat then None else Some ((Z.of_nat t - 5) * 10 + 1)).
    { intros t Ht. pose proof (pi_length _ _ _ HI) as Hl. simpl in Hl.
      destruct (lookup_lt_is_Some_2 gs t) as [g Hg]; [rewrite Hl; exact Ht|].
      destruct (view_done rwlock rwlock_goroutines written write _ _ written_step Hr t g Hg) as (ran & Hp & Hv).
      pose proof (Forall_lookup_1 _ _ _ _ Hf Hg) as E. unfold through in E.
      assert (passed g = []) as Eg by (unfold passed; rewrite E; by destruct (stg g)).
      simpl in Hv. rewrite Eg, app_nil_r in Hv. rewrite E, app_nil_r in Hp. rewrite Hv. clear - Ht Hp.
      do 7 (destruct t as [|t]; [injection Hp as <-; reflexivity|]). lia. }
    pose proof (keysOk_reach _ Hr) as HK. simpl in HK. apply map_eq. intros k.
    destruct (decide (k = "writer0")) as [-> |H0]; [exact (Hw 5%nat ltac:(lia))|].
    destruct (decide (k = "writer1")) as [-> |H1]; [exact (Hw 6%nat ltac:(lia))|].
    rewrite lookup_insert_ne, lookup_singleton_ne by done. destruct (sharedData d !! k) eqn:E; [|done].
    destruct (HK k) as [? | ?]; [by rewrite E|done..].
Qed.

(** One goroutine after the other. *)
Definition oneByOne : list (label rwop) :=
  runs 0 45 ++ runs 1 45 ++ runs 2 45 ++ runs 3 45 ++ runs 4 45 ++ runs 5 28 ++ runs 6 28.

Lemma rwlock_example_witness :
  sharedData (after (program rwlock) oneByOne rwlock_main).1.2 = {["writer0":=1; "writer1":=11]}.
Proof.
  apply (rwlock_example (after (program rwlock) oneByOne rwlock_main).1 (after (program rwlock) oneByOne rwlock_main).2).
  - apply after_reach; [apply Forall_any|by_eval].
  - intros t g o Hg. do 7 (destruct t as [|t]; [vm_compute in Hg; injection Hg as <-; reflexivity|]).
    by vm_compute in Hg.
Defined.
End RWExample.

(** ** examples/semaphore *)
Module SemExample.
Import SemGuard Semaphore.

Definition semWorkers : Z := 10.

(** "[Worker %d] Acquired! Working... (Available: %d)" *)
Inductive semline := Acquired (id available : Z).

Definition capacity3 : Semaphore := Eval vm_compute in default (mkSemaphore 0 0 NewWaiterQueue 0 0 0 0 0 0) (NewSemaphore 3 0).

Lemma capacity3_new : NewSemaphore 3 0 = Some capacity3.
Proof. reflexivity. Qed.

#[export] Instance guard3 : Guard (semaphore true) := semGuard 3 0 capacity3 ltac:(by vm_compute) capacity3_new.

Definition semWork (id : Z) (w : world Semaphore) (d : list semline) : list semline := d ++ [Acquired id (GetCount (prim w))].

Definition semWorker (id : Z) : list (csection (Sh:=world Semaphore) (Op:=sop) (D:=list semline)) :=
  [Section_ (OpAcquire 1) (OpRelease 1) (semWork id)].

Definition semaphore_goroutines : list (list csection) := semWorker <$> seqZ 0 semWorkers.

Definition semaphore_main : config := pstart (semaphore true) semaphore_goroutines [].

Definition working {D} (g : goroutine (Sh:=world Semaphore) (Th:=thread) (Op:=sop) (D:=D)) : Prop :=
  stg g = SBody \/ stg g = SLeave.

#[export] Instance working_dec {D} (g : goroutine (D:=D)) : Decision (working g).
Proof. unfold working. destruct (stg g); solve [left; auto|right; intros [?|?]; done]. Defined.

Lemma sem_goroutines_good : Forall (Forall (goodSection (semaphore true))) semaphore_goroutines.
Proof. apply Forall_fmap, Forall_true. intros id. repeat constructor. exists 1. by split_and!. Qed.

Lemma goroutine_at t p : semaphore_goroutines !! t = Some p -> p = semWorker (Z.of_nat t) /\ (t < 10)%nat.
Proof.
  unfold semaphore_goroutines. rewrite list_lookup_fmap. intros (id & Hid & ->)%fmap_Some.
  apply lookup_seqZ in Hid as [-> Hlt]. unfold semWorkers in Hlt. split; [done|lia].
Qed.

Lemma limit3 : Z.of_nat (length semaphore_goroutines) < glimit (m:=semaphore true).
Proof. by vm_compute. Qed.

Abbreviation PInv3 := (PInv (D:=list semline) (semaphore true) semaphore_goroutines).

Lemma PInv_permits c : PInv3 c ->
  0 <= count (prim c.1.1) <= 3 /\ count (prim c.1.1) + sumf out (gth <$> c.2) = 3 /\
  Forall (fun g => 0 <= out (gth g)) c.2.
Proof.
  intros HI. destruct (pi_prim _ _ _ HI) as [Hr _].
  apply (sem_reach_Live 3 0 capacity3 _ _ ltac:(by vm_compute) capacity3_new) in Hr as [[_ Hc Hs Hwf _] _ _ _]. simpl in *.
  split_and!; try lia. rewrite Forall_fmap in Hwf. apply (Forall_impl _ _ _ Hwf). intros g. apply out_nonneg.
Qed.

Lemma working_out (g : goroutine (D:=list semline)) : agrees (semaphore true) g -> working g -> 1 <= out (gth g).
Proof.
  intros [Hs Ha] Hw. destruct (todo g) as [|[e l b] rest]; [by destruct Hw as [Hw|Hw]; rewrite Hw in Ha|].
  assert (Hi : phaseOf 3 (Inside e) (gth g)) by (by destruct Hw as [Hw|Hw]; rewrite Hw in Ha).
  destruct e; try done. destruct Hi as (Hf & Hh & Hn). unfold out. rewrite Hf. lia.
Qed.

Lemma through_out (g : goroutine (D:=list semline)) : agrees (semaphore true) g -> through g -> out (gth g) = 0.
Proof.
  intros [Hs Ha] E. unfold through in E. rewrite E in Ha. destruct (stg g); try done.
  destruct Ha as [[Hf|Hf] Hh]; unfold out; rewrite Hf; lia.
Qed.

Lemma working_count (gs : list (goroutine (D:=list semline))) :
  Forall (agrees (semaphore true)) gs -> Forall (fun g => 0 <= out (gth g)) gs ->
  Z.of_nat (length (filter working gs)) <= sumf out (gth <$> gs).
Proof.
  induction gs as [|g gs IH]; intros Ha Ho; [simpl; lia|]. apply Forall_cons in Ha as [Ha Has], Ho as [Ho Hos].
  specialize (IH Has Hos). rewrite filter_cons.
  change (sumf out (gth <$> g :: gs)) with (out (gth g) + sumf out (gth <$> gs)).
  case_decide as Hw; [|lia]. pose proof (working_out g Ha Hw). cbn [length]. lia.
Qed.

Definition lineId (l : semline) : Z := match l with Acquired id _ => id end.

Definition linesOf (t : nat) (d : list semline) : nat := length (filter (fun l => lineId l = Z.of_nat t) d).

Lemma linesOf_step t u p i s sh d : semaphore_goroutines !! u = Some p -> p !! i = Some s ->
  linesOf t (body s sh d) = if decide (t = u) then S (linesOf t d) else linesOf t d.
Proof.
  intros [-> _]%goroutine_at Hi. destruct i; [|done]. injection Hi as <-. unfold linesOf. cbn [body]. unfold semWork.
  rewrite filter_app, length_app, filter_cons, filter_nil. cbn [lineId].
  destruct (decide (t = u)) as [-> |Hne]; [rewrite decide_True by done; simpl; lia|].
  rewrite decide_False by lia. simpl. lia.
Qed.

(** The program of examples/semaphore keeps its promise.  In every
    interleaving of its ten workers over the steps of the semaphore at most
    three work at the same time, the number of permits a worker prints is
    between 0 and 2, and the workers come to a stop only when all are through;
    then each has printed one line and the semaphore has its three permits
    again. *)
Theorem semaphore_example w gs :
  reach (program (semaphore true)) any_label semaphore_main (w, gs) ->
  (length (filter working gs) <= 3)%nat /\
  Forall (fun l => match l with Acquired _ available => 0 <= available <= 2 end) w.2 /\
  ((forall t g o, gs !! t = Some g -> prun (semaphore true) o g w = None) ->
     Forall through gs /\ GetCount (prim w.1) = 3 /\ forall t, (t < 10)%nat -> linesOf t w.2 = 1%nat).
Proof.
  intros Hr. pose proof (reach_PInv _ semaphore_goroutines limit3 _ _ sem_goroutines_good Hr) as HI. destruct w as [sh d].
  destruct (PInv_permits _ HI) as (Hc & Hs & Ho). pose proof (pi_agrees _ _ _ HI) as Ha. simpl in *. split_and!.
  - pose proof (working_count gs Ha Ho). lia.
  - apply (data_invariant _ semaphore_goroutines limit3 (Forall (fun l => match l with Acquired _ v => 0 <= v <= 2 end)) _ _
      sem_goroutines_good (Forall_nil_2 _)) in Hr; [exact Hr|].
    clear. intros sh d gs t g p s rest HI Ht Hp Hs Et Es HQ. apply goroutine_at in Hp as [-> _].
    apply list_elem_of_singleton in Hs as ->. simpl. apply Forall_app. split; [done|]. constructor; [|done].
    destruct (PInv_permits _ HI) as (Hc & Hsum & Ho). simpl in *. unfold GetCount.
    pose proof (working_out g (Forall_lookup_1 _ _ _ _ (pi_agrees _ _ _ HI) Ht) (or_introl Es)).
    assert (sumf out (gth <$> gs) >= out (gth g)); [|lia].
    pose proof (sumf_le_F out (fun th => 0 <= out th) (fun _ H => H) (gth <$> gs) t (gth g)) as Hle.
    apply Z.le_ge, Hle; [by apply Forall_fmap|by apply gth_lookup].
  - intros Hstuck. pose proof (program_progress _ semaphore_goroutines limit3 _ _ _ HI Hstuck) as Hf. split; [done|]. split.
    + assert (sumf out (gth <$> gs) = 0); [|unfold GetCount; lia]. clear - Ha Hf.
      induction gs as [|g gs IH]; [done|]. apply Forall_cons in Ha as [Hg Ha], Hf as [Hg' Hf]. 
      change (sumf out (gth <$> g :: gs)) with (out (gth g) + sumf out (gth <$> gs)).
      rewrite (through_out g Hg Hg'). by rewrite IH.
    + intros t Ht. pose proof (pi_length _ _ _ HI) as Hl. simpl in Hl.
      destruct (lookup_lt_is_Some_2 gs t) as [g Hg]; [rewrite Hl; exact Ht|].
      destruct (view_done _ semaphore_goroutines linesOf (fun _ _ => S) _ _ linesOf_step Hr t g Hg) as (ran & Hp & Hv).
      pose proof (Forall_lookup_1 _ _ _ _ Hf Hg) as E. unfold through in E.
      assert (passed g = []) as Eg by (unfold passed; rewrite E; by destruct (stg g)).
      simpl in Hv. rewrite Eg, app_nil_r in Hv. rewrite E, app_nil_r in Hp. apply goroutine_at in Hp as [-> _].
      exact Hv.
Qed.

(** One worker after the other. *)
Definition oneByOne : list (label sop) := mjoin ((fun t => runs t 14) <$> seq 0 10).

Lemma semaphore_example_witness : GetCount (prim (after (program (semaphore true)) oneByOne semaphore_main).1.1) = 3.
Proof.
  apply (semaphore_example (after (program (semaphore true)) oneByOne semaphore_main).1
    (after (program (semaphore true)) oneByOne semaphore_main).2).
  - apply after_reach; [apply Forall_any|by_eval].
  - intros t g o Hg. do 10 (destruct t as [|t]; [vm_compute in Hg; injection Hg as <-; reflexivity|]).
    by vm_compute in Hg.
Defined.
End SemExample.

(** ** examples/barrier

    Five workers call [Wait] three times each; what they print is left out. *)
Module BarrierExample.
Import Barrier.

Definition numWorkers : nat := 5.
Definition numPhases : nat := 3.

(** A worker: inside a call of [Wait] or between two, and the phases left. *)
Definition worker : Type := frame * nat.

Definition work (o : oracle) (g : worker) (w : world Barrier) : option (worker * world Barrier) :=
  match g.1 with
  | FIdle _ =>
      match g.2 with
      | O => None
      | S n => f ← bcall OpWait (clk o) g.1; Some ((f, n), w)
      end
  | _ => '(f, w) ← brun o g.1 w; Some ((f, g.2), w)
  end.

Definition workers : machine (world Barrier) worker bop := Machine (fun _ _ _ => None) work cancelCtx.

Definition barrier5 : Barrier := mkBarrier 5 0 0 NewWaiterQueue false 0 0 0.

Lemma barrier5_new : NewBarrier (Z.of_nat numWorkers) 0 = Some barrier5.
Proof. reflexivity. Qed.

Definition barrier_main : config := (World barrier5 emptyStore ∅, replicate numWorkers (FIdle None, numPhases)).

(** T4 is last in the first phase and has woken the others when T1 arrives for
    the second; T4's drain wakes T1 again, and T1 arrives for the third
    phase.  T2, T3 and T4 arrive for the second: with T1 that makes five, the
    barrier trips while T0 still sleeps after the first phase.  T1 is
    through; T2, T3 and T4 arrive for the third phase, T0 for the second. *)
Definition overtaking : list (label bop) :=
  runs 0 8 ++ runs 1 8 ++ runs 2 8 ++ runs 3 8 ++ runs 4 23 ++ runs 1 13 ++ runs 4 5 ++ runs 1 12 ++
  runs 2 13 ++ runs 3 13 ++ runs 4 20 ++ runs 1 5 ++ runs 2 13 ++ runs 3 13 ++ runs 0 13 ++ runs 4 8.

(** The program of examples/barrier can deadlock.  After [overtaking] one
    worker is through, the other four are parked in [Wait], one of them with a
    phase still to come, the barrier counts four of five arrivals, and nobody
    can move: [main] waits for ever. *)
Theorem barrier_example_deadlocks :
  exists w gs, execs workers overtaking barrier_main = Some (w, gs) /\
    (forall t g o, gs !! t = Some g -> work o g w = None) /\
    (snd <$> gs) = [1; 0; 0; 0; 0]%nat /\ GetArrived (prim w) = 4 /\
    Forall (fun t => exists st g a x k, gs !! t = Some (FWait st (BWait g a x), k)) [0; 2; 3; 4]%nat.
Proof.
  eexists _, _. split; [vm_compute; reflexivity|]. split; [|split_and!; [done..|repeat constructor; by repeat eexists]].
  intros t g o Hg. do 5 (destruct t as [|t]; [injection Hg as <-; vm_compute; reflexivity|]). done.
Qed.
End BarrierExample.
