(* ===== verification/Locker.v ===== *)
(** * sync.Locker

    condvar.go, rwlock.go and fair_rwlock.go declare at compile time that
    [*Mutex], [*RWLock] and [*FairRWLock] implement [sync.Locker].  The class
    below states what a client may rely on, the instances discharge it from
    the invariants of the three locks, and the client at the end, proved
    against the class alone, is the use the interface is for: data that is
    read and written in separate steps is safe under the lock. *)

From Stdlib Require Import ZArith Lia.
From stdpp Require Import base list gmap strings.
From S2P Require Import Prelude Waiter Mutex RWLock FairQueue FairRWLock.

#[local] Open Scope Z_scope.

(** A lock with goroutines that use it: [holding] a goroutine has returned
    from [Lock] and not yet called [Unlock], and is inside no call. *)
Class Locker {Sh Th Op : Type} (m : machine Sh Th Op) := {
  start : nat -> Z -> config (Sh:=Sh) (Th:=Th);
  opLock : Op;
  opUnlock : Op;
  holding : Th -> bool;
  resting : Th -> bool;
  holding_exclusive : forall k now sh ths i j a b,
    reach m any_label (start k now) (sh, ths) -> ths !! i = Some a -> ths !! j = Some b ->
    holding a = true -> holding b = true -> i = j
}.

(** ** Instances *)

#[export] Instance mutexLocker : Locker mutex.
Proof.
  refine {|
    start := Mutex.initial;
    opLock := Mutex.OpLock;
    opUnlock := Mutex.OpUnlock;
    holding th := match Mutex.frm th with Mutex.FIdle _ => 0 <? Mutex.held th | _ => false end;
    resting th := match Mutex.frm th with Mutex.FIdle _ => true | _ => false end
  |}.
  intros k now sh ths i j a b Hr Hi Hj Ha Hb.
  destruct (Mutex.frm a), (Mutex.frm b); try done. bool_facts.
  by destruct (mu_unique _ _ _ _ _ _ _ _ _ Hr Hi Hj Ha Hb).
Defined.

#[export] Instance rwlockLocker : Locker rwlock.
Proof.
  refine {|
    start := RWLock.initial;
    opLock := RWLock.OpLock;
    opUnlock := RWLock.OpUnlock;
    holding th := match RWLock.frm th with RWLock.FIdle _ => 0 <? RWLock.wheld th | _ => false end;
    resting th := match RWLock.frm th with RWLock.FIdle _ => true | _ => false end
  |}.
  intros k now sh ths i j a b Hr Hi Hj Ha Hb.
  destruct (RWLock.frm a), (RWLock.frm b); try done. bool_facts.
  apply rw_reach_Inv in Hr as [Hs Hwf _]. simpl in *.
  destruct (decide (i = j)) as [|Hne]; [done|].
  pose proof (sumf_two_F RWLock.wholds _ wholds_nonneg _ _ _ _ _ Hwf Hne Hi Hj).
  pose proof (wheld_le a). pose proof (wheld_le b). unfold stateOk in Hs. lia.
Defined.

#[export] Instance fairLocker : Locker fairrwlock.
Proof.
  refine {|
    start := FairRWLock.initial;
    opLock := RWLock.OpLock;
    opUnlock := RWLock.OpUnlock;
    holding th := match FairRWLock.frm th with FairRWLock.FIdle _ => 0 <? FairRWLock.wheld th | _ => false end;
    resting th := match FairRWLock.frm th with FairRWLock.FIdle _ => true | _ => false end
  |}.
  intros k now sh ths i j a b Hr Hi Hj Ha Hb.
  destruct (FairRWLock.frm a), (FairRWLock.frm b); try done. bool_facts.
  apply fair_reach_Inv in Hr as [Hs _ Hwf]. simpl in *.
  destruct (decide (i = j)) as [|Hne]; [done|].
  pose proof (sumf_two_F FairRWLock.wholds _ fair_wholds_nonneg _ _ _ _ _ Hwf Hne Hi Hj).
  pose proof (fair_wheld_le a). pose proof (fair_wheld_le b). unfold stateOk in Hs. lia.
Defined.

(** ** A client: a counter incremented under the lock *)
Section Client.
Context {Sh Th Op : Type} (m : machine Sh Th Op) `{!Locker m}.

(** [Lock(); v := counter; counter = v + 1; Unlock()] *)
Inductive cpc := CIdle | CLocking | CLoaded (v : Z) | CStored | CUnlocking.

(** The lock, the counter and the number of stores made so far. *)
Definition cworld : Type := Sh * Z * Z.
Definition cthread : Type := Th * cpc.

Definition ccall (op : unit) (now : Z) (t : cthread) : option cthread :=
  match t.2 with
  | CIdle => th ← call m opLock now t.1; Some (th, CLocking)
  | _ => None
  end.

(** A step of the goroutine inside the lock's operation. *)
Definition inLock (o : oracle) (t : cthread) (w : cworld) : option (cthread * cworld) :=
  '(th, sh) ← run m o t.1 w.1.1; Some ((th, t.2), (sh, w.1.2, w.2)).

Definition crun (o : oracle) (t : cthread) (w : cworld) : option (cthread * cworld) :=
  match t.2 with
  | CIdle => None
  | CLocking => if holding t.1 then Some ((t.1, CLoaded w.1.2), w) else inLock o t w
  | CLoaded v => Some ((t.1, CStored), (w.1.1, v + 1, w.2 + 1))
  | CStored => th ← call m opUnlock (clk o) t.1; Some ((th, CUnlocking), w)
  | CUnlocking => if resting t.1 then Some ((t.1, CIdle), w) else inLock o t w
  end.

Definition client : machine cworld cthread unit :=
  Machine ccall crun (fun x w => (cancel m x w.1.1, w.1.2, w.2)).

Definition cstart (k : nat) (now : Z) : config (Sh:=cworld) (Th:=cthread) :=
  (((start k now).1, 0, 0), (fun th => (th, CIdle)) <$> (start k now).2).

(** What the client is at: a goroutine with the counter in hand holds the
    lock, and the value it has read is the counter. *)
Definition loadedOk (w : cworld) (t : cthread) : Prop :=
  match t.2 with CLoaded v => holding t.1 = true /\ v = w.1.2 | _ => True end.

Record CInv (k : nat) (now : Z) (c : cworld * list cthread) : Prop := {
  ci_lock : reach m any_label (start k now) (c.1.1.1, c.2.*1);
  ci_loaded : Forall (loadedOk c.1) c.2;
  ci_exact : c.1.1.2 = c.1.2
}.

Lemma lock_thread (ts : list cthread) i t : ts !! i = Some t -> ts.*1 !! i = Some t.1.
Proof. intros E. rewrite list_lookup_fmap. exact (f_equal (fmap fst) E). Qed.

(** Another goroutine cannot have read the counter. *)
Lemma loaded_alone k now w ts i j a b v :
  CInv k now (w, ts) -> ts !! i = Some a -> ts !! j = Some b -> i <> j ->
  holding a.1 = true -> b.2 = CLoaded v -> False.
Proof.
  intros [H1 H2 _] Hi Hj Hne Ha Hb. simpl in *.
  pose proof (Forall_lookup_1 _ _ _ _ H2 Hj) as Hl. unfold loadedOk in Hl. rewrite Hb in Hl.
  apply Hne, (holding_exclusive k now _ _ i j a.1 b.1 H1); [by apply lock_thread|by apply lock_thread|done|].
  by destruct Hl.
Qed.

Lemma CInv_call k now w ts t th th' op now' :
  CInv k now (w, ts) -> ts !! t = Some th -> ccall op now' th = Some th' -> CInv k now (w, <[t:=th']> ts).
Proof.
  intros [H1 H2 H3] Hl Hc. unfold ccall in Hc. destruct th as [x p]. simpl in *. destruct p; try done.
  apply bind_Some in Hc as (x' & Hc & [= <-]). constructor; simpl; [|by apply Forall_insert|done].
  rewrite list_fmap_insert. eapply (reach_step m _ _ (Call t opLock now')); [exact H1|done|].
  apply (exec_call m _ _ t opLock now' x); [|done]. by apply (lock_thread _ _ _ Hl).
Qed.

Lemma CInv_inLock k now w ts t th th' w' o :
  CInv k now (w, ts) -> ts !! t = Some th -> (forall v, th.2 <> CLoaded v) ->
  inLock o th w = Some (th', w') -> CInv k now (w', <[t:=th']> ts).
Proof.
  intros [H1 H2 H3] Hl Hp Hc. unfold inLock in Hc. destruct w as [[sh n] d], th as [x p]. simpl in *.
  apply bind_Some in Hc as ([x' sh'] & Hc & [= <- <-]). constructor; simpl; [| |done].
  - rewrite list_fmap_insert. eapply (reach_step m _ _ (Run t o)); [exact H1|done|].
    apply (exec_run m _ _ t o x); [|done]. by apply (lock_thread _ _ _ Hl).
  - apply Forall_insert; [exact H2|]. unfold loadedOk. simpl. destruct p; try done. by destruct (Hp v).
Qed.

Lemma CInv_run k now w ts t th th' w' o :
  CInv k now (w, ts) -> ts !! t = Some th -> crun o th w = Some (th', w') -> CInv k now (w', <[t:=th']> ts).
Proof.
  intros HI Hl Hr. pose proof HI as [H1 H2 H3]. simpl in *.
  pose proof (Forall_lookup_1 _ _ _ _ H2 Hl) as Hld.
  assert (Hid : forall p, th' = (th.1, p) -> (<[t:=th']> ts).*1 = ts.*1).
  { intros p ->. rewrite list_fmap_insert. apply list_insert_id. exact (lock_thread _ _ _ Hl). }
  destruct th as [x p]. unfold crun in Hr. simpl in *. destruct p as [| |v| |]; [done| | | |].
  - destruct (holding x) eqn:Hx; [|by eapply CInv_inLock; eauto]. injection Hr as <- <-.
    constructor; simpl; [by rewrite (Hid _ eq_refl)|by apply Forall_insert|done].
  - injection Hr as <- <-. destruct Hld as [Hx Hv]. simpl in *. subst v.
    constructor; simpl; [by rewrite (Hid _ eq_refl)| |lia].
    apply Forall_lookup. intros j b Hj. apply list_lookup_insert_Some in Hj as [(_ & <- & _)|[Hne Hj]]; [done|].
    unfold loadedOk. destruct b.2 as [| |v| |] eqn:Eb; try done.
    exfalso. by eapply (loaded_alone k now w ts t j (x, CLoaded w.1.2) b v).
  - apply bind_Some in Hr as (x' & Hc & [= <- <-]). constructor; simpl; [|by apply Forall_insert|done].
    rewrite list_fmap_insert. eapply (reach_step m _ _ (Call t opUnlock (clk o))); [exact H1|done|].
    apply (exec_call m _ _ t opUnlock (clk o) x); [|done]. by apply (lock_thread _ _ _ Hl).
  - destruct (resting x) eqn:Hx; [|by eapply CInv_inLock; eauto]. injection Hr as <- <-.
    constructor; simpl; [by rewrite (Hid _ eq_refl)|by apply Forall_insert|done].
Qed.

(** Under any lock that implements the interface no update is lost. *)
Lemma locker_guards k now w ts : reach client any_label (cstart k now) (w, ts) -> CInv k now (w, ts).
Proof.
  apply (reach_invariant client any_label (CInv k now)).
  - unfold cstart. constructor; simpl; [| |done].
    + rewrite <- list_fmap_compose. replace ((fst ∘ _) <$> (start k now).2) with ((start k now).2).
      * rewrite <- surjective_pairing. constructor.
      * symmetry. apply list_fmap_id.
    + apply Forall_fmap, Forall_true. done.
  - intros. by eapply CInv_call.
  - intros. by eapply CInv_run.
  - intros [[sh n] d] ts1 x [H1 H2 H3] _. constructor; simpl in *; [|exact H2|done].
    by eapply (reach_step m _ _ (Cancel x)).
Qed.
End Client.

(** C28: the three locks protect data.  Goroutines that increment a counter in
    two separate steps, a read and a write, between [Lock] and [Unlock] of a
    [Mutex], a [RWLock] or a [FairRWLock] lose no increment: in every
    reachable state the counter is the number of writes made. *)
Theorem lockers_guard_data k now :
  (forall sh n d ts, reach (client mutex) any_label (cstart mutex k now) ((sh, n, d), ts) -> n = d) /\
  (forall sh n d ts, reach (client rwlock) any_label (cstart rwlock k now) ((sh, n, d), ts) -> n = d) /\
  (forall sh n d ts, reach (client fairrwlock) any_label (cstart fairrwlock k now) ((sh, n, d), ts) -> n = d).
Proof. split_and!; intros sh n d ts Hr; exact (ci_exact _ _ _ _ (locker_guards _ _ _ _ _ Hr)). Qed.

(** Two goroutines increment once each; T1 calls [Lock] while T0 holds it. *)
Definition twoIncrements : list (label unit) :=
  Call 0 tt 0 :: runs 0 3 ++ Call 1 tt 0 :: runs 1 6 ++ runs 0 9 ++ runs 1 7.

Lemma twoIncrements_reach :
  reach (client mutex) any_label (cstart mutex 2 0)
    ((after (client mutex) twoIncrements (cstart mutex 2 0)).1,
     (after (client mutex) twoIncrements (cstart mutex 2 0)).2).
Proof. apply after_reach; [apply Forall_any|by_eval]. Qed.

Lemma lockers_guard_data_witness :
  let c := after (client mutex) twoIncrements (cstart mutex 2 0) in c.1.1.2 = 2 /\ c.1.1.2 = c.1.2.
Proof.
  cbv zeta. split; [by_eval|].
  refine (proj1 (lockers_guard_data 2 0) (after (client mutex) twoIncrements (cstart mutex 2 0)).1.1.1 _ _ _ _).
  rewrite <- !surjective_pairing. rewrite (surjective_pairing (after _ _ _)). exact twoIncrements_reach.
Defined.
