(* ===== verification/Once.v ===== *)
(** * Once (internal/primitives/once.go)

    A resettable once.  The abstract specification is an automaton over the
    events "the function starts", "the function returns", "reset"; every
    interleaving of [Do] and [Reset] refines it.  The function passed to
    [Do] is a parameter of the program: all the model says of it is that it
    returns or panics (the choice [alt] of the step) and does not itself
    call the same Once, which would block on [mu] forever.  [mu] is a
    [sync.Mutex]: locking it is possible only when it is free. *)

From Stdlib Require Import ZArith Lia.
From stdpp Require Import base list gmap strings.
From S2P Require Import Prelude.

#[local] Open Scope Z_scope.

(** ** Specification *)

Inductive event := EStart | EReturn | EReset.
Inductive ospec := Fresh | Busy | Finished.

#[export] Instance ospec_eq_dec : EqDecision ospec.
Proof. solve_decision. Defined.

Definition onceSpec (s : ospec) (e : event) : option ospec :=
  match s, e with
  | Fresh, EStart => Some Busy
  | Busy, EReturn => Some Finished
  | (Fresh | Finished), EReset => Some Fresh
  | _, _ => None
  end.

(** The state the specification reaches; [None] for a sequence of events
    (the first one first) that it does not allow. *)
Definition accepts (es : list event) : option ospec :=
  foldl (fun s e => s ≫= fun s => onceSpec s e) (Some Fresh) es.

(** ** The code *)

Record Once := mkOnce { mu : bool; done : Z; doCalls : Z; resetCalls : Z; createdAt : Z }.

Definition NewOnce (now : Z) : Once := mkOnce false 0 0 0 now.

Definition set_mu v o := mkOnce v (done o) (doCalls o) (resetCalls o) (createdAt o).
Definition set_done v o := mkOnce (mu o) v (doCalls o) (resetCalls o) (createdAt o).
Definition set_doCalls v o := mkOnce (mu o) (done o) v (resetCalls o) (createdAt o).
Definition set_resetCalls v o := mkOnce (mu o) (done o) (doCalls o) v (createdAt o).

(** The once and the events so far. *)
Record oworld := OWorld { once : Once; hist : list event }.

Definition upd (f : Once -> Once) (w : oworld) : oworld := OWorld (f (once w)) (hist w).
Definition emit (e : event) (w : oworld) : oworld := OWorld (once w) (hist w ++ [e]).

(** [mu.Lock()]: blocked while the mutex is held. *)
Definition lockMu (w : oworld) : option oworld :=
  if mu (once w) then None else Some (upd (set_mu true) w).

(** ** Do

    [DFast] the first load, [DLock], [DCheck] the second load, [DCount] the
    counter, [DCall] the call of [f], [DBody] inside [f], [DStore b] and
    [DUnlock b] the deferred calls, in the reverse order of their
    registration; [b] says that [f] panicked, and the panic goes on when the
    deferred calls are done. *)
Inductive dopc := DFast | DLock | DCheck | DCount | DCall | DBody | DStore (b : bool) | DUnlock (b : bool).

Definition Do_step (o : oracle) (p : dopc) (w : oworld) : option (outcome dopc unit * oworld) :=
  match p with
  | DFast => Some (if done (once w) =? 1 then Return tt else Next DLock, w)
  | DLock => w ← lockMu w; Some (Next DCheck, w)
  | DCheck => Some (Next (if done (once w) =? 0 then DCount else DUnlock false), w)
  | DCount => Some (Next DCall, upd (set_doCalls (add64 (doCalls (once w)) 1)) w)
  | DCall => Some (Next DBody, emit EStart w)
  | DBody => Some (Next (DStore (alt o)), emit EReturn w)
  | DStore b => Some (Next (DUnlock b), upd (set_done 1) w)
  | DUnlock b => Some (if b : bool then Panic "f" else Return tt, upd (set_mu false) w)
  end.

Inductive rspc := SLock | SStore | SCount | SUnlock.

Definition Reset_step (p : rspc) (w : oworld) : option (outcome rspc unit * oworld) :=
  match p with
  | SLock => w ← lockMu w; Some (Next SStore, w)
  | SStore => Some (Next SCount, emit EReset (upd (set_done 0) w))
  | SCount => Some (Next SUnlock, upd (set_resetCalls (add64 (resetCalls (once w)) 1)) w)
  | SUnlock => Some (Return tt, upd (set_mu false) w)
  end.

Definition Done (o : Once) : bool := done o =? 1.

Record OnceStats := mkOnceStats { SDone : bool; DoCalls : Z; ResetCalls : Z; Age : Z }.

Definition GetStats (now : Z) (o : Once) : OnceStats :=
  mkOnceStats (done o =? 1) (doCalls o) (resetCalls o) (now - createdAt o).

(** ** Goroutines: [TIdle b] says whether a call of [Do] has returned *)
Inductive oop := OpDo | OpReset.
Inductive thread := TIdle (b : bool) | TDo (p : dopc) | TReset (b : bool) (p : rspc) | TPanic (m : string).

Definition ocall (op : oop) (now : Z) (th : thread) : option thread :=
  match th with
  | TIdle b => Some match op with OpDo => TDo DFast | OpReset => TReset b SLock end
  | _ => None
  end.

Definition orun (o : oracle) (th : thread) (w : oworld) : option (thread * oworld) :=
  match th with
  | TIdle _ | TPanic _ => None
  | TDo p =>
      '(r, w) ← Do_step o p w;
      Some (match r with Next p => TDo p | Return _ => TIdle true | Panic e => TPanic e end, w)
  | TReset b p =>
      '(r, w) ← Reset_step p w;
      Some (match r with Next p => TReset b p | Return _ => TIdle b | Panic e => TPanic e end, w)
  end.

Definition onceMachine : machine oworld thread oop := Machine ocall orun (fun _ w => w).

Definition initial (k : nat) (now : Z) : config (Sh:=oworld) (Th:=thread) :=
  (OWorld (NewOnce now) [], replicate k (TIdle false)).

(** * Invariants *)

(** Inside the critical section, and inside the part of it in which the
    flag and the specification differ from their values at rest. *)
Definition inside (th : thread) : Z :=
  match th with
  | TDo (DCheck | DCount | DCall | DBody | DStore _ | DUnlock _)
  | TReset _ (SStore | SCount | SUnlock) => 1
  | _ => 0
  end.

Definition body (th : thread) : Z :=
  match th with TDo (DCount | DCall | DBody | DStore _) => 1 | _ => 0 end.

(** What the position of a goroutine says of the specification and the flag. *)
Definition local (s : ospec) (d : Z) (th : thread) : Prop :=
  match th with
  | TDo (DCount | DCall) => s = Fresh /\ d = 0
  | TDo DBody => s = Busy /\ d = 0
  | TDo (DStore _) => s = Finished /\ d = 0
  | _ => True
  end.

Definition atRest (s : ospec) (d : Z) : Prop := (s = Fresh /\ d = 0) \/ (s = Finished /\ d = 1).

Record Inv (c : oworld * list thread) : Prop := {
  inv_mutex : sumf inside c.2 = Z.b2z (mu (once c.1));
  inv_spec : exists s, accepts (hist c.1) = Some s /\ Forall (local s (done (once c.1))) c.2 /\
    (sumf body c.2 = 0 -> atRest s (done (once c.1)))
}.

Lemma accepts_snoc es e : accepts (es ++ [e]) = accepts es ≫= fun s => onceSpec s e.
Proof. unfold accepts. by rewrite foldl_app. Qed.

Lemma inside_bounds th : 0 <= body th <= inside th.
Proof. destruct th as [|p|b p|]; simpl; try destruct p; lia. Qed.

Lemma inside_01 th : inside th = 0 \/ inside th = 1.
Proof. destruct th as [|p|b p|]; simpl; try destruct p; lia. Qed.

(** Outside the body nothing is said of a goroutine. *)
Lemma local_outside s d th : body th = 0 -> local s d th.
Proof. destruct th as [|p|b p|]; simpl; try done; by destruct p. Qed.

(** With the flag set nobody is in the body. *)
Lemma local_done s ths : Forall (local s 1) ths -> sumf body ths = 0.
Proof.
  intros Hl. apply sumf_zero. intros i th Hi. pose proof (Forall_lookup_1 _ _ _ _ Hl Hi) as H.
  destruct th as [|p|b p|]; try done. destruct p; simpl in H; try done; by destruct H.
Qed.

(** When a goroutine is inside, the others are not. *)
Lemma others_outside ths t th w :
  sumf inside ths = Z.b2z (mu (once w)) -> ths !! t = Some th -> inside th = 1 ->
  forall t' th', ths !! t' = Some th' -> t' <> t -> body th' = 0.
Proof.
  intros Hm Hl Hi t' th' Hl' Hne.
  pose proof (sumf_lookup_two inside ths t t' th th'
    (fun x => Z.le_trans _ _ _ (proj1 (inside_bounds x)) (proj2 (inside_bounds x))) ltac:(done) Hl Hl').
  pose proof (inside_bounds th'). destruct (mu (once w)); simpl in *; lia.
Qed.

(** One step: the specification follows, outside the critical section
    nothing changes, and leaving the body restores the state at rest. *)
Lemma once_run o th w th' w' s :
  orun o th w = Some (th', w') -> accepts (hist w) = Some s -> local s (done (once w)) th ->
  inside th <= Z.b2z (mu (once w)) -> (inside th = 1 -> body th = 0 -> atRest s (done (once w))) ->
  exists s', accepts (hist w') = Some s' /\ local s' (done (once w')) th' /\
    Z.b2z (mu (once w')) = Z.b2z (mu (once w)) - inside th + inside th' /\
    (inside th = 0 -> s' = s /\ done (once w') = done (once w) /\ body th' = 0) /\
    (inside th = 1 -> body th' = 0 -> atRest s' (done (once w'))).
Proof.
  intros Hr Hs Hl Hm Hq.
  destruct th as [|p|b p|]; [done| | |done]; destruct p; unfold orun, lockMu in Hr; inv_step Hr; simpl in *;
    bool_facts; unfold atRest in *;
    try (exists s; by intuition (try lia; try congruence));
    try (specialize (Hq eq_refl eq_refl));
    try (exists s; intuition (try lia; try congruence); destruct (mu (once w)); simpl in *; lia).
  1,4: unfold lockMu in Hr1; destruct (mu (once w)); simplify_eq; exists s; simpl; intuition lia.
  - destruct Hl as [-> Hd]. exists Busy. rewrite accepts_snoc, Hs. simpl. intuition lia.
  - destruct Hl as [-> Hd]. exists Finished. rewrite accepts_snoc, Hs. simpl. intuition lia.
  - exists Fresh. rewrite accepts_snoc, Hs. simpl. destruct Hq as [[-> _]|[-> _]]; simpl; intuition lia.
Qed.

Lemma once_Inv_initial k now : Inv (initial k now).
Proof.
  constructor; simpl; [by rewrite sumf_replicate|]. exists Fresh.
  split; [done|]. split; [by apply Forall_replicate|]. intros _. by left.
Qed.

Lemma once_Inv_call w ths t th th' op now :
  Inv (w, ths) -> ths !! t = Some th -> ocall op now th = Some th' -> Inv (w, <[t:=th']> ths).
Proof.
  intros [Hm (s & Hs & Hl & Hq)] Ht Hc.
  assert (inside th = 0 /\ body th = 0 /\ inside th' = 0 /\ body th' = 0) as (E1 & E2 & E3 & E4).
  { destruct th; simplify_eq/=. by destruct op. }
  constructor; simpl in *; [rewrite (sumf_insert _ _ _ _ _ Ht); lia|]. exists s. split; [done|]. split.
  - apply Forall_insert; [done|]. by apply local_outside.
  - rewrite (sumf_insert _ _ _ _ _ Ht). intros. apply Hq. lia.
Qed.

Lemma once_Inv_run w ths t th th' w' o :
  Inv (w, ths) -> ths !! t = Some th -> orun o th w = Some (th', w') -> Inv (w', <[t:=th']> ths).
Proof.
  intros [Hm (s & Hs & Hl & Hq)] Ht Hr. simpl in *.
  pose proof (sumf_lookup_le inside ths t th
    (fun x => Z.le_trans _ _ _ (proj1 (inside_bounds x)) (proj2 (inside_bounds x))) Ht) as Hle.
  pose proof (others_outside _ _ _ _ Hm Ht) as Ho.
  assert (Hb : inside th = 1 -> sumf body ths = body th) by (intros; by eapply sumf_single; eauto).
  destruct (once_run _ _ _ _ _ s Hr Hs (Forall_lookup_1 _ _ _ _ Hl Ht)) as (s' & Hs' & Hl' & Hm' & H0 & H1);
    [lia|intros; apply Hq; rewrite Hb; lia|].
  constructor; simpl; [rewrite (sumf_insert _ _ _ _ _ Ht); lia|]. exists s'. split; [done|].
  rewrite (sumf_insert _ _ _ _ _ Ht). destruct (inside_01 th) as [Hi|Hi].
  - destruct (H0 Hi) as (-> & Ed & Hb'). rewrite Ed in *. split; [by apply Forall_insert|].
    pose proof (inside_bounds th). intros. apply Hq. lia.
  - split; [|rewrite (Hb Hi); intros; apply H1; lia]. apply Forall_lookup. intros t1 th1 Hl1.
    apply list_lookup_insert_Some in Hl1 as [(-> & <- & _)|[Hne Hl1]]; [done|].
    apply local_outside. by apply (Ho Hi t1 th1 Hl1).
Qed.

Lemma once_reach_Inv P k now c : reach onceMachine P (initial k now) c -> Inv c.
Proof.
  apply reach_invariant; intros.
  - apply once_Inv_initial.
  - eapply once_Inv_call; eauto.
  - eapply once_Inv_run; eauto.
  - done.
Qed.

(** ** Without Reset *)

Definition no_reset (l : label oop) : Prop := match l with Call _ OpReset _ => False | _ => True end.

#[export] Instance no_reset_dec l : Decision (no_reset l).
Proof. destruct l as [t [|] now|t o|x]; simpl; apply _. Defined.

(** A goroutine that does not reset and, when its [Do] is over, finds the
    flag set. *)
Definition forward (d : Z) (th : thread) : Prop :=
  match th with
  | TIdle b => b = true -> d = 1
  | TDo (DUnlock _) => d = 1
  | TReset _ _ => False
  | _ => True
  end.

Lemma forward_run o th w th' w' s :
  orun o th w = Some (th', w') -> forward (done (once w)) th -> local s (done (once w)) th ->
  (inside th = 1 -> body th = 0 -> atRest s (done (once w))) ->
  forward (done (once w')) th' /\ (done (once w) = 1 -> done (once w') = 1) /\
  (EReset ∉ hist w -> EReset ∉ hist w').
Proof.
  intros Hr Hf Hl Hq. destruct th as [|p|b p|]; try done.
  destruct p; unfold orun, lockMu in Hr; inv_step Hr; simpl in *; bool_facts; unfold atRest in *;
    split_and!; try done; rewrite ?not_elem_of_app, ?not_elem_of_cons, ?not_elem_of_nil; try (by intuition congruence).
  1,2: unfold lockMu in Hr1; destruct (mu (once w)); by simplify_eq.
  all: intros ?; split_and!; try done; apply not_elem_of_nil.
Qed.

Definition Forward (c : oworld * list thread) : Prop :=
  Forall (forward (done (once c.1))) c.2 /\ EReset ∉ hist c.1.

Lemma once_reach_Forward k now c :
  reach onceMachine no_reset (initial k now) c -> Inv c /\ Forward c.
Proof.
  apply (reach_invariant onceMachine no_reset (fun c => Inv c /\ Forward c)).
  - split; [apply once_Inv_initial|]. split; [by apply Forall_replicate|apply not_elem_of_nil].
  - intros w ths t th th' op now' [H1 [H2 H3]] HP Hl Hc. split; [by eapply once_Inv_call|].
    split; [|done]. apply Forall_insert; [done|]. destruct th; simplify_eq/=. by destruct op.
  - intros w ths t th th' w' o [H1 [H2 H3]] _ Hl Hr. split; [by eapply once_Inv_run|]. simpl in *.
    destruct H1 as [Hm (s & Hs & Hloc & Hq)]. simpl in *.
    pose proof (others_outside _ _ _ _ Hm Hl) as Ho.
    destruct (forward_run _ _ _ _ _ s Hr (Forall_lookup_1 _ _ _ _ H2 Hl) (Forall_lookup_1 _ _ _ _ Hloc Hl))
      as (E1 & E2 & E3).
    { intros Hi Hb. apply Hq. rewrite (sumf_single body ths t th Hl); [done|]. by apply Ho. }
    split; simpl; [|by apply E3]. apply Forall_insert; [|done].
    eapply Forall_impl; [exact H2|]. intros th1. destruct th1 as [b|p| |]; simpl; auto. by destruct p.
  - done.
Qed.

(** An accepted sequence without [EReset]. *)
Lemma accepts_forward es s :
  accepts es = Some s -> EReset ∉ es ->
  es = match s with Fresh => [] | Busy => [EStart] | Finished => [EStart; EReturn] end.
Proof.
  revert s. induction es as [|e es IH] using rev_ind; intros s; [by intros [= <-]|].
  rewrite accepts_snoc, not_elem_of_app. intros Ha [H1 H2].
  apply bind_Some in Ha as (s0 & Ha & Hs). rewrite (IH _ Ha H1).
  destruct s0, e; simplify_eq/=; try done; destruct H2; by left.
Qed.

(** * Theorems *)

(** C26: Once refines its specification.  In every interleaving of [Do] and
    [Reset] the executions of the functions passed to [Do] and the resets
    form a sequence the automaton accepts: no two functions run at the same
    time, and none starts after another one without a reset in between, even
    when a function panics; when [Done] says true a function has returned
    since the last reset. *)
Theorem once_refines_spec k now w ths :
  reach onceMachine any_label (initial k now) (w, ths) ->
  exists s, accepts (hist w) = Some s /\ (Done (once w) = true -> s = Finished).
Proof.
  intros [Hm (s & Hs & Hl & Hq)]%once_reach_Inv. simpl in *. exists s. split; [done|].
  unfold Done. intros Hd%Z.eqb_eq. destruct Hq as [[_ ?]|[? _]]; [|lia|done].
  rewrite Hd in Hl. by apply (local_done s).
Qed.

(** Exactly once.  In a program that does not reset, as soon as one call
    of [Do] has returned to its caller, exactly one function has been
    called and it has returned (or panicked). *)
Theorem once_exactly_once k now w ths t :
  reach onceMachine no_reset (initial k now) (w, ths) -> ths !! t = Some (TIdle true) ->
  hist w = [EStart; EReturn] /\ Done (once w) = true.
Proof.
  intros Hr Ht. destruct (once_reach_Forward _ _ _ Hr) as [[Hm (s & Hs & Hl & Hq)] [Hf He]]. simpl in *.
  assert (Hd : done (once w) = 1) by exact (Forall_lookup_1 _ _ _ _ Hf Ht eq_refl).
  unfold Done. rewrite Hd. split; [|done].
  destruct Hq as [[_ ?]|[-> _]]; [|lia|by apply (accepts_forward _ Finished)].
  rewrite Hd in Hl. by apply (local_done s).
Qed.

(** Three calls of [Do]: T0 runs the function, T1 has passed the fast path
    and waits for the mutex, T2 comes last. *)
Definition threeCalls : list (label oop) :=
  Call 0 OpDo 0 :: runs 0 6 ++ Call 1 OpDo 0 :: runs 1 1 ++ runs 0 2 ++ runs 1 3 ++
  Call 2 OpDo 0 :: runs 2 1.

Lemma once_refines_spec_witness :
  exists w ths s, reach onceMachine any_label (initial 3 0) (w, ths) /\ Done (once w) = true /\
    accepts (hist w) = Some s /\ s = Finished.
Proof.
  assert (R := after_reach onceMachine any_label threeCalls (initial 3 0) (Forall_any _) ltac:(by_eval)).
  destruct (once_refines_spec 3 0 _ _ R) as (s & H1 & H2).
  eexists _, _, s. split; [exact R|]. split; [by_eval|]. split; [exact H1|apply H2; by_eval].
Defined.

Lemma once_exactly_once_witness :
  let c := after onceMachine threeCalls (initial 3 0) in
  hist c.1 = [EStart; EReturn] /\ Done (once c.1) = true.
Proof.
  apply (once_exactly_once 3 0 _ (after onceMachine threeCalls (initial 3 0)).2 1).
  - apply after_reach; [by_decide|by_eval].
  - by_eval.
Defined.
