(* ===== verification/Singleflight.v ===== *)
(** * Singleflight (internal/primitives/singleflight.go)

    Concurrent calls of [Do] with the same key share one execution of the
    function.  A [call] is an object on the heap; the map of the group points
    to the one in flight for each key.  The function passed to [Do] is the
    client's: when its step is made it returns a value and an error chosen by
    the step ([clk], [alt]), or panics ([pick] not 0).  [mu] is a
    [sync.Mutex], [wg] a [sync.WaitGroup] counter. *)

From Stdlib Require Import ZArith Lia.
From stdpp Require Import base list gmap strings.
From S2P Require Import Prelude.

#[local] Open Scope Z_scope.

(** A value of type [interface{}] is an integer, an error a flag.  [ckey] is
    not a field of the code: it records the key the call was made for. *)
Record callT := mkCall { wg : Z; val : Z; err : bool; ckey : string }.
Record Result := mkResult { Val : Z; Err : bool; Shared : bool }.

Record Group := mkGroup {
  mu : bool;
  calls : gmap string nat;
  totalCalls : Z;
  sharedCalls : Z;
  createdAt : Z
}.

Definition NewGroup (now : Z) : Group := mkGroup false ∅ 0 0 now.

Definition set_mu v g := mkGroup v (calls g) (totalCalls g) (sharedCalls g) (createdAt g).
Definition set_calls v g := mkGroup (mu g) v (totalCalls g) (sharedCalls g) (createdAt g).
Definition set_totalCalls v g := mkGroup (mu g) (calls g) v (sharedCalls g) (createdAt g).
Definition set_sharedCalls v g := mkGroup (mu g) (calls g) (totalCalls g) v (createdAt g).

(** The group, the heap of calls ([nextc] is the next unused pointer), and
    the executions of functions that have returned: call, key, value, error. *)
Record gworld := GWorld { grp : Group; cheap : gmap nat callT; nextc : nat; runsLog : list (nat * (string * Z * bool)) }.

Definition upd (f : Group -> Group) (w : gworld) : gworld :=
  GWorld (f (grp w)) (cheap w) (nextc w) (runsLog w).
Definition cget (w : gworld) (c : nat) : callT := default (mkCall 0 0 false "") (cheap w !! c).
Definition cput (c : nat) (x : callT) (w : gworld) : gworld :=
  GWorld (grp w) (<[c:=x]> (cheap w)) (nextc w) (runsLog w).
Definition logRun (c : nat) (k : string) (v : Z) (e : bool) (w : gworld) : gworld :=
  GWorld (grp w) (cheap w) (nextc w) (runsLog w ++ [(c, (k, v, e))]).

Definition lockMu (w : gworld) : option gworld :=
  if mu (grp w) then None else Some (upd (set_mu true) w).

(** ** Do

    [GLock], [GLookup] the test of the map; when the key is there [GHit]
    unlocks, [GShared] counts, [GWait] is [c.wg.Wait()], [GRead] reads the
    result.  When it is not, [GLookup] creates a call and stores it, all of it
    with [mu] held; [GUnlock] unlocks; [GTotal] counts, [GCall] is the call of the
    function, [GDone] [c.wg.Done()], [GLock2], [GDelete], [GUnlock2] remove
    the key, [GResult] reads the result. *)
Inductive gpc :=
| GLock | GLookup | GHit (c : nat) | GShared (c : nat) | GWait (c : nat) | GRead (c : nat)
| GUnlock (c : nat) | GTotal (c : nat) | GCall (c : nat) | GDone (c : nat)
| GLock2 (c : nat) | GDelete (c : nat) | GUnlock2 (c : nat) | GResult (c : nat).

(** The result comes with the call it belongs to. *)
Definition Do_step (key : string) (o : oracle) (p : gpc) (w : gworld)
    : option (outcome gpc (nat * Result) * gworld) :=
  let g := grp w in
  match p with
  | GLock => w ← lockMu w; Some (Next GLookup, w)
  | GLookup =>
      match calls g !! key with
      | Some c => Some (Next (GHit c), w)
      | None =>
          let c := nextc w in
          let w := GWorld g (<[c:=mkCall 1 0 false key]> (cheap w)) (S c) (runsLog w) in
          Some (Next (GUnlock c), upd (set_calls (<[key:=c]> (calls g))) w)
      end
  | GHit c => Some (Next (GShared c), upd (set_mu false) w)
  | GShared c => Some (Next (GWait c), upd (set_sharedCalls (add64 (sharedCalls g) 1)) w)
  | GWait c => if wg (cget w c) =? 0 then Some (Next (GRead c), w) else None
  | GRead c => Some (Return (c, mkResult (val (cget w c)) (err (cget w c)) true), w)
  | GUnlock c => Some (Next (GTotal c), upd (set_mu false) w)
  | GTotal c => Some (Next (GCall c), upd (set_totalCalls (add64 (totalCalls g) 1)) w)
  | GCall c =>
      if (pick o =? 0)%nat then
        Some (Next (GDone c),
          logRun c key (clk o) (alt o) (cput c (mkCall (wg (cget w c)) (clk o) (alt o) (ckey (cget w c))) w))
      else Some (Panic "fn", w)
  | GDone c =>
      Some (Next (GLock2 c),
            cput c (mkCall (wg (cget w c) - 1) (val (cget w c)) (err (cget w c)) (ckey (cget w c))) w)
  | GLock2 c => w ← lockMu w; Some (Next (GDelete c), w)
  | GDelete c => Some (Next (GUnlock2 c), upd (set_calls (delete key (calls g))) w)
  | GUnlock2 c => Some (Next (GResult c), upd (set_mu false) w)
  | GResult c => Some (Return (c, mkResult (val (cget w c)) (err (cget w c)) false), w)
  end.

Inductive fgpc := FLock | FDelete | FUnlock.

Definition Forget_step (key : string) (p : fgpc) (w : gworld) : option (outcome fgpc unit * gworld) :=
  match p with
  | FLock => w ← lockMu w; Some (Next FDelete, w)
  | FDelete => Some (Next FUnlock, upd (set_calls (delete key (calls (grp w)))) w)
  | FUnlock => Some (Return tt, upd (set_mu false) w)
  end.

Record SingleflightStats := mkSFStats { TotalCalls : Z; SharedCalls : Z; Age : Z }.

Definition GetStats (now : Z) (g : Group) : SingleflightStats :=
  mkSFStats (totalCalls g) (sharedCalls g) (now - createdAt g).

(** ** DoChan

    A [Do] in a goroutine of its own whose result is sent on a channel [ch]
    with room for one value: [ChDo] inside [Do], [ChSend] the send.  A panic
    of the function is not recovered. *)
Inductive chpc := ChDo (p : gpc) | ChSend (c : nat) (r : Result) | ChEnd | ChPanic (m : string).

Definition DoChan_step (key : string) (o : oracle) (p : chpc) (ch : option Result) (w : gworld)
    : option (chpc * option Result * gworld) :=
  match p with
  | ChDo p =>
      '(r, w) ← Do_step key o p w;
      Some (match r with Next p => ChDo p | Return (c, r) => ChSend c r | Panic e => ChPanic e end, ch, w)
  | ChSend c r => match ch with None => Some (ChEnd, Some r, w) | Some _ => None end
  | ChEnd | ChPanic _ => None
  end.

(** ** Goroutines

    The goroutine of [DoChan] moves like one that calls [Do]
    ([DoChan_is_Do] below), so the machine has only the latter. *)
Inductive gop := OpDo (key : string) | OpForget (key : string).
Inductive thread :=
| TIdle (r : option (string * nat * Result)) | TDo (key : string) (p : gpc)
| TForget (key : string) (p : fgpc) | TPanic (m : string).

Definition gcall (op : gop) (now : Z) (th : thread) : option thread :=
  match th with
  | TIdle _ => Some match op with OpDo k => TDo k GLock | OpForget k => TForget k FLock end
  | _ => None
  end.

Definition grun (o : oracle) (th : thread) (w : gworld) : option (thread * gworld) :=
  match th with
  | TIdle _ | TPanic _ => None
  | TDo k p =>
      '(r, w) ← Do_step k o p w;
      Some (match r with
            | Next p => TDo k p | Return (c, r) => TIdle (Some (k, c, r)) | Panic e => TPanic e
            end, w)
  | TForget k p =>
      '(r, w) ← Forget_step k p w;
      Some (match r with Next p => TForget k p | Return _ => TIdle None | Panic e => TPanic e end, w)
  end.

Definition group : machine gworld thread gop := Machine gcall grun (fun _ w => w).

(** What the goroutine of [DoChan] is for the machine. *)
Definition chThread (key : string) (p : chpc) : thread :=
  match p with
  | ChDo p => TDo key p
  | ChSend c r => TIdle (Some (key, c, r))
  | ChEnd => TIdle None
  | ChPanic e => TPanic e
  end.

(** The goroutine of [DoChan] makes the steps of [Do]; then its channel
    receives the result, once and without waiting. *)
Lemma DoChan_is_Do key o p w :
  (forall p' ch' w', DoChan_step key o (ChDo p) None w = Some (p', ch', w') ->
     ch' = None /\ grun o (TDo key p) w = Some (chThread key p', w')) /\
  (forall th' w', grun o (TDo key p) w = Some (th', w') ->
     exists p', chThread key p' = th' /\ DoChan_step key o (ChDo p) None w = Some (p', None, w')) /\
  (forall c r, DoChan_step key o (ChSend c r) None w = Some (ChEnd, Some r, w)).
Proof.
  split_and!; simpl; [| |done].
  - intros p' ch' w' ([r w1] & E & [= <- <- <-])%bind_Some. split; [done|]. rewrite E. simpl. by destruct r as [|[c r]|].
  - intros th' w' ([r w1] & E & [= <- <-])%bind_Some. rewrite E. simpl.
    eexists. split; [|done]. by destruct r as [|[c r]|].
Qed.

Definition initial (k : nat) (now : Z) : config (Sh:=gworld) (Th:=thread) :=
  (GWorld (NewGroup now) ∅ 0 [], replicate k (TIdle None)).

(** * Invariants *)

Definition known (w : gworld) (k : string) (c : nat) : Prop :=
  exists x, cheap w !! c = Some x /\ ckey x = k.
Definition logged (w : gworld) (k : string) (c : nat) : Prop :=
  (c, (k, val (cget w c), err (cget w c))) ∈ runsLog w.
Definition ran (w : gworld) : list nat := (runsLog w).*1.

(** What the position of a goroutine says of its call. *)
Definition local (w : gworld) (th : thread) : Prop :=
  match th with
  | TDo k (GHit c | GShared c | GWait c) => known w k c
  | TDo k (GUnlock c | GTotal c | GCall c) => known w k c /\ wg (cget w c) = 1 /\ c ∉ ran w
  | TDo k (GDone c) => known w k c /\ wg (cget w c) = 1 /\ logged w k c
  | TDo k (GRead c | GLock2 c | GDelete c | GUnlock2 c | GResult c) => known w k c /\ logged w k c
  | TIdle (Some (k, c, r)) => (c, (k, Val r, Err r)) ∈ runsLog w
  | _ => True
  end.

(** The call a goroutine executes the function for, until it removes it. *)
Definition owner (th : thread) : option (string * nat) :=
  match th with
  | TDo k (GUnlock c | GTotal c | GCall c | GDone c | GLock2 c | GDelete c) => Some (k, c)
  | _ => None
  end.

Record Heap (w : gworld) : Prop := {
  heap_once : NoDup (ran w);
  heap_log : forall c k v e, (c, (k, v, e)) ∈ runsLog w ->
    exists x, cheap w !! c = Some x /\ ckey x = k /\ val x = v /\ err x = e;
  heap_calls : forall c x, cheap w !! c = Some x -> (c < nextc w)%nat /\ (wg x = 0 -> c ∈ ran w);
  heap_map : forall k c, calls (grp w) !! k = Some c -> known w k c
}.

Record Inv (c : gworld * list thread) : Prop := {
  inv_heap : Heap c.1;
  inv_local : Forall (local c.1) c.2;
  inv_owner : forall i j a b k k' x, c.2 !! i = Some a -> c.2 !! j = Some b ->
    owner a = Some (k, x) -> owner b = Some (k', x) -> i = j
}.

(** A step changes at most the call [c0], and only as these clauses say. *)
Record changes (w w' : gworld) (c0 : nat) : Prop := {
  ch_other : forall c, c <> c0 -> cheap w' !! c = cheap w !! c;
  ch_same : forall x, cheap w !! c0 = Some x ->
    exists x', cheap w' !! c0 = Some x' /\ ckey x' = ckey x /\
      (c0 ∈ ran w -> val x' = val x /\ err x' = err x);
  ch_log : exists l, runsLog w' = runsLog w ++ l /\ Forall (fun e => e.1 = c0) l
}.

Lemma cget_Some w c x : cheap w !! c = Some x -> cget w c = x.
Proof. intros E. unfold cget. by rewrite E. Qed.

Lemma changes_refl w w' c0 :
  cheap w' = cheap w -> runsLog w' = runsLog w -> changes w w' c0.
Proof.
  intros E1 E2. constructor; rewrite ?E1, ?E2; [done|eauto|]. exists []. by rewrite app_nil_r.
Qed.

Lemma changes_known w w' c0 k c : changes w w' c0 -> known w k c -> known w' k c.
Proof.
  intros H (x & Hx & Hk). destruct (decide (c = c0)) as [->|Hne].
  - destruct (ch_same _ _ _ H x Hx) as (x' & Hx' & E & _). exists x'. by rewrite E.
  - exists x. by rewrite (ch_other _ _ _ H).
Qed.

Lemma changes_log w w' c0 e : changes w w' c0 -> e ∈ runsLog w -> e ∈ runsLog w'.
Proof. intros H He. destruct (ch_log _ _ _ H) as (l & -> & _). apply elem_of_app. by left. Qed.

Lemma changes_logged w w' c0 k c :
  changes w w' c0 -> known w k c -> logged w k c -> logged w' k c.
Proof.
  intros H (x & Hx & Hk) Hl. unfold logged in *. rewrite (cget_Some _ _ _ Hx) in Hl.
  destruct (decide (c = c0)) as [->|Hne].
  - destruct (ch_same _ _ _ H x Hx) as (x' & Hx' & _ & Hv). rewrite (cget_Some _ _ _ Hx').
    destruct Hv as [-> ->]; [|by apply (changes_log w w' c0)].
    apply (list_elem_of_fmap_2 fst) in Hl. exact Hl.
  - rewrite (cget_Some w' c x) by (by rewrite (ch_other _ _ _ H)). by apply (changes_log w w' c0).
Qed.

Lemma changes_unran w w' c0 c : changes w w' c0 -> c <> c0 -> c ∉ ran w -> c ∉ ran w'.
Proof.
  intros H Hne Hr. destruct (ch_log _ _ _ H) as (l & E & Hl). unfold ran in *.
  rewrite E, fmap_app, not_elem_of_app. split; [done|]. intros ([c1 e] & Ec & He)%list_elem_of_fmap.
  rewrite Forall_forall in Hl. specialize (Hl _ He). simpl in *. congruence.
Qed.

(** The other goroutines keep what they know. *)
Lemma changes_local w w' c0 th :
  changes w w' c0 -> (forall k c, owner th = Some (k, c) -> c <> c0) -> local w th -> local w' th.
Proof.
  intros H Ho. destruct th as [[[[k c] r]|]|k p|k p|m]; simpl; try done; [by apply (changes_log _ _ c0)|].
  destruct p as [| |c|c|c|c|c|c|c|c|c|c|c|c]; simpl in *; try done;
    try (by intros; eapply changes_known);
    try (intros [H1 H2]; split; [by eapply changes_known|by eapply changes_logged]);
    intros (H1 & H2 & H3); pose proof (Ho _ _ eq_refl) as Hne;
    assert (Ec : cget w' c = cget w c) by (unfold cget; by rewrite (ch_other _ _ _ H));
    rewrite Ec; (split; [by eapply changes_known|split; [done|]]);
    first [by eapply changes_unran|by eapply changes_logged].
Qed.

Lemma Heap_same w w' :
  cheap w' = cheap w -> runsLog w' = runsLog w -> nextc w' = nextc w ->
  (forall k c, calls (grp w') !! k = Some c -> calls (grp w) !! k = Some c) -> Heap w -> Heap w'.
Proof.
  intros E1 E2 E3 E4 [H1 H2 H3 H4].
  constructor; unfold ran, known in *; rewrite ?E1, ?E2, ?E3; eauto.
Qed.

Lemma Heap_new w k :
  Heap w ->
  Heap (GWorld (set_calls (<[k:=nextc w]> (calls (grp w))) (grp w))
          (<[nextc w:=mkCall 1 0 false k]> (cheap w)) (S (nextc w)) (runsLog w)).
Proof.
  intros [H1 H2 H3 H4].
  assert (Hf : forall c x, cheap w !! c = Some x -> nextc w <> c) by (intros c x Hc; apply H3 in Hc; lia).
  constructor; simpl; auto.
  - intros c k' v e He. destruct (H2 _ _ _ _ He) as (x & Hx & E). exists x.
    by rewrite lookup_insert_ne by (by eapply Hf).
  - intros c x. rewrite lookup_insert. case_decide as E; simpl; [|intros Hc; destruct (H3 _ _ Hc); split; [lia|done]].
    intros [= <-]. simpl. lia.
  - intros k' c. unfold known. simpl. rewrite lookup_insert. case_decide as E.
    + intros [= <-]. rewrite lookup_insert_eq. subst. eauto.
    + intros Hc. destruct (H4 _ _ Hc) as (x & Hx & Hk). exists x.
      by rewrite lookup_insert_ne by (by eapply Hf).
Qed.

Lemma changes_put w c x l :
  (forall y, cheap w !! c = Some y -> ckey x = ckey y /\ (c ∈ ran w -> val x = val y /\ err x = err y)) ->
  Forall (fun e => e.1 = c) l ->
  changes w (GWorld (grp w) (<[c:=x]> (cheap w)) (nextc w) (runsLog w ++ l)) c.
Proof.
  intros Hx Hl. constructor; simpl; [|intros y Hy; rewrite lookup_insert_eq; eauto|eauto].
  intros c' Hne. by rewrite lookup_insert_ne.
Qed.

Lemma Heap_put w c x l :
  Heap w -> is_Some (cheap w !! c) -> NoDup (ran w ++ l.*1) ->
  Forall (fun e => e = (c, (ckey x, val x, err x))) l ->
  changes w (GWorld (grp w) (<[c:=x]> (cheap w)) (nextc w) (runsLog w ++ l)) c ->
  (wg x = 0 -> c ∈ ran w) ->
  Heap (GWorld (grp w) (<[c:=x]> (cheap w)) (nextc w) (runsLog w ++ l)).
Proof.
  intros [H1 H2 H3 H4] [y Hy] Hnd Hl Hch Hw. constructor; unfold ran in *; simpl.
  - by rewrite fmap_app.
  - intros c' k v e [He|He]%elem_of_app.
    + destruct (H2 _ _ _ _ He) as (z & Hz & Hk & Hv & Hr). destruct (decide (c' = c)) as [->|Hne].
      * destruct (ch_same _ _ _ Hch z Hz) as (x' & Hx' & Ek & Ev). simpl in *.
        rewrite lookup_insert_eq in *. simplify_eq. exists x'. destruct Ev as [-> ->]; [|done].
        by apply (list_elem_of_fmap_2 fst) in He.
      * exists z. by rewrite lookup_insert_ne.
    + rewrite Forall_forall in Hl. specialize (Hl _ He). simplify_eq. exists x.
      by rewrite lookup_insert_eq.
  - intros c' x'. rewrite lookup_insert. case_decide as E; rewrite fmap_app, elem_of_app.
    + intros [= <-]. subst. destruct (H3 _ _ Hy). auto.
    + intros Hc. destruct (H3 _ _ Hc). auto.
  - intros k c' Hc. by apply (changes_known w _ c), H4.
Qed.

(** What a step of a goroutine does. *)
Record stepOk (w w' : gworld) (th th' : thread) (c0 : nat) : Prop := {
  so_changes : changes w w' c0;
  so_heap : Heap w';
  so_local : local w' th';
  so_touched : c0 = nextc w \/ exists k, owner th = Some (k, c0);
  so_owner : owner th' = None \/ owner th' = owner th \/ exists k, owner th' = Some (k, nextc w)
}.

(** A step that touches only the group and removes entries at most. *)
Lemma stepOk_group w w' th th' :
  Heap w -> cheap w' = cheap w -> runsLog w' = runsLog w -> nextc w' = nextc w ->
  (forall k c, calls (grp w') !! k = Some c -> calls (grp w) !! k = Some c) ->
  local w' th' -> owner th' = None \/ owner th' = owner th -> stepOk w w' th th' (nextc w).
Proof.
  intros. constructor; auto; [by apply changes_refl|by eapply Heap_same|tauto].
Qed.

Lemma lockMu_Some w w' : lockMu w = Some w' -> w' = upd (set_mu true) w.
Proof. unfold lockMu. destruct (mu (grp w)); by intros [= <-]. Qed.

Lemma ran_known w c : Heap w -> c ∈ ran w -> exists k v e, (c, (k, v, e)) ∈ runsLog w /\ known w k c.
Proof.
  intros HH ([c' [[k v] e]] & -> & He)%list_elem_of_fmap. exists k, v, e. split; [done|].
  destruct (heap_log _ HH _ _ _ _ He) as (x & Hx & Hk & _). by exists x.
Qed.

(** A call whose group of waiters is released has a result. *)
Lemma waited w k c : Heap w -> known w k c -> wg (cget w c) = 0 -> logged w k c.
Proof.
  intros HH (x & Hx & Hk) Hw. unfold logged. rewrite (cget_Some _ _ _ Hx) in *.
  destruct (heap_calls _ HH _ _ Hx) as [_ Hr].
  destruct (ran_known _ _ HH (Hr Hw)) as (k' & v & e & He & _).
  destruct (heap_log _ HH _ _ _ _ He) as (x' & Hx' & E1 & E2 & E3). by simplify_eq.
Qed.

Lemma new_step w k :
  Heap w ->
  stepOk w (upd (set_calls (<[k:=nextc w]> (calls (grp w))))
              (GWorld (grp w) (<[nextc w:=mkCall 1 0 false k]> (cheap w)) (S (nextc w)) (runsLog w)))
    (TDo k GLookup) (TDo k (GUnlock (nextc w))) (nextc w).
Proof.
  intros HH. constructor; simpl; eauto.
  - constructor; simpl; [| |exists []; by rewrite app_nil_r].
    + intros c Hne. by rewrite lookup_insert_ne.
    + intros x Hx. apply (heap_calls _ HH) in Hx. lia.
  - exact (Heap_new w k HH).
  - unfold known, cget. simpl. rewrite lookup_insert_eq. split; [eauto|]. split; [done|].
    intros (k' & v & e & _ & x & Hx & _)%(ran_known _ _ HH). apply (heap_calls _ HH) in Hx. lia.
Qed.

Lemma call_step w k c o :
  Heap w -> local w (TDo k (GCall c)) ->
  stepOk w (logRun c k (clk o) (alt o) (cput c (mkCall (wg (cget w c)) (clk o) (alt o) (ckey (cget w c))) w))
    (TDo k (GCall c)) (TDo k (GDone c)) c.
Proof.
  intros HH ((x & Hx & Hk) & Hw & Hr). rewrite (cget_Some _ _ _ Hx) in *.
  assert (Hch : changes w (logRun c k (clk o) (alt o) (cput c (mkCall (wg x) (clk o) (alt o) (ckey x)) w)) c).
  { apply (changes_put w c (mkCall (wg x) (clk o) (alt o) (ckey x)) [(c, (k, clk o, alt o))]);
      [|by constructor]. intros y Hy. simplify_eq. split; [done|]. by intros ?%Hr. }
  constructor; simpl; eauto.
  - apply (Heap_put w c (mkCall (wg x) (clk o) (alt o) (ckey x)) [(c, (k, clk o, alt o))]);
      [done|by exists x| |subst; by repeat constructor|exact Hch|simpl; by rewrite Hw].
    apply NoDup_app. split; [apply HH|]. split; [|apply NoDup_singleton].
    intros y Hy Hy'%list_elem_of_singleton. simpl in Hy'. by subst.
  - unfold logged, known. simpl. erewrite cget_Some by (simpl; by rewrite lookup_insert_eq). simpl.
    rewrite lookup_insert_eq. split; [eauto|]. split; [done|]. apply elem_of_app. right. by left.
Qed.

Lemma done_step w k c :
  Heap w -> local w (TDo k (GDone c)) ->
  stepOk w (cput c (mkCall (wg (cget w c) - 1) (val (cget w c)) (err (cget w c)) (ckey (cget w c))) w)
    (TDo k (GDone c)) (TDo k (GLock2 c)) c.
Proof.
  intros HH ((x & Hx & Hk) & Hw & Hl). unfold logged in Hl. rewrite (cget_Some _ _ _ Hx) in *.
  set (w' := cput c (mkCall (wg x - 1) (val x) (err x) (ckey x)) w).
  assert (E : w' = GWorld (grp w) (<[c:=mkCall (wg x - 1) (val x) (err x) (ckey x)]> (cheap w)) (nextc w) (runsLog w ++ []))
    by (unfold w', cput; by rewrite app_nil_r).
  assert (Hch : changes w w' c).
  { rewrite E. apply changes_put; [|by constructor]. intros y Hy. by simplify_eq. }
  constructor; simpl; eauto.
  - rewrite E in *. apply Heap_put; [done|by exists x| |by constructor|done|].
    + rewrite app_nil_r. apply HH.
    + intros _. by apply (list_elem_of_fmap_2 fst) in Hl.
  - split; [by eapply changes_known; eauto; exists x|]. eapply changes_logged; eauto; [by exists x|].
    unfold logged. by rewrite (cget_Some _ _ _ Hx).
Qed.

Lemma sf_run o th w th' w' :
  grun o th w = Some (th', w') -> Heap w -> local w th -> exists c0, stepOk w w' th th' c0.
Proof.
  intros Hr HH Hl. destruct th as [|k p|k p|]; try done.
  - destruct p as [| |c|c|c|c|c|c|c|c|c|c|c|c].
    all: unfold grun in Hr; simpl in Hr;
      try (injection Hr as <- <-; exists (nextc w); apply stepOk_group; by auto).
    + destruct (lockMu w) as [w1|] eqn:E; simplify_eq/=. apply lockMu_Some in E as ->.
      exists (nextc w). apply stepOk_group; by auto.
    + destruct (calls (grp w) !! k) as [c|] eqn:Ec; injection Hr as <- <-; exists (nextc w).
      * apply stepOk_group; auto. by apply HH.
      * by apply new_step.
    + destruct (wg (cget w c) =? 0) eqn:Ew; [|done]. injection Hr as <- <-. apply Z.eqb_eq in Ew.
      exists (nextc w). apply stepOk_group; auto. split; [done|by apply waited].
    + injection Hr as <- <-. exists (nextc w). apply stepOk_group; auto. apply Hl.
    + destruct (pick o =? 0)%nat; injection Hr as <- <-; [exists c; by apply call_step|].
      exists (nextc w). apply stepOk_group; by auto.
    + simplify_eq. exists c. by apply done_step.
    + destruct (lockMu w) as [w1|] eqn:E; simplify_eq/=. apply lockMu_Some in E as ->.
      exists (nextc w). apply stepOk_group; by auto.
    + simplify_eq. exists (nextc w). apply stepOk_group; auto. simpl. intros k' c'.
      rewrite lookup_delete_Some. tauto.
    + injection Hr as <- <-. exists (nextc w). apply stepOk_group; auto. apply Hl.
  - destruct p; unfold grun in Hr; simpl in Hr;
      try (injection Hr as <- <-; exists (nextc w); apply stepOk_group; by auto).
    + destruct (lockMu w) as [w1|] eqn:E; simplify_eq/=. apply lockMu_Some in E as ->.
      exists (nextc w). apply stepOk_group; by auto.
    + simplify_eq. exists (nextc w). apply stepOk_group; auto. simpl. intros k' c'.
      rewrite lookup_delete_Some. tauto.
Qed.

Lemma owner_known w th k c : Heap w -> local w th -> owner th = Some (k, c) -> known w k c /\ (c < nextc w)%nat.
Proof.
  intros HH Hl Ho. assert (Hk : known w k c).
  { destruct th as [|k' p| |]; try done. destruct p; simplify_eq/=; tauto. }
  split; [done|]. destruct Hk as (x & Hx & _). by destruct (heap_calls _ HH _ _ Hx).
Qed.

Lemma sf_Inv_initial k now : Inv (initial k now).
Proof.
  constructor; simpl.
  - constructor; simpl; try done; [constructor|]. intros c k' v e He. by apply not_elem_of_nil in He.
  - by apply Forall_replicate.
  - intros i j a b k1 k2 x [-> _]%lookup_replicate. done.
Qed.

Lemma sf_Inv_call w ths t th th' op now :
  Inv (w, ths) -> ths !! t = Some th -> gcall op now th = Some th' -> Inv (w, <[t:=th']> ths).
Proof.
  intros [H1 H2 H3] Ht Hc. assert (owner th' = None /\ local w th') as [E1 E2].
  { destruct th; simplify_eq/=. by destruct op. }
  constructor; simpl in *; auto; [by apply Forall_insert|].
  intros i j a b k k' x Hi Hj. apply list_lookup_insert_Some in Hi as [(_ & <- & _)|[_ Hi]]; [congruence|].
  apply list_lookup_insert_Some in Hj as [(_ & <- & _)|[_ Hj]]; [congruence|eauto].
Qed.

Lemma sf_Inv_run w ths t th th' w' o :
  Inv (w, ths) -> ths !! t = Some th -> grun o th w = Some (th', w') -> Inv (w', <[t:=th']> ths).
Proof.
  intros [H1 H2 H3] Ht Hr. simpl in *.
  destruct (sf_run _ _ _ _ _ Hr H1 (Forall_lookup_1 _ _ _ _ H2 Ht)) as (c0 & [S1 S2 S3 S4 S5]).
  assert (Hk : forall i a k x, ths !! i = Some a -> owner a = Some (k, x) -> (x < nextc w)%nat).
  { intros i a k x Hi Ho. by destruct (owner_known w a k x H1 (Forall_lookup_1 _ _ _ _ H2 Hi) Ho). }
  assert (Hne : forall i a k, ths !! i = Some a -> i <> t -> owner a = Some (k, c0) -> False).
  { intros i a k Hi Hit Ho. destruct S4 as [->|[k' Ho']]; [apply (Hk _ _ _ _ Hi) in Ho; lia|].
    by apply Hit, (H3 _ _ _ _ _ _ _ Hi Ht Ho Ho'). }
  constructor; simpl; [done| |].
  - apply Forall_lookup. intros i a Hi.
    apply list_lookup_insert_Some in Hi as [(_ & <- & _)|[Hit Hi]]; [done|].
    apply (changes_local w w' c0); [done| |by eapply Forall_lookup_1].
    intros k c Ho ->. by eapply Hne.
  - assert (Hnew : forall j b k k' x, ths !! j = Some b -> owner b = Some (k', x) -> owner th' = Some (k, x) -> t = j).
    { intros j b k k' x Hj Ho Ho'. destruct S5 as [E|[E|[k1 E]]]; [congruence| |].
      - rewrite E in Ho'. by apply (H3 _ _ _ _ _ _ _ Ht Hj Ho' Ho).
      - rewrite E in Ho'. simplify_eq. apply (Hk _ _ _ _ Hj) in Ho. lia. }
    intros i j a b k k' x Hi Hj Ha Hb.
    apply list_lookup_insert_Some in Hi as [(-> & <- & _)|[Hit Hi]];
      apply list_lookup_insert_Some in Hj as [(<- & <- & _)|[Hjt Hj]]; eauto.
    symmetry. by eapply Hnew.
Qed.

Lemma sf_reach_Inv P k now c : reach group P (initial k now) c -> Inv c.
Proof.
  apply reach_invariant; intros.
  - apply sf_Inv_initial.
  - eapply sf_Inv_call; eauto.
  - eapply sf_Inv_run; eauto.
  - done.
Qed.

(** ** Without Forget: the map points to the call in flight *)

Definition no_forget (l : label gop) : Prop := match l with Call _ (OpForget _) _ => False | _ => True end.

#[export] Instance no_forget_dec l : Decision (no_forget l).
Proof. destruct l as [t [|] now|t o|x]; simpl; apply _. Defined.

Definition notForget (th : thread) : Prop := match th with TForget _ _ => False | _ => True end.

Record Flight (c : gworld * list thread) : Prop := {
  fl_threads : Forall notForget c.2;
  fl_map : forall t th k x, c.2 !! t = Some th -> owner th = Some (k, x) -> calls (grp c.1) !! k = Some x
}.

(** What a step of [Do] does to the map. *)
Lemma sf_run_calls o th w th' w' :
  grun o th w = Some (th', w') -> notForget th ->
  notForget th' /\
  ((calls (grp w') = calls (grp w) /\ (owner th' = None \/ owner th' = owner th)) \/
   (exists k, calls (grp w) !! k = None /\ calls (grp w') = <[k:=nextc w]> (calls (grp w)) /\
      owner th' = Some (k, nextc w)) \/
   (exists k c, owner th = Some (k, c) /\ calls (grp w') = delete k (calls (grp w)) /\ owner th' = None)).
Proof.
  intros Hr Hn. destruct th as [|k p|k p|]; try done.
  destruct p as [| |c|c|c|c|c|c|c|c|c|c|c|c]; unfold grun in Hr; simpl in Hr;
    try (injection Hr as <- <-; split; [done|left; split; by auto]).
  - destruct (lockMu w) as [w1|] eqn:E; simplify_eq/=. apply lockMu_Some in E as ->. auto.
  - destruct (calls (grp w) !! k) as [c|] eqn:Ec; injection Hr as <- <-; split; auto. right. left. eauto.
  - destruct (wg (cget w c) =? 0); [|done]. injection Hr as <- <-. auto.
  - destruct (pick o =? 0)%nat; injection Hr as <- <-; auto.
  - destruct (lockMu w) as [w1|] eqn:E; simplify_eq/=. apply lockMu_Some in E as ->. auto.
  - injection Hr as <- <-. split; [done|]. right. right. eauto.
Qed.

Lemma Flight_run w ths t th th' w' o :
  Inv (w, ths) -> Flight (w, ths) -> ths !! t = Some th -> grun o th w = Some (th', w') ->
  Flight (w', <[t:=th']> ths).
Proof.
  intros [_ _ Hu] [F1 F2] Ht Hr. simpl in *.
  destruct (sf_run_calls _ _ _ _ _ Hr (Forall_lookup_1 _ _ _ _ F1 Ht)) as [Hn Hc].
  constructor; simpl; [by apply Forall_insert|].
  intros i a k x Hi Ha. apply list_lookup_insert_Some in Hi as [(-> & <- & _)|[Hit Hi]].
  - destruct Hc as [(-> & [E|E])|[(k1 & _ & -> & E)|(k1 & c & _ & _ & E)]]; rewrite E in Ha; try done.
    + by eapply F2.
    + simplify_eq. by rewrite lookup_insert_eq.
  - destruct Hc as [(-> & _)|[(k1 & Hk1 & -> & _)|(k1 & c & Ho & -> & _)]]; [by eapply F2| |];
      pose proof (F2 _ _ _ _ Hi Ha).
    + rewrite lookup_insert_ne; congruence.
    + rewrite lookup_delete_ne; [done|]. intros ->. pose proof (F2 _ _ _ _ Ht Ho).
      simplify_eq. by apply Hit, (Hu _ _ _ _ _ _ _ Ht Hi Ho Ha).
Qed.

Lemma sf_reach_Flight k now c : reach group no_forget (initial k now) c -> Inv c /\ Flight c.
Proof.
  apply (reach_invariant group no_forget (fun c => Inv c /\ Flight c)).
  - split; [apply sf_Inv_initial|]. constructor; simpl; [by apply Forall_replicate|].
    by intros t th k' x [-> _]%lookup_replicate.
  - intros w ths t th th' op now' [H1 [F1 F2]] HP Ht Hc. split; [by eapply sf_Inv_call|]. simpl in *.
    assert (notForget th' /\ owner th' = None) as [E1 E2] by (destruct th; simplify_eq/=; by destruct op).
    constructor; simpl; [by apply Forall_insert|]. intros i a k' x Hi Ha.
    apply list_lookup_insert_Some in Hi as [(_ & <- & _)|[_ Hi]]; [congruence|by eapply F2].
  - intros w ths t th th' w' o [H1 H2] _ Ht Hr. split; [by eapply sf_Inv_run|by eapply Flight_run].
  - done.
Qed.

Lemma filter_key_nil {A B} `{EqDecision A} (l : list (A * B)) c :
  c ∉ l.*1 -> filter (fun e => e.1 = c) l = [].
Proof.
  induction l as [|[c' v'] l IH]; simpl; [done|]. intros [Hc Hn]%not_elem_of_cons.
  rewrite filter_cons_False; [by apply IH|]. simpl. congruence.
Qed.

Lemma filter_NoDup_key {A B} `{EqDecision A} (l : list (A * B)) c v :
  NoDup l.*1 -> (c, v) ∈ l -> filter (fun e => e.1 = c) l = [(c, v)].
Proof.
  induction l as [|[c' v'] l IH]; simpl; [by intros _ ?%not_elem_of_nil|].
  intros [Hn Hd]%NoDup_cons [?|Hin]%elem_of_cons.
  - simplify_eq. by rewrite filter_cons_True, filter_key_nil.
  - rewrite filter_cons_False; [by apply IH|]. simpl. intros ->.
    by apply (list_elem_of_fmap_2 fst) in Hin.
Qed.

(** * Theorems *)

(** The goroutine is about to call, or is inside, the function for [key]. *)
Definition flying (key : string) (th : thread) : Prop :=
  match th with TDo k (GTotal _ | GCall _) => k = key | _ => False end.

(** One flight per key.  In a program that does not call [Forget], two
    goroutines that execute the function for the same key are the same. *)
Theorem sf_one_flight k now w ths i j a b key :
  reach group no_forget (initial k now) (w, ths) ->
  ths !! i = Some a -> ths !! j = Some b -> flying key a -> flying key b -> i = j.
Proof.
  intros [[_ _ Hu] [_ F]]%sf_reach_Flight Hi Hj Ha Hb. simpl in *.
  assert (forall th, flying key th -> exists x, owner th = Some (key, x)) as Hf.
  { intros th H. destruct th as [|k' p| |]; try done. destruct p; try done; simpl in H; subst; eauto. }
  destruct (Hf _ Ha) as [x Ex], (Hf _ Hb) as [y Ey].
  pose proof (F _ _ _ _ Hi Ex). pose proof (F _ _ _ _ Hj Ey). simplify_eq. by eapply Hu.
Qed.

(** C27: the shared result is the result.  A call of [Do] returns what the
    one execution of the function for its call returned, for the key it
    asked for; goroutines that joined the same call return the same value
    and error.  This holds with [Forget] too. *)
Theorem sf_shared_result k now w ths i j k1 k2 c r1 r2 :
  reach group any_label (initial k now) (w, ths) ->
  ths !! i = Some (TIdle (Some (k1, c, r1))) -> ths !! j = Some (TIdle (Some (k2, c, r2))) ->
  k1 = k2 /\ Val r1 = Val r2 /\ Err r1 = Err r2 /\
  filter (fun e => e.1 = c) (runsLog w) = [(c, (k1, Val r1, Err r1))].
Proof.
  intros [[Hn Hl _ _] Hloc _]%sf_reach_Inv Hi Hj. simpl in *.
  pose proof (Forall_lookup_1 _ _ _ _ Hloc Hi) as E1. pose proof (Forall_lookup_1 _ _ _ _ Hloc Hj) as E2.
  simpl in *. destruct (Hl _ _ _ _ E1) as (x & Hx & ? & ? & ?).
  destruct (Hl _ _ _ _ E2) as (x' & Hx' & ? & ? & ?). simplify_eq. split_and!; try congruence.
  by apply filter_NoDup_key.
Qed.

(** T0 executes the function for "k", T1 joins; both return. *)
Definition joined : list (label gop) :=
  Call 0 (OpDo "k") 0 :: runs 0 4 ++ Call 1 (OpDo "k") 0 :: runs 1 4 ++
  Run 0 (Oracle true 0 42) :: runs 0 5 ++ runs 1 2.

Lemma sf_one_flight_witness :
  exists w ths, reach group no_forget (initial 2 0) (w, ths) /\
    ths !! 0%nat = Some (TDo "k" (GCall 0)) /\ flying "k" (TDo "k" (GCall 0)) /\ 0%nat = 0%nat.
Proof.
  assert (R := after_reach group no_forget (Call 0 (OpDo "k") 0 :: runs 0 4) (initial 2 0)
    ltac:(by_decide) ltac:(by_eval)).
  eexists _, _. split; [exact R|]. split; [by_eval|]. split; [done|].
  apply (sf_one_flight 2 0 _ _ 0 0 (TDo "k" (GCall 0)) (TDo "k" (GCall 0)) "k" R); done.
Defined.

Lemma sf_shared_result_witness :
  let c := after group joined (initial 2 0) in
  "k" = "k" /\ 42 = 42 /\ true = true /\
  filter (fun e => e.1 = 0%nat) (runsLog c.1) = [(0%nat, ("k", 42, true))].
Proof.
  apply (sf_shared_result 2 0 _ (after group joined (initial 2 0)).2 0 1 "k" "k" 0
    (mkResult 42 true false) (mkResult 42 true true)); [|by_eval|by_eval].
  apply after_reach; [apply Forall_any|by_eval].
Defined.

(** T0 is in flight when T1 forgets the key; T2 starts a new flight; T0
    lands and deletes the key; T1 calls [Do]. *)
Definition forgetRace : list (label gop) :=
  Call 0 (OpDo "k") 0 :: runs 0 4 ++ Call 1 (OpForget "k") 0 :: runs 1 3 ++
  Call 2 (OpDo "k") 0 :: runs 2 4 ++ runs 0 6 ++ Call 1 (OpDo "k") 0 :: runs 1 4.

(** After a [Forget] deduplication can fail for later calls: the call that
    was forgotten deletes the key when it ends, although the key then stands
    for a newer call.  After [forgetRace] T1 and T2, which both called [Do]
    after the only [Forget], execute the function at the same time. *)
Theorem sf_forget_duplicates :
  exists w ths a b, execs group forgetRace (initial 3 0) = Some (w, ths) /\
    ths !! 1%nat = Some a /\ ths !! 2%nat = Some b /\ flying "k" a /\ flying "k" b.
Proof. eexists _, _, _, _. split; [vm_compute; reflexivity|]. repeat split. Qed.

(** The function of T0 panics; T1 calls [Do] with the same key. *)
Definition panicked : list (label gop) :=
  Call 0 (OpDo "k") 0 :: runs 0 4 ++ Run 0 (Oracle false 1 0) :: Call 1 (OpDo "k") 0 :: runs 1 4.

(** A function that panics blocks its key for ever: [Do] neither calls
    [wg.Done] nor deletes the key.  After [panicked] no goroutine can move,
    T1 waits for a call that nobody executes. *)
Theorem sf_panic_blocks_key :
  exists w, execs group panicked (initial 2 0) = Some (w, [TPanic "fn"; TDo "k" (GWait 0)]) /\
    calls (grp w) !! "k" = Some 0%nat /\
    forall o, grun o (TPanic "fn") w = None /\ grun o (TDo "k" (GWait 0)) w = None.
Proof. eexists. split; [vm_compute; reflexivity|]. repeat split. Qed.
