(* ===== verification/Scheduler.v ===== *)
(** * Scheduler (internal/scheduler/scheduler.go)

    The registry of primitives and goroutines and its event log.  Every
    method that changes the registry holds [mu] from its first to its last
    statement, so a call is one transition and the interleavings of callers
    are the sequences of calls.  Events go through a channel of capacity 256
    ([emit] drops an event when it is full) to the goroutine [eventWriter],
    which is modelled step by step and moves between any two calls.

    [Stats] is an [interface{}] the scheduler never looks into: an integer
    here.  [showDuration] is [time.Duration.String], used in one message. *)

From Stdlib Require Import ZArith Lia.
From stdpp Require Import base list gmap strings.
From S2P Require Import Prelude.

#[local] Open Scope Z_scope.

Inductive PrimitiveType :=
| TypeRWLock | TypeFairRWLock | TypeSemaphore | TypeMutex | TypeCondVar | TypeBarrier
| TypeWaitGroup | TypeOnce | TypeSingleflight.

Definition showType (t : PrimitiveType) : string :=
  match t with
  | TypeRWLock => "RWLock" | TypeFairRWLock => "FairRWLock" | TypeSemaphore => "Semaphore"
  | TypeMutex => "Mutex" | TypeCondVar => "CondVar" | TypeBarrier => "Barrier"
  | TypeWaitGroup => "WaitGroup" | TypeOnce => "Once" | TypeSingleflight => "Singleflight"
  end.

Inductive GoroutineState := StateRunning | StateBlocked | StateWaiting | StateFinished.

#[export] Instance GoroutineState_eq_dec : EqDecision GoroutineState.
Proof. solve_decision. Defined.

Definition maxGoroutines : Z := 10000.

Record PrimitiveInfo := mkPrimitive {
  pID : string; pType : PrimitiveType; pName : string; pCreatedAt : Z; BlockedCount : Z; Stats : Z
}.

Record GoroutineInfo := mkGoroutine {
  gID : Z; gName : string; State : GoroutineState; StartedAt : Z; FinishedAt : Z;
  BlockedOn : string; WaitTime : Z
}.

Record Event := mkEvent {
  Timestamp : Z; EType : string; GoroutineID : Z; PrimitiveID : string; Message : string
}.

(** The program point of [eventWriter]: before [Start], at the [select], with
    an event it has received, the same two in the loop that drains the
    channel after [Stop], and after its return. *)
Inductive writer := WOff | WSelect | WAppend (e : Event) | WDrain | WDrainAppend (e : Event) | WExit.

Record Scheduler := mkScheduler {
  primitives : gmap string PrimitiveInfo;
  goroutines : gmap Z GoroutineInfo;
  totalPrimitives : Z;
  totalGoroutines : Z;
  totalBlocks : Z;
  totalWaitTime : Z;
  startTime : Z;
  events : list Event;
  eventCh : list Event;          (* oldest first *)
  maxEvents : nat;
  done : bool;                   (* closed? *)
  running : bool;
  wpoint : writer
}.

Definition eventChCap : nat := 256.

Definition NewScheduler (now : Z) : Scheduler :=
  mkScheduler ∅ ∅ 0 0 0 0 now [] [] 1000 false false WOff.

Definition set_primitives v s := mkScheduler v (goroutines s) (totalPrimitives s) (totalGoroutines s) (totalBlocks s) (totalWaitTime s) (startTime s) (events s) (eventCh s) (maxEvents s) (done s) (running s) (wpoint s).
Definition set_goroutines v s := mkScheduler (primitives s) v (totalPrimitives s) (totalGoroutines s) (totalBlocks s) (totalWaitTime s) (startTime s) (events s) (eventCh s) (maxEvents s) (done s) (running s) (wpoint s).
Definition set_totalPrimitives v s := mkScheduler (primitives s) (goroutines s) v (totalGoroutines s) (totalBlocks s) (totalWaitTime s) (startTime s) (events s) (eventCh s) (maxEvents s) (done s) (running s) (wpoint s).
Definition set_totalGoroutines v s := mkScheduler (primitives s) (goroutines s) (totalPrimitives s) v (totalBlocks s) (totalWaitTime s) (startTime s) (events s) (eventCh s) (maxEvents s) (done s) (running s) (wpoint s).
Definition set_totalBlocks v s := mkScheduler (primitives s) (goroutines s) (totalPrimitives s) (totalGoroutines s) v (totalWaitTime s) (startTime s) (events s) (eventCh s) (maxEvents s) (done s) (running s) (wpoint s).
Definition set_totalWaitTime v s := mkScheduler (primitives s) (goroutines s) (totalPrimitives s) (totalGoroutines s) (totalBlocks s) v (startTime s) (events s) (eventCh s) (maxEvents s) (done s) (running s) (wpoint s).
Definition set_events v s := mkScheduler (primitives s) (goroutines s) (totalPrimitives s) (totalGoroutines s) (totalBlocks s) (totalWaitTime s) (startTime s) v (eventCh s) (maxEvents s) (done s) (running s) (wpoint s).
Definition set_eventCh v s := mkScheduler (primitives s) (goroutines s) (totalPrimitives s) (totalGoroutines s) (totalBlocks s) (totalWaitTime s) (startTime s) (events s) v (maxEvents s) (done s) (running s) (wpoint s).
Definition set_done v s := mkScheduler (primitives s) (goroutines s) (totalPrimitives s) (totalGoroutines s) (totalBlocks s) (totalWaitTime s) (startTime s) (events s) (eventCh s) (maxEvents s) v (running s) (wpoint s).
Definition set_running v s := mkScheduler (primitives s) (goroutines s) (totalPrimitives s) (totalGoroutines s) (totalBlocks s) (totalWaitTime s) (startTime s) (events s) (eventCh s) (maxEvents s) (done s) v (wpoint s).
Definition set_wpoint v s := mkScheduler (primitives s) (goroutines s) (totalPrimitives s) (totalGoroutines s) (totalBlocks s) (totalWaitTime s) (startTime s) (events s) (eventCh s) (maxEvents s) (done s) (running s) v.

(** [emit]: a non-blocking send. *)
Definition emit (e : Event) (s : Scheduler) : Scheduler :=
  if (length (eventCh s) <? eventChCap)%nat then set_eventCh (eventCh s ++ [e]) s else s.

(** [Start] runs the event writer ([broadcastUpdates] only reads); [Stop]
    closes [done] the first time. *)
Definition Start (s : Scheduler) : Scheduler := set_wpoint WSelect (set_running true s).

Definition Stop (s : Scheduler) : Scheduler :=
  if running s then set_done true (set_running false s) else s.

(** ** Primitives *)

Definition RegisterPrimitive (now : Z) (id : string) (ptype : PrimitiveType) (name : string) (stats : Z)
    (s : Scheduler) : Scheduler :=
  let s := set_primitives (<[id:=mkPrimitive id ptype name now 0 stats]> (primitives s)) s in
  let s := set_totalPrimitives (add64 (totalPrimitives s) 1) s in
  emit (mkEvent now "PrimitiveCreated" 0 id (showType ptype +:+ " '" +:+ name +:+ "' created")) s.

Definition UnregisterPrimitive (now : Z) (id : string) (s : Scheduler) : Scheduler :=
  match primitives s !! id with
  | Some info =>
      let s := set_primitives (delete id (primitives s)) s in
      let s := set_totalPrimitives (add64 (totalPrimitives s) (-1)) s in
      emit (mkEvent now "PrimitiveDestroyed" 0 id
              (showType (pType info) +:+ " '" +:+ pName info +:+ "' destroyed")) s
  | None => s
  end.

Definition UpdatePrimitiveStats (id : string) (stats : Z) (s : Scheduler) : Scheduler :=
  match primitives s !! id with
  | Some i =>
      set_primitives
        (<[id:=mkPrimitive (pID i) (pType i) (pName i) (pCreatedAt i) (BlockedCount i) stats]> (primitives s)) s
  | None => s
  end.

(** [pinfo.BlockedCount += d], an [int32]. *)
Definition addBlocked (d : Z) (i : PrimitiveInfo) : PrimitiveInfo :=
  mkPrimitive (pID i) (pType i) (pName i) (pCreatedAt i) (add32 (BlockedCount i) d) (Stats i).

Definition bumpBlocked (d : Z) (id : string) (s : Scheduler) : Scheduler :=
  match primitives s !! id with
  | Some i => set_primitives (<[id:=addBlocked d i]> (primitives s)) s
  | None => s
  end.

(** ** Goroutines *)

Definition RegisterGoroutine (now : Z) (id : Z) (name : string) (s : Scheduler) : Scheduler :=
  if maxGoroutines <=? Z.of_nat (size (goroutines s)) then s
  else
    let s := set_goroutines (<[id:=mkGoroutine id name StateRunning now 0 "" 0]> (goroutines s)) s in
    let s := set_totalGoroutines (add64 (totalGoroutines s) 1) s in
    emit (mkEvent now "GoroutineStarted" id "" ("Goroutine '" +:+ name +:+ "' started")) s.

Definition UnregisterGoroutine (now : Z) (id : Z) (s : Scheduler) : Scheduler :=
  match goroutines s !! id with
  | Some info =>
      let s := emit (mkEvent now "GoroutineFinished" id "" ("Goroutine '" +:+ gName info +:+ "' finished")) s in
      set_goroutines (delete id (goroutines s)) s
  | None => s
  end.

Definition blockInfo (pid : string) (g : GoroutineInfo) : GoroutineInfo :=
  mkGoroutine (gID g) (gName g) StateBlocked (StartedAt g) (FinishedAt g) pid (WaitTime g).
Definition unblockInfo (wait : Z) (g : GoroutineInfo) : GoroutineInfo :=
  mkGoroutine (gID g) (gName g) StateRunning (StartedAt g) (FinishedAt g) "" (add64 (WaitTime g) wait).

Definition BlockGoroutine (now : Z) (gid : Z) (pid : string) (s : Scheduler) : Scheduler :=
  match goroutines s !! gid with
  | Some g =>
      let s := set_goroutines (<[gid:=blockInfo pid g]> (goroutines s)) s in
      let s := bumpBlocked 1 pid s in
      let s := set_totalBlocks (add64 (totalBlocks s) 1) s in
      emit (mkEvent now "GoroutineBlocked" gid pid
              ("Goroutine '" +:+ gName g +:+ "' blocked on '" +:+ pid +:+ "'")) s
  | None => s
  end.

Section Unblock.
Context (showDuration : Z -> string).

Definition UnblockGoroutine (now : Z) (gid : Z) (wait : Z) (s : Scheduler) : Scheduler :=
  match goroutines s !! gid with
  | Some g =>
      let pid := BlockedOn g in
      let s := set_goroutines (<[gid:=unblockInfo wait g]> (goroutines s)) s in
      let s := bumpBlocked (-1) pid s in
      let s := set_totalWaitTime (add64 (totalWaitTime s) wait) s in
      emit (mkEvent now "GoroutineUnblocked" gid pid
              ("Goroutine '" +:+ gName g +:+ "' unblocked (waited " +:+ showDuration wait +:+ ")")) s
  | None => s
  end.
End Unblock.

(** ** The event writer *)

Definition appendEvent (e : Event) (s : Scheduler) : Scheduler :=
  let l := events s ++ [e] in
  set_events (if (maxEvents s <? length l)%nat then drop (length l - maxEvents s) l else l) s.

(** One step; [alt] decides the [select] when an event and [done] are both
    ready. *)
Definition eventWriter_step (o : oracle) (s : Scheduler) : option Scheduler :=
  let recv (k : Event -> writer) :=
    match eventCh s with e :: l => Some (set_wpoint (k e) (set_eventCh l s)) | [] => None end in
  match wpoint s with
  | WOff | WExit => None
  | WSelect =>
      if done s && alt o then Some (set_wpoint WDrain s)
      else match recv WAppend with
           | Some s' => Some s'
           | None => if done s then Some (set_wpoint WDrain s) else None
           end
  | WAppend e => Some (set_wpoint WSelect (appendEvent e s))
  | WDrain => Some (match recv WDrainAppend with Some s' => s' | None => set_wpoint WExit s end)
  | WDrainAppend e => Some (set_wpoint WDrain (appendEvent e s))
  end.

(** ** Reading *)

Definition GetPrimitives (s : Scheduler) : gmap string PrimitiveInfo := primitives s.
Definition GetGoroutines (s : Scheduler) : gmap Z GoroutineInfo := goroutines s.

Definition GetEvents (limit : Z) (s : Scheduler) : list Event :=
  let len := Z.of_nat (length (events s)) in
  let limit := if (limit <=? 0) || (len <? limit) then len else limit in
  drop (Z.to_nat (len - limit)) (events s).

Record SchedulerMetrics := mkMetrics {
  TotalPrimitives : Z; TotalGoroutines : Z; ActiveGoroutines : nat; BlockedGoroutines : nat;
  TotalBlocks : Z; AvgWaitTime : Z; Uptime : Z
}.

Definition isActive (g : GoroutineInfo) : Prop := State g = StateRunning \/ State g = StateBlocked.

(** Go's division truncates towards zero. *)
Definition GetMetrics (now : Z) (s : Scheduler) : SchedulerMetrics :=
  mkMetrics (totalPrimitives s) (totalGoroutines s)
    (size (filter (fun kv : Z * GoroutineInfo => isActive kv.2) (goroutines s)))
    (size (filter (fun kv : Z * GoroutineInfo => State kv.2 = StateBlocked) (goroutines s)))
    (totalBlocks s) (if 0 <? totalBlocks s then Z.quot (totalWaitTime s) (totalBlocks s) else 0)
    (now - startTime s).

(** * Counting entries of a map *)
Section Count.
Context {K A} `{Countable K} (P : K * A -> Prop) `{!forall x, Decision (P x)}.

Definition weight (m : gmap K A) (i : K) : nat :=
  match m !! i with Some x => if decide (P (i, x)) then 1 else 0 | None => 0 end.

Lemma filter_size_delete m i : (size (filter P (delete i m)) + weight m i = size (filter P m))%nat.
Proof.
  rewrite map_filter_delete, map_size_delete. unfold weight.
  destruct (filter P m !! i) as [x|] eqn:E.
  - pose proof E as [E1 E2]%map_lookup_filter_Some. rewrite E1, decide_True by done.
    assert (size (filter P m) <> 0)%nat; [|simpl; lia]. intros E0%map_size_empty_inv. by rewrite E0 in E.
  - rewrite map_lookup_filter_None in E. simpl. destruct (m !! i) as [x|]; [|lia].
    destruct E as [E|E]; [done|]. rewrite decide_False; [lia|]. by apply E.
Qed.

Lemma filter_size_insert m i x :
  (size (filter P (<[i:=x]> m)) + weight m i = size (filter P m) + if decide (P (i, x)) then 1 else 0)%nat.
Proof.
  rewrite <- insert_delete_eq, <- (filter_size_delete m i), map_filter_insert.
  case_decide as HP.
  - rewrite map_size_insert_None; [lia|]. apply map_lookup_filter_None. left. apply lookup_delete_eq.
  - rewrite delete_delete_eq. lia.
Qed.
End Count.

(** ** Sequences of calls *)

Inductive sop :=
| OpStart | OpStop
| OpRegisterPrimitive (id : string) (t : PrimitiveType) (name : string) (stats : Z)
| OpUnregisterPrimitive (id : string)
| OpUpdatePrimitiveStats (id : string) (stats : Z)
| OpRegisterGoroutine (id : Z) (name : string)
| OpUnregisterGoroutine (id : Z)
| OpBlockGoroutine (gid : Z) (pid : string)
| OpUnblockGoroutine (gid : Z) (wait : Z)
| OpWriter (o : oracle).

Section Runs.
Context (showDuration : Z -> string).

(** The state after a call made at the time [now], or after a step of the
    event writer (nothing when it cannot move). *)
Definition apply (now : Z) (op : sop) (s : Scheduler) : Scheduler :=
  match op with
  | OpStart => Start s
  | OpStop => Stop s
  | OpRegisterPrimitive id t name stats => RegisterPrimitive now id t name stats s
  | OpUnregisterPrimitive id => UnregisterPrimitive now id s
  | OpUpdatePrimitiveStats id stats => UpdatePrimitiveStats id stats s
  | OpRegisterGoroutine id name => RegisterGoroutine now id name s
  | OpUnregisterGoroutine id => UnregisterGoroutine now id s
  | OpBlockGoroutine gid pid => BlockGoroutine now gid pid s
  | OpUnblockGoroutine gid wait => UnblockGoroutine showDuration now gid wait s
  | OpWriter o => default s (eventWriter_step o s)
  end.

(** The events a call puts into the channel. *)
Definition accepted (s s' : Scheduler) : list Event := drop (length (eventCh s)) (eventCh s').

(** [runs_to ops s s' acc]: the calls lead from [s] to [s'] and [acc] are the
    events accepted by the channel on the way.  [Start] is called once. *)
Inductive runs_to : list (Z * sop) -> Scheduler -> Scheduler -> list Event -> Prop :=
| runs_nil s : runs_to [] s s []
| runs_snoc ops s s1 acc now op :
    runs_to ops s s1 acc -> (op = OpStart -> wpoint s1 = WOff) ->
    runs_to (ops ++ [(now, op)]) s (apply now op s1)
      (acc ++ match op with OpWriter _ => [] | _ => accepted s1 (apply now op s1) end).

(** * The event log *)

Definition lastn {A} (n : nat) (l : list A) : list A := drop (length l - n) l.

Lemma lastn_snoc {A} n (l : list A) e :
  let l' := lastn n l ++ [e] in
  (if (n <? length l')%nat then drop (length l' - n) l' else l') = lastn n (l ++ [e]).
Proof.
  unfold lastn. simpl. rewrite !length_app, !length_drop. simpl.
  destruct (Nat.ltb_spec n (length l - (length l - n) + 1)) as [Hn|Hn].
  - replace (length l - (length l - n) + 1 - n)%nat with 1%nat by lia.
    replace (length l + 1 - n)%nat with (length l - n + 1)%nat by lia.
    rewrite <- (drop_drop (l ++ [e])). f_equal. rewrite drop_app_le by lia. done.
  - replace (length l - n)%nat with 0%nat by lia. replace (length l + 1 - n)%nat with 0%nat by lia. done.
Qed.

Lemma lastn_limit {A} limit (l : list A) :
  let len := Z.of_nat (length (lastn 1000 l)) in
  drop (Z.to_nat (len - (if (limit <=? 0) || (len <? limit) then len else limit))) (lastn 1000 l) =
  lastn (Z.to_nat (if (limit <=? 0) || (1000 <? limit) then 1000 else limit)) l.
Proof.
  unfold lastn. simpl. rewrite length_drop, drop_drop. f_equal.
  destruct (Z.leb_spec limit 0); simpl; [lia|].
  destruct (Z.ltb_spec (Z.of_nat (length l - (length l - 1000))) limit), (Z.ltb_spec 1000 limit); lia.
Qed.

(** The event the writer has in hand. *)
Definition inHand (p : writer) : list Event :=
  match p with WAppend e | WDrainAppend e => [e] | _ => [] end.

Record EventInv (s : Scheduler) (acc : list Event) : Prop := {
  ev_log : exists written, acc = written ++ inHand (wpoint s) ++ eventCh s /\ events s = lastn (maxEvents s) written;
  ev_chan : (length (eventCh s) <= eventChCap)%nat;
  ev_max : maxEvents s = 1000%nat
}.

(** A call leaves the log alone and adds to the channel at most. *)
Definition sameLog (s s' : Scheduler) : Prop :=
  events s' = events s /\ maxEvents s' = maxEvents s /\ wpoint s' = wpoint s.

Definition extends (s s' : Scheduler) : Prop :=
  sameLog s s' /\ (length (eventCh s) <= eventChCap -> length (eventCh s') <= eventChCap)%nat /\
  exists l, eventCh s' = eventCh s ++ l.

Lemma extends_emit e s : extends s (emit e s).
Proof.
  unfold emit, extends, sameLog. destruct (Nat.ltb_spec (length (eventCh s)) eventChCap); simpl.
  - split; [done|]. rewrite length_app. simpl. split; [lia|eauto].
  - split; [done|]. split; [done|]. exists []. by rewrite app_nil_r.
Qed.

Lemma extends_same s s' : sameLog s s' -> eventCh s' = eventCh s -> extends s s'.
Proof. intros H E. split; [done|]. rewrite E. split; [done|]. exists []. by rewrite app_nil_r. Qed.

Lemma extends_via s s1 s' : sameLog s s1 -> eventCh s1 = eventCh s -> extends s1 s' -> extends s s'.
Proof.
  unfold extends, sameLog. intros (E1 & E2 & E3) E4. rewrite E1, E2, E3, E4. done.
Qed.

Lemma bumpBlocked_same d id s : sameLog s (bumpBlocked d id s) /\ eventCh (bumpBlocked d id s) = eventCh s.
Proof. unfold bumpBlocked. by case_match. Qed.

Lemma apply_extends now op s :
  match op with OpStart | OpWriter _ => False | _ => True end -> extends s (apply now op s).
Proof.
  destruct op as [| |id t name st|id|id st|id name|id|gid pid|gid wt|o]; simpl; try done; intros _.
  - unfold Stop. case_match; by apply extends_same.
  - by eapply extends_via, extends_emit.
  - unfold UnregisterPrimitive. case_match; [by eapply extends_via, extends_emit|by apply extends_same].
  - unfold UpdatePrimitiveStats. case_match; by apply extends_same.
  - unfold RegisterGoroutine. case_match; [by apply extends_same|by eapply extends_via, extends_emit].
  - unfold UnregisterGoroutine. case_match; [|by apply extends_same].
    destruct (extends_emit (mkEvent now "GoroutineFinished" id "" ("Goroutine '" +:+ gName g +:+ "' finished")) s)
      as (H1 & H2 & H3). done.
  - unfold BlockGoroutine. case_match; [|by apply extends_same].
    destruct (bumpBlocked_same 1 pid (set_goroutines (<[gid:=blockInfo pid g]> (goroutines s)) s)) as [[] ].
    by eapply extends_via, extends_emit.
  - unfold UnblockGoroutine. case_match; [|by apply extends_same].
    destruct (bumpBlocked_same (-1) (BlockedOn g) (set_goroutines (<[gid:=unblockInfo wt g]> (goroutines s)) s)) as [[] ].
    by eapply extends_via, extends_emit.
Qed.

Lemma EventInv_writer o s s' acc : EventInv s acc -> eventWriter_step o s = Some s' -> EventInv s' acc.
Proof.
  intros [(wr & Ha & He) Hc Hm] Hs. unfold eventWriter_step in Hs.
  destruct (wpoint s) as [| |e| |e|] eqn:Ew; try done; simpl in Ha.
  - destruct (done s && alt o); [simplify_eq; constructor; [by exists wr|done|done]|].
    destruct (eventCh s) as [|e l] eqn:Ee; [destruct (done s); simplify_eq|simplify_eq];
      (constructor; simpl; [exists wr; split; [|done]; simpl; congruence|rewrite ?Ee in *; simpl in *; lia|done]).
  - simplify_eq. constructor; simpl; [|done|done]. exists (wr ++ [e]). rewrite <- app_assoc, He. split; [done|].
    apply lastn_snoc.
  - destruct (eventCh s) as [|e l] eqn:Ee; simplify_eq;
      (constructor; simpl; [exists wr; split; [|done]; simpl; congruence|rewrite ?Ee in *; simpl in *; lia|done]).
  - simplify_eq. constructor; simpl; [|done|done]. exists (wr ++ [e]). rewrite <- app_assoc, He. split; [done|].
    apply lastn_snoc.
Qed.

Lemma EventInv_apply now op s acc :
  EventInv s acc -> (op = OpStart -> wpoint s = WOff) ->
  EventInv (apply now op s) (acc ++ match op with OpWriter _ => [] | _ => accepted s (apply now op s) end).
Proof.
  intros [(wr & Ha & He) Hc Hm] Hst.
  assert (Hext : extends s (apply now op s) ->
    EventInv (apply now op s) (acc ++ accepted s (apply now op s))).
  { intros ((E1 & E2 & E3) & Hlen & l & El). unfold accepted. rewrite El, drop_app_length.
    constructor; [|by apply Hlen|congruence]. exists wr. rewrite E1, E2, E3, El, Ha, <- !app_assoc. done. }
  destruct op; try (apply Hext, apply_extends; done).
  - simpl. unfold accepted. simpl. rewrite drop_all, app_nil_r. constructor; [|done|done].
    exists wr. simpl. rewrite (Hst eq_refl) in Ha. done.
  - rewrite app_nil_r. simpl. destruct (eventWriter_step o s) as [s'|] eqn:E; [|by constructor; eauto].
    by eapply EventInv_writer; eauto; constructor; eauto.
Qed.

Lemma runs_to_EventInv ops now s acc : runs_to ops (NewScheduler now) s acc -> EventInv s acc.
Proof.
  intros H. remember (NewScheduler now) as s0 eqn:E0. induction H as [s|ops s s1 acc t op H IH Hst]; subst.
  - constructor; [by exists []|simpl; lia|done].
  - apply EventInv_apply; auto.
Qed.

(** The event log is exact.  Whatever is called and however the writer is
    scheduled, the events the channel accepted are, in their order and
    without loss or repetition, those written, the one in the writer's hand
    and those still in the channel, which holds at most 256; and [GetEvents]
    returns the last [limit] of those written (at most 1000). *)
Theorem sched_event_log ops now s acc limit :
  runs_to ops (NewScheduler now) s acc ->
  exists written, acc = written ++ inHand (wpoint s) ++ eventCh s /\
    (length (eventCh s) <= 256)%nat /\
    GetEvents limit s = lastn (Z.to_nat (if (limit <=? 0) || (1000 <? limit) then 1000 else limit)) written.
Proof.
  intros [(wr & Ha & He) Hc Hm]%runs_to_EventInv. exists wr. split; [done|]. split; [done|].
  unfold GetEvents. rewrite He, Hm. by apply lastn_limit.
Qed.
(** * Counts of blocked goroutines *)

Definition onPrimitive (id : string) (kv : Z * GoroutineInfo) : Prop :=
  State kv.2 = StateBlocked /\ BlockedOn kv.2 = id.

#[local] Instance onPrimitive_dec id kv : Decision (onPrimitive id kv).
Proof. unfold onPrimitive. apply _. Defined.

Definition blockedOn (s : Scheduler) (id : string) : nat := size (filter (onPrimitive id) (goroutines s)).

Definition notBlocked (s : Scheduler) (gid : Z) : Prop :=
  forall g, goroutines s !! gid = Some g -> State g <> StateBlocked.

(** How callers use the scheduler: a goroutine blocks when it is not blocked
    and unblocks when it is, it is not (un)registered while blocked, and a
    primitive is not registered while goroutines are blocked on its name. *)
Definition disciplined (op : sop) (s : Scheduler) : Prop :=
  match op with
  | OpRegisterPrimitive id _ _ _ => blockedOn s id = 0%nat
  | OpRegisterGoroutine id _ | OpUnregisterGoroutine id | OpBlockGoroutine id _ => notBlocked s id
  | OpUnblockGoroutine id _ => forall g, goroutines s !! id = Some g -> State g = StateBlocked
  | _ => True
  end.

Inductive disciplined_run (s0 : Scheduler) : Scheduler -> Prop :=
| dr_nil : disciplined_run s0 s0
| dr_snoc s now op : disciplined_run s0 s -> disciplined op s -> disciplined_run s0 (apply now op s).

Record Counted (s : Scheduler) : Prop := {
  ct_size : Z.of_nat (size (goroutines s)) <= maxGoroutines;
  ct_blocked : forall id p, primitives s !! id = Some p -> BlockedCount p = Z.of_nat (blockedOn s id);
  ct_states : map_Forall (fun _ g => isActive g) (goroutines s)
}.

Lemma emit_registry e s : goroutines (emit e s) = goroutines s /\ primitives (emit e s) = primitives s.
Proof. unfold emit. by case_match. Qed.

Lemma Counted_same s s' :
  goroutines s' = goroutines s -> primitives s' = primitives s -> Counted s -> Counted s'.
Proof.
  intros E1 E2 [H1 H2 H3]. constructor; unfold blockedOn in *; rewrite ?E1, ?E2; done.
Qed.

Lemma Counted_emit e s : Counted s -> Counted (emit e s).
Proof. destruct (emit_registry e s). by apply Counted_same. Qed.

(** The goroutine [gid] changes, and [BlockedCount] of [pid] by [d]. *)
Lemma Counted_move s s' gid g' pid d :
  Counted s -> is_Some (goroutines s !! gid) -> isActive g' ->
  goroutines s' = <[gid:=g']> (goroutines s) ->
  primitives s' = primitives (bumpBlocked d pid s) ->
  (forall id, Z.of_nat (blockedOn s' id) = Z.of_nat (blockedOn s id) + if decide (id = pid) then d else 0) ->
  Counted s'.
Proof.
  intros [H1 H2 H3] Hg Ha Eg Ep Hb.
  assert (Hs : (size (goroutines s') = size (goroutines s))%nat) by (rewrite Eg; by apply map_size_insert_Some).
  constructor.
  - by rewrite Hs.
  - intros id p Hp. rewrite Ep in Hp. specialize (Hb id).
    assert (Z.of_nat (blockedOn s' id) <= maxGoroutines).
    { rewrite <- Hs in H1. etrans; [|exact H1]. apply inj_le. unfold blockedOn.
      apply map_subseteq_size, map_filter_subseteq. }
    unfold maxGoroutines, bumpBlocked in *. destruct (primitives s !! pid) as [q|] eqn:E; simpl in Hp.
    + rewrite lookup_insert in Hp. case_decide as Ed.
      * simplify_eq. simpl. rewrite (H2 _ _ E), add32_id; [|unfold int32_range];
          rewrite decide_True in Hb by done; lia.
      * rewrite (H2 _ _ Hp). rewrite decide_False in Hb by done. lia.
    + rewrite (H2 _ _ Hp). rewrite decide_False in Hb by congruence. lia.
  - rewrite Eg. by apply map_Forall_insert_2.
Qed.

Lemma weight_notBlocked s gid id : notBlocked s gid -> weight (onPrimitive id) (goroutines s) gid = 0%nat.
Proof.
  intros H. unfold weight. destruct (goroutines s !! gid) as [g|] eqn:E; [|done].
  rewrite decide_False; [done|]. intros [? _]. by apply (H g).
Qed.

Lemma Counted_block s gid g pid :
  Counted s -> goroutines s !! gid = Some g -> notBlocked s gid ->
  Counted (bumpBlocked 1 pid (set_goroutines (<[gid:=blockInfo pid g]> (goroutines s)) s)).
Proof.
  intros H Hg Hn. apply (Counted_move s _ gid (blockInfo pid g) pid 1);
    [done|by eexists|by right| | |].
  - unfold bumpBlocked. simpl. by destruct (primitives s !! pid).
  - unfold bumpBlocked. simpl. by destruct (primitives s !! pid).
  - intros id. unfold blockedOn at 1. replace (goroutines (bumpBlocked _ _ _)) with (<[gid:=blockInfo pid g]> (goroutines s))
      by (unfold bumpBlocked; simpl; by destruct (primitives s !! pid)).
    pose proof (filter_size_insert (onPrimitive id) (goroutines s) gid (blockInfo pid g)) as E.
    rewrite (weight_notBlocked _ _ _ Hn) in E. unfold blockedOn.
    destruct (decide (id = pid)) as [->|Hne];
      [rewrite decide_True in E by done|rewrite decide_False in E by (intros [_ ?]; by simpl in *)]; lia.
Qed.

Lemma Counted_unblock s gid g wt :
  Counted s -> goroutines s !! gid = Some g -> State g = StateBlocked ->
  Counted (bumpBlocked (-1) (BlockedOn g) (set_goroutines (<[gid:=unblockInfo wt g]> (goroutines s)) s)).
Proof.
  intros H Hg Hn. apply (Counted_move s _ gid (unblockInfo wt g) (BlockedOn g) (-1));
    [done|by eexists|by left| | |].
  - unfold bumpBlocked. simpl. by destruct (primitives s !! BlockedOn g).
  - unfold bumpBlocked. simpl. by destruct (primitives s !! BlockedOn g).
  - intros id. unfold blockedOn at 1.
    replace (goroutines (bumpBlocked _ _ _)) with (<[gid:=unblockInfo wt g]> (goroutines s))
      by (unfold bumpBlocked; simpl; by destruct (primitives s !! BlockedOn g)).
    pose proof (filter_size_insert (onPrimitive id) (goroutines s) gid (unblockInfo wt g)) as E.
    unfold weight in E. rewrite Hg in E. rewrite (decide_False (P:=onPrimitive id (gid, unblockInfo wt g))) in E
      by (by intros [? _]).
    unfold blockedOn. destruct (decide (id = BlockedOn g)) as [->|Hne];
      [rewrite decide_True in E by done|rewrite decide_False in E by (intros [_ ?]; by simpl in *)]; lia.
Qed.

(** Adding or removing a goroutine that is not blocked. *)
Lemma Counted_goroutines s m :
  Counted s -> Z.of_nat (size m) <= maxGoroutines -> map_Forall (fun _ g => isActive g) m ->
  (forall id, size (filter (onPrimitive id) m) = blockedOn s id) -> Counted (set_goroutines m s).
Proof.
  intros [H1 H2 H3] Hs Ha Hb. constructor; simpl; auto.
  intros id p Hp. unfold blockedOn. simpl. rewrite Hb. by apply H2.
Qed.

Lemma Counted_primitives s m :
  Counted s -> (forall id p, m !! id = Some p -> BlockedCount p = Z.of_nat (blockedOn s id)) ->
  Counted (set_primitives m s).
Proof. intros [H1 H2 H3] Hm. by constructor. Qed.

Lemma Counted_apply now op s : Counted s -> disciplined op s -> Counted (apply now op s).
Proof.
  intros H Hd. destruct op as [| |id t name st|id|id st|id name|id|gid pid|gid wt|o]; simpl in *.
  - by apply (Counted_same s).
  - unfold Stop. case_match; by apply (Counted_same s).
  - apply Counted_emit. eapply (Counted_same (set_primitives _ s)); [done|done|].
    apply Counted_primitives; [done|]. intros id' p.
    rewrite lookup_insert. case_decide; [subst|apply H]. intros [= <-]. simpl. by rewrite Hd.
  - unfold UnregisterPrimitive. case_match; [|done]. apply Counted_emit.
    eapply (Counted_same (set_primitives _ s)); [done|done|]. apply Counted_primitives; [done|]. intros id' q [_ Hp]%lookup_delete_Some. by apply H.
  - unfold UpdatePrimitiveStats. destruct (primitives s !! id) as [i|] eqn:E; [|done].
    apply Counted_primitives; [done|]. intros id' p. rewrite lookup_insert.
    case_decide; [subst|apply H]. intros [= <-]. simpl. by apply H.
  - unfold RegisterGoroutine. destruct (Z.leb_spec maxGoroutines (Z.of_nat (size (goroutines s)))); [done|].
    apply Counted_emit. eapply (Counted_same (set_goroutines _ s)); [done|done|].
    apply Counted_goroutines; [done| | |].
    + rewrite map_size_insert. destruct (goroutines s !! id); simpl; lia.
    + apply map_Forall_insert_2; [by left|apply H].
    + intros id'. pose proof (filter_size_insert (onPrimitive id') (goroutines s) id
        (mkGoroutine id name StateRunning now 0 "" 0)) as E.
      rewrite (weight_notBlocked _ _ _ Hd), decide_False in E by (by intros [? _]). unfold blockedOn. lia.
  - unfold UnregisterGoroutine. destruct (goroutines s !! id) as [g|] eqn:E; [|done].
    destruct (emit_registry (mkEvent now "GoroutineFinished" id "" ("Goroutine '" +:+ gName g +:+ "' finished")) s) as [Eg Ep].
    apply (Counted_same (set_goroutines (delete id (goroutines s)) s)); [by rewrite Eg|done|].
    apply Counted_goroutines; [done| | |].
    + rewrite map_size_delete_Some by (by eexists). pose proof (ct_size s H). lia.
    + apply map_Forall_delete, H.
    + intros id'. pose proof (filter_size_delete (onPrimitive id') (goroutines s) id) as E'.
      rewrite (weight_notBlocked _ _ _ Hd) in E'. unfold blockedOn. lia.
  - unfold BlockGoroutine. destruct (goroutines s !! gid) as [g|] eqn:E; [|done].
    apply Counted_emit. eapply Counted_same; [| |by apply (Counted_block s gid g pid)]; done.
  - unfold UnblockGoroutine. destruct (goroutines s !! gid) as [g|] eqn:E; [|done].
    apply Counted_emit. eapply Counted_same; [| |apply (Counted_unblock s gid g wt); auto]; done.
  - destruct (eventWriter_step o s) as [s'|] eqn:E; [|done]. simpl.
    assert (goroutines s' = goroutines s /\ primitives s' = primitives s) as [E1 E2].
    { unfold eventWriter_step in E. repeat case_match; simplify_eq; done. }
    by apply (Counted_same s).
Qed.

(** [BlockedCount] is right.  For disciplined callers the [BlockedCount]
    of every registered primitive is the number of goroutines blocked on it,
    at most [maxGoroutines] goroutines are registered, and the metrics count
    every registered goroutine as active. *)
Theorem sched_blocked_count t0 s id p now :
  disciplined_run (NewScheduler t0) s -> primitives s !! id = Some p ->
  BlockedCount p = Z.of_nat (size (filter (onPrimitive id) (GetGoroutines s))) /\
  Z.of_nat (size (GetGoroutines s)) <= maxGoroutines /\
  ActiveGoroutines (GetMetrics now s) = size (GetGoroutines s).
Proof.
  intros Hr Hp. assert (H : Counted s).
  { clear Hp. induction Hr as [|s now' op _ IH Hd]; [|by apply Counted_apply].
    constructor; simpl; [done|done|apply map_Forall_empty]. }
  destruct H as [H1 H2 H3]. split; [by apply H2|]. split; [done|]. simpl.
  f_equal. apply map_filter_id. intros i g Hg. exact (H3 i g Hg).
Qed.
End Runs.

(** ** Examples *)

Definition noShow (_ : Z) : string := "".

(** A mutex and two goroutines, one of them blocked on the mutex. *)
Definition sampleOps : list (Z * sop) :=
  [(0, OpStart); (1, OpRegisterPrimitive "m" TypeMutex "lock" 0); (2, OpRegisterGoroutine 7 "a");
   (3, OpWriter o0); (4, OpWriter o0); (5, OpRegisterGoroutine 8 "b"); (6, OpBlockGoroutine 7 "m");
   (7, OpWriter o0)].

Definition runOps (ops : list (Z * sop)) (s : Scheduler) : Scheduler :=
  foldl (fun s p => apply noShow p.1 p.2 s) s ops.

(** [Start] is called only before the writer runs. *)
Fixpoint startsOnce (ops : list (Z * sop)) (s : Scheduler) : bool :=
  match ops with
  | [] => true
  | (now, op) :: ops =>
      match op, wpoint s with OpStart, WOff => true | OpStart, _ => false | _, _ => true end &&
      startsOnce ops (apply noShow now op s)
  end.

Lemma runOps_runs ops0 ops s0 s acc :
  runs_to noShow ops0 s0 s acc -> startsOnce ops s = true ->
  exists acc', runs_to noShow (ops0 ++ ops) s0 (runOps ops s) acc'.
Proof.
  revert ops0 s acc. induction ops as [|[now op] ops IH]; intros ops0 s acc Hr; simpl.
  - rewrite app_nil_r. eauto.
  - intros [Hs Ho]%andb_true_iff. rewrite cons_middle, app_assoc. eapply IH; [|done].
    apply runs_snoc; [done|]. intros ->. by destruct (wpoint s).
Qed.

Lemma sched_event_log_witness :
  exists acc written, let s := runOps sampleOps (NewScheduler 0) in
    runs_to noShow sampleOps (NewScheduler 0) s acc /\
    acc = written ++ inHand (wpoint s) ++ eventCh s /\ GetEvents 5 s = lastn 5 written.
Proof.
  destruct (runOps_runs [] sampleOps _ _ [] (runs_nil noShow (NewScheduler 0)) ltac:(by_eval)) as [acc R].
  destruct (sched_event_log noShow sampleOps 0 _ acc 5 R) as (wr & H1 & _ & H3).
  exists acc, wr. split; [exact R|]. split; [exact H1|exact H3].
Defined.

Lemma sched_blocked_count_witness :
  exists s p, primitives s !! "m" = Some p /\ BlockedCount p = 1 /\
    BlockedCount p = Z.of_nat (size (filter (onPrimitive "m") (GetGoroutines s))).
Proof.
  assert (R : disciplined_run noShow (NewScheduler 0)
    (runOps [(1, OpRegisterPrimitive "m" TypeMutex "lock" 0); (2, OpRegisterGoroutine 7 "a");
             (6, OpBlockGoroutine 7 "m")] (NewScheduler 0))).
  { repeat apply dr_snoc; [apply dr_nil|by_eval| |]; intros g E; vm_compute in E; by simplify_eq. }
  eexists _, (mkPrimitive "m" TypeMutex "lock" 1 1 0).
  pose proof (sched_blocked_count noShow 0 _ "m" (mkPrimitive "m" TypeMutex "lock" 1 1 0) 0 R ltac:(by_eval)) as [H _].
  split; [|split; [reflexivity|exact H]]. by_eval.
Defined.

(** A goroutine is unregistered while it is blocked. *)
Definition leakOps : list (Z * sop) :=
  [(1, OpRegisterPrimitive "m" TypeMutex "lock" 0); (2, OpRegisterGoroutine 7 "a");
   (3, OpBlockGoroutine 7 "m"); (4, OpUnregisterGoroutine 7)].

(** The discipline matters: [UnregisterGoroutine] does not look at
    [BlockedOn], so a goroutine that is removed while it is blocked leaves
    the count of the primitive at 1 with no goroutine registered. *)
Theorem sched_unregister_leaks :
  exists p, primitives (runOps leakOps (NewScheduler 0)) !! "m" = Some p /\ BlockedCount p = 1 /\
    size (GetGoroutines (runOps leakOps (NewScheduler 0))) = 0%nat.
Proof. eexists. split; [vm_compute; reflexivity|]. split; reflexivity. Qed.
