(* ===== verification/Metrics.v ===== *)
(** * Metrics (internal/metrics/metrics.go)

    The counters of one primitive are atomics that many goroutines update at
    the same time: [RecordWait] and the other recording methods are sequences
    of atomic steps, with retry loops for the minimum and the maximum.  The
    collector itself is a map guarded by a lock, its methods are functions.
    A bucket bound is kept in nanoseconds ([None] for +Inf): the conversion
    to seconds in floating point is not modelled. *)

From Stdlib Require Import ZArith Lia.
From stdpp Require Import base list gmap strings.
From S2P Require Import Prelude.

#[local] Open Scope Z_scope.
#[local] Open Scope sync_scope.

Definition defaultHistBoundaries : list Z :=
  [100000; 500000; 1000000; 5000000; 10000000; 50000000; 100000000; 500000000; 1000000000].

Record HistogramBucket := mkBucket { Le : option Z; Count : Z }.

Record PrimitiveMetrics := mkPM {
  PType : string; Name : string;
  Acquires : Z; Releases : Z; Waits : Z; Timeouts : Z;
  TotalWaitTime : Z; MinWaitTime : Z; MaxWaitTime : Z;
  HistBuckets : list Z; HistCounts : list Z; HistInf : Z;
  CurrentHolders : Z; CurrentWaiters : Z;
  ContentionEvents : Z; MaxContentionSeen : Z;
  CreatedAt : Z
}.

Definition set_Acquires v p := mkPM (PType p) (Name p) v (Releases p) (Waits p) (Timeouts p) (TotalWaitTime p) (MinWaitTime p) (MaxWaitTime p) (HistBuckets p) (HistCounts p) (HistInf p) (CurrentHolders p) (CurrentWaiters p) (ContentionEvents p) (MaxContentionSeen p) (CreatedAt p).
Definition set_Releases v p := mkPM (PType p) (Name p) (Acquires p) v (Waits p) (Timeouts p) (TotalWaitTime p) (MinWaitTime p) (MaxWaitTime p) (HistBuckets p) (HistCounts p) (HistInf p) (CurrentHolders p) (CurrentWaiters p) (ContentionEvents p) (MaxContentionSeen p) (CreatedAt p).
Definition set_Waits v p := mkPM (PType p) (Name p) (Acquires p) (Releases p) v (Timeouts p) (TotalWaitTime p) (MinWaitTime p) (MaxWaitTime p) (HistBuckets p) (HistCounts p) (HistInf p) (CurrentHolders p) (CurrentWaiters p) (ContentionEvents p) (MaxContentionSeen p) (CreatedAt p).
Definition set_Timeouts v p := mkPM (PType p) (Name p) (Acquires p) (Releases p) (Waits p) v (TotalWaitTime p) (MinWaitTime p) (MaxWaitTime p) (HistBuckets p) (HistCounts p) (HistInf p) (CurrentHolders p) (CurrentWaiters p) (ContentionEvents p) (MaxContentionSeen p) (CreatedAt p).
Definition set_TotalWaitTime v p := mkPM (PType p) (Name p) (Acquires p) (Releases p) (Waits p) (Timeouts p) v (MinWaitTime p) (MaxWaitTime p) (HistBuckets p) (HistCounts p) (HistInf p) (CurrentHolders p) (CurrentWaiters p) (ContentionEvents p) (MaxContentionSeen p) (CreatedAt p).
Definition set_MinWaitTime v p := mkPM (PType p) (Name p) (Acquires p) (Releases p) (Waits p) (Timeouts p) (TotalWaitTime p) v (MaxWaitTime p) (HistBuckets p) (HistCounts p) (HistInf p) (CurrentHolders p) (CurrentWaiters p) (ContentionEvents p) (MaxContentionSeen p) (CreatedAt p).
Definition set_MaxWaitTime v p := mkPM (PType p) (Name p) (Acquires p) (Releases p) (Waits p) (Timeouts p) (TotalWaitTime p) (MinWaitTime p) v (HistBuckets p) (HistCounts p) (HistInf p) (CurrentHolders p) (CurrentWaiters p) (ContentionEvents p) (MaxContentionSeen p) (CreatedAt p).
Definition set_HistCounts v p := mkPM (PType p) (Name p) (Acquires p) (Releases p) (Waits p) (Timeouts p) (TotalWaitTime p) (MinWaitTime p) (MaxWaitTime p) (HistBuckets p) v (HistInf p) (CurrentHolders p) (CurrentWaiters p) (ContentionEvents p) (MaxContentionSeen p) (CreatedAt p).
Definition set_HistInf v p := mkPM (PType p) (Name p) (Acquires p) (Releases p) (Waits p) (Timeouts p) (TotalWaitTime p) (MinWaitTime p) (MaxWaitTime p) (HistBuckets p) (HistCounts p) v (CurrentHolders p) (CurrentWaiters p) (ContentionEvents p) (MaxContentionSeen p) (CreatedAt p).
Definition set_CurrentHolders v p := mkPM (PType p) (Name p) (Acquires p) (Releases p) (Waits p) (Timeouts p) (TotalWaitTime p) (MinWaitTime p) (MaxWaitTime p) (HistBuckets p) (HistCounts p) (HistInf p) v (CurrentWaiters p) (ContentionEvents p) (MaxContentionSeen p) (CreatedAt p).
Definition set_CurrentWaiters v p := mkPM (PType p) (Name p) (Acquires p) (Releases p) (Waits p) (Timeouts p) (TotalWaitTime p) (MinWaitTime p) (MaxWaitTime p) (HistBuckets p) (HistCounts p) (HistInf p) (CurrentHolders p) v (ContentionEvents p) (MaxContentionSeen p) (CreatedAt p).
Definition set_ContentionEvents v p := mkPM (PType p) (Name p) (Acquires p) (Releases p) (Waits p) (Timeouts p) (TotalWaitTime p) (MinWaitTime p) (MaxWaitTime p) (HistBuckets p) (HistCounts p) (HistInf p) (CurrentHolders p) (CurrentWaiters p) v (MaxContentionSeen p) (CreatedAt p).
Definition set_MaxContentionSeen v p := mkPM (PType p) (Name p) (Acquires p) (Releases p) (Waits p) (Timeouts p) (TotalWaitTime p) (MinWaitTime p) (MaxWaitTime p) (HistBuckets p) (HistCounts p) (HistInf p) (CurrentHolders p) (CurrentWaiters p) (ContentionEvents p) v (CreatedAt p).

(** ** The collector *)

Record MetricsCollector := mkMC {
  startTime : Z;
  lockContentions : Z;
  primitiveMetrics : gmap string PrimitiveMetrics;
  histBoundaries : list Z
}.

Definition NewMetricsCollectorWithBuckets (now : Z) (buckets : list Z) : MetricsCollector :=
  mkMC now 0 ∅ (match buckets with [] => defaultHistBoundaries | _ => buckets end).

Definition NewMetricsCollector (now : Z) : MetricsCollector := NewMetricsCollectorWithBuckets now [].

Definition newPM (now : Z) (ptype name : string) (bounds : list Z) : PrimitiveMetrics :=
  mkPM ptype name 0 0 0 0 0 0 0 bounds (replicate (length bounds) 0) 0 0 0 0 0 now.

Definition set_primitiveMetrics v mc := mkMC (startTime mc) (lockContentions mc) v (histBoundaries mc).

Definition RegisterPrimitive (now : Z) (id ptype name : string) (mc : MetricsCollector) : MetricsCollector :=
  set_primitiveMetrics (<[id:=newPM now ptype name (histBoundaries mc)]> (primitiveMetrics mc)) mc.

Definition UnregisterPrimitive (id : string) (mc : MetricsCollector) : MetricsCollector :=
  set_primitiveMetrics (delete id (primitiveMetrics mc)) mc.

Definition GetHistogramBoundaries (mc : MetricsCollector) : list Z := histBoundaries mc.

Definition histogram (pm : PrimitiveMetrics) : list HistogramBucket :=
  zip_with (fun b c => mkBucket (Some b) c) (HistBuckets pm) (HistCounts pm) ++ [mkBucket None (HistInf pm)].

Definition GetHistogram (id : string) (mc : MetricsCollector) : option (list HistogramBucket) :=
  histogram <$> primitiveMetrics mc !! id.

(** Go's division truncates towards zero. *)
Definition calculateAvgWaitTime (pm : PrimitiveMetrics) : Z :=
  if Waits pm =? 0 then 0 else Z.quot (TotalWaitTime pm) (Waits pm).

Record PrimitiveMetricsSnapshot := mkSnapshot {
  SnType : string; SnName : string; SnAcquires : Z; SnReleases : Z; SnWaits : Z; SnTimeouts : Z;
  SnTotalWaitTime : Z; SnMinWaitTime : Z; SnMaxWaitTime : Z; SnAvgWaitTime : Z;
  SnCurrentHolders : Z; SnCurrentWaiters : Z; SnContentionEvents : Z; SnMaxContentionSeen : Z;
  SnAge : Z; SnHistogram : list HistogramBucket
}.

Definition snapshot (now : Z) (pm : PrimitiveMetrics) : PrimitiveMetricsSnapshot :=
  mkSnapshot (PType pm) (Name pm) (Acquires pm) (Releases pm) (Waits pm) (Timeouts pm)
    (TotalWaitTime pm) (MinWaitTime pm) (MaxWaitTime pm) (calculateAvgWaitTime pm)
    (CurrentHolders pm) (CurrentWaiters pm) (ContentionEvents pm) (MaxContentionSeen pm)
    (now - CreatedAt pm) (histogram pm).

Definition GetPrimitiveMetrics (now : Z) (id : string) (mc : MetricsCollector) : option PrimitiveMetricsSnapshot :=
  snapshot now <$> primitiveMetrics mc !! id.

Definition GetAllMetrics (now : Z) (mc : MetricsCollector) : gmap string PrimitiveMetricsSnapshot :=
  snapshot now <$> primitiveMetrics mc.

Record GlobalMetrics := mkGlobal {
  TotalPrimitives : Z; TotalAcquires : Z; TotalReleases : Z; TotalWaits : Z; TotalTimeouts : Z;
  TotalContentions : Z; AvgWaitTime : Z; Uptime : Z
}.

(** The sum of a counter over the primitives, in [int64]. *)
Definition total (f : PrimitiveMetrics -> Z) (mc : MetricsCollector) : Z :=
  map_fold (fun _ pm acc => add64 acc (f pm)) 0 (primitiveMetrics mc).

Definition GetGlobalMetrics (now : Z) (mc : MetricsCollector) : GlobalMetrics :=
  mkGlobal (Z.of_nat (size (primitiveMetrics mc))) (total Acquires mc) (total Releases mc)
    (total Waits mc) (total Timeouts mc) (total ContentionEvents mc)
    (if 0 <? total Waits mc then Z.quot (total TotalWaitTime mc) (total Waits mc) else 0)
    (now - startTime mc).

(** ** Recording

    The shared state: the counters of one primitive, the collector's
    [lockContentions], and the waits recorded so far ([obs], a record of the
    calls that have made their first step). *)
Record mworld := MWorld { pm : PrimitiveMetrics; contentions : Z; obs : list Z }.

Definition upd (f : PrimitiveMetrics -> PrimitiveMetrics) (w : mworld) : mworld :=
  MWorld (f (pm w)) (contentions w) (obs w).

(** The bucket of a wait: the first bound that is not below it. *)
Fixpoint bucketOf (ns : Z) (bounds : list Z) : option nat :=
  match bounds with
  | [] => None
  | b :: bs => if ns <=? b then Some 0%nat else S <$> bucketOf ns bs
  end.

(** [RecordWait]: [MWaits], [MTotal], [MCurrent] the first three updates,
    [MBucket] the histogram, [MMin]/[MMinCas] and [MMax]/[MMaxCas] the loops
    for the extremes, [MCont1], [MCont2], [MSeen]/[MSeenCas] the contention
    counters. *)
Inductive mpc :=
| MWaits | MTotal | MCurrent | MBucket | MMin | MMinCas (cur : Z) | MMax | MMaxCas (cur : Z)
| MCont1 | MCont2 | MSeen | MSeenCas (cur : Z).

Definition RecordWait_step (ns waiters : Z) (p : mpc) (w : mworld) : outcome mpc unit * mworld :=
  let m := pm w in
  let contention := if 1 <? waiters then Next MCont1 else Return tt in
  match p with
  | MWaits =>
      let w := upd (set_Waits (add64 (Waits m) 1)) w in
      (Next MTotal, MWorld (pm w) (contentions w) (obs w ++ [ns]))
  | MTotal => (Next MCurrent, upd (set_TotalWaitTime (add64 (TotalWaitTime m) ns)) w)
  | MCurrent => (Next MBucket, upd (set_CurrentWaiters waiters) w)
  | MBucket =>
      (Next MMin,
       match bucketOf ns (HistBuckets m) with
       | Some i => upd (set_HistCounts (alter (fun c => add64 c 1) i (HistCounts m))) w
       | None => upd (set_HistInf (add64 (HistInf m) 1)) w
       end)
  | MMin =>
      (Next (if (MinWaitTime m =? 0) || (ns <? MinWaitTime m) then MMinCas (MinWaitTime m) else MMax), w)
  | MMinCas cur =>
      if MinWaitTime m =? cur then (Next MMax, upd (set_MinWaitTime ns) w) else (Next MMin, w)
  | MMax => (if MaxWaitTime m <? ns then Next (MMaxCas (MaxWaitTime m)) else contention, w)
  | MMaxCas cur =>
      if MaxWaitTime m =? cur then (contention, upd (set_MaxWaitTime ns) w) else (Next MMax, w)
  | MCont1 => (Next MCont2, MWorld m (add64 (contentions w) 1) (obs w))
  | MCont2 => (Next MSeen, upd (set_ContentionEvents (add64 (ContentionEvents m) 1)) w)
  | MSeen => (if MaxContentionSeen m <? waiters then Next (MSeenCas (MaxContentionSeen m)) else Return tt, w)
  | MSeenCas cur =>
      if MaxContentionSeen m =? cur then (Return tt, upd (set_MaxContentionSeen waiters) w) else (Next MSeen, w)
  end.

(** [RecordAcquire], [RecordRelease]: a counter, then the holders. *)
Inductive hpc := HCount | HHolders.

Definition RecordAcquire_step (holders : Z) (p : hpc) (w : mworld) : outcome hpc unit * mworld :=
  match p with
  | HCount => (Next HHolders, upd (set_Acquires (add64 (Acquires (pm w)) 1)) w)
  | HHolders => (Return tt, upd (set_CurrentHolders holders) w)
  end.

Definition RecordRelease_step (holders : Z) (p : hpc) (w : mworld) : outcome hpc unit * mworld :=
  match p with
  | HCount => (Next HHolders, upd (set_Releases (add64 (Releases (pm w)) 1)) w)
  | HHolders => (Return tt, upd (set_CurrentHolders holders) w)
  end.

Definition RecordTimeout (w : mworld) : mworld := upd (set_Timeouts (add64 (Timeouts (pm w)) 1)) w.

Inductive mop := OpAcquire (h : Z) | OpRelease (h : Z) | OpWait (ns waiters : Z) | OpTimeout.
Inductive thread :=
| TIdle | TAcquire (h : Z) (p : hpc) | TRelease (h : Z) (p : hpc) | TWait (ns waiters : Z) (p : mpc) | TTimeout.

Definition mcall (op : mop) (now : Z) (th : thread) : option thread :=
  match th with
  | TIdle => Some match op with
      | OpAcquire h => TAcquire h HCount | OpRelease h => TRelease h HCount
      | OpWait ns k => TWait ns k MWaits | OpTimeout => TTimeout
      end
  | _ => None
  end.

Definition mnext {P} (k : P -> thread) (r : outcome P unit) : thread :=
  match r with Next p => k p | _ => TIdle end.

Definition mrun (o : oracle) (th : thread) (w : mworld) : option (thread * mworld) :=
  match th with
  | TIdle => None
  | TAcquire h p => let '(r, w) := RecordAcquire_step h p w in Some (mnext (TAcquire h) r, w)
  | TRelease h p => let '(r, w) := RecordRelease_step h p w in Some (mnext (TRelease h) r, w)
  | TWait ns k p => let '(r, w) := RecordWait_step ns k p w in Some (mnext (TWait ns k) r, w)
  | TTimeout => Some (TIdle, RecordTimeout w)
  end.

Definition recorder : machine mworld thread mop := Machine mcall mrun (fun _ w => w).

Definition initial (k : nat) (now : Z) (bounds : list Z) : config (Sh:=mworld) (Th:=thread) :=
  (MWorld (newPM now "" "" bounds) 0 [], replicate k TIdle).

(** * Invariants *)

(** The program points of [RecordWait] before the sum, the histogram and the
    maximum have been updated, once the wait is in [obs]. *)
Definition beforeTotal (p : mpc) : bool := match p with MTotal => true | _ => false end.
Definition beforeBucket (p : mpc) : bool := match p with MTotal | MCurrent | MBucket => true | _ => false end.
Definition beforeMax (p : mpc) : bool :=
  match p with MTotal | MCurrent | MBucket | MMin | MMinCas _ | MMax | MMaxCas _ => true | _ => false end.

(** What a goroutine has still to add to a counter that adds [phi] per wait. *)
Definition pend (phi : Z -> Z) (before : mpc -> bool) (th : thread) : Z :=
  match th with TWait ns _ p => if before p then phi ns else 0 | _ => 0 end.

Definition inBucket (bounds : list Z) (i : option nat) (ns : Z) : Z :=
  Z.b2z (bool_decide (bucketOf ns bounds = i)).

(** What the position of a goroutine says. *)
Definition local (w : mworld) (th : thread) : Prop :=
  match th with
  | TWait ns _ MWaits => True
  | TWait ns _ p => ns ∈ obs w /\ match p with MMaxCas cur => cur < ns | _ => True end
  | _ => True
  end.

(** A counter with weight [phi]: the waits observed, less what is pending. *)
Definition counts (phi : Z -> Z) (before : mpc -> bool) (v : Z) (c : mworld * list thread) : Prop :=
  v ≡₆₄ sumf phi (obs c.1) - sumf (pend phi before) c.2.

Record Inv (bounds : list Z) (c : mworld * list thread) : Prop := {
  inv_bounds : HistBuckets (pm c.1) = bounds /\ length (HistCounts (pm c.1)) = length bounds;
  inv_waits : Waits (pm c.1) ≡₆₄ Z.of_nat (length (obs c.1));
  inv_total : counts (fun x => x) beforeTotal (TotalWaitTime (pm c.1)) c;
  inv_hist : forall i v, HistCounts (pm c.1) !! i = Some v -> counts (inBucket bounds (Some i)) beforeBucket v c;
  inv_inf : counts (inBucket bounds None) beforeBucket (HistInf (pm c.1)) c;
  inv_max : 0 <= MaxWaitTime (pm c.1) /\ (MaxWaitTime (pm c.1) = 0 \/ MaxWaitTime (pm c.1) ∈ obs c.1);
  inv_below : forall v, v ∈ obs c.1 -> v <= MaxWaitTime (pm c.1) \/
    exists t k p, c.2 !! t = Some (TWait v k p) /\ beforeMax p = true;
  inv_local : Forall (local c.1) c.2
}.

Lemma eq64_of_eq a b : a = b -> a ≡₆₄ b.
Proof. by intros ->. Qed.

(** What one step does: [l] is the wait it adds to [obs], if any. *)
Record stepOk (w w' : mworld) (th th' : thread) (l : list Z) : Prop := {
  so_obs : obs w' = obs w ++ l;
  so_bounds : HistBuckets (pm w') = HistBuckets (pm w) /\ length (HistCounts (pm w')) = length (HistCounts (pm w));
  so_waits : Waits (pm w') ≡₆₄ Waits (pm w) + Z.of_nat (length l);
  so_total : TotalWaitTime (pm w') ≡₆₄ TotalWaitTime (pm w) + sumf (fun x => x) l
    - pend (fun x => x) beforeTotal th' + pend (fun x => x) beforeTotal th;
  so_hist : forall i v', HistCounts (pm w') !! i = Some v' -> exists v, HistCounts (pm w) !! i = Some v /\
    let phi := inBucket (HistBuckets (pm w)) (Some i) in
    v' ≡₆₄ v + sumf phi l - pend phi beforeBucket th' + pend phi beforeBucket th;
  so_inf : let phi := inBucket (HistBuckets (pm w)) None in
    HistInf (pm w') ≡₆₄ HistInf (pm w) + sumf phi l - pend phi beforeBucket th' + pend phi beforeBucket th;
  so_max : MaxWaitTime (pm w) <= MaxWaitTime (pm w') /\
    (MaxWaitTime (pm w') = MaxWaitTime (pm w) \/ MaxWaitTime (pm w') ∈ obs w');
  so_below : forall ns k p, th = TWait ns k p -> beforeMax p = true -> ns <= MaxWaitTime (pm w') \/
    exists p', th' = TWait ns k p' /\ beforeMax p' = true;
  so_new : forall v, v ∈ l -> exists k p', th' = TWait v k p' /\ beforeMax p' = true;
  so_local : local w' th'
}.

(** A step that leaves the waits alone. *)
Lemma stepOk_other w w' th th' :
  obs w' = obs w -> HistBuckets (pm w') = HistBuckets (pm w) -> HistCounts (pm w') = HistCounts (pm w) ->
  Waits (pm w') = Waits (pm w) -> TotalWaitTime (pm w') = TotalWaitTime (pm w) ->
  HistInf (pm w') = HistInf (pm w) -> MaxWaitTime (pm w') = MaxWaitTime (pm w) ->
  (forall phi, pend phi beforeTotal th' = pend phi beforeTotal th /\
               pend phi beforeBucket th' = pend phi beforeBucket th) ->
  (forall ns k p, th = TWait ns k p -> beforeMax p = true -> ns <= MaxWaitTime (pm w) \/
     exists p', th' = TWait ns k p' /\ beforeMax p' = true) ->
  local w' th' -> stepOk w w' th th' [].
Proof.
  intros E1 E2 E3 E4 E5 E6 E7 Hp Hb Hl. constructor; rewrite ?E1, ?E2, ?E3, ?E4, ?E5, ?E6, ?E7; simpl; auto.
  - by rewrite app_nil_r.
  - apply eq64_of_eq. lia.
  - apply eq64_of_eq. rewrite (proj1 (Hp _)). lia.
  - intros i v Hv. exists v. split; [done|]. apply eq64_of_eq. rewrite (proj2 (Hp _)). lia.
  - apply eq64_of_eq. rewrite (proj2 (Hp _)). lia.
  - lia.
  - by intros v ?%not_elem_of_nil.
Qed.

Lemma bucket_step w ns k :
  local w (TWait ns k MBucket) ->
  stepOk w
    (match bucketOf ns (HistBuckets (pm w)) with
     | Some i => upd (set_HistCounts (alter (fun c => add64 c 1) i (HistCounts (pm w)))) w
     | None => upd (set_HistInf (add64 (HistInf (pm w)) 1)) w
     end) (TWait ns k MBucket) (TWait ns k MMin) [].
Proof.
  intros Hl. destruct (bucketOf ns (HistBuckets (pm w))) as [i|] eqn:E.
  - constructor; simpl; rewrite ?app_nil_r; auto; try (by apply eq64_of_eq; lia); try lia.
    + by rewrite length_alter.
    + intros j v Hv. rewrite list_lookup_alter in Hv. case_decide as Hij.
      * subst. apply fmap_Some in Hv as (c & Hc & ->). exists c. split; [done|].
        unfold inBucket. rewrite E, bool_decide_eq_true_2 by done. etrans; [apply add64_eq64|].
        apply eq64_of_eq. simpl. lia.
      * exists v. split; [done|]. unfold inBucket. rewrite E, bool_decide_eq_false_2 by congruence.
        apply eq64_of_eq. simpl. lia.
    + unfold inBucket. rewrite E, bool_decide_eq_false_2 by done. apply eq64_of_eq. simpl. lia.
    + intros ns' k' p [= <- <- <-] _. right. eauto.
    + by intros v ?%not_elem_of_nil.
  - constructor; simpl; rewrite ?app_nil_r; auto; try (by apply eq64_of_eq; lia); try lia.
    + intros j v Hv. exists v. split; [done|]. unfold inBucket. rewrite E, bool_decide_eq_false_2 by done.
      apply eq64_of_eq. simpl. lia.
    + unfold inBucket. rewrite E, bool_decide_eq_true_2 by done. etrans; [apply add64_eq64|].
      apply eq64_of_eq. simpl. lia.
    + intros ns' k' p [= <- <- <-] _. right. eauto.
    + by intros v ?%not_elem_of_nil.
Qed.

Lemma waits_step w ns k :
  stepOk w (MWorld (set_Waits (add64 (Waits (pm w)) 1) (pm w)) (contentions w) (obs w ++ [ns]))
    (TWait ns k MWaits) (TWait ns k MTotal) [ns].
Proof.
  constructor; simpl; auto; try lia.
  - apply add64_eq64.
  - apply eq64_of_eq. lia.
  - intros i v Hv. exists v. split; [done|]. apply eq64_of_eq. lia.
  - apply eq64_of_eq. lia.
  - intros ns' k' p [= <- <- <-]. done.
  - intros v ->%list_elem_of_singleton. eauto.
  - split; [|done]. apply elem_of_app. right. by left.
Qed.

Lemma total_step w ns k :
  local w (TWait ns k MTotal) ->
  stepOk w (upd (set_TotalWaitTime (add64 (TotalWaitTime (pm w)) ns)) w)
    (TWait ns k MTotal) (TWait ns k MCurrent) [].
Proof.
  intros Hl. constructor; simpl; rewrite ?app_nil_r; auto; try (by apply eq64_of_eq; lia); try lia.
  - etrans; [apply add64_eq64|]. apply eq64_of_eq. lia.
  - intros i v Hv. exists v. split; [done|]. apply eq64_of_eq. lia.
  - intros ns' k' p [= <- <- <-] _. right. eauto.
  - by intros v ?%not_elem_of_nil.
Qed.

Lemma max_step w ns k th' :
  local w (TWait ns k (MMaxCas (MaxWaitTime (pm w)))) -> th' = TIdle \/ th' = TWait ns k MCont1 ->
  stepOk w (upd (set_MaxWaitTime ns) w) (TWait ns k (MMaxCas (MaxWaitTime (pm w)))) th' [].
Proof.
  intros [Hi Hlt] Ht.
  assert (Hp : forall phi, pend phi beforeTotal th' = 0 /\ pend phi beforeBucket th' = 0) by (by destruct Ht as [->| ->]).
  constructor; simpl; rewrite ?app_nil_r; auto; try lia.
  - apply eq64_of_eq. lia.
  - apply eq64_of_eq. rewrite (proj1 (Hp _)). lia.
  - intros i v Hv. exists v. split; [done|]. apply eq64_of_eq. rewrite (proj2 (Hp _)). lia.
  - apply eq64_of_eq. rewrite (proj2 (Hp _)). lia.
  - split; [lia|by right].
  - intros ns' k' p [= <- <- <-] _. left. lia.
  - by intros v ?%not_elem_of_nil.
  - by destruct Ht as [->| ->].
Qed.

(** The goroutine is inside [RecordWait] before or after the step. *)
Ltac inv_wait := try done; try (intros ? ? ? [= <- <- <-] ?; by first [done | left; lia | right; eauto]).

Lemma rec_run o th w th' w' :
  mrun o th w = Some (th', w') -> local w th -> exists l, stepOk w w' th th' l.
Proof.
  intros Hr Hl. destruct th as [|h p|h p|ns k p|]; try done.
  - exists []. destruct p; simplify_eq/=; by apply stepOk_other.
  - exists []. destruct p; simplify_eq/=; by apply stepOk_other.
  - destruct p; simpl in Hr.
    + injection Hr as <- <-. exists [ns]. by apply waits_step.
    + injection Hr as <- <-. exists []. by apply total_step.
    + injection Hr as <- <-. exists []. apply stepOk_other; auto. intros ? ? ? [= <- <- <-] _. eauto.
    + injection Hr as <- <-. exists []. by apply bucket_step.
    + injection Hr as <- <-. exists []. destruct (_ || _); apply stepOk_other; auto; inv_wait.
    + exists []. destruct (MinWaitTime (pm w) =? cur); injection Hr as <- <-; apply stepOk_other; auto; inv_wait.
    + exists []. destruct (Z.ltb_spec (MaxWaitTime (pm w)) ns) as [Hlt|Hge];
        [|destruct (1 <? k)]; injection Hr as <- <-; apply stepOk_other; auto; inv_wait; by destruct Hl.
    + exists []. destruct (Z.eqb_spec (MaxWaitTime (pm w)) cur) as [<-|Hne].
      * destruct (1 <? k); injection Hr as <- <-; apply max_step; auto.
      * injection Hr as <- <-. apply stepOk_other; auto; inv_wait. by destruct Hl.
    + injection Hr as <- <-. exists []. apply stepOk_other; auto; inv_wait.
    + injection Hr as <- <-. exists []. apply stepOk_other; auto; inv_wait.
    + exists []. destruct (_ <? _); injection Hr as <- <-; apply stepOk_other; auto; inv_wait.
    + exists []. destruct (_ =? _); injection Hr as <- <-; apply stepOk_other; auto; inv_wait.
  - exists []. simplify_eq/=. by apply stepOk_other.
Qed.

Lemma local_mono w w' th : (forall x, x ∈ obs w -> x ∈ obs w') -> local w th -> local w' th.
Proof. intros H. destruct th as [| | |ns k p|]; try done. destruct p; simpl; intuition. Qed.

Lemma counts_step phi before v v' w w' ths t th th' l :
  counts phi before v (w, ths) -> ths !! t = Some th -> obs w' = obs w ++ l ->
  v' ≡₆₄ v + sumf phi l - pend phi before th' + pend phi before th ->
  counts phi before v' (w', <[t:=th']> ths).
Proof.
  unfold counts. simpl. intros Hv Ht Ho Hs. rewrite (sumf_insert _ _ _ _ _ Ht), Ho, sumf_app, Hs, Hv.
  apply eq64_of_eq. lia.
Qed.

Lemma rec_Inv_run bounds w ths t th th' w' o :
  Inv bounds (w, ths) -> ths !! t = Some th -> mrun o th w = Some (th', w') ->
  Inv bounds (w', <[t:=th']> ths).
Proof.
  intros [[Hb Hc] Hw Ht Hh Hi [Hm0 Hm] Hbel Hloc] Hl Hr. simpl in *.
  destruct (rec_run _ _ _ _ _ Hr (Forall_lookup_1 _ _ _ _ Hloc Hl)) as (l & [S1 S2 S3 S4 S5 S6 S7 S8 S9 S10]).
  assert (Hsub : forall x, x ∈ obs w -> x ∈ obs w') by (intros; rewrite S1; apply elem_of_app; by left).
  constructor; simpl.
  - destruct S2. split; congruence.
  - rewrite S3, Hw, S1, length_app. apply eq64_of_eq. lia.
  - by eapply counts_step.
  - intros i v Hv. destruct (S5 i v Hv) as (v0 & Hv0 & E). rewrite Hb in E. eapply counts_step; eauto.
  - rewrite Hb in S6. by eapply counts_step.
  - split; [lia|]. destruct S7 as [_ [->|?]]; [|by right]. destruct Hm as [?|?]; auto.
  - intros v Hv. rewrite S1 in Hv. apply elem_of_app in Hv as [Hv|Hv].
    + destruct (Hbel v Hv) as [?|(t1 & k & p & Ht1 & Hp)]; [left; lia|].
      destruct (decide (t1 = t)) as [->|Hne].
      * simplify_eq. destruct (S8 _ _ _ eq_refl Hp) as [?|(p' & -> & Hp')]; [by left|].
        right. exists t, k, p'. split; [|done]. apply list_lookup_insert_eq. by eapply lookup_lt_Some.
      * right. exists t1, k, p. by rewrite list_lookup_insert_ne.
    + destruct (S9 v Hv) as (k & p' & -> & Hp'). right. exists t, k, p'. split; [|done].
      apply list_lookup_insert_eq. by eapply lookup_lt_Some.
  - apply Forall_insert; [|done]. eapply Forall_impl; [exact Hloc|]. intros x. by apply local_mono.
Qed.

Lemma rec_Inv_call bounds w ths t th th' op now :
  Inv bounds (w, ths) -> ths !! t = Some th -> mcall op now th = Some th' -> Inv bounds (w, <[t:=th']> ths).
Proof.
  intros [H1 H2 H3 H4 H5 H6 H7 H8] Hl Hc. destruct th; simplify_eq/=.
  set (th' := match op with OpAcquire h => _ | _ => _ end).
  assert (Hp : forall phi, pend phi beforeTotal th' = 0 /\ pend phi beforeBucket th' = 0) by (by destruct op).
  assert (Hs : forall phi before v, pend phi before th' = 0 -> counts phi before v (w, ths) ->
    counts phi before v (w, <[t:=th']> ths)).
  { intros phi before v E. unfold counts. simpl. rewrite (sumf_insert _ _ _ _ _ Hl), E. simpl.
    by rewrite Z.sub_0_r, Z.add_0_r. }
  constructor; simpl; auto.
  - apply Hs; [apply Hp|done].
  - intros i v Hv. apply Hs; [apply Hp|by apply H4].
  - apply Hs; [apply Hp|done].
  - intros v Hv. destruct (H7 v Hv) as [?|(t1 & k & p & Ht1 & E)]; [by left|]. right. exists t1, k, p.
    rewrite list_lookup_insert_ne; [done|]. intros ->. by simplify_eq/=.
  - apply Forall_insert; [done|]. by destruct op.
Qed.

Lemma rec_reach_Inv bounds P k now c : reach recorder P (initial k now bounds) c -> Inv bounds c.
Proof.
  apply reach_invariant.
  - assert (Hs : forall phi before, counts phi before 0 (initial k now bounds)).
    { intros. unfold counts. simpl. by rewrite sumf_replicate. }
    constructor; simpl; try apply Hs; try done.
    + by rewrite length_replicate.
    + intros i v [-> _]%lookup_replicate. apply Hs.
    + split; [done|by left].
    + intros v Hv. by apply not_elem_of_nil in Hv.
    + by apply Forall_replicate.
  - intros. by eapply rec_Inv_call.
  - intros. by eapply rec_Inv_run.
  - done.
Qed.

(** The waits that belong to a bucket, [None] for the one above all bounds. *)
Definition bucket (bounds : list Z) (i : option nat) (l : list Z) : list Z :=
  filter (fun ns => bucketOf ns bounds = i) l.

Lemma sumf_inBucket bounds i l : sumf (inBucket bounds i) l = Z.of_nat (length (bucket bounds i l)).
Proof.
  unfold bucket.
  induction l as [|x l IH]; simpl; [done|]. rewrite filter_cons, IH. unfold inBucket.
  case_decide as E; [rewrite bool_decide_eq_true_2 by done|rewrite bool_decide_eq_false_2 by done]; simpl; lia.
Qed.

Lemma foldr_max_spec m l : 0 <= m -> m = 0 \/ m ∈ l -> (forall v, v ∈ l -> v <= m) -> m = foldr Z.max 0 l.
Proof.
  intros H0 Hin Hle. apply Z.le_antisymm.
  - assert (forall x, x ∈ l -> x <= foldr Z.max 0 l) as Hx.
    { clear. induction l as [|y l IH]; intros x; [by intros ?%not_elem_of_nil|].
      intros [->|Hx]%elem_of_cons; simpl; [lia|]. apply IH in Hx. lia. }
    assert (0 <= foldr Z.max 0 l) by (clear; induction l; simpl; lia).
    destruct Hin as [->|Hin]; [done|by apply Hx].
  - clear Hin. induction l as [|y l IH]; simpl; [done|].
    pose proof (Hle y ltac:(by left)). assert (foldr Z.max 0 l <= m); [|lia].
    apply IH. intros v Hv. apply Hle. by right.
Qed.

(** * Theorems *)

(** C36: no observation is lost.  However many goroutines record at the same
    time, when none is inside a call [Waits], [TotalWaitTime] and every
    bucket of the histogram are what recording the waits one after another
    gives (modulo 2^64), and [MaxWaitTime] is the largest of them. *)
Theorem metrics_exact k now bounds w ths :
  reach recorder any_label (initial k now bounds) (w, ths) -> Forall (eq TIdle) ths ->
  Waits (pm w) ≡₆₄ Z.of_nat (length (obs w)) /\
  TotalWaitTime (pm w) ≡₆₄ sumf (fun x => x) (obs w) /\
  (forall i v, HistCounts (pm w) !! i = Some v ->
     v ≡₆₄ Z.of_nat (length (bucket bounds (Some i) (obs w)))) /\
  HistInf (pm w) ≡₆₄ Z.of_nat (length (bucket bounds None (obs w))) /\
  MaxWaitTime (pm w) = foldr Z.max 0 (obs w).
Proof.
  intros [_ Hw Ht Hh Hi [Hm0 Hm] Hbel _]%rec_reach_Inv Hidle. simpl in *.
  assert (Hz : forall phi before, sumf (pend phi before) ths = 0).
  { intros. apply sumf_zero. intros i x Hx. by rewrite <- (Forall_lookup_1 _ _ _ _ Hidle Hx). }
  unfold counts in *. simpl in *. split; [done|].
  split; [rewrite Ht, Hz; apply eq64_of_eq; lia|].
  split; [intros i v Hv; rewrite (Hh i v Hv), Hz, sumf_inBucket; apply eq64_of_eq; lia|].
  split; [rewrite Hi, Hz, sumf_inBucket; apply eq64_of_eq; lia|].
  apply foldr_max_spec; [done|done|]. intros v Hv. destruct (Hbel v Hv) as [?|(t & k' & p & Hl & _)]; [done|].
  by pose proof (Forall_lookup_1 _ _ _ _ Hidle Hl).
Qed.

(** T0 and T1 record waits of 3 and 12 at the same time; both read the same
    maximum, the CAS of T0 fails and it tries again. *)
Definition twoWaits : list (label mop) :=
  Call 0 (OpWait 3 1) 0 :: Call 1 (OpWait 12 1) 0 :: runs 0 7 ++ runs 1 7 ++ runs 0 2.

Lemma metrics_exact_witness :
  let c := after recorder twoWaits (initial 2 0 [5; 10]) in
  Waits (pm c.1) ≡₆₄ 2 /\ HistInf (pm c.1) ≡₆₄ 1 /\ MaxWaitTime (pm c.1) = 12.
Proof.
  destruct (metrics_exact 2 0 [5; 10] (after recorder twoWaits (initial 2 0 [5; 10])).1
    (after recorder twoWaits (initial 2 0 [5; 10])).2) as (H1 & _ & _ & H4 & H5).
  - apply after_reach; [apply Forall_any|by_eval].
  - vm_compute. repeat constructor.
  - split; [exact H1|]. split; [exact H4|exact H5].
Defined.

(** T0 records a wait of 0, then one of 5. *)
Definition zeroWait : list (label mop) :=
  Call 0 (OpWait 0 1) 0 :: runs 0 7 ++ Call 0 (OpWait 5 1) 0 :: runs 0 8.

(** The minimum does not know a wait of 0 nanoseconds: 0 also stands for "no
    wait yet", so the next wait replaces it. *)
Theorem metrics_min_forgets_zero :
  exists w, execs recorder zeroWait (initial 1 0 [5; 10]) = Some (w, [TIdle]) /\
    obs w = [0; 5] /\ MinWaitTime (pm w) = 5.
Proof. eexists. split; [vm_compute; reflexivity|]. split; reflexivity. Qed.
