(* ===== verification/Auth.v ===== *)
(** * JSON web tokens (internal/auth/jwt.go)

    [ValidateJWT] and [GenerateJWT].  Go strings are sequences of bytes:
    [string] here.  The unpadded URL-safe base64 of the standard library and
    [strings.Split] are defined below; HMAC-SHA256, the JSON encoder and the
    JSON decoder are arguments of the model, about which the theorems assume
    at most that decoding undoes encoding on the values at hand. *)

From Stdlib Require Import ZArith Lia Ascii String.
From stdpp Require Import base list strings.
From S2P Require Import Prelude.

#[local] Open Scope Z_scope.

(** ** Base64 without padding, URL alphabet *)

Definition byteOf (a : ascii) : Z := Z.of_N (N_of_ascii a).
Definition ofByte (z : Z) : ascii := ascii_of_N (Z.to_N z).

Definition alphabet : string := "ABCDEFGHIJKLMNOPQRSTUVWXYZabcdefghijklmnopqrstuvwxyz0123456789-_".

Definition encChar (i : Z) : ascii := default "A"%char (String.get (Z.to_nat i) alphabet).

Fixpoint indexIn (c : ascii) (s : string) (i : Z) : option Z :=
  match s with
  | EmptyString => None
  | String c' s => if bool_decide (c = c') then Some i else indexIn c s (i + 1)
  end.
Definition decChar (c : ascii) : option Z := indexIn c alphabet 0.

(** Three bytes make four characters; one or two bytes at the end make two
    or three. *)
Fixpoint encode (l : list Z) : list Z :=
  match l with
  | a :: b :: c :: l =>
      let n := a * 65536 + b * 256 + c in
      n / 262144 :: n / 4096 mod 64 :: n / 64 mod 64 :: n mod 64 :: encode l
  | [a; b] => let n := a * 65536 + b * 256 in [n / 262144; n / 4096 mod 64; n / 64 mod 64]
  | [a] => let n := a * 65536 in [n / 262144; n / 4096 mod 64]
  | [] => []
  end.

Fixpoint decode (l : list Z) : option (list Z) :=
  match l with
  | i :: j :: k :: m :: l =>
      let n := i * 262144 + j * 4096 + k * 64 + m in
      r ← decode l; Some (n / 65536 :: n / 256 mod 256 :: n mod 256 :: r)
  | [i; j; k] => let n := i * 262144 + j * 4096 + k * 64 in Some [n / 65536; n / 256 mod 256]
  | [i; j] => let n := i * 262144 + j * 4096 in Some [n / 65536]
  | [i] => None
  | [] => Some []
  end.

Definition bytes (s : string) : list Z := byteOf <$> list_ascii_of_string s.
Definition fromBytes (l : list Z) : string := string_of_list_ascii (ofByte <$> l).

Definition EncodeToString (s : string) : string := string_of_list_ascii (encChar <$> encode (bytes s)).

(** The decoder skips carriage returns and line feeds. *)
Definition notNewline (c : ascii) : Prop := c <> "010"%char /\ c <> "013"%char.

Definition DecodeString (s : string) : option string :=
  l ← mapM decChar (filter notNewline (list_ascii_of_string s)); fromBytes <$> decode l.

(** ** strings.Split(s, ".") *)
Fixpoint split (s : string) : list string :=
  match s with
  | EmptyString => [""%string]
  | String c s' =>
      if bool_decide (c = "."%char) then ""%string :: split s'
      else match split s' with p :: ps => String c p :: ps | [] => [String c ""] end
  end.

(** ** Tokens *)

Record Claims := mkClaims { Sub : string; Role : string; Namespace : string; Iat : Z; Exp : Z }.
Record header := mkHeader { Alg : string; Typ : string }.

(** The errors, in the order of the tests. *)
Inductive jwtError :=
| ErrFormat | ErrHeaderEncoding | ErrHeaderJSON | ErrHeaderUnsupported | ErrSignature
| ErrPayloadEncoding | ErrPayloadJSON | ErrMissingSub | ErrMissingExp | ErrExpired.

(** An error monad for the early returns. *)
Definition res (A : Type) : Type := jwtError + A.
Definition orFail {A} (o : option A) (e : jwtError) : res A := match o with Some a => inr a | None => inl e end.
Definition check (b : bool) (e : jwtError) : res unit := if b then inr tt else inl e.
Definition rbind {A B} (x : res A) (f : A -> res B) : res B := match x with inl e => inl e | inr a => f a end.
#[local] Notation "x <-- a ;; b" := (rbind a (fun x => b)) (at level 100, a at next level, right associativity).

Section Tokens.
Context (hmacSHA256 : string -> string -> string).
Context (marshalHeader : header -> option string) (unmarshalHeader : string -> option header).
Context (marshalClaims : Claims -> option string) (unmarshalClaims : string -> option Claims).

Definition sign (secret input : string) : string := EncodeToString (hmacSHA256 secret input).

Definition ValidateJWT (now : Z) (token secret : string) : res Claims :=
  match split token with
  | [p0; p1; p2] =>
      headerJSON <-- orFail (DecodeString p0) ErrHeaderEncoding ;;
      hdr <-- orFail (unmarshalHeader headerJSON) ErrHeaderJSON ;;
      _ <-- check (String.eqb (Alg hdr) "HS256" && String.eqb (Typ hdr) "JWT") ErrHeaderUnsupported ;;
      _ <-- check (String.eqb (sign secret (p0 +:+ "." +:+ p1)) p2) ErrSignature ;;
      payloadJSON <-- orFail (DecodeString p1) ErrPayloadEncoding ;;
      claims <-- orFail (unmarshalClaims payloadJSON) ErrPayloadJSON ;;
      _ <-- check (negb (String.eqb (Sub claims) "")) ErrMissingSub ;;
      _ <-- check (negb (Exp claims =? 0)) ErrMissingExp ;;
      _ <-- check (now <=? Exp claims) ErrExpired ;;
      inr claims
  | _ => inl ErrFormat
  end.

Definition GenerateJWT (claims : Claims) (secret : string) : option string :=
  headerJSON ← marshalHeader (mkHeader "HS256" "JWT");
  payloadJSON ← marshalClaims claims;
  let signingInput := EncodeToString headerJSON +:+ "." +:+ EncodeToString payloadJSON in
  Some (signingInput +:+ "." +:+ sign secret signingInput).
End Tokens.

(** * Base64 round trip *)

Definition sextet (i : Z) : Prop := 0 <= i < 64.
Definition octet (b : Z) : Prop := 0 <= b < 256.

Lemma encChar_spec i :
  sextet i -> decChar (encChar i) = Some i /\ encChar i <> "."%char /\ notNewline (encChar i).
Proof.
  intros Hi. assert (H : Forall (fun i => decChar (encChar i) = Some i /\ encChar i <> "."%char /\
    (encChar i <> "010"%char /\ encChar i <> "013"%char)) (seqZ 0 64)) by by_decide.
  rewrite Forall_forall in H. apply H, elem_of_seqZ. unfold sextet in Hi. lia.
Qed.

(** Lists three elements at a time. *)
Lemma triples_ind (P : list Z -> Prop) :
  P [] -> (forall a, P [a]) -> (forall a b, P [a; b]) ->
  (forall a b c l, P l -> P (a :: b :: c :: l)) -> forall l, P l.
Proof.
  intros H0 H1 H2 H3. fix IH 1. intros [|a [|b [|c l]]]; [done|apply H1|apply H2|apply H3, IH].
Qed.

(** The sextets of a number put it together again. *)
Lemma sextets n :
  n = 64 * (n / 64) + n mod 64 /\ n / 64 = 64 * (n / 4096) + n / 64 mod 64 /\
  n / 4096 = 64 * (n / 262144) + n / 4096 mod 64.
Proof.
  pose proof (Z.div_mod n 64 ltac:(lia)). pose proof (Z.div_mod (n / 64) 64 ltac:(lia)) as H1.
  pose proof (Z.div_mod (n / 4096) 64 ltac:(lia)) as H2.
  rewrite Z.div_div in H1 by lia. rewrite Z.div_div in H2 by lia. done.
Qed.

(** Division of [a * k + r] by [k]. *)
Lemma div_digit a r k n : 0 <= r < k -> n = a * k + r -> n / k = a.
Proof. intros Hr ->. rewrite Z.div_add_l by lia. rewrite Z.div_small by lia. lia. Qed.
Lemma mod_digit a r k n : 0 <= r < k -> n = a * k + r -> n mod k = r.
Proof. intros Hr ->. rewrite Z.add_comm, Z.mod_add by lia. by apply Z.mod_small. Qed.

Lemma octets a b c n :
  octet a -> octet b -> octet c -> n = a * 65536 + b * 256 + c ->
  n / 65536 = a /\ n / 256 mod 256 = b /\ n mod 256 = c.
Proof.
  unfold octet. intros Ha Hb Hc ->. split; [apply (div_digit _ (b * 256 + c)); lia|]. split.
  - rewrite (div_digit (a * 256 + b) c 256) by lia. by apply (mod_digit a).
  - by apply (mod_digit (a * 256 + b)); lia.
Qed.

Lemma sextet_mod n : sextet (n mod 64).
Proof. apply Z.mod_pos_bound. lia. Qed.

Lemma sextet_top a b c : octet a -> octet b -> octet c -> sextet ((a * 65536 + b * 256 + c) / 262144).
Proof.
  unfold octet, sextet. intros. split; [apply Z.div_pos; lia|]. apply Z.div_lt_upper_bound; lia.
Qed.

#[local] Hint Resolve sextet_mod : core.

Ltac inv_octets :=
  repeat match goal with H : Forall _ (_ :: _) |- _ => apply Forall_cons in H as [? H] end;
  assert (octet 0) by (unfold octet; lia).

Lemma encode_sextets l : Forall octet l -> Forall sextet (encode l).
Proof.
  induction l as [|a|a b|a b c l IH] using triples_ind; intros H; cbn [encode]; [done|..]; inv_octets;
    repeat apply Forall_cons_2; auto; try apply Forall_nil_2.
  - replace (a * 65536) with (a * 65536 + 0 * 256 + 0) by lia. by apply sextet_top.
  - replace (a * 65536 + b * 256) with (a * 65536 + b * 256 + 0) by lia. by apply sextet_top.
  - by apply sextet_top.
Qed.

Lemma decode_encode l : Forall octet l -> decode (encode l) = Some l.
Proof.
  induction l as [|a|a b|a b c l IH] using triples_ind; intros H; cbn [encode decode]; [done|..]; inv_octets.
  - destruct (sextets (a * 65536)) as (_ & _ & E).
    pose proof (div_digit (a * 16) 0 4096 (a * 65536) ltac:(lia) ltac:(lia)) as E2.
    destruct (octets a 0 0 (a * 65536 / 262144 * 262144 + a * 65536 / 4096 mod 64 * 4096)) as (-> & _); auto; lia.
  - destruct (sextets (a * 65536 + b * 256)) as (_ & E1 & E2).
    pose proof (div_digit (a * 1024 + b * 4) 0 64 (a * 65536 + b * 256) ltac:(lia) ltac:(lia)) as E3.
    match goal with |- Some [?n / 65536; _] = _ => destruct (octets a b 0 n) as (-> & -> & _); auto; lia end.
  - rewrite IH by done. cbn [mbind option_bind]. destruct (sextets (a * 65536 + b * 256 + c)) as (E1 & E2 & E3).
    match goal with |- Some (?n / 65536 :: _) = _ => destruct (octets a b c n) as (-> & -> & ->); auto; lia end.
Qed.

Lemma bytes_octets s : Forall octet (bytes s).
Proof.
  unfold bytes. apply Forall_fmap, Forall_true. intros a. unfold octet, byteOf. simpl.
  pose proof (N_ascii_bounded a). lia.
Qed.

Lemma fromBytes_bytes s : fromBytes (bytes s) = s.
Proof.
  unfold fromBytes, bytes. rewrite <- list_fmap_compose.
  rewrite <- (string_of_list_ascii_of_string s) at 2. f_equal.
  rewrite <- (list_fmap_id (list_ascii_of_string s)) at 2. apply list_fmap_ext. intros i a _. simpl.
  unfold ofByte, byteOf. rewrite N2Z.id. apply ascii_N_embedding.
Qed.

Lemma filter_all {A} (P : A -> Prop) `{!forall x, Decision (P x)} l : Forall P l -> filter P l = l.
Proof. induction 1 as [|x l Hx _ IH]; [done|]. by rewrite filter_cons_True, IH. Qed.

(** Decoding undoes encoding. *)
Lemma base64_roundtrip s : DecodeString (EncodeToString s) = Some s.
Proof.
  unfold DecodeString, EncodeToString. rewrite list_ascii_of_string_of_list_ascii.
  pose proof (encode_sextets _ (bytes_octets s)) as Hs.
  rewrite filter_all
    by (apply Forall_fmap; eapply Forall_impl; [exact Hs|]; intros i Hi; by apply encChar_spec).
  replace (mapM decChar (encChar <$> encode (bytes s))) with (Some (encode (bytes s))).
  - simpl. rewrite decode_encode by apply bytes_octets. simpl. by rewrite fromBytes_bytes.
  - symmetry. apply mapM_Some. induction Hs as [|i l Hi Hs IH]; simpl; constructor; [by apply encChar_spec|done].
Qed.

(** ** Splitting at dots *)

Definition noDot (s : string) : Prop := Forall (fun c => c <> "."%char) (list_ascii_of_string s).

Lemma EncodeToString_noDot s : noDot (EncodeToString s).
Proof.
  unfold noDot, EncodeToString. rewrite list_ascii_of_string_of_list_ascii. apply Forall_fmap.
  eapply Forall_impl; [apply encode_sextets, bytes_octets|]. intros i Hi. by apply encChar_spec.
Qed.

Lemma split_noDot s : noDot s -> split s = [s].
Proof.
  induction s as [|c s IH]; simpl; [done|]. intros [Hc Hs]%Forall_cons.
  rewrite bool_decide_eq_false_2 by done. by rewrite (IH Hs).
Qed.

Lemma split_dot a b : noDot a -> split (a +:+ "." +:+ b) = a :: split b.
Proof.
  induction a as [|c a IH]; simpl; [done|]. intros [Hc Ha]%Forall_cons.
  rewrite bool_decide_eq_false_2 by done. by rewrite (IH Ha).
Qed.

Fixpoint join (l : list string) : string :=
  match l with [] => "" | [p] => p | p :: ps => p +:+ "." +:+ join ps end.

Lemma join_cons c p ps : join (String c p :: ps) = String c (join (p :: ps)).
Proof. by destruct ps. Qed.

(** Joining the parts gives the string back. *)
Lemma join_split s : join (split s) = s /\ split s <> [].
Proof.
  induction s as [|c s [IH1 IH2]]; simpl; [done|]. case_bool_decide as Ec.
  - subst. split; [|done]. destruct (split s) as [|p ps]; [done|]. by rewrite <- IH1.
  - destruct (split s) as [|p ps]; [done|]. split; [|done]. by rewrite join_cons, IH1.
Qed.

(** * Theorems *)

Section TokenTheorems.
Context (hmacSHA256 : string -> string -> string).
Context (marshalHeader : header -> option string) (unmarshalHeader : string -> option header).
Context (marshalClaims : Claims -> option string) (unmarshalClaims : string -> option Claims).

(** What is generated is accepted.  A token generated from claims with a
    subject and an expiry that has not passed is valid for the same secret
    and yields these claims, provided the JSON decoder undoes the encoder on
    the header and on the claims. *)
Theorem jwt_roundtrip claims secret now token :
  (forall j, marshalHeader (mkHeader "HS256" "JWT") = Some j -> unmarshalHeader j = Some (mkHeader "HS256" "JWT")) ->
  (forall j, marshalClaims claims = Some j -> unmarshalClaims j = Some claims) ->
  GenerateJWT hmacSHA256 marshalHeader marshalClaims claims secret = Some token ->
  Sub claims <> "" -> Exp claims <> 0 -> now <= Exp claims ->
  ValidateJWT hmacSHA256 unmarshalHeader unmarshalClaims now token secret = inr claims.
Proof.
  intros Hh Hc Hg Hs He Hn. unfold GenerateJWT in Hg.
  apply bind_Some in Hg as (hj & Ehj & Hg). apply bind_Some in Hg as (pj & Epj & [= <-]).
  assert (Hsp : forall a b c, noDot a -> noDot b -> noDot c ->
    split ((a +:+ "." +:+ b) +:+ "." +:+ c) = [a; b; c]).
  { intros a b c Ha Hb Hc'. rewrite !string_app_assoc, split_dot, split_dot, split_noDot; done. }
  unfold ValidateJWT. rewrite Hsp by apply EncodeToString_noDot.
  rewrite base64_roundtrip. cbn [orFail rbind]. rewrite (Hh _ Ehj). cbn [orFail rbind Alg Typ].
  rewrite !String.eqb_refl. cbn [check rbind andb]. rewrite base64_roundtrip. cbn [orFail rbind].
  rewrite (Hc _ Epj). cbn [orFail rbind].
  rewrite (proj2 (String.eqb_neq _ _) Hs), (proj2 (Z.eqb_neq _ _) He), (proj2 (Z.leb_le _ _) Hn). done.
Qed.

(** C37: only signed, live tokens are accepted.  A token that [ValidateJWT]
    accepts is [h.p.sig] where [sig] is the MAC of [h.p] under the secret,
    [h] decodes to an HS256/JWT header and [p] to the claims returned, which
    have a subject and an expiry that has not passed. *)
Theorem jwt_sound now token secret claims :
  ValidateJWT hmacSHA256 unmarshalHeader unmarshalClaims now token secret = inr claims ->
  exists h p, token = h +:+ "." +:+ p +:+ "." +:+ sign hmacSHA256 secret (h +:+ "." +:+ p) /\
    (exists j, DecodeString h = Some j /\ unmarshalHeader j = Some (mkHeader "HS256" "JWT")) /\
    (exists j, DecodeString p = Some j /\ unmarshalClaims j = Some claims) /\
    Sub claims <> "" /\ Exp claims <> 0 /\ now <= Exp claims.
Proof.
  unfold ValidateJWT. intros H. pose proof (proj1 (join_split token)) as Hj.
  destruct (split token) as [|p0 [|p1 [|p2 [|]]]]; try done. simpl in Hj.
  unfold rbind, orFail, check in H.
  destruct (DecodeString p0) as [hj|] eqn:E1; [|done].
  destruct (unmarshalHeader hj) as [[alg typ]|] eqn:E2; [|done]. simpl in H.
  destruct (String.eqb alg "HS256" && String.eqb typ "JWT") eqn:E3; [|done].
  destruct (String.eqb (sign hmacSHA256 secret (p0 +:+ "." +:+ p1)) p2) eqn:E4; [|done].
  destruct (DecodeString p1) as [pj|] eqn:E5; [|done].
  destruct (unmarshalClaims pj) as [c|] eqn:E6; [|done].
  destruct (String.eqb (Sub c) "") eqn:E7; [done|]. destruct (Exp c =? 0) eqn:E8; [done|].
  destruct (now <=? Exp c) eqn:E9; [|done]. simpl in H. injection H as ->. apply Z.eqb_neq in E8. apply Z.leb_le in E9.
  apply andb_true_iff in E3 as [->%String.eqb_eq ->%String.eqb_eq].
  apply String.eqb_eq in E4. apply String.eqb_neq in E7.
  exists p0, p1. rewrite E4, <- Hj. split; [done|]. split; [eauto|]. split; [eauto|done].
Qed.
End TokenTheorems.

(** ** Instances: encoders that know one header and one set of claims *)
Definition sampleClaims : Claims := mkClaims "alice" "admin" "" 100 200.
Definition sampleMac (secret input : string) : string := secret +:+ input.
Definition sampleMarshalHeader (_ : header) : option string := Some "H".
Definition sampleUnmarshalHeader (j : string) : option header :=
  if String.eqb j "H" then Some (mkHeader "HS256" "JWT") else None.
Definition sampleMarshalClaims (_ : Claims) : option string := Some "C".
Definition sampleUnmarshalClaims (j : string) : option Claims :=
  if String.eqb j "C" then Some sampleClaims else None.

Definition sampleToken : string :=
  default "" (GenerateJWT sampleMac sampleMarshalHeader sampleMarshalClaims sampleClaims "key").

Lemma jwt_roundtrip_witness :
  ValidateJWT sampleMac sampleUnmarshalHeader sampleUnmarshalClaims 150 sampleToken "key" = inr sampleClaims.
Proof.
  apply (jwt_roundtrip sampleMac sampleMarshalHeader sampleUnmarshalHeader sampleMarshalClaims
    sampleUnmarshalClaims sampleClaims "key" 150 sampleToken).
  - by intros j [= <-].
  - by intros j [= <-].
  - by_eval.
  - done.
  - done.
  - simpl. lia.
Defined.

Lemma jwt_sound_witness :
  exists h p, sampleToken = h +:+ "." +:+ p +:+ "." +:+ sign sampleMac "key" (h +:+ "." +:+ p) /\
    150 <= Exp sampleClaims.
Proof.
  destruct (jwt_sound sampleMac sampleUnmarshalHeader sampleUnmarshalClaims 150 sampleToken "key" sampleClaims)
    as (h & p & H1 & _ & _ & _ & _ & H6); [by_eval|]. exists h, p. split; [exact H1|exact H6].
Defined.
