(* ===== verification/AuditLog.v ===== *)
(** * Audit log (internal/audit/audit.go)

    [Log] puts an entry into a channel of capacity 4096 and drops it when the
    channel is full; the goroutine [loop] takes entries out, writes them as
    lines to a file and rotates the file when it has grown to [maxBytes].

    The file system is a map from names to contents.  Every call of package
    os may fail: its result is an argument ([osResults]).  [json.Marshal] is
    the argument [marshal].  [loop] is modelled step by step (the [select],
    the write of a received entry, the same two while it drains the channel
    after [Close]); [writeEntry] runs under [mu], which only [Close] takes
    besides, after [loop] has ended. *)

From Stdlib Require Import ZArith Lia Ascii.
From stdpp Require Import base list gmap strings pretty.
From S2P Require Import Prelude.

#[local] Open Scope Z_scope.

Definition defaultBufferSize : nat := 4096.

Record Entry := mkEntry {
  Timestamp : Z; Event : string; ConnID : string; User : string; PrimitiveID : string;
  PrimitiveType : string; Op : string; HoldMs : Z; Result : string; DurationNs : Z; Error : string
}.

(** The program point of [loop]. *)
Inductive lpoint := LSelect | LWrite (e : Entry) | LDrain | LDrainWrite (e : Entry) | LExit.

(** [file] is [None] for nil, [Some true] for an open file and [Some false]
    for an [os.File] that has been closed. *)
Record Logger := mkLogger {
  path : string; maxBytes : Z; keepFiles : Z;
  ch : list Entry; done : bool;
  file : option bool; currentBytes : Z; dropped : Z;
  lp : lpoint
}.

Definition set_ch v l := mkLogger (path l) (maxBytes l) (keepFiles l) v (done l) (file l) (currentBytes l) (dropped l) (lp l).
Definition set_done v l := mkLogger (path l) (maxBytes l) (keepFiles l) (ch l) v (file l) (currentBytes l) (dropped l) (lp l).
Definition set_file v l := mkLogger (path l) (maxBytes l) (keepFiles l) (ch l) (done l) v (currentBytes l) (dropped l) (lp l).
Definition set_currentBytes v l := mkLogger (path l) (maxBytes l) (keepFiles l) (ch l) (done l) (file l) v (dropped l) (lp l).
Definition set_dropped v l := mkLogger (path l) (maxBytes l) (keepFiles l) (ch l) (done l) (file l) (currentBytes l) v (lp l).
Definition set_lp v l := mkLogger (path l) (maxBytes l) (keepFiles l) (ch l) (done l) (file l) (currentBytes l) (dropped l) v.

Abbreviation FS := (gmap string string).

(** ** Calls of package os

    What each call of one operation answers; [true] is success.  A failed
    [Write] may have written some bytes. *)
Record osResults := OsResults {
  mkdirOk : bool; openOk : bool; statOk : bool;
  written : option nat;             (* None: everything; Some k: error after k bytes *)
  closeOk : bool;
  removeOk : bool;
  statSrcOk : nat -> bool;          (* of the i-th rotated file *)
  renameOk : nat -> bool            (* of the i-th rotated file; 0 is the current one *)
}.

Definition fileSize (s : string) : Z := Z.of_nat (String.length s).

(** [os.Remove] and [os.Rename] report a missing file as an error that
    [os.IsNotExist] recognises. *)
Inductive osErr := ErrNotExist | ErrOther.

Definition remove (ok : bool) (p : string) (fs : FS) : option osErr * FS :=
  match fs !! p with
  | None => (Some ErrNotExist, fs)
  | Some _ => if ok then (None, delete p fs) else (Some ErrOther, fs)
  end.

Definition rename (ok : bool) (src dst : string) (fs : FS) : option osErr * FS :=
  match fs !! src with
  | None => (Some ErrNotExist, fs)
  | Some c => if ok then (None, <[dst:=c]> (delete src fs)) else (Some ErrOther, fs)
  end.

Definition exists_file (ok : bool) (p : string) (fs : FS) : bool :=
  match fs !! p with Some _ => ok | None => false end.

(** ** Construction *)

Inductive newErr := ErrPathRequired | ErrMkdir | ErrOpenFile | ErrStatFile.

(** [os.OpenFile] with O_CREATE and O_APPEND: the file is created empty. *)
Definition New (r : osResults) (p : string) (max keep : Z) (fs : FS) : (newErr + Logger) * FS :=
  if decide (p = "") then (inl ErrPathRequired, fs)
  else
    let keep := if keep <? 0 then 0 else keep in
    if negb (mkdirOk r) then (inl ErrMkdir, fs)
    else if negb (openOk r) then (inl ErrOpenFile, fs)
    else
      let fs := match fs !! p with Some _ => fs | None => <[p:=""]> fs end in
      if negb (statOk r) then (inl ErrStatFile, fs)
      else (inr (mkLogger p max keep [] false (Some true) (fileSize (default "" (fs !! p))) 0 LSelect), fs).

(** ** Logging *)

Definition Log (e : Entry) (l : Logger) : Logger :=
  if (length (ch l) <? defaultBufferSize)%nat then set_ch (ch l ++ [e]) l
  else set_dropped (add64 (dropped l) 1) l.

Definition Dropped (l : Logger) : Z := dropped l.

(** ** Rotation *)

(** [fmt.Sprintf("%s.%d", l.path, i)] *)
Definition rotated (p : string) (i : nat) : string := p +:+ "." +:+ pretty i.

(** The loop over [i] from [keepFiles-1] down to 1; [true]: no error. *)
Fixpoint shiftFiles (r : osResults) (p : string) (i : nat) (fs : FS) : bool * FS :=
  match i with
  | O => (true, fs)
  | S i' =>
      let src := rotated p i in
      let dst := rotated p (S i) in
      if exists_file (statSrcOk r i) src fs then
        match rename (renameOk r i) src dst fs with
        | (None, fs) => shiftFiles r p i' fs
        | (Some _, fs) => (false, fs)
        end
      else shiftFiles r p i' fs
  end.

(** An error other than a missing file. *)
Definition fatal (e : option osErr) : bool :=
  match e with Some ErrOther => true | _ => false end.

(** [true]: no error.  A closed [os.File] stays closed also when [Close]
    fails, and closing it again is an error.  The last step opens the file
    with O_TRUNC. *)
Definition rotateLocked (r : osResults) (l : Logger) (fs : FS) : bool * Logger * FS :=
  match file l with
  | None => (true, l, fs)
  | Some isOpen =>
      let l := set_file (Some false) l in
      if negb (isOpen && closeOk r) then (false, l, fs)
      else
        let p := path l in
        let keep := Z.to_nat (keepFiles l) in
        let '(ok, fs) :=
          if 0 <? keepFiles l then
            let fs := (remove (removeOk r) (rotated p keep) fs).2 in
            match shiftFiles r p (keep - 1) fs with
            | (false, fs) => (false, fs)
            | (true, fs) =>
                let '(e, fs) := rename (renameOk r 0) p (rotated p 1) fs in (negb (fatal e), fs)
            end
          else let '(e, fs) := remove (removeOk r) p fs in (negb (fatal e), fs) in
        if negb ok then (false, l, fs)
        else if negb (openOk r) then (false, l, fs)
        else (true, set_currentBytes 0 (set_file (Some true) l), <[p:=""]> fs)
  end.

Section Audit.
Context (marshal : Entry -> option string).

Definition line (e : Entry) : string := default "" ((fun d => d +:+ String "010"%char "") <$> marshal e).

(** ** Writing *)

Definition writeEntry (r : osResults) (e : Entry) (l : Logger) (fs : FS) : Logger * FS :=
  match marshal e with
  | None => (l, fs)
  | Some d =>
      let data := d +:+ String "010"%char "" in
      match file l with
      | None => (l, fs)
      | Some false => (l, fs)
      | Some true =>
          let old := default "" (fs !! path l) in
          match written r with
          | Some k => (l, <[path l:=old +:+ String.substring 0 k data]> fs)
          | None =>
              let fs := <[path l:=old +:+ data]> fs in
              let l := set_currentBytes (add64 (currentBytes l) (fileSize data)) l in
              if (0 <? maxBytes l) && (maxBytes l <=? currentBytes l)
              then let '(_, l, fs) := rotateLocked r l fs in (l, fs)
              else (l, fs)
          end
      end
  end.

(** One step of [loop]; [alt] decides the [select] when an entry and [done]
    are both ready. *)
Definition loop_step (o : oracle) (r : osResults) (l : Logger) (fs : FS) : option (Logger * FS) :=
  let recv (k : Entry -> lpoint) :=
    match ch l with e :: rest => Some (set_lp (k e) (set_ch rest l), fs) | [] => None end in
  match lp l with
  | LSelect =>
      if done l && alt o then Some (set_lp LDrain l, fs)
      else match recv LWrite with
           | Some x => Some x
           | None => if done l then Some (set_lp LDrain l, fs) else None
           end
  | LWrite e => let '(l, fs) := writeEntry r e l fs in Some (set_lp LSelect l, fs)
  | LDrain => Some (match recv LDrainWrite with Some x => x | None => (set_lp LExit l, fs) end)
  | LDrainWrite e => let '(l, fs) := writeEntry r e l fs in Some (set_lp LDrain l, fs)
  | LExit => None
  end.

(** ** Closing

    [close(l.done)] panics ([None]) when the channel is closed already;
    [wg.Wait] lets the rest run only when [loop] has ended. *)
Definition CloseDone (l : Logger) : option Logger := if done l then None else Some (set_done true l).

(** The value is the error of [file.Close] ([true]: none). *)
Definition CloseFile (r : osResults) (l : Logger) : option (bool * Logger) :=
  match lp l with
  | LExit =>
      Some match file l with
           | None => (true, l)
           | Some isOpen => (isOpen && closeOk r, set_file None l)
           end
  | _ => None
  end.

(** ** Runs

    Callers of [Log] and [Close] and the goroutine [loop], interleaved in any
    way.  [None] when the step cannot be taken (or panics). *)
Inductive aop :=
| ALog (e : Entry) | ACloseDone | ACloseFile (r : osResults) | ALoop (o : oracle) (r : osResults).

Definition aapply (op : aop) (st : Logger * FS) : option (Logger * FS) :=
  let '(l, fs) := st in
  match op with
  | ALog e => Some (Log e l, fs)
  | ACloseDone => l ← CloseDone l; Some (l, fs)
  | ACloseFile r => x ← CloseFile r l; Some (x.2, fs)
  | ALoop o r => loop_step o r l fs
  end.

(** The entries the channel accepted: the others were counted as dropped. *)
Definition taken (op : aop) (l : Logger) : list Entry :=
  match op with
  | ALog e => if (length (ch l) <? defaultBufferSize)%nat then [e] else []
  | _ => []
  end.

Inductive aruns : list aop -> Logger * FS -> Logger * FS -> list Entry -> Prop :=
| aruns_nil st : aruns [] st st []
| aruns_snoc ops st st1 st2 acc op :
    aruns ops st st1 acc -> aapply op st1 = Some st2 ->
    aruns (ops ++ [op]) st st2 (acc ++ taken op st1.1).

Definition noErrors (r : osResults) : Prop :=
  openOk r = true /\ written r = None /\ closeOk r = true /\ removeOk r = true /\
  (forall i, statSrcOk r i = true) /\ (forall i, renameOk r i = true).

Definition quiet (op : aop) : Prop :=
  match op with ALoop _ r | ACloseFile r => noErrors r | _ => True end.

(** * Rotation shifts the files *)

Lemma rotated_inj p i j : rotated p i = rotated p j -> i = j.
Proof. unfold rotated. intros E. by apply (inj (String.append p)), (inj (String.append ".")), (inj pretty) in E. Qed.

Lemma rotated_ne p i : rotated p i <> p.
Proof.
  unfold rotated. intros E. apply (f_equal String.length) in E.
  rewrite !string_length_app in E. simpl in E. lia.
Qed.

(** The files of the loop move up by one, the rest stays. *)
Lemma shiftFiles_ok r p i fs :
  noErrors r -> fs !! rotated p (S i) = None ->
  exists fs', shiftFiles r p i fs = (true, fs') /\
    fs' !! rotated p 1 = None /\
    (forall j, (1 <= j <= i)%nat -> fs' !! rotated p (S j) = fs !! rotated p j) /\
    (forall q, (forall j, (1 <= j <= S i)%nat -> q <> rotated p j) -> fs' !! q = fs !! q).
Proof.
  intros (_ & _ & _ & _ & Hstat & Hren). revert fs. induction i as [|i IH]; intros fs Htop; simpl.
  { exists fs. split_and!; [done|done|intros; lia|done]. }
  set (fs1 := match fs !! rotated p (S i) with
              | Some c => <[rotated p (S (S i)):=c]> (delete (rotated p (S i)) fs)
              | None => fs end).
  assert (Hstep : fs1 !! rotated p (S i) = None /\ fs1 !! rotated p (S (S i)) = fs !! rotated p (S i) /\
            forall q, q <> rotated p (S i) -> q <> rotated p (S (S i)) -> fs1 !! q = fs !! q).
  { unfold fs1. destruct (fs !! rotated p (S i)) as [c|] eqn:E; [|by rewrite ?E, ?Htop].
    split_and!.
    - rewrite lookup_insert_ne by (intros H%rotated_inj; lia). apply lookup_delete_eq.
    - apply lookup_insert_eq.
    - intros q H1 H2. rewrite lookup_insert_ne, lookup_delete_ne; congruence. }
  destruct Hstep as (H1 & H2 & H3).
  assert (Hgo : shiftFiles r p (S i) fs = shiftFiles r p i fs1).
  { simpl. unfold exists_file, rename, fs1. rewrite Hstat, Hren.
    by destruct (fs !! rotated p (S i)). }
  change (exists fs', shiftFiles r p (S i) fs = (true, fs') /\
    fs' !! rotated p 1 = None /\
    (forall j, (1 <= j <= S i)%nat -> fs' !! rotated p (S j) = fs !! rotated p j) /\
    (forall q, (forall j, (1 <= j <= S (S i))%nat -> q <> rotated p j) -> fs' !! q = fs !! q)).
  rewrite Hgo. destruct (IH fs1 H1) as (fs' & -> & Hone & Hsh & Hrest). exists fs'. split_and!; [done|done| |].
  - intros j Hj. destruct (decide (j = S i)) as [->|].
    + rewrite Hrest, H2; [done|]. intros j' Hj' E%rotated_inj. lia.
    + rewrite Hsh by lia. apply H3; intros E%rotated_inj; lia.
  - intros q Hq. rewrite Hrest; [apply H3; apply Hq; lia|]. intros j Hj. apply Hq. lia.
Qed.

(** What a rotation leaves: an empty current file, the old one as the first
    rotated file, every rotated file one further, the oldest one dropped. *)
Definition shifted (p : string) (keep : nat) (fs fs' : FS) : Prop :=
  fs' !! p = Some "" /\
  (forall j, (1 <= j <= keep)%nat ->
     fs' !! rotated p j = if decide (j = 1)%nat then fs !! p else fs !! rotated p (j - 1)).

Lemma rotateLocked_ok r l fs :
  noErrors r -> file l = Some true -> 0 <= keepFiles l ->
  exists fs', rotateLocked r l fs = (true, set_currentBytes 0 (set_file (Some true) l), fs') /\
    shifted (path l) (Z.to_nat (keepFiles l)) fs fs'.
Proof.
  intros Hr Hf Hk. pose proof Hr as (Hopen & _ & Hclose & Hrm & _ & Hren).
  unfold rotateLocked, shifted. rewrite Hf, Hclose. simpl.
  destruct (Z.ltb_spec 0 (keepFiles l)) as [Hpos|Hpos].
  - destruct (Z.to_nat (keepFiles l)) as [|k] eqn:Ek; [lia|].
    set (fs1 := (remove (removeOk r) (rotated (path l) (S k)) fs).2).
    assert (Htop : fs1 !! rotated (path l) (S k) = None /\
              forall q, q <> rotated (path l) (S k) -> fs1 !! q = fs !! q).
    { unfold fs1, remove. rewrite Hrm. destruct (fs !! rotated (path l) (S k)) eqn:E; simpl; [|done].
      split; [apply lookup_delete_eq|]. intros q Hq. by apply lookup_delete_ne. }
    destruct Htop as [Htop Hkeep].
    destruct (shiftFiles_ok r (path l) k fs1 Hr Htop) as (fs2 & Hgo & Hone & Hsh & Hrest).
    simpl. rewrite Nat.sub_0_r, Hgo.
    assert (Hcur : fs2 !! path l = fs !! path l).
    { rewrite Hrest, Hkeep; [done| |intros; apply not_eq_sym, rotated_ne].
      apply not_eq_sym, rotated_ne. }
    unfold rename. rewrite Hcur, Hren.
    assert (Hfin : forall fs3 : FS, fs3 !! rotated (path l) 1 = fs !! path l ->
              (forall q, q <> path l -> q <> rotated (path l) 1 -> fs3 !! q = fs2 !! q) ->
              forall j, (1 <= j <= S k)%nat -> <[path l:=""]> fs3 !! rotated (path l) j =
                if decide (j = 1)%nat then fs !! path l else fs !! rotated (path l) (j - 1)).
    { intros fs3 E1 E2 j Hj. rewrite lookup_insert_ne by apply not_eq_sym, rotated_ne.
      case_decide as Ej; [by subst|]. rewrite E2; [|apply rotated_ne|by intros ?%rotated_inj].
      destruct j as [|j]; [lia|]. rewrite Hsh by lia. replace (S j - 1)%nat with j by lia.
      apply Hkeep. intros ?%rotated_inj. lia. }
    destruct (fs !! path l) as [c|] eqn:Ec; simpl; rewrite Hopen; simpl;
      (eexists; split_and!; [done|apply lookup_insert_eq|apply Hfin]).
    + apply lookup_insert_eq.
    + intros q H1 H2. rewrite lookup_insert_ne, lookup_delete_ne; congruence.
    + done.
    + done.
  - assert (keepFiles l = 0) as E0 by lia. unfold remove. rewrite Hrm.
    destruct (fs !! path l) as [c|]; simpl; rewrite Hopen; simpl;
      (eexists; split_and!; [done|apply lookup_insert_eq|rewrite E0; simpl; lia]).
Qed.

(** * The log is complete *)

Definition inHand (p : lpoint) : list Entry :=
  match p with LWrite e | LDrainWrite e => [e] | _ => [] end.

(** The content of the [j]-th rotated file when [gens] are the files closed
    by rotations since the start, oldest first. *)
Definition generation (fs0 : FS) (p : string) (gens : list string) (j : nat) : option string :=
  if (j <=? length gens)%nat then gens !! (length gens - j)%nat
  else fs0 !! rotated p (j - length gens).

Lemma generation_rotate fs0 p gens cur j :
  (1 <= j)%nat ->
  generation fs0 p (gens ++ [cur]) j =
  if decide (j = 1)%nat then Some cur else generation fs0 p gens (j - 1).
Proof.
  intros Hj. unfold generation. rewrite length_app. simpl. case_decide as E.
  - subst. rewrite (proj2 (Nat.leb_le _ _)) by lia.
    replace (length gens + 1 - 1)%nat with (length gens) by lia. by rewrite list_lookup_middle.
  - destruct (Nat.leb_spec j (length gens + 1)), (Nat.leb_spec (j - 1) (length gens)); try lia.
    + rewrite lookup_app_l by lia. f_equal. lia.
    + do 2 f_equal. lia.
Qed.

(** [gens] and the current file hold [out]; the rotated files are the last
    generations. *)
Definition holds (fs0 : FS) (p : string) (keep : nat) (fs : FS) (gens : list string) (out : string) : Prop :=
  (exists cur, fs !! p = Some cur /\ concatS gens +:+ cur = default "" (fs0 !! p) +:+ out) /\
  forall j, (1 <= j <= keep)%nat -> fs !! rotated p j = generation fs0 p gens j.

Lemma holds_append fs0 p keep fs gens out d :
  holds fs0 p keep fs gens out ->
  holds fs0 p keep (<[p:=default "" (fs !! p) +:+ d]> fs) gens (out +:+ d).
Proof.
  intros [(cur & Hcur & Ho) Hg]. rewrite Hcur. simpl. split.
  - exists (cur +:+ d). split; [apply lookup_insert_eq|]. by rewrite <- !string_app_assoc, Ho.
  - intros j Hj. rewrite lookup_insert_ne by apply not_eq_sym, rotated_ne. by apply Hg.
Qed.

Lemma holds_rotate fs0 p keep fs fs' gens out cur :
  holds fs0 p keep fs gens out -> fs !! p = Some cur -> shifted p keep fs fs' ->
  holds fs0 p keep fs' (gens ++ [cur]) out.
Proof.
  intros [(cur' & Hcur & Ho) Hg] Hc [Hp Hsh]. simplify_eq. split.
  - exists "". split; [done|]. rewrite concatS_app. simpl. by rewrite !string_app_nil_r.
  - intros j Hj. rewrite (Hsh j Hj), generation_rotate by lia. case_decide; [done|]. apply Hg. lia.
Qed.

Definition config (l : Logger) : string * Z * Z := (path l, maxBytes l, keepFiles l).

Record AuditInv (l0 : Logger) (fs0 : FS) (l : Logger) (fs : FS) (handled : list Entry) (gens : list string) : Prop := {
  inv_config : config l = config l0;
  inv_file : file l = Some true \/ file l = None /\ lp l = LExit;
  inv_gens : maxBytes l0 <= 0 -> gens = [];
  inv_holds : holds fs0 (path l0) (Z.to_nat (keepFiles l0)) fs gens (concatS (line <$> handled))
}.

(** An entry written without errors: its line is appended, and the file is
    rotated or not. *)
Lemma writeEntry_ok r e l fs l0 fs0 handled gens :
  noErrors r -> 0 <= keepFiles l0 -> file l = Some true -> AuditInv l0 fs0 l fs handled gens ->
  exists gens', AuditInv l0 fs0 (writeEntry r e l fs).1 (writeEntry r e l fs).2 (handled ++ [e]) gens' /\
    file (writeEntry r e l fs).1 = Some true /\ ch (writeEntry r e l fs).1 = ch l.
Proof.
  intros Hr Hk Hf [Hc _ Hg Hh]. pose proof Hr as (_ & Hw & _). injection Hc as Ep Em Ek.
  unfold writeEntry. rewrite Hf, Hw.
  assert (El : concatS (line <$> handled ++ [e]) = concatS (line <$> handled) +:+ line e).
  { rewrite fmap_app, concatS_app. simpl. by rewrite string_app_nil_r. }
  destruct (marshal e) as [d|] eqn:Ed; simpl.
  2: { exists gens. split; [|done]. split; [by unfold config; congruence|by left|done|].
       rewrite El. unfold line at 2. rewrite Ed. simpl. by rewrite string_app_nil_r. }
  assert (Hh1 : holds fs0 (path l0) (Z.to_nat (keepFiles l0))
            (<[path l:=default "" (fs !! path l) +:+ d +:+ String "010" ""]> fs) gens
            (concatS (line <$> handled ++ [e]))).
  { rewrite El, Ep. unfold line at 2. rewrite Ed. simpl. by apply holds_append. }
  destruct ((0 <? maxBytes l) && (maxBytes l <=? _)) eqn:Erot; simpl.
  - bool_facts.
    edestruct (rotateLocked_ok r (set_currentBytes (add64 (currentBytes l) (fileSize (d +:+ String "010" ""))) l))
      as (fs' & -> & Hsh); [done|done|by rewrite <- Ek in Hk|]. simpl in Hsh. rewrite Ep, Ek in Hsh.
    pose proof Hh1 as [(cur & Hcur & _) _]. rewrite Ep in Hh1, Hcur.
    exists (gens ++ [cur]). split; [|done]. split; [by unfold config; simpl; congruence|by left|lia|].
    eapply holds_rotate; [done|done|exact Hsh].
  - exists gens. split; [|done]. split; [by unfold config; simpl; congruence|by left|done|done].
Qed.

Lemma AuditInv_same l0 fs0 l l' fs handled gens :
  config l' = config l -> file l' = file l -> (lp l = LExit -> lp l' = LExit) ->
  AuditInv l0 fs0 l fs handled gens -> AuditInv l0 fs0 l' fs handled gens.
Proof.
  intros Ec Ef El [H1 H2 H3 H4]. split; [congruence| |done|done].
  rewrite Ef. destruct H2 as [?|[? ?]]; auto.
Qed.

Lemma aapply_inv op l fs l' fs' l0 fs0 handled gens acc :
  0 <= keepFiles l0 -> quiet op -> aapply op (l, fs) = Some (l', fs') ->
  acc = handled ++ inHand (lp l) ++ ch l -> AuditInv l0 fs0 l fs handled gens ->
  exists handled' gens', acc ++ taken op l = handled' ++ inHand (lp l') ++ ch l' /\
    AuditInv l0 fs0 l' fs' handled' gens'.
Proof.
  intros Hk Hq Ha -> HI.
  assert (Hstay : forall l1, config l1 = config l -> file l1 = file l ->
            lp l <> LExit \/ lp l1 = lp l -> inHand (lp l1) ++ ch l1 = inHand (lp l) ++ ch l ++ taken op l ->
            exists handled' gens', (handled ++ inHand (lp l) ++ ch l) ++ taken op l =
              handled' ++ inHand (lp l1) ++ ch l1 /\ AuditInv l0 fs0 l1 fs handled' gens').
  { intros l1 E1 E2 E3 E4. exists handled, gens. rewrite E4, <- !app_assoc. split; [done|].
    eapply AuditInv_same; [done|done| |done]. destruct E3 as [E3|E3]; [done|congruence]. }
  destruct op as [e| |r|o r]; simpl in Ha.
  - injection Ha as <- <-. apply Hstay; unfold Log, taken; destruct (_ <? _)%nat; simpl; rewrite ?app_nil_r; auto.
  - unfold CloseDone in Ha. destruct (done l); simpl in Ha; [done|]. injection Ha as <- <-.
    apply Hstay; simpl; rewrite ?app_nil_r; auto.
  - unfold CloseFile in Ha. destruct (lp l) eqn:El; try done. simpl in Ha.
    destruct (file l) eqn:Ef; simpl in Ha; injection Ha as <- <-.
    + exists handled, gens. simpl. rewrite El, !app_nil_r. split; [done|].
      destruct HI as [H1 H2 H3 H4]. split; simpl; auto.
    + apply Hstay; simpl; rewrite ?app_nil_r, ?El; auto.
  - assert (Hwrite : forall e p', lp l = LWrite e \/ lp l = LDrainWrite e -> p' = LSelect \/ p' = LDrain ->
              set_lp p' (writeEntry r e l fs).1 = l' -> (writeEntry r e l fs).2 = fs' ->
              exists handled' gens', (handled ++ inHand (lp l) ++ ch l) ++ [] =
                handled' ++ inHand (lp l') ++ ch l' /\ AuditInv l0 fs0 l' fs' handled' gens').
    { intros e p' Hl Hp' <- <-. assert (Hf : file l = Some true).
      { destruct HI as [_ [?|[_ E]] _ _]; [done|]. rewrite E in Hl. by destruct Hl. }
      destruct (writeEntry_ok r e l fs l0 fs0 handled gens Hq Hk Hf HI) as (gens' & HI' & Hf' & Hch).
      exists (handled ++ [e]), gens'. rewrite app_nil_r. split.
      - rewrite <- app_assoc. simpl. rewrite Hch. by destruct Hl as [-> | ->], Hp' as [-> | ->].
      - destruct HI' as [H1 H2 H3 H4]. split; simpl; auto. }
    unfold loop_step in Ha. destruct (lp l) eqn:El; simpl in Ha; try done.
    + destruct (done l && alt o); [|destruct (ch l) as [|e rest] eqn:Ech; [destruct (done l)|]];
        simplify_eq; apply Hstay; simpl; rewrite ?app_nil_r, ?Ech; auto; by left.
    + destruct (writeEntry r e l fs) as [l1 fs1] eqn:Ew. simplify_eq. simpl in *.
      eapply (Hwrite e LSelect); rewrite ?Ew; auto.
    + destruct (ch l) as [|e rest] eqn:Ech; simplify_eq; apply Hstay; simpl; rewrite ?app_nil_r, ?Ech; auto; by left.
    + destruct (writeEntry r e l fs) as [l1 fs1] eqn:Ew. simplify_eq. simpl in *.
      eapply (Hwrite e LDrain); rewrite ?Ew; auto.
Qed.

Lemma aruns_inv ops l0 fs0 st acc :
  0 <= keepFiles l0 -> file l0 = Some true -> lp l0 = LSelect -> ch l0 = [] ->
  is_Some (fs0 !! path l0) -> Forall quiet ops -> aruns ops (l0, fs0) st acc ->
  exists handled gens, acc = handled ++ inHand (lp st.1) ++ ch st.1 /\
    AuditInv l0 fs0 st.1 st.2 handled gens.
Proof.
  intros Hk Hf Hl Hc [cur Hcur] HQ Hr. remember (l0, fs0) as st0.
  induction Hr as [st|ops st [l1 fs1] [l2 fs2] acc op Hr IH Ha]; subst.
  - exists [], []. simpl. rewrite Hl, Hc. split; [done|]. split; [done|by left|done|].
    split; [exists cur; split; [done|by rewrite Hcur, string_app_nil_r]|].
    intros j Hj. unfold generation. simpl. destruct j as [|j]; [lia|]. done.
  - apply Forall_app in HQ as [HQ1 [HQ2 _]%Forall_cons].
    destruct (IH HQ1 eq_refl) as (handled & gens & -> & HI). simpl in *.
    by eapply aapply_inv.
Qed.

(** ** Theorems *)


(** ** Termination of the writer *)

Fixpoint loop_run (cs : list (oracle * osResults)) (l : Logger) (fs : FS) : Logger * FS :=
  match cs with
  | [] => (l, fs)
  | (o, r) :: cs =>
      match loop_step o r l fs with Some (l, fs) => loop_run cs l fs | None => (l, fs) end
  end.

Definition pointsLeft (p : lpoint) : nat :=
  match p with LWrite _ => 3 | LSelect => 2 | LDrainWrite _ => 2 | LDrain => 1 | LExit => 0 end.
Definition stepsLeft (l : Logger) : nat := (2 * length (ch l) + pointsLeft (lp l))%nat.

Lemma rotateLocked_frame r l fs :
  let l' := (rotateLocked r l fs).1.2 in ch l' = ch l /\ done l' = done l /\ lp l' = lp l.
Proof.
  unfold rotateLocked. destruct (file l) as [isOpen|]; [|done].
  destruct (isOpen && closeOk r); [simpl|done].
  repeat (case_match; simpl; try done).
Qed.

Lemma writeEntry_frame r e l fs :
  let l' := (writeEntry r e l fs).1 in ch l' = ch l /\ done l' = done l /\ lp l' = lp l.
Proof.
  unfold writeEntry. destruct (marshal e); [|done]. destruct (file l) as [[]|]; try done.
  destruct (written r); [done|]. simpl. destruct (_ && _); [|done].
  match goal with |- context [rotateLocked r ?l1 ?fs1] => pose proof (rotateLocked_frame r l1 fs1) as Hf end.
  destruct (rotateLocked r _ _) as [[b l1] fs1]. exact Hf.
Qed.

Lemma loop_step_progress o r l fs :
  done l = true -> lp l <> LExit ->
  exists l' fs', loop_step o r l fs = Some (l', fs') /\ done l' = true /\ (stepsLeft l' < stepsLeft l)%nat.
Proof.
  intros Hd Hl. unfold loop_step, stepsLeft. rewrite Hd.
  destruct (lp l) as [|e| |e|] eqn:El; try done; simpl.
  - destruct (alt o); [|destruct (ch l) as [|e rest] eqn:Ec]; do 2 eexists; (split; [done|]); simpl; rewrite ?Ec; simpl; (split; [done|lia]).
  - pose proof (writeEntry_frame r e l fs) as (E1 & E2 & _). destruct (writeEntry r e l fs) as [l1 fs1].
    simpl in *. do 2 eexists. split; [done|]. simpl. rewrite E1, E2. split; [done|lia].
  - destruct (ch l) as [|e rest] eqn:Ec; do 2 eexists; (split; [done|]); simpl; rewrite ?Ec; simpl; (split; [done|lia]).
  - pose proof (writeEntry_frame r e l fs) as (E1 & E2 & _). destruct (writeEntry r e l fs) as [l1 fs1].
    simpl in *. do 2 eexists. split; [done|]. simpl. rewrite E1, E2. split; [done|lia].
Qed.

Lemma loop_run_exits cs l fs :
  done l = true -> (lp l = LExit -> ch l = []) -> (stepsLeft l <= length cs)%nat ->
  lp (loop_run cs l fs).1 = LExit /\ ch (loop_run cs l fs).1 = [].
Proof.
  revert l fs. induction cs as [|[o r] cs IH]; intros l fs Hd Hex Hn; simpl in *.
  - unfold stepsLeft in Hn. destruct (ch l); simpl in Hn; [|lia]. by destruct (lp l); simpl in Hn; try lia.
  - destruct (decide (pointsLeft (lp l) = 0%nat)) as [E|E].
    { assert (lp l = LExit) as El by (by destruct (lp l)). unfold loop_step. rewrite El. simpl. auto. }
    destruct (loop_step_progress o r l fs Hd) as (l' & fs' & Hs & Hd' & Hlt); [by intros El; rewrite El in E|].
    rewrite Hs. apply IH; [done| |lia]. intros El'.
    (* the writer leaves its loop only at an empty channel *)
    unfold loop_step in Hs. destruct (lp l) as [|e| |e|] eqn:El; simpl in Hs.
    + rewrite Hd in Hs. by destruct (alt o), (ch l); simplify_eq/=.
    + destruct (writeEntry r e l fs). by simplify_eq/=.
    + destruct (ch l) eqn:Ec; by simplify_eq/=.
    + destruct (writeEntry r e l fs). by simplify_eq/=.
    + done.
Qed.

(** C39: [Close] terminates and drains: once [done] is closed, whatever the
    [select] chooses and whatever I/O errors occur, the writing goroutine
    ends within two steps per queued entry and three more, no entry is left
    in the channel, and [wg.Wait] lets [Close] go on to close the file. *)
Theorem audit_close_terminates l l1 fs cs r :
  CloseDone l = Some l1 -> lp l <> LExit -> (2 * length (ch l) + 3 <= length cs)%nat ->
  let l2 := (loop_run cs l1 fs).1 in
  lp l2 = LExit /\ ch l2 = [] /\
  exists ok l3, CloseFile r l2 = Some (ok, l3) /\ file l3 = None.
Proof.
  intros HC Hl Hn. unfold CloseDone in HC. destruct (done l); [done|]. injection HC as <-.
  destruct (loop_run_exits cs (set_done true l) fs) as [E1 E2]; [done|done| |].
  { unfold stepsLeft. simpl. destruct (lp l); simpl; lia. }
  simpl. split_and!; [done|done|]. unfold CloseFile. rewrite E1.
  destruct (file _) eqn:Ef; eauto.
Qed.

(** ** A failed rotation *)

Lemma rotateLocked_fails r l fs l' fs' : rotateLocked r l fs = (false, l', fs') -> file l' = Some false.
Proof.
  unfold rotateLocked. destruct (file l) as [isOpen|]; [|done].
  destruct (isOpen && closeOk r); [simpl|by intros [= <- <-]].
  repeat (case_match; simpl; intros; simplify_eq; try done).
Qed.

Lemma aapply_closed op l fs l' fs' :
  file l <> Some true -> aapply op (l, fs) = Some (l', fs') -> file l' <> Some true /\ fs' = fs.
Proof.
  intros Hf Ha. destruct op as [e| |r|o r]; simpl in Ha.
  - injection Ha as <- <-. unfold Log. by destruct (_ <? _)%nat.
  - unfold CloseDone in Ha. destruct (done l); simplify_eq/=. done.
  - unfold CloseFile in Ha. destruct (lp l); try done. destruct (file l) eqn:Ef; simplify_eq/=; by rewrite ?Ef.
  - assert (Hw : forall e, writeEntry r e l fs = (l, fs)).
    { intros e. unfold writeEntry. destruct (marshal e); [|done]. by destruct (file l) as [[]|]. }
    unfold loop_step in Ha. destruct (lp l); rewrite ?Hw in Ha; simpl in Ha; try done.
    + by destruct (done l && alt o), (ch l), (done l); simplify_eq/=.
    + by simplify_eq/=.
    + by destruct (ch l); simplify_eq/=.
    + by simplify_eq/=.
Qed.

(** A rotation that fails leaves the logger with a closed file that is
    not nil: whatever is logged afterwards and however the writer runs, with
    or without further errors, the files never change again, although the
    channel goes on accepting entries. *)
Theorem audit_failed_rotation_stops_log r l fs l' fs' ops l2 fs2 acc :
  rotateLocked r l fs = (false, l', fs') -> aruns ops (l', fs') (l2, fs2) acc -> fs2 = fs'.
Proof.
  intros Hrot Hr. apply rotateLocked_fails in Hrot.
  enough (file l2 <> Some true /\ fs2 = fs') by tauto.
  change (file (l2, fs2).1 <> Some true /\ (l2, fs2).2 = (l', fs').2).
  remember (l', fs') as st0 eqn:E0. generalize dependent (l2, fs2). intros st2 Hr.
  induction Hr as [st|ops st [l1 fs1] [l3 fs3] acc op Hr IH Ha]; subst; simpl.
  - by rewrite Hrot.
  - destruct (IH eq_refl) as [IH1 IH2]. simpl in *. subst. by eapply aapply_closed.
Qed.
End Audit.

(** ** Witnesses *)

Definition allOk : osResults := OsResults true true true None true true (fun _ => true) (fun _ => true).
Definition sampleEntry (op : string) : Entry := mkEntry 0 "op" "" "" "" "" op 0 "" 0 "".
Definition sampleMarshal (e : Entry) : option string := Some (Op e).
Definition fromNew (x : (newErr + Logger) * FS) : Logger * FS :=
  (match x.1 with inr l => l | inl _ => mkLogger "" 0 0 [] false None 0 0 LExit end, x.2).
Definition sampleStart : Logger * FS := fromNew (New allOk "a.log" 4 1 ∅).

(** Two entries of three bytes each: the second fills the file, and it is
    rotated; a third one follows. *)
Definition sampleOps : list aop :=
  [ALog (sampleEntry "ab"); ALog (sampleEntry "cd"); ALoop o0 allOk; ALoop o0 allOk; ALoop o0 allOk;
   ALoop o0 allOk; ALog (sampleEntry "ef"); ALoop o0 allOk; ALoop o0 allOk].

Fixpoint aexec (ops : list aop) (st : Logger * FS) : option (Logger * FS) :=
  match ops with
  | [] => Some st
  | op :: ops => st ← aapply sampleMarshal op st; aexec ops st
  end.

Fixpoint accepts (ops : list aop) (st : Logger * FS) : list Entry :=
  match ops with
  | [] => []
  | op :: ops => taken op st.1 ++ match aapply sampleMarshal op st with Some st => accepts ops st | None => [] end
  end.

Lemma aexec_aruns ops0 ops st0 st acc st' :
  aruns sampleMarshal ops0 st0 st acc -> aexec ops st = Some st' ->
  aruns sampleMarshal (ops0 ++ ops) st0 st' (acc ++ accepts ops st).
Proof.
  revert ops0 st acc. induction ops as [|op ops IH]; intros ops0 st acc Hr He; simpl in *.
  - injection He as <-. by rewrite !app_nil_r.
  - destruct (aapply sampleMarshal op st) as [st1|] eqn:E; simpl in He; [|done].
    replace (ops0 ++ op :: ops) with ((ops0 ++ [op]) ++ ops) by (by rewrite <- app_assoc).
    rewrite app_assoc. eapply IH; [|done]. by econstructor.
Qed.

Definition sampleEnd : Logger * FS := default sampleStart (aexec sampleOps sampleStart).

Lemma sample_quiet : Forall quiet sampleOps.
Proof. repeat constructor. Qed.


Definition sampleQueued : Logger := set_ch [sampleEntry "x"; sampleEntry "y"] sampleStart.1.

Lemma audit_close_terminates_witness :
  CloseDone sampleQueued = Some (set_done true sampleQueued) /\
  lp (loop_run sampleMarshal (replicate 7 (o0, allOk)) (set_done true sampleQueued) sampleStart.2).1 = LExit.
Proof.
  split; [reflexivity|].
  apply (audit_close_terminates sampleMarshal sampleQueued (set_done true sampleQueued) sampleStart.2
           (replicate 7 (o0, allOk)) allOk); [reflexivity|discriminate|vm_compute; lia].
Defined.

(** The rename of the current file fails. *)
Definition noRename : osResults := OsResults true true true None true true (fun _ => true) (fun _ => false).
Definition sampleStuck : Logger * FS :=
  let x := rotateLocked noRename sampleStart.1 sampleStart.2 in (x.1.2, x.2).

Lemma audit_failed_rotation_stops_log_witness :
  accepts sampleOps sampleStuck = [sampleEntry "ab"; sampleEntry "cd"; sampleEntry "ef"] /\
  exists st, aexec sampleOps sampleStuck = Some st /\ st.2 = sampleStuck.2.
Proof.
  split; [by_eval|].
  exists (default sampleStuck (aexec sampleOps sampleStuck)). split; [by_eval|].
  set (st := default sampleStuck (aexec sampleOps sampleStuck)).
  assert (Hr : aruns sampleMarshal sampleOps (sampleStuck.1, sampleStuck.2) (st.1, st.2) (accepts sampleOps sampleStuck)).
  { apply (aexec_aruns [] sampleOps sampleStuck sampleStuck []); [constructor|by_eval]. }
  refine (audit_failed_rotation_stops_log sampleMarshal noRename sampleStart.1 sampleStart.2
           sampleStuck.1 sampleStuck.2 sampleOps st.1 st.2 _ _ Hr). by_eval.
Defined.
