(* ===== verification/Access.v ===== *)
(** * Validation, namespaces, roles and rate limits (web/server.go)

    The pure part of the server: the checks on names and numbers, the
    qualified names "namespace/id" under which the scheduler and the metrics
    know a primitive and the filters that show a connection only its own
    namespace, the table of roles, the origin check, and the sliding windows
    of the rate limiters.  Strings are byte strings, as in Go; the length of a
    string is its number of bytes.  [url.Parse] and [net.ParseIP] are
    arguments of the origin check. *)

From Stdlib Require Import ZArith Lia Ascii.
From stdpp Require Import base list gmap strings pretty.
From S2P Require Import Prelude.
From S2P Require Import Scheduler.
From S2P Require Import Metrics.

#[local] Open Scope Z_scope.

(** ** Strings *)

Abbreviation bytesOf := String.list_ascii_of_string.
Abbreviation ofBytes := String.string_of_list_ascii.

Definition len (s : string) : Z := Z.of_nat (String.length s).

(** The UTF-8 encodings of the characters [unicode.IsSpace] accepts. *)
Definition spaces : list (list ascii) :=
  map (map ascii_of_nat)
  [[9]; [10]; [11]; [12]; [13]; [32]; [194; 133]; [194; 160]; [225; 154; 128];
   [226; 128; 128]; [226; 128; 129]; [226; 128; 130]; [226; 128; 131]; [226; 128; 132];
   [226; 128; 133]; [226; 128; 134]; [226; 128; 135]; [226; 128; 136]; [226; 128; 137];
   [226; 128; 138]; [226; 128; 168]; [226; 128; 169]; [226; 128; 175]; [226; 129; 159];
   [227; 128; 128]]%nat.

Fixpoint stripPrefix (p s : list ascii) : option (list ascii) :=
  match p, s with
  | [], _ => Some s
  | a :: p, b :: s => if decide (a = b) then stripPrefix p s else None
  | _ :: _, [] => None
  end.

Fixpoint stripAny (ps : list (list ascii)) (s : list ascii) : option (list ascii) :=
  match ps with
  | [] => None
  | p :: ps => match stripPrefix p s with Some r => Some r | None => stripAny ps s end
  end.

(** Every round removes a character: the length is enough fuel. *)
Fixpoint trimFront (fuel : nat) (ps : list (list ascii)) (s : list ascii) : list ascii :=
  match fuel with
  | O => s
  | S fuel => match stripAny ps s with Some r => trimFront fuel ps r | None => s end
  end.

Definition trimSpace (s : list ascii) : list ascii :=
  let s := trimFront (length s) spaces s in
  reverse (trimFront (length s) (reverse <$> spaces) (reverse s)).

Definition TrimSpace (s : string) : string := ofBytes (trimSpace (bytesOf s)).

Definition containsSlash (s : string) : bool := bool_decide ("/"%char ∈ bytesOf s).

(** ** Limits *)

Definition maxIDLen : Z := 256.
Definition maxNameLen : Z := 256.
Definition holdMsMax : Z := 3600000.
Definition holdMsDefault : Z := 100.
Definition operationTimeout : Z := 3600000000000.     (* ns *)
Definition Millisecond : Z := 1000000.

Definition validatePrimID (id : string) : string :=
  if decide (id = "") then "id must not be empty"
  else if maxIDLen <? len id then "id must not exceed " +:+ pretty maxIDLen +:+ " characters"
  else "".

Definition validatePrimName (name : string) : string :=
  if maxNameLen <? len name then "name must not exceed " +:+ pretty maxNameLen +:+ " characters" else "".

(** The duration in nanoseconds and the warning. *)
Definition clampHoldMs (ms : Z) : Z * string :=
  let requested := ms in
  let ms := if ms <=? 0 then holdMsDefault else ms in
  let ms := if holdMsMax <? ms then holdMsMax else ms in
  if holdMsMax <? requested
  then (wrap64 (ms * Millisecond), "holdMs clamped from " +:+ pretty requested +:+ " to " +:+ pretty ms)
  else (wrap64 (ms * Millisecond), "").

Definition clampWaiterCount (v : Z) : Z :=
  if v <? 0 then 0 else if MaxInt32 <? v then MaxInt32 else wrap32 v.

(** [true]: the server starts; [false]: it panics. *)
Fixpoint bucketsIncrease (prev : Z) (bs : list Z) : bool :=
  match bs with
  | [] => true
  | b :: bs => if b <=? 0 then false else if b <=? prev then false else bucketsIncrease b bs
  end.

Definition validateHistogramBuckets (buckets : list Z) : bool :=
  match buckets with
  | [] => true
  | b :: bs => if b <=? 0 then false else bucketsIncrease b bs
  end.

(** ** Namespaces *)

Record Config := mkConfig {
  AllowedOrigins : list string; TLSCertFile : string; TLSKeyFile : string; APIKey : string; JWTSecret : string;
  DefaultNamespace : string; MaxConns : Z; SnapshotPath : string; DisableCompression : bool;
  HistogramBuckets : list Z; AuditLogPath : string; AuditLogMaxBytes : Z; AuditLogKeepFiles : Z
}.

Definition defaultNamespace (cfg : Config) : string :=
  if decide (TrimSpace (DefaultNamespace cfg) <> "") then TrimSpace (DefaultNamespace cfg) else "default".

Definition validateNamespaceName (ns : string) : string :=
  let ns := TrimSpace ns in
  if decide (ns = "") then ""
  else if maxIDLen <? len ns then "namespace must not exceed " +:+ pretty maxIDLen +:+ " characters"
  else if containsSlash ns then "namespace must not contain '/'"
  else "".

(** [claimNs]: the namespace of the token, if the connection has one;
    [queryNs]: the parameter "ns" of the request. *)
Definition extractNamespace (cfg : Config) (claimNs : option string) (queryNs : string) : string + string :=
  let fromClaim := default "" (TrimSpace <$> claimNs) in
  let ns := if decide (fromClaim <> "") then fromClaim
            else if decide (JWTSecret cfg = "") then TrimSpace queryNs else "" in
  let ns := if decide (ns = "") then defaultNamespace cfg else ns in
  let errMsg := validateNamespaceName ns in
  if decide (errMsg <> "") then inl errMsg else inr ns.

Definition qualifiedPrimID (namespace id : string) : string := namespace +:+ "/" +:+ id.

(** The parts before and after the first slash. *)
Fixpoint cutSlash (s : string) : option (string * string) :=
  match s with
  | "" => None
  | String a s =>
      if decide (a = "/"%char) then Some ("", s)
      else (fun p => (String a p.1, p.2)) <$> cutSlash s
  end.

Definition splitQualifiedPrimID (id : string) : string * string :=
  match cutSlash id with Some p => p | None => ("", id) end.

(** The loops over a map that keep the entries of a namespace under their
    short names. *)
Definition keepNamespace {A B} (f : string -> A -> B) (namespace : string) (m : gmap string A) : gmap string B :=
  map_fold (fun id x acc =>
    let '(ns, rawID) := splitQualifiedPrimID id in
    if decide (ns = namespace) then <[rawID:=f rawID x]> acc else acc) ∅ m.

Definition withID (id : string) (i : PrimitiveInfo) : PrimitiveInfo :=
  mkPrimitive id (pType i) (pName i) (pCreatedAt i) (BlockedCount i) (Stats i).

Definition stripNamespaceFromPrimitiveInfo (i : PrimitiveInfo) : PrimitiveInfo :=
  withID (splitQualifiedPrimID (pID i)).2 i.

Definition filterPrimitivesForNamespace (prims : gmap string PrimitiveInfo) (namespace : string)
    : gmap string PrimitiveInfo :=
  keepNamespace withID namespace prims.

Definition filterMetricSnapshotsForNamespace (all : gmap string PrimitiveMetricsSnapshot) (namespace : string)
    : gmap string PrimitiveMetricsSnapshot :=
  keepNamespace (fun _ s => s) namespace all.

Definition filterEventsForNamespace (events : list Event) (namespace : string) : list Event :=
  omap (fun e =>
    if decide (PrimitiveID e = "") then None
    else
      let '(ns, rawID) := splitQualifiedPrimID (PrimitiveID e) in
      if decide (ns = namespace)
      then Some (mkEvent (Timestamp e) (EType e) (GoroutineID e) rawID (Message e))
      else None) events.

Definition filterGoroutinesForNamespace (goroutines : gmap Z GoroutineInfo) (namespace : string)
    : gmap Z GoroutineInfo :=
  omap (fun g =>
    if decide (BlockedOn g = "") then None
    else
      let '(ns, rawID) := splitQualifiedPrimID (BlockedOn g) in
      if decide (ns = namespace)
      then Some (mkGoroutine (gID g) (gName g) (State g) (StartedAt g) (FinishedAt g) rawID (WaitTime g))
      else None) goroutines.

(** ** Roles *)

Definition RoleAdmin : string := "admin".
Definition RoleOperator : string := "operator".
Definition RoleViewer : string := "viewer".

Definition knownRole (role : string) : bool :=
  bool_decide (role = RoleAdmin) || bool_decide (role = RoleOperator) || bool_decide (role = RoleViewer).

Definition normalizeRole (role : string) (authenticated : bool) : string :=
  if negb authenticated then RoleAdmin
  else if knownRole role then role
  else RoleViewer.

(** [connRole]: the role in the state of the connection, if it has one. *)
Definition roleForConn (connRole : option string) : string :=
  match connRole with
  | None => RoleAdmin
  | Some role => if knownRole role then role else if decide (role = "") then RoleAdmin else RoleViewer
  end.

Definition createTypes : list string :=
  ["createRWLock"; "createFairRWLock"; "createSemaphore"; "createMutex"; "createCondVar"; "createBarrier";
   "createWaitGroup"; "createOnce"; "createSingleflight"].

(** The error, if any. *)
Definition authorizeMessage (connRole : option string) (msgType : string) : option string :=
  let role := roleForConn connRole in
  if decide (msgType ∈ createTypes) then
    if decide (role <> RoleAdmin) then Some "forbidden: create operations require admin role" else None
  else if decide (msgType = "deletePrimitive") then
    if decide (role <> RoleAdmin) then Some "forbidden: delete operations require admin role" else None
  else if decide (msgType = "primitiveOp") then
    if decide (role = RoleViewer) then Some "forbidden: operations not permitted for viewer role" else None
  else None.

(** ** Origins *)

Record URL := mkURL { Scheme : string; Hostname : string; Host : string }.

Section Origin.
Context (parseURL : string -> option URL) (parseIP : string -> option bool).  (* Some b: an IP, loopback or not *)

Definition isLoopbackOrigin (origin : string) : bool :=
  match parseURL origin with
  | None => false
  | Some u =>
      if decide (Scheme u <> "http" /\ Scheme u <> "https") then false
      else
        let host := if decide (Hostname u = "") then Host u else Hostname u in
        if decide (host = "localhost" \/ host = "127.0.0.1" \/ host = "::1") then true
        else default false (parseIP host)
  end.

(** [CheckOrigin] of the upgrader; a missing header is "". *)
Definition checkOrigin (cfg : Config) (origin : string) : bool :=
  match AllowedOrigins cfg with
  | [] => if decide (origin = "") then true else isLoopbackOrigin origin
  | allowed => existsb (fun a => bool_decide (a = "*") || bool_decide (origin = a)) allowed
  end.
End Origin.

(** ** Rate limits

    The times of the messages of the last second, oldest first. *)
Definition Second : Z := 1000000000.
Definition maxMsgsPerSec : Z := 200.
Definition maxOpsPerSec : Z := 50.

Definition slide (now : Z) (times : list Z) : list Z :=
  filter (fun t => now - Second < t) times ++ [now].

Definition checkRateLimit (now : Z) (msgTimes : list Z) : bool * list Z :=
  let l := slide now msgTimes in (Z.of_nat (length l) <=? maxMsgsPerSec, l).

Definition checkOpRateLimit (now : Z) (opTimes : list Z) : bool * list Z :=
  let l := slide now opTimes in (Z.of_nat (length l) <=? maxOpsPerSec, l).

(** * Trimming *)

Lemma bytesOf_app a b : bytesOf (a +:+ b) = bytesOf a ++ bytesOf b.
Proof. induction a as [|x a IH]; simpl; [done|]. by rewrite IH. Qed.

Lemma stripPrefix_Some p s r : stripPrefix p s = Some r <-> s = p ++ r.
Proof.
  revert s. induction p as [|a p IH]; intros [|b s]; simpl; try (split; congruence).
  case_decide as E; [subst; rewrite IH|]; split; congruence.
Qed.

Lemma stripAny_app_None ps s t : stripAny ps (s ++ t) = None -> stripAny ps s = None.
Proof.
  induction ps as [|p ps IH]; simpl; [done|].
  destruct (stripPrefix p (s ++ t)) eqn:E1; [done|]. intros H.
  destruct (stripPrefix p s) as [r|] eqn:E2; [|auto].
  apply stripPrefix_Some in E2 as ->. rewrite <- app_assoc in E1.
  by rewrite (proj2 (stripPrefix_Some p _ _) eq_refl) in E1.
Qed.

Lemma stripAny_shorter ps s r :
  Forall (fun p => p <> []) ps -> stripAny ps s = Some r ->
  (length r < length s)%nat /\ exists p, s = p ++ r.
Proof.
  induction 1 as [|p ps Hp _ IH]; simpl; [done|].
  destruct (stripPrefix p s) as [r'|] eqn:E; [|auto].
  intros [= <-]. apply stripPrefix_Some in E as ->. split; [|by eexists].
  rewrite length_app. destruct p; [done|]. simpl. lia.
Qed.

Lemma trimFront_spec ps fuel s :
  Forall (fun p => p <> []) ps -> (length s <= fuel)%nat ->
  stripAny ps (trimFront fuel ps s) = None /\ exists p, s = p ++ trimFront fuel ps s.
Proof.
  intros Hps. revert s. induction fuel as [|fuel IH]; intros s Hs; simpl.
  - destruct s; [|simpl in Hs; lia]. split; [|by exists []].
    destruct (stripAny ps []) eqn:E; [|done]. apply stripAny_shorter in E as [E _]; [|done]. simpl in E. lia.
  - destruct (stripAny ps s) as [r|] eqn:E; [|by split; [|exists []]].
    apply stripAny_shorter in E as [Hlen [p ->]]; [|done].
    destruct (IH r ltac:(lia)) as [H1 [q Hq]]. split; [done|].
    exists (p ++ q). rewrite <- app_assoc, <- Hq. done.
Qed.

Lemma trimFront_id ps fuel s : stripAny ps s = None -> trimFront fuel ps s = s.
Proof. intros E. destruct fuel; simpl; by rewrite ?E. Qed.

Lemma spaces_nonempty : Forall (fun p => p <> []) spaces.
Proof. repeat constructor; done. Qed.

Lemma rev_spaces_nonempty : Forall (fun p => p <> []) (reverse <$> spaces).
Proof. repeat constructor; done. Qed.

Lemma trimSpace_idem s : trimSpace (trimSpace s) = trimSpace s.
Proof.
  unfold trimSpace at 2 3. set (u := trimFront (length s) spaces s).
  destruct (trimFront_spec spaces (length s) s spaces_nonempty ltac:(lia)) as [Hu _]. fold u in Hu.
  destruct (trimFront_spec (reverse <$> spaces) (length u) (reverse u) rev_spaces_nonempty
              ltac:(rewrite length_reverse; lia)) as [Hr [p Hp]].
  set (v := trimFront (length u) (reverse <$> spaces) (reverse u)) in *.
  assert (Ev : stripAny spaces (reverse v) = None).
  { apply (stripAny_app_None _ _ (reverse p)). rewrite <- reverse_app, <- Hp, reverse_involutive. done. }
  unfold trimSpace. rewrite (trimFront_id spaces) by done.
  by rewrite trimFront_id; rewrite reverse_involutive.
Qed.

Lemma TrimSpace_idem s : TrimSpace (TrimSpace s) = TrimSpace s.
Proof. unfold TrimSpace. by rewrite String.list_ascii_of_string_of_list_ascii, trimSpace_idem. Qed.

(** * Qualified names *)

Definition noSlash (s : string) : Prop := "/"%char ∉ bytesOf s.

Lemma cutSlash_app ns id : noSlash ns -> cutSlash (ns +:+ "/" +:+ id) = Some (ns, id).
Proof.
  unfold noSlash. induction ns as [|a ns IH]; intros H.
  - reflexivity.
  - simpl in H. apply not_elem_of_cons in H as [Ha H].
    change (cutSlash (String a (ns +:+ "/" +:+ id)) = Some (String a ns, id)). simpl.
    rewrite decide_False by congruence. by rewrite IH.
Qed.

Lemma cutSlash_inv s ns id : cutSlash s = Some (ns, id) -> s = ns +:+ "/" +:+ id /\ noSlash ns.
Proof.
  revert ns. induction s as [|a s IH]; intros ns; simpl; [done|].
  case_decide as E; [subst; intros [= <- <-]; split; [done|by apply not_elem_of_nil]|].
  destruct (cutSlash s) as [[n i]|]; simpl; [|done]. intros [= <- <-].
  destruct (IH n eq_refl) as [-> Hn]. split; [done|].
  unfold noSlash. simpl. apply not_elem_of_cons. split; [congruence|done].
Qed.

Lemma split_qualified ns id : noSlash ns -> splitQualifiedPrimID (qualifiedPrimID ns id) = (ns, id).
Proof. intros H. unfold splitQualifiedPrimID, qualifiedPrimID. by rewrite cutSlash_app. Qed.

Lemma split_inv s ns id : ns <> "" -> splitQualifiedPrimID s = (ns, id) -> s = qualifiedPrimID ns id.
Proof.
  intros Hne. unfold splitQualifiedPrimID. destruct (cutSlash s) as [[n i]|] eqn:E.
  - intros [= <- <-]. by apply cutSlash_inv in E as [-> _].
  - intros [= <- <-]. done.
Qed.

Lemma qualified_inj ns1 id1 ns2 id2 :
  noSlash ns1 -> noSlash ns2 -> qualifiedPrimID ns1 id1 = qualifiedPrimID ns2 id2 -> ns1 = ns2 /\ id1 = id2.
Proof.
  intros H1 H2 E. apply (f_equal splitQualifiedPrimID) in E.
  rewrite !split_qualified in E by done. by simplify_eq.
Qed.

Lemma keepNamespace_lookup {A B} (f : string -> A -> B) ns m id :
  noSlash ns -> ns <> "" ->
  keepNamespace f ns m !! id = f id <$> m !! qualifiedPrimID ns id.
Proof.
  intros Hs Hne. unfold keepNamespace.
  apply (map_fold_weak_ind (fun acc m => acc !! id = f id <$> m !! qualifiedPrimID ns id)).
  - by rewrite !lookup_empty.
  - intros k x m' acc Hk IH. destruct (splitQualifiedPrimID k) as [n raw] eqn:Ek.
    case_decide as En.
    + subst n. apply split_inv in Ek as ->; [|done]. destruct (decide (raw = id)) as [->|Hr].
      * by rewrite !lookup_insert_eq.
      * rewrite !lookup_insert_ne; [done| |done]. intros E. by apply qualified_inj in E as [_ ?].
    + rewrite lookup_insert_ne, IH; [done|]. intros ->. rewrite split_qualified in Ek by done. congruence.
Qed.

(** What [extractNamespace] lets through. *)
Lemma extractNamespace_ok cfg claimNs queryNs ns :
  extractNamespace cfg claimNs queryNs = inr ns ->
  ns <> "" /\ noSlash ns /\ len ns <= maxIDLen /\ TrimSpace ns = ns.
Proof.
  unfold extractNamespace.
  set (n0 := if decide (default "" (TrimSpace <$> claimNs) <> "") then _ else _).
  set (n1 := if decide (n0 = "") then defaultNamespace cfg else n0).
  assert (Hn1 : n1 <> "" /\ TrimSpace n1 = n1).
  { unfold n1, defaultNamespace. destruct (decide (n0 = "")) as [E0|E0].
    - case_decide; [by rewrite TrimSpace_idem|by split].
    - split; [done|]. unfold n0. case_decide as E1.
      + destruct claimNs; simpl in *; [apply TrimSpace_idem|done].
      + case_decide; [apply TrimSpace_idem|done]. }
  destruct Hn1 as [Hne Htr]. case_decide as Ev; [done|]. intros [= <-].
  revert Ev. unfold validateNamespaceName. rewrite Htr, decide_False by done.
  destruct (Z.ltb_spec maxIDLen (len n1)) as [Hl|Hl]; [done|].
  unfold containsSlash. case_bool_decide as Hc; [done|]. intros _. by split_and!.
Qed.

(** * Sliding windows *)

(** A connection's messages arrive one after another, on a clock that does
    not run backwards. *)
Inductive clocked : list Z -> Prop :=
| clocked_nil : clocked []
| clocked_snoc ts now : clocked ts -> Forall (fun t => t <= now) ts -> clocked (ts ++ [now]).

Definition rateStep (check : Z -> list Z -> bool * list Z) (st : list Z * list (Z * bool)) (now : Z)
    : list Z * list (Z * bool) :=
  let '(ok, l) := check now st.1 in (l, st.2 ++ [(now, ok)]).

(** The verdicts on the messages that arrive at the times [ts]. *)
Definition verdicts (check : Z -> list Z -> bool * list Z) (ts : list Z) : list (Z * bool) :=
  (foldl (rateStep check) ([], []) ts).2.

(** The reference: how many of [ts] are in the second that ends at [now]. *)
Definition inWindow (now : Z) (t : Z) : Prop := now - Second < t <= now.
Definition windowCount (now : Z) (ts : list Z) : Z := Z.of_nat (length (filter (inWindow now) ts)).

(** The messages let through. *)
Definition passed (vs : list (Z * bool)) : list Z := (filter (fun v : Z * bool => v.2 = true) vs).*1.

Definition limiter (max : Z) (now : Z) (times : list Z) : bool * list Z :=
  (Z.of_nat (length (slide now times)) <=? max, slide now times).

Section Windows.
Context (max : Z).

Lemma slide_slide t now ts : t <= now -> slide now (slide t ts) = slide now (ts ++ [t]).
Proof.
  intros Ht. unfold slide. f_equal. rewrite !filter_app. f_equal. induction ts as [|x ts IH]; [done|].
  rewrite !filter_cons. destruct (decide (t - Second < x)), (decide (now - Second < x));
    rewrite ?filter_cons; repeat case_decide; try lia; congruence.
Qed.

Lemma window_slide now ts :
  Forall (fun t => t <= now) ts -> windowCount now (ts ++ [now]) = Z.of_nat (length (slide now ts)).
Proof.
  intros H. unfold windowCount, slide. rewrite filter_app, !length_app. f_equal. f_equal.
  - induction H as [|x ts Hx H IH]; [done|]. rewrite !filter_cons. unfold inWindow in *.
    repeat case_decide; simpl; try lia.
  - rewrite filter_cons_True; [done|]. unfold inWindow, Second. lia.
Qed.

Lemma run_slide ts now :
  clocked ts -> Forall (fun t => t <= now) ts ->
  slide now (foldl (rateStep (limiter max)) ([], []) ts).1 = slide now ts.
Proof.
  intros Hc. revert now. induction Hc as [|ts t Hc IH Ht]; intros now Hnow; [done|].
  rewrite foldl_snoc. simpl. rewrite (IH t Ht).
  apply Forall_app in Hnow as [_ [Hn _]%Forall_cons]. by apply slide_slide.
Qed.

Lemma verdicts_snoc ts now :
  clocked ts -> Forall (fun t => t <= now) ts ->
  verdicts (limiter max) (ts ++ [now]) =
  verdicts (limiter max) ts ++ [(now, windowCount now (ts ++ [now]) <=? max)].
Proof.
  intros Hc Hnow. unfold verdicts. rewrite foldl_snoc. simpl.
  rewrite run_slide, window_slide by done. done.
Qed.

Lemma verdicts_times ts : clocked ts -> (verdicts (limiter max) ts).*1 = ts.
Proof.
  induction 1 as [|ts now Hc IH Hn]; [done|]. rewrite verdicts_snoc, fmap_app by done. by rewrite IH.
Qed.

Lemma limiter_exact ts i t :
  clocked ts -> ts !! i = Some t ->
  verdicts (limiter max) ts !! i = Some (t, windowCount t (take (S i) ts) <=? max).
Proof.
  induction 1 as [|ts now Hc IH Hn]; [done|]. intros Hi. rewrite verdicts_snoc by done.
  assert (El : length (verdicts (limiter max) ts) = length ts)
    by (by rewrite <- (verdicts_times ts Hc) at 2; rewrite length_fmap).
  destruct (decide (i < length ts)%nat) as [Hlt|Hge].
  - rewrite lookup_app_l in Hi by lia. rewrite lookup_app_l by lia. rewrite take_app_le by lia. by apply IH.
  - assert (i = length ts) as -> by (apply lookup_lt_Some in Hi; rewrite length_app in Hi; simpl in Hi; lia).
    rewrite list_lookup_middle in Hi by done. injection Hi as <-.
    rewrite list_lookup_middle by done. rewrite take_ge; [done|]. rewrite length_app. simpl. lia.
Qed.

Lemma passed_app v1 v2 : passed (v1 ++ v2) = passed v1 ++ passed v2.
Proof. unfold passed. by rewrite filter_app, fmap_app. Qed.

Lemma passed_sublist vs : passed vs `sublist_of` vs.*1.
Proof. apply fmap_sublist, sublist_filter. Qed.

Lemma windowCount_le T now l ts :
  l `sublist_of` ts -> Forall (fun t => t <= now) ts -> now <= T ->
  windowCount T l <= windowCount now ts.
Proof.
  intros Hs Hn HT. unfold windowCount. apply inj_le. transitivity (length (filter (inWindow T) ts)).
  - apply sublist_length. clear Hn. induction Hs as [|x l1 l2 Hs IH|x l1 l2 Hs IH]; [done| |].
    + rewrite !filter_cons. case_decide; [by constructor|done].
    + rewrite filter_cons. case_decide; [by constructor|done].
  - clear Hs. induction Hn as [|x ts Hx Hn IH]; [done|]. rewrite !filter_cons. unfold inWindow in *.
    repeat case_decide; simpl; lia.
Qed.

Lemma limiter_bound ts T : 0 <= max -> clocked ts -> windowCount T (passed (verdicts (limiter max) ts)) <= max.
Proof.
  intros Hmax. induction 1 as [|ts now Hc IH Hn]; [done|]. rewrite verdicts_snoc, passed_app by done.
  destruct (Z.leb_spec (windowCount now (ts ++ [now])) max) as [Hle|Hgt]; simpl; [|by rewrite app_nil_r].
  destruct (decide (inWindow T now)) as [Hin|Hout].
  - etrans; [|exact Hle]. apply windowCount_le; [| |unfold inWindow in Hin; lia].
    + apply sublist_app; [|done]. rewrite <- (verdicts_times ts Hc) at 2. apply passed_sublist.
    + apply Forall_app. split; [done|]. by constructor.
  - unfold windowCount in *. rewrite filter_app.
    change (passed [(now, true)]) with [now]. rewrite filter_cons_False by done. by rewrite app_nil_r.
Qed.
End Windows.

(** * Theorems *)


Lemma clocked_replicate n t : clocked (replicate n t).
Proof.
  induction n as [|n IH]; [constructor|]. rewrite replicate_S_end. constructor; [done|].
  apply Forall_replicate. lia.
Qed.



Definition sampleConfig : Config := mkConfig [] "" "" "" "" "" 0 "" false [] "" 0 0.


(** The hold time is between one millisecond and one hour, and the requested
    one when that is in range. *)
Lemma clampHoldMs_range ms :
  Millisecond <= (clampHoldMs ms).1 <= operationTimeout /\
  (1 <= ms <= holdMsMax -> clampHoldMs ms = (ms * Millisecond, "")).
Proof.
  unfold clampHoldMs, holdMsMax, holdMsDefault, Millisecond, operationTimeout.
  destruct (Z.leb_spec ms 0); simpl.
  { destruct (Z.ltb_spec 3600000 ms); [lia|]. rewrite wrap64_id by (unfold int64_range; lia). split; [simpl|]; lia. }
  destruct (Z.ltb_spec 3600000 ms); simpl; rewrite wrap64_id by (unfold int64_range; lia); (split; [lia|]);
    intros; [lia|done].
Qed.

Lemma clampWaiterCount_range v : 0 <= clampWaiterCount v <= MaxInt32.
Proof.
  unfold clampWaiterCount, MaxInt32. destruct (Z.ltb_spec v 0), (Z.ltb_spec 2147483647 v); try lia.
  rewrite wrap32_id; unfold int32_range; lia.
Qed.
