(* ===== verification/Server.v ===== *)
(** * The server: connections, registries and handlers (web/server.go)

    One [connPrims] per namespace holds the primitives; connections of a
    namespace share it through a pointer, so there is a heap of them and the
    namespaces and connections hold addresses.  The scheduler and the metrics
    collector know every primitive under its qualified name.  A handler of a
    message is a sequence of atomic steps, one per critical section, because
    the handlers of different connections run at the same time; a connection
    handles its own messages one after another.  Messages to clients are
    collected in [sent]; the goroutines an operation starts in [spawned].

    A primitive is what the server knows of it: the abstract state its own
    file shows it to implement.  JSON decoding ([Codec]) and the statistics
    records ([statsOf]) are arguments.  Contexts are numbers; [cancelled] are
    those whose cancel function was called, and all of them are done once
    [shutdownCtx] is cancelled. *)

From Stdlib Require Import ZArith Lia.
From stdpp Require Import base list gmap strings pretty.
From S2P Require Import Prelude.
From S2P Require Import Auth.
From S2P Require Import AuditLog.
From S2P Require Import Scheduler.
From S2P Require Import Metrics.
From S2P Require Import Access.

#[local] Open Scope Z_scope.

#[export] Instance PrimitiveType_eq_dec : EqDecision Scheduler.PrimitiveType.
Proof. solve_decision. Defined.

(** ** Primitives *)

Inductive object :=
| ORWLock (readers : Z) (writer : bool)
| OFairRWLock (readers : Z) (writer : bool)
| OSemaphore (capacity count : Z)
| OMutex (locked : bool)
| OCondVar
| OBarrier (parties : Z)
| OWaitGroup (counter : Z)
| OOnce (done : bool)
| OGroup.

Definition kindOf (o : object) : Scheduler.PrimitiveType :=
  match o with
  | ORWLock _ _ => TypeRWLock | OFairRWLock _ _ => TypeFairRWLock | OSemaphore _ _ => TypeSemaphore
  | OMutex _ => TypeMutex | OCondVar => TypeCondVar | OBarrier _ => TypeBarrier
  | OWaitGroup _ => TypeWaitGroup | OOnce _ => TypeOnce | OGroup => TypeSingleflight
  end.

(** The maps of a [connPrims] hold addresses of objects; [primCtxs] the
    context of each primitive. *)
Record connPrims := mkCP {
  rwlocks : gmap string nat;
  fairrwlocks : gmap string nat;
  semaphores : gmap string nat;
  mutexes : gmap string nat;
  condvars : gmap string nat;
  barriers : gmap string nat;
  waitgroups : gmap string nat;
  onces : gmap string nat;
  singleflights : gmap string nat;
  primCtxs : gmap string nat
}.

Definition set_rwlocks v s := mkCP v (fairrwlocks s) (semaphores s) (mutexes s) (condvars s) (barriers s) (waitgroups s) (onces s) (singleflights s) (primCtxs s).
Definition set_fairrwlocks v s := mkCP (rwlocks s) v (semaphores s) (mutexes s) (condvars s) (barriers s) (waitgroups s) (onces s) (singleflights s) (primCtxs s).
Definition set_semaphores v s := mkCP (rwlocks s) (fairrwlocks s) v (mutexes s) (condvars s) (barriers s) (waitgroups s) (onces s) (singleflights s) (primCtxs s).
Definition set_mutexes v s := mkCP (rwlocks s) (fairrwlocks s) (semaphores s) v (condvars s) (barriers s) (waitgroups s) (onces s) (singleflights s) (primCtxs s).
Definition set_condvars v s := mkCP (rwlocks s) (fairrwlocks s) (semaphores s) (mutexes s) v (barriers s) (waitgroups s) (onces s) (singleflights s) (primCtxs s).
Definition set_barriers v s := mkCP (rwlocks s) (fairrwlocks s) (semaphores s) (mutexes s) (condvars s) v (waitgroups s) (onces s) (singleflights s) (primCtxs s).
Definition set_waitgroups v s := mkCP (rwlocks s) (fairrwlocks s) (semaphores s) (mutexes s) (condvars s) (barriers s) v (onces s) (singleflights s) (primCtxs s).
Definition set_onces v s := mkCP (rwlocks s) (fairrwlocks s) (semaphores s) (mutexes s) (condvars s) (barriers s) (waitgroups s) v (singleflights s) (primCtxs s).
Definition set_singleflights v s := mkCP (rwlocks s) (fairrwlocks s) (semaphores s) (mutexes s) (condvars s) (barriers s) (waitgroups s) (onces s) v (primCtxs s).
Definition set_primCtxs v s := mkCP (rwlocks s) (fairrwlocks s) (semaphores s) (mutexes s) (condvars s) (barriers s) (waitgroups s) (onces s) (singleflights s) v.

Definition newConnPrims : connPrims := mkCP ∅ ∅ ∅ ∅ ∅ ∅ ∅ ∅ ∅ ∅.

Definition primExists (cp : connPrims) (id : string) : bool :=
  let has (m : gmap string nat) := bool_decide (is_Some (m !! id)) in
  has (rwlocks cp) || has (fairrwlocks cp) || has (semaphores cp) || has (mutexes cp) || has (condvars cp) ||
  has (barriers cp) || has (waitgroups cp) || has (onces cp) || has (singleflights cp).

(** The map of a kind. *)
Definition mapOf (k : Scheduler.PrimitiveType) : connPrims -> gmap string nat :=
  match k with
  | TypeRWLock => rwlocks | TypeFairRWLock => fairrwlocks | TypeSemaphore => semaphores
  | TypeMutex => mutexes | TypeCondVar => condvars | TypeBarrier => barriers
  | TypeWaitGroup => waitgroups | TypeOnce => onces | TypeSingleflight => singleflights
  end.

Definition setMap (k : Scheduler.PrimitiveType) : gmap string nat -> connPrims -> connPrims :=
  match k with
  | TypeRWLock => set_rwlocks | TypeFairRWLock => set_fairrwlocks | TypeSemaphore => set_semaphores
  | TypeMutex => set_mutexes | TypeCondVar => set_condvars | TypeBarrier => set_barriers
  | TypeWaitGroup => set_waitgroups | TypeOnce => set_onces | TypeSingleflight => set_singleflights
  end.

Definition deleteAll (id : string) (cp : connPrims) : connPrims :=
  mkCP (delete id (rwlocks cp)) (delete id (fairrwlocks cp)) (delete id (semaphores cp))
    (delete id (mutexes cp)) (delete id (condvars cp)) (delete id (barriers cp))
    (delete id (waitgroups cp)) (delete id (onces cp)) (delete id (singleflights cp)) (primCtxs cp).

(** ** Connections and messages *)

Record connState := mkConnState {
  msgTimes : list Z; opTimes : list Z; connID : string; user : string; role : string; namespace : string;
  opCtx : nat
}.

(** [lastFullRefreshAt] is [None] for the zero time. *)
Record deltaState := mkDelta { lastPrimJSON : gmap string string; lastFullRefreshAt : option Z }.

Record deltaUpdatePayload := mkDeltaPayload {
  Primitives : gmap string PrimitiveInfo; Deleted : list string; Goroutines : gmap Z GoroutineInfo;
  Events : list Scheduler.Event; DMetrics : SchedulerMetrics; Sequence : Z
}.

(** What goes into a message before it is encoded. *)
Inductive payload :=
| PText (message : string)
| PWarn (message warning : string)
| PState (prims : gmap string PrimitiveInfo) (gs : gmap Z GoroutineInfo) (evs : list Scheduler.Event)
    (m : SchedulerMetrics) (sequence : Z)
| PMetrics (g : GlobalMetrics) (ps : gmap string PrimitiveMetricsSnapshot)
| PUpdate (u : deltaUpdatePayload).

(** The payload of a request for an operation. *)
Record opPayload := mkOp { opID : string; opOp : string; opHoldMs : Z }.

Record outMessage := mkOut { outType : string; outPayload : payload }.

Record Server := mkServer {
  cfg : Config;
  scheduler : Scheduler.Scheduler;
  metricsCollector : MetricsCollector;
  heap : list connPrims;
  objects : list object;
  connPrimsMap : gmap nat nat;
  namespaces : gmap string nat;
  clients : list nat;
  writeMu : gset nat;
  connStates : gmap nat connState;
  deltaStates : gmap nat deltaState;
  msgRateLimitHits : Z;
  opRateLimitHits : Z;
  fullRefreshRequests : Z;
  updateSequence : Z;
  authFailuresExpired : Z;
  authFailuresInvalid : Z;
  authFailuresMalformed : Z;
  maxConns : Z;
  activeConns : Z;
  draining : bool;
  stop : bool;
  shutdownCtx : bool;
  nextCtx : nat;
  cancelled : gset nat;
  goroutineCounter : Z;
  connCounter : Z;
  auditLogger : option Logger;
  spawned : list (nat * opPayload);
  sent : list (nat * outMessage)
}.

Definition set_cfg v s := mkServer v (scheduler s) (metricsCollector s) (heap s) (objects s) (connPrimsMap s) (namespaces s) (clients s) (writeMu s) (connStates s) (deltaStates s) (msgRateLimitHits s) (opRateLimitHits s) (fullRefreshRequests s) (updateSequence s) (authFailuresExpired s) (authFailuresInvalid s) (authFailuresMalformed s) (maxConns s) (activeConns s) (draining s) (stop s) (shutdownCtx s) (nextCtx s) (cancelled s) (goroutineCounter s) (connCounter s) (auditLogger s) (spawned s) (sent s).
Definition set_scheduler v s := mkServer (cfg s) v (metricsCollector s) (heap s) (objects s) (connPrimsMap s) (namespaces s) (clients s) (writeMu s) (connStates s) (deltaStates s) (msgRateLimitHits s) (opRateLimitHits s) (fullRefreshRequests s) (updateSequence s) (authFailuresExpired s) (authFailuresInvalid s) (authFailuresMalformed s) (maxConns s) (activeConns s) (draining s) (stop s) (shutdownCtx s) (nextCtx s) (cancelled s) (goroutineCounter s) (connCounter s) (auditLogger s) (spawned s) (sent s).
Definition set_metricsCollector v s := mkServer (cfg s) (scheduler s) v (heap s) (objects s) (connPrimsMap s) (namespaces s) (clients s) (writeMu s) (connStates s) (deltaStates s) (msgRateLimitHits s) (opRateLimitHits s) (fullRefreshRequests s) (updateSequence s) (authFailuresExpired s) (authFailuresInvalid s) (authFailuresMalformed s) (maxConns s) (activeConns s) (draining s) (stop s) (shutdownCtx s) (nextCtx s) (cancelled s) (goroutineCounter s) (connCounter s) (auditLogger s) (spawned s) (sent s).
Definition set_heap v s := mkServer (cfg s) (scheduler s) (metricsCollector s) v (objects s) (connPrimsMap s) (namespaces s) (clients s) (writeMu s) (connStates s) (deltaStates s) (msgRateLimitHits s) (opRateLimitHits s) (fullRefreshRequests s) (updateSequence s) (authFailuresExpired s) (authFailuresInvalid s) (authFailuresMalformed s) (maxConns s) (activeConns s) (draining s) (stop s) (shutdownCtx s) (nextCtx s) (cancelled s) (goroutineCounter s) (connCounter s) (auditLogger s) (spawned s) (sent s).
Definition set_objects v s := mkServer (cfg s) (scheduler s) (metricsCollector s) (heap s) v (connPrimsMap s) (namespaces s) (clients s) (writeMu s) (connStates s) (deltaStates s) (msgRateLimitHits s) (opRateLimitHits s) (fullRefreshRequests s) (updateSequence s) (authFailuresExpired s) (authFailuresInvalid s) (authFailuresMalformed s) (maxConns s) (activeConns s) (draining s) (stop s) (shutdownCtx s) (nextCtx s) (cancelled s) (goroutineCounter s) (connCounter s) (auditLogger s) (spawned s) (sent s).
Definition set_connPrimsMap v s := mkServer (cfg s) (scheduler s) (metricsCollector s) (heap s) (objects s) v (namespaces s) (clients s) (writeMu s) (connStates s) (deltaStates s) (msgRateLimitHits s) (opRateLimitHits s) (fullRefreshRequests s) (updateSequence s) (authFailuresExpired s) (authFailuresInvalid s) (authFailuresMalformed s) (maxConns s) (activeConns s) (draining s) (stop s) (shutdownCtx s) (nextCtx s) (cancelled s) (goroutineCounter s) (connCounter s) (auditLogger s) (spawned s) (sent s).
Definition set_namespaces v s := mkServer (cfg s) (scheduler s) (metricsCollector s) (heap s) (objects s) (connPrimsMap s) v (clients s) (writeMu s) (connStates s) (deltaStates s) (msgRateLimitHits s) (opRateLimitHits s) (fullRefreshRequests s) (updateSequence s) (authFailuresExpired s) (authFailuresInvalid s) (authFailuresMalformed s) (maxConns s) (activeConns s) (draining s) (stop s) (shutdownCtx s) (nextCtx s) (cancelled s) (goroutineCounter s) (connCounter s) (auditLogger s) (spawned s) (sent s).
Definition set_clients v s := mkServer (cfg s) (scheduler s) (metricsCollector s) (heap s) (objects s) (connPrimsMap s) (namespaces s) v (writeMu s) (connStates s) (deltaStates s) (msgRateLimitHits s) (opRateLimitHits s) (fullRefreshRequests s) (updateSequence s) (authFailuresExpired s) (authFailuresInvalid s) (authFailuresMalformed s) (maxConns s) (activeConns s) (draining s) (stop s) (shutdownCtx s) (nextCtx s) (cancelled s) (goroutineCounter s) (connCounter s) (auditLogger s) (spawned s) (sent s).
Definition set_writeMu v s := mkServer (cfg s) (scheduler s) (metricsCollector s) (heap s) (objects s) (connPrimsMap s) (namespaces s) (clients s) v (connStates s) (deltaStates s) (msgRateLimitHits s) (opRateLimitHits s) (fullRefreshRequests s) (updateSequence s) (authFailuresExpired s) (authFailuresInvalid s) (authFailuresMalformed s) (maxConns s) (activeConns s) (draining s) (stop s) (shutdownCtx s) (nextCtx s) (cancelled s) (goroutineCounter s) (connCounter s) (auditLogger s) (spawned s) (sent s).
Definition set_connStates v s := mkServer (cfg s) (scheduler s) (metricsCollector s) (heap s) (objects s) (connPrimsMap s) (namespaces s) (clients s) (writeMu s) v (deltaStates s) (msgRateLimitHits s) (opRateLimitHits s) (fullRefreshRequests s) (updateSequence s) (authFailuresExpired s) (authFailuresInvalid s) (authFailuresMalformed s) (maxConns s) (activeConns s) (draining s) (stop s) (shutdownCtx s) (nextCtx s) (cancelled s) (goroutineCounter s) (connCounter s) (auditLogger s) (spawned s) (sent s).
Definition set_deltaStates v s := mkServer (cfg s) (scheduler s) (metricsCollector s) (heap s) (objects s) (connPrimsMap s) (namespaces s) (clients s) (writeMu s) (connStates s) v (msgRateLimitHits s) (opRateLimitHits s) (fullRefreshRequests s) (updateSequence s) (authFailuresExpired s) (authFailuresInvalid s) (authFailuresMalformed s) (maxConns s) (activeConns s) (draining s) (stop s) (shutdownCtx s) (nextCtx s) (cancelled s) (goroutineCounter s) (connCounter s) (auditLogger s) (spawned s) (sent s).
Definition set_msgRateLimitHits v s := mkServer (cfg s) (scheduler s) (metricsCollector s) (heap s) (objects s) (connPrimsMap s) (namespaces s) (clients s) (writeMu s) (connStates s) (deltaStates s) v (opRateLimitHits s) (fullRefreshRequests s) (updateSequence s) (authFailuresExpired s) (authFailuresInvalid s) (authFailuresMalformed s) (maxConns s) (activeConns s) (draining s) (stop s) (shutdownCtx s) (nextCtx s) (cancelled s) (goroutineCounter s) (connCounter s) (auditLogger s) (spawned s) (sent s).
Definition set_opRateLimitHits v s := mkServer (cfg s) (scheduler s) (metricsCollector s) (heap s) (objects s) (connPrimsMap s) (namespaces s) (clients s) (writeMu s) (connStates s) (deltaStates s) (msgRateLimitHits s) v (fullRefreshRequests s) (updateSequence s) (authFailuresExpired s) (authFailuresInvalid s) (authFailuresMalformed s) (maxConns s) (activeConns s) (draining s) (stop s) (shutdownCtx s) (nextCtx s) (cancelled s) (goroutineCounter s) (connCounter s) (auditLogger s) (spawned s) (sent s).
Definition set_fullRefreshRequests v s := mkServer (cfg s) (scheduler s) (metricsCollector s) (heap s) (objects s) (connPrimsMap s) (namespaces s) (clients s) (writeMu s) (connStates s) (deltaStates s) (msgRateLimitHits s) (opRateLimitHits s) v (updateSequence s) (authFailuresExpired s) (authFailuresInvalid s) (authFailuresMalformed s) (maxConns s) (activeConns s) (draining s) (stop s) (shutdownCtx s) (nextCtx s) (cancelled s) (goroutineCounter s) (connCounter s) (auditLogger s) (spawned s) (sent s).
Definition set_updateSequence v s := mkServer (cfg s) (scheduler s) (metricsCollector s) (heap s) (objects s) (connPrimsMap s) (namespaces s) (clients s) (writeMu s) (connStates s) (deltaStates s) (msgRateLimitHits s) (opRateLimitHits s) (fullRefreshRequests s) v (authFailuresExpired s) (authFailuresInvalid s) (authFailuresMalformed s) (maxConns s) (activeConns s) (draining s) (stop s) (shutdownCtx s) (nextCtx s) (cancelled s) (goroutineCounter s) (connCounter s) (auditLogger s) (spawned s) (sent s).
Definition set_authFailuresExpired v s := mkServer (cfg s) (scheduler s) (metricsCollector s) (heap s) (objects s) (connPrimsMap s) (namespaces s) (clients s) (writeMu s) (connStates s) (deltaStates s) (msgRateLimitHits s) (opRateLimitHits s) (fullRefreshRequests s) (updateSequence s) v (authFailuresInvalid s) (authFailuresMalformed s) (maxConns s) (activeConns s) (draining s) (stop s) (shutdownCtx s) (nextCtx s) (cancelled s) (goroutineCounter s) (connCounter s) (auditLogger s) (spawned s) (sent s).
Definition set_authFailuresInvalid v s := mkServer (cfg s) (scheduler s) (metricsCollector s) (heap s) (objects s) (connPrimsMap s) (namespaces s) (clients s) (writeMu s) (connStates s) (deltaStates s) (msgRateLimitHits s) (opRateLimitHits s) (fullRefreshRequests s) (updateSequence s) (authFailuresExpired s) v (authFailuresMalformed s) (maxConns s) (activeConns s) (draining s) (stop s) (shutdownCtx s) (nextCtx s) (cancelled s) (goroutineCounter s) (connCounter s) (auditLogger s) (spawned s) (sent s).
Definition set_authFailuresMalformed v s := mkServer (cfg s) (scheduler s) (metricsCollector s) (heap s) (objects s) (connPrimsMap s) (namespaces s) (clients s) (writeMu s) (connStates s) (deltaStates s) (msgRateLimitHits s) (opRateLimitHits s) (fullRefreshRequests s) (updateSequence s) (authFailuresExpired s) (authFailuresInvalid s) v (maxConns s) (activeConns s) (draining s) (stop s) (shutdownCtx s) (nextCtx s) (cancelled s) (goroutineCounter s) (connCounter s) (auditLogger s) (spawned s) (sent s).
Definition set_maxConns v s := mkServer (cfg s) (scheduler s) (metricsCollector s) (heap s) (objects s) (connPrimsMap s) (namespaces s) (clients s) (writeMu s) (connStates s) (deltaStates s) (msgRateLimitHits s) (opRateLimitHits s) (fullRefreshRequests s) (updateSequence s) (authFailuresExpired s) (authFailuresInvalid s) (authFailuresMalformed s) v (activeConns s) (draining s) (stop s) (shutdownCtx s) (nextCtx s) (cancelled s) (goroutineCounter s) (connCounter s) (auditLogger s) (spawned s) (sent s).
Definition set_activeConns v s := mkServer (cfg s) (scheduler s) (metricsCollector s) (heap s) (objects s) (connPrimsMap s) (namespaces s) (clients s) (writeMu s) (connStates s) (deltaStates s) (msgRateLimitHits s) (opRateLimitHits s) (fullRefreshRequests s) (updateSequence s) (authFailuresExpired s) (authFailuresInvalid s) (authFailuresMalformed s) (maxConns s) v (draining s) (stop s) (shutdownCtx s) (nextCtx s) (cancelled s) (goroutineCounter s) (connCounter s) (auditLogger s) (spawned s) (sent s).
Definition set_draining v s := mkServer (cfg s) (scheduler s) (metricsCollector s) (heap s) (objects s) (connPrimsMap s) (namespaces s) (clients s) (writeMu s) (connStates s) (deltaStates s) (msgRateLimitHits s) (opRateLimitHits s) (fullRefreshRequests s) (updateSequence s) (authFailuresExpired s) (authFailuresInvalid s) (authFailuresMalformed s) (maxConns s) (activeConns s) v (stop s) (shutdownCtx s) (nextCtx s) (cancelled s) (goroutineCounter s) (connCounter s) (auditLogger s) (spawned s) (sent s).
Definition set_stop v s := mkServer (cfg s) (scheduler s) (metricsCollector s) (heap s) (objects s) (connPrimsMap s) (namespaces s) (clients s) (writeMu s) (connStates s) (deltaStates s) (msgRateLimitHits s) (opRateLimitHits s) (fullRefreshRequests s) (updateSequence s) (authFailuresExpired s) (authFailuresInvalid s) (authFailuresMalformed s) (maxConns s) (activeConns s) (draining s) v (shutdownCtx s) (nextCtx s) (cancelled s) (goroutineCounter s) (connCounter s) (auditLogger s) (spawned s) (sent s).
Definition set_shutdownCtx v s := mkServer (cfg s) (scheduler s) (metricsCollector s) (heap s) (objects s) (connPrimsMap s) (namespaces s) (clients s) (writeMu s) (connStates s) (deltaStates s) (msgRateLimitHits s) (opRateLimitHits s) (fullRefreshRequests s) (updateSequence s) (authFailuresExpired s) (authFailuresInvalid s) (authFailuresMalformed s) (maxConns s) (activeConns s) (draining s) (stop s) v (nextCtx s) (cancelled s) (goroutineCounter s) (connCounter s) (auditLogger s) (spawned s) (sent s).
Definition set_nextCtx v s := mkServer (cfg s) (scheduler s) (metricsCollector s) (heap s) (objects s) (connPrimsMap s) (namespaces s) (clients s) (writeMu s) (connStates s) (deltaStates s) (msgRateLimitHits s) (opRateLimitHits s) (fullRefreshRequests s) (updateSequence s) (authFailuresExpired s) (authFailuresInvalid s) (authFailuresMalformed s) (maxConns s) (activeConns s) (draining s) (stop s) (shutdownCtx s) v (cancelled s) (goroutineCounter s) (connCounter s) (auditLogger s) (spawned s) (sent s).
Definition set_cancelled v s := mkServer (cfg s) (scheduler s) (metricsCollector s) (heap s) (objects s) (connPrimsMap s) (namespaces s) (clients s) (writeMu s) (connStates s) (deltaStates s) (msgRateLimitHits s) (opRateLimitHits s) (fullRefreshRequests s) (updateSequence s) (authFailuresExpired s) (authFailuresInvalid s) (authFailuresMalformed s) (maxConns s) (activeConns s) (draining s) (stop s) (shutdownCtx s) (nextCtx s) v (goroutineCounter s) (connCounter s) (auditLogger s) (spawned s) (sent s).
Definition set_goroutineCounter v s := mkServer (cfg s) (scheduler s) (metricsCollector s) (heap s) (objects s) (connPrimsMap s) (namespaces s) (clients s) (writeMu s) (connStates s) (deltaStates s) (msgRateLimitHits s) (opRateLimitHits s) (fullRefreshRequests s) (updateSequence s) (authFailuresExpired s) (authFailuresInvalid s) (authFailuresMalformed s) (maxConns s) (activeConns s) (draining s) (stop s) (shutdownCtx s) (nextCtx s) (cancelled s) v (connCounter s) (auditLogger s) (spawned s) (sent s).
Definition set_connCounter v s := mkServer (cfg s) (scheduler s) (metricsCollector s) (heap s) (objects s) (connPrimsMap s) (namespaces s) (clients s) (writeMu s) (connStates s) (deltaStates s) (msgRateLimitHits s) (opRateLimitHits s) (fullRefreshRequests s) (updateSequence s) (authFailuresExpired s) (authFailuresInvalid s) (authFailuresMalformed s) (maxConns s) (activeConns s) (draining s) (stop s) (shutdownCtx s) (nextCtx s) (cancelled s) (goroutineCounter s) v (auditLogger s) (spawned s) (sent s).
Definition set_auditLogger v s := mkServer (cfg s) (scheduler s) (metricsCollector s) (heap s) (objects s) (connPrimsMap s) (namespaces s) (clients s) (writeMu s) (connStates s) (deltaStates s) (msgRateLimitHits s) (opRateLimitHits s) (fullRefreshRequests s) (updateSequence s) (authFailuresExpired s) (authFailuresInvalid s) (authFailuresMalformed s) (maxConns s) (activeConns s) (draining s) (stop s) (shutdownCtx s) (nextCtx s) (cancelled s) (goroutineCounter s) (connCounter s) v (spawned s) (sent s).
Definition set_spawned v s := mkServer (cfg s) (scheduler s) (metricsCollector s) (heap s) (objects s) (connPrimsMap s) (namespaces s) (clients s) (writeMu s) (connStates s) (deltaStates s) (msgRateLimitHits s) (opRateLimitHits s) (fullRefreshRequests s) (updateSequence s) (authFailuresExpired s) (authFailuresInvalid s) (authFailuresMalformed s) (maxConns s) (activeConns s) (draining s) (stop s) (shutdownCtx s) (nextCtx s) (cancelled s) (goroutineCounter s) (connCounter s) (auditLogger s) v (sent s).
Definition set_sent v s := mkServer (cfg s) (scheduler s) (metricsCollector s) (heap s) (objects s) (connPrimsMap s) (namespaces s) (clients s) (writeMu s) (connStates s) (deltaStates s) (msgRateLimitHits s) (opRateLimitHits s) (fullRefreshRequests s) (updateSequence s) (authFailuresExpired s) (authFailuresInvalid s) (authFailuresMalformed s) (maxConns s) (activeConns s) (draining s) (stop s) (shutdownCtx s) (nextCtx s) (cancelled s) (goroutineCounter s) (connCounter s) (auditLogger s) (spawned s) v.

(** The decoders of the payloads: id and name; with a capacity; with a number
    of parties; an id; an operation. *)
Record Codec (Raw : Type) := mkCodec {
  decodeBasic : Raw -> option (string * string);
  decodeCapacity : Raw -> option (string * string * Z);
  decodeParties : Raw -> option (string * string * Z);
  decodeID : Raw -> option string;
  decodeOp : Raw -> option opPayload
}.
Arguments decodeBasic {Raw} _ _.
Arguments decodeCapacity {Raw} _ _.
Arguments decodeParties {Raw} _ _.
Arguments decodeID {Raw} _ _.
Arguments decodeOp {Raw} _ _.

(** ** Helpers *)

Definition sendToClient (conn : nat) (m : outMessage) (s : Server) : Server :=
  if decide (conn ∈ writeMu s) then set_sent (sent s ++ [(conn, m)]) s else s.

Definition sendSuccess (conn : nat) (text : string) : Server -> Server :=
  sendToClient conn (mkOut "success" (PText text)).
Definition sendError (conn : nat) (text : string) : Server -> Server :=
  sendToClient conn (mkOut "error" (PText text)).

(** [entry.Timestamp.IsZero]: time 0 stands for the zero time. *)
Definition logAudit (now : Z) (conn : nat) (e : Entry) (s : Server) : Server :=
  match auditLogger s with
  | None => s
  | Some l =>
      let ts := if AuditLog.Timestamp e =? 0 then now else AuditLog.Timestamp e in
      let cs := connStates s !! conn in
      let cid := if decide (ConnID e = "") then default "" (connID <$> cs) else ConnID e in
      let usr := if decide (User e = "") then default "" (user <$> cs) else User e in
      set_auditLogger (Some (Log (mkEntry ts (AuditLog.Event e) cid usr (AuditLog.PrimitiveID e)
        (AuditLog.PrimitiveType e) (Op e) (HoldMs e) (Result e) (DurationNs e) (Error e)) l)) s
  end.

Definition auditEntry (event id ptype : string) : Entry :=
  mkEntry 0 event "" "" id ptype "" 0 "success" 0 "".

Definition connPrimsFor (conn : nat) (s : Server) : option nat := connPrimsMap s !! conn.

Definition namespaceForConn (conn : nat) (s : Server) : string :=
  match connStates s !! conn with
  | Some cs => if decide (namespace cs <> "") then namespace cs else defaultNamespace (cfg s)
  | None => defaultNamespace (cfg s)
  end.

(** A fresh [connPrims] on the heap when the namespace is new. *)
Definition getOrCreateNamespacePrims (ns : string) (s : Server) : nat * Server :=
  match namespaces s !! ns with
  | Some p => (p, s)
  | None =>
      let p := length (heap s) in
      (p, set_namespaces (<[ns:=p]> (namespaces s)) (set_heap (heap s ++ [newConnPrims]) s))
  end.

(** [context.WithCancel]: a new context. *)
Definition withCancel (s : Server) : nat * Server := (nextCtx s, set_nextCtx (S (nextCtx s)) s).
Definition cancelCtx (c : nat) (s : Server) : Server := set_cancelled ({[c]} ∪ cancelled s) s.
Definition ctxDone (c : nat) (s : Server) : bool := shutdownCtx s || bool_decide (c ∈ cancelled s).

Definition internalID (conn : nat) (id : string) (s : Server) : string :=
  qualifiedPrimID (namespaceForConn conn s) id.

(** ** Handlers, step by step

    [HCreate] is the critical section of the create handlers, the points
    after it the registrations, the audit entry and the reply; [HDelete] and
    those after it the same for [handleDeletePrimitive]; [HRefresh] tests the
    rate of full refreshes, [HRead], [HSeed] and [HSend] send the state. *)
Inductive hpc :=
| HCreate (cp : nat) (id name : string) (o : object)
| HSched (id name : string) (k : Scheduler.PrimitiveType) (a : nat)
| HMetrics (id name : string) (k : Scheduler.PrimitiveType)
| HAudit (id : string) (k : Scheduler.PrimitiveType)
| HDelete (cp : nat) (id : string)
| HDeleteCtx (cp : nat) (id : string)
| HDeleteSched (id : string)
| HDeleteMetrics (id : string)
| HDeleteAudit (id : string)
| HReply (text : string)
| HRefresh
| HRead (ty : string)
| HSeed (ty : string) (prims : gmap string PrimitiveInfo)
| HSend (ty : string) (prims : gmap string PrimitiveInfo)
| HDone.

Section Handlers.
Context {Raw : Type} (codec : Codec Raw).
Context (statsOf : object -> Z) (primitiveSnapshotKey : PrimitiveInfo -> string).

Definition fail (conn : nat) (text : string) (s : Server) : hpc * Server := (HDone, sendError conn text s).

(** The checks on id and name all create handlers make, then the lookup of
    the connection's primitives. *)
Definition validated (conn : nat) (id name : string) (s : Server) (k : hpc * Server) : hpc * Server :=
  if decide (validatePrimID id <> "") then fail conn (validatePrimID id) s
  else if decide (validatePrimName name <> "") then fail conn (validatePrimName name) s
  else k.

Definition create (conn : nat) (id name : string) (o : object) (s : Server) : hpc * Server :=
  match connPrimsFor conn s with
  | None => fail conn "connection not registered" s
  | Some cp => (HCreate cp id name o, s)
  end.

Definition createBasic (o : object) (conn : nat) (raw : Raw) (s : Server) : hpc * Server :=
  match decodeBasic codec raw with
  | None => fail conn "Invalid payload" s
  | Some (id, name) => validated conn id name s (create conn id name o s)
  end.

(** The create handlers up to their critical section, which [handler_step]
    runs with the rest of them. *)
Definition handleCreateRWLock := createBasic (ORWLock 0 false).
Definition handleCreateFairRWLock := createBasic (OFairRWLock 0 false).
Definition handleCreateMutex := createBasic (OMutex false).
Definition handleCreateCondVar := createBasic OCondVar.
Definition handleCreateWaitGroup := createBasic (OWaitGroup 0).
Definition handleCreateOnce := createBasic (OOnce false).
Definition handleCreateSingleflight := createBasic OGroup.

Definition handleCreateSemaphore (conn : nat) (raw : Raw) (s : Server) : hpc * Server :=
  match decodeCapacity codec raw with
  | None => fail conn "Invalid payload" s
  | Some (id, name, capacity) =>
      validated conn id name s
        (if capacity <=? 0 then fail conn "capacity must be a positive integer" s
         else create conn id name (OSemaphore capacity capacity) s)
  end.

Definition handleCreateBarrier (conn : nat) (raw : Raw) (s : Server) : hpc * Server :=
  match decodeParties codec raw with
  | None => fail conn "Invalid payload" s
  | Some (id, name, parties) =>
      validated conn id name s
        (if parties <=? 0 then fail conn "parties must be a positive integer" s
         else create conn id name (OBarrier parties) s)
  end.

Definition handleDeletePrimitive (conn : nat) (raw : Raw) (s : Server) : hpc * Server :=
  match decodeID codec raw with
  | None => fail conn "Invalid payload" s
  | Some id =>
      match connPrimsFor conn s with
      | None => fail conn "connection not registered" s
      | Some cp => (HDelete cp id, s)
      end
  end.

Definition handleGetMetrics (now : Z) (conn : nat) (s : Server) : hpc * Server :=
  (HDone, sendToClient conn (mkOut "metrics"
     (PMetrics (GetGlobalMetrics now (metricsCollector s))
        (filterMetricSnapshotsForNamespace (GetAllMetrics now (metricsCollector s)) (namespaceForConn conn s)))) s).

(** The first part of [handlePrimitiveOp]: the goroutine it starts is in
    ServerOps.v. *)
Definition startOp (conn : nat) (raw : Raw) (s : Server) : hpc * Server :=
  match decodeOp codec raw with
  | None => fail conn "Invalid payload for primitiveOp" s
  | Some p => (HDone, set_spawned (spawned s ++ [(conn, p)]) s)
  end.

Definition handleMessage (now : Z) (conn : nat) (ty : string) (raw : Raw) (s : Server) : hpc * Server :=
  match authorizeMessage (role <$> connStates s !! conn) ty with
  | Some err => fail conn err s
  | None =>
      if decide (ty = "createRWLock") then handleCreateRWLock conn raw s
      else if decide (ty = "createFairRWLock") then handleCreateFairRWLock conn raw s
      else if decide (ty = "createSemaphore") then handleCreateSemaphore conn raw s
      else if decide (ty = "createMutex") then handleCreateMutex conn raw s
      else if decide (ty = "createCondVar") then handleCreateCondVar conn raw s
      else if decide (ty = "createBarrier") then handleCreateBarrier conn raw s
      else if decide (ty = "createWaitGroup") then handleCreateWaitGroup conn raw s
      else if decide (ty = "createOnce") then handleCreateOnce conn raw s
      else if decide (ty = "createSingleflight") then handleCreateSingleflight conn raw s
      else if decide (ty = "deletePrimitive") then handleDeletePrimitive conn raw s
      else if decide (ty = "getMetrics") then handleGetMetrics now conn s
      else if decide (ty = "primitiveOp") then startOp conn raw s
      else if decide (ty = "requestFullRefresh") then (HRefresh, s)
      else fail conn ("Unknown message type: " +:+ ty) s
  end.

(** [seedDeltaState] *)
Definition deltaFor (conn : nat) (s : Server) : deltaState :=
  default (mkDelta ∅ None) (deltaStates s !! conn).

Definition seedDeltaState (conn : nat) (prims : gmap string PrimitiveInfo) (s : Server) : Server :=
  set_deltaStates
    (<[conn:=mkDelta (primitiveSnapshotKey <$> prims) (lastFullRefreshAt (deltaFor conn s))]> (deltaStates s)) s.

(** The test of the rate of full refreshes. *)
Definition handleRequestFullRefresh (now : Z) (conn : nat) (s : Server) : hpc * Server :=
  let ds := deltaFor conn s in
  let accepted := (HRead "state",
    set_fullRefreshRequests (add64 (fullRefreshRequests s) 1)
      (set_deltaStates (<[conn:=mkDelta (lastPrimJSON ds) (Some now)]> (deltaStates s)) s)) in
  match lastFullRefreshAt ds with
  | Some t =>
      if now - t <? Second
      then fail conn "full refresh rate limit exceeded: max 1 request/second"
             (set_deltaStates (<[conn:=ds]> (deltaStates s)) s)
      else accepted
  | None => accepted
  end.

(** The end of [sendState] and [sendInitialState]: what is not primitives is
    read when the message is built. *)
Definition sendState (now : Z) (conn : nat) (ty : string) (prims : gmap string PrimitiveInfo) (s : Server) : Server :=
  let ns := namespaceForConn conn s in
  sendToClient conn (mkOut ty
    (PState prims (filterGoroutinesForNamespace (GetGoroutines (scheduler s)) ns)
       (filterEventsForNamespace (GetEvents 100 (scheduler s)) ns)
       (GetMetrics now (scheduler s)) (updateSequence s))) s.

Definition sendInitialState : hpc := HRead "initialState".

(** The critical section of a create handler: [None] when the id is taken. *)
Definition insertPrim (cp : nat) (id : string) (o : object) (s : Server) : option (nat * Server) :=
  c ← heap s !! cp;
  if primExists c id then None
  else
    let a := length (objects s) in
    let s := set_objects (objects s ++ [o]) s in
    let '(ctx, s) := withCancel s in
    let c := setMap (kindOf o) (<[id:=a]> (mapOf (kindOf o) c)) c in
    let c := set_primCtxs (<[id:=ctx]> (primCtxs c)) c in
    Some (a, set_heap (<[cp:=c]> (heap s)) s).

Definition handler_step (now : Z) (conn : nat) (p : hpc) (s : Server) : option (hpc * Server) :=
  match p with
  | HCreate cp id name o =>
      match insertPrim cp id o s with
      | None => Some (fail conn ("primitive with ID already exists: " +:+ id) s)
      | Some (a, s) => Some (HSched id name (kindOf o) a, s)
      end
  | HSched id name k a =>
      o ← objects s !! a;
      Some (HMetrics id name k,
            set_scheduler (Scheduler.RegisterPrimitive now (internalID conn id s) k name (statsOf o) (scheduler s)) s)
  | HMetrics id name k =>
      let s := set_metricsCollector
                 (Metrics.RegisterPrimitive now (internalID conn id s) (showType k) name (metricsCollector s)) s in
      Some (if decide (k = TypeFairRWLock) then HReply (showType k +:+ " created") else HAudit id k, s)
  | HAudit id k =>
      Some (HReply (showType k +:+ " created"),
            logAudit now conn (auditEntry "primitive_created" id (showType k)) s)
  | HDelete cp id =>
      c ← heap s !! cp;
      if primExists c id then Some (HDeleteCtx cp id, set_heap (<[cp:=deleteAll id c]> (heap s)) s)
      else Some (fail conn ("Primitive not found: " +:+ id) s)
  | HDeleteCtx cp id =>
      c ← heap s !! cp;
      Some (HDeleteSched id,
            match primCtxs c !! id with
            | Some x => cancelCtx x (set_heap (<[cp:=set_primCtxs (delete id (primCtxs c)) c]> (heap s)) s)
            | None => s
            end)
  | HDeleteSched id =>
      Some (HDeleteMetrics id,
            set_scheduler (Scheduler.UnregisterPrimitive now (internalID conn id s) (scheduler s)) s)
  | HDeleteMetrics id =>
      Some (HDeleteAudit id,
            set_metricsCollector (Metrics.UnregisterPrimitive (internalID conn id s) (metricsCollector s)) s)
  | HDeleteAudit id =>
      Some (HReply "Primitive deleted", logAudit now conn (auditEntry "primitive_deleted" id "") s)
  | HReply text => Some (HDone, sendSuccess conn text s)
  | HRefresh => Some (handleRequestFullRefresh now conn s)
  | HRead ty =>
      Some (HSeed ty (filterPrimitivesForNamespace (GetPrimitives (scheduler s)) (namespaceForConn conn s)), s)
  | HSeed ty prims => Some (HSend ty prims, seedDeltaState conn prims s)
  | HSend ty prims => Some (HDone, sendState now conn ty prims s)
  | HDone => None
  end.
End Handlers.

(** ** Start-up

    The state [NewServerWithConfig] builds before it restores the snapshot;
    [None]: the histogram buckets are invalid and it panics.  A logger that
    cannot be opened is left out. *)
Definition newServer (now : Z) (c : Config) (r : osResults) (files : FS) : option (Server * FS) :=
  if negb (validateHistogramBuckets (HistogramBuckets c)) then None
  else
    let maxConns := if MaxConns c <=? 0 then 1000 else MaxConns c in
    let '(logger, files) :=
      if decide (AuditLogPath c <> "") then
        let '(x, files) := AuditLog.New r (AuditLogPath c) (AuditLogMaxBytes c) (AuditLogKeepFiles c) files in
        (match x with inr l => Some l | inl _ => None end, files)
      else (None, files) in
    Some (mkServer c (Scheduler.Start (NewScheduler now))
            (NewMetricsCollectorWithBuckets now (HistogramBuckets c))
            [] [] ∅ ∅ [] ∅ ∅ ∅ 0 0 0 0 0 0 0 maxConns 0 false false false 0 ∅ 0 0 logger [] [], files).

(** ** Authentication *)

Inductive httpReply := Unauthorized | Unavailable | BadRequest | UpgradeFailed.

Definition bearer : string := "Bearer ".

(** [strings.TrimPrefix] *)
Definition TrimPrefix (s p : string) : string :=
  match stripPrefix (bytesOf p) (bytesOf s) with Some r => ofBytes r | None => s end.

Section Sessions.
Context (validateJWT : Z -> string -> string -> jwtError + Claims).

(** The claims of a request with the header [authHeader], if the server uses
    tokens, with their role normalised. *)
Definition authenticate (now : Z) (authHeader : string) (s : Server)
    : (httpReply + option Claims) * Server :=
  if decide (JWTSecret (cfg s) <> "") then
    let token := TrimPrefix authHeader bearer in
    if decide (token = "" \/ token = authHeader) then
      (inl Unauthorized, set_authFailuresMalformed (add64 (authFailuresMalformed s) 1) s)
    else
      match validateJWT now token (JWTSecret (cfg s)) with
      | inl ErrExpired => (inl Unauthorized, set_authFailuresExpired (add64 (authFailuresExpired s) 1) s)
      | inl ErrSignature => (inl Unauthorized, set_authFailuresInvalid (add64 (authFailuresInvalid s) 1) s)
      | inl _ => (inl Unauthorized, set_authFailuresMalformed (add64 (authFailuresMalformed s) 1) s)
      | inr c => (inr (Some (mkClaims (Sub c) (normalizeRole (Role c) true) (Namespace c) (Iat c) (Exp c))), s)
      end
  else if decide (APIKey (cfg s) <> "") then
    let key := TrimPrefix authHeader bearer in
    if decide (key = "" \/ key = authHeader \/ key <> APIKey (cfg s)) then (inl Unauthorized, s)
    else (inr None, s)
  else (inr None, s).

(** ** A connection

    [SDrain] to [SAdd]: the tests before and after the upgrade, [SReg] the
    steps of [registerClient] and of setting the role, [SHandle] a handler in
    progress ([HRead] for the initial state), [SReady] waiting for the next
    message, [SUnreg] the steps of [unregisterClient]. *)
Inductive rpc := RClients | RWriteMu | RPrims | RState (cp : nat) (n : Z) | RDelta (cp : nat) | RMap (cp : nat) | RAudit | RRole.
Inductive upc := UClients | UWriteMu | UState | UDelta | UMap | UCount | UAudit.

Inductive spc :=
| SNone
| SDrain (claims : option Claims) (queryNs : string)
| SCap (claims : option Claims) (ns : string)
| SUpgrade (claims : option Claims) (ns : string)
| SAdd (claims : option Claims) (ns : string)
| SReg (claims : option Claims) (ns : string) (p : rpc)
| SReady
| SHandle (p : hpc)
| SUnreg (p : upc)
| SEnd.

Definition registerClient_step (now : Z) (conn : nat) (claims : option Claims) (ns : string) (p : rpc) (s : Server)
    : option rpc * Server :=
  match p with
  | RClients => (Some RWriteMu, set_clients (clients s ++ [conn]) s)
  | RWriteMu => (Some RPrims, set_writeMu ({[conn]} ∪ writeMu s) s)
  | RPrims =>
      let n := addU64 (connCounter s) 1 in
      let s := set_connCounter n s in
      let '(cp, s) := getOrCreateNamespacePrims ns s in (Some (RState cp n), s)
  | RState cp n =>
      let '(ctx, s) := withCancel s in
      let cid := "conn-" +:+ pretty n in
      (Some (RDelta cp),
       set_connStates (<[conn:=mkConnState [] [] cid "" RoleAdmin ns ctx]> (connStates s)) s)
  | RDelta cp => (Some (RMap cp), set_deltaStates (<[conn:=mkDelta ∅ None]> (deltaStates s)) s)
  | RMap cp => (Some RAudit, set_connPrimsMap (<[conn:=cp]> (connPrimsMap s)) s)
  | RAudit => (Some RRole, logAudit now conn (mkEntry now "conn_opened" "" "" "" "" "" 0 "success" 0 "") s)
  | RRole =>
      (None,
       match claims, connStates s !! conn with
       | Some c, Some cs =>
           set_connStates
             (<[conn:=mkConnState (msgTimes cs) (opTimes cs) (connID cs) (Sub c) (Role c) (namespace cs) (opCtx cs)]>
                (connStates s)) s
       | _, _ => s
       end)
  end.

Definition unregisterClient_step (now : Z) (conn : nat) (p : upc) (s : Server) : option upc * Server :=
  match p with
  | UClients => (Some UWriteMu, set_clients (filter (fun c => c <> conn) (clients s)) s)
  | UWriteMu => (Some UState, set_writeMu (writeMu s ∖ {[conn]}) s)
  | UState =>
      let s := match connStates s !! conn with Some cs => cancelCtx (opCtx cs) s | None => s end in
      (Some UDelta, set_connStates (delete conn (connStates s)) s)
  | UDelta => (Some UMap, set_deltaStates (delete conn (deltaStates s)) s)
  | UMap => (Some UCount, set_connPrimsMap (delete conn (connPrimsMap s)) s)
  | UCount => (Some UAudit, set_activeConns (add64 (activeConns s) (-1)) s)
  | UAudit => (None, logAudit now conn (mkEntry now "conn_closed" "" "" "" "" "" 0 "success" 0 "") s)
  end.

(** The rate limits at the head of the read loop: [None] when the message may
    be handled, the error otherwise. *)
Definition rateLimited (now : Z) (conn : nat) (ty : string) (s : Server) : option string * Server :=
  match connStates s !! conn with
  | None => (None, s)
  | Some cs =>
      let '(ok, times) := checkRateLimit now (msgTimes cs) in
      let cs := mkConnState times (opTimes cs) (connID cs) (user cs) (role cs) (namespace cs) (opCtx cs) in
      let s := set_connStates (<[conn:=cs]> (connStates s)) s in
      if negb ok then
        (Some "rate limit exceeded: max 200 messages/second", set_msgRateLimitHits (add64 (msgRateLimitHits s) 1) s)
      else if decide (ty = "primitiveOp") then
        let '(ok, times) := checkOpRateLimit now (opTimes cs) in
        let cs := mkConnState (msgTimes cs) times (connID cs) (user cs) (role cs) (namespace cs) (opCtx cs) in
        let s := set_connStates (<[conn:=cs]> (connStates s)) s in
        if negb ok then
          (Some "operation rate limit exceeded: max 50 ops/second per connection",
           set_opRateLimitHits (add64 (opRateLimitHits s) 1) s)
        else (None, s)
      else (None, s)
  end.

Context {Raw : Type} (codec : Codec Raw).
Context (statsOf : object -> Z) (primitiveSnapshotKey : PrimitiveInfo -> string).

(** What happens to a connection from outside: a request arrives, a message
    arrives, the peer closes. *)
Inductive request :=
| Connect (authHeader queryNs : string)
| Receive (ty : string) (raw : Raw)
| Close.

Record session := mkSession { sconn : nat; spoint : spc; inbox : option request; arrived : Z }.

Definition at_ (p : spc) (th : session) : session := mkSession (sconn th) p None (arrived th).

(** A message begins to be handled. *)
Definition receive (now : Z) (conn : nat) (ty : string) (raw : Raw) (s : Server) : hpc * Server :=
  let '(e, s) := rateLimited now conn ty s in
  match e with
  | Some err => fail conn err s
  | None => handleMessage codec now conn ty raw s
  end.

Definition afterHandler (p : hpc) : spc := match p with HDone => SReady | _ => SHandle p end.

(** [alt]: the upgrade fails. *)
Definition session_step (o : oracle) (th : session) (s : Server) : option (session * Server) :=
  let conn := sconn th in
  let now := clk o in
  match spoint th, inbox th with
  | SNone, Some (Connect authHeader queryNs) =>
      let '(r, s) := authenticate now authHeader s in
      Some (at_ (match r with inl _ => SEnd | inr claims => SDrain claims queryNs end) th, s)
  | SDrain claims queryNs, _ =>
      if draining s then Some (at_ SEnd th, s)
      else match extractNamespace (cfg s) (Namespace <$> claims) queryNs with
           | inl _ => Some (at_ SEnd th, s)
           | inr ns => Some (at_ (SCap claims ns) th, s)
           end
  | SCap claims ns, _ =>
      Some (at_ (if maxConns s <=? activeConns s then SEnd else SUpgrade claims ns) th, s)
  | SUpgrade claims ns, _ => Some (at_ (if alt o then SEnd else SAdd claims ns) th, s)
  | SAdd claims ns, _ =>
      Some (at_ (SReg claims ns RClients) th, set_activeConns (add64 (activeConns s) 1) s)
  | SReg claims ns p, _ =>
      let '(n, s) := registerClient_step now conn claims ns p s in
      Some (at_ (match n with Some p => SReg claims ns p | None => SHandle sendInitialState end) th, s)
  | SReady, Some (Receive ty raw) =>
      let '(p, s) := receive now conn ty raw s in Some (at_ (afterHandler p) th, s)
  | SReady, Some Close => Some (at_ (SUnreg UClients) th, s)
  | SHandle p, _ =>
      x ← handler_step statsOf primitiveSnapshotKey now conn p s;
      Some (at_ (afterHandler x.1) th, x.2)
  | SUnreg p, _ =>
      let '(n, s) := unregisterClient_step now conn p s in
      Some (at_ (match n with Some p => SUnreg p | None => SEnd end) th, s)
  | _, _ => None
  end.

Definition scall (r : request) (now : Z) (th : session) : option session :=
  match inbox th, spoint th, r with
  | None, SNone, Connect _ _ | None, SReady, Receive _ _ | None, SReady, Close =>
      Some (mkSession (sconn th) (spoint th) (Some r) now)
  | _, _, _ => None
  end.

Definition server : machine Server session request := Machine scall session_step (fun _ s => s).

Definition sessions (k : nat) : list session := (fun i => mkSession i SNone None 0) <$> seq 0 k.
End Sessions.
Arguments Connect {Raw} _ _.
Arguments Receive {Raw} _ _.
Arguments Close {Raw}.
