(* ===== verification/Registry.v ===== *)
(** * The registries of the server agree (web/server.go)

    A primitive is recorded in four places: the map of its kind in the
    [connPrims] of its namespace, the contexts [primCtxs] beside it, the
    scheduler and the metrics collector.  This file shows what holds of the
    four for all interleavings of connections that create and delete
    primitives: one kind per id always, and agreement as long as no two
    connections are in the middle of handlers for the same id. *)

From Stdlib Require Import ZArith Lia.
From stdpp Require Import base list gmap strings.
From S2P Require Import Prelude.
From S2P Require Import Auth.
From S2P Require Import AuditLog.
From S2P Require Import Scheduler.
From S2P Require Import Metrics.
From S2P Require Import Access.
From S2P Require Import Server.

#[local] Open Scope Z_scope.

(** * The maps of a namespace *)

Lemma mapOf_setMap k k' m c : mapOf k (setMap k' m c) = if decide (k = k') then m else mapOf k c.
Proof. by destruct k, k'. Qed.

Lemma mapOf_set_primCtxs k m c : mapOf k (set_primCtxs m c) = mapOf k c.
Proof. by destruct k. Qed.

Lemma mapOf_deleteAll k id c : mapOf k (deleteAll id c) = delete id (mapOf k c).
Proof. by destruct k. Qed.

Lemma primCtxs_setMap k m c : primCtxs (setMap k m c) = primCtxs c.
Proof. by destruct k. Qed.

Definition kinds : list Scheduler.PrimitiveType :=
  [TypeRWLock; TypeFairRWLock; TypeSemaphore; TypeMutex; TypeCondVar; TypeBarrier; TypeWaitGroup; TypeOnce;
   TypeSingleflight].

Lemma elem_of_kinds k : k ∈ kinds.
Proof. unfold kinds. destruct k; set_solver. Qed.

(** The kind under which an id is found. *)
Definition kindIn (c : connPrims) (id : string) : option Scheduler.PrimitiveType :=
  head (filter (fun k => is_Some (mapOf k c !! id)) kinds).

Lemma head_filter_None {A} (P : A -> Prop) {Pdec : forall x, Decision (P x)} (l : list A) :
  head (filter P l) = None <-> forall x, x ∈ l -> ~ P x.
Proof.
  induction l as [|x l IH]; [split; [by intros _ y ?%not_elem_of_nil|done]|].
  rewrite filter_cons. case_decide as Hx; simpl.
  - split; [done|]. intros H. by destruct (H x (list_elem_of_here _ _)).
  - rewrite IH. split; [intros H y [->|Hy]%elem_of_cons; auto|]. intros H y Hy. apply H. by right.
Qed.

Lemma head_filter_Some {A} (P : A -> Prop) {Pdec : forall x, Decision (P x)} (l : list A) x :
  head (filter P l) = Some x -> P x.
Proof.
  destruct (filter P l) as [|y l'] eqn:E; simpl; [done|]. intros [= ->].
  assert (H : x ∈ filter P l) by (rewrite E; left). by apply list_elem_of_filter in H as [? _].
Qed.

Lemma kindIn_None c id : kindIn c id = None <-> forall k, mapOf k c !! id = None.
Proof.
  unfold kindIn. rewrite head_filter_None. split; intros H k.
  - apply eq_None_not_Some, H, elem_of_kinds.
  - intros _ [a Ha]. by rewrite H in Ha.
Qed.

Lemma primExists_kindIn c id : primExists c id = bool_decide (is_Some (kindIn c id)).
Proof.
  unfold primExists.
  destruct (kindIn c id) as [k|] eqn:E.
  - rewrite (bool_decide_eq_true_2 (is_Some (Some k))) by eauto.
    apply head_filter_Some in E. destruct k; simpl in E; rewrite (bool_decide_eq_true_2 _ E), ?orb_true_r; done.
  - rewrite (bool_decide_eq_false_2 (is_Some None)) by (by intros [? ?]).
    pose proof (proj1 (kindIn_None c id) E) as H.
    rewrite (H TypeRWLock : rwlocks c !! id = None), (H TypeFairRWLock : fairrwlocks c !! id = None),
      (H TypeSemaphore : semaphores c !! id = None), (H TypeMutex : mutexes c !! id = None),
      (H TypeCondVar : condvars c !! id = None), (H TypeBarrier : barriers c !! id = None),
      (H TypeWaitGroup : waitgroups c !! id = None), (H TypeOnce : onces c !! id = None),
      (H TypeSingleflight : singleflights c !! id = None). done.
Qed.

Lemma kindIn_ext c c' id id' :
  (forall k, is_Some (mapOf k c !! id) <-> is_Some (mapOf k c' !! id')) -> kindIn c id = kindIn c' id'.
Proof.
  intros H. unfold kindIn. f_equal. induction kinds as [|k l IH]; [done|].
  rewrite !filter_cons. destruct (decide (is_Some (mapOf k c !! id))) as [Hk|Hk].
  - rewrite decide_True by (by apply H). by rewrite IH.
  - rewrite decide_False by (by rewrite <- H). done.
Qed.

Lemma kindIn_insert c k a id id' :
  kindIn c id = None ->
  kindIn (setMap k (<[id:=a]> (mapOf k c)) c) id' = if decide (id' = id) then Some k else kindIn c id'.
Proof.
  intros Hn. case_decide as E.
  - subst. pose proof (proj1 (kindIn_None c id) Hn) as H.
    assert (Hf : forall k', is_Some (mapOf k' (setMap k (<[id:=a]> (mapOf k c)) c) !! id) <-> k' = k).
    { intros k'. rewrite mapOf_setMap. case_decide as Ek; [subst; rewrite lookup_insert_eq; split; eauto|].
      rewrite H. split; [by intros [? ?]|done]. }
    destruct (kindIn (setMap k (<[id:=a]> (mapOf k c)) c) id) as [k'|] eqn:Ek.
    + apply head_filter_Some, Hf in Ek. by subst.
    + pose proof (proj1 (kindIn_None _ _) Ek k) as Hk. by rewrite mapOf_setMap, decide_True, lookup_insert_eq in Hk.
  - apply kindIn_ext. intros k'. rewrite mapOf_setMap. case_decide; [subst|done].
    by rewrite lookup_insert_ne by congruence.
Qed.

Lemma kindIn_deleteAll c id id' :
  kindIn (deleteAll id c) id' = if decide (id' = id) then None else kindIn c id'.
Proof.
  case_decide as E.
  - subst. apply kindIn_None. intros k. rewrite mapOf_deleteAll. apply lookup_delete_eq.
  - apply kindIn_ext. intros k. by rewrite mapOf_deleteAll, lookup_delete_ne by congruence.
Qed.

Lemma kindIn_set_primCtxs m c id : kindIn (set_primCtxs m c) id = kindIn c id.
Proof. apply kindIn_ext. intros k. by rewrite mapOf_set_primCtxs. Qed.

Lemma kindIn_new id : kindIn newConnPrims id = None.
Proof. apply kindIn_None. by intros []. Qed.

(** * What the steps leave alone *)

(** Nothing that the registries consist of, and no connection's namespace. *)
Record sameReg (s s' : Server) : Prop := {
  same_cfg : cfg s' = cfg s;
  same_heap : heap s' = heap s;
  same_objects : objects s' = objects s;
  same_namespaces : namespaces s' = namespaces s;
  same_connPrims : connPrimsMap s' = connPrimsMap s;
  same_scheduler : scheduler s' = scheduler s;
  same_metrics : metricsCollector s' = metricsCollector s;
  same_conns : forall conn, namespace <$> connStates s' !! conn = namespace <$> connStates s !! conn
}.

#[export] Instance sameReg_preorder : PreOrder sameReg.
Proof.
  split; [by split|]. intros s1 s2 s3 [] []. split; congruence.
Qed.

Lemma sendToClient_same conn m s : sameReg s (sendToClient conn m s).
Proof. unfold sendToClient. by case_decide. Qed.

Lemma logAudit_same now conn e s : sameReg s (logAudit now conn e s).
Proof. unfold logAudit. by destruct (auditLogger s). Qed.

Lemma fail_same conn t s : sameReg s (fail conn t s).2.
Proof. apply sendToClient_same. Qed.

Create HintDb server.
#[export] Hint Resolve sendToClient_same logAudit_same fail_same : server.

Lemma update_conn_ns (m : gmap nat connState) conn cs cs' :
  m !! conn = Some cs -> namespace cs' = namespace cs ->
  forall c, namespace <$> <[conn:=cs']> m !! c = namespace <$> m !! c.
Proof.
  intros H E c. destruct (decide (c = conn)) as [->|].
  - by rewrite lookup_insert_eq, H; simpl; rewrite E.
  - by rewrite lookup_insert_ne.
Qed.

Lemma set_connStates_same s conn cs cs' :
  connStates s !! conn = Some cs -> namespace cs' = namespace cs ->
  sameReg s (set_connStates (<[conn:=cs']> (connStates s)) s).
Proof. intros H E. split; try done. simpl. by apply (update_conn_ns _ _ cs). Qed.

Lemma rateLimited_same now conn ty s : sameReg s (rateLimited now conn ty s).2.
Proof.
  unfold rateLimited. destruct (connStates s !! conn) as [cs|] eqn:E; [|done]. simpl.
  set (cs1 := mkConnState _ (opTimes cs) _ _ _ _ _).
  set (s1 := set_connStates (<[conn:=cs1]> (connStates s)) s).
  assert (H1 : sameReg s s1) by (by apply (set_connStates_same s conn cs)).
  destruct (negb _); [simpl; etrans; [exact H1|by split]|].
  case_decide; [|done]. simpl.
  set (cs2 := mkConnState _ _ _ _ _ _ _).
  assert (H2 : sameReg s (set_connStates (<[conn:=cs2]> (connStates s1)) s1)).
  { etrans; [exact H1|]. apply (set_connStates_same s1 conn cs1); [apply lookup_insert_eq|done]. }
  destruct (negb _); [simpl; etrans; [exact H2|by split]|done].
Qed.

Section Frames.
Context {Raw : Type} (codec : Codec Raw).

(** Beginning to handle a message changes none of the registries. *)
Lemma create_same conn id name o s : sameReg s (create conn id name o s).2.
Proof. unfold create. destruct (connPrimsFor conn s); auto with server. done. Qed.

Lemma validated_same conn id name s k : sameReg s k.2 -> sameReg s (validated conn id name s k).2.
Proof. unfold validated. intros. repeat case_decide; auto with server. Qed.

Lemma createBasic_same o conn raw s : sameReg s (createBasic codec o conn raw s).2.
Proof.
  unfold createBasic. destruct (decodeBasic codec raw) as [[id name]|]; auto with server.
  apply validated_same, create_same.
Qed.

Lemma handleMessage_same now conn ty raw s : sameReg s (handleMessage codec now conn ty raw s).2.
Proof.
  unfold handleMessage. destruct (authorizeMessage _ ty); auto with server.
  repeat (case_decide; [try apply createBasic_same|]); auto with server.
  - unfold handleCreateSemaphore. destruct (decodeCapacity codec raw) as [[[id name] n]|]; auto with server.
    apply validated_same. destruct (n <=? 0); auto with server. apply create_same.
  - unfold handleCreateBarrier. destruct (decodeParties codec raw) as [[[id name] n]|]; auto with server.
    apply validated_same. destruct (n <=? 0); auto with server. apply create_same.
  - unfold handleDeletePrimitive. destruct (decodeID codec raw); auto with server.
    destruct (connPrimsFor conn s); auto with server. done.
  - apply sendToClient_same.
  - unfold startOp. destruct (decodeOp codec raw); auto with server. by split.
  - done.
Qed.

Lemma receive_same now conn ty raw s : sameReg s (receive codec now conn ty raw s).2.
Proof.
  unfold receive. pose proof (rateLimited_same now conn ty s) as H.
  destruct (rateLimited now conn ty s) as [[e|] s1]; simpl in *.
  - etrans; [exact H|apply fail_same].
  - etrans; [exact H|apply handleMessage_same].
Qed.
End Frames.

Lemma authenticate_same V now h s : sameReg s (authenticate V now h s).2.
Proof.
  unfold authenticate. case_decide; [|by repeat case_decide]. case_decide; [by split|].
  destruct (V _ _ _) as [[]|]; by split.
Qed.

(** The program points that touch no registry. *)
Definition reads (p : hpc) : bool :=
  match p with
  | HAudit _ _ | HDeleteAudit _ | HReply _ | HRefresh | HRead _ | HSeed _ _ | HSend _ _ | HDone => true
  | _ => false
  end.

Section Steps.
Context (statsOf : object -> Z) (key : PrimitiveInfo -> string).

Lemma handler_reads now conn p s p' s' :
  reads p = true -> handler_step statsOf key now conn p s = Some (p', s') -> sameReg s s' /\ reads p' = true.
Proof.
  intros Hp Hs. destruct p; simpl in Hp, Hs; try done; simplify_eq.
  - split; [apply logAudit_same|done].
  - split; [apply logAudit_same|done].
  - split; [apply sendToClient_same|done].
  - unfold handleRequestFullRefresh, fail in Hs.
    destruct (lastFullRefreshAt _) as [t|]; [destruct (now - t <? Second)|]; simplify_eq; try (by split).
    split; [|done]. etrans; [|apply sendToClient_same]. by split.
  - done.
  - by split.
  - split; [apply sendToClient_same|done].
Qed.

(** * One kind per id *)

(** Every entry of a map is an object of the kind of the map, and its id is
    in no other map. *)
Definition Typed (s : Server) : Prop :=
  forall p c k id a, heap s !! p = Some c -> mapOf k c !! id = Some a ->
    kindOf <$> objects s !! a = Some k /\ kindIn c id = Some k.

Lemma Typed_same s s' : sameReg s s' -> Typed s -> Typed s'.
Proof. intros [] H p c k id a. rewrite same_heap0, same_objects0. apply H. Qed.

Lemma Typed_frame s s' : heap s' = heap s -> objects s' = objects s -> Typed s -> Typed s'.
Proof. intros E1 E2 H p c k id a. rewrite E1, E2. apply H. Qed.

Lemma Typed_heap s s' p c c' :
  Typed s -> heap s !! p = Some c -> heap s' = <[p:=c']> (heap s) -> objects s `prefix_of` objects s' ->
  (forall k id a, mapOf k c' !! id = Some a -> kindOf <$> objects s' !! a = Some k /\ kindIn c' id = Some k) ->
  Typed s'.
Proof.
  intros HT Hp Eh [l Eo] Hc q d k id a. rewrite Eh.
  intros [[-> [-> _]]|[_ Hd]]%list_lookup_insert_Some Ha; [by apply Hc|].
  destruct (HT q d k id a Hd Ha) as [H1 H2]. split; [|done].
  rewrite Eo. destruct (objects s !! a) as [o|] eqn:Ea; [|done]. by erewrite lookup_app_l_Some.
Qed.

Lemma Typed_insert cp id o s a s' : Typed s -> insertPrim cp id o s = Some (a, s') -> Typed s'.
Proof.
  intros HT H. unfold insertPrim in H. apply bind_Some in H as (c & Hc & H).
  rewrite primExists_kindIn in H. case_bool_decide as Hn; [done|]. simpl in H. simplify_eq.
  apply eq_None_not_Some in Hn.
  eapply Typed_heap; [exact HT|exact Hc|done|by eexists|]. simpl.
  intros k id' a' Ha. rewrite mapOf_set_primCtxs, mapOf_setMap in Ha.
  rewrite kindIn_set_primCtxs, kindIn_insert by done. case_decide as Ek.
  - subst k. destruct (decide (id' = id)) as [->|Hne].
    + rewrite lookup_insert_eq in Ha. injection Ha as <-. by rewrite list_lookup_middle.
    + rewrite lookup_insert_ne in Ha by done. destruct (HT cp c _ id' a' Hc Ha) as [H1 H2]. split; [|done].
      destruct (objects s !! a') as [o'|] eqn:Eo; [|done]. by erewrite lookup_app_l_Some.
  - destruct (HT cp c k id' a' Hc Ha) as [H1 H2]. split.
    + destruct (objects s !! a') as [o'|] eqn:Eo; [|done]. by erewrite lookup_app_l_Some.
    + case_decide; [|done]. subst. congruence.
Qed.

Lemma Typed_handler now conn p s p' s' :
  Typed s -> handler_step statsOf key now conn p s = Some (p', s') -> Typed s'.
Proof.
  intros HT Hs. destruct (reads p) eqn:Hr.
  { destruct (handler_reads now conn p s p' s' Hr Hs) as [H _]. by apply (Typed_same s). }
  destruct p as [cp id name o|id name k a|id name k| |cp id|cp id|id|id| | | | | | |]; try done; simpl in Hs.
  - destruct (insertPrim cp id o s) as [[a s1]|] eqn:E.
    + injection Hs as <- <-. by eapply Typed_insert.
    + injection Hs as <- <-. eapply Typed_same; [apply sendToClient_same|done].
  - apply bind_Some in Hs as (o & _ & Hs). injection Hs as <- <-. by apply (Typed_frame s).
  - injection Hs as <- <-. by apply (Typed_frame s).
  - apply bind_Some in Hs as (c & Hc & Hs). destruct (primExists c id).
    + injection Hs as <- <-. eapply Typed_heap; [exact HT|exact Hc|done|done|].
      intros k id' a. rewrite mapOf_deleteAll, lookup_delete_Some. intros [Hne Ha]. simpl.
      rewrite kindIn_deleteAll, decide_False by done. by eapply HT.
    + injection Hs as <- <-. eapply Typed_same; [apply sendToClient_same|done].
  - apply bind_Some in Hs as (c & Hc & Hs). injection Hs as <- <-.
    destruct (primCtxs c !! id) as [x|]; [|done].
    eapply Typed_heap; [exact HT|exact Hc|done|done|]. intros k id' a. rewrite mapOf_set_primCtxs. simpl.
    rewrite kindIn_set_primCtxs. by eapply HT.
  - injection Hs as <- <-. by apply (Typed_frame s).
  - injection Hs as <- <-. by apply (Typed_frame s).
Qed.

Lemma Typed_register now conn claims ns p s :
  Typed s -> Typed (registerClient_step now conn claims ns p s).2.
Proof.
  intros HT. destruct p as [| | |cp n|cp|cp| |]; simpl.
  - by apply (Typed_frame s).
  - by apply (Typed_frame s).
  - unfold getOrCreateNamespacePrims. destruct (namespaces _ !! ns); simpl; [by apply (Typed_frame s)|].
    intros p c k id a. simpl. intros [Hp|[_ [_ <-]%list_lookup_singleton_Some]]%lookup_app_Some; [exact (HT p c k id a Hp)|].
    by destruct k.
  - by apply (Typed_frame s).
  - by apply (Typed_frame s).
  - by apply (Typed_frame s).
  - eapply Typed_same; [apply logAudit_same|done].
  - destruct claims; [|done]. destruct (connStates s !! conn); [|done]. by apply (Typed_frame s).
Qed.
End Steps.

Section Typing.
Context (V : Z -> string -> string -> jwtError + Claims) {Raw : Type} (codec : Codec Raw).
Context (statsOf : object -> Z) (key : PrimitiveInfo -> string).

Lemma unregister_frame now conn p s :
  let s' := (unregisterClient_step now conn p s).2 in
  heap s' = heap s /\ objects s' = objects s /\ namespaces s' = namespaces s /\
  scheduler s' = scheduler s /\ metricsCollector s' = metricsCollector s /\ cfg s' = cfg s /\
  (forall c, c <> conn -> connStates s' !! c = connStates s !! c /\ connPrimsMap s' !! c = connPrimsMap s !! c).
Proof.
  destruct p; simpl; try (by split_and!).
  - destruct (connStates s !! conn); split_and!; try done; intros; simpl; by rewrite lookup_delete_ne.
  - split_and!; try done. intros. simpl. by rewrite lookup_delete_ne.
  - unfold logAudit. by destruct (auditLogger s).
Qed.

Lemma Typed_session o th s th' s' :
  Typed s -> session_step V codec statsOf key o th s = Some (th', s') -> Typed s'.
Proof.
  intros HT. unfold session_step.
  destruct (spoint th) as [|claims q|claims ns|claims ns|claims ns|claims ns p| |p|p|];
    try (destruct (inbox th) as [[h q'|ty raw|]|]; done); try done.
  - destruct (inbox th) as [[h q'|ty raw|]|]; try done.
    pose proof (authenticate_same V (clk o) h s) as H. destruct (authenticate _ _ _ _) as [r s1].
    intros [= <- <-]. by apply (Typed_same s).
  - destruct (draining s); [by intros [= <- <-]|]. destruct (extractNamespace _ _ _); by intros [= <- <-].
  - by intros [= <- <-].
  - by intros [= <- <-].
  - intros [= <- <-]. by apply (Typed_frame s).
  - pose proof (Typed_register (clk o) (sconn th) claims ns p s HT) as H.
    destruct (registerClient_step _ _ _ _ _ _) as [n s1]. by intros [= <- <-].
  - destruct (inbox th) as [[h q'|ty raw|]|]; try done; [|by intros [= <- <-]].
    pose proof (receive_same codec (clk o) (sconn th) ty raw s) as H. destruct (receive _ _ _ _ _ _) as [p s1].
    intros [= <- <-]. by apply (Typed_same s).
  - intros ([p' s1] & H & [= <- <-])%bind_Some. by eapply Typed_handler.
  - pose proof (unregister_frame (clk o) (sconn th) p s) as (E1 & E2 & _).
    destruct (unregisterClient_step _ _ _ _) as [n s1]. intros [= <- <-]. by apply (Typed_frame s).
Qed.

Lemma Typed_reach now c r files s0 files' n s ths :
  newServer now c r files = Some (s0, files') ->
  reach (server V codec statsOf key) any_label (s0, sessions n) (s, ths) -> Typed s.
Proof.
  intros HN. apply (reach_invariant (server V codec statsOf key) any_label (fun x => Typed x.1)).
  - unfold newServer in HN. destruct (negb _); [done|]. destruct (decide (AuditLogPath c <> "")).
    + destruct (AuditLog.New _ _ _ _ _) as [x f]. injection HN as <- <-. by intros p' c' k id' a.
    + injection HN as <- <-. by intros p' c' k id' a.
  - done.
  - intros sh l t th th' sh' o HI _ _ Hr. simpl in *. by eapply Typed_session.
  - done.
Qed.

End Typing.

(** * Agreement *)

Definition validNs (ns : string) : Prop := ns <> "" /\ noSlash ns.

Lemma default_valid : validNs "default".
Proof. split; [done|]. unfold noSlash. by_decide. Qed.

Definition cpOf (s : Server) (ns : string) : connPrims :=
  default newConnPrims (p ← namespaces s !! ns; heap s !! p).

(** What the four registries say of an id: the kind of the map it is in, the
    kind the scheduler has for it, whether the metrics have it, whether it
    has a context. *)
Definition view : Type := option Scheduler.PrimitiveType * option Scheduler.PrimitiveType * bool * bool.

Definition viewOf (s : Server) (ns id : string) : view :=
  (kindIn (cpOf s ns) id,
   pType <$> Scheduler.primitives (scheduler s) !! qualifiedPrimID ns id,
   bool_decide (is_Some (primitiveMetrics (metricsCollector s) !! qualifiedPrimID ns id)),
   bool_decide (is_Some (primCtxs (cpOf s ns) !! id))).

(** How far a handler has come with an id. *)
Inductive pend := PSched (k : Scheduler.PrimitiveType) | PMetrics (k : Scheduler.PrimitiveType) | PCtx | PUnsched | PUnmetrics.

Definition phase (p : hpc) : option (string * pend) :=
  match p with
  | HSched id _ k _ => Some (id, PSched k)
  | HMetrics id _ k => Some (id, PMetrics k)
  | HDeleteCtx _ id => Some (id, PCtx)
  | HDeleteSched id => Some (id, PUnsched)
  | HDeleteMetrics id => Some (id, PUnmetrics)
  | _ => None
  end.

Definition isSome {A} (o : option A) : bool := match o with Some _ => true | None => false end.

(** Agreement, and what it is in the middle of a handler. *)
Definition agree (ko : option Scheduler.PrimitiveType) : view := (ko, ko, isSome ko, isSome ko).

Definition allowed (pd : option pend) (v : view) : Prop :=
  match pd with
  | None => exists ko, v = agree ko
  | Some (PSched k) => v = (Some k, None, false, true)
  | Some (PMetrics k) => v = (Some k, Some k, false, true)
  | Some PCtx => exists k, v = (None, Some k, true, true)
  | Some PUnsched => exists k, v = (None, Some k, true, false)
  | Some PUnmetrics => v = (None, None, true, false)
  end.

Section Agreement.
Context (V : Z -> string -> string -> jwtError + Claims) {Raw : Type} (codec : Codec Raw).
Context (statsOf : object -> Z) (key : PrimitiveInfo -> string).
Abbreviation session := (@session Raw).

Definition pendingOf (s : Server) (th : session) : option (string * string * pend) :=
  match spoint th with
  | SHandle p => (fun x => (namespaceForConn (sconn th) s, x.1, x.2)) <$> phase p
  | _ => None
  end.

(** No two connections are in the middle of handlers for one id. *)
Definition noOverlap (c : Server * list session) : Prop :=
  forall t1 t2 th1 th2 ns id pd1 pd2,
    c.2 !! t1 = Some th1 -> c.2 !! t2 = Some th2 ->
    pendingOf c.1 th1 = Some (ns, id, pd1) -> pendingOf c.1 th2 = Some (ns, id, pd2) -> t1 = t2.

(** Executions in which that is always so. *)
Inductive calm (c0 : Server * list session) : Server * list session -> Prop :=
| calm_refl : calm c0 c0
| calm_step l c c' :
    calm c0 c -> exec (server V codec statsOf key) l c = Some c' -> noOverlap c' -> calm c0 c'.

(** ** The invariant *)

Definition nsOk (s : Server) : Prop :=
  (forall ns p, namespaces s !! ns = Some p -> validNs ns /\ (p < length (heap s))%nat) /\
  (forall ns1 ns2 p, namespaces s !! ns1 = Some p -> namespaces s !! ns2 = Some p -> ns1 = ns2).

(** The connection is registered, with the primitives of its namespace. *)
Definition linkedTo (conn : nat) (s : Server) (ns : string) (cp : nat) : Prop :=
  namespace <$> connStates s !! conn = Some ns /\ namespaces s !! ns = Some cp /\ connPrimsMap s !! conn = Some cp.
Definition linked (conn : nat) (s : Server) : Prop := exists ns cp, linkedTo conn s ns cp.

Definition cpArg (p : hpc) : option nat :=
  match p with HCreate cp _ _ _ | HDelete cp _ | HDeleteCtx cp _ => Some cp | _ => None end.

Definition pointOk (conn : nat) (s : Server) (p : spc) : Prop :=
  match p with
  | SCap _ ns | SUpgrade _ ns | SAdd _ ns => validNs ns
  | SReg _ ns r =>
      validNs ns /\
      match r with
      | RClients | RWriteMu | RPrims => True
      | RState cp _ => namespaces s !! ns = Some cp
      | RDelta cp | RMap cp => namespaces s !! ns = Some cp /\ namespace <$> connStates s !! conn = Some ns
      | RAudit | RRole => linked conn s
      end
  | SReady => linked conn s
  | SHandle p => linked conn s /\ forall cp, cpArg p = Some cp -> connPrimsMap s !! conn = Some cp
  | _ => True
  end.

Record RegInv (c : Server * list session) : Prop := {
  ri_ns : nsOk c.1;
  ri_point : forall t th, c.2 !! t = Some th -> sconn th = t /\ pointOk t c.1 (spoint th);
  ri_pend : forall t th ns id pd,
    c.2 !! t = Some th -> pendingOf c.1 th = Some (ns, id, pd) -> allowed (Some pd) (viewOf c.1 ns id);
  ri_rest : forall ns id,
    validNs ns -> (forall t th pd, c.2 !! t = Some th -> pendingOf c.1 th <> Some (ns, id, pd)) ->
    allowed None (viewOf c.1 ns id)
}.

(** What one step of connection [t] does to the registries: it concerns one
    id at most. *)
Record stepReg (t : nat) (s s' : Server) (th th' : session) (ns0 id0 : string) : Prop := {
  sr_conn : sconn th' = sconn th;
  sr_cfg : cfg s' = cfg s;
  sr_ns : nsOk s';
  sr_mono : forall ns p, namespaces s !! ns = Some p -> namespaces s' !! ns = Some p;
  sr_others : forall c, c <> t ->
    namespace <$> connStates s' !! c = namespace <$> connStates s !! c /\ connPrimsMap s' !! c = connPrimsMap s !! c;
  sr_point : pointOk t s' (spoint th');
  sr_valid : validNs ns0;
  sr_view : forall ns id, validNs ns -> (ns, id) <> (ns0, id0) -> viewOf s' ns id = viewOf s ns id;
  sr_pend : forall k pd, pendingOf s th = Some (k, pd) -> k = (ns0, id0);
  sr_pend' : forall k pd, pendingOf s' th' = Some (k, pd) -> k = (ns0, id0);
  sr_allowed : allowed (snd <$> pendingOf s th) (viewOf s ns0 id0) ->
    allowed (snd <$> pendingOf s' th') (viewOf s' ns0 id0);
  sr_idle : pendingOf s th = None -> pendingOf s' th' = None -> viewOf s' ns0 id0 = viewOf s ns0 id0
}.

Lemma namespaceForConn_same conn s s' :
  cfg s' = cfg s -> namespace <$> connStates s' !! conn = namespace <$> connStates s !! conn ->
  namespaceForConn conn s' = namespaceForConn conn s.
Proof.
  intros Ec E. unfold namespaceForConn. rewrite Ec.
  destruct (connStates s' !! conn), (connStates s !! conn); simplify_eq/=; try done. by rewrite E.
Qed.

Lemma pointOk_mono conn s s' p :
  (forall ns q, namespaces s !! ns = Some q -> namespaces s' !! ns = Some q) ->
  namespace <$> connStates s' !! conn = namespace <$> connStates s !! conn ->
  connPrimsMap s' !! conn = connPrimsMap s !! conn ->
  pointOk conn s p -> pointOk conn s' p.
Proof.
  intros Hm E1 E2. assert (Hl : linked conn s -> linked conn s').
  { intros (ns & cp & H1 & H2 & H3). exists ns, cp. split; [by rewrite E1|]. split; [by apply Hm|by rewrite E2]. }
  destruct p as [| | | | |claims ns r| |p| |]; simpl; try done; auto.
  - destruct r; rewrite ?E1; naive_solver.
  - intros [H1 H2]. split; [auto|]. intros cp Hc. rewrite E2. auto.
Qed.

Lemma linked_namespace conn s ns cp : nsOk s -> linkedTo conn s ns cp -> namespaceForConn conn s = ns /\ validNs ns.
Proof.
  intros [Hn _] (H1 & H2 & _). destruct (Hn ns cp H2) as [[Hne Hs] _]. split; [|done].
  unfold namespaceForConn. destruct (connStates s !! conn) as [cs|]; simplify_eq/=. by rewrite decide_True.
Qed.

Lemma pending_valid s th ns id pd :
  nsOk s -> pointOk (sconn th) s (spoint th) -> pendingOf s th = Some (ns, id, pd) -> validNs ns.
Proof.
  intros Hn Hp H. unfold pendingOf in H. destruct (spoint th); try done.
  destruct Hp as [(n & cp & Hl) _]. destruct (linked_namespace _ _ _ _ Hn Hl) as [<- Hv].
  destruct (phase p); simplify_eq/=. done.
Qed.

Lemma RegInv_step t s s' ths th th' ns0 id0 :
  RegInv (s, ths) -> noOverlap (s, ths) -> ths !! t = Some th ->
  stepReg t s s' th th' ns0 id0 -> noOverlap (s', <[t:=th']> ths) -> RegInv (s', <[t:=th']> ths).
Proof.
  intros [Hn Hp Hpd Hr] Hov Ht [E Ec Hn' Hm Ho Hpt Hv Hvw Hk Hk' Hal Hidle] Hov'. simpl in *.
  assert (Hsame : forall u thu, u <> t -> ths !! u = Some thu -> pendingOf s' thu = pendingOf s thu).
  { intros u thu Hu Hthu. unfold pendingOf. destruct (spoint thu); try done.
    destruct (Hp u thu Hthu) as [<- _]. destruct (Ho _ Hu) as [E1 _].
    by rewrite (namespaceForConn_same _ s s'). }
  assert (Hpre : (forall u thu pd, u <> t -> ths !! u = Some thu -> pendingOf s thu <> Some (ns0, id0, pd)) ->
            allowed (snd <$> pendingOf s' th') (viewOf s' ns0 id0)).
  { intros Hfree. apply Hal. destruct (pendingOf s th) as [[[ns id] pd]|] eqn:Ep; simpl.
    - pose proof (Hk _ _ eq_refl) as [= -> ->]. by apply (Hpd t th).
    - apply Hr; [done|]. intros u thu pd Hu. destruct (decide (u = t)) as [->|Hne]; [|by apply (Hfree u)].
      simplify_eq. by rewrite Ep. }
  split; simpl.
  - done.
  - intros u thu [(-> & <- & Hlt)|[Hne Hu]]%list_lookup_insert_Some.
    + split; [|done]. rewrite E. by apply Hp.
    + destruct (Hp u thu Hu) as [H1 H2]. split; [done|]. destruct (Ho u) as [E1 E2]; [done|].
      by eapply pointOk_mono.
  - intros u thu ns id pd [(Eu & Eth & Hlt)|[Hne Hu]]%list_lookup_insert_Some Hpu; [subst u thu|].
    + pose proof (Hk' _ _ Hpu) as [= -> ->]. rewrite Hpu in Hpre. apply Hpre.
      intros v thv pd' Hv1 Hv2 Hv3. apply Hv1. apply (Hov' v t thv th' ns0 id0 pd' pd); simpl; [| |by rewrite (Hsame v)|done].
      * by rewrite list_lookup_insert_ne.
      * by apply list_lookup_insert_eq.
    + assert (Hne' : u <> t) by done. pose proof Hpu as Hpu'. rewrite (Hsame u thu) in Hpu by done.
      assert (Hns : validNs ns) by (destruct (Hp u thu Hu) as [Eu Hq]; rewrite <- Eu in Hq;
        exact (pending_valid s thu ns id pd Hn Hq Hpu)).
      destruct (decide ((ns, id) = (ns0, id0))) as [Ek|Ek]; [|by rewrite Hvw; [apply (Hpd u thu)| |]].
      injection Ek as -> ->. rewrite Hidle; [by apply (Hpd u thu)| |].
      * destruct (pendingOf s th) as [[[a b] pd']|] eqn:Ep; [|done]. pose proof (Hk _ _ eq_refl) as [= -> ->].
        destruct Hne'. by apply (Hov u t thu th ns0 id0 pd pd').
      * destruct (pendingOf s' th') as [[[a b] pd']|] eqn:Ep; [|done]. pose proof (Hk' _ _ eq_refl) as [= -> ->].
        destruct Hne'. apply (Hov' u t thu th' ns0 id0 pd pd'); simpl; [|by apply list_lookup_insert_eq, lookup_lt_Some with th|done|done].
        by rewrite list_lookup_insert_ne.
  - intros ns id Hns Hfree. destruct (decide ((ns, id) = (ns0, id0))) as [Ek|Ek].
    + injection Ek as -> ->. destruct (pendingOf s' th') as [[[a b] pd]|] eqn:Ep.
      * pose proof (Hk' _ _ eq_refl) as [= -> ->]. exfalso.
        apply (Hfree t th' pd); [|done]. apply list_lookup_insert_eq. by eapply lookup_lt_Some.
      * apply Hpre. intros u thu pd Hne Hu. rewrite <- (Hsame u) by done. apply (Hfree u thu).
        by rewrite list_lookup_insert_ne.
    + rewrite Hvw by done. apply Hr; [done|]. intros u thu pd Hu Hpu.
      destruct (decide (u = t)) as [->|Hne].
      * simplify_eq. by pose proof (Hk _ _ Hpu).
      * apply (Hfree u thu pd); [by rewrite list_lookup_insert_ne|]. by rewrite (Hsame u).
Qed.

(** ** Views after a step *)

Lemma viewOf_ext s s' ns id :
  cpOf s' ns = cpOf s ns -> scheduler s' = scheduler s -> metricsCollector s' = metricsCollector s ->
  viewOf s' ns id = viewOf s ns id.
Proof. intros E1 E2 E3. unfold viewOf. by rewrite E1, E2, E3. Qed.

Lemma cpOf_same s s' ns : heap s' = heap s -> namespaces s' = namespaces s -> cpOf s' ns = cpOf s ns.
Proof. intros E1 E2. unfold cpOf. by rewrite E1, E2. Qed.

Lemma cpOf_eq s ns cp c : namespaces s !! ns = Some cp -> heap s !! cp = Some c -> cpOf s ns = c.
Proof. intros H1 H2. unfold cpOf. by rewrite H1; simpl; rewrite H2. Qed.

Lemma cpOf_update s s' ns cp c c' :
  nsOk s -> namespaces s !! ns = Some cp -> heap s !! cp = Some c ->
  heap s' = <[cp:=c']> (heap s) -> namespaces s' = namespaces s ->
  cpOf s' ns = c' /\ (forall ns', ns' <> ns -> cpOf s' ns' = cpOf s ns') /\ nsOk s'.
Proof.
  intros [Hn Hi] H1 H2 Eh En. split_and!.
  - apply (cpOf_eq _ _ cp); [by rewrite En|]. rewrite Eh. apply list_lookup_insert_eq. by eapply lookup_lt_Some.
  - intros ns' Hne. unfold cpOf. rewrite En. destruct (namespaces s !! ns') as [p|] eqn:E; [|done]. simpl.
    rewrite Eh, list_lookup_insert_ne; [done|]. intros ->. by apply Hne, (Hi _ _ p).
  - unfold nsOk. rewrite En, Eh, length_insert. done.
Qed.

Lemma sched_register now q k name st sc q' :
  pType <$> Scheduler.primitives (Scheduler.RegisterPrimitive now q k name st sc) !! q' =
  if decide (q' = q) then Some k else pType <$> Scheduler.primitives sc !! q'.
Proof.
  unfold Scheduler.RegisterPrimitive. rewrite (proj2 (emit_registry _ _)). simpl.
  case_decide; [subst; by rewrite lookup_insert_eq|by rewrite lookup_insert_ne].
Qed.

Lemma sched_unregister now q sc q' :
  pType <$> Scheduler.primitives (Scheduler.UnregisterPrimitive now q sc) !! q' =
  if decide (q' = q) then None else pType <$> Scheduler.primitives sc !! q'.
Proof.
  unfold Scheduler.UnregisterPrimitive. destruct (Scheduler.primitives sc !! q) as [i|] eqn:E.
  - rewrite (proj2 (emit_registry _ _)). simpl.
    case_decide; [subst; by rewrite lookup_delete_eq|by rewrite lookup_delete_ne].
  - case_decide; [subst; by rewrite E|done].
Qed.

Lemma qualified_ne ns id ns0 id0 :
  validNs ns -> validNs ns0 -> (ns, id) <> (ns0, id0) -> qualifiedPrimID ns id <> qualifiedPrimID ns0 id0.
Proof. intros [_ H1] [_ H2] Hne E. apply qualified_inj in E as [-> ->]; done. Qed.

(** ** The steps *)

(** A step that leaves the registries alone and is not in a pending phase. *)
Lemma stepReg_quiet t s s' th th' :
  nsOk s -> sconn th' = sconn th -> cfg s' = cfg s -> heap s' = heap s -> namespaces s' = namespaces s ->
  scheduler s' = scheduler s -> metricsCollector s' = metricsCollector s ->
  (forall c, c <> t -> namespace <$> connStates s' !! c = namespace <$> connStates s !! c /\
                       connPrimsMap s' !! c = connPrimsMap s !! c) ->
  pointOk t s' (spoint th') -> pendingOf s th = None -> pendingOf s' th' = None ->
  stepReg t s s' th th' "default" "".
Proof.
  intros Hn Ec Ecfg Eh En Es Em Ho Hp H1 H2.
  assert (Hv : forall ns id, viewOf s' ns id = viewOf s ns id)
    by (intros; apply viewOf_ext; [by apply cpOf_same|done|done]).
  split; try done.
  - unfold nsOk. by rewrite En, Eh.
  - by rewrite En.
  - apply default_valid.
  - intros k pd. by rewrite H1.
  - intros k pd. by rewrite H2.
  - by rewrite H1, H2, Hv.
Qed.

Lemma stepReg_sameReg t s s' th th' :
  nsOk s -> sameReg s s' -> sconn th' = sconn th -> pointOk t s' (spoint th') ->
  pendingOf s th = None -> pendingOf s' th' = None -> stepReg t s s' th th' "default" "".
Proof. intros Hn [] Ec Hp H1 H2. apply stepReg_quiet; try done. intros c _. by rewrite same_connPrims0. Qed.

Lemma linkedTo_same conn s s' ns cp :
  sameReg s s' -> linkedTo conn s ns cp -> linkedTo conn s' ns cp.
Proof. intros [] (H1 & H2 & H3). split_and!; congruence. Qed.

Lemma linked_same conn s s' : sameReg s s' -> linked conn s -> linked conn s'.
Proof. intros H (ns & cp & Hl). exists ns, cp. by eapply linkedTo_same. Qed.

(** A step that updates the [connPrims] of the connection's namespace, or the
    scheduler, or the metrics, at one id. *)
Lemma stepReg_at t s s' th p p' ns cp id :
  nsOk s -> linkedTo t s ns cp -> sconn th = t -> spoint th = SHandle p ->
  cfg s' = cfg s -> namespaces s' = namespaces s -> connStates s' = connStates s -> connPrimsMap s' = connPrimsMap s ->
  nsOk s' ->
  (forall ns' id', validNs ns' -> (ns', id') <> (ns, id) -> viewOf s' ns' id' = viewOf s ns' id') ->
  (forall x, phase p = Some x -> x.1 = id) -> (forall x, phase p' = Some x -> x.1 = id) ->
  (forall c, cpArg p' = Some c -> c = cp) ->
  (allowed (snd <$> phase p) (viewOf s ns id) -> allowed (snd <$> phase p') (viewOf s' ns id)) ->
  (phase p = None -> phase p' = None -> viewOf s' ns id = viewOf s ns id) ->
  stepReg t s s' th (at_ (afterHandler p') th) ns id.
Proof.
  intros Hn Hl Et Ep Ecfg En Ecs Ecp Hn' Hv Hph Hph' Harg Hal Hid.
  destruct (linked_namespace t s ns cp Hn Hl) as [Hns Hval].
  assert (Hns' : namespaceForConn t s' = ns).
  { rewrite <- Hns. apply namespaceForConn_same; [done|by rewrite Ecs]. }
  assert (E1 : pendingOf s th = (fun x => (ns, x.1, x.2)) <$> phase p)
    by (unfold pendingOf; by rewrite Ep, Et, Hns).
  assert (E2 : pendingOf s' (at_ (afterHandler p') th) = (fun x => (ns, x.1, x.2)) <$> phase p').
  { unfold pendingOf. destruct p'; simpl; by rewrite ?Et, ?Hns'. }
  split; try done.
  - by rewrite En.
  - intros c _. by rewrite Ecs, Ecp.
  - assert (Hl' : linkedTo t s' ns cp) by (destruct Hl as (? & ? & ?); split_and!; congruence).
    assert (linked t s') by (by exists ns, cp). destruct Hl' as (_ & _ & Hm).
    destruct p'; simpl; try (split; [done|intros c [=]; subst; naive_solver]); done.
  - rewrite E1. intros k pd Hk. destruct (phase p) as [[i x]|] eqn:Ex; simplify_eq/=. f_equal. exact (Hph _ eq_refl).
  - rewrite E2. intros k pd Hk. destruct (phase p') as [[i x]|] eqn:Ex; simplify_eq/=. f_equal. exact (Hph' _ eq_refl).
  - rewrite E1, E2. by destruct (phase p) as [[i x]|], (phase p') as [[i' x']|].
  - rewrite E1, E2. intros H1%fmap_None H2%fmap_None. by apply Hid.
Qed.

Lemma stepReg_sched t s th p p' ns cp id k sc :
  nsOk s -> linkedTo t s ns cp -> sconn th = t -> spoint th = SHandle p ->
  (forall q, pType <$> Scheduler.primitives sc !! q =
     if decide (q = qualifiedPrimID ns id) then k else pType <$> Scheduler.primitives (scheduler s) !! q) ->
  (forall x, phase p = Some x -> x.1 = id) -> (forall x, phase p' = Some x -> x.1 = id) ->
  cpArg p' = None -> is_Some (phase p) ->
  (forall v1 v2 v3 v4, allowed (snd <$> phase p) (v1, v2, v3, v4) -> allowed (snd <$> phase p') (v1, k, v3, v4)) ->
  stepReg t s (set_scheduler sc s) th (at_ (afterHandler p') th) ns id.
Proof.
  intros Hn Hl Et Ep Hsc Hph Hph' Harg [x Hx] Hal. pose proof (linked_namespace t s ns cp Hn Hl) as [_ Hval].
  eapply stepReg_at; try done.
  - intros ns' id' Hv' Hne. unfold viewOf. rewrite (cpOf_same s (set_scheduler sc s)) by done. simpl.
    rewrite Hsc, decide_False; [done|]. by apply qualified_ne.
  - by rewrite Harg.
  - unfold viewOf. rewrite (cpOf_same s (set_scheduler sc s)) by done. simpl. rewrite Hsc, decide_True by done. apply Hal.
  - by rewrite Hx.
Qed.

Lemma stepReg_metrics t s th p p' ns cp id b mc :
  nsOk s -> linkedTo t s ns cp -> sconn th = t -> spoint th = SHandle p ->
  (forall q, bool_decide (is_Some (primitiveMetrics mc !! q)) =
     if decide (q = qualifiedPrimID ns id) then b
     else bool_decide (is_Some (primitiveMetrics (metricsCollector s) !! q))) ->
  (forall x, phase p = Some x -> x.1 = id) -> (forall x, phase p' = Some x -> x.1 = id) ->
  cpArg p' = None -> is_Some (phase p) ->
  (forall v1 v2 v3 v4, allowed (snd <$> phase p) (v1, v2, v3, v4) -> allowed (snd <$> phase p') (v1, v2, b, v4)) ->
  stepReg t s (set_metricsCollector mc s) th (at_ (afterHandler p') th) ns id.
Proof.
  intros Hn Hl Et Ep Hsc Hph Hph' Harg [x Hx] Hal. pose proof (linked_namespace t s ns cp Hn Hl) as [_ Hval].
  eapply stepReg_at; try done.
  - intros ns' id' Hv' Hne. unfold viewOf. rewrite (cpOf_same s (set_metricsCollector mc s)) by done. simpl.
    rewrite Hsc, decide_False; [done|]. by apply qualified_ne.
  - by rewrite Harg.
  - unfold viewOf. rewrite (cpOf_same s (set_metricsCollector mc s)) by done. simpl. rewrite Hsc, decide_True by done. apply Hal.
  - by rewrite Hx.
Qed.

Lemma stepReg_maps t s s' th p p' ns cp c c' id :
  nsOk s -> linkedTo t s ns cp -> sconn th = t -> spoint th = SHandle p -> heap s !! cp = Some c ->
  heap s' = <[cp:=c']> (heap s) -> cfg s' = cfg s -> namespaces s' = namespaces s -> connStates s' = connStates s ->
  connPrimsMap s' = connPrimsMap s -> scheduler s' = scheduler s -> metricsCollector s' = metricsCollector s ->
  (forall id', id' <> id -> kindIn c' id' = kindIn c id' /\ primCtxs c' !! id' = primCtxs c !! id') ->
  (forall x, phase p = Some x -> x.1 = id) -> (forall x, phase p' = Some x -> x.1 = id) ->
  (forall c, cpArg p' = Some c -> c = cp) -> is_Some (phase p') ->
  (forall v2 v3, allowed (snd <$> phase p) (kindIn c id, v2, v3, bool_decide (is_Some (primCtxs c !! id))) ->
     allowed (snd <$> phase p') (kindIn c' id, v2, v3, bool_decide (is_Some (primCtxs c' !! id)))) ->
  stepReg t s s' th (at_ (afterHandler p') th) ns id.
Proof.
  intros Hn Hl Et Ep Hc Eh Ecfg En Ecs Ecp Es Em Hother Hph Hph' Harg [x Hx] Hal.
  pose proof Hl as (_ & Hcp & _).
  destruct (cpOf_update s s' ns cp c c' Hn Hcp Hc Eh En) as (E1 & E2 & Hn').
  eapply stepReg_at; try done.
  - intros ns' id' Hv' Hne. unfold viewOf. rewrite Es, Em. destruct (decide (ns' = ns)) as [->|Hns].
    + rewrite E1, (cpOf_eq s ns cp c Hcp Hc). destruct (Hother id') as [-> ->]; [congruence|done].
    + by rewrite E2.
  - unfold viewOf. rewrite Es, Em, E1, (cpOf_eq s ns cp c Hcp Hc). apply Hal.
  - by rewrite Hx.
Qed.

Lemma reads_quiet p : reads p = true -> phase p = None /\ cpArg p = None.
Proof. by destruct p. Qed.

Lemma pointOk_after conn s p :
  linked conn s -> (forall cp, cpArg p = Some cp -> connPrimsMap s !! conn = Some cp) ->
  pointOk conn s (afterHandler p).
Proof. intros H1 H2. destruct p; simpl; try done; split; try done; apply H2. Qed.

Lemma pendingOf_handler s th p : phase p = None -> pendingOf s (at_ (afterHandler p) th) = None.
Proof. intros H. unfold pendingOf. destruct p; simpl in *; by simplify_eq. Qed.

Lemma stepReg_reads t s s' th p p' :
  nsOk s -> spoint th = SHandle p -> linked t s -> phase p = None -> sameReg s s' -> reads p' = true ->
  stepReg t s s' th (at_ (afterHandler p') th) "default" "".
Proof.
  intros Hn Ep Hl Hp Hs Hr. apply reads_quiet in Hr as [H1 H2]. apply stepReg_sameReg; try done.
  - apply pointOk_after; [by eapply linked_same|by rewrite H2].
  - unfold pendingOf. by rewrite Ep, Hp.
  - by apply pendingOf_handler.
Qed.

(** The steps of the create handlers. *)
Section HandlerSteps.
Context (t : nat) (s : Server) (th : session) (ns : string) (cp : nat).
Hypothesis (Hn : nsOk s) (Hl : linkedTo t s ns cp) (Et : sconn th = t).

Lemma stepReg_create id name o a s' :
  spoint th = SHandle (HCreate cp id name o) -> insertPrim cp id o s = Some (a, s') ->
  stepReg t s s' th (at_ (afterHandler (HSched id name (kindOf o) a)) th) ns id.
Proof.
  intros Ep H. unfold insertPrim in H. apply bind_Some in H as (c & Hc & H).
  rewrite primExists_kindIn in H. case_bool_decide as Hk; [done|]. apply eq_None_not_Some in Hk.
  simpl in H. injection H as <- <-. eapply stepReg_maps; try done; simpl.
  - intros id' Hne. rewrite kindIn_set_primCtxs, kindIn_insert, decide_False by done. split; [done|].
    rewrite primCtxs_setMap. by apply lookup_insert_ne.
  - by intros x [= <-].
  - intros v2 v3. rewrite kindIn_set_primCtxs, kindIn_insert, decide_True, Hk, lookup_insert_eq by done.
    intros [ko E]. unfold agree in E. by simplify_eq/=.
Qed.

Lemma stepReg_HSched now id name k a o :
  spoint th = SHandle (HSched id name k a) ->
  stepReg t s (set_scheduler (Scheduler.RegisterPrimitive now (qualifiedPrimID ns id) k name (statsOf o) (scheduler s)) s)
    th (at_ (afterHandler (HMetrics id name k)) th) ns id.
Proof.
  intros Ep. eapply (stepReg_sched t s th (HSched id name k a) _ ns cp id (Some k)); try done.
  - intros q. apply sched_register.
  - by intros x [= <-].
  - by intros x [= <-].
  - simpl. intros. by simplify_eq.
Qed.

Lemma stepReg_HMetrics now id name k :
  spoint th = SHandle (HMetrics id name k) ->
  stepReg t s (set_metricsCollector
      (Metrics.RegisterPrimitive now (qualifiedPrimID ns id) (showType k) name (metricsCollector s)) s) th
    (at_ (afterHandler (if decide (k = TypeFairRWLock) then HReply (showType k +:+ " created") else HAudit id k)) th)
    ns id.
Proof.
  intros Ep. eapply (stepReg_metrics t s th (HMetrics id name k) _ ns cp id true); try done.
  - intros q. simpl. case_decide as E; [subst; by rewrite lookup_insert_eq|by rewrite lookup_insert_ne].
  - by intros x [= <-].
  - by case_decide.
  - by case_decide.
  - simpl. intros. simplify_eq. case_decide; by exists (Some k).
Qed.

(** The steps of the delete handler. *)
Lemma stepReg_HDelete id c :
  spoint th = SHandle (HDelete cp id) -> heap s !! cp = Some c -> primExists c id = true ->
  stepReg t s (set_heap (<[cp:=deleteAll id c]> (heap s)) s) th (at_ (afterHandler (HDeleteCtx cp id)) th) ns id.
Proof.
  intros Ep Hc Ex. eapply (stepReg_maps t s _ th (HDelete cp id) _ ns cp c); try done; simpl.
  - intros id' Hne. by rewrite kindIn_deleteAll, decide_False.
  - by intros x [= <-].
  - by intros c' [= <-].
  - rewrite primExists_kindIn in Ex. apply bool_decide_eq_true in Ex as [k Ek].
    intros v2 v3 [ko E]. unfold agree in E. rewrite Ek in E. injection E as <- -> -> ->. exists k.
    by rewrite kindIn_deleteAll, decide_True.
Qed.

Lemma stepReg_HDeleteCtx id c :
  spoint th = SHandle (HDeleteCtx cp id) -> heap s !! cp = Some c ->
  stepReg t s
    (match primCtxs c !! id with
     | Some x => cancelCtx x (set_heap (<[cp:=set_primCtxs (delete id (primCtxs c)) c]> (heap s)) s)
     | None => s
     end) th (at_ (afterHandler (HDeleteSched id)) th) ns id.
Proof.
  intros Ep Hc. destruct (primCtxs c !! id) as [x|] eqn:Ex.
  - eapply (stepReg_maps t s _ th (HDeleteCtx cp id) _ ns cp c); try done; simpl.
    + intros id' Hne. by rewrite kindIn_set_primCtxs, lookup_delete_ne.
    + by intros y [= <-].
    + by intros y [= <-].
    + intros v2 v3 [k E]. injection E as E1 -> -> E2. exists k. by rewrite kindIn_set_primCtxs, lookup_delete_eq, E1.
  - eapply (stepReg_maps t s _ th (HDeleteCtx cp id) _ ns cp c c); try done; simpl.
    + by rewrite list_insert_id.
    + by intros y [= <-].
    + by intros y [= <-].
    + intros v2 v3 [k E]. rewrite Ex in E. by simplify_eq.
Qed.

Lemma stepReg_HDeleteSched now id :
  spoint th = SHandle (HDeleteSched id) ->
  stepReg t s (set_scheduler (Scheduler.UnregisterPrimitive now (qualifiedPrimID ns id) (scheduler s)) s)
    th (at_ (afterHandler (HDeleteMetrics id)) th) ns id.
Proof.
  intros Ep. eapply (stepReg_sched t s th (HDeleteSched id) _ ns cp id None); try done.
  - intros q. apply sched_unregister.
  - by intros x [= <-].
  - by intros x [= <-].
  - simpl. intros v1 v2 v3 v4 [k E]. by simplify_eq.
Qed.

Lemma stepReg_HDeleteMetrics id :
  spoint th = SHandle (HDeleteMetrics id) ->
  stepReg t s (set_metricsCollector (Metrics.UnregisterPrimitive (qualifiedPrimID ns id) (metricsCollector s)) s)
    th (at_ (afterHandler (HDeleteAudit id)) th) ns id.
Proof.
  intros Ep. eapply (stepReg_metrics t s th (HDeleteMetrics id) _ ns cp id false); try done.
  - intros q. simpl. case_decide as E; [subst; by rewrite lookup_delete_eq|by rewrite lookup_delete_ne].
  - by intros x [= <-].
  - simpl. intros. simplify_eq. by exists None.
Qed.
End HandlerSteps.

Lemma stepReg_handler now t s th p p' s' :
  nsOk s -> sconn th = t -> spoint th = SHandle p -> pointOk t s (spoint th) ->
  handler_step statsOf key now t p s = Some (p', s') ->
  exists ns0 id0, stepReg t s s' th (at_ (afterHandler p') th) ns0 id0.
Proof.
  intros Hn Et Ep Hpt Hs. rewrite Ep in Hpt. destruct Hpt as [Hlk Harg]. pose proof Hlk as (ns & cp & Hl).
  assert (Hcp : forall cp', cpArg p = Some cp' -> cp' = cp)
    by (intros cp' H; destruct Hl as (_ & _ & H'); specialize (Harg _ H); congruence).
  destruct (reads p) eqn:Hr.
  { destruct (handler_reads statsOf key now t p s p' s' Hr Hs) as [Hsame Hr'].
    exists "default", "". apply (stepReg_reads t s s' th p); try done. by apply reads_quiet. }
  destruct (linked_namespace t s ns cp Hn Hl) as [Hns Hval].
  assert (Hq : forall id, internalID t id s = qualifiedPrimID ns id) by (intros id; unfold internalID; by rewrite Hns).
  assert (Hfail : forall text, phase p = None -> fail t text s = (p', s') ->
            exists ns0 id0, stepReg t s s' th (at_ (afterHandler p') th) ns0 id0).
  { intros text Hp [= <- <-]. exists "default", "". eapply stepReg_reads; try done. apply sendToClient_same. }
  destruct p as [cp' id name o|id name k a|id name k| |cp' id|cp' id|id|id| | | | | | |]; try done; simpl in Hs;
    rewrite ?Hq in Hs; try (rewrite (Hcp cp' eq_refl) in *).
  - destruct (insertPrim cp id o s) as [[a s1]|] eqn:E; [injection Hs as <- <-|apply (inj Some) in Hs; by eapply Hfail].
    exists ns, id. by eapply stepReg_create.
  - apply bind_Some in Hs as (o & _ & [= <- <-]). exists ns, id. by eapply stepReg_HSched.
  - injection Hs as <- <-. exists ns, id. by eapply stepReg_HMetrics.
  - apply bind_Some in Hs as (c & Hc & Hs). destruct (primExists c id) eqn:Ex; [injection Hs as <- <-|apply (inj Some) in Hs; by eapply Hfail].
    exists ns, id. by eapply stepReg_HDelete.
  - apply bind_Some in Hs as (c & Hc & [= <- <-]). exists ns, id. by eapply stepReg_HDeleteCtx.
  - injection Hs as <- <-. exists ns, id. by eapply stepReg_HDeleteSched.
  - injection Hs as <- <-. exists ns, id. by eapply stepReg_HDeleteMetrics.
Qed.

(** ** Registering and leaving *)

Lemma stepReg_prims t s th claims ns n :
  nsOk s -> sconn th = t -> spoint th = SReg claims ns RPrims -> validNs ns ->
  let x := getOrCreateNamespacePrims ns s in
  stepReg t s (set_connCounter n x.2) th (at_ (SReg claims ns (RState x.1 n)) th) "default" "".
Proof.
  intros [Hn Hi] Et Ep Hv. unfold getOrCreateNamespacePrims. destruct (namespaces s !! ns) as [p|] eqn:E; simpl.
  - apply stepReg_quiet; try done. unfold pendingOf. by rewrite Ep.
  - assert (Hlt : forall ns' p, namespaces s !! ns' = Some p -> p <> length (heap s)).
    { intros ns' p Hp ->. apply Hn in Hp as [_ Hp]. lia. }
    assert (Hvw : forall ns' id, viewOf (set_connCounter n (set_namespaces (<[ns:=length (heap s)]> (namespaces s))
              (set_heap (heap s ++ [newConnPrims]) s))) ns' id = viewOf s ns' id).
    { intros ns' id. apply viewOf_ext; [|done|done]. unfold cpOf. simpl.
      destruct (decide (ns' = ns)) as [->|Hne].
      - rewrite lookup_insert_eq, E. simpl. by rewrite list_lookup_middle.
      - rewrite lookup_insert_ne by done. destruct (namespaces s !! ns') as [p|] eqn:E'; [|done]. simpl.
        apply Hn in E' as [_ Hp]. by rewrite lookup_app_l. }
    assert (Ep0 : pendingOf s th = None) by (unfold pendingOf; by rewrite Ep).
    split; try done; simpl.
    + split; simpl.
      * intros ns' p [[<- <-]|[Hne Hp]]%lookup_insert_Some; rewrite length_app; simpl; [split; [done|lia]|].
        apply Hn in Hp as [? ?]. split; [done|lia].
      * intros n1 n2 p [[<- <-]|[Hne1 H1]]%lookup_insert_Some [[<- E2]|[Hne2 H2]]%lookup_insert_Some; try done.
        -- by destruct (Hlt _ _ H2).
        -- subst p. by destruct (Hlt _ _ H1).
        -- by apply (Hi _ _ p).
    + intros ns' p Hp. rewrite lookup_insert_ne; [done|]. intros <-. by rewrite E in Hp.
    + split; [done|apply lookup_insert_eq].
    + apply default_valid.
    + intros k pd. by rewrite Ep0.
    + rewrite Hvw, Ep0. done.
Qed.

Lemma stepReg_register now t s th claims ns p :
  nsOk s -> sconn th = t -> spoint th = SReg claims ns p -> pointOk t s (spoint th) ->
  let x := registerClient_step now t claims ns p s in
  stepReg t s x.2 th
    (at_ (match x.1 with Some p => SReg claims ns p | None => SHandle (HRead "initialState") end) th) "default" "".
Proof.
  intros Hn Et Ep Hpt. rewrite Ep in Hpt. destruct Hpt as [Hv Hpt].
  assert (Ep0 : pendingOf s th = None) by (unfold pendingOf; by rewrite Ep).
  destruct p as [| | |cp n|cp|cp| |]; simpl in *.
  - by apply stepReg_quiet.
  - by apply stepReg_quiet.
  - pose proof (stepReg_prims t s th claims ns (addU64 (connCounter s) 1) Hn Et Ep Hv) as H.
    unfold getOrCreateNamespacePrims in *. simpl in *. by destruct (namespaces s !! ns).
  - apply stepReg_quiet; try done; simpl.
    + intros c Hc. by rewrite lookup_insert_ne.
    + by rewrite lookup_insert_eq.
  - by apply stepReg_quiet.
  - apply stepReg_quiet; try done; simpl.
    + intros c Hc. by rewrite lookup_insert_ne.
    + split; [done|]. destruct Hpt as [H1 H2]. exists ns, cp. split; [done|]. split; [done|]. apply lookup_insert_eq.
  - apply stepReg_sameReg; try done; [apply logAudit_same|]. split; [done|].
    eapply linked_same; [apply logAudit_same|done].
  - assert (Hs : sameReg s (registerClient_step now t claims ns RRole s).2).
    { simpl. destruct claims; [|done]. destruct (connStates s !! t) eqn:E; [|done]. by eapply set_connStates_same. }
    apply stepReg_sameReg; try done. split; [by eapply linked_same|done].
Qed.

Lemma stepReg_unregister now t s th p :
  nsOk s -> sconn th = t -> spoint th = SUnreg p ->
  let x := unregisterClient_step now t p s in
  stepReg t s x.2 th (at_ (match x.1 with Some p => SUnreg p | None => SEnd end) th) "default" "".
Proof.
  intros Hn Et Ep. pose proof (unregister_frame now t p s) as (E1 & _ & E2 & E3 & E4 & E5 & E6).
  apply stepReg_quiet; try done.
  - intros c Hc. destruct (E6 c Hc) as [-> ->]. done.
  - by destruct p.
  - unfold pendingOf. by rewrite Ep.
  - by destruct p.
Qed.

(** A handler begins outside the pending phases, at the connection's own
    primitives. *)
Definition begins (conn : nat) (s : Server) (x : hpc * Server) : Prop :=
  phase x.1 = None /\ forall cp, cpArg x.1 = Some cp -> connPrimsMap s !! conn = Some cp.

Lemma begins_fail conn s text : begins conn s (fail conn text s).
Proof. done. Qed.

Lemma begins_create conn s id name o : begins conn s (create conn id name o s).
Proof. unfold create, connPrimsFor. destruct (connPrimsMap s !! conn) eqn:E; [|done]. split; [done|]. by intros ? [= <-]. Qed.

Lemma begins_validated conn s id name k : begins conn s k -> begins conn s (validated conn id name s k).
Proof. unfold validated. intros. by repeat case_decide. Qed.

Lemma begins_basic conn s o raw : begins conn s (createBasic codec o conn raw s).
Proof.
  unfold createBasic. destruct (decodeBasic codec raw) as [[id name]|]; [|done].
  apply begins_validated, begins_create.
Qed.

Lemma begins_message now conn s ty raw : begins conn s (handleMessage codec now conn ty raw s).
Proof.
  unfold handleMessage. destruct (authorizeMessage _ ty); [done|].
  repeat (case_decide; [try apply begins_basic|]); try done.
  - unfold handleCreateSemaphore. destruct (decodeCapacity codec raw) as [[[id name] n]|]; [|done].
    apply begins_validated. destruct (n <=? 0); [done|apply begins_create].
  - unfold handleCreateBarrier. destruct (decodeParties codec raw) as [[[id name] n]|]; [|done].
    apply begins_validated. destruct (n <=? 0); [done|apply begins_create].
  - unfold handleDeletePrimitive, connPrimsFor. destruct (decodeID codec raw); [|done].
    destruct (connPrimsMap s !! conn) eqn:E; [|done]. split; [done|]. by intros ? [= <-].
  - unfold startOp. by destruct (decodeOp codec raw).
Qed.

Lemma receive_point now t s ty raw :
  linked t s ->
  let x := receive codec now t ty raw s in
  phase x.1 = None /\ pointOk t x.2 (afterHandler x.1).
Proof.
  intros Hl. simpl. assert (Hgo : begins t s (receive codec now t ty raw s)).
  { unfold receive. pose proof (rateLimited_same now t ty s) as H.
    destruct (rateLimited now t ty s) as [[e|] s1]; [done|]. simpl in H. unfold begins.
    rewrite <- (same_connPrims _ _ H). apply begins_message. }
  destruct Hgo as [H1 H2]. split; [done|]. apply pointOk_after.
  - eapply linked_same; [apply receive_same|done].
  - intros cp Hc. rewrite (same_connPrims _ _ (receive_same codec now t ty raw s)). by apply H2.
Qed.

Lemma stepReg_session o t s th th' s' :
  nsOk s -> sconn th = t -> pointOk t s (spoint th) ->
  session_step V codec statsOf key o th s = Some (th', s') ->
  exists ns0 id0, stepReg t s s' th th' ns0 id0.
Proof.
  intros Hn Et Hpt. unfold session_step. rewrite Et.
  destruct (spoint th) as [|claims q|claims ns|claims ns|claims ns|claims ns p| |p|p|] eqn:Ep;
    try (destruct (inbox th) as [[h q'|ty raw|]|]; done); try done;
    assert (Ep0 : forall q', spoint th = q' -> match q' with SHandle _ => True | _ => pendingOf s th = None end)
      by (intros q'' <-; unfold pendingOf; by destruct (spoint th)); specialize (Ep0 _ Ep); simpl in Ep0.
  - destruct (inbox th) as [[h q'|ty raw|]|]; try done.
    pose proof (authenticate_same V (clk o) h s) as H. destruct (authenticate _ _ _ _) as [r s1].
    intros [= <- <-]. exists "default", "". apply stepReg_sameReg; try done; by destruct r.
  - destruct (draining s); [intros [= <- <-]|destruct (extractNamespace _ _ _) as [e|ns] eqn:E; intros [= <- <-]];
      exists "default", ""; apply stepReg_sameReg; try done.
    apply extractNamespace_ok in E as (H1 & H2 & _). by split.
  - intros [= <- <-]. exists "default", "". apply stepReg_sameReg; try done; by destruct (maxConns s <=? _).
  - intros [= <- <-]. exists "default", "". apply stepReg_sameReg; try done; by destruct (alt o).
  - intros [= <- <-]. exists "default", "". apply stepReg_sameReg; try done; by split.
  - pose proof (stepReg_register (clk o) t s th claims ns p Hn Et Ep ltac:(by rewrite Ep)) as H.
    destruct (registerClient_step _ _ _ _ _ _) as [n s1]. intros [= <- <-]. eauto.
  - destruct (inbox th) as [[h q'|ty raw|]|]; try done.
    + pose proof (receive_same codec (clk o) t ty raw s) as H.
      pose proof (receive_point (clk o) t s ty raw Hpt) as [H1 H2]. destruct (receive _ _ _ _ _ _) as [p s1].
      intros [= <- <-]. exists "default", "". apply stepReg_sameReg; try done. by apply pendingOf_handler.
    + intros [= <- <-]. exists "default", "". by apply stepReg_sameReg.
  - intros ([p' s1] & H & [= <- <-])%bind_Some. eapply stepReg_handler; try done. by rewrite Ep.
  - pose proof (stepReg_unregister (clk o) t s th p Hn Et Ep) as H.
    destruct (unregisterClient_step _ _ _ _) as [n s1]. intros [= <- <-]. eauto.
Qed.

Lemma calm_inv c0 c : RegInv c0 -> noOverlap c0 -> calm c0 c -> RegInv c /\ noOverlap c.
Proof.
  intros H0 Hov0 Hc. induction Hc as [|l [s ths] [s' ths'] Hc [IH IHov] Hl Hov]; [done|]. split; [|done].
  destruct l as [t r now|t o|x]; simpl in Hl.
  - apply bind_Some in Hl as (th & Ht & Hl). apply bind_Some in Hl as (th' & Hcall & [= <- <-]). simpl in Ht.
    assert (E : sconn th' = sconn th /\ spoint th' = spoint th).
    { unfold scall in Hcall. destruct (inbox th), (spoint th), r; by simplify_eq. }
    destruct E as [E1 E2]. destruct IH as [Hn Hp Hpd Hr]. simpl in *.
    apply (RegInv_step t s s ths th th' "default" ""); try done. destruct (Hp t th Ht) as [Et Hpt].
    assert (Epd : pendingOf s th = None)
      by (unfold scall in Hcall; unfold pendingOf; destruct (inbox th), (spoint th), r; by simplify_eq).
    apply stepReg_sameReg; try done; [by rewrite E2|]. unfold pendingOf in *. by rewrite E1, E2.
  - apply bind_Some in Hl as (th & Ht & Hl). apply bind_Some in Hl as ([th' s1] & Hrun & [= <- <-]). simpl in *.
    destruct (ri_point _ IH t th Ht) as [Et Hpt].
    destruct (stepReg_session o t s th th' s1 (ri_ns _ IH) Et Hpt Hrun) as (ns0 & id0 & Hst).
    by eapply RegInv_step.
  - by simplify_eq.
Qed.
End Agreement.

(** * Theorems *)

Section Theorems.
Context (V : Z -> string -> string -> jwtError + Claims) {Raw : Type} (codec : Codec Raw).
Context (statsOf : object -> Z) (key : PrimitiveInfo -> string).

Lemma newServer_empty now c r files s0 files' :
  newServer now c r files = Some (s0, files') ->
  heap s0 = [] /\ namespaces s0 = ∅ /\ Scheduler.primitives (scheduler s0) = ∅ /\
  primitiveMetrics (metricsCollector s0) = ∅.
Proof.
  unfold newServer. destruct (negb _); [done|]. destruct (decide (AuditLogPath c <> "")).
  - destruct (AuditLog.New _ _ _ _ _) as [x f]. by intros [= <- <-].
  - by intros [= <- <-].
Qed.

Lemma sessions_lookup n t (th : session (Raw:=Raw)) : sessions n !! t = Some th -> th = mkSession t SNone None 0.
Proof.
  unfold sessions. rewrite list_lookup_fmap_Some. intros (i & -> & Hi). by apply lookup_seq in Hi as [-> _].
Qed.

Lemma RegInv_initial now c r files s0 files' n :
  newServer now c r files = Some (s0, files') ->
  RegInv (Raw:=Raw) (s0, sessions n) /\ noOverlap (Raw:=Raw) (s0, sessions n).
Proof.
  intros (H1 & H2 & H3 & H4)%newServer_empty.
  assert (Hp : forall t (th : session (Raw:=Raw)), sessions n !! t = Some th -> pendingOf s0 th = None).
  { intros t th ->%sessions_lookup. done. }
  split; [split; simpl|].
  - by split; rewrite H2.
  - intros t th ->%sessions_lookup. done.
  - intros t th ns id pd Ht. by rewrite (Hp t th Ht).
  - intros ns id _ _. exists None. unfold viewOf, cpOf. rewrite H2, H3, H4, !lookup_empty. simpl.
    by rewrite kindIn_new.
  - intros t1 t2 th1 th2 ns id pd1 pd2 Ht1 _ Hp1. simpl in *. by rewrite (Hp t1 th1 Ht1) in Hp1.
Qed.


(** A handler run to its end, at the given readings of the clock. *)
Fixpoint finish (clocks : list Z) (conn : nat) (p : hpc) (s : Server) : Server :=
  match clocks with
  | [] => s
  | now :: clocks =>
      match handler_step statsOf key now conn p s with
      | Some (p, s) => finish clocks conn p s
      | None => s
      end
  end.

Lemma reads_spawned now conn p s p' s' :
  reads p = true -> handler_step statsOf key now conn p s = Some (p', s') -> spawned s' = spawned s.
Proof.
  assert (Hsend : forall c m s1, spawned (sendToClient c m s1) = spawned s1)
    by (intros; unfold sendToClient; by case_decide).
  assert (Hlog : forall t c e s1, spawned (logAudit t c e s1) = spawned s1)
    by (intros; unfold logAudit; by destruct (auditLogger s1)).
  intros Hp Hs. destruct p; simpl in Hp, Hs; try done; simplify_eq; rewrite ?Hlog; try done; try apply Hsend.
  unfold handleRequestFullRefresh, fail in Hs.
  destruct (lastFullRefreshAt _) as [t|]; [destruct (now - t <? Second)|]; simplify_eq; try done.
  by unfold sendError; rewrite Hsend.
Qed.

Lemma finish_reads clocks conn p s :
  reads p = true -> sameReg s (finish clocks conn p s) /\ spawned (finish clocks conn p s) = spawned s.
Proof.
  revert p s. induction clocks as [|now clocks IH]; intros p s Hp; simpl; [done|].
  destruct (handler_step statsOf key now conn p s) as [[p' s']|] eqn:E; [|done].
  destruct (handler_reads statsOf key now conn p s p' s' Hp E) as [H1 H2].
  destruct (IH p' s' H2) as [H3 H4]. split; [by etrans|]. rewrite H4. exact (reads_spawned now conn p s p' s' Hp E).
Qed.

(** What the roles rule out. *)
Lemma authorize_admin r ty :
  roleForConn r <> RoleAdmin -> authorizeMessage r ty = None -> (ty ∉ createTypes) /\ ty <> "deletePrimitive".
Proof.
  intros Hr. unfold authorizeMessage. repeat case_decide; try done.
Qed.

Lemma authorize_viewer r ty : roleForConn r = RoleViewer -> authorizeMessage r ty = None -> ty <> "primitiveOp".
Proof.
  intros Hr. unfold authorizeMessage. rewrite Hr. repeat case_decide; try done; congruence.
Qed.

Lemma message_reads now conn ty raw s :
  ty ∉ createTypes -> ty <> "deletePrimitive" -> reads (handleMessage codec now conn ty raw s).1 = true.
Proof.
  intros H1 H2. unfold handleMessage. destruct (authorizeMessage _ ty); [done|].
  unfold createTypes in H1. rewrite !not_elem_of_cons in H1. destruct_and! H1.
  repeat (rewrite decide_False by done). repeat case_decide; try done.
  unfold startOp. by destruct (decodeOp codec raw).
Qed.

Lemma rateLimited_role now conn ty s :
  role <$> connStates (rateLimited now conn ty s).2 !! conn = role <$> connStates s !! conn /\
  spawned (rateLimited now conn ty s).2 = spawned s.
Proof.
  unfold rateLimited. destruct (connStates s !! conn) as [cs|] eqn:E; [|by simpl; rewrite ?E]. simpl.
  destruct (negb _); simpl; [by rewrite lookup_insert_eq|].
  case_decide; simpl; [|by rewrite lookup_insert_eq]. destruct (negb _); simpl; by rewrite lookup_insert_eq.
Qed.

(** C30: roles are enforced.  Whatever message a connection without the role
    admin sends, and however long its handler runs, no primitive is created
    or deleted and no registry changes; a viewer's message does not even
    start an operation.  (The role of a connection is the one
    [authorizeMessage] uses: an unknown role counts as viewer.) *)
Theorem roles_enforced now conn ty raw s clocks :
  let r := roleForConn (role <$> connStates s !! conn) in
  let x := receive codec now conn ty raw s in
  let s' := finish clocks conn x.1 x.2 in
  (r <> RoleAdmin -> sameReg s s') /\ (r = RoleViewer -> sameReg s s' /\ spawned s' = spawned s).
Proof.
  simpl. set (r := role <$> connStates s !! conn).
  assert (Hgo : roleForConn r <> RoleAdmin -> reads (receive codec now conn ty raw s).1 = true /\
            (roleForConn r = RoleViewer -> spawned (receive codec now conn ty raw s).2 = spawned s)).
  { intros Hr. unfold receive. pose proof (rateLimited_role now conn ty s) as [H1 H2].
    destruct (rateLimited now conn ty s) as [[e|] s1]; simpl in *.
    - split; [done|]. intros _. unfold sendError, sendToClient. by case_decide.
    - destruct (authorizeMessage (role <$> connStates s1 !! conn) ty) as [err|] eqn:E.
      + unfold handleMessage. rewrite E. split; [done|]. intros _. simpl. unfold sendError, sendToClient. by case_decide.
      + rewrite H1 in E. fold r in E. destruct (authorize_admin r ty Hr E) as [H3 H4].
        split; [by apply message_reads|]. intros Hv. pose proof (authorize_viewer r ty Hv E) as H5.
        unfold handleMessage. rewrite H1. fold r. rewrite E. unfold createTypes in H3.
        rewrite !not_elem_of_cons in H3. destruct_and! H3. repeat (rewrite decide_False by done).
        case_decide; [simpl; unfold sendToClient; by case_decide|]. rewrite (decide_False (P := ty = "primitiveOp")) by done.
        case_decide; [done|]. simpl. unfold sendError, sendToClient. by case_decide. }
  pose proof (receive_same codec now conn ty raw s) as Hsame. split; intros Hr.
  - destruct (Hgo Hr) as [H1 _]. etrans; [exact Hsame|]. by apply finish_reads.
  - destruct Hgo as [H1 H2]; [by rewrite Hr|]. destruct (finish_reads clocks conn _ (receive codec now conn ty raw s).2 H1) as [H3 H4].
    split; [by etrans|]. by rewrite H4, H2.
Qed.
End Theorems.

(** * Concrete executions *)

Definition noTokens (_ : Z) (_ _ : string) : jwtError + Claims := inl ErrFormat.
Definition pairCodec : Codec (string * string) :=
  mkCodec _ (fun r => Some r) (fun r => Some (r, 3)) (fun r => Some (r, 2)) (fun r => Some r.1)
    (fun r => Some (mkOp r.1 r.2 0)).
Definition noStats (_ : object) : Z := 0.
Definition nameKey (p : PrimitiveInfo) : string := pName p.
Definition sampleServer : machine Server session request := server noTokens pairCodec noStats nameKey.

Definition started (c : Config) : Server :=
  match newServer 0 c allOk ∅ with Some (s, _) => s | None => mkServer c (NewScheduler 0) (NewMetricsCollector 0) [] [] ∅ ∅ [] ∅ ∅ ∅ 0 0 0 0 0 0 0 0 0 false false false 0 ∅ 0 0 None [] [] end.

Definition connectAs (t : nat) : list (label (request (Raw := string * string))) :=
  Call t (Connect "" "") 0 :: runs t 16.
Definition message (t : nat) (ty id : string) (n : nat) : list (label (request (Raw := string * string))) :=
  Call t (Receive ty (id, "")) 0 :: runs t n.

(** A connection creates a mutex and a semaphore and deletes the mutex. *)
Definition sampleRun : list (label (request (Raw := string * string))) :=
  connectAs 0 ++ message 0 "createMutex" "m" 6 ++ message 0 "createSemaphore" "s" 6 ++ message 0 "deletePrimitive" "m" 7.

Definition sampleEnd : Prelude.config (Sh:=Server) (Th:=session (Raw := string * string)) :=
  after sampleServer sampleRun (started sampleConfig, sessions 1).

Lemma execs_calm_single V {Raw} (codec : Codec Raw) st key c0 ls c c' :
  length c.2 = 1%nat -> calm V codec st key c0 c -> execs (server V codec st key) ls c = Some c' ->
  calm V codec st key c0 c'.
Proof.
  revert c. induction ls as [|l ls IH]; intros c Hlen Hc He; simpl in He; [by simplify_eq|].
  apply bind_Some in He as (c1 & Hl & He).
  assert (Hlen1 : length c1.2 = 1%nat).
  { destruct c as [s ths], l as [t r now|t o|x]; simpl in *.
    - apply bind_Some in Hl as (th & _ & Hl). apply bind_Some in Hl as (th' & _ & [= <-]). simpl. by rewrite length_insert.
    - apply bind_Some in Hl as (th & _ & Hl). apply bind_Some in Hl as (th' & _ & [= <-]). simpl. by rewrite length_insert.
    - by simplify_eq. }
  apply (IH c1); [done| |done]. eapply calm_step; [done|done|].
  intros t1 t2 th1 th2 ns id pd1 pd2 H1%lookup_lt_Some H2%lookup_lt_Some _ _. lia.
Qed.

Lemma sampleEnd_calm :
  calm noTokens pairCodec noStats nameKey (started sampleConfig, sessions 1) (sampleEnd.1, sampleEnd.2).
Proof.
  eapply (execs_calm_single _ _ _ _ _ sampleRun (started sampleConfig, sessions 1)); [done|constructor|].
  vm_compute. reflexivity.
Qed.


Lemma sampleEnd_reach :
  reach sampleServer any_label (started sampleConfig, sessions 1) (sampleEnd.1, sampleEnd.2).
Proof. apply (execs_reach sampleServer any_label sampleRun); [apply Forall_any|by_eval]. Qed.


(** Connection 0 has removed "m" from its map when connection 1 creates a new
    "m"; then connection 0 goes on. *)
Definition raceRun : list (label (request (Raw := string * string))) :=
  connectAs 0 ++ connectAs 1 ++ message 0 "createMutex" "m" 6 ++ message 0 "deletePrimitive" "m" 2 ++
  message 1 "createMutex" "m" 6 ++ runs 0 5.

(** Deleting and creating one id at the same time breaks the agreement
    for good.  [handleDeletePrimitive] releases the lock of the maps before it
    cancels the context and unregisters the primitive.  When another
    connection of the namespace creates the id in between, and both have been
    answered with success, the new primitive is in its map, but the scheduler
    and the metrics do not know it and its context is the one that was
    cancelled. *)
Theorem delete_create_race :
  exists s ths, reach sampleServer any_label (started sampleConfig, sessions 2) (s, ths) /\
    (spoint <$> ths) = [SReady; SReady] /\
    drop 3 (sent s) = [(1%nat, mkOut "success" (PText "Mutex created"));
                       (0%nat, mkOut "success" (PText "Primitive deleted"))] /\
    viewOf s "default" "m" = (Some TypeMutex, None, false, false).
Proof.
  exists (after sampleServer raceRun (started sampleConfig, sessions 2)).1,
         (after sampleServer raceRun (started sampleConfig, sessions 2)).2.
  split; [apply (execs_reach sampleServer any_label raceRun); [apply Forall_any|by_eval]|].
  split_and!; by_eval.
Qed.

(** Two requests pass the test of the connection cap before either is
    counted. *)
Definition capConfig : Config := mkConfig [] "" "" "" "" "" 1 "" false [] "" 0 0.
Definition capRun : list (label (request (Raw := string * string))) :=
  [Call 0%nat (Connect "" "") 0] ++ runs 0 3 ++ [Call 1%nat (Connect "" "") 0] ++ runs 1 3 ++ runs 0 13 ++ runs 1 13.

(** The cap on connections can be exceeded: it is tested before the
    upgrade and the connection is counted after it, so two requests at the
    same time are both admitted to a server for one connection. *)
Theorem connection_cap_race :
  exists s ths, reach sampleServer any_label (started capConfig, sessions 2) (s, ths) /\
    (spoint <$> ths) = [SReady; SReady] /\ maxConns s < activeConns s.
Proof.
  exists (after sampleServer capRun (started capConfig, sessions 2)).1,
         (after sampleServer capRun (started capConfig, sessions 2)).2.
  split; [apply (execs_reach sampleServer any_label capRun); [apply Forall_any|by_eval]|].
  split; by_eval.
Qed.
