(* ===== verification/Delta.v ===== *)
(** * Updates to the clients (web/server.go, scheduler.go, app.js)

    The scheduler publishes its state ten times a second; the server forwards
    each publication to a goroutine that sends every client only the
    primitives of its namespace that changed since the last message to it,
    and the ids of those that disappeared.  The browser client merges the
    changes into its copy.  The comparison is by [primitiveSnapshotKey], the
    JSON of a primitive without its age (an argument).

    [buildDeltaUpdatePayload] and the client are functions; the goroutines
    [broadcastUpdates], [forwardSchedulerUpdates] and [broadcastMessages] are
    step by step and run beside the connections of Server.v.  A publication
    reads the registry in four critical sections, taken as one step here. *)

From Stdlib Require Import ZArith Lia.
From stdpp Require Import base list gmap strings.
From S2P Require Import Prelude.
From S2P Require Import Auth.
From S2P Require Import AuditLog.
From S2P Require Import Scheduler.
From S2P Require Import Metrics.
From S2P Require Import Access.
From S2P Require Import Server.
From S2P Require Import Registry.

#[local] Open Scope Z_scope.

Record SchedulerUpdate := mkUpdate {
  uPrimitives : gmap string PrimitiveInfo; uGoroutines : gmap Z GoroutineInfo;
  uEvents : list Scheduler.Event; uMetrics : SchedulerMetrics
}.

(** ** What is sent *)

Section Delta.
Context (primitiveSnapshotKey : PrimitiveInfo -> string).

(** The primitives whose key differs from the last one sent. *)
Definition changedSince (last : gmap string string) (prims : gmap string PrimitiveInfo) : gmap string PrimitiveInfo :=
  filter (fun kv : string * PrimitiveInfo => last !! kv.1 <> Some (primitiveSnapshotKey kv.2)) prims.

Definition buildDeltaUpdatePayload (conn : nat) (u : SchedulerUpdate) (sequence : Z) (s : Server)
    : deltaUpdatePayload * Server :=
  let ns := namespaceForConn conn s in
  let filteredPrims := filterPrimitivesForNamespace (uPrimitives u) ns in
  let ds := deltaFor conn s in
  let changed := changedSince (lastPrimJSON ds) filteredPrims in
  let last := (primitiveSnapshotKey <$> changed) ∪ lastPrimJSON ds in
  let gone := filter (fun kv : string * string => filteredPrims !! kv.1 = None) last in
  let last := filter (fun kv : string * string => is_Some (filteredPrims !! kv.1)) last in
  (mkDeltaPayload changed (map_to_list gone).*1
     (filterGoroutinesForNamespace (uGoroutines u) ns) (filterEventsForNamespace (uEvents u) ns)
     (uMetrics u) sequence,
   set_deltaStates (<[conn:=mkDelta last (lastFullRefreshAt ds)]> (deltaStates s)) s).
End Delta.

(** ** The browser client: [handleInitialState] and [handleUpdate] *)

Record client := mkClient { cPrims : gmap string PrimitiveInfo; cSequence : Z; refreshRequests : Z }.

(** The sequence 0 is falsy in JavaScript and leaves [lastSequence] alone. *)
Definition handleInitialState (prims : gmap string PrimitiveInfo) (sequence : Z) (c : client) : client :=
  mkClient prims (if sequence =? 0 then cSequence c else sequence) (refreshRequests c).

Definition handleUpdate (u : deltaUpdatePayload) (c : client) : client :=
  let seen := if Sequence u =? 0 then false else true in
  let gap := seen && negb (cSequence c =? 0) && (cSequence c + 1 <? Sequence u) in
  mkClient (foldr delete (Primitives u ∪ cPrims c) (Deleted u))
    (if seen && (cSequence c <? Sequence u) then Sequence u else cSequence c)
    (if gap then refreshRequests c + 1 else refreshRequests c).

(** ** The goroutines *)

(** Channels of capacity 100, oldest first. *)
Record hub := mkHub {
  srv : Server; updateChan : list SchedulerUpdate; broadcast : list SchedulerUpdate; droppedBroadcasts : Z
}.

Definition chanCap : nat := 100.

(** [broadcastUpdates] of the scheduler, one tick. *)
Definition broadcastUpdates_tick (now : Z) (h : hub) : hub :=
  let sc := scheduler (srv h) in
  if Scheduler.done sc then h
  else
    let u := mkUpdate (GetPrimitives sc) (GetGoroutines sc) (GetEvents 100 sc) (GetMetrics now sc) in
    if (length (updateChan h) <? chanCap)%nat
    then mkHub (srv h) (updateChan h ++ [u]) (broadcast h) (droppedBroadcasts h) else h.

(** [forwardSchedulerUpdates]: one round of its loop; [false] when it returns.
    [alt] decides the first [select] and [pick] the second when [done] is
    closed besides.  [None]: it waits. *)
Definition forwardSchedulerUpdates_step (o : oracle) (h : hub) : option (bool * hub) :=
  let closed := Scheduler.done (scheduler (srv h)) in
  if closed && alt o then Some (false, h)
  else
    match updateChan h with
    | [] => if closed then Some (false, h) else None
    | u :: rest =>
        let room := (length (broadcast h) <? chanCap)%nat in
        if closed && (negb room || Nat.eqb (pick o) 1)
        then Some (false, mkHub (srv h) rest (broadcast h) (droppedBroadcasts h))
        else if room then Some (true, mkHub (srv h) rest (broadcast h ++ [u]) (droppedBroadcasts h))
        else Some (true, mkHub (srv h) rest (broadcast h) (add64 (droppedBroadcasts h) 1))
    end.

(** [broadcastMessages]: at the [select], with the clients it has to serve,
    with a payload to send to the first of them. *)
Inductive bpc :=
| BSelect
| BGather (u : SchedulerUpdate)
| BNext (u : SchedulerUpdate) (sequence : Z) (rest : list nat)
| BSend (u : SchedulerUpdate) (sequence : Z) (conn : nat) (p : deltaUpdatePayload) (rest : list nat)
| BExit.

Section Broadcast.
Context (V : Z -> string -> string -> jwtError + Claims) {Raw : Type} (codec : Codec Raw).
Context (statsOf : object -> Z) (primitiveSnapshotKey : PrimitiveInfo -> string).

Definition withSrv (s : Server) (h : hub) : hub := mkHub s (updateChan h) (broadcast h) (droppedBroadcasts h).

Definition broadcastMessages_step (o : oracle) (p : bpc) (h : hub) : option (bpc * hub) :=
  let s := srv h in
  match p with
  | BSelect =>
      if stop s && alt o then Some (BExit, h)
      else match broadcast h with
           | u :: rest => Some (BGather u, mkHub s (updateChan h) rest (droppedBroadcasts h))
           | [] => if stop s then Some (BExit, h) else None
           end
  | BGather u =>
      let sequence := addU64 (updateSequence s) 1 in
      Some (BNext u sequence (clients s), withSrv (set_updateSequence sequence s) h)
  | BNext u sequence [] => Some (BSelect, h)
  | BNext u sequence (conn :: rest) =>
      let '(payload, s) := buildDeltaUpdatePayload primitiveSnapshotKey conn u sequence s in
      Some (BSend u sequence conn payload rest, withSrv s h)
  | BSend u sequence conn payload rest =>
      Some (BNext u sequence rest, withSrv (sendToClient conn (mkOut "update" (PUpdate payload)) s) h)
  | BExit => None
  end.

(** [updatePrimitiveStats], one round: fresh statistics for every primitive
    of every namespace. *)
Definition updateStatsOf (ns : string) (objs : list object) (m : gmap string nat) (sc : Scheduler.Scheduler)
    : Scheduler.Scheduler :=
  foldr (fun '(id, a) sc =>
    match objs !! a with
    | Some o => UpdatePrimitiveStats (qualifiedPrimID ns id) (statsOf o) sc
    | None => sc
    end) sc (map_to_list m).

Definition updatePrimitiveStats (s : Server) : Server :=
  set_scheduler
    (foldr (fun '(ns, p) sc =>
       match heap s !! p with
       | Some c => foldr (fun k sc => updateStatsOf ns (objects s) (mapOf k c) sc) sc kinds
       | None => sc
       end) (scheduler s) (map_to_list (namespaces s))) s.

(** ** Connections and goroutines together *)

Inductive hthread :=
| TSession (th : session (Raw:=Raw))
| TBroadcast (p : bpc)
| TTicker
| TForward (active : bool).

Definition hcall (r : request (Raw:=Raw)) (now : Z) (th : hthread) : option hthread :=
  match th with TSession x => TSession <$> scall r now x | _ => None end.

Definition hrun (o : oracle) (th : hthread) (h : hub) : option (hthread * hub) :=
  match th with
  | TSession x =>
      '(x, s) ← session_step V codec statsOf primitiveSnapshotKey o x (srv h); Some (TSession x, withSrv s h)
  | TBroadcast p => '(p, h) ← broadcastMessages_step o p h; Some (TBroadcast p, h)
  | TTicker => Some (TTicker, broadcastUpdates_tick (clk o) h)
  | TForward true => '(active, h) ← forwardSchedulerUpdates_step o h; Some (TForward active, h)
  | TForward false => None
  end.

Definition hubMachine : machine hub hthread (request (Raw:=Raw)) := Machine hcall hrun (fun _ h => h).
End Broadcast.

(** * The client's copy *)

Section Copy.
Context (keyOf : PrimitiveInfo -> string).

Lemma lookup_foldr_delete {A} (m : gmap string A) l id :
  foldr delete m l !! id = if decide (id ∈ l) then None else m !! id.
Proof.
  induction l as [|x l IH]; simpl; [done|].
  destruct (decide (id = x)) as [->|Hne].
  - rewrite lookup_delete_eq, decide_True; [done|by left].
  - rewrite lookup_delete_ne, IH by done.
    destruct (decide (id ∈ l)); [rewrite decide_True; [done|by right]|].
    rewrite decide_False; [done|]. by apply not_elem_of_cons.
Qed.

Lemma changedSince_lookup last prims id :
  changedSince keyOf last prims !! id =
  p ← prims !! id; if decide (last !! id = Some (keyOf p)) then None else Some p.
Proof.
  unfold changedSince. destruct (prims !! id) as [p|] eqn:E; simpl.
  - case_decide as Hk.
    + apply map_lookup_filter_None. right. intros p' Hp'. simplify_eq. simpl. by intros H.
    + by apply map_lookup_filter_Some.
  - apply map_lookup_filter_None. by left.
Qed.

Lemma deltaFor_set conn d s : deltaFor conn (set_deltaStates (<[conn:=d]> (deltaStates s)) s) = d.
Proof. unfold deltaFor. simpl. by rewrite lookup_insert_eq. Qed.

(** Merging one update: what the client had must be what the server noted. *)
Lemma delta_step conn u sequence s c :
  (keyOf <$> cPrims c) = lastPrimJSON (deltaFor conn s) ->
  let x := buildDeltaUpdatePayload keyOf conn u sequence s in
  let prims := filterPrimitivesForNamespace (uPrimitives u) (namespaceForConn conn s) in
  (keyOf <$> cPrims (handleUpdate x.1 c)) = (keyOf <$> prims) /\
  lastPrimJSON (deltaFor conn x.2) = (keyOf <$> prims).
Proof.
  intros Hc. simpl. rewrite deltaFor_set. simpl.
  set (ds := deltaFor conn s) in *.
  set (prims := filterPrimitivesForNamespace (uPrimitives u) (namespaceForConn conn s)).
  set (last1 := (keyOf <$> changedSince keyOf (lastPrimJSON ds) prims) ∪ lastPrimJSON ds).
  assert (H1 : forall id p, prims !! id = Some p -> last1 !! id = Some (keyOf p)).
  { intros id p Hp. unfold last1. rewrite lookup_union, lookup_fmap, changedSince_lookup, Hp. simpl.
    case_decide as Hk; simpl; [by rewrite Hk|]. by destruct (lastPrimJSON ds !! id). }
  assert (H2 : forall id, prims !! id = None -> last1 !! id = lastPrimJSON ds !! id).
  { intros id Hp. unfold last1. rewrite lookup_union, lookup_fmap, changedSince_lookup, Hp. simpl.
    by destruct (lastPrimJSON ds !! id). }
  split; apply map_eq; intros id; rewrite !lookup_fmap.
  - rewrite lookup_foldr_delete. case_decide as Hd.
    + apply list_elem_of_fmap in Hd as ([i k] & -> & Hi%elem_of_map_to_list%map_lookup_filter_Some).
      destruct Hi as [_ Hi]. simpl in *. by rewrite Hi.
    + rewrite lookup_union, changedSince_lookup. destruct (prims !! id) as [p|] eqn:Hp; simpl.
      * case_decide as Hk; simpl; [|by destruct (cPrims c !! id)].
        rewrite (left_id None (∪)), <- lookup_fmap, Hc. done.
      * rewrite (left_id None (∪)), <- lookup_fmap, Hc. destruct (lastPrimJSON ds !! id) as [k|] eqn:Ek; [|done].
        destruct Hd. apply list_elem_of_fmap. exists (id, k). split; [done|].
        apply elem_of_map_to_list, map_lookup_filter_Some. by rewrite H2.
  - destruct (prims !! id) as [p|] eqn:Hp; simpl.
    + apply map_lookup_filter_Some. simpl. rewrite Hp. split; [by apply H1|done].
    + apply map_lookup_filter_None. right. simpl. intros k _. rewrite Hp. by intros [? ?].
Qed.
End Copy.

(** * Theorems *)

Section Follow.
Context (keyOf : PrimitiveInfo -> string).

(** A message to one client: the whole state or the changes, at the state of
    the registry in the update. *)
Inductive act := AFull (u : SchedulerUpdate) (sequence : Z) | ADelta (u : SchedulerUpdate) (sequence : Z).
Definition actUpdate (a : act) : SchedulerUpdate := match a with AFull u _ | ADelta u _ => u end.

(** The server sends and the client receives, in the same order. *)
Definition follow1 (conn : nat) (a : act) (x : Server * client) : Server * client :=
  let '(s, c) := x in
  match a with
  | AFull u sequence =>
      let prims := filterPrimitivesForNamespace (uPrimitives u) (namespaceForConn conn s) in
      (seedDeltaState keyOf conn prims s, handleInitialState prims sequence c)
  | ADelta u sequence =>
      let '(p, s) := buildDeltaUpdatePayload keyOf conn u sequence s in (s, handleUpdate p c)
  end.

Definition follow (conn : nat) (acts : list act) (x : Server * client) : Server * client :=
  foldl (fun x a => follow1 conn a x) x acts.

Lemma follow1_ns conn a x : namespaceForConn conn (follow1 conn a x).1 = namespaceForConn conn x.1.
Proof. by destruct x as [s c], a. Qed.

Lemma follow_ns conn acts x : namespaceForConn conn (follow conn acts x).1 = namespaceForConn conn x.1.
Proof.
  unfold follow. revert x. induction acts as [|a acts IH]; intros x; simpl; [done|]. by rewrite IH, follow1_ns.
Qed.

(** The client knows what the server noted, and that is the registry of [u]. *)
Definition synced (conn : nat) (x : Server * client) (u : SchedulerUpdate) : Prop :=
  let prims := filterPrimitivesForNamespace (uPrimitives u) (namespaceForConn conn x.1) in
  (keyOf <$> cPrims x.2) = (keyOf <$> prims) /\ lastPrimJSON (deltaFor conn x.1) = (keyOf <$> prims).

Lemma synced_full conn x u n : synced conn (follow1 conn (AFull u n) x) u.
Proof.
  destruct x as [s c]. unfold synced. rewrite follow1_ns. simpl. split; [done|].
  unfold seedDeltaState. by rewrite deltaFor_set.
Qed.

Lemma synced_step conn x u a : synced conn x u -> synced conn (follow1 conn a x) (actUpdate a).
Proof.
  intros [H1 H2]. destruct a as [u' n|u' n]; [apply synced_full|]. unfold synced. rewrite follow1_ns.
  destruct x as [s c]. simpl in H1, H2. simpl actUpdate.
  pose proof (delta_step keyOf conn u' n s c ltac:(congruence)) as H. simpl in H. simpl. exact H.
Qed.

End Follow.

(** ** Concrete executions *)

Definition sampleHub : machine hub hthread (request (Raw := string * string)) :=
  hubMachine noTokens pairCodec noStats nameKey.

(** Two connections, the broadcaster, the ticker, the forwarder. *)
Definition hubStart : Prelude.config (Sh := hub) (Th := hthread (Raw := string * string)) :=
  (mkHub (started sampleConfig) [] [] 0,
   [TSession (mkSession 0 SNone None 0); TSession (mkSession 1 SNone None 0); TBroadcast BSelect; TTicker; TForward true]).

(** A publication, to the clients connected (two steps for each). *)
Definition publish (n : nat) : list (label (request (Raw := string * string))) :=
  runs 3 1 ++ runs 4 1 ++ runs 2 (2 + 2 * n).

(** Connection 1 asks for the namespace "team" and has made its first two
    registration steps when connection 0's mutex is published. *)
Definition leakRun : list (label (request (Raw := string * string))) :=
  connectAs 0 ++ message 0 "createMutex" "m" 6 ++ [Call 1%nat (Connect "" "team") 0] ++ runs 1 7 ++ publish 2.

Definition primsSent (x : nat * outMessage) : option (nat * gmap string PrimitiveInfo) :=
  match outPayload x.2 with PUpdate u => Some (x.1, Primitives u) | _ => None end.

(** A namespace can leak while a connection registers.  [registerClient]
    makes a connection visible to the broadcaster (clients, then writeMu)
    before it records the connection's namespace, and the namespace of an
    unknown connection is the default one: a client of "team" is sent a
    primitive of the default namespace. *)
Theorem registration_leak :
  exists h ths, reach sampleHub any_label hubStart (h, ths) /\
    ths !! 1%nat = Some (TSession (mkSession 1 (SReg None "team" RPrims) None 0)) /\
    exists prims, (1%nat, prims) ∈ omap primsSent (sent (srv h)) /\ is_Some (prims !! "m").
Proof.
  exists (after sampleHub leakRun hubStart).1, (after sampleHub leakRun hubStart).2.
  split; [apply (execs_reach sampleHub any_label leakRun); [apply Forall_any|by_eval]|].
  split; [by_eval|]. eexists. split; [|].
  - apply (list_elem_of_lookup_2 _ 1%nat). by_eval.
  - vm_compute. eauto.
Qed.

(** What a client makes of the messages sent to it. *)
Definition deliver (conn : nat) (msgs : list (nat * outMessage)) (c : client) : client :=
  foldl (fun c x =>
    if decide (x.1 = conn) then
      match outPayload x.2 with
      | PState prims _ _ _ sequence => handleInitialState prims sequence c
      | PUpdate u => handleUpdate u c
      | _ => c
      end
    else c) c msgs.

(** Connection 0 asks for a full refresh; between the note of what it will be
    sent and the sending, connection 1 creates a mutex and it is
    published. *)
Definition refreshRun : list (label (request (Raw := string * string))) :=
  connectAs 0 ++ connectAs 1 ++ message 0 "requestFullRefresh" "" 4 ++ message 1 "createMutex" "m" 6 ++
  publish 2 ++ runs 0 1.

(** A full refresh can lose an update.  [sendState] reads the registry,
    notes it as what the client has and sends it, in three critical sections.
    When a publication goes out between the last two, the client receives
    the newer update first and the older state last: it does not show the new
    mutex, the server believes it does, so no later update will mention it,
    and the sequence numbers show no gap. *)
Theorem refresh_loses_update :
  exists h ths, reach sampleHub any_label hubStart (h, ths) /\
    let c := deliver 0 (sent (srv h)) (mkClient ∅ 0 0) in
    let u := mkUpdate (GetPrimitives (scheduler (srv h))) ∅ [] (GetMetrics 0 (scheduler (srv h))) in
    cPrims c !! "m" = None /\
    is_Some (filterPrimitivesForNamespace (uPrimitives u) (namespaceForConn 0 (srv h)) !! "m") /\
    Primitives (buildDeltaUpdatePayload nameKey 0 u 2 (srv h)).1 = ∅ /\
    refreshRequests (handleUpdate (buildDeltaUpdatePayload nameKey 0 u 2 (srv h)).1 c) = 0.
Proof.
  exists (after sampleHub refreshRun hubStart).1, (after sampleHub refreshRun hubStart).2.
  split; [apply (execs_reach sampleHub any_label refreshRun); [apply Forall_any|by_eval]|].
  cbv zeta. split; [by_eval|]. split; [vm_compute; eauto|]. split; by_eval.
Qed.

(** * Fresh statistics change no entry's kind *)

Lemma stats_kind id st sc q :
  pType <$> Scheduler.primitives (UpdatePrimitiveStats id st sc) !! q = pType <$> Scheduler.primitives sc !! q.
Proof.
  unfold UpdatePrimitiveStats. destruct (Scheduler.primitives sc !! id) as [i|] eqn:E; [|done]. simpl.
  destruct (decide (q = id)) as [->|Hne]; [by rewrite lookup_insert_eq, E|by rewrite lookup_insert_ne].
Qed.

Lemma foldr_kind {A} (f : A -> Scheduler.Scheduler -> Scheduler.Scheduler) l sc q :
  (forall a sc, pType <$> Scheduler.primitives (f a sc) !! q = pType <$> Scheduler.primitives sc !! q) ->
  pType <$> Scheduler.primitives (foldr f sc l) !! q = pType <$> Scheduler.primitives sc !! q.
Proof. intros H. induction l as [|a l IH]; simpl; [done|]. by rewrite H, IH. Qed.

Lemma updatePrimitiveStats_view statsOf s ns id : viewOf (updatePrimitiveStats statsOf s) ns id = viewOf s ns id.
Proof.
  unfold viewOf. rewrite (cpOf_same s (updatePrimitiveStats statsOf s)) by done.
  unfold updatePrimitiveStats. cbn [scheduler metricsCollector set_scheduler]. do 3 f_equal. apply foldr_kind.
  intros [n p] sc. destruct (heap s !! p); [|done]. apply (foldr_kind _ kinds). intros k sc'. apply foldr_kind.
  intros [i a] sc2. destruct (objects s !! a); [apply stats_kind|done].
Qed.
