(* ===== verification/Http.v ===== *)
(** * The HTTP endpoints (web/server.go)

    [Start] routes requests to the WebSocket endpoint, the Prometheus
    metrics, the two probes and the static files, behind a test for ".." in
    the path; [pingLoop] keeps a WebSocket connection alive.

    A response is its status, headers and body.  Of the standard library the
    source uses here: [http.ServeMux] with [cleanPath] as of the language
    version in go.mod (1.21), [http.Error], [strconv.Quote] for strings of
    ASCII characters, [strings.Contains].  The formats of floating-point
    numbers and durations, the quoting of other strings, JSON encoding and
    the file server are arguments. *)

From Stdlib Require Import ZArith Lia Ascii.
From stdpp Require Import base list gmap strings pretty.
From S2P Require Import Prelude.
From S2P Require Import Auth.
From S2P Require Import AuditLog.
From S2P Require Import Scheduler.
From S2P Require Import Metrics.
From S2P Require Import Access.
From S2P Require Import Server.
From S2P Require Import Delta.

#[local] Open Scope Z_scope.

(** ** Bytes *)

Definition newline : ascii := ascii_of_nat 10.
Definition dquote : ascii := ascii_of_nat 34.
Definition backslash : ascii := ascii_of_nat 92.

(** The parts between the occurrences of a byte: never an empty list. *)
Fixpoint splitOn (c : ascii) (s : list ascii) : list (list ascii) :=
  match s with
  | [] => [[]]
  | a :: s =>
      if decide (a = c) then [] :: splitOn c s
      else match splitOn c s with p :: ps => (a :: p) :: ps | [] => [[a]] end
  end.

Fixpoint joinWith (c : ascii) (ps : list (list ascii)) : list ascii :=
  match ps with [] => [] | [p] => p | p :: ps => p ++ c :: joinWith c ps end.

(** [strings.Contains (s, "..")] *)
Fixpoint containsDots (s : list ascii) : bool :=
  match s with
  | "."%char :: ("."%char :: _) => true
  | _ :: s => containsDots s
  | [] => false
  end.

(** ** Requests and responses *)

Record request := mkRequest { method : string; path : string; requestURI : string }.

Inductive jval := JStr (s : string) | JInt (z : Z) | JSeconds (ns : Z) | JStrs (l : list string).

Inductive content := Text (s : string) | Lines (l : list string) | Json (m : gmap string jval) | File (p : string).

Record response := mkResponse { status : Z; headers : list (string * string); body : content }.

Definition StatusOK : Z := 200.
Definition StatusMovedPermanently : Z := 301.
Definition StatusBadRequest : Z := 400.
Definition StatusNotFound : Z := 404.
Definition StatusMethodNotAllowed : Z := 405.
Definition StatusInternalServerError : Z := 500.

(** [http.Error] *)
Definition httpError (hs : list (string * string)) (text : string) (code : Z) : response :=
  mkResponse code (hs ++ [("Content-Type", "text/plain; charset=utf-8"); ("X-Content-Type-Options", "nosniff")])
    (Text text).

Definition methodNotAllowed (allow : string) : response :=
  httpError [("Allow", allow)] "Method Not Allowed" StatusMethodNotAllowed.

(** ** strconv.Quote *)

Definition hexDigit (n : nat) : ascii := ascii_of_nat (if (n <? 10)%nat then 48 + n else 87 + n).

Definition quoteByte (a : ascii) : list ascii :=
  let n := nat_of_ascii a in
  let esc (c : ascii) := [backslash; c] in
  match n with
  | 7 => esc "a"%char | 8 => esc "b"%char | 9 => esc "t"%char | 10 => esc "n"%char | 11 => esc "v"%char
  | 12 => esc "f"%char | 13 => esc "r"%char | 34 => esc dquote | 92 => esc backslash
  | _ => if ((n <? 32) || (n =? 127))%nat
         then [backslash; "x"%char; hexDigit (n / 16); hexDigit (n mod 16)] else [a]
  end%nat.

Definition isASCII (s : list ascii) : bool := forallb (fun a => (nat_of_ascii a <? 128)%nat) s.

Section Endpoints.
Context (quoteUnicode : string -> string)              (* the bytes between the quotes *)
  (formatG formatF3 : Z -> string)                     (* %g and %.3f of so many nanoseconds in seconds *)
  (durationString : Z -> string).                      (* time.Duration.String *)

Definition Quote (s : string) : string :=
  String dquote ((if isASCII (bytesOf s) then ofBytes (bytesOf s ≫= quoteByte) else quoteUnicode s)
                 +:+ String dquote "").

(** ** The Prometheus text *)

Definition family (name help type : string) : list string :=
  ["# HELP " +:+ name +:+ " " +:+ help; "# TYPE " +:+ name +:+ " " +:+ type].

Definition sample (series value : string) : string := series +:+ " " +:+ value.

Definition simple (name help type value : string) : list string := family name help type ++ [sample name value].

Definition label (name value : string) : string := name +:+ "=" +:+ Quote value.

Definition leString (b : HistogramBucket) : string :=
  match Le b with None => "+Inf" | Some ns => formatG ns end.

Definition histogramSeries : string := "syncprim_wait_duration_seconds".

Definition bucketLine (id : string) (b : HistogramBucket) : string :=
  sample (histogramSeries +:+ "_bucket{" +:+ label "primitive" id +:+ "," +:+ label "le" (leString b) +:+ "}")
    (pretty (Count b)).

Definition histogramLines (id : string) (snap : PrimitiveMetricsSnapshot) : list string :=
  (bucketLine id <$> SnHistogram snap) ++
  [sample (histogramSeries +:+ "_sum{" +:+ label "primitive" id +:+ "}") (formatG (SnTotalWaitTime snap));
   sample (histogramSeries +:+ "_count{" +:+ label "primitive" id +:+ "}") (pretty (SnWaits snap))].

Definition authFailures (reason : string) (v : Z) : string :=
  sample ("syncprim_auth_failures_total{" +:+ label "reason" reason +:+ "}") (pretty v).

(** [snaps]: the entries of [GetAllMetrics] in the order of the [range]. *)
Definition metricsLines (now : Z) (snaps : list (string * PrimitiveMetricsSnapshot)) (h : hub) : list string :=
  let s := srv h in
  let g := GetGlobalMetrics now (metricsCollector s) in
  simple "syncprim_primitives_total" "Total registered primitives" "gauge" (pretty (Metrics.TotalPrimitives g)) ++
  simple "syncprim_acquires_total" "Total acquire operations" "counter" (pretty (TotalAcquires g)) ++
  simple "syncprim_releases_total" "Total release operations" "counter" (pretty (TotalReleases g)) ++
  simple "syncprim_waits_total" "Total wait operations" "counter" (pretty (TotalWaits g)) ++
  simple "syncprim_timeouts_total" "Total timeout operations" "counter" (pretty (TotalTimeouts g)) ++
  simple "syncprim_contentions_total" "Total contention events" "counter" (pretty (TotalContentions g)) ++
  simple "syncprim_uptime_seconds" "Server uptime in seconds" "gauge" (formatF3 (Metrics.Uptime g)) ++
  simple "syncprim_dropped_broadcasts_total" "Dropped broadcast messages" "counter" (pretty (droppedBroadcasts h)) ++
  simple "syncprim_rate_limit_hits_total" "Global message rate-limit rejections" "counter"
    (pretty (msgRateLimitHits s)) ++
  simple "syncprim_op_rate_limit_hits_total" "Primitive-op rate-limit rejections" "counter"
    (pretty (opRateLimitHits s)) ++
  family "syncprim_auth_failures_total" "Authentication failures by reason" "counter" ++
  [authFailures "expired" (authFailuresExpired s); authFailures "invalid_signature" (authFailuresInvalid s);
   authFailures "malformed" (authFailuresMalformed s)] ++
  match auditLogger s with
  | Some l => simple "syncprim_dropped_audit_events_total" "Dropped audit events" "counter" (pretty (Dropped l))
  | None => []
  end ++
  match snaps with
  | [] => []
  | _ => family histogramSeries "Wait duration histogram" "histogram" ++
         (snaps ≫= fun '(id, snap) => histogramLines id snap)
  end.

Definition handlePrometheusMetrics (now : Z) (snaps : list (string * PrimitiveMetricsSnapshot)) (r : request)
    (h : hub) : response :=
  if decide (method r <> "GET") then methodNotAllowed "GET"
  else mkResponse StatusOK [("Content-Type", "text/plain; version=0.0.4")] (Lines (metricsLines now snaps h)).

(** ** The probes *)

Definition handleHealthz (now : Z) (r : request) (h : hub) : response :=
  if decide (method r <> "GET") then methodNotAllowed "GET"
  else
    let s := srv h in
    let m := GetMetrics now (scheduler s) in
    mkResponse StatusOK [("Content-Type", "application/json")]
      (Json (<["status":=JStr "ok"]> (<["uptime_seconds":=JSeconds (Scheduler.Uptime m)]>
        (<["dropped_broadcasts":=JInt (droppedBroadcasts h)]>
        (<["dropped_audit_events":=JInt (match auditLogger s with None => 0 | Some l => Dropped l end)]>
        (<["rate_limit_hits":=JInt (msgRateLimitHits s)]> (<["op_rate_limit_hits":=JInt (opRateLimitHits s)]>
        {["histogram_buckets":=JStrs (durationString <$> GetHistogramBoundaries (metricsCollector s))]}))))))).

Definition handleReadyz (r : request) (h : hub) : response :=
  if decide (method r <> "GET") then methodNotAllowed "GET"
  else mkResponse StatusOK [("Content-Type", "application/json")] (Json {["status":=JStr "ready"]}).

(** The exported names of the endpoints, and what the tests read of the
    scheduler. *)
Definition HandleHealthz (now : Z) (r : request) (h : hub) : response := handleHealthz now r h.

Definition HandleReadyz (r : request) (h : hub) : response := handleReadyz r h.

Definition HandlePrometheusMetrics (now : Z) (snaps : list (string * PrimitiveMetricsSnapshot)) (r : request)
    (h : hub) : response := handlePrometheusMetrics now snaps r h.

Definition GetSchedulerMetrics (now : Z) (h : hub) : SchedulerMetrics := GetMetrics now (scheduler (srv h)).

Definition GetSchedulerPrimitives (h : hub) : gmap string PrimitiveInfo := GetPrimitives (scheduler (srv h)).

(** ** Static files

    [sub]: does [fs.Sub] find the directory; [fileServer] answers for the
    path of the request. *)
Definition HandleStatic (sub : bool) (fileServer : request -> response) (r : request) : response :=
  if decide (method r <> "GET" /\ method r <> "HEAD") then methodNotAllowed "GET, HEAD"
  else if negb sub then httpError [] "Internal Server Error" StatusInternalServerError
  else fileServer r.

(** ** http.ServeMux *)

Definition slash : ascii := "/"%char.

(** The elements [path.Clean] keeps of a rooted path, last first in [acc]. *)
Fixpoint cleanElems (acc es : list (list ascii)) : list (list ascii) :=
  match es with
  | [] => reverse acc
  | e :: es =>
      if decide (e = [] \/ e = ["."%char]) then cleanElems acc es
      else if decide (e = ["."%char; "."%char]) then cleanElems (tail acc) es
      else cleanElems (e :: acc) es
  end.

Definition pathClean (p : list ascii) : list ascii := slash :: joinWith slash (cleanElems [] (splitOn slash p)).

Definition endsWithSlash (p : list ascii) : bool := bool_decide (last p = Some slash).

Definition cleanPath (p : list ascii) : list ascii :=
  match p with
  | [] => [slash]
  | a :: _ =>
      let p := if decide (a = slash) then p else slash :: p in
      let np := pathClean p in
      if endsWithSlash p && bool_decide (np <> [slash]) then np ++ [slash] else np
  end.

Inductive route := RouteWebSocket | RouteMetrics | RouteHealthz | RouteReadyz | RouteStatic.

#[export] Instance route_eq_dec : EqDecision route.
Proof. solve_decision. Defined.

(** [mux.match]: an exact pattern, else the pattern "/". *)
Definition muxMatch (p : list ascii) : option route :=
  if decide (p = bytesOf "/ws") then Some RouteWebSocket
  else if decide (p = bytesOf "/metrics") then Some RouteMetrics
  else if decide (p = bytesOf "/healthz") then Some RouteHealthz
  else if decide (p = bytesOf "/readyz") then Some RouteReadyz
  else match p with a :: _ => if decide (a = slash) then Some RouteStatic else None | [] => None end.

Inductive dispatch := DBadRequest | DNotFound | DRedirect (p : string) | DHandler (r : route).

Definition muxServe (r : request) : dispatch :=
  if decide (requestURI r = "*") then DBadRequest
  else
    let p := bytesOf (path r) in
    let found q := match muxMatch q with Some h => DHandler h | None => DNotFound end in
    if decide (method r = "CONNECT") then found p
    else if decide (cleanPath p = p) then found p else DRedirect (ofBytes (cleanPath p)).

(** The handler of [Start]. *)
Definition startHandler (r : request) : dispatch :=
  if containsDots (bytesOf (path r)) then DNotFound else muxServe r.

(** ** Keeping a connection alive

    [pingLoop] sets a read deadline, moves it at every pong, and sends a ping
    at every tick until the server stops, the connection is gone or a write
    fails. *)
Definition pingInterval : Z := 30 * Second.
Definition pongTimeout : Z := 60 * Second.

Definition pingLoop_start (now : Z) : Z := now + pongTimeout.
Definition pongHandler (now : Z) : Z := now + pongTimeout.

(** One tick: [true] when the loop goes on. *)
Definition pingLoop_tick (conn : nat) (writeOk : bool) (s : Server) : bool :=
  if stop s then false else if decide (conn ∉ writeMu s) then false else writeOk.

(** The connection seen from its reader: every event finds the deadline not
    passed, or the read has failed. *)
Inductive pingEvent := Tick (t : Z) (writeOk : bool) | Pong (t : Z).

Definition ping_step (conn : nat) (s : Server) (e : pingEvent) (st : bool * Z) : option (bool * Z) :=
  let '(running, deadline) := st in
  match e with
  | Tick t ok => if deadline <? t then None else Some (running && pingLoop_tick conn ok s, deadline)
  | Pong t => if deadline <? t then None else Some (running, pongHandler t)
  end.

Fixpoint pingRun (conn : nat) (s : Server) (es : list pingEvent) (st : bool * Z) : option (bool * Z) :=
  match es with
  | [] => Some st
  | e :: es => st ← ping_step conn s e st; pingRun conn s es st
  end.

(** ** Start *)

Inductive serveErr := ErrServerClosed | ServeErr (e : string).

(** [listen tls]: how [ListenAndServe] or [ListenAndServeTLS] returns. *)
Definition Start (cfg : Config) (listen : bool -> serveErr) : option string :=
  let tls := bool_decide (TLSCertFile cfg <> "") && bool_decide (TLSKeyFile cfg <> "") in
  match listen tls with ErrServerClosed => None | ServeErr e => Some e end.
End Endpoints.

(** * Paths *)

Section Paths.
Context (c : ascii).

Lemma splitOn_cons a s p ps : a <> c -> splitOn c s = p :: ps -> splitOn c (a :: s) = (a :: p) :: ps.
Proof. intros Ha Hs. simpl. by rewrite decide_False, Hs. Qed.

Lemma splitOn_sep s : splitOn c (c :: s) = [] :: splitOn c s.
Proof. simpl. by rewrite decide_True. Qed.

Lemma splitOn_nonempty s : splitOn c s <> [].
Proof. destruct s as [|a s]; simpl; [done|]. case_decide; [done|]. by destruct (splitOn c s). Qed.

Lemma join_splitOn s : joinWith c (splitOn c s) = s.
Proof.
  induction s as [|a s IH]; [done|]. pose proof (splitOn_nonempty s) as Hn. simpl. case_decide as E.
  - subst. simpl. destruct (splitOn c s) eqn:Es; [done|]. by rewrite IH.
  - destruct (splitOn c s) as [|p ps] eqn:Es; [done|]. simpl in *. destruct ps; by rewrite <- IH.
Qed.

Lemma splitOn_free s p : p ∈ splitOn c s -> c ∉ p.
Proof.
  revert p. induction s as [|a s IH]; intros p; simpl.
  - intros ->%list_elem_of_singleton. by apply not_elem_of_nil.
  - case_decide as E.
    + intros [->|Hp]%elem_of_cons; [by apply not_elem_of_nil|auto].
    + destruct (splitOn c s) as [|q qs] eqn:Es.
      * intros ->%list_elem_of_singleton. rewrite list_elem_of_singleton. congruence.
      * intros [->|Hp]%elem_of_cons; [|apply IH; by right]. rewrite not_elem_of_cons.
        split; [congruence|]. apply IH. left.
Qed.

Lemma splitOn_app p s : c ∉ p -> splitOn c (p ++ c :: s) = p :: splitOn c s.
Proof.
  induction p as [|a p IH]; intros Hp; [apply splitOn_sep|].
  apply not_elem_of_cons in Hp as [Ha Hp]. simpl app. apply splitOn_cons; [congruence|auto].
Qed.

Lemma splitOn_one p : c ∉ p -> splitOn c p = [p].
Proof.
  induction p as [|a p IH]; intros Hp; [done|].
  apply not_elem_of_cons in Hp as [Ha Hp]. apply splitOn_cons; [congruence|auto].
Qed.

Lemma splitOn_join ps : ps <> [] -> Forall (fun p => c ∉ p) ps -> splitOn c (joinWith c ps) = ps.
Proof.
  induction ps as [|p ps IH]; intros Hn Hf; [done|]. inversion Hf as [|? ? Hp Hps]; subst.
  destruct ps as [|q ps]; [by apply splitOn_one|]. simpl. rewrite splitOn_app by done. f_equal. by apply IH.
Qed.

Lemma joinWith_snoc ps : ps <> [] -> joinWith c (ps ++ [[]]) = joinWith c ps ++ [c].
Proof.
  induction ps as [|p ps IH]; intros Hn; [done|]. destruct ps as [|q ps]; [done|].
  change ((p :: q :: ps) ++ [[]]) with (p :: (q :: ps) ++ [[]]).
  replace (joinWith c (p :: (q :: ps) ++ [[]])) with (p ++ c :: joinWith c ((q :: ps) ++ [[]])) by done.
  rewrite IH by done. simpl. by rewrite <- app_assoc.
Qed.
End Paths.

(** ** Dots *)

Lemma containsDots_sep a b : containsDots (a ++ slash :: b) = containsDots a || containsDots b.
Proof.
  induction a as [|x a IH]; [done|]. simpl app.
  assert (E : forall y s, containsDots (y :: s) =
    (bool_decide (y = "."%char) && bool_decide (head s = Some "."%char)) || containsDots s).
  { intros y s. destruct (decide (y = "."%char)) as [->|Hy].
    - rewrite (bool_decide_eq_true_2 ("."%char = "."%char)) by done. simpl.
      destruct s as [|z s]; [done|]. simpl. destruct (decide (z = "."%char)) as [->|Hz].
      + by rewrite bool_decide_eq_true_2.
      + rewrite bool_decide_eq_false_2 by congruence. simpl.
        destruct z as [[] [] [] [] [] [] [] []]; try done.
    - rewrite (bool_decide_eq_false_2 _ Hy). simpl. destruct y as [[] [] [] [] [] [] [] []]; done. }
  rewrite !E, IH. destruct a as [|z a]; simpl; [|by rewrite orb_assoc].
  by destruct (bool_decide (x = "."%char)).
Qed.

Lemma containsDots_join ps : containsDots (joinWith slash ps) = existsb containsDots ps.
Proof.
  induction ps as [|p ps IH]; [done|]. destruct ps as [|q ps]; [simpl; by rewrite orb_false_r|].
  simpl joinWith. rewrite containsDots_sep. simpl in IH. by rewrite IH.
Qed.

(** ** Cleaning is idempotent *)

Definition kept (e : list ascii) : Prop := e <> [] /\ e <> ["."%char].

#[export] Instance kept_dec e : Decision (kept e).
Proof. unfold kept. apply _. Defined.

(** Elements of a path without "..". *)
Definition plain (e : list ascii) : Prop := (slash ∉ e) /\ containsDots e = false.

Lemma cleanElems_filter acc es :
  Forall plain es -> cleanElems acc es = reverse acc ++ filter kept es.
Proof.
  intros H. revert acc. induction H as [|e es [_ He] _ IH]; intros acc; simpl; [by rewrite app_nil_r|].
  rewrite filter_cons. case_decide as E1.
  - rewrite decide_False by (intros [? ?]; tauto). apply IH.
  - rewrite (decide_True (P := kept e)) by (split; tauto). case_decide as E2; [by subst|].
    rewrite IH, reverse_cons, <- app_assoc. done.
Qed.

Lemma split_plain p : containsDots p = false -> Forall plain (splitOn slash p).
Proof.
  intros Hp. rewrite <- (join_splitOn slash p), containsDots_join in Hp.
  apply Forall_forall. intros e He. split; [by eapply splitOn_free|].
  destruct (containsDots e) eqn:E; [|done]. exfalso. rewrite <- not_true_iff_false in Hp. apply Hp, existsb_exists.
  exists e. split; [by apply list_elem_of_In|done].
Qed.

Definition elems (p : list ascii) : list (list ascii) := filter kept (splitOn slash p).

Lemma pathClean_elems p : containsDots p = false -> pathClean p = slash :: joinWith slash (elems p).
Proof. intros Hp. unfold pathClean. rewrite cleanElems_filter by (by apply split_plain). done. Qed.

Lemma elems_plain p : containsDots p = false -> Forall (fun e => plain e /\ kept e) (elems p).
Proof.
  intros Hp. apply Forall_forall. intros e [He Hin]%list_elem_of_filter. split; [|done].
  exact (proj1 (Forall_forall _ _) (split_plain p Hp) e Hin).
Qed.

Lemma filter_kept_id es : Forall (fun e => plain e /\ kept e) es -> filter kept es = es.
Proof. induction 1 as [|e es [_ He] _ IH]; [done|]. rewrite filter_cons, decide_True by done. by rewrite IH. Qed.

(** The elements of a path put together again. *)
Lemma elems_joined es :
  Forall (fun e => plain e /\ kept e) es -> elems (slash :: joinWith slash es) = es.
Proof.
  intros H. unfold elems. rewrite splitOn_sep, filter_cons, decide_False by (intros [? _]; done).
  destruct es as [|e es]; [done|]. rewrite splitOn_join; [by apply filter_kept_id|done|].
  eapply Forall_impl; [exact H|]. by intros ? [[? _] _].
Qed.

Lemma elems_joined_slash es :
  Forall (fun e => plain e /\ kept e) es -> es <> [] -> elems (slash :: joinWith slash es ++ [slash]) = es.
Proof.
  intros H Hn. rewrite <- joinWith_snoc by done. unfold elems.
  rewrite splitOn_sep, filter_cons, decide_False by (intros [? _]; done).
  rewrite splitOn_join; [|by destruct es|].
  - rewrite filter_app, filter_kept_id by done. rewrite filter_cons, decide_False by (intros [? _]; done).
    by rewrite app_nil_r.
  - apply Forall_app. split; [|repeat constructor; apply not_elem_of_nil].
    eapply Forall_impl; [exact H|]. by intros ? [[? _] _].
Qed.

Lemma joined_dots es :
  Forall (fun e => plain e /\ kept e) es -> containsDots (slash :: joinWith slash es) = false.
Proof.
  intros H. change (slash :: joinWith slash es) with ([] ++ slash :: joinWith slash es).
  rewrite containsDots_sep, containsDots_join. simpl.
  induction H as [|e es [[_ He] _] _ IH]; [done|]. simpl. by rewrite He.
Qed.

Lemma last_joined es :
  Forall (fun e => plain e /\ kept e) es -> es <> [] -> last (slash :: joinWith slash es) <> Some slash.
Proof.
  intros H Hn. assert (Hl : last (joinWith slash es) <> Some slash /\ joinWith slash es <> []).
  { induction H as [|e es [[Hs _] [He _]] Hes IH]; [done|]. destruct es as [|q es].
    - simpl. split; [|done]. intros [l ->]%last_Some. apply Hs. set_solver.
    - replace (joinWith slash (e :: q :: es)) with (e ++ slash :: joinWith slash (q :: es)) by done.
      split; [|by destruct e]. destruct IH as [IH1 IH2]; [done|]. rewrite last_app, last_cons.
      by destruct (last (joinWith slash (q :: es))) eqn:E; [|apply last_None in E]. }
  destruct Hl as [Hl Hj]. destruct (joinWith slash es) as [|a l]; [done|]. by simpl.
Qed.

(** A cleaned path: its elements, with or without a final slash. *)
Lemma cleanPath_spec p :
  containsDots p = false -> exists es, Forall (fun e => plain e /\ kept e) es /\
    (cleanPath p = slash :: joinWith slash es \/ (es <> [] /\ cleanPath p = slash :: joinWith slash es ++ [slash])).
Proof.
  intros Hp. destruct p as [|a p']; [exists []; split; [done|by left]|]. unfold cleanPath.
  set (p := if decide (a = slash) then a :: p' else slash :: a :: p').
  assert (Hd : containsDots p = false).
  { unfold p. case_decide; [done|]. change (slash :: a :: p') with ([] ++ slash :: (a :: p')).
    by rewrite containsDots_sep. }
  exists (elems p). split; [by apply elems_plain|]. rewrite pathClean_elems by done.
  destruct (endsWithSlash p); simpl; [|by left]. case_bool_decide as E; [|by left]. right.
  split; [|done]. intros E0. apply E. by rewrite E0.
Qed.

Lemma cleanPath_idem p : containsDots p = false -> cleanPath (cleanPath p) = cleanPath p.
Proof.
  intros Hp. destruct (cleanPath_spec p Hp) as (es & Hes & [->|[Hn ->]]).
  - unfold cleanPath. rewrite decide_True by done. rewrite pathClean_elems by (by apply joined_dots).
    rewrite elems_joined by done. unfold endsWithSlash. case_bool_decide as E; [|done]. simpl.
    case_bool_decide as E2; [|done]. exfalso. apply (last_joined es Hes); [|done]. intros ->. done.
  - unfold cleanPath. rewrite decide_True by done.
    assert (Hd : containsDots (slash :: joinWith slash es ++ [slash]) = false).
    { change (slash :: joinWith slash es ++ [slash]) with ((slash :: joinWith slash es) ++ slash :: []).
      rewrite containsDots_sep, joined_dots by done. done. }
    rewrite pathClean_elems, elems_joined_slash by done. unfold endsWithSlash.
    rewrite bool_decide_eq_true_2.
    2: { change (slash :: joinWith slash es ++ [slash]) with ((slash :: joinWith slash es) ++ [slash]).
         apply last_snoc. }
    simpl. rewrite bool_decide_eq_true_2; [done|]. intros [= E]. destruct es as [|e [|q es]]; [done| |].
    + inversion Hes as [|? ? [_ [? _]] _]; subst. simpl in E. done.
    + simpl in E. by destruct e.
Qed.

(** * Theorems: routing *)

Lemma muxMatch_rooted p : head p = Some slash -> exists h, muxMatch p = Some h.
Proof.
  intros H. unfold muxMatch. repeat (case_decide; [by eexists|]). destruct p as [|a p]; [done|].
  simpl in H. rewrite decide_True by congruence. by eexists.
Qed.

Lemma cleanPath_rooted p : containsDots p = false -> head (cleanPath p) = Some slash.
Proof. intros Hp. by destruct (cleanPath_spec p Hp) as (es & _ & [-> |[_ ->]]). Qed.

Lemma cleanPath_dots p : containsDots p = false -> containsDots (cleanPath p) = false.
Proof.
  intros Hp. destruct (cleanPath_spec p Hp) as (es & Hes & [-> |[_ ->]]); [by apply joined_dots|].
  change (slash :: joinWith slash es ++ [slash]) with ((slash :: joinWith slash es) ++ slash :: []).
  by rewrite containsDots_sep, joined_dots.
Qed.

(** Routing ends after one redirect and never leaves the tree.  A request
    whose path contains ".." is answered 404 whatever its method; every other
    request (of a method but CONNECT) is handled at once or redirected once,
    to a path that begins with a slash, has no element ".", ".." or empty
    element before its end, and is handled without another redirect. *)
Theorem routing_redirects_once r :
  requestURI r <> "*" -> method r <> "CONNECT" ->
  if containsDots (bytesOf (path r)) then startHandler r = DNotFound
  else (exists h, startHandler r = DHandler h) \/
    exists p es h, startHandler r = DRedirect p /\ startHandler (mkRequest (method r) p (requestURI r)) = DHandler h /\
      Forall (fun e => plain e /\ kept e) es /\
      (bytesOf p = slash :: joinWith slash es \/ bytesOf p = slash :: joinWith slash es ++ [slash]).
Proof.
  intros HU HM. unfold startHandler, muxServe. destruct (containsDots (bytesOf (path r))) eqn:Hd; [done|].
  rewrite decide_False by done. rewrite (decide_False (P := method r = "CONNECT")) by done.
  set (q := bytesOf (path r)) in *. case_decide as E.
  - left. destruct (muxMatch_rooted q) as [h Hh]; [rewrite <- E; by apply cleanPath_rooted|]. exists h. by rewrite Hh.
  - right. destruct (cleanPath_spec q Hd) as (es & Hes & HE).
    destruct (muxMatch_rooted (cleanPath q)) as [h Hh]; [by apply cleanPath_rooted|].
    exists (ofBytes (cleanPath q)), es, h. simpl. rewrite String.list_ascii_of_string_of_list_ascii.
    rewrite cleanPath_dots by done. rewrite decide_False by done.
    rewrite (decide_False (P := method r = "CONNECT")) by done.
    rewrite decide_True by (by apply cleanPath_idem). rewrite Hh.
    split; [done|]. split; [done|]. split; [done|]. destruct HE as [?|[_ ?]]; auto.
Qed.

Lemma routing_redirects_once_witness :
  startHandler (mkRequest "GET" "//a/./b/" "//a/./b/") = DRedirect "/a/b/" /\
  exists h, startHandler (mkRequest "GET" "/a/b/" "//a/./b/") = DHandler h.
Proof.
  split; [by_eval|].
  destruct (routing_redirects_once (mkRequest "GET" "//a/./b/" "//a/./b/")) as [[h H]|(p & es & h & H1 & H2 & _)];
    [done|done|..].
  - exfalso. vm_compute in H. discriminate.
  - exists h. vm_compute in H1. injection H1 as <-. exact H2.
Defined.

(** * Theorems: keeping a connection alive *)

(** The [n]th ping after [start] and the answer to it, [d] later. *)
Definition round (start : Z) (n : nat) (d : Z) : list pingEvent :=
  let t := start + Z.of_nat (S n) * pingInterval in [Tick t true; Pong (t + d)].

Fixpoint rounds (start : Z) (n : nat) (ds : list Z) : list pingEvent :=
  match ds with [] => [] | d :: ds => round start n d ++ rounds start (S n) ds end.

(** A client that answers every ping before the next one is never cut off,
    however long the connection lasts. *)
Theorem ping_keeps_alive conn s start ds :
  stop s = false -> conn ∈ writeMu s -> Forall (fun d => 0 <= d <= pingInterval) ds ->
  exists dl, pingRun conn s (rounds start 0 ds) (true, pingLoop_start start) = Some (true, dl) /\
    start + Z.of_nat (S (length ds)) * pingInterval <= dl.
Proof.
  intros Hs Hc Hd. change 0%nat with (length (@nil Z)) at 1.
  assert (G : forall n dl, start + Z.of_nat (S (S n)) * pingInterval <= dl ->
    exists dl', pingRun conn s (rounds start n ds) (true, dl) = Some (true, dl') /\
      start + Z.of_nat (S (n + length ds)) * pingInterval <= dl').
  { induction Hd as [|d ds Hd _ IH]; intros n dl Hdl.
    - exists dl. split; [done|]. simpl length. unfold pingInterval, Second in *. lia.
    - cbn [rounds round app pingRun ping_step mbind option_bind].
      rewrite (proj2 (Z.ltb_ge _ _)) by (unfold pingInterval, Second in *; lia).
      unfold pingLoop_tick. rewrite Hs, decide_False by (intros H; by apply H). cbn [mbind option_bind ping_step].
      rewrite (proj2 (Z.ltb_ge _ _)) by (unfold pingInterval, Second in *; lia). cbn [mbind option_bind].
      destruct (IH (S n) (pongHandler (start + Z.of_nat (S n) * pingInterval + d))) as (dl' & E & Hl).
      + unfold pongHandler, pongTimeout, pingInterval, Second in *. lia.
      + exists dl'. split; [exact E|]. simpl length. rewrite Nat.add_succ_r. exact Hl. }
  apply (G 0%nat). unfold pingLoop_start, pongTimeout, pingInterval, Second. lia.
Qed.

(** A server without clients, with metrics [mc]. *)
Definition sampleServer (mc : MetricsCollector) : Server :=
  mkServer sampleConfig (NewScheduler 0) mc [] [] ∅ ∅ [] {[0%nat]} ∅ ∅ 0 0 0 0 0 0 0 0 0 false false false 0 ∅ 0 0
    None [] [].

Lemma ping_keeps_alive_witness :
  exists dl, pingRun 0 (sampleServer (NewMetricsCollector 0)) (rounds 0 0 [5 * Second; 30 * Second])
    (true, pingLoop_start 0) = Some (true, dl) /\ 90 * Second <= dl.
Proof.
  apply (ping_keeps_alive 0 (sampleServer (NewMetricsCollector 0)) 0 [5 * Second; 30 * Second]);
    [done|simpl; set_solver|]. repeat constructor; unfold pingInterval, Second; lia.
Defined.

(** * Theorems: the metrics can be read back *)

(** What a scraper does with the text: it splits it into lines, skips the
    comments and cuts the others at the last space. *)
Definition render (l : list string) : string := foldr (fun x acc => x +:+ String newline acc) "" l.

Definition space : ascii := " "%char.

Definition parseSample (l : list ascii) : option (string * string) :=
  match l with
  | [] => None
  | a :: _ =>
      if decide (a = "#"%char) then None
      else match reverse (splitOn space l) with
           | v :: ((_ :: _) as ps) => Some (ofBytes (joinWith space (reverse ps)), ofBytes v)
           | _ => None
           end
  end.

Definition scrape (text : string) : list (string * string) :=
  omap parseSample (splitOn newline (bytesOf text)).

Definition oneLine (s : string) : Prop := newline ∉ bytesOf s.

Lemma split_render l :
  Forall oneLine l -> splitOn newline (bytesOf (render l)) = (String.list_ascii_of_string <$> l) ++ [[]].
Proof.
  induction 1 as [|x l Hx _ IH]; simpl; [done|]. rewrite bytesOf_app. simpl.
  rewrite splitOn_app by done. by rewrite IH.
Qed.

Lemma scrape_render l :
  Forall oneLine l -> scrape (render l) = omap (fun x => parseSample (bytesOf x)) l.
Proof.
  intros H. unfold scrape. rewrite split_render by done. rewrite omap_app. simpl. rewrite app_nil_r.
  clear H. induction l as [|x l IH]; csimpl; [done|]. by rewrite IH.
Qed.

Definition word (s : string) : Prop := space ∉ bytesOf s.

Lemma joinWith_app c ps qs : ps <> [] -> qs <> [] -> joinWith c (ps ++ qs) = joinWith c ps ++ c :: joinWith c qs.
Proof.
  induction ps as [|p ps IH]; intros Hp Hq; [done|]. destruct ps as [|p' ps]; [by destruct qs|].
  replace (joinWith c ((p :: p' :: ps) ++ qs)) with (p ++ c :: joinWith c ((p' :: ps) ++ qs)) by done.
  rewrite IH by done. simpl. by rewrite <- app_assoc.
Qed.

Lemma splitOn_last c a b : c ∉ b -> splitOn c (a ++ c :: b) = splitOn c a ++ [b].
Proof.
  intros Hb. induction a as [|x a IH]; simpl.
  - rewrite decide_True by done. by rewrite splitOn_one.
  - rewrite IH. case_decide; [done|]. destruct (splitOn c a) eqn:E; [by apply splitOn_nonempty in E|done].
Qed.

Lemma parse_sample series value :
  head (bytesOf series) <> Some "#"%char -> bytesOf series <> [] -> word value ->
  parseSample (bytesOf (sample series value)) = Some (series, value).
Proof.
  intros Hh Hn Hv. unfold sample. rewrite !bytesOf_app. simpl.
  assert (E : splitOn space (bytesOf series ++ space :: bytesOf value) = splitOn space (bytesOf series) ++ [bytesOf value])
    by (by apply splitOn_last).
  destruct (bytesOf series) as [|a l] eqn:Es; [done|]. simpl in Hh. change " "%char with space.
  unfold parseSample. cbn [app]. cbn [app] in E. rewrite E. rewrite decide_False by congruence. rewrite reverse_app.
  pose proof (splitOn_nonempty space (a :: l)) as Hne.
  destruct (reverse (splitOn space (a :: l))) as [|p ps] eqn:Er.
  { apply (f_equal reverse) in Er. rewrite reverse_involutive in Er. by apply Hne in Er. }
  change (reverse [bytesOf value] ++ p :: ps) with (bytesOf value :: p :: ps). cbv iota beta.
  rewrite <- Er, reverse_involutive, join_splitOn, <- Es.
  by rewrite !String.string_of_list_ascii_of_string.
Qed.

(** ** Numbers and quoted strings *)

Definition numeric (a : ascii) : bool :=
  bool_decide (a = "-"%char) || ((48 <=? nat_of_ascii a) && (nat_of_ascii a <=? 57))%nat.

Lemma pretty_N_char_numeric x : numeric (pretty_N_char x) = true.
Proof. unfold pretty_N_char. by repeat case_match. Qed.

Lemma pretty_N_go_numeric x s :
  forallb numeric (bytesOf s) = true -> forallb numeric (bytesOf (pretty_N_go x s)) = true.
Proof.
  revert s. induction (N.lt_wf_0 x) as [x _ IH]; intros s Hs.
  assert (x = 0 \/ 0 < x)%N as [->|Hx] by lia; [by rewrite pretty_N_go_0|].
  rewrite pretty_N_go_step by done. apply IH; [by apply N.div_lt|].
  cbn [forallb String.list_ascii_of_string]. by rewrite pretty_N_char_numeric, Hs.
Qed.

Lemma pretty_N_numeric (x : N) : forallb numeric (bytesOf (pretty x)) = true.
Proof. unfold pretty, pretty_N. case_decide; [done|]. by apply pretty_N_go_numeric. Qed.

Lemma pretty_Z_numeric (z : Z) : forallb numeric (bytesOf (pretty z)) = true.
Proof.
  unfold pretty, pretty_Z. destruct z as [|p|p]; [done|apply (pretty_N_numeric (N.pos p))|].
  rewrite bytesOf_app. simpl. apply (pretty_N_numeric (N.pos p)).
Qed.

Lemma numeric_clean s a :
  forallb numeric (bytesOf s) = true -> numeric a = false -> a ∉ bytesOf s.
Proof.
  intros Hs Ha Hin. rewrite forallb_forall in Hs. rewrite (Hs a) in Ha; [done|]. by apply list_elem_of_In.
Qed.

Lemma pretty_word (z : Z) : word (pretty z).
Proof. apply numeric_clean; [apply pretty_Z_numeric|done]. Qed.

Lemma pretty_oneLine (z : Z) : oneLine (pretty z).
Proof. apply numeric_clean; [apply pretty_Z_numeric|done]. Qed.

Lemma oneLine_app a b : oneLine (a +:+ b) <-> oneLine a /\ oneLine b.
Proof. unfold oneLine. rewrite bytesOf_app, not_elem_of_app. tauto. Qed.

Lemma quoteByte_oneLine a : newline ∉ quoteByte a.
Proof.
  apply (bool_decide_unpack (newline ∉ quoteByte a)).
  destruct a as [[] [] [] [] [] [] [] []]; vm_compute; done.
Qed.

Section Scrape.
Context (quoteUnicode : string -> string) (formatG formatF3 : Z -> string).
(** No format contains a newline, and no number a space. *)
Hypothesis HQ : forall s, isASCII (bytesOf s) = false -> oneLine (quoteUnicode s).
Hypothesis HG : forall ns, oneLine (formatG ns) /\ word (formatG ns).
Hypothesis HF : forall ns, oneLine (formatF3 ns) /\ word (formatF3 ns).

Lemma Quote_oneLine s : oneLine (Quote quoteUnicode s).
Proof.
  unfold Quote. change (String dquote ?x) with (String dquote "" +:+ x). rewrite !oneLine_app.
  assert (Hd : oneLine (String dquote "")) by (unfold oneLine; by_decide).
  split; [done|]. split; [|done]. destruct (isASCII (bytesOf s)) eqn:E; [|by apply HQ].
  unfold oneLine. rewrite String.list_ascii_of_string_of_list_ascii. intros (b & Hb & _)%list_elem_of_bind.
  by apply quoteByte_oneLine in Hb.
Qed.

Ltac lines :=
  repeat first [rewrite oneLine_app; split | apply Quote_oneLine | apply pretty_oneLine | apply HG | apply HF
    | unfold oneLine; by_decide].

Lemma label_oneLine name v : oneLine name -> oneLine (label quoteUnicode name v).
Proof. intros Hn. unfold label. lines; done. Qed.

Lemma sample_oneLine series v : oneLine series -> oneLine v -> oneLine (sample series v).
Proof. intros. unfold sample. lines; done. Qed.

Lemma simple_oneLine name help ty v :
  oneLine name -> oneLine help -> oneLine ty -> oneLine v -> Forall oneLine (simple name help ty v).
Proof. intros. unfold simple, family. repeat constructor; unfold sample; lines; done. Qed.

Lemma histogram_oneLine id snap : Forall oneLine (histogramLines quoteUnicode formatG id snap).
Proof.
  unfold histogramLines. apply Forall_app. split.
  - apply Forall_fmap, Forall_forall. intros b _. unfold compose, bucketLine, sample, label, histogramSeries. lines.
  - repeat constructor; unfold sample, label, histogramSeries; lines.
Qed.

Lemma metricsLines_oneLine now snaps h :
  Forall oneLine (metricsLines quoteUnicode formatG formatF3 now snaps h).
Proof.
  unfold metricsLines. do 10 (apply Forall_app; split; [apply simple_oneLine; lines|]).
  apply Forall_app; split; [unfold family; repeat constructor; lines|].
  apply Forall_app; split; [repeat constructor; unfold authFailures, sample, label; lines|].
  apply Forall_app; split.
  - destruct (auditLogger (srv h)); [|constructor]. apply simple_oneLine; lines.
  - destruct snaps as [|x snaps]; [constructor|]. apply Forall_app. split; [unfold family; repeat constructor; lines|].
    apply Forall_forall. intros l ([id snap] & Hl & _)%list_elem_of_bind.
    exact (proj1 (Forall_forall _ _) (histogram_oneLine id snap) l Hl).
Qed.

Lemma scraped lines series v :
  Forall oneLine lines -> sample series v ∈ lines -> head (bytesOf series) = Some "s"%char -> word v ->
  (series, v) ∈ scrape (render lines).
Proof.
  intros Hl Hin Hh Hv. rewrite scrape_render by done. apply list_elem_of_omap.
  exists (sample series v). split; [done|]. apply parse_sample; [by rewrite Hh|by intros E; rewrite E in Hh|done].
Qed.

Definition countSeries (id : string) : string :=
  histogramSeries +:+ "_count{" +:+ label quoteUnicode "primitive" id +:+ "}".
Definition bucketSeries (id : string) (b : HistogramBucket) : string :=
  histogramSeries +:+ "_bucket{" +:+ label quoteUnicode "primitive" id +:+ "," +:+
    label quoteUnicode "le" (leString formatG b) +:+ "}".

End Scrape.

(** One primitive that has waited once, for 200 microseconds. *)
Definition waitedOnce : MetricsCollector :=
  let mc := RegisterPrimitive 0 "default/m 1" "Mutex" "m" (NewMetricsCollector 0) in
  set_primitiveMetrics (alter (fun m =>
    (after recorder (Call 0 (OpWait 200000 1) 0 :: runs 0 8) (MWorld m 0 [], [TIdle])).1.(pm)) "default/m 1"
    (primitiveMetrics mc)) mc.

Definition sampleHub : hub := mkHub (sampleServer waitedOnce) [] [] 3.

Definition showNs (ns : Z) : string := pretty ns.


(** The buckets are not cumulative, as the text format wants them: after one
    wait of 200 microseconds the bucket [+Inf], which must count every wait,
    says 0 while the count says 1. *)
Theorem prometheus_buckets_not_cumulative :
  exists snap b, GetAllMetrics 5 waitedOnce !! "default/m 1" = Some snap /\
    last (SnHistogram snap) = Some b /\ leString showNs b = "+Inf" /\ Count b = 0 /\ SnWaits snap = 1.
Proof. eexists _, _. split; [vm_compute; reflexivity|]. repeat split. Qed.

(** The readiness probe knows nothing of the shutdown: while the server
    drains, it refuses every connection that has authenticated, and still
    answers that it is ready. *)
Theorem readyz_while_draining V {Raw} (codec : Codec Raw) statsOf key o th claims queryNs r h :
  draining (srv h) = true -> spoint th = SDrain claims queryNs -> method r = "GET" ->
  session_step V codec statsOf key o th (srv h) = Some (at_ SEnd th, srv h) /\
  status (handleReadyz r h) = StatusOK /\ body (handleReadyz r h) = Json {["status":=JStr "ready"]}.
Proof.
  intros Hd Hp Hm. unfold handleReadyz. rewrite decide_False by (by intros ?). split; [|done].
  unfold session_step. rewrite Hp, Hd. by destruct (inbox th).
Qed.

Lemma readyz_while_draining_witness :
  status (handleReadyz (mkRequest "GET" "/readyz" "/readyz")
    (mkHub (set_draining true (sampleServer waitedOnce)) [] [] 0)) = StatusOK.
Proof.
  apply (readyz_while_draining (fun _ _ _ => inl ErrFormat) (mkCodec unit (fun _ => None) (fun _ => None)
    (fun _ => None) (fun _ => None) (fun _ => None)) (fun _ => 0) (fun _ => "") o0
    (mkSession 0 (SDrain None "") None 0) None ""); done.
Defined.
