(* ===== verification/Keys.v ===== *)
(** * The keys of updates (web/server.go)

    Updates are sent for primitives whose [primitiveSnapshotKey] has changed:
    the JSON of the primitive, decoded, without the field Age of its
    statistics, encoded again.  [encoding/json] is an argument: encoding of a
    struct, decoding into a map, encoding of a map, each of which may fail,
    with its documented behaviour as hypotheses. *)

From Stdlib Require Import ZArith Ascii.
From stdpp Require Import base list gmap strings.
From S2P Require Import Prelude.
From S2P Require Import Scheduler.
From S2P Require Import Access.
From S2P Require Import Server.
From S2P Require Import Registry.
From S2P Require Import Delta.

(** A field of an object: an object again, or something else. *)
Inductive field (V : Type) := FObject (m : gmap string V) | FOther (v : V).
Arguments FObject {V} _.
Arguments FOther {V} _.

Section Keys.
Context {V : Type}.
Context (marshalInfo : PrimitiveInfo -> option string)
  (unmarshal : string -> option (gmap string (field V)))
  (marshalMap : gmap string (field V) -> option string).

(** [delete(statsMap, "Age")] on the map found under "Stats", if it is one. *)
Definition dropAge (m : gmap string (field V)) : gmap string (field V) :=
  match m !! "Stats" with
  | Some (FObject sm) => <["Stats":=FObject (delete "Age" sm)]> m
  | _ => m
  end.

Definition primitiveSnapshotKey (prim : PrimitiveInfo) : string :=
  match marshalInfo prim with
  | None => ""
  | Some data =>
      match unmarshal data with
      | None => data
      | Some asMap => default data (marshalMap (dropAge asMap))
      end
  end.

(** [jsonMarshal]: a value that cannot be encoded becomes the empty object. *)
Definition jsonMarshal {A} (marshal : A -> option string) (v : A) : string := default "{}" (marshal v).

(** What the encoder makes of a primitive. *)
Context (view : PrimitiveInfo -> gmap string (field V)).
Hypothesis Hinfo : forall p, exists data, marshalInfo p = Some data /\ unmarshal data = Some (view p).
Hypothesis Hmap : forall m, is_Some (marshalMap m).
Hypothesis Hinj : forall m m', marshalMap m = marshalMap m' -> m = m'.

(** The same object but for the age in its statistics. *)
Definition sameButAge (m m' : gmap string (field V)) : Prop :=
  (forall k, k <> "Stats" -> m !! k = m' !! k) /\
  match m !! "Stats", m' !! "Stats" with
  | Some (FObject s), Some (FObject s') => forall k, k <> "Age" -> s !! k = s' !! k
  | a, b => a = b
  end.

Lemma dropAge_lookup m k :
  dropAge m !! k = if decide (k = "Stats")
    then match m !! "Stats" with Some (FObject s) => Some (FObject (delete "Age" s)) | a => a end else m !! k.
Proof.
  unfold dropAge. case_decide as E.
  - subst. destruct (m !! "Stats") as [[s|v]|] eqn:Hs; [by rewrite lookup_insert_eq|done|done].
  - destruct (m !! "Stats") as [[s|v]|]; [by rewrite lookup_insert_ne|done|done].
Qed.

Lemma dropAge_eq m m' : dropAge m = dropAge m' <-> sameButAge m m'.
Proof.
  unfold sameButAge. split.
  - intros E. split.
    + intros k Hk. pose proof (f_equal (lookup k) E) as Ek. by rewrite !dropAge_lookup, !decide_False in Ek.
    + pose proof (f_equal (lookup "Stats") E) as Es. rewrite !dropAge_lookup, !decide_True in Es by done.
      destruct (m !! "Stats") as [[s|v]|], (m' !! "Stats") as [[s'|v']|]; try congruence.
      injection Es as Es. intros k Hk. rewrite <- (lookup_delete_ne s "Age" k), Es by done.
      by apply lookup_delete_ne.
  - intros [H1 H2]. apply map_eq. intros k. rewrite !dropAge_lookup. case_decide as E; [|by apply H1].
    destruct (m !! "Stats") as [[s|v]|], (m' !! "Stats") as [[s'|v']|]; try congruence.
    do 2 f_equal. apply map_eq. intros k'. destruct (decide (k' = "Age")) as [->|Hk]; [by rewrite !lookup_delete_eq|].
    rewrite !lookup_delete_ne by done. by apply H2.
Qed.

Lemma key_view p : exists k, marshalMap (dropAge (view p)) = Some k /\ primitiveSnapshotKey p = k.
Proof.
  destruct (Hinfo p) as (data & E1 & E2), (Hmap (dropAge (view p))) as [k Hk]. exists k. split; [done|].
  unfold primitiveSnapshotKey. by rewrite E1, E2, Hk.
Qed.

End Keys.

(** An encoder for the witness: objects as the numbers [Countable] gives them,
    in binary; the statistics are a counter and an age. *)
Fixpoint digits (p : positive) : string :=
  match p with xH => "" | xO p => String "0"%char (digits p) | xI p => String "1"%char (digits p) end.

Fixpoint number (s : string) : positive :=
  match s with "" => xH | String "0" s => xO (number s) | String _ s => xI (number s) end.

Lemma number_digits p : number (digits p) = p.
Proof. induction p; simpl; congruence. Qed.

#[export] Instance field_eq_dec {V} `{EqDecision V} : EqDecision (field V).
Proof. solve_decision. Defined.

#[export] Instance field_countable {V} `{Countable V} : Countable (field V).
Proof.
  refine (inj_countable' (fun f => match f with FObject m => inl m | FOther v => inr v end)
    (fun x => match x with inl m => FObject m | inr v => FOther v end) _). by intros [].
Defined.

Definition toyView (p : PrimitiveInfo) : gmap string (field Z) :=
  <["ID":=FOther (Z.of_nat (String.length (pID p)))]>
    {["Stats":=FObject (<["Age":=pCreatedAt p]> {["Count":=Stats p]})]}.

Definition toyMarshal (m : gmap string (field Z)) : option string := Some (digits (encode m)).
Definition toyUnmarshal (s : string) : option (gmap string (field Z)) := decode (number s).

Definition toyKey : PrimitiveInfo -> string :=
  primitiveSnapshotKey (toyMarshal ∘ toyView) toyUnmarshal toyMarshal.

Definition aged (age : Z) : PrimitiveInfo := mkPrimitive "a" TypeMutex "m" age 0 7.

