(* ===== verification/Snapshot.v ===== *)
(** * Snapshots, start and shutdown (web/server.go)

    At shutdown the server writes the primitives of its default namespace to
    a file, and a new server recreates them.  The file system is the map of
    AuditLog.v; the JSON codecs are arguments.  Loops over Go maps have no
    fixed order: the model takes the order of [map_to_list], and what is
    restored does not depend on it. *)

From Stdlib Require Import ZArith Lia.
From stdpp Require Import base list gmap strings.
From S2P Require Import Prelude.
From S2P Require Import AuditLog.
From S2P Require Import Scheduler.
From S2P Require Import Metrics.
From S2P Require Import Access.
From S2P Require Import Server.
From S2P Require Import Registry.

#[local] Open Scope Z_scope.

Record primitiveSnapshot := mkSnap { snID : string; snType : string; snName : string; snCapacity : Z; snParties : Z }.

Definition snapshotVersion : Z := 1.

Record snapshotFile := mkFile { fVersion : Z; fNamespace : string; fPrimitives : list primitiveSnapshot }.

Record legacyPrimitiveSnapshot := mkLegacy { lgType : string; lgName : string; lgCapacity : Z; lgParties : Z }.

(** The kind with a given name. *)
Definition typeOf (s : string) : option Scheduler.PrimitiveType :=
  head (filter (fun k => showType k = s) kinds).

(** ** Saving *)

(** [nameFor]: the name in the scheduler, or the qualified id itself. *)
Definition nameFor (s : Server) (q : string) : string :=
  match GetPrimitives (scheduler s) !! q with Some i => pName i | None => q end.

(** The capacity of a semaphore, the parties of a barrier. *)
Definition capacityOf (o : object) : Z := match o with OSemaphore c _ => c | _ => 0 end.
Definition partiesOf (o : object) : Z := match o with OBarrier n => n | _ => 0 end.

Definition snapshotOf (s : Server) (ns : string) (k : Scheduler.PrimitiveType) (x : string * nat)
    : option primitiveSnapshot :=
  o ← objects s !! x.2;
  Some (mkSnap x.1 (showType k) (nameFor s (qualifiedPrimID ns x.1)) (capacityOf o) (partiesOf o)).

(** The loops over the nine maps, one after the other. *)
Definition snapshotPrims (s : Server) (ns : string) (c : connPrims) : list primitiveSnapshot :=
  kinds ≫= fun k => omap (snapshotOf s ns k) (map_to_list (mapOf k c)).

Definition buildSnapshot (s : Server) : snapshotFile :=
  let ns := defaultNamespace (cfg s) in
  mkFile snapshotVersion ns
    (match namespaces s !! ns ≫= (heap s !!.) with Some c => snapshotPrims s ns c | None => [] end).

Section Snapshot.
Context (marshalSnap : snapshotFile -> option string) (unmarshalSnap : string -> option snapshotFile).
Context (unmarshalLegacy : string -> option (gmap string legacyPrimitiveSnapshot)).
Context (statsOf : object -> Z).

(** [writeOk]: the answer of [os.WriteFile]. *)
Definition saveSnapshot (writeOk : bool) (s : Server) (files : FS) : FS :=
  if decide (SnapshotPath (cfg s) = "") then files
  else match marshalSnap (buildSnapshot s) with
       | None => files
       | Some d => if writeOk then <[SnapshotPath (cfg s):=d]> files else files
       end.

(** ** Restoring *)

(** The object a snapshot describes: a capacity or a number of parties that
    is not positive becomes one. *)
Definition objectFor (k : Scheduler.PrimitiveType) (p : primitiveSnapshot) : object :=
  match k with
  | TypeRWLock => ORWLock 0 false
  | TypeFairRWLock => OFairRWLock 0 false
  | TypeSemaphore => let cap := if snCapacity p <=? 0 then 1 else snCapacity p in OSemaphore cap cap
  | TypeMutex => OMutex false
  | TypeCondVar => OCondVar
  | TypeBarrier => OBarrier (if snParties p <=? 0 then 1 else snParties p)
  | TypeWaitGroup => OWaitGroup 0
  | TypeOnce => OOnce false
  | TypeSingleflight => OGroup
  end.

(** One round of the loop. *)
Definition restoreOne (now : Z) (ns : string) (cp : nat) (p : primitiveSnapshot) (s : Server) : Server :=
  if decide (snID p = "") then s
  else
    match typeOf (snType p), heap s !! cp with
    | Some k, Some c =>
        let q := qualifiedPrimID ns (snID p) in
        let o := objectFor k p in
        let a := length (objects s) in
        let s := set_objects (objects s ++ [o]) s in
        let '(ctx, s) := withCancel s in
        let c := setMap k (<[snID p:=a]> (mapOf k c)) c in
        let c := set_primCtxs (<[snID p:=ctx]> (primCtxs c)) c in
        let s := set_heap (<[cp:=c]> (heap s)) s in
        let s := set_scheduler (Scheduler.RegisterPrimitive now q k (snName p) (statsOf o) (scheduler s)) s in
        set_metricsCollector (Metrics.RegisterPrimitive now q (snType p) (snName p) (metricsCollector s)) s
    | _, _ => s
    end.

Definition restoreSnapshotPrimitives (now : Z) (ns : string) (prims : list primitiveSnapshot) (s : Server) : Server :=
  let '(cp, s) := getOrCreateNamespacePrims ns s in
  foldl (fun s p => restoreOne now ns cp p s) s prims.

(** [readOk]: the answer of [os.ReadFile]. *)
Definition loadSnapshot (now : Z) (readOk : bool) (files : FS) (s : Server) : Server :=
  if decide (SnapshotPath (cfg s) = "") then s
  else
    match files !! SnapshotPath (cfg s) with
    | None => s
    | Some data =>
        if negb readOk then s
        else if decide (data = "") then s
        else
          let legacy :=
            match unmarshalLegacy data with
            | None => s
            | Some m =>
                restoreSnapshotPrimitives now (defaultNamespace (cfg s))
                  ((fun '(id, p) => mkSnap id (lgType p) (lgName p) (lgCapacity p) (lgParties p)) <$> map_to_list m) s
            end in
          match unmarshalSnap data with
          | Some f =>
              if 0 <? fVersion f then
                if negb (fVersion f =? snapshotVersion) then s
                else restoreSnapshotPrimitives now
                       (if decide (fNamespace f = "") then defaultNamespace (cfg s) else fNamespace f) (fPrimitives f) s
              else legacy
          | None => legacy
          end
    end.

(** ** Start and shutdown *)

Definition NewServerWithConfig (now : Z) (c : Config) (r : osResults) (readOk : bool) (files : FS)
    : option (Server * FS) :=
  '(s, files) ← newServer now c r files; Some (loadSnapshot now readOk files s, files).

(** Draining, the snapshot, then the contexts, [stop] (whose second close
    panics: [None]) and the scheduler.  The close frames to the clients and
    the wait for HTTP connections are network traffic; closing the audit log
    is in AuditLog.v. *)
Definition Shutdown (writeOk : bool) (s : Server) (files : FS) : option (Server * FS) :=
  let s := set_draining true s in
  let files := saveSnapshot writeOk s files in
  let s := set_shutdownCtx true s in
  if stop s then None
  else
    let s := set_stop true s in
    Some (set_scheduler (Scheduler.Stop (scheduler s)) s, files).

(** * What is restored *)

Lemma typeOf_showType k : typeOf (showType k) = Some k.
Proof. by destruct k. Qed.

(** A primitive is in all four registries, with its object and its name. *)
Definition recorded (s : Server) (ns id : string) (k : Scheduler.PrimitiveType) (cap par : Z) (name : string) : Prop :=
  viewOf s ns id = agree (Some k) /\
  (exists a o, mapOf k (cpOf s ns) !! id = Some a /\ objects s !! a = Some o /\ kindOf o = k /\
     capacityOf o = cap /\ partiesOf o = par) /\
  pName <$> Scheduler.primitives (scheduler s) !! qualifiedPrimID ns id = Some name.

(** Nothing changed for an id. *)
Definition sameAt (ns id : string) (s s' : Server) : Prop :=
  viewOf s' ns id = viewOf s ns id /\
  (forall k, mapOf k (cpOf s' ns) !! id = mapOf k (cpOf s ns) !! id) /\
  Scheduler.primitives (scheduler s') !! qualifiedPrimID ns id =
    Scheduler.primitives (scheduler s) !! qualifiedPrimID ns id /\
  objects s `prefix_of` objects s'.

#[export] Instance sameAt_preorder ns id : PreOrder (sameAt ns id).
Proof.
  split; [done|]. intros s1 s2 s3 (A1 & A2 & A3 & A4) (B1 & B2 & B3 & B4).
  split_and!; [congruence|intros k; congruence|congruence|by etrans].
Qed.

Lemma recorded_same s s' ns id k cap par name :
  sameAt ns id s s' -> recorded s ns id k cap par name -> recorded s' ns id k cap par name.
Proof.
  intros (H1 & H2 & H3 & [l H4]) (A1 & (a & o & A2 & A3 & A4) & A5). split; [congruence|]. split; [|congruence].
  exists a, o. rewrite H2, H4. split; [done|]. split; [by apply lookup_app_l_Some|done].
Qed.

Lemma sched_register_eq now q k name st sc :
  Scheduler.primitives (Scheduler.RegisterPrimitive now q k name st sc) =
  <[q:=mkPrimitive q k name now 0 st]> (Scheduler.primitives sc).
Proof. unfold Scheduler.RegisterPrimitive. by rewrite (proj2 (emit_registry _ _)). Qed.

Lemma restoreOne_spec now ns cp p k s :
  noSlash ns -> namespaces s !! ns = Some cp -> is_Some (heap s !! cp) -> snID p <> "" -> typeOf (snType p) = Some k ->
  kindIn (cpOf s ns) (snID p) = None ->
  let s' := restoreOne now ns cp p s in
  recorded s' ns (snID p) k (capacityOf (objectFor k p)) (partiesOf (objectFor k p)) (snName p) /\
  (forall id, id <> snID p -> sameAt ns id s s') /\ namespaces s' = namespaces s /\ is_Some (heap s' !! cp).
Proof.
  intros Hns Hcp [c Hc] Hid Hk Hn. unfold restoreOne. rewrite decide_False, Hk, Hc by done. simpl.
  rewrite (cpOf_eq s ns cp c Hcp Hc) in Hn.
  match goal with |- recorded ?x _ _ _ _ _ _ /\ _ => set (s' := x) end.
  set (c' := set_primCtxs (<[snID p:=nextCtx s]> (primCtxs (setMap k (<[snID p:=length (objects s)]> (mapOf k c)) c)))
               (setMap k (<[snID p:=length (objects s)]> (mapOf k c)) c)).
  assert (Ec : cpOf s' ns = c').
  { apply (cpOf_eq _ _ cp); [done|]. simpl. apply list_lookup_insert_eq. by eapply lookup_lt_Some. }
  assert (Hq : forall id, id <> snID p -> qualifiedPrimID ns id <> qualifiedPrimID ns (snID p)).
  { intros id Hne E. by apply qualified_inj in E as [_ ?]. }
  split_and!.
  - split; [|split].
    + unfold viewOf, agree. rewrite Ec. unfold c', s'. simpl.
      rewrite kindIn_set_primCtxs, kindIn_insert, decide_True, sched_register_eq, !lookup_insert_eq by done. done.
    + rewrite Ec. exists (length (objects s)), (objectFor k p). unfold c'.
      rewrite mapOf_set_primCtxs, mapOf_setMap, decide_True, lookup_insert_eq by done. simpl.
      rewrite list_lookup_middle by done. split_and!; try done. by destruct k.
    + unfold s'. simpl. by rewrite sched_register_eq, lookup_insert_eq.
  - intros id Hne. split_and!.
    + unfold viewOf. rewrite Ec, (cpOf_eq s ns cp c Hcp Hc). unfold c', s'. simpl.
      rewrite kindIn_set_primCtxs, kindIn_insert, decide_False by done.
      rewrite sched_register_eq, !lookup_insert_ne, primCtxs_setMap; try done; by apply not_eq_sym, Hq.
    + intros k'. rewrite Ec, (cpOf_eq s ns cp c Hcp Hc). unfold c'. rewrite mapOf_set_primCtxs, mapOf_setMap.
      case_decide; [subst|done]. by rewrite lookup_insert_ne.
    + unfold s'. simpl. rewrite sched_register_eq, lookup_insert_ne; [done|]. by apply not_eq_sym, Hq.
    + unfold s'. simpl. by eexists.
  - done.
  - simpl. rewrite list_lookup_insert_eq; [eauto|]. by eapply lookup_lt_Some.
Qed.

Lemma restore_all now ns cp l s :
  noSlash ns -> namespaces s !! ns = Some cp -> is_Some (heap s !! cp) -> NoDup (snID <$> l) ->
  Forall (fun p => snID p <> "" /\ is_Some (typeOf (snType p)) /\ kindIn (cpOf s ns) (snID p) = None) l ->
  let s' := foldl (fun s p => restoreOne now ns cp p s) s l in
  (forall p k, p ∈ l -> typeOf (snType p) = Some k ->
     recorded s' ns (snID p) k (capacityOf (objectFor k p)) (partiesOf (objectFor k p)) (snName p)) /\
  (forall id, id ∉ snID <$> l -> sameAt ns id s s') /\ namespaces s' = namespaces s.
Proof.
  intros Hns. revert s. induction l as [|p l IH]; intros s Hcp Hc Hnd Hl; simpl.
  { split_and!; [by intros p k ?%not_elem_of_nil|done|done]. }
  apply NoDup_cons in Hnd as [Hp Hnd]. apply Forall_cons in Hl as [(H1 & [k H2] & H3) Hl].
  destruct (restoreOne_spec now ns cp p k s Hns Hcp Hc H1 H2 H3) as (A1 & A2 & A3 & A4).
  set (s1 := restoreOne now ns cp p s) in *.
  destruct (IH s1) as (B1 & B2 & B3); [by rewrite A3|done|done| |].
  { eapply Forall_impl; [apply Forall_and; split; [exact Hl|apply Forall_forall; intros q Hq; exact Hq]|].
    intros q [(C1 & C2 & C3) Hq]. split_and!; [done|done|].
    assert (Hne : snID q <> snID p) by (intros E; apply Hp; rewrite <- E; by apply list_elem_of_fmap_2).
    destruct (A2 _ Hne) as (D & _). unfold viewOf in D. simplify_eq. congruence. }
  split_and!.
  - intros q kq [->|Hq]%elem_of_cons Hk; [|by apply B1]. simplify_eq.
    apply (recorded_same s1); [|done]. by apply B2.
  - intros id [Hne Hid]%not_elem_of_cons. etrans; [by apply A2|by apply B2].
  - congruence.
Qed.

(** * What is saved *)

Lemma elem_of_snapshotPrims s ns c p :
  p ∈ snapshotPrims s ns c <->
  exists k id a o, mapOf k c !! id = Some a /\ objects s !! a = Some o /\
    p = mkSnap id (showType k) (nameFor s (qualifiedPrimID ns id)) (capacityOf o) (partiesOf o).
Proof.
  unfold snapshotPrims. rewrite list_elem_of_bind. split.
  - intros (k & Hp & _). apply list_elem_of_omap in Hp as ([id a] & Hm & Ho).
    apply elem_of_map_to_list in Hm. unfold snapshotOf in Ho. apply bind_Some in Ho as (o & Ho & [= <-]).
    by exists k, id, a, o.
  - intros (k & id & a & o & Hm & Ho & ->). exists k. split; [|apply elem_of_kinds].
    apply list_elem_of_omap. exists (id, a). split; [by apply elem_of_map_to_list|].
    unfold snapshotOf. simpl. by rewrite Ho.
Qed.

Lemma snapshot_ids s ns k l :
  (forall x, x ∈ l -> is_Some (objects s !! x.2)) -> snID <$> omap (snapshotOf s ns k) l = l.*1.
Proof.
  induction l as [|[id a] l IH]; intros H; [done|]. simpl. unfold snapshotOf at 1. simpl.
  destruct (H (id, a)) as [o Ho]; [left|]. simpl in Ho. rewrite Ho. simpl. f_equal. apply IH. intros. apply H. by right.
Qed.

Lemma snapshot_NoDup s ns cp c : Typed s -> heap s !! cp = Some c -> NoDup (snID <$> snapshotPrims s ns c).
Proof.
  intros HT Hc. unfold snapshotPrims. assert (Hk : NoDup kinds) by by_decide.
  induction Hk as [|k ks Hk _ IH]; [constructor|]. simpl. rewrite fmap_app. apply NoDup_app. split_and!; [| |done].
  - rewrite snapshot_ids; [apply NoDup_fst_map_to_list|]. intros [id a] Hx%elem_of_map_to_list. simpl.
    destruct (HT cp c k id a Hc Hx) as [Ho _]. by destruct (objects s !! a).
  - assert (Hin : forall k' id, id ∈ snID <$> omap (snapshotOf s ns k') (map_to_list (mapOf k' c)) -> kindIn c id = Some k').
    { intros k' id (p & -> & Hp)%list_elem_of_fmap. apply list_elem_of_omap in Hp as ([i a] & Hm%elem_of_map_to_list & Ho).
      unfold snapshotOf in Ho. apply bind_Some in Ho as (o & _ & [= <-]). by eapply HT. }
    intros id H1%Hin H2. apply list_elem_of_fmap in H2 as (p & -> & Hp). apply list_elem_of_bind in Hp as (k' & Hp & Hk').
    assert (H2 : kindIn c (snID p) = Some k') by (apply Hin, list_elem_of_fmap_2, Hp).
    rewrite H1 in H2. injection H2 as <-. by apply Hk.
Qed.

Lemma New_keeps r p max keep files q x :
  files !! q = Some x -> (AuditLog.New r p max keep files).2 !! q = Some x.
Proof.
  intros H. unfold AuditLog.New. case_decide; [done|]. destruct (mkdirOk r), (openOk r); simpl; try done.
  assert (E : (match files !! p with Some _ => files | None => <[p:=""]> files end) !! q = Some x).
  { destruct (files !! p) eqn:E; [done|]. rewrite lookup_insert_ne; [done|]. intros ->. congruence. }
  destruct (statOk r); simpl; exact E.
Qed.

Lemma newServer_keeps now c r files s0 files' q x :
  newServer now c r files = Some (s0, files') -> files !! q = Some x -> files' !! q = Some x /\ cfg s0 = c.
Proof.
  intros HN H. unfold newServer in HN. destruct (negb _); [done|]. destruct (decide (AuditLogPath c <> "")).
  - pose proof (New_keeps r (AuditLogPath c) (AuditLogMaxBytes c) (AuditLogKeepFiles c) files q x H) as Hk.
    destruct (AuditLog.New _ _ _ _ _) as [y f]. by injection HN as <- <-.
  - by injection HN as <- <-.
Qed.

(** A capacity or a number of parties that a create handler accepts. *)
Definition positive (o : object) : Prop :=
  match o with OSemaphore c _ => 0 < c | OBarrier n => 0 < n | _ => True end.

Lemma objectFor_params o id name :
  positive o ->
  let p := mkSnap id (showType (kindOf o)) name (capacityOf o) (partiesOf o) in
  capacityOf (objectFor (kindOf o) p) = capacityOf o /\ partiesOf (objectFor (kindOf o) p) = partiesOf o.
Proof.
  destruct o as [| |cap n| | |n| | |]; simpl; try done.
  - destruct (Z.leb_spec cap 0); [lia|done].
  - destruct (Z.leb_spec n 0); [lia|done].
Qed.

(** ** Theorems *)

(** C22: a snapshot restores the default namespace.  When the file was written
    and decodes to what was encoded, the new server has for every primitive
    of the old default namespace one of the same kind, name and capacity or
    number of parties, in all four registries; no other id of that namespace
    is in any of them, and no other namespace exists, so the primitives of
    other namespaces are lost. *)
Theorem snapshot_roundtrip s cp c d now r files s1 files1 :
  let ns := defaultNamespace (cfg s) in
  let saved := saveSnapshot true s files in
  Typed s -> noSlash ns -> namespaces s !! ns = Some cp -> heap s !! cp = Some c ->
  (forall k id a o, mapOf k c !! id = Some a -> objects s !! a = Some o -> id <> "" /\ positive o) ->
  SnapshotPath (cfg s) <> "" -> marshalSnap (buildSnapshot s) = Some d -> d <> "" ->
  unmarshalSnap d = Some (buildSnapshot s) ->
  NewServerWithConfig now (cfg s) r true saved = Some (s1, files1) ->
  (forall k id a o, mapOf k c !! id = Some a -> objects s !! a = Some o ->
     recorded s1 ns id k (capacityOf o) (partiesOf o) (nameFor s (qualifiedPrimID ns id))) /\
  (forall id, kindIn c id = None -> viewOf s1 ns id = agree None) /\
  (forall ns', ns' <> ns -> namespaces s1 !! ns' = None).
Proof.
  intros ns saved HT Hns Hcp Hc Hok Hpath Hm Hd Hu HN. unfold NewServerWithConfig in HN.
  apply bind_Some in HN as ([s0 f0] & HN & [= <- <-]).
  assert (Hsaved : saved !! SnapshotPath (cfg s) = Some d).
  { unfold saved, saveSnapshot. rewrite decide_False, Hm by done. apply lookup_insert_eq. }
  destruct (newServer_keeps _ _ _ _ _ _ _ _ HN Hsaved) as [Hf Ecfg].
  destruct (newServer_empty _ _ _ _ _ _ HN) as (E1 & E2 & E3 & E4).
  unfold loadSnapshot. rewrite Ecfg, Hf, !decide_False, Hu by done. simpl.
  fold ns. rewrite Hcp. simpl. rewrite Hc.
  replace (if decide (ns = "") then ns else ns) with ns by (by case_decide).
  unfold restoreSnapshotPrimitives, getOrCreateNamespacePrims. rewrite E2, lookup_empty, E1. simpl.
  set (s2 := set_namespaces (<[ns:=0%nat]> ∅) (set_heap [newConnPrims] s0)).
  assert (Ecp : cpOf s2 ns = newConnPrims)
    by (apply (cpOf_eq _ _ 0%nat); [by apply (lookup_insert_eq (M := gmap string))|done]).
  destruct (restore_all now ns 0%nat (snapshotPrims s ns c) s2) as (A1 & A2 & A3).
  - done.
  - by apply (lookup_insert_eq (M := gmap string)).
  - by eexists.
  - by eapply snapshot_NoDup.
  - apply Forall_forall. intros p (k & id & a & o & H1 & H2 & ->)%elem_of_snapshotPrims. simpl.
    rewrite Ecp, kindIn_new, typeOf_showType. split_and!; [by eapply Hok|done|done].
  - split_and!.
    + intros k id a o H1 H2. destruct (HT cp c k id a Hc H1) as [Ho _]. rewrite H2 in Ho. simplify_eq/=.
      destruct (Hok _ _ _ _ H1 H2) as [_ Hpos].
      set (p := mkSnap id (showType (kindOf o)) (nameFor s (qualifiedPrimID ns id)) (capacityOf o) (partiesOf o)).
      assert (Hp : p ∈ snapshotPrims s ns c) by (apply elem_of_snapshotPrims; by exists (kindOf o), id, a, o).
      pose proof (A1 p (kindOf o) Hp (typeOf_showType _)) as Q.
      destruct (objectFor_params o id (nameFor s (qualifiedPrimID ns id)) Hpos) as [P1 P2].
      fold p in P1, P2. rewrite P1, P2 in Q. exact Q.
    + intros id Hid. destruct (A2 id) as (B & _).
      { intros (p & -> & (k & i & a & o & H1 & H2 & ->)%elem_of_snapshotPrims)%list_elem_of_fmap. simpl in Hid.
        pose proof (proj1 (kindIn_None c i) Hid k). congruence. }
      rewrite B. unfold viewOf. rewrite Ecp, kindIn_new. simpl. by rewrite E3, E4, !lookup_empty.
    + intros ns' Hne. rewrite A3. simpl. by rewrite lookup_insert_ne, lookup_empty.
Qed.
End Snapshot.

(** ** A concrete round trip *)

Definition snapConfig : Config := mkConfig [] "" "" "" "" "" 0 "snap.json" false [] "" 0 0.
Definition snapEnd : Prelude.config (Sh:=Server) (Th:=session (Raw := string * string)) :=
  after sampleServer sampleRun (started snapConfig, sessions 1).

Lemma snapEnd_typed : Typed snapEnd.1.
Proof.
  apply (Typed_reach noTokens pairCodec noStats nameKey 0 snapConfig allOk ∅ (started snapConfig) ∅ 1 snapEnd.1 snapEnd.2).
  - reflexivity.
  - apply (execs_reach sampleServer any_label sampleRun); [apply Forall_any|by_eval].
Qed.

Definition snapMarshal (_ : snapshotFile) : option string := Some "J".
Definition snapUnmarshal (d : string) : option snapshotFile :=
  if decide (d = "J") then Some (buildSnapshot snapEnd.1) else None.
Definition noLegacy (_ : string) : option (gmap string legacyPrimitiveSnapshot) := None.
Definition snapFiles : FS := saveSnapshot snapMarshal true snapEnd.1 ∅.
Definition snapRestored : Server :=
  match NewServerWithConfig snapUnmarshal noLegacy noStats 5 snapConfig allOk true snapFiles with
  | Some (s, _) => s
  | None => started snapConfig
  end.

Definition entryOk (s : Server) (x : string * nat) : bool :=
  negb (String.eqb x.1 "") &&
  match objects s !! x.2 with Some (OSemaphore c _) => 0 <? c | Some (OBarrier n) => 0 <? n | _ => true end.

Lemma entries_ok s c :
  forallb (fun k => forallb (entryOk s) (map_to_list (mapOf k c))) kinds = true ->
  forall k id a o, mapOf k c !! id = Some a -> objects s !! a = Some o -> id <> "" /\ positive o.
Proof.
  rewrite forallb_forall. intros H k id a o Hm Ho.
  assert (Hk : List.In k kinds) by apply list_elem_of_In, elem_of_kinds.
  specialize (H k Hk). rewrite forallb_forall in H.
  assert (Hx : entryOk s (id, a) = true) by (apply H, list_elem_of_In; by apply elem_of_map_to_list).
  unfold entryOk in Hx. simpl in Hx. apply andb_true_iff in Hx as [H1 H2]. split.
  - intros ->. done.
  - rewrite Ho in H2. destruct o; simpl in *; try done; by apply Z.ltb_lt.
Qed.

Lemma snapshot_roundtrip_witness :
  kindIn (cpOf snapRestored "default") "s" = Some TypeSemaphore /\
  (forall id, kindIn (cpOf snapEnd.1 "default") id = None -> viewOf snapRestored "default" id = agree None).
Proof.
  assert (H1 : namespaces snapEnd.1 !! "default" = Some 0%nat) by by_eval.
  assert (H2 : heap snapEnd.1 !! 0%nat = Some (cpOf snapEnd.1 "default")) by by_eval.
  assert (H3 : forall k id a o, mapOf k (cpOf snapEnd.1 "default") !! id = Some a ->
                 objects snapEnd.1 !! a = Some o -> id <> "" /\ positive o) by (apply entries_ok; by_eval).
  assert (H4 : SnapshotPath (cfg snapEnd.1) <> "") by (vm_compute; discriminate).
  assert (H5 : NewServerWithConfig snapUnmarshal noLegacy noStats 5 (cfg snapEnd.1) allOk true
                 (saveSnapshot snapMarshal true snapEnd.1 ∅) = Some (snapRestored, snapFiles)) by by_eval.
  assert (H6 : snapUnmarshal "J" = Some (buildSnapshot snapEnd.1)) by reflexivity.
  assert (H7 : defaultNamespace (cfg snapEnd.1) = "default") by by_eval.
  pose proof (snapshot_roundtrip snapMarshal snapUnmarshal noLegacy noStats snapEnd.1 0%nat
    (cpOf snapEnd.1 "default") "J" 5 allOk ∅ snapRestored snapFiles) as H. cbv zeta in H. rewrite H7 in H.
  destruct (H snapEnd_typed (proj2 default_valid) H1 H2 H3 H4 eq_refl ltac:(discriminate) H6 H5) as (_ & A & _).
  split; [by_eval|exact A].
Defined.

(** ** Limits *)

(** A second [Shutdown] panics: it closes [stop] again. *)
Lemma second_shutdown_panics marshal ok1 ok2 s files s1 files1 files2 :
  Shutdown marshal ok1 s files = Some (s1, files1) -> Shutdown marshal ok2 s1 files2 = None.
Proof. unfold Shutdown. simpl. destruct (stop s); [done|]. by intros [= <- <-]. Qed.

(** A file that names an id twice puts it into two maps: [restoreOne] does not
    ask [primExists]. *)
Lemma restore_two_kinds :
  let s := restoreSnapshotPrimitives noStats 0 "default"
             [mkSnap "a" "Mutex" "" 0 0; mkSnap "a" "Once" "" 0 0] (started snapConfig) in
  is_Some (mutexes (cpOf s "default") !! "a") /\ is_Some (onces (cpOf s "default") !! "a").
Proof. vm_compute. split; eauto. Qed.
