(* ===== verification/ServerOps.v ===== *)
(** * Operations on primitives (web/server.go, handlePrimitiveOp)

    A message "primitiveOp" starts a goroutine that looks up the primitive,
    performs the operation and reports; after a successful lock operation it
    starts a second goroutine that holds the lock for the requested time and
    releases it.  Both are modelled step by step, and run beside the
    connections of Server.v.  The first recovers from panics; a panic in the
    second ends the process ([crashed]).

    Primitives are the abstract objects of Server.v: a blocking call is one
    step that takes place when the object permits it, or fails when its
    context is done or an hour has passed.  The number of waiters in the
    statistics, which the abstract objects do not have, is a choice
    ([pick]). *)

From Stdlib Require Import ZArith Lia.
From stdpp Require Import base list gmap strings pretty.
From S2P Require Import Prelude.
From S2P Require Import Auth.
From S2P Require Import AuditLog.
From S2P Require Import Scheduler.
From S2P Require Import Metrics.
From S2P Require Import Access.
From S2P Require Import Server.
From S2P Require Import Registry.

#[local] Open Scope Z_scope.

(** ** Objects *)

Inductive mode := MRead | MWrite.

#[export] Instance mode_eq_dec : EqDecision mode.
Proof. solve_decision. Defined.

(** [None]: the caller has to wait. *)
Definition acquireObj (m : mode) (o : object) : option object :=
  match m, o with
  | MRead, ORWLock r false => Some (ORWLock (r + 1) false)
  | MRead, OFairRWLock r false => Some (OFairRWLock (r + 1) false)
  | MWrite, ORWLock r false => if r =? 0 then Some (ORWLock r true) else None
  | MWrite, OFairRWLock r false => if r =? 0 then Some (OFairRWLock r true) else None
  | MWrite, OMutex false => Some (OMutex true)
  | _, _ => None
  end.

(** [None]: the release panics. *)
Definition releaseObj (m : mode) (o : object) : option object :=
  match m, o with
  | MRead, ORWLock r w => if 0 <? r then Some (ORWLock (r - 1) w) else None
  | MRead, OFairRWLock r w => if 0 <? r then Some (OFairRWLock (r - 1) w) else None
  | MWrite, ORWLock r true => Some (ORWLock r false)
  | MWrite, OFairRWLock r true => Some (OFairRWLock r false)
  | MWrite, OMutex true => Some (OMutex false)
  | _, _ => None
  end.

Definition readersOf (o : object) : Z := match o with ORWLock r _ | OFairRWLock r _ => r | _ => 0 end.

Definition setObj (a : nat) (o : object) (s : Server) : Server := set_objects (<[a:=o]> (objects s)) s.

(** ** Recording in the collector *)

(** The recording methods find the counters of the primitive, if it has
    any, and run the steps of Metrics.v on them. *)
Definition onCounters (f : mworld -> mworld) (id : string) (mc : MetricsCollector) : MetricsCollector :=
  match primitiveMetrics mc !! id with
  | None => mc
  | Some p =>
      let w := f (MWorld p (lockContentions mc) []) in
      mkMC (Metrics.startTime mc) (contentions w) (<[id:=pm w]> (primitiveMetrics mc)) (histBoundaries mc)
  end.

Fixpoint runSteps {P} (fuel : nat) (step : P -> mworld -> outcome P unit * mworld) (p : P) (w : mworld) : mworld :=
  match fuel with
  | O => w
  | S fuel => match step p w with (Next p, w) => runSteps fuel step p w | (_, w) => w end
  end.

Definition RecordAcquire (id : string) (holders : Z) (s : Server) : Server :=
  set_metricsCollector (onCounters (runSteps 2 (RecordAcquire_step holders) HCount) id (metricsCollector s)) s.
Definition RecordRelease (id : string) (holders : Z) (s : Server) : Server :=
  set_metricsCollector (onCounters (runSteps 2 (RecordRelease_step holders) HCount) id (metricsCollector s)) s.
Definition RecordWait (id : string) (ns waiters : Z) (s : Server) : Server :=
  set_metricsCollector (onCounters (runSteps 12 (RecordWait_step ns waiters) MWaits) id (metricsCollector s)) s.

(** ** The goroutine of an operation *)

(** What the goroutine knows: the request, its number, the primitives of the
    connection, the contexts of the primitive and of the connection ([None]:
    [shutdownCtx]), when it started, the qualified id. *)
Record opctx := mkOC {
  oconn : nat; opay : opPayload; ogid : Z; ocp : nat; octxP : option nat; octxC : option nat; ostart : Z;
  oid : string
}.

(** A blocking operation on an object. *)
Inductive work :=
| WLock (m : mode) (a : nat)
| WAcquire (a : nat)
| WBarrier (a : nat)
| WWaitGroup (a : nat).

Inductive ctxErr := DeadlineExceeded | Canceled.

Inductive opc :=
| OIdle
| OCount | ORegister | OFind | OMaps | OCtx (ptrs : Scheduler.PrimitiveType -> option nat)
| OConn (ptrs : Scheduler.PrimitiveType -> option nat)
| ODispatch (ptrs : Scheduler.PrimitiveType -> option nat)
| OUnlock (a : nat)
| OBlock (w : work) | OCall (w : work) | OUnblock (w : work) (blockStart : Z) (e : option ctxErr)
| ODeleted (w : work) | OUndo (w : work) | ORecord (w : work)
| OBlockingErr (e : ctxErr)
| OSuccess
| OEnd
| OPanic (text : string) | OPanicked (text : string).

Record opThread := mkOpT { oc : opctx; opt : opc }.

(** A lock to be released. *)
Record hold := mkHold {
  hmode : mode; haddr : nat; hid : string; hdur : Z; hctxP : option nat; hctxC : option nat; hstart : Z
}.

Inductive hgpc := GIdle | GWait (h : hold) | GRelease (h : hold) | GRecord (h : hold).

(** [holdQ]: the goroutines started and not yet scheduled. *)
Record opsWorld := OpsWorld { osrv : Server; holdQ : list hold; crashed : bool }.

Definition upds (f : Server -> Server) (w : opsWorld) : opsWorld := OpsWorld (f (osrv w)) (holdQ w) (crashed w).

Definition ctxDoneOpt (c : option nat) (s : Server) : bool :=
  match c with Some c => ctxDone c s | None => shutdownCtx s end.

(** The context of the operation or of the hold. *)
Definition eitherDone (p c : option nat) (s : Server) : bool := ctxDoneOpt p s || ctxDoneOpt c s.

Definition opAudit (now : Z) (c : opctx) (result err : string) : Entry :=
  mkEntry 0 "primitive_op" "" "" (opID (opay c)) "" (opOp (opay c)) (opHoldMs (opay c)) result (now - ostart c) err.

Definition sendBlockingErr (now : Z) (c : opctx) (e : ctxErr) (s : Server) : Server :=
  let text :=
    match e with
    | DeadlineExceeded => "operation timed out after 1 hour"
    | Canceled =>
        if ctxDoneOpt (octxP c) s then "primitive deleted while operation was in progress" else "operation cancelled"
    end in
  sendError (oconn c) text (logAudit now (oconn c) (opAudit now c "error" text) s).

(** The end of a successful operation. *)
Definition reportSuccess (now : Z) (c : opctx) (s : Server) : Server :=
  let text := "Operation " +:+ opOp (opay c) +:+ " on " +:+ opID (opay c) +:+ " completed" in
  let warning := (clampHoldMs (opHoldMs (opay c))).2 in
  let s := logAudit now (oconn c) (opAudit now c "success" "") s in
  if decide (warning <> "") then sendToClient (oconn c) (mkOut "success" (PWarn text warning)) s
  else sendSuccess (oconn c) text s.

(** The [switch] on the operation: the next point, and the operations that do
    not block.  [errOp] reports an error, [withObj] looks up the primitive of
    a kind. *)
Definition errOp (c : opctx) (s : Server) (text : string) : opc * Server :=
  (OEnd, sendError (oconn c) (text +:+ opID (opay c)) s).

Definition withObj (c : opctx) (ptrs : Scheduler.PrimitiveType -> option nat) (s : Server)
    (k : Scheduler.PrimitiveType) (text : string) (f : nat -> object -> opc * Server) : opc * Server :=
  match ptrs k with
  | None => errOp c s text
  | Some a => match objects s !! a with Some o => f a o | None => (OEnd, s) end
  end.

(** The cases after those of the locks. *)
Definition dispatchRest (c : opctx) (ptrs : Scheduler.PrimitiveType -> option nat) (s : Server) : opc * Server :=
  let op := opOp (opay c) in
  let err := errOp c s in
  let withObj := withObj c ptrs s in
  if decide (op = "acquire") then
    withObj TypeSemaphore "Semaphore not found: " (fun a o => (OBlock (WAcquire a), s))
  else if decide (op = "release") then
    withObj TypeSemaphore "Semaphore not found: " (fun a o =>
      match o with
      | OSemaphore cap n =>
          if cap <? n + 1 then
            (OEnd, sendError (oconn c) ("Semaphore release error: semaphore: release would exceed capacity (count=" +:+
                     pretty n +:+ ", n=1, capacity=" +:+ pretty cap +:+ ")") s)
          else (OSuccess, RecordRelease (oid c) (n + 1) (setObj a (OSemaphore cap (n + 1)) s))
      | _ => (OEnd, s)
      end)
  else if decide (op = "signal") then
    withObj TypeCondVar "CondVar not found: " (fun _ _ => (OSuccess, s))
  else if decide (op = "broadcast") then
    withObj TypeCondVar "CondVar not found: " (fun _ _ => (OSuccess, s))
  else if decide (op = "wait") then
    withObj TypeBarrier "Barrier not found: " (fun a _ => (OBlock (WBarrier a), s))
  else if decide (op = "reset") then
    withObj TypeBarrier "Barrier not found: " (fun _ _ => (OSuccess, s))
  else if decide (op = "add") then
    withObj TypeWaitGroup "WaitGroup not found: " (fun a o =>
      match o with
      | OWaitGroup n =>
          let delta := if opHoldMs (opay c) <=? 0 then 1 else opHoldMs (opay c) in
          let n := add32 n (wrap32 delta) in
          (if n <? 0 then OPanic "waitgroup: negative counter" else OSuccess, setObj a (OWaitGroup n) s)
      | _ => (OEnd, s)
      end)
  else if decide (op = "done") then
    withObj TypeWaitGroup "WaitGroup not found: " (fun a o =>
      match o with
      | OWaitGroup n =>
          let n := add32 n (-1) in
          (if n <? 0 then OPanic "waitgroup: negative counter" else OSuccess, setObj a (OWaitGroup n) s)
      | _ => (OEnd, s)
      end)
  else if decide (op = "wg-wait") then
    withObj TypeWaitGroup "WaitGroup not found: " (fun a _ => (OBlock (WWaitGroup a), s))
  else if decide (op = "do") then
    match ptrs TypeOnce, ptrs TypeSingleflight with
    | Some a, _ => match objects s !! a with Some (OOnce _) => (OSuccess, setObj a (OOnce true) s) | _ => (OEnd, s) end
    | None, Some _ => (OSuccess, s)
    | None, None => err "Once or Singleflight not found: "
    end
  else if decide (op = "forget") then
    withObj TypeSingleflight "Singleflight not found: " (fun _ _ => (OSuccess, s))
  else (OEnd, sendError (oconn c) ("Unknown operation: " +:+ op) s).

(** The cases of the locks. *)
Definition dispatch (c : opctx) (ptrs : Scheduler.PrimitiveType -> option nat) (s : Server) : opc * Server :=
  let op := opOp (opay c) in
  let err := errOp c s in
  let withObj := withObj c ptrs s in
  if decide (op = "rlock") then
    match ptrs TypeRWLock, ptrs TypeFairRWLock with
    | Some a, _ => (OBlock (WLock MRead a), s)
    | None, Some a => (OBlock (WLock MRead a), s)
    | None, None => err "RWLock not found: "
    end
  else if decide (op = "lock") then
    match ptrs TypeFairRWLock, ptrs TypeRWLock, ptrs TypeMutex with
    | Some a, _, _ => (OBlock (WLock MWrite a), s)
    | None, Some a, _ => (OBlock (WLock MWrite a), s)
    | None, None, Some a => (OBlock (WLock MWrite a), s)
    | None, None, None => err "Lock primitive not found: "
    end
  else if decide (op = "unlock") then
    withObj TypeMutex "Mutex not found: " (fun a o =>
      match o with OMutex true => (OUnlock a, s) | _ => err "Mutex is not locked: " end)
  else dispatchRest c ptrs s.

Section Ops.
Context (showDuration : Z -> string).

(** The blocking call of an operation; [alt] chooses the context. *)
Definition blockingCall (o : oracle) (c : opctx) (wk : work) (s : Server) : option (option ctxErr * Server) :=
  if alt o then
    if operationTimeout <=? clk o - ostart c then Some (Some DeadlineExceeded, s)
    else if eitherDone (octxP c) (octxC c) s then Some (Some Canceled, s)
    else None
  else
    match wk with
    | WLock m a => x ← objects s !! a; x ← acquireObj m x; Some (None, setObj a x s)
    | WAcquire a =>
        match objects s !! a with
        | Some (OSemaphore cap n) => if 0 <? n then Some (None, setObj a (OSemaphore cap (n - 1)) s) else None
        | _ => None
        end
    | WBarrier a => Some (None, s)
    | WWaitGroup a => match objects s !! a with Some (OWaitGroup n) => if n =? 0 then Some (None, s) else None | _ => None end
    end.

(** The lock operations report what they acquired and hand it to a hold
    goroutine. *)
Definition record (o : oracle) (c : opctx) (wk : work) (w : opsWorld) : option opsWorld :=
  let now := clk o in
  let s := osrv w in
  let waiters := clampWaiterCount (Z.of_nat (pick o)) in
  match wk with
  | WLock m a =>
      x ← objects s !! a;
      let s := match m with
               | MRead => RecordAcquire (oid c) (readersOf x) s
               | MWrite => RecordWait (oid c) (now - ostart c) waiters (RecordAcquire (oid c) 1 s)
               end in
      Some (OpsWorld s (holdQ w ++ [mkHold m a (oid c) (clampHoldMs (opHoldMs (opay c))).1 (octxP c) (octxC c) now])
              (crashed w))
  | WAcquire a =>
      match objects s !! a with
      | Some (OSemaphore cap n) =>
          Some (upds (fun _ => RecordWait (oid c) (now - ostart c) waiters (RecordAcquire (oid c) n s)) w)
      | _ => None
      end
  | _ => Some w
  end.

(** The operation has acquired, but the primitive is gone: give it back. *)
Definition undo (wk : work) (s : Server) : option Server :=
  match wk with
  | WLock m a => x ← objects s !! a; x ← releaseObj m x; Some (setObj a x s)
  | WAcquire a =>
      match objects s !! a with
      | Some (OSemaphore cap n) => Some (if cap <? n + 1 then s else setObj a (OSemaphore cap (n + 1)) s)
      | _ => None
      end
  | _ => Some s
  end.

Definition setGid (g : Z) (c : opctx) := mkOC (oconn c) (opay c) g (ocp c) (octxP c) (octxC c) (ostart c) (oid c).
Definition setCp (p : nat) (c : opctx) := mkOC (oconn c) (opay c) (ogid c) p (octxP c) (octxC c) (ostart c) (oid c).
Definition setCtxP (x : option nat) (c : opctx) := mkOC (oconn c) (opay c) (ogid c) (ocp c) x (octxC c) (ostart c) (oid c).

Definition op_step (o : oracle) (th : opThread) (w : opsWorld) : option (opThread * opsWorld) :=
  let c := oc th in
  let s := osrv w in
  let now := clk o in
  let goto p w := Some (mkOpT c p, w) in
  match opt th with
  | OIdle =>
      x ← spawned s !! pick o;
      Some (mkOpT (mkOC x.1 x.2 0 0 None None 0 "") OCount, upds (set_spawned (delete (pick o) (spawned s))) w)
  | OCount =>
      let g := addU64 (goroutineCounter s) 1 in
      Some (mkOpT (setGid g c) ORegister, upds (set_goroutineCounter g) w)
  | ORegister =>
      goto OFind (upds (set_scheduler
        (RegisterGoroutine now (ogid c) ("op:" +:+ opOp (opay c) +:+ ":" +:+ opID (opay c)) (scheduler s))) w)
  | OFind =>
      match connPrimsFor (oconn c) s with
      | None => goto OEnd (upds (sendError (oconn c) "connection not registered") w)
      | Some cp => Some (mkOpT (setCp cp c) OMaps, w)
      end
  | OMaps => x ← heap s !! ocp c; goto (OCtx (fun k => mapOf k x !! opID (opay c))) w
  | OCtx ptrs =>
      x ← heap s !! ocp c;
      Some (mkOpT (setCtxP (primCtxs x !! opID (opay c)) c) (OConn ptrs), w)
  | OConn ptrs =>
      Some (mkOpT (mkOC (oconn c) (opay c) (ogid c) (ocp c) (octxP c) (opCtx <$> connStates s !! oconn c) now
                     (qualifiedPrimID (namespaceForConn (oconn c) s) (opID (opay c)))) (ODispatch ptrs), w)
  | ODispatch ptrs => let '(p, s) := dispatch c ptrs s in goto p (upds (fun _ => s) w)
  | OUnlock a =>
      x ← objects s !! a;
      match releaseObj MWrite x with
      | Some x => goto OSuccess (upds (fun s => RecordRelease (oid c) 0 (setObj a x s)) w)
      | None => goto (OPanic "mutex: unlock of unlocked mutex") w
      end
  | OBlock wk => goto (OCall wk) (upds (set_scheduler (BlockGoroutine now (ogid c) (oid c) (scheduler s))) w)
  | OCall wk => '(e, s) ← blockingCall o c wk s; goto (OUnblock wk now e) (upds (fun _ => s) w)
  | OUnblock wk t e =>
      let w := upds (set_scheduler (UnblockGoroutine showDuration now (ogid c) (now - t) (scheduler s))) w in
      match wk, e with
      | WBarrier _, _ | WWaitGroup _, _ => goto OSuccess w
      | _, Some e => goto (OBlockingErr e) w
      | _, None => goto (ODeleted wk) w
      end
  | ODeleted wk => x ← heap s !! ocp c; goto (if primExists x (opID (opay c)) then ORecord wk else OUndo wk) w
  | OUndo wk =>
      match undo wk s with
      | Some s => goto (OBlockingErr Canceled) (upds (fun _ => s) w)
      | None => goto (OPanic "unlock of unlocked lock") w
      end
  | ORecord wk => w ← record o c wk w; goto OSuccess w
  | OBlockingErr e => goto OEnd (upds (sendBlockingErr now c e) w)
  | OSuccess => goto OEnd (upds (reportSuccess now c) w)
  | OEnd => goto OIdle (upds (set_scheduler (UnregisterGoroutine now (ogid c) (scheduler s))) w)
  | OPanic text =>
      goto (OPanicked text) (upds (set_scheduler (UnregisterGoroutine now (ogid c) (scheduler s))) w)
  | OPanicked text => goto OIdle (upds (sendError (oconn c) ("internal error: " +:+ text)) w)
  end.

(** The goroutine that holds a lock: it waits for its time or for the end of
    its context, releases, records.  Nothing recovers from its panic. *)
Definition hold_step (o : oracle) (g : hgpc) (w : opsWorld) : option (hgpc * opsWorld) :=
  let s := osrv w in
  match g with
  | GIdle => h ← holdQ w !! pick o; Some (GWait h, OpsWorld s (delete (pick o) (holdQ w)) (crashed w))
  | GWait h =>
      if (hdur h <=? clk o - hstart h) || eitherDone (hctxP h) (hctxC h) s then Some (GRelease h, w) else None
  | GRelease h =>
      x ← objects s !! haddr h;
      match releaseObj (hmode h) x with
      | Some x => Some (GRecord h, upds (setObj (haddr h) x) w)
      | None => Some (GIdle, OpsWorld s (holdQ w) true)
      end
  | GRecord h =>
      x ← objects s !! haddr h;
      Some (GIdle, upds (RecordRelease (hid h) (match hmode h with MRead => readersOf x | MWrite => 0 end)) w)
  end.

Context (V : Z -> string -> string -> jwtError + Claims) {Raw : Type} (codec : Codec Raw).
Context (statsOf : object -> Z) (key : PrimitiveInfo -> string).

Inductive othread := TConn (th : session (Raw:=Raw)) | TOp (th : opThread) | THold (g : hgpc).

Definition ocall (r : request (Raw:=Raw)) (now : Z) (th : othread) : option othread :=
  match th with TConn x => TConn <$> scall r now x | _ => None end.

(** A crashed process does not move. *)
Definition orun (o : oracle) (th : othread) (w : opsWorld) : option (othread * opsWorld) :=
  if crashed w then None
  else
    match th with
    | TConn x => '(x, s) ← session_step V codec statsOf key o x (osrv w); Some (TConn x, upds (fun _ => s) w)
    | TOp x => '(x, w) ← op_step o x w; Some (TOp x, w)
    | THold g => '(g, w) ← hold_step o g w; Some (THold g, w)
    end.

Definition opsMachine : machine opsWorld othread (request (Raw:=Raw)) := Machine ocall orun (fun _ w => w).

Definition idleOp : opThread := mkOpT (mkOC 0 (mkOp "" "" 0) 0 0 None None 0 "") OIdle.
Definition opsInitial (s : Server) (n k j : nat) : Prelude.config (Sh:=opsWorld) (Th:=othread) :=
  (OpsWorld s [] false, (TConn <$> sessions n) ++ replicate k (TOp idleOp) ++ replicate j (THold GIdle)).
End Ops.

(** * Who holds what *)

Definition writerOf (o : object) : bool :=
  match o with ORWLock _ w | OFairRWLock _ w | OMutex w => w | _ => false end.

(** How often an object is held. *)
Definition units (m : mode) (o : object) : Z :=
  match m with MRead => readersOf o | MWrite => Z.b2z (writerOf o) end.

Definition unitsAt (m : mode) (a : nat) (s : Server) : Z :=
  match objects s !! a with Some o => units m o | None => 0 end.

Definition own (m : mode) (a : nat) (x : option (mode * nat)) : Z := Z.b2z (bool_decide (x = Some (m, a))).

Definition workLock (wk : work) : option (mode * nat) := match wk with WLock m a => Some (m, a) | _ => None end.

(** The lock an operation has acquired and not yet given back or handed on. *)
Definition opHolds (p : opc) : option (mode * nat) :=
  match p with
  | OUnblock wk _ None | ODeleted wk | OUndo wk | ORecord wk => workLock wk
  | _ => None
  end.

Definition lockOf (h : hold) : option (mode * nat) := Some (hmode h, haddr h).

Definition hgHolds (g : hgpc) : option (mode * nat) :=
  match g with GWait h | GRelease h => lockOf h | _ => None end.

Lemma own_nonneg m a x : 0 <= own m a x.
Proof. unfold own. case_bool_decide; simpl; lia. Qed.

Lemma own_None m a : own m a None = 0.
Proof. done. Qed.

Lemma own_eq m a : own m a (Some (m, a)) = 1.
Proof. unfold own. by rewrite bool_decide_eq_true_2. Qed.

Lemma acquireObj_units m o o' m' a :
  acquireObj m o = Some o' -> units m' o' = units m' o + own m' a (Some (m, a)).
Proof.
  intros H. assert (E : own m' a (Some (m, a)) = Z.b2z (bool_decide (m = m'))).
  { unfold own. f_equal. apply bool_decide_ext. naive_solver. }
  rewrite E. destruct m, o as [? []|? []| |[]| | | | |], m'; simpl in *; try done; repeat case_match; simplify_eq/=; lia.
Qed.

Lemma releaseObj_units m o o' m' a :
  releaseObj m o = Some o' -> units m' o' = units m' o - own m' a (Some (m, a)).
Proof.
  intros H. assert (E : own m' a (Some (m, a)) = Z.b2z (bool_decide (m = m'))).
  { unfold own. f_equal. apply bool_decide_ext. naive_solver. }
  rewrite E. destruct m, o as [? []|? []| |[]| | | | |], m'; simpl in *; try done; repeat case_match; simplify_eq/=; lia.
Qed.

(** A lock that is held can be released. *)
Lemma releaseObj_held m o : 1 <= units m o -> is_Some (releaseObj m o).
Proof.
  destruct m, o as [r w|r w| |w| | | | |]; simpl; try lia; intros H.
  - rewrite (proj2 (Z.ltb_lt 0 r)) by lia. done.
  - rewrite (proj2 (Z.ltb_lt 0 r)) by lia. done.
  - by destruct w.
  - by destruct w.
  - by destruct w.
Qed.

Lemma unitsAt_setObj m b a x y s :
  objects s !! a = Some y ->
  unitsAt m b (setObj a x s) = unitsAt m b s + if decide (b = a) then units m x - units m y else 0.
Proof.
  intros Ha. unfold unitsAt, setObj. simpl. case_decide as E.
  - subst. rewrite list_lookup_insert_eq by (by eapply lookup_lt_Some). rewrite Ha. lia.
  - rewrite list_lookup_insert_ne by done. lia.
Qed.

Lemma own_ne m a m' b : a <> b -> own m a (Some (m', b)) = 0.
Proof. intros. unfold own. rewrite bool_decide_eq_false_2; [done|congruence]. Qed.

Lemma unitsAt_acquire m b m' a x y s :
  objects s !! a = Some y -> acquireObj m' y = Some x ->
  unitsAt m b (setObj a x s) = unitsAt m b s + own m b (Some (m', a)).
Proof.
  intros Ha Hx. rewrite (unitsAt_setObj m b a x y s Ha). case_decide as E.
  - subst b. rewrite (acquireObj_units m' y x m a Hx). lia.
  - rewrite own_ne by done. lia.
Qed.

Lemma unitsAt_release m b m' a x y s :
  objects s !! a = Some y -> releaseObj m' y = Some x ->
  unitsAt m b (setObj a x s) = unitsAt m b s - own m b (Some (m', a)).
Proof.
  intros Ha Hx. rewrite (unitsAt_setObj m b a x y s Ha). case_decide as E.
  - subst b. rewrite (releaseObj_units m' y x m a Hx). lia.
  - rewrite own_ne by done. lia.
Qed.

(** Replacing an object by one that is held as often. *)
Lemma unitsAt_same m b a x y s :
  objects s !! a = Some y -> units m x = units m y -> unitsAt m b (setObj a x s) = unitsAt m b s.
Proof. intros Ha E. rewrite (unitsAt_setObj m b a x y s Ha). case_decide; lia. Qed.

(** What holds an object can be released by its holder. *)
Lemma held_release m a s :
  1 <= unitsAt m a s -> exists y x, objects s !! a = Some y /\ releaseObj m y = Some x.
Proof.
  unfold unitsAt. destruct (objects s !! a) as [y|]; [|lia]. intros [x Hx]%releaseObj_held. eauto.
Qed.

(** * What a connection does to the objects *)

Definition fresh (o : object) : Prop := forall m, units m o = 0.
Definition freshPoint (p : hpc) : Prop := match p with HCreate _ _ _ o => fresh o | _ => True end.

(** Neither the objects nor the operations to start change. *)
Definition mild (s s' : Server) : Prop := objects s' = objects s /\ spawned s' = spawned s.

#[export] Instance mild_preorder : PreOrder mild.
Proof. split; [by split|]. intros s1 s2 s3 [] []. split; congruence. Qed.

Lemma sendToClient_mild conn m s : mild s (sendToClient conn m s).
Proof. unfold sendToClient. by case_decide. Qed.
Lemma logAudit_mild now conn e s : mild s (logAudit now conn e s).
Proof. unfold logAudit. by destruct (auditLogger s). Qed.
Lemma rateLimited_mild now conn ty s : mild s (rateLimited now conn ty s).2.
Proof. unfold rateLimited. repeat (case_match; simplify_eq/=; try done). Qed.
Lemma authenticate_mild V now h s : mild s (authenticate V now h s).2.
Proof. unfold authenticate. repeat (case_match; simplify_eq/=; try done). Qed.
Lemma register_mild now conn claims ns p s : mild s (registerClient_step now conn claims ns p s).2.
Proof.
  destruct p; simpl; try done; try apply logAudit_mild.
  - unfold getOrCreateNamespacePrims. simpl. by destruct (namespaces s !! ns).
  - destruct claims; [|done]. by destruct (connStates s !! conn).
Qed.
Lemma unregister_mild now conn p s : mild s (unregisterClient_step now conn p s).2.
Proof. destruct p; simpl; try done; try apply logAudit_mild. by destruct (connStates s !! conn). Qed.

#[export] Hint Resolve sendToClient_mild logAudit_mild rateLimited_mild authenticate_mild register_mild
  unregister_mild : server.

Lemma mild_units m a s s' : mild s s' -> unitsAt m a s' = unitsAt m a s.
Proof. intros [E _]. unfold unitsAt. by rewrite E. Qed.

Section Connections.
Context (V : Z -> string -> string -> jwtError + Claims) {Raw : Type} (codec : Codec Raw).
Context (statsOf : object -> Z) (key : PrimitiveInfo -> string).

(** What beginning to handle a message of type [ty] leads to. *)
Definition begun (ty : string) (raw : Raw) (s : Server) (x : hpc * Server) : Prop :=
  freshPoint x.1 /\ objects x.2 = objects s /\
  (spawned x.2 = spawned s \/
   exists conn p, ty = "primitiveOp" /\ decodeOp codec raw = Some p /\ spawned x.2 = spawned s ++ [(conn, p)]).

Lemma begun_mild ty raw s p s' : freshPoint p -> mild s s' -> begun ty raw s (p, s').
Proof. intros H [E1 E2]. split; [done|]. split; [done|by left]. Qed.

Lemma begun_fail ty raw s conn text : begun ty raw s (fail conn text s).
Proof. by apply begun_mild; [|apply sendToClient_mild]. Qed.

Lemma begun_validated ty raw s conn id name k :
  begun ty raw s k -> begun ty raw s (validated conn id name s k).
Proof. intros. unfold validated. repeat case_decide; try apply begun_fail. done. Qed.

Lemma begun_create ty raw s conn id name o : fresh o -> begun ty raw s (create conn id name o s).
Proof. intros. unfold create. case_match; [by apply begun_mild|apply begun_fail]. Qed.

Lemma begun_basic ty raw s conn o : fresh o -> begun ty raw s (createBasic codec o conn raw s).
Proof.
  intros. unfold createBasic. destruct (decodeBasic codec raw) as [[id name]|]; [|apply begun_fail].
  by apply begun_validated, begun_create.
Qed.

Lemma begun_message now conn ty raw s : begun ty raw s (handleMessage codec now conn ty raw s).
Proof.
  unfold handleMessage. destruct (authorizeMessage _ ty); [apply begun_fail|].
  repeat (case_decide; [try (apply begun_basic; by intros [])|]); try apply begun_fail.
  - unfold handleCreateSemaphore. destruct (decodeCapacity codec raw) as [[[id name] n]|]; [|apply begun_fail].
    apply begun_validated. case_match; [apply begun_fail|]. apply begun_create. by intros [].
  - unfold handleCreateBarrier. destruct (decodeParties codec raw) as [[[id name] n]|]; [|apply begun_fail].
    apply begun_validated. case_match; [apply begun_fail|]. apply begun_create. by intros [].
  - unfold handleDeletePrimitive. repeat case_match; try apply begun_fail. by apply begun_mild.
  - apply begun_mild; [done|]. apply sendToClient_mild.
  - unfold startOp. destruct (decodeOp codec raw) as [p|] eqn:E; [|apply begun_fail].
    split; [done|]. split; [done|]. right. by exists conn, p.
  - by apply begun_mild.
Qed.

Lemma begun_receive now conn ty raw s : begun ty raw s (receive codec now conn ty raw s).
Proof.
  unfold receive. pose proof (rateLimited_mild now conn ty s) as [E1 E2].
  destruct (rateLimited now conn ty s) as [[e|] s1]; simpl in *.
  - apply begun_mild; [done|]. etrans; [|apply sendToClient_mild]. done.
  - destruct (begun_message now conn ty raw s1) as (H1 & H2 & H3). split; [done|]. rewrite H2, E1. split; [done|].
    by rewrite E2 in H3.
Qed.

(** A handler only adds new objects. *)
Lemma handler_units now conn p s p' s' :
  handler_step statsOf key now conn p s = Some (p', s') -> freshPoint p ->
  (forall m a, unitsAt m a s' = unitsAt m a s) /\ spawned s' = spawned s /\ freshPoint p'.
Proof.
  intros Hs Hp. assert (Hm : mild s s' -> freshPoint p' ->
    (forall m a, unitsAt m a s' = unitsAt m a s) /\ spawned s' = spawned s /\ freshPoint p').
  { intros H ?. split; [intros; by apply mild_units|]. by destruct H. }
  destruct p as [cp id name o|id name k a|id name k| |cp id|cp id|id|id| | | | | | |]; simpl in Hs; simplify_eq;
    try (apply Hm; [by auto with server|done]).
  - destruct (insertPrim cp id o s) as [[a s1]|] eqn:E; [|injection Hs as <- <-; by apply Hm; [apply sendToClient_mild|]].
    injection Hs as <- <-. unfold insertPrim in E. apply bind_Some in E as (c & _ & E). case_match; [done|].
    injection E as <- <-. split; [|done]. intros m b. unfold unitsAt. simpl.
    destruct (objects s !! b) as [y|] eqn:Eb; [by rewrite (lookup_app_l_Some _ _ _ _ Eb)|].
    apply lookup_ge_None in Eb. rewrite lookup_app_r by done.
    destruct (b - length (objects s))%nat as [|k]; simpl; [apply Hp|done].
  - apply bind_Some in Hs as (o & _ & Hs). injection Hs as <- <-. by apply Hm.
  - apply Hm; [done|]. by case_decide.
  - apply bind_Some in Hs as (c & _ & Hs). case_match; injection Hs as <- <-; (apply Hm; [|done]); [done|apply sendToClient_mild].
  - apply bind_Some in Hs as (c & _ & Hs). injection Hs as <- <-. apply Hm; [|done]. by case_match.
  - apply Hm; [apply sendToClient_mild|done].
  - unfold handleRequestFullRefresh, fail in Hs. repeat case_match; simplify_eq; (apply Hm; [|done]); try done. etrans; [|apply sendToClient_mild]. done.
  - apply Hm; [apply sendToClient_mild|done].
Qed.

(** No client asks for "unlock". *)
Definition calmRequest (r : request (Raw:=Raw)) : Prop :=
  match r with
  | Receive ty raw => forall p, ty = "primitiveOp" -> decodeOp codec raw = Some p -> opOp p <> "unlock"
  | _ => True
  end.

Definition calmOps (s : Server) : Prop := Forall (fun x => opOp x.2 <> "unlock") (spawned s).

Definition calmSession (th : session (Raw:=Raw)) : Prop :=
  match spoint th with SHandle p => freshPoint p | _ => True end /\
  match inbox th with Some r => calmRequest r | None => True end.

Lemma session_units o th s th' s' :
  session_step V codec statsOf key o th s = Some (th', s') -> calmSession th -> calmOps s ->
  (forall m a, unitsAt m a s' = unitsAt m a s) /\ calmOps s' /\ calmSession th'.
Proof.
  intros Hs [H1 H2] Ho.
  assert (Hm : forall p, mild s s' -> th' = at_ p th -> match p with SHandle p => freshPoint p | _ => True end ->
    (forall m a, unitsAt m a s' = unitsAt m a s) /\ calmOps s' /\ calmSession th').
  { intros p H -> Hp. split; [intros; by apply mild_units|]. destruct H as [_ E]. unfold calmOps. by rewrite E. }
  unfold session_step in Hs. destruct (spoint th) as [|cl q|cl ns|cl ns|cl ns|cl ns p| |p|p|] eqn:Ep.
  - destruct (inbox th) as [[h q| |]|]; try done. pose proof (authenticate_mild V (clk o) h s).
    destruct (authenticate V (clk o) h s) as [[r|c] s1]; simplify_eq/=; by eapply Hm.
  - repeat case_match; simplify_eq; by eapply Hm.
  - simplify_eq. case_match; by eapply Hm.
  - simplify_eq. case_match; by eapply Hm.
  - simplify_eq. by eapply Hm.
  - pose proof (register_mild (clk o) (sconn th) cl ns p s).
    destruct (registerClient_step (clk o) (sconn th) cl ns p s) as [[p'|] s1]; simplify_eq/=; by eapply Hm.
  - destruct (inbox th) as [[|ty raw|]|] eqn:Ei; simplify_eq; [|by eapply Hm].
    pose proof (begun_receive (clk o) (sconn th) ty raw s) as (B1 & B2 & B3).
    destruct (receive codec (clk o) (sconn th) ty raw s) as [p s1]. simplify_eq/=. split; [|split].
    + intros. unfold unitsAt. by rewrite B2.
    + unfold calmOps. destruct B3 as [->|(cn & q & -> & Hd & ->)]; [done|].
      apply Forall_app. split; [done|]. apply Forall_singleton. by apply H2.
    + split; [|done]. simpl. by destruct p.
  - apply bind_Some in Hs as ([p' s1] & Hs & E). simplify_eq/=.
    destruct (handler_units (clk o) (sconn th) p s p' s' Hs H1) as (U & E & F). split; [done|].
    unfold calmOps. rewrite E. split; [done|]. split; [|done]. simpl. by destruct p'.
  - pose proof (unregister_mild (clk o) (sconn th) p s).
    destruct (unregisterClient_step (clk o) (sconn th) p s) as [[p'|] s1]; simplify_eq/=; by eapply Hm.
  - done.
Qed.
End Connections.

(** * What the goroutines of operations do to the objects *)

Lemma RecordAcquire_mild id n s : mild s (RecordAcquire id n s).
Proof. done. Qed.
Lemma RecordRelease_mild id n s : mild s (RecordRelease id n s).
Proof. done. Qed.
Lemma RecordWait_mild id ns n s : mild s (RecordWait id ns n s).
Proof. done. Qed.
Lemma sendBlockingErr_mild now c e s : mild s (sendBlockingErr now c e s).
Proof. unfold sendBlockingErr. etrans; [apply logAudit_mild|apply sendToClient_mild]. Qed.
Lemma reportSuccess_mild now c s : mild s (reportSuccess now c s).
Proof.
  unfold reportSuccess. case_decide; (etrans; [apply logAudit_mild|apply sendToClient_mild]).
Qed.

(** The operations that do not block leave the locks alone. *)
Lemma dispatch_units c ptrs s p s' :
  dispatch c ptrs s = (p, s') -> opOp (opay c) <> "unlock" ->
  (forall m a, unitsAt m a s' = unitsAt m a s) /\ spawned s' = spawned s /\ opHolds p = None /\
  (forall a, p <> OUnlock a).
Proof.
  intros Hd Hne.
  assert (Hm : mild s s' -> opHolds p = None -> (forall a, p <> OUnlock a) ->
    (forall m a, unitsAt m a s' = unitsAt m a s) /\ spawned s' = spawned s /\ opHolds p = None /\
    (forall a, p <> OUnlock a)).
  { intros H ??. split; [intros; by apply mild_units|]. by destruct H. }
  assert (Hx : forall a x y, objects s !! a = Some y -> fresh x -> fresh y -> 
    (forall m b, unitsAt m b (setObj a x s) = unitsAt m b s)).
  { intros a x y Ha Ex Ey m b. apply (unitsAt_same m b a x y); [done|]. by rewrite Ex, Ey. }
  unfold dispatch, dispatchRest, withObj, errOp in Hd.
  repeat (case_decide; [repeat case_match; simplify_eq; try (by apply Hm); try (apply Hm; [apply sendToClient_mild|done|done])|]);
    try (split; [by eapply Hx; [eassumption|intros []|intros []]|done]).
  simplify_eq. apply Hm; [apply sendToClient_mild|done|done].
Qed.

Definition calmOp (th : opThread) : Prop :=
  match opt th with OIdle => True | OUnlock _ => False | _ => opOp (opay (oc th)) <> "unlock" end.

(** The holders of a lock other than the goroutine that holds [x]. *)
Definition balance (m : mode) (a : nat) (w : opsWorld) (x : option (mode * nat)) : Z :=
  unitsAt m a (osrv w) - sumf (fun h => own m a (lockOf h)) (holdQ w) - own m a x.

Record opsKeep (w w' : opsWorld) (x x' : option (mode * nat)) : Prop := {
  keep_crashed : crashed w' = crashed w;
  keep_balance : forall m a, balance m a w' x' = balance m a w x
}.

Lemma keep_frame w w' x :
  objects (osrv w') = objects (osrv w) -> holdQ w' = holdQ w -> crashed w' = crashed w -> opsKeep w w' x x.
Proof. intros H E1 E2. split; [done|]. intros m a. unfold balance, unitsAt. by rewrite H, E1. Qed.

Lemma blockingCall_keep o c wk s e s' w :
  osrv w = s -> blockingCall o c wk s = Some (e, s') ->
  opsKeep w (upds (fun _ => s') w) None (match e with None => workLock wk | Some _ => None end) /\ spawned s' = spawned s.
Proof.
  intros <- H. unfold blockingCall in H. destruct (alt o).
  { repeat case_match; simplify_eq; (split; [by apply keep_frame|done]). }
  destruct wk as [m a|a|a|a]; simpl in *.
  - apply bind_Some in H as (y & Hy & H). apply bind_Some in H as (x & Hx & H). simplify_eq. split; [|done].
    split; [done|]. intros m' b. unfold balance. simpl. rewrite (unitsAt_acquire m' b m a x y _ Hy Hx), own_None. lia.
  - repeat case_match; simplify_eq. split; [|done]. split; [done|]. intros m' b. unfold balance. simpl.
    by erewrite unitsAt_same by (done || by destruct m').
  - simplify_eq. split; [by apply keep_frame|done].
  - repeat case_match; simplify_eq. split; [by apply keep_frame|done].
Qed.

Lemma undo_keep wk w :
  (forall m a, own m a (workLock wk) <= unitsAt m a (osrv w)) ->
  match undo wk (osrv w) with
  | Some s' => opsKeep w (upds (fun _ => s') w) (workLock wk) None /\ spawned s' = spawned (osrv w)
  | None => workLock wk = None
  end.
Proof.
  intros Hh. destruct wk as [m a|a|a|a]; simpl in *; try (split; [by apply keep_frame|done]).
  - specialize (Hh m a). rewrite own_eq in Hh. destruct (held_release m a (osrv w) Hh) as (y & x & Hy & Hx).
    rewrite Hy. simpl. rewrite Hx. simpl. split; [|done]. split; [done|]. intros m' b. unfold balance. simpl.
    rewrite (unitsAt_release m' b m a x y _ Hy Hx), own_None. lia.
  - destruct (objects (osrv w) !! a) as [[| |cap n| | | | | |]|] eqn:E; try done. simpl. case_match.
    + split; [by apply keep_frame|done].
    + split; [|done]. split; [done|]. intros m' b. unfold balance. simpl.
      by erewrite unitsAt_same by (done || by destruct m').
Qed.

Lemma record_keep o c wk w w' :
  record o c wk w = Some w' -> opsKeep w w' (workLock wk) None /\ spawned (osrv w') = spawned (osrv w).
Proof.
  intros H. unfold record in H. destruct wk as [m a|a|a|a]; simpl in *.
  - apply bind_Some in H as (y & Hy & H). simplify_eq. simpl. split; [|by destruct m]. split; [done|]. intros m' b.
    unfold balance. simpl. rewrite sumf_app. simpl. unfold lockOf at 2. simpl. rewrite own_None.
    assert (E : forall s', mild (osrv w) s' -> unitsAt m' b s' = unitsAt m' b (osrv w)) by (intros; by apply mild_units).
    rewrite E by (by destruct m). lia.
  - repeat case_match; simplify_eq. split; [by apply keep_frame|done].
  - simplify_eq. split; [by apply keep_frame|done].
  - simplify_eq. split; [by apply keep_frame|done].
Qed.

Section OpSteps.
Context (showDuration : Z -> string).

Lemma op_keep o th w th' w' :
  op_step showDuration o th w = Some (th', w') -> calmOp th -> calmOps (osrv w) ->
  (forall m a, own m a (opHolds (opt th)) <= unitsAt m a (osrv w)) ->
  opsKeep w w' (opHolds (opt th)) (opHolds (opt th')) /\ calmOps (osrv w') /\ calmOp th'.
Proof.
  intros Hs Hc Ho Hh. destruct th as [c p]. unfold calmOps, op_step in *.
  assert (Hm : mild (osrv w) (osrv w') -> holdQ w' = holdQ w -> crashed w' = crashed w ->
    opHolds (opt th') = opHolds p -> calmOp th' ->
    opsKeep w w' (opHolds p) (opHolds (opt th')) /\ Forall (fun x => opOp x.2 <> "unlock") (spawned (osrv w')) /\ calmOp th').
  { intros [E1 E2] ?? -> ?. rewrite E2. split; [by apply keep_frame|done]. }
  destruct p as [| | | | |ptrs|ptrs|ptrs|a|wk|wk|wk t e|wk|wk|wk|e| | |text|text]; simpl in *; unfold calmOp in Hc; simpl in Hc; try done.
  - apply bind_Some in Hs as (x & Hx & Hs). simplify_eq. simpl. split; [by apply keep_frame|].
    split; [by apply Forall_delete|]. by apply (Forall_lookup_1 _ _ _ _ Ho Hx).
  - simplify_eq. by apply Hm.
  - simplify_eq. by apply Hm.
  - case_match; simplify_eq; [by apply Hm|]. apply Hm; [apply sendToClient_mild|done..].
  - apply bind_Some in Hs as (x & _ & Hs). simplify_eq. by apply Hm.
  - apply bind_Some in Hs as (x & _ & Hs). simplify_eq. by apply Hm.
  - simplify_eq. by apply Hm.
  - destruct (dispatch c ptrs (osrv w)) as [p s'] eqn:E. simplify_eq. simpl.
    destruct (dispatch_units c ptrs _ p s' E Hc) as (U & Es & Ep & Hu). rewrite Es, Ep.
    split; [|split; [done|]].
    + split; [done|]. intros m a. unfold balance. simpl. by rewrite U.
    + destruct p; try done. by destruct (Hu a).
  - simplify_eq. by apply Hm.
  - apply bind_Some in Hs as ([e s'] & Hb & Hs). simplify_eq. simpl.
    destruct (blockingCall_keep o c wk _ e s' w eq_refl Hb) as [K ->]. done.
  - destruct wk, e; simplify_eq; by apply Hm.
  - apply bind_Some in Hs as (x & _ & Hs). simplify_eq. case_match; by apply Hm.
  - pose proof (undo_keep wk w Hh) as K. destruct (undo wk (osrv w)) as [s'|]; simplify_eq; simpl.
    + by destruct K as [K ->].
    + rewrite K. split; [by apply keep_frame|done].
  - apply bind_Some in Hs as (w1 & Hr & Hs). simplify_eq. simpl.
    destruct (record_keep o c wk w w' Hr) as [K ->]. done.
  - simplify_eq. apply Hm; [apply sendBlockingErr_mild|done..].
  - simplify_eq. apply Hm; [apply reportSuccess_mild|done..].
  - simplify_eq. by apply Hm.
  - simplify_eq. by apply Hm.
  - simplify_eq. apply Hm; [apply sendToClient_mild|done..].
Qed.

Lemma hold_keep o g w g' w' :
  hold_step o g w = Some (g', w') -> (forall m a, own m a (hgHolds g) <= unitsAt m a (osrv w)) ->
  opsKeep w w' (hgHolds g) (hgHolds g') /\ spawned (osrv w') = spawned (osrv w).
Proof.
  intros Hs Hh. destruct g as [|h|h|h]; simpl in *.
  - apply bind_Some in Hs as (h & Hx & Hs). simplify_eq. simpl. split; [|done]. split; [done|]. intros m a.
    unfold balance. simpl. rewrite (sumf_delete _ _ _ _ Hx), own_None. lia.
  - case_match; simplify_eq. split; [by apply keep_frame|done].
  - specialize (Hh (hmode h) (haddr h)). unfold lockOf in Hh at 1. rewrite own_eq in Hh.
    destruct (held_release _ _ _ Hh) as (y & x & Hy & Hx). rewrite Hy in Hs. simpl in Hs. rewrite Hx in Hs.
    simplify_eq. simpl. split; [|done]. split; [done|]. intros m b. unfold balance. simpl.
    rewrite (unitsAt_release m b _ _ x y _ Hy Hx), own_None. unfold lockOf. lia.
  - apply bind_Some in Hs as (x & _ & Hs). simplify_eq. split; [by apply keep_frame|done].
Qed.

Context (V : Z -> string -> string -> jwtError + Claims) {Raw : Type} (codec : Codec Raw).
Context (statsOf : object -> Z) (key : PrimitiveInfo -> string).

(** The lock a goroutine has to release. *)
Definition holdsOf (th : othread (Raw:=Raw)) : option (mode * nat) :=
  match th with TConn _ => None | TOp x => opHolds (opt x) | THold g => hgHolds g end.

Definition calmThread (th : othread (Raw:=Raw)) : Prop :=
  match th with TConn x => calmSession codec x | TOp x => calmOp x | THold _ => True end.

(** The goroutines, started and to be started, that have to release the lock
    at [a]. *)
Definition holders (m : mode) (a : nat) (c : opsWorld * list (othread (Raw:=Raw))) : Z :=
  sumf (fun th => own m a (holdsOf th)) c.2 + sumf (fun h => own m a (lockOf h)) (holdQ c.1).

Record OpsInv (c : opsWorld * list (othread (Raw:=Raw))) : Prop := {
  oi_units : forall m a, unitsAt m a (osrv c.1) = holders m a c;
  oi_calm : Forall calmThread c.2;
  oi_ops : calmOps (osrv c.1);
  oi_crash : crashed c.1 = false
}.

Lemma orun_keep o th w th' w' :
  orun showDuration V codec statsOf key o th w = Some (th', w') -> calmThread th -> calmOps (osrv w) ->
  (forall m a, own m a (holdsOf th) <= unitsAt m a (osrv w)) ->
  opsKeep w w' (holdsOf th) (holdsOf th') /\ calmOps (osrv w') /\ calmThread th'.
Proof.
  intros Hs Hc Ho Hh. unfold orun in Hs. destruct (crashed w) eqn:Ew; [done|]. destruct th as [x|x|g]; simpl in *.
  - apply bind_Some in Hs as ([x' s'] & Hx & Hs). simplify_eq. simpl.
    destruct (session_units V codec statsOf key o x _ x' s' Hx Hc Ho) as (U & Hs' & Hc'). split; [|done].
    split; [done|]. intros m a. unfold balance. simpl. by rewrite U.
  - apply bind_Some in Hs as ([x' s'] & Hx & Hs). simplify_eq. simpl. by apply (op_keep o x w).
  - apply bind_Some in Hs as ([g' s'] & Hx & Hs). simplify_eq. simpl.
    destruct (hold_keep o g w g' w' Hx Hh) as [K E]. unfold calmOps. by rewrite E.
Qed.

Lemma OpsInv_run o w ths t th th' w' :
  OpsInv (w, ths) -> ths !! t = Some th -> orun showDuration V codec statsOf key o th w = Some (th', w') ->
  OpsInv (w', <[t:=th']> ths).
Proof.
  intros [U C O K] Ht Hs. simpl in *.
  assert (Hh : forall m a, own m a (holdsOf th) <= unitsAt m a (osrv w)).
  { intros m a. rewrite U. unfold holders. simpl.
    pose proof (sumf_lookup_le (fun th => own m a (holdsOf th)) ths t th (fun _ => own_nonneg m a _) Ht).
    pose proof (sumf_nonneg (fun h => own m a (lockOf h)) (holdQ w) (fun _ => own_nonneg m a _)). simpl in *. lia. }
  destruct (orun_keep o th w th' w' Hs (Forall_lookup_1 _ _ _ _ C Ht) O Hh) as ([K1 K2] & Ho & Hc).
  split; simpl; [|by apply Forall_insert|done|by rewrite K1].
  intros m a. unfold holders. simpl. rewrite (sumf_insert _ _ _ _ _ Ht).
  specialize (K2 m a). specialize (U m a). unfold balance, holders in *. simpl in *. lia.
Qed.

(** No connection receives a request for "unlock". *)
Definition calmLabel (l : label (request (Raw:=Raw))) : Prop :=
  match l with Call _ r _ => calmRequest codec r | _ => True end.

Lemma OpsInv_initial now c r files s0 files' n k j :
  newServer now c r files = Some (s0, files') -> OpsInv (opsInitial s0 n k j).
Proof.
  intros H. assert (E : objects s0 = [] /\ spawned s0 = []).
  { unfold newServer in H. repeat case_match; by simplify_eq. }
  destruct E as [E1 E2]. split; simpl.
  - intros m a. unfold unitsAt, holders, opsInitial. simpl. rewrite E1. simpl.
    rewrite !sumf_app, sumf_fmap, !sumf_replicate by done. rewrite sumf_zero; [done|]. done.
  - rewrite !Forall_app, Forall_fmap. split; [|by split; apply Forall_replicate].
    apply Forall_lookup. intros i x Hi. simpl. by rewrite (sessions_lookup n i x Hi).
  - unfold calmOps. by rewrite E2.
  - done.
Qed.

(** C18: every lock that the server holds for a client will be released.  As
    long as no client asks for "unlock", for every number of connections,
    operations and hold goroutines and every interleaving, a lock is held for
    reading as often, and for writing as often, as there are goroutines that
    have to release it (operations that have acquired and hold goroutines,
    started or not), and no hold goroutine panics. *)
Theorem locks_accounted now c r files s0 files' n k j w ths :
  newServer now c r files = Some (s0, files') ->
  reach (opsMachine showDuration V codec statsOf key) calmLabel (opsInitial s0 n k j) (w, ths) ->
  crashed w = false /\ forall m a, unitsAt m a (osrv w) = holders m a (w, ths).
Proof.
  intros HN HR. assert (HI : OpsInv (w, ths)).
  { apply (reach_invariant (opsMachine showDuration V codec statsOf key) calmLabel OpsInv (opsInitial s0 n k j)) with (c := (w, ths)); [| | | |done].
    - by eapply OpsInv_initial.
    - intros sh l t th th' op nw [U C O K] HP Ht Hc. destruct th as [x| |]; try done. simpl in Hc.
      destruct (scall op nw x) as [x'|] eqn:Ex; simplify_eq/=.
      assert (Hx' : calmSession codec x').
      { destruct (Forall_lookup_1 _ _ _ _ C Ht) as [Hx _]. unfold scall in Ex. repeat case_match; by simplify_eq. }
      split; simpl in *; [|apply Forall_insert; [done|exact Hx']|done|done].
      intros m a. rewrite U. unfold holders. simpl. rewrite (sumf_insert _ _ _ _ _ Ht). simpl. lia.
    - intros sh l t th th' sh' o HI _ Ht Hs. exact (OpsInv_run o sh l t th th' sh' HI Ht Hs).
    - done. }
  by destruct HI.
Qed.
End OpSteps.

(** * Concrete executions *)

Definition noDurations (_ : Z) : string := "".
Definition sampleOps : machine opsWorld othread request :=
  opsMachine noDurations noTokens pairCodec noStats nameKey.
Definition op (name id : string) : list (label (request (Raw := string * string))) :=
  Call 0%nat (Receive "primitiveOp" (id, name)) 0 :: runs 0 1.

(** Connection 0 creates a mutex and locks it; goroutine 1 runs the
    operation, goroutine 2 holds the lock. *)
Definition lockRun : list (label (request (Raw := string * string))) :=
  connectAs 0 ++ message 0 "createMutex" "m" 6 ++ op "lock" "m" ++ runs 1 15 ++ runs 2 1.
Definition lockStart : Prelude.config (Sh:=opsWorld) (Th:=othread (Raw := string * string)) :=
  opsInitial (started sampleConfig) 1 1 1.
Definition lockEnd : Prelude.config (Sh:=opsWorld) (Th:=othread (Raw := string * string)) :=
  after sampleOps lockRun lockStart.

Lemma locks_accounted_witness :
  unitsAt MWrite 0 (osrv lockEnd.1) = 1 /\
  unitsAt MWrite 0 (osrv lockEnd.1) = holders MWrite 0 (lockEnd.1, lockEnd.2).
Proof.
  split; [by_eval|].
  assert (HN : newServer 0 sampleConfig allOk ∅ = Some (started sampleConfig, ∅)) by reflexivity.
  refine (proj2 (locks_accounted noDurations noTokens pairCodec noStats nameKey 0 sampleConfig allOk ∅
    (started sampleConfig) ∅ 1 1 1 lockEnd.1 lockEnd.2 HN _) MWrite 0%nat).
  apply (execs_reach sampleOps _ lockRun); [|by_eval].
  repeat (constructor; [try exact I; intros p _ [= <-]; discriminate|]). constructor.
Defined.

(** The lock is given back by "unlock" before its time is over. *)
Definition crashRun : list (label (request (Raw := string * string))) :=
  lockRun ++ op "unlock" "m" ++ runs 1 11 ++ [Run 2%nat (Oracle false 0 1000000000000); Run 2%nat o0].

(** "unlock" after "lock" takes the server down.  A client locks a mutex
    and unlocks it again, and both operations are answered with success; when
    the time of the lock is over the goroutine that holds it unlocks the
    mutex, which is not locked, and its panic, which nothing recovers, ends
    the process. *)
Theorem unlock_crashes :
  exists w ths, reach sampleOps any_label lockStart (w, ths) /\
    drop 1 (sent (osrv w)) =
      [(0%nat, mkOut "success" (PText "Mutex created"));
       (0%nat, mkOut "success" (PText "Operation lock on m completed"));
       (0%nat, mkOut "success" (PText "Operation unlock on m completed"))] /\
    crashed w = true.
Proof.
  exists (after sampleOps crashRun lockStart).1, (after sampleOps crashRun lockStart).2.
  split; [apply (execs_reach sampleOps any_label crashRun); [apply Forall_any|by_eval]|].
  split; by_eval.
Qed.
