(* ===== verification/Answers.v ===== *)
(** * Every request is answered once (web/server.go)

    A client may send the next request before the last one is answered, and
    operations are performed by goroutines of their own, so answers can
    overtake each other; but none is lost and none is given twice.  This file
    keeps the account for one connection: what has been asked is what has been
    answered and what is owed, by the connection's goroutine, by operations
    that have not been scheduled yet and by those in progress.  The updates
    that are broadcast to all connections (Delta.v) are not among the messages
    counted here. *)

From Stdlib Require Import ZArith Lia.
From stdpp Require Import base list gmap strings pretty.
From S2P Require Import Prelude.
From S2P Require Import Auth.
From S2P Require Import AuditLog.
From S2P Require Import Scheduler.
From S2P Require Import Metrics.
From S2P Require Import Access.
From S2P Require Import Server.
From S2P Require Import Registry.
From S2P Require Import ServerOps.

#[local] Open Scope Z_scope.

(** ** The account *)

(** An answer: every message but the state that greets a connection. *)
Definition isAnswer (m : outMessage) : bool := bool_decide (outType m <> "initialState").

Definition answersIn (msgs : list outMessage) : Z := sumf (fun m => Z.b2z (isAnswer m)) msgs.

(** Answers sent to a connection, operations to be started for it. *)
Definition answersTo (n : nat) (s : Server) : Z :=
  sumf (fun x => Z.b2z (bool_decide (x.1 = n) && isAnswer x.2)) (sent s).

Definition spawnedFor (n : nat) (s : Server) : Z :=
  sumf (fun x : nat * opPayload => Z.b2z (bool_decide (x.1 = n))) (spawned s).

(** What is owed at a point of a handler, of a connection, of an operation. *)
Definition handlerOwes (p : hpc) : Z :=
  match p with
  | HDone => 0
  | HRead ty | HSeed ty _ | HSend ty _ => Z.b2z (bool_decide (ty <> "initialState"))
  | _ => 1
  end.

Definition sessionOwes {Raw} (th : session (Raw:=Raw)) : Z :=
  match spoint th, inbox th with
  | SReady, Some (Receive _ _) => 1
  | SHandle p, _ => handlerOwes p
  | _, _ => 0
  end.

Definition opOwes (p : opc) : Z := match p with OIdle | OEnd => 0 | _ => 1 end.

(** What a step of the goroutine of [conn] says to its client, and the
    operations it starts. *)
Record speaks (conn : nat) (msgs : list outMessage) (ops : list opPayload) (s s' : Server) : Prop := {
  sp_sent : sent s' = sent s ++ (if decide (conn ∈ writeMu s) then pair conn <$> msgs else []);
  sp_spawned : spawned s' = spawned s ++ (pair conn <$> ops);
  sp_mu : writeMu s' = writeMu s
}.

Lemma speaks_silent conn s s' :
  sent s' = sent s -> spawned s' = spawned s -> writeMu s' = writeMu s -> speaks conn [] [] s s'.
Proof. intros E1 E2 E3. split; rewrite ?E1, ?E2; simpl; [by case_decide; rewrite app_nil_r|by rewrite app_nil_r|done]. Qed.

Lemma speaks_send conn m s : speaks conn [m] [] s (sendToClient conn m s).
Proof.
  unfold sendToClient. destruct (decide (conn ∈ writeMu s)) as [H|H]; split; simpl; rewrite ?app_nil_r; try done.
  - by rewrite decide_True.
  - by rewrite decide_False, app_nil_r.
Qed.

Lemma speaks_trans conn m1 o1 m2 o2 s s1 s2 :
  speaks conn m1 o1 s s1 -> speaks conn m2 o2 s1 s2 -> speaks conn (m1 ++ m2) (o1 ++ o2) s s2.
Proof.
  intros [A1 A2 A3] [B1 B2 B3]. split; [|by rewrite B2, A2, fmap_app, app_assoc|congruence].
  rewrite B1, A1, A3, <- app_assoc. by destruct (decide (conn ∈ writeMu s)); rewrite ?fmap_app.
Qed.

Lemma speaks_after conn msgs s s1 s2 :
  sent s1 = sent s -> spawned s1 = spawned s -> writeMu s1 = writeMu s -> speaks conn msgs [] s1 s2 -> speaks conn msgs [] s s2.
Proof. intros E1 E2 E3 H. exact (speaks_trans conn [] [] msgs [] s s1 s2 (speaks_silent conn s s1 E1 E2 E3) H). Qed.

Lemma logAudit_silent now conn n e s : speaks n [] [] s (logAudit now conn e s).
Proof. apply speaks_silent; unfold logAudit; by destruct (auditLogger s). Qed.

(** A handler step pays what it no longer owes. *)
Section Handlers.
Context {Raw : Type} (codec : Codec Raw) (statsOf : object -> Z) (key : PrimitiveInfo -> string).

Definition pays (conn : nat) (owed : Z) (s : Server) (x : hpc * Server) : Prop :=
  exists msgs ops, speaks conn msgs ops s x.2 /\ answersIn msgs + Z.of_nat (length ops) + handlerOwes x.1 = owed.

Lemma pays_fail conn text s : pays conn 1 s (fail conn text s).
Proof. exists [mkOut "error" (PText text)], []. split; [apply speaks_send|done]. Qed.

Lemma pays_silent conn p s s' :
  sent s' = sent s -> spawned s' = spawned s -> writeMu s' = writeMu s -> pays conn (handlerOwes p) s (p, s').
Proof. intros. exists [], []. split; [by apply speaks_silent|done]. Qed.

Lemma pays_after conn k s s1 x :
  sent s1 = sent s -> spawned s1 = spawned s -> writeMu s1 = writeMu s -> pays conn k s1 x -> pays conn k s x.
Proof.
  intros E1 E2 E3 (msgs & ops & H & Hk). exists msgs, ops. split; [|done].
  exact (speaks_trans conn [] [] msgs ops s s1 _ (speaks_silent conn s s1 E1 E2 E3) H).
Qed.

Lemma pays_validated conn id name s x : pays conn 1 s x -> pays conn 1 s (validated conn id name s x).
Proof. intros. unfold validated. repeat case_decide; try apply pays_fail. done. Qed.

Lemma pays_create conn id name o s : pays conn 1 s (create conn id name o s).
Proof. unfold create. case_match; [|apply pays_fail]. by apply (pays_silent conn (HCreate _ _ _ _)). Qed.

Lemma pays_basic conn o raw s : pays conn 1 s (createBasic codec o conn raw s).
Proof.
  unfold createBasic. destruct (decodeBasic codec raw) as [[id name]|]; [|apply pays_fail].
  by apply pays_validated, pays_create.
Qed.

Lemma pays_message now conn ty raw s : pays conn 1 s (handleMessage codec now conn ty raw s).
Proof.
  unfold handleMessage. destruct (authorizeMessage _ ty); [apply pays_fail|].
  repeat (case_decide; [try apply pays_basic|]); try apply pays_fail.
  - unfold handleCreateSemaphore. destruct (decodeCapacity codec raw) as [[[id name] n]|]; [|apply pays_fail].
    apply pays_validated. case_match; [apply pays_fail|apply pays_create].
  - unfold handleCreateBarrier. destruct (decodeParties codec raw) as [[[id name] n]|]; [|apply pays_fail].
    apply pays_validated. case_match; [apply pays_fail|apply pays_create].
  - unfold handleDeletePrimitive. repeat case_match; try apply pays_fail. by apply (pays_silent conn (HDelete _ _)).
  - eexists [_], []. split; [apply speaks_send|done].
  - unfold startOp. destruct (decodeOp codec raw) as [p|] eqn:E; [|apply pays_fail].
    exists [], [p]. split; [|done]. split; simpl; [by case_decide; rewrite app_nil_r|done|done].
  - by apply (pays_silent conn HRefresh).
Qed.

Lemma pays_receive now conn ty raw s : pays conn 1 s (receive codec now conn ty raw s).
Proof.
  unfold receive. assert (E : sent (rateLimited now conn ty s).2 = sent s /\ spawned (rateLimited now conn ty s).2 = spawned s
    /\ writeMu (rateLimited now conn ty s).2 = writeMu s).
  { unfold rateLimited. repeat (case_match; simplify_eq/=; try done). }
  destruct E as (E1 & E2 & E3). destruct (rateLimited now conn ty s) as [[e|] s1]; simpl in *.
  - by apply (pays_after conn 1 s s1); [..|apply pays_fail].
  - by apply (pays_after conn 1 s s1); [..|apply pays_message].
Qed.

Lemma pays_handler now conn p s x :
  handler_step statsOf key now conn p s = Some x -> pays conn (handlerOwes p) s x.
Proof.
  intros Hs. destruct p as [cp id name o|id name k a|id name k|id k|cp id|cp id|id|id|id|text| |ty|ty prims|ty prims|];
    simpl in Hs; simplify_eq; try (match goal with |- pays _ _ _ (?q, _) => by apply (pays_silent conn q) end).
  - unfold insertPrim in Hs. destruct (heap s !! cp) as [c|]; simpl in Hs; [|simplify_eq; apply pays_fail].
    destruct (primExists c id); simplify_eq; [apply pays_fail|]. by apply (pays_silent conn (HSched _ _ _ _)).
  - apply bind_Some in Hs as (o & _ & Hs). simplify_eq. by apply (pays_silent conn (HMetrics _ _ _)).
  - case_decide; [by apply (pays_silent conn (HReply _))|by apply (pays_silent conn (HAudit _ _))].
  - exists [], []. split; [apply logAudit_silent|done].
  - apply bind_Some in Hs as (c & _ & Hs). destruct (primExists c id); simplify_eq; [|apply pays_fail].
    by apply (pays_silent conn (HDeleteCtx _ _)).
  - apply bind_Some in Hs as (c & _ & Hs). simplify_eq. apply (pays_silent conn (HDeleteSched _)); by case_match.
  - exists [], []. split; [apply logAudit_silent|done].
  - eexists [_], []. split; [apply speaks_send|done].
  - unfold handleRequestFullRefresh. repeat case_match; try (by apply (pays_silent conn (HRead "state"))).
    by eapply pays_after; [..|apply pays_fail].
  - eexists [_], []. split; [apply speaks_send|]. unfold answersIn, isAnswer. simpl. lia.
Qed.
End Handlers.

(** ** Operations *)

Definition kindAt (s : Server) (a : nat) : option Scheduler.PrimitiveType := kindOf <$> objects s !! a.

(** Objects stay what they are. *)
Definition keepsKinds (s s' : Server) : Prop := forall a k, kindAt s a = Some k -> kindAt s' a = Some k.

#[export] Instance keepsKinds_preorder : PreOrder keepsKinds.
Proof. split; [by intros s a k|]. intros s1 s2 s3 H1 H2 a k H. by apply H2, H1. Qed.

Lemma keepsKinds_objects s s' : objects s' = objects s -> keepsKinds s s'.
Proof. intros E a k. unfold kindAt. by rewrite E. Qed.

Lemma keepsKinds_prefix s s' : objects s `prefix_of` objects s' -> keepsKinds s s'.
Proof.
  intros [l E] a k. unfold kindAt. rewrite E. destruct (objects s !! a) as [o|] eqn:Ea; [|done].
  by erewrite lookup_app_l_Some.
Qed.

Lemma keepsKinds_set a x y s : objects s !! a = Some y -> kindOf x = kindOf y -> keepsKinds s (setObj a x s).
Proof.
  intros Ha E b k. unfold kindAt, setObj. simpl. destruct (decide (b = a)) as [->|].
  - rewrite list_lookup_insert_eq by (by eapply lookup_lt_Some). rewrite Ha. simpl. congruence.
  - by rewrite list_lookup_insert_ne.
Qed.

Lemma acquireObj_kind m x y : acquireObj m x = Some y -> kindOf y = kindOf x.
Proof. destruct m, x as [? []|? []| |[]| | | | |]; simpl; repeat case_match; intros; by simplify_eq. Qed.

Lemma releaseObj_kind m x y : releaseObj m x = Some y -> kindOf y = kindOf x.
Proof. destruct m, x as [? []|? []| |[]| | | | |]; simpl; repeat case_match; intros; by simplify_eq. Qed.

(** What an operation has found are objects of the kinds it looked for. *)
Definition ptrsTyped (s : Server) (ptrs : Scheduler.PrimitiveType -> option nat) : Prop :=
  forall k a, ptrs k = Some a -> kindAt s a = Some k.

Definition opTyped (s : Server) (p : opc) : Prop :=
  match p with OCtx ptrs | OConn ptrs | ODispatch ptrs => ptrsTyped s ptrs | _ => True end.

(** A step of an operation for [conn] pays what it no longer owes. *)
Record opPays (conn : nat) (owed : Z) (s : Server) (p : opc) (s' : Server) : Prop := {
  op_pays : exists msgs, speaks conn msgs [] s s' /\ answersIn msgs + opOwes p = owed;
  op_heap : heap s' = heap s;
  op_kinds : keepsKinds s s';
  op_typed : opTyped s' p
}.

Lemma opPays_send conn m s p :
  isAnswer m = true -> opOwes p = 0 -> opTyped (sendToClient conn m s) p -> opPays conn 1 s p (sendToClient conn m s).
Proof.
  intros Hm Hp Ht. pose proof (sendToClient_same conn m s) as [].
  split; [|done|by apply keepsKinds_objects|done]. exists [m]. split; [apply speaks_send|].
  unfold answersIn. simpl. rewrite Hm, Hp. done.
Qed.

Lemma opPays_silent conn s p s' :
  sent s' = sent s -> spawned s' = spawned s -> writeMu s' = writeMu s -> heap s' = heap s -> keepsKinds s s' ->
  opTyped s' p -> opPays conn (opOwes p) s p s'.
Proof. intros. split; [|done..]. exists []. split; [by apply speaks_silent|done]. Qed.

Lemma opPays_frame conn s p s' :
  sent s' = sent s -> spawned s' = spawned s -> writeMu s' = writeMu s -> heap s' = heap s -> objects s' = objects s ->
  opTyped s' p -> opPays conn (opOwes p) s p s'.
Proof. intros. apply opPays_silent; try done. by apply keepsKinds_objects. Qed.

Lemma opPays_after conn k s s1 p s2 :
  sent s1 = sent s -> spawned s1 = spawned s -> writeMu s1 = writeMu s -> sameReg s s1 ->
  opPays conn k s1 p s2 -> opPays conn k s p s2.
Proof.
  intros E1 E2 E3 [] [(msgs & H & Hk) Hh Ho Ht]. split; [|congruence| |done].
  - exists msgs. split; [|done]. by apply (speaks_after conn msgs s s1 s2).
  - etrans; [|exact Ho]. by apply keepsKinds_objects.
Qed.

Section Dispatch.
Context (c : opctx) (ptrs : Scheduler.PrimitiveType -> option nat) (s : Server).
Context (Hp : ptrsTyped s ptrs).

Definition pays1 (x : opc * Server) : Prop := opPays (oconn c) 1 s x.1 x.2.

Lemma pays1_err text : pays1 (errOp c s text).
Proof. by apply opPays_send. Qed.

Lemma pays1_goto p : opOwes p = 1 -> opTyped s p -> pays1 (p, s).
Proof. intros E Ht. unfold pays1. rewrite <- E. by apply opPays_silent. Qed.

Lemma pays1_set p a x y :
  objects s !! a = Some y -> kindOf x = kindOf y -> opOwes p = 1 -> (forall s', opTyped s' p) -> pays1 (p, setObj a x s).
Proof. intros Ha Ek E Ht. unfold pays1. rewrite <- E. apply opPays_silent; try done. by eapply keepsKinds_set. Qed.

(** The object is there, and of the kind looked for. *)
Lemma pays1_with k text f :
  (forall a o, objects s !! a = Some o -> kindOf o = k -> pays1 (f a o)) -> pays1 (withObj c ptrs s k text f).
Proof.
  intros Hf. unfold withObj. destruct (ptrs k) as [a|] eqn:Ea; [|apply pays1_err].
  apply Hp in Ea. unfold kindAt in Ea. destruct (objects s !! a) as [o|] eqn:Eo; [|done].
  simpl in Ea. simplify_eq. by apply Hf.
Qed.

Lemma pays1_rest : pays1 (dispatchRest c ptrs s).
Proof.
  unfold dispatchRest. repeat case_decide;
    try (apply pays1_with; intros a o Ha Ek; (by apply pays1_goto) || (destruct o as [| |cap n| | | |n| |]; try done)).
  - case_match; [by apply opPays_send|].
    unfold pays1. apply (opPays_silent (oconn c) s OSuccess); try done. by eapply (keepsKinds_set a _ _ s Ha).
  - eapply pays1_set; [exact Ha|done|by case_match|by intros; case_match].
  - eapply pays1_set; [exact Ha|done|by case_match|by intros; case_match].
  - destruct (ptrs TypeOnce) as [a|] eqn:Ea.
    + apply Hp in Ea. unfold kindAt in Ea. destruct (objects s !! a) as [o|] eqn:Eo; [|done]. simpl in Ea.
      destruct o; simplify_eq. by eapply pays1_set.
    + case_match; [by apply pays1_goto|apply pays1_err].
  - by apply opPays_send.
Qed.

Lemma pays1_dispatch : pays1 (dispatch c ptrs s).
Proof.
  unfold dispatch. repeat case_decide; [| | |apply pays1_rest].
  - repeat case_match; try (by apply pays1_goto). apply pays1_err.
  - repeat case_match; try (by apply pays1_goto). apply pays1_err.
  - apply pays1_with. intros a o Ha Ek. destruct o as [| | |[]| | | | |]; try done; [by apply pays1_goto|apply pays1_err].
Qed.
End Dispatch.

Lemma blockingCall_pays o c wk s e s' t :
  blockingCall o c wk s = Some (e, s') -> opPays (oconn c) 1 s (OUnblock wk t e) s'.
Proof.
  intros H. unfold blockingCall in H.
  assert (K : forall s2, (exists a x y, objects s !! a = Some y /\ kindOf x = kindOf y /\ s2 = setObj a x s) ->
    opPays (oconn c) 1 s (OUnblock wk t e) s2).
  { intros s2 (a & x & y & Ha & Ek & ->). apply (opPays_silent (oconn c) s (OUnblock wk t e)); try done. by eapply keepsKinds_set. }
  destruct (alt o); [repeat case_match; simplify_eq; by apply (opPays_silent (oconn c) _ (OUnblock wk t _))|].
  destruct wk as [m a|a|a|a]; simpl in *.
  - apply bind_Some in H as (y & Hy & H). apply bind_Some in H as (x & Hx & H). simplify_eq.
    apply K. exists a, x, y. split; [done|]. split; [by eapply acquireObj_kind|done].
  - repeat case_match; simplify_eq. apply K. naive_solver.
  - simplify_eq. by apply (opPays_silent (oconn c) _ (OUnblock _ t _)).
  - repeat case_match; simplify_eq. by apply (opPays_silent (oconn c) _ (OUnblock _ t _)).
Qed.

Lemma undo_pays c wk s s' : undo wk s = Some s' -> opPays (oconn c) 1 s (OBlockingErr Canceled) s'.
Proof.
  intros H. unfold undo in H.
  assert (K : forall s2, keepsKinds s s2 -> sent s2 = sent s -> spawned s2 = spawned s -> writeMu s2 = writeMu s ->
    heap s2 = heap s -> opPays (oconn c) 1 s (OBlockingErr Canceled) s2).
  { intros. by apply (opPays_silent (oconn c) s (OBlockingErr Canceled)). }
  destruct wk as [m a|a|a|a]; simpl in *; simplify_eq; try by apply K.
  - apply bind_Some in H as (y & Hy & H). apply bind_Some in H as (x & Hx & H). simplify_eq.
    apply K; try done. eapply keepsKinds_set; [done|by eapply releaseObj_kind].
  - repeat case_match; simplify_eq; apply K; try done. by eapply keepsKinds_set.
Qed.

Lemma record_pays o c wk w w' : record o c wk w = Some w' -> opPays (oconn c) 1 (osrv w) OSuccess (osrv w').
Proof.
  intros H. unfold record in H. destruct wk as [m a|a|a|a]; simpl in *; simplify_eq.
  - apply bind_Some in H as (y & _ & H). simplify_eq. by destruct m; apply (opPays_frame (oconn c) _ OSuccess).
  - repeat case_match; simplify_eq. by apply (opPays_frame (oconn c) _ OSuccess).
  - by apply (opPays_frame (oconn c) _ OSuccess).
  - by apply (opPays_frame (oconn c) _ OSuccess).
Qed.

Lemma opPays_audited now c e m s p :
  isAnswer m = true -> opOwes p = 0 -> (forall s', opTyped s' p) ->
  opPays (oconn c) 1 s p (sendToClient (oconn c) m (logAudit now (oconn c) e s)).
Proof.
  intros. eapply opPays_after; [..|by apply opPays_send]; try apply logAudit_same; unfold logAudit; by case_match.
Qed.

Section OpStep.
Context (showDuration : Z -> string).

(** Every step of an operation pays, once it is known what it is for. *)
Lemma op_step_pays o th w th' w' :
  op_step showDuration o th w = Some (th', w') -> opt th <> OIdle -> opTyped (osrv w) (opt th) -> Typed (osrv w) ->
  oconn (oc th') = oconn (oc th) /\ opPays (oconn (oc th)) (opOwes (opt th)) (osrv w) (opt th') (osrv w').
Proof.
  intros Hs Hi Ht HT. destruct th as [c p]. unfold op_step in Hs. simpl in *.
  assert (Q : forall q s', opOwes q = opOwes p -> sent s' = sent (osrv w) -> spawned s' = spawned (osrv w) ->
    writeMu s' = writeMu (osrv w) -> heap s' = heap (osrv w) -> objects s' = objects (osrv w) -> opTyped s' q ->
    opPays (oconn c) (opOwes p) (osrv w) q s').
  { intros q s' <- ?????. by apply opPays_frame. }
  destruct p as [| | | | |ptrs|ptrs|ptrs|a|wk|wk|wk t e|wk|wk|wk|e| | |text|text]; simpl in *; try done.
  - simplify_eq. split; [done|]. by apply Q.
  - simplify_eq. split; [done|]. by apply Q.
  - case_match; simplify_eq; (split; [done|]); [by apply Q|by apply opPays_send].
  - apply bind_Some in Hs as (x & Hx & Hs). simplify_eq. split; [done|]. apply Q; try done.
    intros k a Ha. simpl in Ha. by destruct (HT _ _ _ _ _ Hx Ha).
  - apply bind_Some in Hs as (x & _ & Hs). simplify_eq. split; [done|]. by apply Q.
  - simplify_eq. split; [done|]. by apply Q.
  - pose proof (pays1_dispatch c ptrs (osrv w) Ht) as H. unfold pays1 in H.
    destruct (dispatch c ptrs (osrv w)) as [p s']. by simplify_eq.
  - apply bind_Some in Hs as (x & Hx & Hs). change (match x with ORWLock _ _ => _ | _ => _ end) with (releaseObj MWrite x) in Hs.
    destruct (releaseObj MWrite x) as [y|] eqn:Ey; simplify_eq; (split; [done|]).
    + apply (opPays_silent (oconn c) _ OSuccess); try done.
      exact (keepsKinds_set a y x (osrv w) Hx (releaseObj_kind _ _ _ Ey)).
    + by apply Q.
  - simplify_eq. split; [done|]. by apply Q.
  - apply bind_Some in Hs as ([e s'] & Hb & Hs). simplify_eq. split; [done|]. by eapply blockingCall_pays.
  - destruct wk, e; simplify_eq; (split; [done|]); by apply Q.
  - apply bind_Some in Hs as (x & _ & Hs). simplify_eq. split; [done|]. case_match; by apply Q.
  - destruct (undo wk (osrv w)) as [s'|] eqn:E; simplify_eq; (split; [done|]); [by eapply undo_pays|by apply Q].
  - apply bind_Some in Hs as (w1 & Hr & Hs). simplify_eq. split; [done|]. by eapply record_pays.
  - simplify_eq. split; [done|]. by apply opPays_audited.
  - simplify_eq. split; [done|]. simpl. unfold reportSuccess. case_decide; by apply opPays_audited.
  - simplify_eq. split; [done|]. by apply Q.
  - simplify_eq. split; [done|]. by apply Q.
  - simplify_eq. split; [done|]. by apply opPays_send.
Qed.
End OpStep.

(** ** The account of one connection *)

(** What the server has answered [n] and what it has yet to start. *)
Definition booked (n : nat) (s : Server) : Z := answersTo n s + spawnedFor n s.

(** A goroutine that owed [n] the amount [a] owes [a'] after the step: the
    difference has been answered, or lost with a connection that cannot be
    written to. *)
Definition settles (n : nat) (a a' : Z) (s s' : Server) : Prop :=
  booked n s' + a' <= booked n s + a /\ (n ∈ writeMu s -> booked n s' + a' = booked n s + a).

Lemma answersIn_nonneg msgs : 0 <= answersIn msgs.
Proof. apply sumf_nonneg. intros m. by destruct (isAnswer m). Qed.

Lemma speaks_booked conn msgs ops s s' n :
  speaks conn msgs ops s s' ->
  booked n s' = booked n s +
    if decide (n = conn) then (if decide (conn ∈ writeMu s) then answersIn msgs else 0) + Z.of_nat (length ops) else 0.
Proof.
  intros [E1 E2 _]. unfold booked, answersTo, spawnedFor. rewrite E1, E2, !sumf_app, (sumf_fmap (pair conn) _ ops).
  clear E1 E2. cbn [fst snd]. rewrite sumf_const.
  assert (H1 : sumf (fun x => Z.b2z (bool_decide (x.1 = n) && isAnswer x.2)) (pair conn <$> msgs) =
    if decide (n = conn) then answersIn msgs else 0).
  { rewrite sumf_fmap. simpl. destruct (decide (n = conn)) as [->|En].
    - apply sumf_ext. intros m. by rewrite bool_decide_eq_true_2.
    - apply sumf_zero. intros i m _. by rewrite bool_decide_eq_false_2. }
  destruct (decide (conn ∈ writeMu s)); [rewrite H1|simpl]; destruct (decide (n = conn)) as [->|En];
    rewrite ?(bool_decide_eq_true_2 (conn = conn)), ?(bool_decide_eq_false_2 (conn = n)) by done; simpl; lia.
Qed.

(** The goroutine of [conn] settles its own debt and no other. *)
Lemma speaks_settles conn msgs ops s s' a a' n :
  speaks conn msgs ops s s' -> answersIn msgs + Z.of_nat (length ops) + a' = a ->
  settles n (if decide (conn = n) then a else 0) (if decide (conn = n) then a' else 0) s s'.
Proof.
  intros H E. pose proof (answersIn_nonneg msgs). unfold settles. rewrite (speaks_booked conn msgs ops s s' n H).
  destruct (decide (conn = n)) as [->|Hn].
  - rewrite (decide_True (P := n = n)) by done. destruct (decide (n ∈ writeMu s)); [lia|]. split; [lia|done].
  - rewrite (decide_False (P := n = conn)) by done. lia.
Qed.

(** ** Connections *)

(** Before it is registered, while messages are handled, after the end. *)
Inductive phase := Early | Open | Gone.

Definition phaseOf (p : spc) : phase :=
  match p with
  | SReg _ _ RClients | SReg _ _ RWriteMu => Early
  | SReg _ _ _ | SReady | SHandle _ => Open
  | SUnreg _ | SEnd => Gone
  | _ => Early
  end.

Definition phaseStep (conn : nat) (p p' : spc) (s s' : Server) : Prop :=
  match phaseOf p with
  | Early => phaseOf p' = Open -> conn ∈ writeMu s'
  | Open => phaseOf p' = Gone \/ phaseOf p' = Open /\ writeMu s' = writeMu s
  | Gone => phaseOf p' = Gone
  end.

Record sessionPays {Raw} (n : nat) (th : session (Raw:=Raw)) (s : Server) (th' : session (Raw:=Raw)) (s' : Server) : Prop := {
  se_conn : sconn th' = sconn th;
  se_settles : settles n (if decide (sconn th = n) then sessionOwes th else 0)
                 (if decide (sconn th' = n) then sessionOwes th' else 0) s s';
  se_kinds : keepsKinds s s';
  se_mu : n <> sconn th -> n ∈ writeMu s -> n ∈ writeMu s';
  se_phase : phaseStep (sconn th) (spoint th) (spoint th') s s'
}.

Section Sessions.
Context (V : Z -> string -> string -> jwtError + Claims) {Raw : Type} (codec : Codec Raw).
Context (statsOf : object -> Z) (key : PrimitiveInfo -> string).

(** Steps that say nothing. *)
Lemma sessionPays_quiet n (th : session (Raw:=Raw)) s p s' :
  sessionOwes th = 0 -> sessionOwes (at_ p th) = 0 -> sent s' = sent s -> spawned s' = spawned s -> objects s' = objects s ->
  (n <> sconn th -> n ∈ writeMu s -> n ∈ writeMu s') -> phaseStep (sconn th) (spoint th) p s s' ->
  sessionPays n th s (at_ p th) s'.
Proof.
  intros H1 H2 E1 E2 E3 Hm Hp. split; [done| |by apply keepsKinds_objects|done|done].
  cbn [sconn at_]. unfold settles, booked, answersTo, spawnedFor. rewrite H1, H2, E1, E2. by destruct (decide _).
Qed.

Lemma sessionOwes_after p (th : session (Raw:=Raw)) : sessionOwes (at_ (afterHandler p) th) = handlerOwes p.
Proof. by destruct p. Qed.

Lemma phase_after p : phaseOf (afterHandler p) = Open.
Proof. by destruct p. Qed.

(** Steps of handlers. *)
Lemma sessionPays_handler n (th : session (Raw:=Raw)) s p s' :
  pays (sconn th) (sessionOwes th) s (p, s') -> keepsKinds s s' -> phaseOf (spoint th) = Open ->
  sessionPays n th s (at_ (afterHandler p) th) s'.
Proof.
  intros (msgs & ops & H & E) Hk Hp. simpl in *. split; [done| |done| |].
  - cbn [sconn at_]. rewrite sessionOwes_after. by eapply speaks_settles.
  - intros _. by rewrite (sp_mu _ _ _ _ _ H).
  - unfold phaseStep. rewrite Hp. right. split; [apply phase_after|by apply (sp_mu _ _ _ _ _ H)].
Qed.

Lemma fail_kinds conn text s p' s' : fail conn text s = (p', s') -> keepsKinds s s'.
Proof. intros [= _ <-]. apply keepsKinds_objects, (same_objects _ _ (sendToClient_same _ _ _)). Qed.

Lemma handler_kinds now conn p s p' s' :
  handler_step statsOf key now conn p s = Some (p', s') -> keepsKinds s s'.
Proof.
  intros Hs. destruct (reads p) eqn:Hr.
  { destruct (handler_reads statsOf key now conn p s p' s' Hr Hs) as [[] _]. by apply keepsKinds_objects. }
  destruct p as [cp id name o|id name k a|id name k| |cp id|cp id|id|id| | | | | | |]; try done; simpl in Hs.
  - unfold insertPrim in Hs. destruct (heap s !! cp) as [c|]; simpl in Hs.
    + destruct (primExists c id); simplify_eq; [by eapply fail_kinds|by apply keepsKinds_prefix; eexists].
    + simplify_eq. by eapply fail_kinds.
  - apply bind_Some in Hs as (o & _ & Hs). simplify_eq. by apply keepsKinds_objects.
  - simplify_eq. by apply keepsKinds_objects.
  - apply bind_Some in Hs as (c & Hc & Hs). destruct (primExists c id); simplify_eq; [by apply keepsKinds_objects|by eapply fail_kinds].
  - apply bind_Some in Hs as (c & Hc & Hs). simplify_eq. apply keepsKinds_objects. by case_match.
  - simplify_eq. by apply keepsKinds_objects.
  - simplify_eq. by apply keepsKinds_objects.
Qed.

Lemma register_quiet now conn claims ns p s :
  let s' := (registerClient_step now conn claims ns p s).2 in
  sent s' = sent s /\ writeMu s' = match p with RWriteMu => {[conn]} ∪ writeMu s | _ => writeMu s end.
Proof.
  destruct p; simpl; try done.
  - unfold getOrCreateNamespacePrims. simpl. by destruct (namespaces s !! ns).
  - unfold logAudit. by destruct (auditLogger s).
  - destruct claims; [|done]. by destruct (connStates s !! conn).
Qed.

Lemma unregister_quiet now conn p s :
  let s' := (unregisterClient_step now conn p s).2 in
  sent s' = sent s /\ writeMu s' = match p with UWriteMu => writeMu s ∖ {[conn]} | _ => writeMu s end.
Proof.
  destruct p; simpl; try done.
  - by destruct (connStates s !! conn).
  - unfold logAudit. by destruct (auditLogger s).
Qed.

Lemma register_pays n now th cl ns p s :
  spoint th = SReg cl ns p ->
  let x := registerClient_step now (sconn th) cl ns p s in
  sessionPays (Raw:=Raw) n th s (at_ (match x.1 with Some p => SReg cl ns p | None => SHandle sendInitialState end) th) x.2.
Proof.
  intros Hp x. destruct (register_quiet now (sconn th) cl ns p s) as [E1 E2].
  destruct (register_mild now (sconn th) cl ns p s) as [E3 E4]. fold x in E1, E2, E3, E4.
  assert (N : p <> RClients ->
    phaseOf (match x.1 with Some p => SReg cl ns p | None => SHandle sendInitialState end) = Open).
  { unfold x. destruct p; simpl; try done. by destruct (getOrCreateNamespacePrims _ _). }
  apply sessionPays_quiet; try done.
  - unfold sessionOwes. by rewrite Hp.
  - by destruct x.1.
  - intros _ H. rewrite E2. destruct p; set_solver.
  - unfold phaseStep. rewrite Hp.
    destruct p; simpl; try (right; split; [by apply N|done]); [done|]. set_solver.
Qed.

Lemma unregister_pays n now th p s :
  spoint th = SUnreg p ->
  let x := unregisterClient_step now (sconn th) p s in
  sessionPays (Raw:=Raw) n th s (at_ (match x.1 with Some p => SUnreg p | None => SEnd end) th) x.2.
Proof.
  intros Hp x. destruct (unregister_quiet now (sconn th) p s) as [E1 E2].
  destruct (unregister_mild now (sconn th) p s) as [E3 E4]. fold x in E1, E2, E3, E4.
  apply sessionPays_quiet; try done.
  - unfold sessionOwes. by rewrite Hp.
  - by destruct x.1.
  - intros Hn H. rewrite E2. destruct p; set_solver.
  - unfold phaseStep. rewrite Hp. by destruct x.1.
Qed.

Lemma session_pays n o th s th' s' :
  session_step V codec statsOf key o th s = Some (th', s') -> sessionPays n th s th' s'.
Proof.
  intros Hs. unfold session_step in Hs. destruct th as [cn p ib ar]. cbn [spoint inbox sconn] in Hs.
  destruct p as [|cl q|cl ns|cl ns|cl ns|cl ns p| |p|p|].
  - destruct ib as [[h q| |]|]; try done. pose proof (authenticate_same V (clk o) h s) as [].
    pose proof (authenticate_mild V (clk o) h s) as [].
    assert (E : sent (authenticate V (clk o) h s).2 = sent s /\ writeMu (authenticate V (clk o) h s).2 = writeMu s).
    { unfold authenticate. repeat (case_match; simplify_eq/=; try done). }
    destruct E as [E1 E2]. destruct (authenticate V (clk o) h s) as [[r|c] s1]; simplify_eq/=;
      apply sessionPays_quiet; try done; by rewrite E2.
  - repeat case_match; simplify_eq; by apply sessionPays_quiet.
  - simplify_eq. case_match; by apply sessionPays_quiet.
  - simplify_eq. case_match; by apply sessionPays_quiet.
  - simplify_eq. by apply sessionPays_quiet.
  - pose proof (register_pays n (clk o) (mkSession cn (SReg cl ns p) ib ar) cl ns p s eq_refl) as H. simpl in H.
    by destruct (registerClient_step (clk o) cn cl ns p s) as [r s1]; simplify_eq.
  - destruct ib as [[|ty raw|]|]; simplify_eq; [|by apply sessionPays_quiet; try done; left].
    pose proof (pays_receive codec (clk o) cn ty raw s) as H.
    pose proof (receive_same codec (clk o) cn ty raw s) as [].
    destruct (receive codec (clk o) cn ty raw s) as [p s1]. simplify_eq.
    apply sessionPays_handler; [done|by apply keepsKinds_objects|done].
  - apply bind_Some in Hs as ([p' s1] & Hh & E). simplify_eq.
    apply sessionPays_handler; [|by eapply handler_kinds|done]. exact (pays_handler statsOf key _ _ _ _ _ Hh).
  - pose proof (unregister_pays n (clk o) (mkSession cn (SUnreg p) ib ar) p s eq_refl) as H. simpl in H.
    by destruct (unregisterClient_step (clk o) cn p s) as [r s1]; simplify_eq.
  - done.
Qed.
End Sessions.

(** ** All goroutines *)

Lemma Typed_kinds s s' : heap s' = heap s -> keepsKinds s s' -> Typed s -> Typed s'.
Proof. intros E K HT p c k id a. rewrite E. intros Hp Ha. destruct (HT p c k id a Hp Ha). split; [by apply K|done]. Qed.

Lemma ptrsTyped_kinds s s' ptrs : keepsKinds s s' -> ptrsTyped s ptrs -> ptrsTyped s' ptrs.
Proof. intros K H k a Ha. by apply K, H. Qed.

Lemma opTyped_kinds s s' p : keepsKinds s s' -> opTyped s p -> opTyped s' p.
Proof. intros K. destruct p; simpl; try done; by apply ptrsTyped_kinds. Qed.

Section Threads.
Context (showDuration : Z -> string).
Context (V : Z -> string -> string -> jwtError + Claims) {Raw : Type} (codec : Codec Raw).
Context (statsOf : object -> Z) (key : PrimitiveInfo -> string).

(** What a goroutine owes the connection [n]. *)
Definition owedBy (n : nat) (th : othread (Raw:=Raw)) : Z :=
  match th with
  | TConn x => if decide (sconn x = n) then sessionOwes x else 0
  | TOp x => if decide (oconn (oc x) = n) then opOwes (opt x) else 0
  | THold _ => 0
  end.

Definition threadTyped (s : Server) (th : othread (Raw:=Raw)) : Prop :=
  match th with TOp x => opTyped s (opt x) | _ => True end.

(** A step of any goroutine, as [n] sees it. *)
Record runPays (n : nat) (th : othread (Raw:=Raw)) (s : Server) (th' : othread (Raw:=Raw)) (s' : Server) : Prop := {
  rp_settles : settles n (owedBy n th) (owedBy n th') s s';
  rp_kinds : keepsKinds s s';
  rp_typed : Typed s';
  rp_thread : threadTyped s' th';
  rp_conn : match th, th' with
            | TConn x, TConn x' => sconn x' = sconn x /\ phaseStep (sconn x) (spoint x) (spoint x') s s'
            | TConn _, _ | _, TConn _ => False
            | _, _ => True
            end;
  rp_mu : (forall x, th = TConn x -> sconn x <> n) -> n ∈ writeMu s -> n ∈ writeMu s'
}.

Lemma runPays_op n o th w th' w' :
  op_step showDuration o th w = Some (th', w') -> opTyped (osrv w) (opt th) -> Typed (osrv w) ->
  runPays n (TOp th) (osrv w) (TOp th') (osrv w').
Proof.
  intros Hs Ht HT. assert (D : opt th = OIdle \/ opt th <> OIdle) by (destruct (opt th); auto). destruct D as [Ei|Hi].
  - destruct th as [c p]. simpl in Ei. subst p. simpl in Hs. apply bind_Some in Hs as (x & Hx & Hs). simplify_eq.
    split; try done; try (by apply keepsKinds_objects).
    unfold settles, booked, answersTo, spawnedFor. simpl. rewrite (sumf_delete _ _ _ _ Hx).
    case_bool_decide; repeat case_decide; simpl; lia.
  - destruct (op_step_pays showDuration o th w th' w' Hs Hi Ht HT) as [Ec [(msgs & H & E) Eh K T]].
    split; try done.
    + simpl. rewrite Ec. apply (speaks_settles _ msgs []); [done|simpl; lia].
    + by apply (Typed_kinds (osrv w)).
    + intros _. by rewrite (sp_mu _ _ _ _ _ H).
Qed.

Lemma runPays_hold n o g w g' w' :
  hold_step o g w = Some (g', w') -> Typed (osrv w) -> runPays n (THold g) (osrv w) (THold g') (osrv w').
Proof.
  intros Hs HT.
  assert (E : sent (osrv w') = sent (osrv w) /\ spawned (osrv w') = spawned (osrv w) /\ writeMu (osrv w') = writeMu (osrv w) /\
    heap (osrv w') = heap (osrv w) /\ keepsKinds (osrv w) (osrv w')).
  { destruct g as [|h|h|h]; simpl in Hs.
    - apply bind_Some in Hs as (h & _ & Hs). by simplify_eq.
    - case_match; by simplify_eq.
    - apply bind_Some in Hs as (y & Hy & Hs). destruct (releaseObj (hmode h) y) as [x|] eqn:E; simplify_eq; [|done].
      split_and!; try done. eapply keepsKinds_set; [done|by eapply releaseObj_kind].
    - apply bind_Some in Hs as (y & _ & Hs). simplify_eq. split_and!; try done. by apply keepsKinds_objects. }
  destruct E as (E1 & E2 & E3 & E4 & K). split; try done.
  - unfold settles, booked, answersTo, spawnedFor. by rewrite E1, E2.
  - by apply (Typed_kinds (osrv w)).
  - intros _. by rewrite E3.
Qed.

Lemma orun_pays n o th w th' w' :
  orun showDuration V codec statsOf key o th w = Some (th', w') -> threadTyped (osrv w) th -> Typed (osrv w) ->
  runPays n th (osrv w) th' (osrv w').
Proof.
  intros Hs Ht HT. unfold orun in Hs. destruct (crashed w); [done|]. destruct th as [x|x|g].
  - apply bind_Some in Hs as ([x' s'] & Hx & Hs). simplify_eq.
    pose proof (Typed_session V codec statsOf key o x _ x' s' HT Hx).
    destruct (session_pays V codec statsOf key n o x _ x' s' Hx). split; try done. intros Hc. by apply se_mu0, not_eq_sym, Hc.
  - apply bind_Some in Hs as ([x' w1] & Hx & Hs). simplify_eq. by eapply runPays_op.
  - apply bind_Some in Hs as ([g' w1] & Hx & Hs). simplify_eq. by eapply runPays_hold.
Qed.

(** ** Executions *)

(** The requests a connection has received. *)
Definition asked (n : nat) (ls : list (label (request (Raw:=Raw)))) : Z :=
  sumf (fun l => match l with Call t (Receive _ _) _ => Z.b2z (bool_decide (t = n)) | _ => 0 end) ls.

(** The requests that are still to be answered: operations to be started,
    and what goroutines have in hand. *)
Definition pending (n : nat) (c : opsWorld * list (othread (Raw:=Raw))) : Z :=
  spawnedFor n (osrv c.1) + sumf (owedBy n) c.2.

Record AnswersInv (n : nat) (ls : list (label (request (Raw:=Raw)))) (c : opsWorld * list (othread (Raw:=Raw))) : Prop := {
  an_conns : forall t x, c.2 !! t = Some (TConn x) -> sconn x = t;
  an_typed : Typed (osrv c.1);
  an_threads : Forall (threadTyped (osrv c.1)) c.2;
  an_most : answersTo n (osrv c.1) + pending n c <= asked n ls;
  an_phase : exists x, c.2 !! n = Some (TConn x) /\
    match phaseOf (spoint x) with
    | Early => asked n ls = 0
    | Open => n ∈ writeMu (osrv c.1) /\ answersTo n (osrv c.1) + pending n c = asked n ls
    | Gone => True
    end
}.

Lemma owedBy_nonneg n th : 0 <= owedBy n th.
Proof.
  destruct th as [x|x|g]; simpl; [| |lia]; case_decide; try lia.
  - unfold sessionOwes, handlerOwes. repeat case_match; try lia; by destruct (bool_decide _).
  - unfold opOwes. case_match; lia.
Qed.

Lemma pendingRequests_nonneg n c : 0 <= pending n c.
Proof.
  unfold pending, spawnedFor.
  pose proof (sumf_nonneg (fun x : nat * opPayload => Z.b2z (bool_decide (x.1 = n))) (spawned (osrv c.1))
    (fun x => b2z_nonneg _)). pose proof (sumf_nonneg (owedBy n) c.2 (owedBy_nonneg n)). lia.
Qed.

Lemma answersTo_nonneg n s : 0 <= answersTo n s.
Proof. apply sumf_nonneg. intros. apply b2z_nonneg. Qed.

Lemma asked_snoc n ls l : asked n (ls ++ [l]) = asked n ls + asked n [l].
Proof. apply sumf_app. Qed.

Lemma scall_owes r now (x x' : session (Raw:=Raw)) :
  scall r now x = Some x' ->
  sconn x' = sconn x /\ spoint x' = spoint x /\
  sessionOwes x' = sessionOwes x + match r with Receive _ _ => 1 | _ => 0 end /\
  (phaseOf (spoint x) = Open \/ exists h q, r = Connect h q).
Proof.
  intros H. destruct x as [cn p ib ar]. unfold scall in H. simpl in H.
  destruct ib, p, r; simplify_eq; (split_and!; try done; first [by left | right; eauto]).
Qed.

Lemma AnswersInv_call n ls w ths t th th' r now :
  AnswersInv n ls (w, ths) -> ths !! t = Some th -> ocall r now th = Some th' ->
  AnswersInv n (ls ++ [Call t r now]) (w, <[t:=th']> ths).
Proof.
  intros [C T F M (x0 & Hx0 & P)] Ht Hc. simpl in *. destruct th as [x| |]; try done. simpl in Hc.
  destruct (scall r now x) as [x'|] eqn:Ex; simplify_eq/=.
  destruct (scall_owes r now x x' Ex) as (E1 & E2 & E3 & E4). pose proof (C t x Ht) as Ec.
  assert (D : pending n (w, <[t:=TConn x']> ths) = pending n (w, ths) + asked n [Call t r now]).
  { unfold pending, asked. simpl. rewrite (sumf_insert _ _ _ _ _ Ht). simpl. rewrite E1, E3, Ec.
    destruct (decide (t = n)); [rewrite bool_decide_eq_true_2 by done|rewrite bool_decide_eq_false_2 by done]; destruct r; simpl; lia. }
  split; simpl.
  - intros u y [(<- & [= ->] & _)|[_ Hu]]%list_lookup_insert_Some; [congruence|by apply C].
  - done.
  - by apply Forall_insert.
  - rewrite D, asked_snoc. lia.
  - rewrite D, asked_snoc. destruct (decide (t = n)) as [->|Hn].
    + exists x'. rewrite list_lookup_insert_eq by (by eapply lookup_lt_Some). split; [done|].
      rewrite Hx0 in Ht. simplify_eq. rewrite E2. destruct (phaseOf (spoint x)); [|destruct P; split; [done|lia]|done].
      destruct E4 as [?|(h & q & ->)]; [done|]. unfold asked at 2. simpl. lia.
    + exists x0. rewrite list_lookup_insert_ne by done. split; [done|].
      assert (A : asked n [Call t r now] = 0) by (unfold asked; simpl; rewrite bool_decide_eq_false_2 by done; by destruct r).
      rewrite A. destruct (phaseOf (spoint x0)); [lia|destruct P; split; [done|lia]|done].
Qed.

Lemma AnswersInv_run n ls w ths t th th' w' o :
  AnswersInv n ls (w, ths) -> ths !! t = Some th -> orun showDuration V codec statsOf key o th w = Some (th', w') ->
  AnswersInv n (ls ++ [Run t o]) (w', <[t:=th']> ths).
Proof.
  intros [C T F M (x0 & Hx0 & P)] Ht Hs. simpl in *.
  destruct (orun_pays n o th w th' w' Hs (Forall_lookup_1 _ _ _ _ F Ht) T) as [[S1 S2] K T' Tt Rc Rm].
  assert (A : asked n (ls ++ [Run t o]) = asked n ls) by (rewrite asked_snoc; unfold asked; simpl; lia).
  assert (D : pending n (w', <[t:=th']> ths) = pending n (w, ths) - spawnedFor n (osrv w) + spawnedFor n (osrv w') - owedBy n th + owedBy n th').
  { unfold pending. simpl. rewrite (sumf_insert _ _ _ _ _ Ht). lia. }
  unfold booked in *. split; simpl.
  - intros u y [(<- & -> & _)|[_ Hu]]%list_lookup_insert_Some; [|by apply C].
    destruct th as [x| |]; try done. destruct Rc as [-> _]. by apply C.
  - done.
  - apply Forall_insert; [|done]. eapply Forall_impl; [exact F|]. intros [x|x|g]; simpl; try done. by apply opTyped_kinds.
  - rewrite A, D. lia.
  - rewrite A, D. pose proof (answersTo_nonneg n (osrv w')). pose proof (pendingRequests_nonneg n (w', <[t:=th']> ths)).
    destruct (decide (t = n)) as [->|Hn].
    + rewrite Hx0 in Ht. simplify_eq. destruct th' as [x'| |]; try done. destruct Rc as [Ec Rp]. rewrite (C n x0 Hx0) in Rp.
      exists x'. rewrite list_lookup_insert_eq by (by eapply lookup_lt_Some). split; [done|]. unfold phaseStep in Rp.
      destruct (phaseOf (spoint x0)).
      * destruct (phaseOf (spoint x')); [done| |done]. split; [by apply Rp|]. lia.
      * destruct P as [P1 P2]. destruct Rp as [->|[-> ->]]; [done|]. split; [done|]. specialize (S2 P1). lia.
      * by rewrite Rp.
    + exists x0. rewrite list_lookup_insert_ne by done. split; [done|].
      destruct (phaseOf (spoint x0)); [lia| |done]. destruct P as [P1 P2]. specialize (S2 P1). split; [|lia].
      apply Rm; [|done]. intros x ->. rewrite (C t x Ht). done.
Qed.

Lemma AnswersInv_initial now cf r files s0 files' m k j n :
  newServer now cf r files = Some (s0, files') -> (n < m)%nat -> AnswersInv n [] (opsInitial s0 m k j).
Proof.
  intros HN Hn. assert (E : heap s0 = [] /\ spawned s0 = [] /\ sent s0 = []).
  { unfold newServer in HN. repeat case_match; by simplify_eq. }
  destruct E as (E1 & E2 & E3).
  assert (L : forall t (th : othread (Raw:=Raw)), (opsInitial s0 m k j).2 !! t = Some th ->
    th = TConn (mkSession t SNone None 0) \/ th = TOp idleOp \/ th = THold GIdle).
  { intros t th [H|[_ [H|[_ H]]%lookup_app_Some]]%lookup_app_Some.
    - apply list_lookup_fmap_Some in H as (x & -> & Hx). left. by rewrite (sessions_lookup m t x Hx).
    - apply lookup_replicate in H as [-> _]. by right; left.
    - apply lookup_replicate in H as [-> _]. by right; right. }
  split.
  - intros t x [[= ->]|[?|?]]%L; done.
  - intros p c k' id a. cbn [opsInitial fst osrv]. by rewrite E1.
  - apply Forall_lookup. by intros t th [-> |[-> | ->]]%L.
  - unfold answersTo, pending, spawnedFor. cbn [opsInitial fst osrv]. rewrite E2, E3. simpl.
    fold (opsInitial (Raw:=Raw) s0 m k j). unfold asked. simpl. rewrite sumf_zero; [done|].
    intros t th [-> |[-> | ->]]%L; simpl; by try case_decide.
  - exists (mkSession n SNone None 0). split; [|done]. unfold opsInitial. simpl.
    rewrite lookup_app_l by (rewrite length_fmap; unfold sessions; by rewrite length_fmap, length_seq).
    unfold sessions. rewrite !list_lookup_fmap, lookup_seq_lt by done. done.
Qed.

(** C20: every request is answered exactly once.  For any number of
    connections, goroutines for operations and hold goroutines, and for every
    interleaving of them, the answers that have been sent to a connection
    (messages other than its initial state: successes, errors, pongs,
    refreshed states) and the requests that are still being worked on are
    together never more than the requests it sent; and as long as the
    connection has not begun to close they are exactly as many.  A request
    that is refused, panics, finds its primitive deleted or times out is
    answered like any other. *)
Theorem requests_answered_once now cf r files s0 files' m k j n ls w ths x :
  newServer now cf r files = Some (s0, files') ->
  execs (opsMachine showDuration V codec statsOf key) ls (opsInitial s0 m k j) = Some (w, ths) ->
  (n < m)%nat -> ths !! n = Some (TConn x) ->
  0 <= pending n (w, ths) /\
  answersTo n (osrv w) + pending n (w, ths) <= asked n ls /\
  (phaseOf (spoint x) <> Gone -> answersTo n (osrv w) + pending n (w, ths) = asked n ls).
Proof.
  intros HN HE Hn Hx. split; [apply pendingRequests_nonneg|].
  assert (HI : AnswersInv n ls (w, ths)).
  { revert HE. apply (execs_history (opsMachine showDuration V codec statsOf key) (AnswersInv n)).
    - by eapply AnswersInv_initial.
    - intros ls' t r' nw sh l th th' HI Ht Hc. by eapply AnswersInv_call.
    - intros ls' t o sh l th th' sh' HI Ht Hs. by eapply AnswersInv_run.
    - intros ls' y sh l [C T F M P]. simpl.
      assert (A : asked n (ls' ++ [Cancel y]) = asked n ls') by (rewrite asked_snoc; unfold asked; simpl; lia).
      split; try done; simpl; by rewrite A. }
  destruct HI as [C T F M (x' & Hx' & P)]. simpl in *. rewrite Hx in Hx'. injection Hx' as <-. split; [done|].
  pose proof (answersTo_nonneg n (osrv w)). pose proof (pendingRequests_nonneg n (w, ths)).
  intros Hg. destruct (phaseOf (spoint x)); [lia|by destruct P|done].
Qed.
End Threads.

(** ** Concrete executions *)

(** Connection 0 creates a mutex and asks for it to be locked and for an
    operation that does not exist: one answer has been sent, both operations
    wait to be started; when they have run, all three are answered. *)
Definition askedRun : list (label (request (Raw := string * string))) :=
  connectAs 0 ++ message 0 "createMutex" "m" 6 ++ op "lock" "m" ++ op "jump" "m".

Definition answeredRun : list (label (request (Raw := string * string))) := askedRun ++ runs 1 15 ++ runs 1 9.

Definition accountAfter (ls : list (label (request (Raw := string * string)))) : Z * Z * Z :=
  let c := after sampleOps ls lockStart in (asked 0 ls, answersTo 0 (osrv c.1), pending 0 c).

Example asked_account : accountAfter askedRun = (3, 1, 2).
Proof. vm_compute. reflexivity. Qed.

Example answered_account : accountAfter answeredRun = (3, 3, 0).
Proof. vm_compute. reflexivity. Qed.

Definition answeredEnd : Prelude.config (Sh:=opsWorld) (Th:=othread (Raw := string * string)) := after sampleOps answeredRun lockStart.

Definition answeredSession : session (Raw := string * string) := mkSession 0 SReady None 0.

Lemma requests_answered_once_witness :
  answersTo 0 (osrv answeredEnd.1) = 3 /\ pending 0 answeredEnd = 0 /\
  answersTo 0 (osrv answeredEnd.1) + pending 0 (answeredEnd.1, answeredEnd.2) = asked 0 answeredRun.
Proof.
  split; [by_eval|]. split; [by_eval|].
  assert (HN : newServer 0 sampleConfig allOk ∅ = Some (started sampleConfig, ∅)) by reflexivity.
  refine (proj2 (proj2 (requests_answered_once noDurations noTokens pairCodec noStats nameKey 0 sampleConfig allOk ∅
    (started sampleConfig) ∅ 1 1 1 0 answeredRun answeredEnd.1 answeredEnd.2 answeredSession HN _ _ _)) _).
  - by_eval.
  - lia.
  - by_eval.
  - discriminate.
Defined.
