(* ===== verification/Objects.v ===== *)
(** * The primitives implement the objects of the server

    Server.v and ServerOps.v give a connection's primitives as abstract
    objects whose operations take effect in one step.  This file shows that
    the algorithms of internal/primitives, whose operations take many steps
    and interleave, implement them: every execution of a primitive has a
    history of object operations, each performed by one of its goroutines,
    that leads from the new object to the state of the primitive, and what a
    goroutine holds is what the history says it has taken.  The server in
    turn changes its objects only by these operations. *)

From Stdlib Require Import ZArith Lia.
From stdpp Require Import base list gmap strings.
From S2P Require Import Prelude Waiter Mutex Semaphore RWLock FairQueue FairRWLock WaitGroup Once.
From S2P Require Import Auth.
From S2P Require Import AuditLog.
From S2P Require Import Scheduler.
From S2P Require Import Metrics.
From S2P Require Import Access.
From S2P Require Import Server.
From S2P Require Import Registry.
From S2P Require Import ServerOps.

#[local] Open Scope Z_scope.

(** ** Histories of an object *)

Inductive objOp :=
| OpAcquire (m : ServerOps.mode) | OpRelease (m : ServerOps.mode)
| OpTake (n : Z) | OpGive (n : Z)
| OpCount (delta : Z)
| OpComplete | OpReopen.

(** [None]: the object does not permit the operation. *)
Definition objDo (op : objOp) (o : object) : option object :=
  match op, o with
  | OpAcquire m, _ => acquireObj m o
  | OpRelease m, _ => releaseObj m o
  | OpTake n, OSemaphore cap c => if n <=? c then Some (OSemaphore cap (c - n)) else None
  | OpGive n, OSemaphore cap c => if c + n <=? cap then Some (OSemaphore cap (c + n)) else None
  | OpCount d, OWaitGroup n => Some (OWaitGroup (add32 n d))
  | OpComplete, OOnce _ => Some (OOnce true)
  | OpReopen, OOnce _ => Some (OOnce false)
  | _, _ => None
  end.

(** What a goroutine can have of an object. *)
Inductive stake := Shared | Exclusive | Permits.

Definition stakeOf (m : ServerOps.mode) : stake := match m with MRead => Shared | MWrite => Exclusive end.

#[export] Instance stake_eq_dec : EqDecision stake.
Proof. solve_decision. Defined.

Definition effect (k : stake) (op : objOp) : Z :=
  match op with
  | OpAcquire m => if decide (stakeOf m = k) then 1 else 0
  | OpRelease m => if decide (stakeOf m = k) then -1 else 0
  | OpTake n => if decide (Permits = k) then n else 0
  | OpGive n => if decide (Permits = k) then - n else 0
  | _ => 0
  end.

(** Operations with the goroutines that perform them, the first one first. *)
Definition history := list (nat * objOp).

Definition objRun (h : history) (o : object) : option object :=
  foldl (fun o e => o ≫= objDo e.2) (Some o) h.

Definition taken (k : stake) (t : nat) (h : history) : Z :=
  sumf (fun e : nat * objOp => if decide (e.1 = t) then effect k e.2 else 0) h.

Lemma objRun_snoc h e o : objRun (h ++ [e]) o = objRun h o ≫= objDo e.2.
Proof. unfold objRun. by rewrite foldl_app. Qed.

Lemma taken_snoc k t h e : taken k t (h ++ [e]) = taken k t h + if decide (e.1 = t) then effect k e.2 else 0.
Proof. unfold taken. rewrite sumf_app. simpl. lia. Qed.

(** A machine implements an object: [absOf] is the object its state stands
    for, [stakes] what a goroutine has of it. *)
Definition implements {Sh Th Op} (M : machine Sh Th Op) (start : Prelude.config (Sh:=Sh) (Th:=Th)) (o : object)
    (absOf : Sh -> object) (stakes : stake -> Th -> Z) : Prop :=
  forall sh ths, reach M any_label start (sh, ths) ->
  exists h, objRun h o = Some (absOf sh) /\ forall t th k, ths !! t = Some th -> taken k t h = stakes k th.

(** The obligations: at every step the object stays as it is, or one of its
    operations is performed by the goroutine that moves. *)
Class ImplementsSteps {Sh Th Op} (M : machine Sh Th Op) (start : Prelude.config (Sh:=Sh) (Th:=Th)) (o : object)
    (absOf : Sh -> object) (stakes : stake -> Th -> Z) := {
  is_inv : Prelude.config (Sh:=Sh) (Th:=Th) -> Prop;
  is_reach : forall c, reach M any_label start c -> is_inv c;
  is_start : absOf start.1 = o /\ forall t th k, start.2 !! t = Some th -> stakes k th = 0;
  is_call : forall op now th th' k, call M op now th = Some th' -> stakes k th' = stakes k th;
  is_run : forall sh ths t th th' sh' o, is_inv (sh, ths) -> ths !! t = Some th -> run M o th sh = Some (th', sh') ->
    (absOf sh' = absOf sh /\ forall k, stakes k th' = stakes k th) \/
    exists op, objDo op (absOf sh) = Some (absOf sh') /\ forall k, stakes k th' = stakes k th + effect k op;
  is_cancel : forall x sh, absOf (cancel M x sh) = absOf sh
}.

Lemma stakes_insert {Th} (ths : list Th) t th th' (stakes : stake -> Th -> Z) h h' :
  (forall u y k, ths !! u = Some y -> taken k u h = stakes k y) -> ths !! t = Some th ->
  (forall u k, taken k u h' = taken k u h + if decide (t = u) then stakes k th' - stakes k th else 0) ->
  forall u y k, <[t:=th']> ths !! u = Some y -> taken k u h' = stakes k y.
Proof.
  intros HI Ht Hd u y k [(<- & <- & _)|[Hn Hu]]%list_lookup_insert_Some; rewrite Hd.
  - rewrite decide_True by done. rewrite (HI t th k Ht). lia.
  - rewrite decide_False by done. rewrite (HI u y k Hu). lia.
Qed.

Lemma implements_steps {Sh Th Op} (M : machine Sh Th Op) start o absOf stakes :
  ImplementsSteps M start o absOf stakes -> implements M start o absOf stakes.
Proof.
  intros C. enough (G : forall c, reach M any_label start c ->
    exists h, objRun h o = Some (absOf c.1) /\ forall t th k, c.2 !! t = Some th -> taken k t h = stakes k th)
    by (intros sh ths HR; exact (G _ HR)).
  induction 1 as [|l [s1 l1] c' HR IH _ He].
  - exists []. destruct is_start as [E H]. split; [by rewrite E|]. intros t th k Ht. by rewrite (H t th k Ht).
  - destruct IH as (h & Hh & Hs). simpl in Hh, Hs. pose proof (is_reach _ HR) as HI. destruct l as [t op now|t x|x]; simpl in He.
    + apply bind_Some in He as (th & Ht & He). apply bind_Some in He as (th' & Hc & [= <-]). exists h. split; [done|].
      apply (stakes_insert l1 t th th' stakes h h Hs Ht). intros u k. rewrite (is_call _ _ _ _ k Hc). case_decide; lia.
    + apply bind_Some in He as (th & Ht & He). apply bind_Some in He as ([th' s2] & Hc & [= <-]). simpl.
      destruct (is_run _ _ _ _ _ _ _ HI Ht Hc) as [[E H]|(op & E & H)].
      * exists h. split; [by rewrite E|]. apply (stakes_insert l1 t th th' stakes h h Hs Ht). intros u k. rewrite H. case_decide; lia.
      * exists (h ++ [(t, op)]). split; [by rewrite objRun_snoc, Hh|].
        apply (stakes_insert l1 t th th' stakes h _ Hs Ht). intros u k. rewrite taken_snoc. simpl. rewrite H. case_decide; lia.
    + injection He as <-. exists h. simpl. by rewrite is_cancel.
Qed.

(** ** Mutex *)

Definition mutexObject (w : world Mutex.Mutex) : object := OMutex (Mutex.IsLocked (prim w)).

Definition mutexStakes (k : stake) (th : Mutex.thread) : Z :=
  match k with Exclusive => Mutex.holds th | _ => 0 end.

Lemma mutex_call_holds op now th th' : Mutex.mcall op now th = Some th' -> Mutex.holds th' = Mutex.holds th.
Proof.
  intros Hc. unfold Mutex.mcall, Mutex.holds in *. destruct th as [f st h]; simpl in *. destruct f; try done.
  destruct op; simplify_eq; simpl; try lia. destruct (0 <? h); simplify_eq; simpl; lia.
Qed.

#[export] Instance mutexImplements n now :
  ImplementsSteps Mutex.mutex (Mutex.initial n now) (OMutex false) mutexObject mutexStakes.
Proof.
  refine {| is_inv := Mutex.Inv |}.
  - apply Mutex.reach_Inv.
  - split; [done|]. intros t th k [-> _]%lookup_replicate. by destruct k.
  - intros op nw th th' k Hc. pose proof (mutex_call_holds op nw th th' Hc). by destruct k.
  - intros w ths t th th' w' o [Hh Hs Hf _] Ht Hr. simpl in *.
    assert (Hle : Mutex.holds th <= Mutex.state (prim w)) by (rewrite Hh; eapply sumf_le_F; eauto using Mutex.holds_nonneg).
    destruct (Mutex.run_state _ _ _ _ _ (Forall_lookup_1 _ _ _ _ Hf Ht) Hs Hle Hr) as (E & Hs' & _).
    unfold mutexObject, Mutex.IsLocked. destruct Hs as [Hs|Hs], Hs' as [Hs'|Hs']; rewrite Hs, Hs' in *; simpl.
    + left. split; [done|]. intros []; simpl; lia.
    + right. exists (OpAcquire MWrite). split; [done|]. intros []; simpl; unfold effect; simpl; lia.
    + right. exists (OpRelease MWrite). split; [done|]. intros []; simpl; unfold effect; simpl; lia.
    + left. split; [done|]. intros []; simpl; lia.
  - done.
Defined.

(** ** Semaphore *)

Definition semaphoreObject (w : world Semaphore.Semaphore) : object :=
  OSemaphore (Semaphore.capacity (prim w)) (Semaphore.count (prim w)).

Definition semaphoreStakes (k : stake) (th : Semaphore.thread) : Z :=
  match k with Permits => Semaphore.out th | _ => 0 end.

Lemma semaphore_call_out op now th th' : Semaphore.scall true op now th = Some th' -> Semaphore.out th' = Semaphore.out th.
Proof.
  intros Hc. unfold Semaphore.scall, Semaphore.out in *. destruct th as [f st h]; simpl in *. destruct f; try done.
  destruct op; simplify_eq; simpl; try lia. destruct (n <=? h); simplify_eq; simpl; lia.
Qed.

Definition semaphoreImplements cap now s k : cap <= MaxInt32 -> Semaphore.NewSemaphore cap now = Some s ->
  ImplementsSteps (Semaphore.semaphore true) (Semaphore.initial k s) (OSemaphore cap cap) semaphoreObject semaphoreStakes.
Proof.
  intros Hc Hs. refine {| is_inv := Semaphore.Inv true cap |}.
  - intros c HR. apply (Semaphore.sem_reach_Inv true cap now s k any_label); try done. intros [? [] ?| |] _; by simpl; try left.
  - unfold Semaphore.NewSemaphore in Hs. destruct (cap <=? 0); simplify_eq. split; [done|].
    intros t th j [-> _]%lookup_replicate. by destruct j.
  - intros op nw th th' j Hx. pose proof (semaphore_call_out op nw th th' Hx). by destruct j.
  - intros w ths t th th' w' o [[Ec Hp] Hn Hsum Hf _] Ht Hr. simpl in *.
    assert (Hle : true = true -> Semaphore.out th <= cap - Semaphore.count (prim w)).
    { intros _. pose proof (sumf_le_F Semaphore.out _ (Semaphore.out_nonneg cap) _ _ _ Hf Ht). lia. }
    destruct (Semaphore.sem_run_state true cap o th w th' w' (Forall_lookup_1 _ _ _ _ Hf Ht) Ec Hp Hn Hle Hr) as (E1 & E2 & E3 & _).
    unfold semaphoreObject. rewrite Ec, E1.
    destruct (Z.lt_trichotomy (Semaphore.count (prim w')) (Semaphore.count (prim w))) as [H|[H|H]]; [right|left|right].
    + exists (OpTake (Semaphore.count (prim w) - Semaphore.count (prim w'))). split.
      * simpl. rewrite (proj2 (Z.leb_le _ _)) by lia. repeat f_equal. lia.
      * intros []; simpl; unfold effect; simpl; lia.
    + split; [by rewrite H|]. intros []; simpl; lia.
    + exists (OpGive (Semaphore.count (prim w') - Semaphore.count (prim w))). split.
      * simpl. rewrite (proj2 (Z.leb_le _ _)) by lia. repeat f_equal. lia.
      * intros []; simpl; unfold effect; simpl; lia.
  - done.
Defined.

(** ** RWLock and FairRWLock *)

(** The object a state word stands for. *)
Definition wordObject (mk : Z -> bool -> object) (st : Z) : object :=
  if RWLock.writerActive st then mk 0 true else mk st false.

(** A lock is taken or given back by one goroutine at a time. *)
Definition oneMove (R W R' W' : Z) : Prop :=
  (R' = R /\ W' = W) \/ (W' = W /\ (R' = R + 1 \/ R' = R - 1)) \/ (R' = R /\ (W' = W + 1 \/ W' = W - 1)).

Definition rwMoves (mk : Z -> bool -> object) (R W st R' W' st' : Z) : Prop :=
  (wordObject mk st' = wordObject mk st /\ R' = R /\ W' = W) \/
  exists op, objDo op (wordObject mk st) = Some (wordObject mk st') /\
    R' = R + effect Shared op /\ W' = W + effect Exclusive op /\ effect Permits op = 0.

Lemma word_moves mk st R W st' R' W' :
  mk = ORWLock \/ mk = OFairRWLock ->
  RWLock.stateOk st R W -> RWLock.stateOk st' R' W' -> oneMove R W R' W' -> rwMoves mk R W st R' W' st'.
Proof.
  intros Hmk H H' Hd. unfold rwMoves, wordObject.
  assert (A : forall z w, acquireObj MRead (mk z false) = Some (mk (z + 1) false) /\
    (0 < z -> releaseObj MRead (mk z w) = Some (mk (z - 1) w)) /\
    acquireObj MWrite (mk 0 false) = Some (mk 0 true) /\ releaseObj MWrite (mk z true) = Some (mk z false)).
  { intros z w. destruct Hmk as [-> | ->]; simpl; (split_and!; try done); intros Hz; by rewrite (proj2 (Z.ltb_lt 0 z)). }
  destruct H as [(-> & -> & Hr)|(-> & -> & ->)], H' as [(-> & -> & Hr')|(-> & -> & ->)];
    rewrite ?RWLock.writerActive_writer, ?RWLock.writerActive_readable by done; unfold oneMove, RWLock.readable in *.
  - destruct Hd as [[-> _]|[(_ & [-> | ->])|Hd]]; [by left| | |lia]; right.
    + exists (OpAcquire MRead). cbn [objDo]. destruct (A R false) as (-> & _). unfold effect. simpl. split_and!; (done || lia).
    + exists (OpRelease MRead). cbn [objDo]. destruct (A R false) as (_ & E & _). rewrite E by lia. unfold effect. simpl. split_and!; (done || lia).
  - assert (R = 0) as -> by lia. right. exists (OpAcquire MWrite). cbn [objDo]. destruct (A 0 false) as (_ & _ & -> & _).
    unfold effect. simpl. split_and!; (done || lia).
  - assert (R' = 0) as -> by lia. right. exists (OpRelease MWrite). cbn [objDo]. destruct (A 0 true) as (_ & _ & _ & ->).
    unfold effect. simpl. split_and!; (done || lia).
  - by left.
Qed.

Definition rwStakes (r w : Z) (k : stake) : Z := match k with Shared => r | Exclusive => w | Permits => 0 end.

(** From the state words to the stakes of the goroutine that moved. *)
Lemma rwMoves_stakes mk st st' R W r w r' w' :
  rwMoves mk R W st (R - r + r') (W - w + w') st' ->
  (wordObject mk st' = wordObject mk st /\ forall k, rwStakes r' w' k = rwStakes r w k) \/
  exists op, objDo op (wordObject mk st) = Some (wordObject mk st') /\
    forall k, rwStakes r' w' k = rwStakes r w k + effect k op.
Proof.
  intros [(E & H1 & H2)|(op & E & H1 & H2 & H3)].
  - left. split; [done|]. intros []; simpl; lia.
  - right. exists op. split; [done|]. intros []; simpl; lia.
Qed.

Definition rwlockObject (w : world RWLock.RWLock) : object := wordObject ORWLock (RWLock.state (prim w)).
Definition rwlockStakes (k : stake) (th : RWLock.thread) : Z := rwStakes (RWLock.rholds th) (RWLock.wholds th) k.

Definition fairObject (w : FairRWLock.fworld) : object := wordObject OFairRWLock (FairRWLock.state (FairRWLock.lk w)).
Definition fairStakes (k : stake) (th : FairRWLock.thread) : Z := rwStakes (FairRWLock.rholds th) (FairRWLock.wholds th) k.

Lemma rwlock_call_holds op now th th' :
  RWLock.rwcall op now th = Some th' -> RWLock.rholds th' = RWLock.rholds th /\ RWLock.wholds th' = RWLock.wholds th.
Proof.
  intros Hc. unfold RWLock.rwcall, RWLock.rholds, RWLock.wholds in *. destruct th as [f st rh wh]; simpl in *. destruct f; try done.
  destruct op; simplify_eq; simpl; try lia; destruct (0 <? _); simplify_eq; simpl; lia.
Qed.

Lemma fair_call_holds op now th th' :
  FairRWLock.fcall op now th = Some th' ->
  FairRWLock.rholds th' = FairRWLock.rholds th /\ FairRWLock.wholds th' = FairRWLock.wholds th.
Proof.
  intros Hc. unfold FairRWLock.fcall, FairRWLock.rholds, FairRWLock.wholds in *. destruct th as [f st rh wh]; simpl in *.
  destruct f; try done. destruct op; simplify_eq; simpl; try lia; destruct (0 <? _); simplify_eq; simpl; lia.
Qed.

(** The program points at which a goroutine takes or gives back the lock. *)
Lemma rwlock_one_move o th w th' w' :
  RWLock.rwrun o th w = Some (th', w') ->
  oneMove (RWLock.rholds th) (RWLock.wholds th) (RWLock.rholds th') (RWLock.wholds th').
Proof.
  intros Hr. destruct th as [f st rh wh]. unfold RWLock.rwrun, RWLock.rholds, RWLock.wholds, oneMove in *. simpl in *.
  destruct f as [|p|c p|p|p|c p|p|p|p|]; [done| | | | | | | | |done];
    destruct p; simpl in Hr; inv_step Hr; try done; simpl in *; unfold RWLock.finished, RWLock.liftWake; simpl;
    repeat match goal with |- context [match ?b with _ => _ end] => is_var b; destruct b; simpl in * end; lia.
Qed.

Lemma fair_one_move o th w th' w' :
  FairRWLock.frun o th w = Some (th', w') ->
  oneMove (FairRWLock.rholds th) (FairRWLock.wholds th) (FairRWLock.rholds th') (FairRWLock.wholds th').
Proof.
  intros Hr. destruct th as [f st rh wh].
  unfold FairRWLock.frun, FairRWLock.rholds, FairRWLock.wholds, FairRWLock.rHolds, FairRWLock.wHolds, oneMove in *. simpl in *.
  destruct f as [|p|c p|p|p|c p|p|p|p|]; [done| | | | | | | | |done];
    destruct p; simpl in Hr; inv_step Hr; try done; simpl in *; unfold FairRWLock.finished, FairRWLock.liftWake; simpl;
    repeat match goal with |- context [match ?b with _ => _ end] => is_var b; destruct b; simpl in * end; lia.
Qed.

Lemma oneMove_shift R W r w r' w' : oneMove r w r' w' -> oneMove R W (R - r + r') (W - w + w').
Proof. unfold oneMove. lia. Qed.

#[export] Instance rwlockImplements n now :
  ImplementsSteps RWLock.rwlock (RWLock.initial n now) (ORWLock 0 false) rwlockObject rwlockStakes.
Proof.
  refine {| is_inv := RWLock.Inv |}.
  - apply RWLock.rw_reach_Inv.
  - split; [done|]. intros t th k [-> _]%lookup_replicate. by destruct k.
  - intros op nw th th' k Hc. destruct (rwlock_call_holds op nw th th' Hc). by destruct k.
  - intros w ths t th th' w' o [Hs Hf _] Ht Hr. simpl in *.
    pose proof (sumf_le_F RWLock.rholds _ RWLock.rholds_nonneg _ _ _ Hf Ht) as HR.
    pose proof (sumf_le_F RWLock.wholds _ RWLock.wholds_nonneg _ _ _ Hf Ht) as HW.
    destruct (RWLock.rw_run_state _ _ _ _ _ _ _ (Forall_lookup_1 _ _ _ _ Hf Ht) Hs HR HW Hr) as (E & _).
    eapply rwMoves_stakes, word_moves; [by left|exact Hs|exact E|]. by eapply oneMove_shift, rwlock_one_move.
  - done.
Defined.

#[export] Instance fairImplements n now :
  ImplementsSteps FairRWLock.fairrwlock (FairRWLock.initial n now) (OFairRWLock 0 false) fairObject fairStakes.
Proof.
  refine {| is_inv := FairRWLock.Inv |}.
  - apply FairRWLock.fair_reach_Inv.
  - split; [done|]. intros t th k [-> _]%lookup_replicate. by destruct k.
  - intros op nw th th' k Hc. destruct (fair_call_holds op nw th th' Hc). by destruct k.
  - intros w ths t th th' w' o [Hs Hn Hf] Ht Hr. simpl in *.
    pose proof (sumf_le_F FairRWLock.rholds _ FairRWLock.fair_rholds_nonneg _ _ _ Hf Ht) as HR.
    pose proof (sumf_le_F FairRWLock.wholds _ FairRWLock.fair_wholds_nonneg _ _ _ Hf Ht) as HW.
    destruct (FairRWLock.fair_run_state _ _ _ _ _ _ _ _ (Forall_lookup_1 _ _ _ _ Hf Ht) Hs HR HW Hn Hr) as (E & _).
    eapply rwMoves_stakes, word_moves; [by right|exact Hs|exact E|]. by eapply oneMove_shift, fair_one_move.
  - done.
Defined.

(** ** WaitGroup and Once *)

Definition waitgroupObject (w : world WaitGroup.WaitGroup) : object := OWaitGroup (WaitGroup.GetCount (prim w)).
Definition onceObject (w : Once.oworld) : object := OOnce (Once.Done (Once.once w)).

Lemma waitgroup_wake_counter k w r w' :
  WaitGroup.wakeAll_step k w = (r, w') -> WaitGroup.counter (prim w') = WaitGroup.counter (prim w).
Proof.
  intros H. destruct k as [d|x]; simpl in H; [|by simplify_eq].
  destruct (Dequeue_step _ _ _) as [[r1 q1] s1]. destruct r1 as [|[|]|]; by simplify_eq.
Qed.

#[export] Instance waitgroupImplements n now :
  ImplementsSteps WaitGroup.waitgroup (WaitGroup.initial n now) (OWaitGroup 0) waitgroupObject (fun _ _ => 0).
Proof.
  refine {| is_inv := fun _ => True |}; try done.
  intros w ths t f f' w' o _ Ht Hr. unfold waitgroupObject, WaitGroup.GetCount. simpl in Hr.
  assert (K : WaitGroup.counter (prim w') = WaitGroup.counter (prim w) \/
    exists d, WaitGroup.counter (prim w') = add32 (WaitGroup.counter (prim w)) d).
  { unfold WaitGroup.grun in Hr. destruct f as [|d p|p|p|c p|]; [done| | | | |done];
      destruct p; simpl in Hr; inv_step Hr; simpl; eauto using waitgroup_wake_counter. }
  destruct K as [-> |[d ->]]; [by left|right]. exists (OpCount d). split; [done|]. intros []; done.
Defined.

#[export] Instance onceImplements n now :
  ImplementsSteps Once.onceMachine (Once.initial n now) (OOnce false) onceObject (fun _ _ => 0).
Proof.
  refine {| is_inv := fun _ => True |}; try done.
  intros w ths t th th' w' o _ Ht Hr. unfold onceObject, Once.Done. simpl in Hr.
  assert (K : Once.done (Once.once w') = Once.done (Once.once w) \/ Once.done (Once.once w') = 1 \/ Once.done (Once.once w') = 0).
  { unfold Once.orun in Hr. destruct th as [|p|b p|]; [done| | |done]; destruct p; simpl in Hr; inv_step Hr; simpl; auto;
      left; unfold Once.lockMu in *; case_match; by simplify_eq. }
  destruct K as [-> |[-> | ->]]; [by left|right; exists OpComplete|right; exists OpReopen]; (split; [done|]); by intros [].
Defined.

(** ** The server *)

(** At most one object changes, by one of its operations. *)
Definition objectMoves (s s' : Server) : Prop :=
  objects s' = objects s \/
  exists a o o' op, objects s !! a = Some o /\ objDo op o = Some o' /\ objects s' = <[a:=o']> (objects s).

Lemma moves_set a o o' op s s' :
  objects s !! a = Some o -> objDo op o = Some o' -> objects s' = <[a:=o']> (objects s) -> objectMoves s s'.
Proof. intros. right. by exists a, o, o', op. Qed.

Lemma moves_mild s s' : mild s s' -> objectMoves s s'.
Proof. intros [E _]. by left. Qed.

Lemma dispatch_moves c ptrs s : objectMoves s (dispatch c ptrs s).2.
Proof.
  unfold dispatch, dispatchRest, withObj, errOp, sendError.
  repeat (case_decide || case_match; simpl; try (by left); try (apply moves_mild, sendToClient_mild)).
  - simplify_eq. eapply (moves_set _ _ _ (OpGive 1)); [done| |done]. simpl. bool_facts. by rewrite (proj2 (Z.leb_le _ _)) by lia.
  - by eapply (moves_set _ _ _ (OpCount _)).
  - by eapply (moves_set _ _ _ (OpCount (wrap32 _))).
  - by eapply (moves_set _ _ _ (OpCount (-1))).
  - by eapply (moves_set _ _ _ OpComplete).
Qed.

Lemma blockingCall_moves o c wk s e s' : blockingCall o c wk s = Some (e, s') -> objectMoves s s'.
Proof.
  intros H. unfold blockingCall in H. destruct (alt o); [repeat case_match; simplify_eq; by left|].
  destruct wk as [m a|a|a|a]; simpl in *.
  - apply bind_Some in H as (y & Hy & H). apply bind_Some in H as (x & Hx & H). simplify_eq.
    by eapply (moves_set _ _ _ (OpAcquire m)).
  - repeat case_match; simplify_eq. bool_facts. eapply (moves_set _ _ _ (OpTake 1)); [done| |done].
    simpl. by rewrite (proj2 (Z.leb_le _ _)) by lia.
  - simplify_eq. by left.
  - repeat case_match; simplify_eq. by left.
Qed.

Lemma undo_moves wk s s' : undo wk s = Some s' -> objectMoves s s'.
Proof.
  intros H. unfold undo in H. destruct wk as [m a|a|a|a]; simpl in *; simplify_eq; try by left.
  - apply bind_Some in H as (y & Hy & H). apply bind_Some in H as (x & Hx & H). simplify_eq.
    by eapply (moves_set _ _ _ (OpRelease m)).
  - repeat case_match; simplify_eq; [by left|]. bool_facts. eapply (moves_set _ _ _ (OpGive 1)); [done| |done].
    simpl. by rewrite (proj2 (Z.leb_le _ _)) by lia.
Qed.

Section Ops.
Context (showDuration : Z -> string).

Lemma op_step_moves o th w th' w' : op_step showDuration o th w = Some (th', w') -> objectMoves (osrv w) (osrv w').
Proof.
  intros Hs. destruct th as [c p]. unfold op_step in Hs.
  destruct p as [| | | | |ptrs|ptrs|ptrs|a|wk|wk|wk t e|wk|wk|wk|e| | |text|text]; cbn [opt oc] in Hs; simplify_eq; try by left.
  - apply bind_Some in Hs as (x & _ & Hs). simplify_eq. by left.
  - case_match; simplify_eq; [by left|]. apply moves_mild, sendToClient_mild.
  - apply bind_Some in Hs as (x & _ & Hs). simplify_eq. by left.
  - apply bind_Some in Hs as (x & _ & Hs). simplify_eq. by left.
  - pose proof (dispatch_moves c ptrs (osrv w)) as H. destruct (dispatch c ptrs (osrv w)) as [p s']. by simplify_eq.
  - apply bind_Some in Hs as (x & Hx & Hs). destruct (releaseObj MWrite x) as [y|] eqn:Ey; simplify_eq; [|by left].
    by eapply (moves_set _ _ _ (OpRelease MWrite)).
  - apply bind_Some in Hs as ([e s'] & Hb & Hs). simplify_eq. by eapply blockingCall_moves.
  - destruct wk, e; simplify_eq; by left.
  - apply bind_Some in Hs as (x & _ & Hs). simplify_eq. by left.
  - destruct (undo wk (osrv w)) as [s'|] eqn:E; simplify_eq; [by eapply undo_moves|by left].
  - apply bind_Some in Hs as (w1 & Hr & Hs). simplify_eq. left. unfold record in Hr.
    destruct wk as [m a|a|a|a]; simpl in Hr; simplify_eq; try done.
    + apply bind_Some in Hr as (y & _ & Hr). simplify_eq. by destruct m.
    + repeat case_match; by simplify_eq.
  - apply moves_mild, sendBlockingErr_mild.
  - apply moves_mild, reportSuccess_mild.
  - apply moves_mild, sendToClient_mild.
Qed.

Lemma hold_step_moves o g w g' w' : hold_step o g w = Some (g', w') -> objectMoves (osrv w) (osrv w').
Proof.
  intros Hs. destruct g as [|h|h|h]; simpl in Hs.
  - apply bind_Some in Hs as (h & _ & Hs). simplify_eq. by left.
  - case_match; simplify_eq. by left.
  - apply bind_Some in Hs as (y & Hy & Hs). destruct (releaseObj (hmode h) y) as [x|] eqn:E; simplify_eq; [|by left].
    by eapply (moves_set _ _ _ (OpRelease (hmode h))).
  - apply bind_Some in Hs as (y & _ & Hs). simplify_eq. by left.
Qed.
End Ops.

(** ** Histories of the objects of the server *)

(** What the constructors return. *)
Definition newObject (o : object) : Prop :=
  match o with
  | ORWLock r w | OFairRWLock r w => r = 0 /\ w = false
  | OSemaphore cap c => c = cap
  | OMutex w => w = false
  | OWaitGroup n => n = 0
  | OOnce d => d = false
  | _ => True
  end.

Definition newPoint (p : hpc) : Prop := match p with HCreate _ _ _ o => newObject o | _ => True end.

Section Connections.
Context (V : Z -> string -> string -> jwtError + Claims) {Raw : Type} (codec : Codec Raw).
Context (statsOf : object -> Z) (key : PrimitiveInfo -> string).

Lemma new_validated conn id name s x : newPoint x.1 -> newPoint (validated conn id name s x).1.
Proof. intros. unfold validated. repeat case_decide; done. Qed.

Lemma new_create conn id name o s : newObject o -> newPoint (create conn id name o s).1.
Proof. intros. unfold create. by case_match. Qed.

Lemma new_basic conn o raw s : newObject o -> newPoint (createBasic codec o conn raw s).1.
Proof.
  intros. unfold createBasic. destruct (decodeBasic codec raw) as [[id name]|]; [|done].
  by apply new_validated, new_create.
Qed.

Lemma new_receive now conn ty raw s : newPoint (receive codec now conn ty raw s).1.
Proof.
  unfold receive. destruct (rateLimited now conn ty s) as [[e|] s1]; [done|]. unfold handleMessage.
  destruct (authorizeMessage _ ty); [done|]. repeat (case_decide; [try (by apply new_basic)|]); try done.
  - unfold handleCreateSemaphore. destruct (decodeCapacity codec raw) as [[[id name] n]|]; [|done].
    apply new_validated. case_match; [done|by apply new_create].
  - unfold handleCreateBarrier. destruct (decodeParties codec raw) as [[[id name] n]|]; [|done].
    apply new_validated. case_match; [done|by apply new_create].
  - unfold handleDeletePrimitive. by repeat case_match.
  - unfold startOp. by case_match.
Qed.

Definition newSession (th : session (Raw:=Raw)) : Prop :=
  match spoint th with SHandle p => newPoint p | _ => True end.

(** A handler adds at most a new object. *)
Definition grows (s s' : Server) : Prop :=
  objects s' = objects s \/ exists o, newObject o /\ objects s' = objects s ++ [o].

Lemma handler_grows now conn p s p' s' :
  handler_step statsOf key now conn p s = Some (p', s') -> newPoint p -> grows s s' /\ newPoint p'.
Proof.
  intros Hs Hn. destruct (reads p) eqn:Hr.
  { destruct (handler_reads statsOf key now conn p s p' s' Hr Hs) as [[] Hp']. split; [by left|by destruct p']. }
  assert (F : forall text, Some (fail conn text s) = Some (p', s') -> grows s s' /\ newPoint p').
  { intros text [= <- <-]. split; [left; by destruct (sendToClient_mild conn (mkOut "error" (PText text)) s)|done]. }
  destruct p as [cp id name o|id name k a|id name k| |cp id|cp id|id|id| | | | | | |]; try done; simpl in Hs.
  - unfold insertPrim in Hs. destruct (heap s !! cp) as [c|]; simpl in Hs; [|by eapply F].
    destruct (primExists c id); [by eapply F|]. simplify_eq. split; [right; by eexists|done].
  - apply bind_Some in Hs as (o & _ & Hs). simplify_eq. by split; [left|].
  - simplify_eq. split; [by left|]. by case_match.
  - apply bind_Some in Hs as (c & Hc & Hs). destruct (primExists c id); [simplify_eq; by split; [left|]|by eapply F].
  - apply bind_Some in Hs as (c & Hc & Hs). simplify_eq. split; [left|done]. by case_match.
  - simplify_eq. by split; [left|].
  - simplify_eq. by split; [left|].
Qed.

Lemma session_grows o th s th' s' :
  session_step V codec statsOf key o th s = Some (th', s') -> newSession th -> grows s s' /\ newSession th'.
Proof.
  intros Hs Hn. unfold session_step in Hs. destruct th as [cn p ib ar]. unfold newSession in *. cbn [spoint inbox sconn] in Hs, Hn.
  assert (M : forall q, mild s s' -> th' = mkSession cn q None ar -> match q with SHandle p => newPoint p | _ => True end ->
    grows s s' /\ match spoint th' with SHandle p => newPoint p | _ => True end) by (intros q [E _] -> Hq; split; [by left|done]).
  assert (A : forall q, match afterHandler q with SHandle p => newPoint p | _ => True end <-> newPoint q) by (intros []; by split).
  destruct p as [|cl q|cl ns|cl ns|cl ns|cl ns p| |p|p|].
  - destruct ib as [[h q| |]|]; try done. pose proof (authenticate_mild V (clk o) h s).
    destruct (authenticate V (clk o) h s) as [[r|c] s1]; simplify_eq/=; by eapply M.
  - repeat case_match; simplify_eq; by eapply M.
  - simplify_eq. case_match; by eapply M.
  - simplify_eq. case_match; by eapply M.
  - simplify_eq. by eapply M.
  - pose proof (register_mild (clk o) cn cl ns p s).
    destruct (registerClient_step (clk o) cn cl ns p s) as [[p'|] s1]; simplify_eq/=; by eapply M.
  - destruct ib as [[|ty raw|]|]; simplify_eq; [|by eapply M].
    pose proof (new_receive (clk o) cn ty raw s) as Hp. pose proof (receive_same codec (clk o) cn ty raw s) as [].
    destruct (receive codec (clk o) cn ty raw s) as [q s1]. simplify_eq. split; [by left|]. simpl. by apply A.
  - apply bind_Some in Hs as ([p' s1] & Hh & E). simplify_eq.
    destruct (handler_grows _ _ _ _ _ _ Hh Hn). split; [done|]. simpl. by apply A.
  - pose proof (unregister_mild (clk o) cn p s).
    destruct (unregisterClient_step (clk o) cn p s) as [[p'|] s1]; simplify_eq/=; by eapply M.
  - done.
Qed.
End Connections.

(** Every object has a history that starts with a new one. *)
Definition Histories (s : Server) : Prop :=
  forall a o, objects s !! a = Some o -> exists o0 h, newObject o0 /\ objRun h o0 = Some o.

Lemma Histories_grows s s' : grows s s' -> Histories s -> Histories s'.
Proof.
  intros [E|(n & Hn & E)] H a o; rewrite E; [apply H|].
  intros [Ho|[_ [_ <-]%list_lookup_singleton_Some]]%lookup_app_Some; [by eapply H|]. by exists n, [].
Qed.

Lemma Histories_moves s s' : objectMoves s s' -> Histories s -> Histories s'.
Proof.
  intros [E|(b & x & x' & op & Hb & Ho & E)] H a o; rewrite E; [apply H|].
  intros [(-> & <- & _)|[_ Ha]]%list_lookup_insert_Some; [|by eapply H].
  destruct (H _ _ Hb) as (o0 & h & Hn & Hh). exists o0, (h ++ [(0%nat, op)]). split; [done|]. by rewrite objRun_snoc, Hh.
Qed.

(** ** Theorems *)


Section Server.
Context (showDuration : Z -> string).
Context (V : Z -> string -> string -> jwtError + Claims) {Raw : Type} (codec : Codec Raw).
Context (statsOf : object -> Z) (key : PrimitiveInfo -> string).

Definition newThread (th : othread (Raw:=Raw)) : Prop := match th with TConn x => newSession x | _ => True end.

Lemma orun_histories o th w th' w' :
  orun showDuration V codec statsOf key o th w = Some (th', w') -> newThread th -> Histories (osrv w) ->
  Histories (osrv w') /\ newThread th'.
Proof.
  intros Hs Hn HH. unfold orun in Hs. destruct (crashed w); [done|]. destruct th as [x|x|g].
  - apply bind_Some in Hs as ([x' s'] & Hx & Hs). simplify_eq.
    destruct (session_grows V codec statsOf key o x _ x' s' Hx Hn). split; [|done]. by apply (Histories_grows (osrv w)).
  - apply bind_Some in Hs as ([x' w1] & Hx & Hs). simplify_eq. split; [|done].
    apply (Histories_moves (osrv w)); [by eapply op_step_moves|done].
  - apply bind_Some in Hs as ([g' w1] & Hx & Hs). simplify_eq. split; [|done].
    apply (Histories_moves (osrv w)); [by eapply hold_step_moves|done].
Qed.

(** The other side: whatever connections, operations and hold goroutines do,
    every object of the server is one that a sequence of permitted object
    operations makes of a new object. *)
Theorem server_objects_have_histories now cf r files s0 files' m k j w ths a o :
  newServer now cf r files = Some (s0, files') ->
  reach (opsMachine showDuration V codec statsOf key) any_label (opsInitial s0 m k j) (w, ths) ->
  objects (osrv w) !! a = Some o -> exists o0 h, newObject o0 /\ objRun h o0 = Some o.
Proof.
  intros HN HR. revert a o. enough (G : Histories (osrv w) /\ Forall newThread ths) by apply G.
  apply (reach_invariant (opsMachine showDuration V codec statsOf key) any_label
    (fun c => Histories (osrv c.1) /\ Forall newThread c.2) (opsInitial s0 m k j)) with (c := (w, ths)); [| | | |done].
  - split.
    + assert (E : objects s0 = []) by (unfold newServer in HN; repeat case_match; by simplify_eq).
      intros a o. simpl. by rewrite E.
    + simpl. rewrite !Forall_app, Forall_fmap. split; [|by split; apply Forall_replicate].
      apply Forall_lookup. intros i x Hi. simpl. by rewrite (sessions_lookup m i x Hi).
  - intros sh l t th th' op nw [HH HF] _ Ht Hc. split; [done|]. apply Forall_insert; [done|].
    destruct th as [x| |]; try done. simpl in Hc. destruct (scall op nw x) as [x'|] eqn:Ex; simplify_eq/=.
    pose proof (Forall_lookup_1 _ _ _ _ HF Ht) as Hx. unfold scall in Ex. repeat case_match; by simplify_eq.
  - intros sh l t th th' sh' o [HH HF] _ Ht Hs. simpl in *.
    destruct (orun_histories o th sh th' sh' Hs (Forall_lookup_1 _ _ _ _ HF Ht) HH). split; [done|by apply Forall_insert].
  - done.
Qed.
End Server.

(** ** Concrete executions *)

(** Two goroutines at a semaphore with two permits: its history. *)
Definition takenRun : list (label Semaphore.sop) := [Call 0%nat (Semaphore.OpAcquire 2) 0] ++ runs 0 4.

Definition takenEnd : Prelude.config (Sh:=world Semaphore.Semaphore) (Th:=Semaphore.thread) :=
  after (Semaphore.semaphore true) takenRun (Semaphore.initial 2 Semaphore.sem2).


(** The history of the mutex that lockRun (ServerOps.v) locks. *)
Example lock_history : exists w ths h,
  reach sampleOps any_label lockStart (w, ths) /\
  objects (osrv w) = [OMutex true] /\ objRun h (OMutex false) = Some (OMutex true).
Proof.
  exists lockEnd.1, lockEnd.2, [(1%nat, OpAcquire MWrite)]. split; [|by split; by_eval].
  unfold lockEnd. apply after_reach; [apply Forall_any|by_eval].
Qed.
