(* ===== verification/Reports.v ===== *)
(** * Reports of statistics (the String methods of internal/primitives)

    The statistics of a primitive are printed as a title and one line per
    counter.  The text is built by [Sprintf]; the verbs used are %d and %s,
    %v for booleans and durations and %.1f for a percentage, all defined
    here: a duration as [time.Duration.String] prints it, a percentage with
    the arithmetic of float64 ([SpecFloat]) and the decimal that is nearest
    to the result.  A report can be read back: no counter runs into its
    neighbour and no two different statistics print the same counters. *)

From Stdlib Require Import ZArith Lia Ascii SpecFloat.
From stdpp Require Import base list gmap strings pretty.
From S2P Require Import Prelude Waiter Mutex Semaphore RWLock FairQueue FairRWLock Barrier CondVar.
From S2P Require Import Access.
From S2P Require Import Http.

#[local] Open Scope Z_scope.

(** ** Formats *)

Definition showBool (b : bool) : string := if b then "true" else "false".

(** The last [prec] digits of [v] as a fraction, without zeros at the end
    and without the point when nothing is left; [printed] says that a digit
    has been printed. *)
Fixpoint fmtFrac (prec : nat) (v : Z) (printed : bool) (acc : string) : string :=
  match prec with
  | O => if printed then "." +:+ acc else acc
  | S prec =>
      let digit := v mod 10 in
      let printed := printed || negb (digit =? 0) in
      fmtFrac prec (v / 10) printed (if printed then pretty digit +:+ acc else acc)
  end.

Definition micro : string := String (ascii_of_nat 194) (String (ascii_of_nat 181) "").

(** [time.Duration.String]: units of a second or less, or hours, minutes and
    seconds. *)
Definition Duration_String (d : Z) : string :=
  let u := Z.abs d in
  let text :=
    if u =? 0 then "0s"
    else if u <? 1000 then pretty u +:+ "ns"
    else if u <? 1000000 then pretty (u / 1000) +:+ fmtFrac 3 u false (micro +:+ "s")
    else if u <? 1000000000 then pretty (u / 1000000) +:+ fmtFrac 6 u false "ms"
    else
      let s := u / 1000000000 in
      let seconds := pretty (s mod 60) +:+ fmtFrac 9 u false "s" in
      let m := s / 60 in
      if m =? 0 then seconds
      else
        let minutes := pretty (m mod 60) +:+ "m" +:+ seconds in
        let h := m / 60 in
        if h =? 0 then minutes else pretty h +:+ "h" +:+ minutes in
  if d <? 0 then "-" +:+ text else text.

(** float64 *)
Definition float64 (z : Z) : spec_float := binary_normalize 53 1024 z 0 false.

(** Ten times [m 2^e], rounded to the nearest integer, ties to even. *)
Definition tenths (m e : Z) : Z :=
  if 0 <=? e then 10 * m * 2 ^ e
  else
    let q := 10 * m / 2 ^ (- e) in
    let r := (10 * m) mod 2 ^ (- e) in
    if (2 * r <? 2 ^ (- e)) || ((2 * r =? 2 ^ (- e)) && Z.even q) then q else q + 1.

(** %.1f *)
Definition formatF1 (x : spec_float) : string :=
  let sign (s : bool) := if s then "-" else "" in
  match x with
  | S754_nan => "NaN"
  | S754_infinity s => (if s then "-" else "+") +:+ "Inf"
  | S754_zero s => sign s +:+ "0.0"
  | S754_finite s m e =>
      let t := tenths (Z.pos m) e in sign s +:+ pretty (t / 10) +:+ "." +:+ pretty (t mod 10)
  end.

(** [100.0*float64(a)/float64(b)] *)
Definition percentOf (a b : Z) : spec_float :=
  SFdiv 53 1024 (SFmul 53 1024 (float64 100) (float64 a)) (float64 b).

Definition showPercent (x : spec_float) : string := formatF1 x +:+ "%".

Example durations :
  Duration_String <$> [0; 999; 1500; 2000000; 1500000000; 60000000000; 5430000000000; -1000000000] =
  ["0s"; "999ns"; "1.5" +:+ micro +:+ "s"; "2ms"; "1.5s"; "1m0s"; "1h30m30s"; "-1s"].
Proof. vm_compute. reflexivity. Qed.

Example percents :
  showPercent <$> [percentOf 1 3; percentOf 2 3; percentOf 1 16; percentOf 5 5; percentOf 0 7; percentOf 0 0; percentOf 1 0] =
  ["33.3%"; "66.7%"; "6.2%"; "100.0%"; "0.0%"; "NaN%"; "+Inf%"].
Proof. vm_compute. reflexivity. Qed.

(** ** The methods *)

(** A line of a report, and the text. *)
Definition line (f : string * string) : string := "  " +:+ f.1 +:+ ": " +:+ f.2.

Definition nl : string := String newline "".

Definition report (title : string) (fields : list (string * string)) : string :=
  String.concat nl ((title +:+ ":") :: (line <$> fields)).

(** The average wait, 0 when nobody has waited. *)
Definition average (total waits : Z) : Z := if 0 <? waits then Z.quot total waits else 0.

Definition CondVarStats_fields (s : CondVar.CondVarStats) : list (string * string) :=
  [("Waits", pretty (CondVar.Waits s)); ("Signals", pretty (CondVar.Signals s)); ("Broadcasts", pretty (CondVar.Broadcasts s));
   ("Avg Wait Time", Duration_String (average (CondVar.TotalWaitTimeNs s) (CondVar.Waits s)));
   ("Waiters Queued", pretty (CondVar.WaitersQueued s)); ("Age", Duration_String (CondVar.Age s))].
Definition CondVarStats_String (s : CondVar.CondVarStats) : string := report "CondVar Stats" (CondVarStats_fields s).

Definition MutexStats_fields (s : Mutex.MutexStats) : list (string * string) :=
  [("Locks", pretty (Mutex.Locks s)); ("Unlocks", pretty (Mutex.Unlocks s)); ("Waits", pretty (Mutex.Waits s));
   ("Avg Wait Time", Duration_String (average (Mutex.TotalWaitTimeNs s) (Mutex.Waits s)));
   ("Is Locked", showBool (Mutex.IsLocked_ s)); ("Waiters Queued", pretty (Mutex.WaitersQueued s));
   ("Age", Duration_String (Mutex.Age s))].
Definition MutexStats_String (s : Mutex.MutexStats) : string := report "Mutex Stats" (MutexStats_fields s).

Definition RWLockStats_fields (s : RWLock.RWLockStats) : list (string * string) :=
  let totalWaits := add64 (RWLock.ReaderWaits s) (RWLock.WriterWaits s) in
  [("Reader Acquires", pretty (RWLock.ReaderAcquires s)); ("Writer Acquires", pretty (RWLock.WriterAcquires s));
   ("Reader Waits", pretty (RWLock.ReaderWaits s)); ("Writer Waits", pretty (RWLock.WriterWaits s));
   ("Avg Wait Time", Duration_String (average (RWLock.TotalWaitTimeNs s) totalWaits));
   ("Current Readers", pretty (RWLock.CurrentReaders s)); ("Writer Held", showBool (RWLock.WriterHeld s));
   ("Readers Waiting", pretty (RWLock.ReadersWaiting s)); ("Writers Waiting", pretty (RWLock.WritersWaiting s));
   ("Age", Duration_String (RWLock.Age s))].
Definition RWLockStats_String (s : RWLock.RWLockStats) : string := report "RWLock Stats" (RWLockStats_fields s).

Definition FairRWLockStats_fields (s : FairRWLock.FairRWLockStats) : list (string * string) :=
  let totalWaits := add64 (FairRWLock.ReaderWaits s) (FairRWLock.WriterWaits s) in
  [("Policy", FairRWLock.Policy s);
   ("Reader Acquires", pretty (FairRWLock.ReaderAcquires s)); ("Writer Acquires", pretty (FairRWLock.WriterAcquires s));
   ("Reader Waits", pretty (FairRWLock.ReaderWaits s)); ("Writer Waits", pretty (FairRWLock.WriterWaits s));
   ("Avg Wait Time", Duration_String (average (FairRWLock.TotalWaitTimeNs s) totalWaits));
   ("Current Readers", pretty (FairRWLock.CurrentReaders s)); ("Writer Held", showBool (FairRWLock.WriterHeld s));
   ("Waiters Queued", pretty (FairRWLock.WaitersQueued s)); ("Age", Duration_String (FairRWLock.Age s))].
Definition FairRWLockStats_String (s : FairRWLock.FairRWLockStats) : string :=
  report "FairRWLock Stats" (FairRWLockStats_fields s).

Definition SemaphoreStats_fields (s : Semaphore.SemaphoreStats) : list (string * string) :=
  [("Capacity", pretty (Semaphore.Capacity s)); ("Current Count", pretty (Semaphore.CurrentCount s));
   ("Utilization",
    showPercent (percentOf (add32 (Semaphore.Capacity s) (- Semaphore.CurrentCount s)) (Semaphore.Capacity s)));
   ("Acquires", pretty (Semaphore.Acquires s)); ("Releases", pretty (Semaphore.Releases s));
   ("Waits", pretty (Semaphore.Waits s)); ("Timeouts", pretty (Semaphore.Timeouts s));
   ("Avg Wait Time", Duration_String (average (Semaphore.TotalWaitTimeNs s) (Semaphore.Waits s)));
   ("Waiters Queued", pretty (Semaphore.WaitersQueued s)); ("Age", Duration_String (Semaphore.Age s))].
Definition SemaphoreStats_String (s : Semaphore.SemaphoreStats) : string :=
  report "Semaphore Stats" (SemaphoreStats_fields s).

(** The last party of a barrier does not wait. *)
Definition BarrierStats_fields (s : Barrier.BarrierStats) : list (string * string) :=
  let totalWaiters := wrap64 (Barrier.Trips s * add32 (Barrier.Parties s) (-1)) in
  let progress := if 0 <? Barrier.Parties s then percentOf (Barrier.Arrived s) (Barrier.Parties s) else float64 0 in
  [("Parties", pretty (Barrier.Parties s)); ("Arrived", pretty (Barrier.Arrived s)); ("Progress", showPercent progress);
   ("Generation", pretty (Barrier.Generation s)); ("Trips", pretty (Barrier.Trips s));
   ("Avg Wait Time", Duration_String (average (Barrier.TotalWaitTimeNs s) totalWaiters));
   ("Waiters Queued", pretty (Barrier.WaitersQueued s)); ("Age", Duration_String (Barrier.Age s))].
Definition BarrierStats_String (s : Barrier.BarrierStats) : string := report "Barrier Stats" (BarrierStats_fields s).

(** The ends of the example programs: the statistics printed after the last
    goroutine is done. *)
Definition println (s : string) : string := s +:+ nl.
Definition banner (s : string) : string := println (nl +:+ "=== " +:+ s +:+ " Statistics ===").

Definition rwlock_example_stats (now : Z) (l : RWLock.RWLock) : string :=
  banner "RWLock" +:+ println (RWLockStats_String (RWLock.GetStats now l)).
Definition semaphore_example_stats (now : Z) (s : Semaphore.Semaphore) : string :=
  banner "Semaphore" +:+ println (SemaphoreStats_String (Semaphore.GetStats now s)).
Definition barrier_example_stats (now : Z) (b : Barrier.Barrier) : string :=
  banner "Barrier" +:+ println (BarrierStats_String (Barrier.GetStats now b)).
Definition condvar_example_stats (now : Z) (c : CondVar.CondVar) (m : Mutex.Mutex) : string :=
  banner "Condition Variable" +:+ println (CondVarStats_String (CondVar.GetStats now c)) +:+
  banner "Mutex" +:+ println (MutexStats_String (Mutex.GetStats now m)).

(** ** Reading a report *)

Definition colon : ascii := ":"%char.

(** A line: two spaces, the name up to the colon, a space, the value. *)
Definition parseField (l : list ascii) : option (string * string) :=
  match l with
  | " "%char :: " "%char :: l =>
      match splitOn colon l with
      | name :: rest =>
          match joinWith colon rest with
          | " "%char :: v => Some (String.string_of_list_ascii name, String.string_of_list_ascii v)
          | _ => None
          end
      | [] => None
      end
  | _ => None
  end.

Definition readReport (text : string) : list (string * string) :=
  omap parseField (tail (splitOn newline (bytesOf text))).

(** Names have no colon, and nothing has a newline. *)
Definition fieldOk (f : string * string) : Prop := (colon ∉ bytesOf f.1) /\ oneLine f.1 /\ oneLine f.2.

Lemma bytesOf_concat l : bytesOf (String.concat nl l) = joinWith newline (bytesOf <$> l).
Proof.
  induction l as [|x l IH]; [done|]. destruct l as [|y l]; [done|].
  change (String.concat nl (x :: y :: l)) with (x +:+ (nl +:+ (String.concat nl (y :: l)))).
  rewrite !bytesOf_app, IH. done.
Qed.

Lemma parse_bytes name v :
  colon ∉ name ->
  parseField (" "%char :: " "%char :: name ++ colon :: " "%char :: v) =
  Some (String.string_of_list_ascii name, String.string_of_list_ascii v).
Proof. intros H. unfold parseField. by rewrite splitOn_app, join_splitOn. Qed.

Lemma parse_line f : fieldOk f -> parseField (bytesOf (line f)) = Some f.
Proof.
  intros (Hc & _ & _). destruct f as [n v]. unfold line. cbn [fst snd] in *. rewrite !bytesOf_app.
  etrans; [exact (parse_bytes (bytesOf n) (bytesOf v) Hc)|]. by rewrite !String.string_of_list_ascii_of_string.
Qed.

Lemma line_oneLine f : fieldOk f -> oneLine (line f).
Proof.
  intros (_ & H1 & H2). unfold line. rewrite !oneLine_app.
  repeat split; try done; unfold oneLine; by_decide.
Qed.

Lemma read_report title fields :
  oneLine title -> Forall fieldOk fields -> readReport (report title fields) = fields.
Proof.
  intros Ht Hf. unfold readReport, report. rewrite bytesOf_concat, splitOn_join; [|done|].
  - simpl. clear Ht. induction Hf as [|f fs H _ IH]; [done|]. cbn [fmap list_fmap omap list_omap]. rewrite parse_line by done. by rewrite IH.
  - constructor.
    + change (oneLine (title +:+ ":")). rewrite oneLine_app. split; [done|]. unfold oneLine. by_decide.
    + change (Forall (fun p => newline ∉ p) (bytesOf <$> (line <$> fields))). rewrite !Forall_fmap.
      eapply Forall_impl; [exact Hf|]. exact line_oneLine.
Qed.

(** What the formats print has no newline. *)
Lemma fmtFrac_oneLine prec v b acc : oneLine acc -> oneLine (fmtFrac prec v b acc).
Proof.
  revert v b acc. induction prec as [|prec IH]; intros v b acc H; simpl.
  - destruct b; [|done]. rewrite oneLine_app. split; [unfold oneLine; by_decide|done].
  - apply IH. destruct (b || _); [|done]. rewrite oneLine_app. split; [apply pretty_oneLine|done].
Qed.

Lemma const_oneLine s : bool_decide (newline ∈ bytesOf s) = false -> oneLine s.
Proof. apply bool_decide_eq_false. Qed.

Ltac one_line :=
  repeat first
    [ rewrite oneLine_app; split | apply pretty_oneLine | apply fmtFrac_oneLine
    | match goal with |- oneLine (if ?b then _ else _) => destruct b end
    | apply const_oneLine; vm_compute; reflexivity ].

Lemma Duration_oneLine d : oneLine (Duration_String d).
Proof. unfold Duration_String. one_line. Qed.

Lemma showPercent_oneLine x : oneLine (showPercent x).
Proof. unfold showPercent, formatF1. destruct x; one_line. Qed.

Lemma showBool_oneLine b : oneLine (showBool b).
Proof. unfold showBool. one_line. Qed.

Lemma field_ok n v : bool_decide (newline ∈ bytesOf n \/ colon ∈ bytesOf n) = false -> oneLine v -> fieldOk (n, v).
Proof. intros H%bool_decide_eq_false Hv. split_and!; simpl; [tauto|unfold oneLine; tauto|done]. Qed.

Ltac fields_ok :=
  repeat first
    [ apply List.Forall_nil | apply List.Forall_cons
    | apply field_ok; [vm_compute; reflexivity|first
        [apply pretty_oneLine | apply Duration_oneLine | apply showBool_oneLine | apply showPercent_oneLine | assumption]] ].

Ltac reads_back := apply read_report; [apply const_oneLine; vm_compute; reflexivity|cbv zeta; fields_ok].

(** Every report can be read back, line by line. *)
Lemma read_CondVarStats s : readReport (CondVarStats_String s) = CondVarStats_fields s.
Proof. unfold CondVarStats_String, CondVarStats_fields. reads_back. Qed.
Lemma read_MutexStats s : readReport (MutexStats_String s) = MutexStats_fields s.
Proof. unfold MutexStats_String, MutexStats_fields. reads_back. Qed.
Lemma read_RWLockStats s : readReport (RWLockStats_String s) = RWLockStats_fields s.
Proof. unfold RWLockStats_String, RWLockStats_fields. reads_back. Qed.
Lemma read_FairRWLockStats s : oneLine (FairRWLock.Policy s) -> readReport (FairRWLockStats_String s) = FairRWLockStats_fields s.
Proof. intros H. unfold FairRWLockStats_String, FairRWLockStats_fields. reads_back. Qed.
Lemma read_SemaphoreStats s : readReport (SemaphoreStats_String s) = SemaphoreStats_fields s.
Proof. unfold SemaphoreStats_String, SemaphoreStats_fields. reads_back. Qed.
Lemma read_BarrierStats s : readReport (BarrierStats_String s) = BarrierStats_fields s.
Proof. unfold BarrierStats_String, BarrierStats_fields. reads_back. Qed.

(** Two lists of fields that are equal have equal values. *)
Ltac same_counters H :=
  injection H; intros;
  repeat match goal with E : pretty ?a = pretty ?b |- _ => apply (inj pretty) in E end;
  repeat split; assumption.

(** ** Theorems *)

(** Two semaphores that print the same report have the same capacity, count,
    number of acquisitions, releases, waits, timeouts and waiters; and so on
    for the other primitives. *)
Theorem reports_distinguish :
  (forall s s', SemaphoreStats_String s = SemaphoreStats_String s' ->
     Semaphore.Capacity s = Semaphore.Capacity s' /\ Semaphore.CurrentCount s = Semaphore.CurrentCount s' /\
     Semaphore.Acquires s = Semaphore.Acquires s' /\ Semaphore.Releases s = Semaphore.Releases s' /\
     Semaphore.Waits s = Semaphore.Waits s' /\ Semaphore.Timeouts s = Semaphore.Timeouts s' /\
     Semaphore.WaitersQueued s = Semaphore.WaitersQueued s') /\
  (forall s s', MutexStats_String s = MutexStats_String s' ->
     Mutex.Locks s = Mutex.Locks s' /\ Mutex.Unlocks s = Mutex.Unlocks s' /\ Mutex.Waits s = Mutex.Waits s' /\
     Mutex.WaitersQueued s = Mutex.WaitersQueued s') /\
  (forall s s', CondVarStats_String s = CondVarStats_String s' ->
     CondVar.Waits s = CondVar.Waits s' /\ CondVar.Signals s = CondVar.Signals s' /\
     CondVar.Broadcasts s = CondVar.Broadcasts s' /\ CondVar.WaitersQueued s = CondVar.WaitersQueued s') /\
  (forall s s', RWLockStats_String s = RWLockStats_String s' ->
     RWLock.ReaderAcquires s = RWLock.ReaderAcquires s' /\ RWLock.WriterAcquires s = RWLock.WriterAcquires s' /\
     RWLock.ReaderWaits s = RWLock.ReaderWaits s' /\ RWLock.WriterWaits s = RWLock.WriterWaits s' /\
     RWLock.CurrentReaders s = RWLock.CurrentReaders s' /\ RWLock.ReadersWaiting s = RWLock.ReadersWaiting s' /\
     RWLock.WritersWaiting s = RWLock.WritersWaiting s') /\
  (forall s s', BarrierStats_String s = BarrierStats_String s' ->
     Barrier.Parties s = Barrier.Parties s' /\ Barrier.Arrived s = Barrier.Arrived s' /\
     Barrier.Generation s = Barrier.Generation s' /\ Barrier.Trips s = Barrier.Trips s' /\
     Barrier.WaitersQueued s = Barrier.WaitersQueued s').
Proof.
  split_and!; intros s s' H; apply (f_equal readReport) in H.
  - rewrite !read_SemaphoreStats in H. same_counters H.
  - rewrite !read_MutexStats in H. same_counters H.
  - rewrite !read_CondVarStats in H. same_counters H.
  - rewrite !read_RWLockStats in H. same_counters H.
  - rewrite !read_BarrierStats in H. same_counters H.
Qed.

(** The average is the quotient, and nothing divides by 0. *)
Lemma average_bounds total waits :
  0 <= total -> (0 < waits -> average total waits * waits <= total < (average total waits + 1) * waits) /\ 0 <= average total waits <= total.
Proof.
  intros H. unfold average. destruct (Z.ltb_spec 0 waits) as [Hw|Hw]; [|lia].
  pose proof (Z.quot_rem' total waits). pose proof (Z.rem_bound_pos total waits H Hw).
  pose proof (Z.quot_pos total waits H Hw). nia.
Qed.

(** Ten times the percentage, rounded exactly. *)
Definition exactTenths (a b : Z) : Z :=
  let q := 1000 * a / b in
  let r := (1000 * a) mod b in
  if (2 * r <? b) || ((2 * r =? b) && Z.even q) then q else q + 1.

Definition percentExact (a b : Z) : bool :=
  let t := exactTenths a b in
  bool_decide (showPercent (percentOf a b) = pretty (t / 10) +:+ "." +:+ pretty (t mod 10) +:+ "%").

Definition upTo (n : nat) : list Z := Z.of_nat <$> seq 0 (S n).

Lemma upTo_in n z : 0 <= z <= Z.of_nat n -> z ∈ upTo n.
Proof.
  intros H. apply list_elem_of_fmap. exists (Z.to_nat z). split; [lia|]. apply elem_of_seq. lia.
Qed.

(** With up to 64 permits or parties, the rounding of float64 does not show:
    the printed percentage is the exact one, to the nearest tenth. *)
Theorem percentage_exact a b :
  0 < b <= 64 -> 0 <= a <= b -> percentExact a b = true.
Proof.
  intros Hb Ha.
  assert (H : forallb (fun b => forallb (fun a => (b =? 0) || (b <? a) || percentExact a b) (upTo 64)) (upTo 64) = true)
    by (vm_compute; reflexivity).
  rewrite forallb_forall in H. specialize (H b ltac:(apply list_elem_of_In, upTo_in; lia)).
  rewrite forallb_forall in H. specialize (H a ltac:(apply list_elem_of_In, upTo_in; lia)).
  apply orb_true_iff in H as [[?|?]%orb_true_iff|H]; [lia|lia|done].
Qed.

(** What examples/semaphore prints for a semaphore that has not been used. *)
Example report_text :
  SemaphoreStats_String (Semaphore.GetStats 1500000000 Semaphore.sem2) =
  String.concat nl ["Semaphore Stats:"; "  Capacity: 2"; "  Current Count: 2"; "  Utilization: 0.0%"; "  Acquires: 0";
    "  Releases: 0"; "  Waits: 0"; "  Timeouts: 0"; "  Avg Wait Time: 0s"; "  Waiters Queued: 0"; "  Age: 1.5s"].
Proof. vm_compute. reflexivity. Qed.
