(* ===== verification/ClientAPI.v ===== *)
(** * The requests of the Go client (pkg/client/primitives.go)

    The methods of the client build a message: a type and a JSON object.  The
    objects have strings and integers only.  [jsonCodec] is what
    [json.Unmarshal] makes of such an object in the structures of the server's
    handlers: a missing field is the zero value, a field of the wrong type or
    out of range an error.  With it the requests of the client are run through
    the server's [handleMessage] and [dispatch]. *)

From Stdlib Require Import ZArith Lia.
From stdpp Require Import base list gmap strings pretty.
From S2P Require Import Prelude.
From S2P Require Import Auth.
From S2P Require Import AuditLog.
From S2P Require Import Scheduler.
From S2P Require Import Metrics.
From S2P Require Import Access.
From S2P Require Import Server.
From S2P Require Import Registry.
From S2P Require Import ServerOps.

#[local] Open Scope Z_scope.

Inductive value := VStr (s : string) | VInt (z : Z).

Abbreviation jsonObject := (gmap string value).

Record apiRequest := mkReq { reqType : string; reqPayload : jsonObject }.

(** ** The methods *)

Definition idName (id name : string) : jsonObject := <["id":=VStr id]> {["name":=VStr name]}.

Definition create (msgType : string) (payload : jsonObject) : apiRequest := mkReq msgType payload.

Definition op (id o : string) (holdMs : Z) : apiRequest :=
  let payload : jsonObject := <["id":=VStr id]> {["op":=VStr o]} in
  mkReq "primitiveOp" (if decide (holdMs = 0) then payload else <["holdMs":=VInt holdMs]> payload).

Definition CreateRWLock (id name : string) : apiRequest := create "createRWLock" (idName id name).
Definition RLockRWLock (id : string) (holdMs : Z) : apiRequest := op id "rlock" holdMs.
Definition RUnlockRWLock (id : string) : apiRequest := op id "runlock" 0.
Definition LockRWLock (id : string) (holdMs : Z) : apiRequest := op id "lock" holdMs.
Definition UnlockRWLock (id : string) : apiRequest := op id "unlock" 0.
Definition TryRLockRWLock (id : string) : apiRequest := op id "tryRLock" 0.
Definition TryLockRWLock (id : string) : apiRequest := op id "tryLock" 0.
Definition CreateSemaphore (id name : string) (capacity : Z) : apiRequest :=
  create "createSemaphore" (<["capacity":=VInt capacity]> (idName id name)).
Definition AcquireSemaphore (id : string) (holdMs : Z) : apiRequest := op id "acquire" holdMs.
Definition ReleaseSemaphore (id : string) : apiRequest := op id "release" 0.
Definition CreateMutex (id name : string) : apiRequest := create "createMutex" (idName id name).
Definition LockMutex (id : string) (holdMs : Z) : apiRequest := op id "lock" holdMs.
Definition UnlockMutex (id : string) : apiRequest := op id "unlock" 0.
Definition TryLockMutex (id : string) : apiRequest := op id "tryLock" 0.
Definition CreateCondVar (id name : string) : apiRequest := create "createCondVar" (idName id name).
Definition WaitCondVar (id : string) (holdMs : Z) : apiRequest := op id "wait" holdMs.
Definition SignalCondVar (id : string) : apiRequest := op id "signal" 0.
Definition BroadcastCondVar (id : string) : apiRequest := op id "broadcast" 0.
Definition CreateBarrier (id name : string) (parties : Z) : apiRequest :=
  create "createBarrier" (<["parties":=VInt parties]> (idName id name)).
Definition WaitBarrier (id : string) : apiRequest := op id "wait" 0.
Definition ResetBarrier (id : string) : apiRequest := op id "reset" 0.
Definition CreateWaitGroup (id name : string) : apiRequest := create "createWaitGroup" (idName id name).
Definition AddWaitGroup (id : string) (delta : Z) : apiRequest := op id "add" delta.
Definition DoneWaitGroup (id : string) : apiRequest := op id "done" 0.
Definition WaitWaitGroup (id : string) : apiRequest := op id "wg-wait" 0.
Definition CreateOnce (id name : string) : apiRequest := create "createOnce" (idName id name).
Definition DoOnce (id : string) : apiRequest := op id "do" 0.
Definition CreateSingleflight (id name : string) : apiRequest := create "createSingleflight" (idName id name).
Definition DoSingleflight (id : string) : apiRequest := op id "do" 0.
Definition ForgetSingleflight (id : string) : apiRequest := op id "forget" 0.
Definition DeletePrimitive (id : string) : apiRequest := mkReq "deletePrimitive" {["id":=VStr id]}.

(** ** Decoding *)

Definition strField (k : string) (p : jsonObject) : option string :=
  match p !! k with None => Some "" | Some (VStr s) => Some s | Some (VInt _) => None end.

Definition intField (lo hi : Z) (k : string) (p : jsonObject) : option Z :=
  match p !! k with
  | None => Some 0
  | Some (VInt z) => if (lo <=? z) && (z <=? hi) then Some z else None
  | Some (VStr _) => None
  end.

Definition int32Field := intField (-2147483648) MaxInt32.
Definition intField64 := intField (-9223372036854775808) MaxInt64.

Definition jsonCodec : Codec jsonObject :=
  mkCodec _
    (fun p => id ← strField "id" p; name ← strField "name" p; Some (id, name))
    (fun p => id ← strField "id" p; name ← strField "name" p; n ← int32Field "capacity" p; Some (id, name, n))
    (fun p => id ← strField "id" p; name ← strField "name" p; n ← int32Field "parties" p; Some (id, name, n))
    (strField "id")
    (fun p => id ← strField "id" p; o ← strField "op" p; n ← intField64 "holdMs" p; Some (mkOp id o n)).

(** ** What the server makes of the requests *)

Definition handle (now : Z) (conn : nat) (r : apiRequest) (s : Server) : hpc * Server :=
  handleMessage jsonCodec now conn (reqType r) (reqPayload r) s.

(** The first step of the operation's goroutine that looks at the request. *)
Definition opOutcome (r : apiRequest) (conn : nat) (c : connPrims) (s : Server) : option (opc * Server) :=
  p ← decodeOp jsonCodec (reqPayload r);
  Some (dispatch (mkOC conn p 0 0 None None 0 "") (fun k => mapOf k c !! opID p) s).

Lemma intField_eq lo hi k p z : p !! k = Some (VInt z) -> lo <= z <= hi -> intField lo hi k p = Some z.
Proof.
  intros E [H1%Z.leb_le H2%Z.leb_le]. unfold intField. by rewrite E, H1, H2.
Qed.

Lemma decode_idName id name :
  decodeBasic jsonCodec (idName id name) = Some (id, name) /\
  (forall n, int32_range n -> decodeCapacity jsonCodec (<["capacity":=VInt n]> (idName id name)) = Some (id, name, n)) /\
  (forall n, int32_range n -> decodeParties jsonCodec (<["parties":=VInt n]> (idName id name)) = Some (id, name, n)).
Proof.
  split; [done|]. split; intros n Hn; simpl; unfold int32Field.
  - rewrite (intField_eq _ _ _ _ n); [done|done|unfold int32_range, MaxInt32 in *; lia].
  - rewrite (intField_eq _ _ _ _ n); [done|done|unfold int32_range, MaxInt32 in *; lia].
Qed.

Lemma decode_op id o n : int64_range n -> decodeOp jsonCodec (reqPayload (op id o n)) = Some (mkOp id o n).
Proof.
  intros Hn. unfold op. simpl. case_decide as E; [by subst|]. unfold intField64.
  rewrite (intField_eq _ _ _ _ n); [done|done|unfold int64_range, MaxInt64 in *; lia].
Qed.

Lemma validated_ok conn id name s k :
  validatePrimID id = "" -> validatePrimName name = "" -> validated conn id name s k = k.
Proof. intros E1 E2. unfold validated. rewrite E1, E2. by rewrite !decide_False by (intros H; by apply H). Qed.

Lemma create_ok conn id name o s cp :
  connPrimsFor conn s = Some cp -> Server.create conn id name o s = (HCreate cp id name o, s).
Proof. intros E. unfold Server.create. by rewrite E. Qed.

Section Requests.
Context (now : Z) (conn : nat) (s : Server) (cp : nat) (id name : string).
Hypothesis Hcp : connPrimsFor conn s = Some cp.
Hypothesis Hrole : roleForConn (role <$> connStates s !! conn) = RoleAdmin.

Lemma admin_allowed ty : authorizeMessage (role <$> connStates s !! conn) ty = None.
Proof. unfold authorizeMessage. rewrite Hrole. by repeat case_decide. Qed.

End Requests.

(** An operation the server does not know. *)
Lemma dispatch_unknown c ptrs s :
  opOp (opay c) ∉ ["rlock"; "lock"; "unlock"; "acquire"; "release"; "signal"; "broadcast"; "wait"; "reset"; "add";
                    "done"; "wg-wait"; "do"; "forget"] ->
  dispatch c ptrs s = (OEnd, sendError (oconn c) ("Unknown operation: " +:+ opOp (opay c)) s).
Proof.
  intros H. unfold dispatch, dispatchRest.
  repeat (rewrite decide_False; [|intros E; apply H; rewrite E; set_solver]). done.
Qed.


(** * Concrete executions *)

(** A connection has created a readers-writer lock and a condition variable. *)
Definition apiRun : list (label (request (Raw := string * string))) :=
  connectAs 0 ++ message 0 "createRWLock" "l" 6 ++ message 0 "createCondVar" "c" 6.
Definition apiEnd : Prelude.config (Sh:=Server) (Th:=session (Raw := string * string)) :=
  after sampleServer apiRun (started sampleConfig, sessions 1).

Lemma apiEnd_typed : Typed apiEnd.1.
Proof.
  assert (HN : newServer 0 sampleConfig allOk ∅ = Some (started sampleConfig, ∅)) by reflexivity.
  apply (Typed_reach noTokens pairCodec noStats nameKey 0 sampleConfig allOk ∅ (started sampleConfig) ∅ 1
           apiEnd.1 apiEnd.2 HN).
  apply (execs_reach sampleServer any_label apiRun); [apply Forall_any|by_eval].
Qed.


