(* ===== verification/Client.v ===== *)
(** * The Go client (pkg/client/client.go)

    One connection at a time, one request at a time: [send] holds [sendMu],
    makes sure there is a connection, leaves a channel in [pending], writes
    the request and waits; a read loop per connection delivers the next reply
    to whatever channel is in [pending].  Modelled are [send] with
    [ensureConnected], [Connect], [Close] and [readLoop], one step per
    critical section, channel operation or access to a connection, for any
    number of callers.

    The network is the environment: a dial fails or succeeds, the server
    answers one of the requests it has received, sends other messages or one
    that cannot be decoded, and a connection may break.  A broken connection
    fails every read and may fail a write; a healthy one does neither.
    [answered] records which request each reply was for: the protocol does
    not. *)

From Stdlib Require Import ZArith Lia.
From stdpp Require Import base list gmap strings.
From S2P Require Import Prelude.

#[local] Open Scope Z_scope.

(** ** Configuration *)

Record ClientConfig := mkClientConfig {
  URL : string; APIKey : string; ReconnectDelay : Z; MaxReconnect : Z; PingInterval : Z; AutoReconnect : bool
}.

Definition defaultReconnectDelay : Z := 1000000000.     (* ns *)
Definition defaultMaxReconnect : Z := 30000000000.
Definition defaultPingInterval : Z := 30000000000.

Definition New (cfg : ClientConfig) : ClientConfig :=
  mkClientConfig (URL cfg) (APIKey cfg)
    (if ReconnectDelay cfg <=? 0 then defaultReconnectDelay else ReconnectDelay cfg)
    (if MaxReconnect cfg <=? 0 then defaultMaxReconnect else MaxReconnect cfg)
    (if PingInterval cfg <=? 0 then defaultPingInterval else PingInterval cfg)
    (AutoReconnect cfg).

(** [delay *= 2] and its cap; a [time.Duration] is an [int64]. *)
Definition nextDelay (cfg : ClientConfig) (delay : Z) : Z :=
  let delay := wrap64 (delay * 2) in
  if MaxReconnect cfg <? delay then MaxReconnect cfg else delay.

(** ** State *)

Inductive cerror :=
| ErrNotConnected | ErrClosed | ErrURL | ErrDial | ErrInitialState | ErrDeadline | ErrWrite | ErrRead | ErrDecode
| ErrCtx | ServerError (message : string).

Record response := mkResp { rmessage : string; rerr : option cerror }.

(** What the client reads: a reply, a reply it cannot decode, anything
    else. *)
Inductive msg := MReply (isErr : bool) (text : string) | MBad | MOther (ty : string).

(** [asked]: the requests the server has received and not answered. *)
Record netConn := mkConn { shut : bool; broken : bool; inq : list msg; asked : list nat }.

Record cworld := CW {
  cconn : option nat;
  cclosed : bool;
  cpending : option nat;
  sendMu : bool;
  chans : list (option response);
  conns : list netConn;
  loopQ : list nat;
  doneCtxs : gset nat;
  answered : list (nat * bool * string)
}.

Definition set_cconn v w := CW v (cclosed w) (cpending w) (sendMu w) (chans w) (conns w) (loopQ w) (doneCtxs w) (answered w).
Definition set_cclosed v w := CW (cconn w) v (cpending w) (sendMu w) (chans w) (conns w) (loopQ w) (doneCtxs w) (answered w).
Definition set_cpending v w := CW (cconn w) (cclosed w) v (sendMu w) (chans w) (conns w) (loopQ w) (doneCtxs w) (answered w).
Definition set_sendMu v w := CW (cconn w) (cclosed w) (cpending w) v (chans w) (conns w) (loopQ w) (doneCtxs w) (answered w).
Definition set_chans v w := CW (cconn w) (cclosed w) (cpending w) (sendMu w) v (conns w) (loopQ w) (doneCtxs w) (answered w).
Definition set_conns v w := CW (cconn w) (cclosed w) (cpending w) (sendMu w) (chans w) v (loopQ w) (doneCtxs w) (answered w).
Definition set_loopQ v w := CW (cconn w) (cclosed w) (cpending w) (sendMu w) (chans w) (conns w) v (doneCtxs w) (answered w).
Definition set_doneCtxs v w := CW (cconn w) (cclosed w) (cpending w) (sendMu w) (chans w) (conns w) (loopQ w) v (answered w).
Definition set_answered v w := CW (cconn w) (cclosed w) (cpending w) (sendMu w) (chans w) (conns w) (loopQ w) (doneCtxs w) v.

Definition ctxIsDone (ctx : nat) (w : cworld) : bool := bool_decide (ctx ∈ doneCtxs w).

Definition updConn (n : nat) (f : netConn -> netConn) (w : cworld) : cworld := set_conns (alter f n (conns w)) w.

(** [conn.Close] *)
Definition closeConn (n : nat) : cworld -> cworld :=
  updConn n (fun c => mkConn true (broken c) (inq c) (asked c)).

Definition healthy (c : netConn) : bool := negb (shut c) && negb (broken c).

(** [select { case ch <- r: default: }] on a channel of capacity one. *)
Definition put (ch : option nat) (r : response) (w : cworld) : cworld :=
  match ch with
  | None => w
  | Some ch => set_chans (alter (fun x => match x with None => Some r | Some _ => x end) ch (chans w)) w
  end.

Definition clearPending (ch : nat) (w : cworld) : cworld :=
  if decide (cpending w = Some ch) then set_cpending None w else w.

(** The critical section of [invalidateConn] and [fail]. *)
Definition dropConn (n : nat) (w : cworld) : cworld :=
  if decide (cconn w = Some n) then set_cconn None w else w.

(** ** Connect *)

Inductive kpc := KDial | KInit (n : nat) | KInstall (n : nat) | KCloseOld (old : option nat) (n : nat) | KSpawn (n : nat).

Section Client.
Context (cfg : ClientConfig).

(** [alt]: the dial, or reading the initial state, fails. *)
Definition Connect_step (o : oracle) (p : kpc) (w : cworld) : outcome kpc (option cerror) * cworld :=
  match p with
  | KDial =>
      if decide (URL cfg = "") then (Return (Some ErrURL), w)
      else if alt o then (Return (Some ErrDial), w)
      else (Next (KInit (length (conns w))), set_conns (conns w ++ [mkConn false false [] []]) w)
  | KInit n => if alt o then (Return (Some ErrInitialState), closeConn n w) else (Next (KInstall n), w)
  | KInstall n =>
      if cclosed w then (Return (Some ErrClosed), closeConn n w)
      else (Next (KCloseOld (cconn w) n), set_cconn (Some n) w)
  | KCloseOld old n => (Next (KSpawn n), match old with Some m => closeConn m w | None => w end)
  | KSpawn n => (Return None, set_loopQ (loopQ w ++ [n]) w)
  end.

(** ** Callers *)

Inductive cop :=
| Send (ctx : nat)
| Connect
| Close
| Answer (n i : nat) (isErr : bool) (text : string)
| Push (n : nat) (ty : string)
| Garble (n i : nat)
| Break (n : nat).

(** [SCheck] to [STimer]: [ensureConnected]; [SClear] and [SDrop] to
    [SShut]: giving up. *)
Inductive cpc :=
| CIdle
| SLock (ctx : nat)
| SCheck (ctx : nat)
| SCtx (ctx : nat) (delay : Z)
| SConnect (ctx : nat) (delay : Z) (p : kpc)
| SReread (ctx : nat) (delay : Z)
| STimer (ctx : nat) (delay : Z) (since : Z)
| SPend (ctx n : nat)
| SDeadline (ctx n ch : nat)
| SWrite (ctx n ch : nat)
| SWait (ctx ch : nat)
| SClear (ch : nat) (e : cerror)
| SClearDrop (n ch : nat)
| SDrop (n : nat)
| SShut (n : nat)
| SReturn (ch : option nat) (r : response)
| AConnect (p : kpc)
| KClose
| KClosePut (ch : option nat) (n : option nat)
| KCloseConn (n : option nat).

(** [results]: what the calls of [send] of this goroutine have returned, with
    the channel they waited on. *)
Record caller := mkCaller { cpoint : cpc; results : list (option nat * response) }.

Definition failure (e : cerror) : response := mkResp "" (Some e).

Definition send_step (o : oracle) (p : cpc) (w : cworld) : option (cpc * cworld) :=
  match p with
  | SLock ctx => if sendMu w then None else Some (SCheck ctx, set_sendMu true w)
  | SCheck ctx =>
      Some (if cclosed w then SReturn None (failure ErrClosed)
            else match cconn w with
                 | Some n => SPend ctx n
                 | None => if AutoReconnect cfg then SCtx ctx (ReconnectDelay cfg)
                           else SReturn None (failure ErrNotConnected)
                 end, w)
  | SCtx ctx delay =>
      Some (if ctxIsDone ctx w then SReturn None (failure ErrCtx) else SConnect ctx delay KDial, w)
  | SConnect ctx delay k =>
      match Connect_step o k w with
      | (Next k, w) => Some (SConnect ctx delay k, w)
      | (Return None, w) => Some (SReread ctx delay, w)
      | (_, w) => Some (STimer ctx delay (clk o), w)
      end
  | SReread ctx delay =>
      Some (match cconn w with Some n => SPend ctx n | None => STimer ctx delay (clk o) end, w)
  | STimer ctx delay since =>
      let elapsed := delay <=? clk o - since in
      if ctxIsDone ctx w && (alt o || negb elapsed) then Some (SReturn None (failure ErrCtx), w)
      else if elapsed then Some (SCtx ctx (nextDelay cfg delay), w)
      else None
  | SPend ctx n =>
      let ch := length (chans w) in
      Some (SDeadline ctx n ch, set_cpending (Some ch) (set_chans (chans w ++ [None]) w))
  | SDeadline ctx n ch =>
      c ← conns w !! n;
      Some (if alt o && negb (healthy c) then SClear ch ErrDeadline else SWrite ctx n ch, w)
  | SWrite ctx n ch =>
      c ← conns w !! n;
      if shut c || (broken c && alt o) then Some (SClearDrop n ch, w)
      else Some (SWait ctx ch, if broken c then w else updConn n (fun c => mkConn (shut c) (broken c) (inq c) (asked c ++ [ch])) w)
  | SWait ctx ch =>
      x ← chans w !! ch;
      match x with
      | Some r =>
          if ctxIsDone ctx w && alt o then Some (SClear ch ErrCtx, w)
          else Some (SReturn (Some ch) r, set_chans (<[ch:=None]> (chans w)) w)
      | None => if ctxIsDone ctx w then Some (SClear ch ErrCtx, w) else None
      end
  | SClear ch e => Some (SReturn None (failure e), clearPending ch w)
  | SClearDrop n ch => Some (SDrop n, clearPending ch w)
  | SDrop n => Some (SShut n, dropConn n w)
  | SShut n => Some (SReturn None (failure ErrWrite), closeConn n w)
  | _ => None
  end.

Definition caller_step (o : oracle) (th : caller) (w : cworld) : option (caller * cworld) :=
  let goto p w := Some (mkCaller p (results th), w) in
  match cpoint th with
  | CIdle => None
  | SReturn ch r => Some (mkCaller CIdle (results th ++ [(ch, r)]), set_sendMu false w)
  | AConnect k =>
      match Connect_step o k w with
      | (Next k, w) => goto (AConnect k) w
      | (_, w) => goto CIdle w
      end
  | KClose =>
      if cclosed w then goto CIdle w
      else goto (KClosePut (cpending w) (cconn w)) (set_cclosed true (set_cconn None (set_cpending None w)))
  | KClosePut ch n => goto (KCloseConn n) (put ch (failure ErrClosed) w)
  | KCloseConn n => goto CIdle (match n with Some n => closeConn n w | None => w end)
  | p => '(p, w) ← send_step o p w; goto p w
  end.

(** ** The read loop *)

Inductive lpc :=
| LIdle
| LRead (n : nat)
| LDeliver (n : nat) (r : response)
| LPut (n : nat) (ch : option nat) (r : response)
| LFail (n : nat) (e : cerror)
| LFailPut (n : nat) (ch : option nat) (e : cerror)
| LFailClose (n : nat).

Definition respOf (isErr : bool) (text : string) : response :=
  mkResp text (if isErr then Some (ServerError text) else None).

Definition readLoop_step (o : oracle) (p : lpc) (w : cworld) : option (lpc * cworld) :=
  match p with
  | LIdle => n ← loopQ w !! pick o; Some (LRead n, set_loopQ (delete (pick o) (loopQ w)) w)
  | LRead n =>
      c ← conns w !! n;
      if negb (healthy c) then Some (LFail n ErrRead, w)
      else
        match inq c with
        | [] => None
        | m :: q =>
            let w := updConn n (fun c => mkConn (shut c) (broken c) q (asked c)) w in
            Some (match m with
                  | MReply isErr text => LDeliver n (respOf isErr text)
                  | MBad => LFail n ErrDecode
                  | MOther _ => LRead n
                  end, w)
        end
  | LDeliver n r => Some (LPut n (cpending w) r, set_cpending None w)
  | LPut n ch r => Some (LRead n, put ch r w)
  | LFail n e => Some (LFailPut n (cpending w) e, set_cpending None (dropConn n w))
  | LFailPut n ch e => Some (LFailClose n, put ch (failure e) w)
  | LFailClose n => Some (LIdle, closeConn n w)
  end.

(** ** The network *)

Definition network (ev : cop) (w : cworld) : option cworld :=
  match ev with
  | Answer n i isErr text =>
      c ← conns w !! n; r ← asked c !! i;
      Some (set_answered (answered w ++ [(r, isErr, text)])
              (updConn n (fun c => mkConn (shut c) (broken c) (inq c ++ [MReply isErr text]) (delete i (asked c))) w))
  | Push n ty => Some (updConn n (fun c => mkConn (shut c) (broken c) (inq c ++ [MOther ty]) (asked c)) w)
  | Garble n i =>
      c ← conns w !! n; _ ← asked c !! i;
      Some (updConn n (fun c => mkConn (shut c) (broken c) (inq c ++ [MBad]) (delete i (asked c))) w)
  | Break n => Some (updConn n (fun c => mkConn (shut c) true (inq c) (asked c)) w)
  | _ => None
  end.

(** ** The machine *)

Inductive cthread := TCaller (th : caller) | TLoop (p : lpc) | TNet (ev : option cop).

Definition ccall (op : cop) (now : Z) (th : cthread) : option cthread :=
  match th, op with
  | TCaller (mkCaller CIdle rs), Send ctx => Some (TCaller (mkCaller (SLock ctx) rs))
  | TCaller (mkCaller CIdle rs), Connect => Some (TCaller (mkCaller (AConnect KDial) rs))
  | TCaller (mkCaller CIdle rs), Close => Some (TCaller (mkCaller KClose rs))
  | TNet None, (Answer _ _ _ _ | Push _ _ | Garble _ _ | Break _) => Some (TNet (Some op))
  | _, _ => None
  end.

Definition crun (o : oracle) (th : cthread) (w : cworld) : option (cthread * cworld) :=
  match th with
  | TCaller x => '(x, w) ← caller_step o x w; Some (TCaller x, w)
  | TLoop p => '(p, w) ← readLoop_step o p w; Some (TLoop p, w)
  | TNet (Some ev) => w ← network ev w; Some (TNet None, w)
  | TNet None => None
  end.

Definition clientMachine : machine cworld cthread cop :=
  Machine ccall crun (fun c w => set_doneCtxs ({[c]} ∪ doneCtxs w) w).
End Client.

Definition newClient : cworld := CW None false None false [] [] [] ∅ [].
Definition clientStart (callers loops nets : nat) : Prelude.config (Sh:=cworld) (Th:=cthread) :=
  (newClient, replicate callers (TCaller (mkCaller CIdle [])) ++ replicate loops (TLoop LIdle) ++ replicate nets (TNet None)).

(** * The delays between two attempts to connect *)

(** The delay before attempt [k + 1]. *)
Definition backoff (cfg : ClientConfig) (k : nat) : Z :=
  match k with
  | O => ReconnectDelay cfg
  | S _ => Z.min (ReconnectDelay cfg * 2 ^ Z.of_nat k) (MaxReconnect cfg)
  end.

(** Half of the [int64] range: about 146 years. *)
Definition sane (d : Z) : Prop := d <= 4611686018427387903.

Lemma New_positive cfg : 0 < ReconnectDelay (New cfg) /\ 0 < MaxReconnect (New cfg).
Proof.
  unfold New, defaultReconnectDelay, defaultMaxReconnect. simpl.
  split; case_match; bool_facts; lia.
Qed.

Lemma nextDelay_min cfg d : 0 < d -> sane d -> nextDelay cfg d = Z.min (d * 2) (MaxReconnect cfg).
Proof.
  unfold sane, nextDelay. intros H1 H2. rewrite wrap64_id by (unfold int64_range; lia).
  case_match; bool_facts; lia.
Qed.

Lemma backoff_bounds cfg k :
  0 < ReconnectDelay cfg -> 0 < MaxReconnect cfg -> sane (ReconnectDelay cfg) -> sane (MaxReconnect cfg) ->
  0 < backoff cfg k /\ sane (backoff cfg k).
Proof.
  intros H1 H2 H3 H4. unfold sane, backoff in *. destruct k as [|k]; [lia|].
  assert (0 < 2 ^ Z.of_nat (S k)) by (apply Z.pow_pos_nonneg; lia). nia.
Qed.

Lemma backoff_next cfg k :
  0 < ReconnectDelay cfg -> 0 < MaxReconnect cfg -> sane (ReconnectDelay cfg) -> sane (MaxReconnect cfg) ->
  nextDelay cfg (backoff cfg k) = backoff cfg (S k).
Proof.
  intros H1 H2 H3 H4. destruct (backoff_bounds cfg k) as [B1 B2]; [done..|]. rewrite nextDelay_min by done.
  unfold backoff. rewrite (Nat2Z.inj_succ k), Z.pow_succ_r by lia. destruct k as [|k]; [simpl Z.of_nat; lia|].
  assert (0 < 2 ^ Z.of_nat (S k)) by (apply Z.pow_pos_nonneg; lia). nia.
Qed.

(** The delay a caller will wait before the next attempt. *)
Definition delayOf (p : cpc) : option Z :=
  match p with SCtx _ d | SConnect _ d _ | SReread _ d | STimer _ d _ => Some d | _ => None end.

Lemma send_delay cfg o p w p' w' d :
  send_step cfg o p w = Some (p', w') -> delayOf p' = Some d ->
  d = ReconnectDelay cfg \/ delayOf p = Some d \/ exists d0, delayOf p = Some d0 /\ d = nextDelay cfg d0.
Proof.
  intros Hs Hd. destruct p; simpl in Hs; try done; inv_step Hs; simplify_eq/=; try done; eauto;
    repeat case_match; simplify_eq/=; eauto.
Qed.

(** The points at which a caller does not run [send_step]. *)
Definition ownPoint (p : cpc) : bool :=
  match p with CIdle | SReturn _ _ | AConnect _ | KClose | KClosePut _ _ | KCloseConn _ => true | _ => false end.

Lemma caller_send cfg o th w th' w' :
  caller_step cfg o th w = Some (th', w') -> ownPoint (cpoint th) = false ->
  send_step cfg o (cpoint th) w = Some (cpoint th', w') /\ results th' = results th.
Proof.
  intros H Ho. unfold caller_step in H. destruct (cpoint th) eqn:E; try done; cbv beta iota zeta in H;
    apply bind_Some in H as ([p' w2] & Hp & H); by simplify_eq.
Qed.


(** Larger values overflow: the delay becomes negative and the next attempts
    follow without a pause. *)
Lemma backoff_overflow :
  nextDelay (mkClientConfig "u" "" 1 MaxInt64 0 true) 4611686018427387904 = -9223372036854775808.
Proof. reflexivity. Qed.

(** * A closed client *)

Section Steps.
Context (cfg : ClientConfig).

(** Once closed, no connection is installed again. *)
Record closedStep (w w' : cworld) : Prop := {
  cs_closed : cclosed w = true -> cclosed w' = true;
  cs_conn : (cclosed w = true -> cconn w = None) -> cclosed w' = true -> cconn w' = None;
  cs_done : doneCtxs w' = doneCtxs w
}.

#[local] Instance closedStep_refl : Reflexive closedStep.
Proof. by intros w. Qed.

Lemma closedStep_frame w w' :
  cclosed w' = cclosed w -> (cconn w' = cconn w \/ cconn w' = None) -> doneCtxs w' = doneCtxs w -> closedStep w w'.
Proof. intros E1 E2 E3. split; [congruence| |done]. intros H. rewrite E1. destruct E2 as [-> | ->]; auto. Qed.

Lemma put_frame ch r w :
  cconn (put ch r w) = cconn w /\ cclosed (put ch r w) = cclosed w /\ doneCtxs (put ch r w) = doneCtxs w.
Proof. by destruct ch. Qed.

Lemma closed_connect o k w r w' : Connect_step cfg o k w = (r, w') -> closedStep w w'.
Proof.
  intros H. destruct k; simpl in H; repeat case_match; simplify_eq; try done; try (by apply closedStep_frame; [|left|]).
  split; [done| |done]. simpl. congruence.
Qed.

Lemma closed_send o p w p' w' : send_step cfg o p w = Some (p', w') -> closedStep w w'.
Proof.
  intros H. destruct p as [| | | |ctx d k| | | | | | | | | | | | | | |]; try done.
  4: { simpl in H. destruct (Connect_step cfg o k w) as [r w1] eqn:E.
       apply closed_connect in E. repeat case_match; by simplify_eq. }
  all: simpl in H; unfold clearPending, dropConn in *; inv_step H; simplify_eq; try done;
    repeat case_match; try done; apply closedStep_frame; auto.
Qed.

Lemma closed_run o th w th' w' : crun cfg o th w = Some (th', w') -> closedStep w w'.
Proof.
  intros H. destruct th as [x|p|[ev|]]; simpl in H; try done.
  - apply bind_Some in H as ([y w1] & Hy & H). simplify_eq. destruct (ownPoint (cpoint x)) eqn:Eo.
    + unfold caller_step in Hy. destruct (cpoint x) as [| | | | | | | | | | | | | | | |k| |ch n|n]; try done.
      * simplify_eq. apply closedStep_frame; auto.
      * destruct (Connect_step cfg o k w) as [r w1] eqn:E. apply closed_connect in E. repeat case_match; by simplify_eq.
      * case_match; simplify_eq; [done|]. by split.
      * simplify_eq. destruct (put_frame ch (failure ErrClosed) w) as (E1 & E2 & E3). apply closedStep_frame; auto.
      * simplify_eq. destruct n; [|done]. apply closedStep_frame; auto.
    + destruct (caller_send _ _ _ _ _ _ Hy Eo) as [Hp _]. by apply closed_send in Hp.
  - apply bind_Some in H as ([y w1] & Hy & H). simplify_eq. destruct p as [|n|n r|n ch r|n e|n ch e|n]; simpl in Hy.
    + inv_step Hy. apply closedStep_frame; auto.
    + inv_step Hy; simplify_eq; apply closedStep_frame; auto.
    + simplify_eq. apply closedStep_frame; auto.
    + simplify_eq. destruct (put_frame ch r w) as (E1 & E2 & E3). apply closedStep_frame; auto.
    + simplify_eq. unfold dropConn. case_match; apply closedStep_frame; auto.
    + simplify_eq. destruct (put_frame ch (failure e) w) as (E1 & E2 & E3). apply closedStep_frame; auto.
    + simplify_eq. apply closedStep_frame; auto.
  - apply bind_Some in H as (w1 & Hy & H). simplify_eq. destruct ev; simpl in Hy; inv_step Hy; simplify_eq;
      apply closedStep_frame; auto.
Qed.

(** The points of [ensureConnected]'s loop. *)
Definition inLoop (ctx : nat) (p : cpc) : Prop :=
  match p with SCtx c _ | SConnect c _ _ | SReread c _ | STimer c _ _ => c = ctx | _ => False end.

Lemma loop_step ctx o p w p' w' :
  send_step cfg o p w = Some (p', w') -> inLoop ctx p -> cclosed w = true -> cconn w = None ->
  ctx ∉ doneCtxs w -> inLoop ctx p'.
Proof.
  intros Hs Hl Hc Hn Hd. assert (E : ctxIsDone ctx w = false) by (by apply bool_decide_eq_false).
  destruct p as [| | |c d|c d k|c d|c d since| | | | | | | | | | | | |]; simpl in Hl; try done; subst c; simpl in Hs.
  - rewrite E in Hs. by simplify_eq.
  - repeat case_match; by simplify_eq.
  - rewrite Hn in Hs. by simplify_eq.
  - rewrite E in Hs. simpl in Hs. case_match; by simplify_eq.
Qed.

(** [Close] does not end a [send] that is trying to connect.  When the
    client is closed while a [send] is in the loop of [ensureConnected], the
    [send] stays in the loop, dialling again and again, in every execution in
    which its context is not cancelled. *)
Theorem closed_send_retries callers loops nets c c' t th ctx :
  reach (clientMachine cfg) any_label (clientStart callers loops nets) c ->
  cclosed c.1 = true -> c.2 !! t = Some (TCaller th) -> inLoop ctx (cpoint th) -> ctx ∉ doneCtxs c.1 ->
  reach (clientMachine cfg) (fun l => l <> Cancel ctx) c c' ->
  exists th', c'.2 !! t = Some (TCaller th') /\ inLoop ctx (cpoint th') /\ results th' = results th.
Proof.
  intros HR Hc Ht Hl Hd HR'.
  assert (Hn : cclosed c.1 = true -> cconn c.1 = None).
  { apply (reach_invariant (clientMachine cfg) any_label (fun c => cclosed c.1 = true -> cconn c.1 = None)
             (clientStart callers loops nets)) with (c := c); try done.
    intros sh ths u x x' sh' o H _ _ Hs. simpl in *. by apply (cs_conn _ _ (closed_run _ _ _ _ _ Hs)). }
  assert (HI : cclosed c'.1 = true /\ cconn c'.1 = None /\ (ctx ∉ doneCtxs c'.1) /\
    exists th', c'.2 !! t = Some (TCaller th') /\ inLoop ctx (cpoint th') /\ results th' = results th).
  { apply (reach_invariant (clientMachine cfg) (fun l => l <> Cancel ctx)
      (fun c => cclosed c.1 = true /\ cconn c.1 = None /\ (ctx ∉ doneCtxs c.1) /\
         exists th', c.2 !! t = Some (TCaller th') /\ inLoop ctx (cpoint th') /\ results th' = results th) c); [| | | |done].
    - split_and!; eauto.
    - intros sh ths u x x' op now (H1 & H2 & H3 & y & Hy & Hl' & Hr) _ Hu Hx. simpl in *. split_and!; [done..|].
      destruct (decide (u = t)) as [->|]; [|rewrite list_lookup_insert_ne by done; eauto].
      rewrite Hy in Hu. simplify_eq. destruct y as [p rs]. destruct p; try done; by destruct op.
    - intros sh ths u x x' sh' o (H1 & H2 & H3 & y & Hy & Hl' & Hr) _ Hu Hx. simpl in *.
      destruct (closed_run _ _ _ _ _ Hx) as [E1 E2 E3]. split_and!; auto; [by rewrite E3|].
      destruct (decide (u = t)) as [->|]; [|rewrite list_lookup_insert_ne by done; eauto].
      rewrite list_lookup_insert_eq by (by eapply lookup_lt_Some). rewrite Hy in Hu. simplify_eq. simpl in Hx.
      apply bind_Some in Hx as ([z w1] & Hz & Hx). simplify_eq. exists z. split; [done|].
      assert (Eo : ownPoint (cpoint y) = false) by (by destruct (cpoint y)).
      destruct (caller_send _ _ _ _ _ _ Hz Eo) as [Hp Er]. split; [|congruence]. by eapply loop_step.
    - intros sh ths x (H1 & H2 & H3 & H4) Hx. simpl in *. split_and!; [done|done| |done].
      intros [->%elem_of_singleton|?]%elem_of_union; [by apply Hx|done]. }
  by destruct HI as (_ & _ & _ & ?).
Qed.
End Steps.

(** * Concrete executions *)

Definition retryConfig : ClientConfig := mkClientConfig "ws" "" 4 10 0 true.

(** The first attempt of goroutine 0 fails. *)
Definition failedDial : list (label cop) :=
  [Call 0%nat (Send 7) 0] ++ runs 0 3 ++ [Run 0%nat (Oracle true 0 0)].
(** Goroutine 1 closes the client. *)
Definition closeRun : list (label cop) := failedDial ++ [Call 1%nat Close 0] ++ runs 1 3.
(** The delay is over and the next attempt is made. *)
Definition retryRun : list (label cop) := [Run 0%nat (Oracle false 0 100)] ++ runs 0 4.

Definition retryStart : Prelude.config (Sh:=cworld) (Th:=cthread) := clientStart 2 0 0.
Definition closedEnd : Prelude.config (Sh:=cworld) (Th:=cthread) :=
  after (clientMachine retryConfig) closeRun retryStart.
Definition retryEnd : Prelude.config (Sh:=cworld) (Th:=cthread) :=
  after (clientMachine retryConfig) retryRun closedEnd.

Lemma closed_send_retries_witness :
  length (conns retryEnd.1) = 1%nat /\
  exists th', retryEnd.2 !! 0%nat = Some (TCaller th') /\ inLoop 7 (cpoint th') /\ results th' = [].
Proof.
  split; [by_eval|].
  refine (closed_send_retries retryConfig 2 0 0 closedEnd retryEnd 0 (mkCaller (STimer 7 4 0) []) 7 _ _ _ _ _ _).
  - apply (execs_reach (clientMachine retryConfig) any_label closeRun); [apply Forall_any|by_eval].
  - by_eval.
  - by_eval.
  - reflexivity.
  - by_decide.
  - apply (execs_reach (clientMachine retryConfig) (fun l => l <> Cancel 7) retryRun); [|by_eval].
    repeat (constructor; [discriminate|]). constructor.
Defined.

