(* ===== verification/Replies.v ===== *)
(** * Replies reach the request they answer

    The protocol between client and server has no request numbers; the client
    gives the next reply to the pending request.  This file proves that this
    is right as long as nothing disturbs the client (no cancelled context, no
    broken connection, no undecodable reply, no [Connect] or [Close] by the
    user), and shows executions in which a disturbance shifts the replies. *)

From Stdlib Require Import ZArith Lia.
From stdpp Require Import base list gmap strings.
From S2P Require Import Prelude.
From S2P Require Import Client.

#[local] Open Scope Z_scope.

(** No context is cancelled, and of the events from outside only [Send],
    answers and other messages happen.  Attempts to connect may fail. *)
Definition calmOp (op : cop) : Prop :=
  match op with Send _ | Answer _ _ _ _ | Push _ _ => True | _ => False end.

Definition undisturbed (l : label cop) : Prop :=
  match l with Call _ op _ => calmOp op | Run _ _ => True | Cancel _ => False end.

(** ** Sums over lists updated in place *)

Lemma sumf_alter {A} (g : A -> Z) (f : A -> A) l n c :
  l !! n = Some c -> sumf g (alter f n l) = sumf g l - g c + g (f c).
Proof.
  revert n. induction l as [|x l IH]; intros n H; [done|]. destruct n as [|n].
  - injection H as ->. change (alter f 0%nat (c :: l)) with (f c :: l). simpl. lia.
  - change (alter f (S n) (x :: l)) with (x :: alter f n l). simpl. rewrite (IH n H). lia.
Qed.

Lemma sumf_alter_frame {A} (g : A -> Z) (f : A -> A) l n :
  (forall c, g (f c) = g c) -> sumf g (alter f n l) = sumf g l.
Proof.
  intros H. revert n. induction l as [|x l IH]; intros n; [done|]. destruct n as [|n].
  - change (alter f 0%nat (x :: l)) with (f x :: l). simpl. by rewrite H.
  - change (alter f (S n) (x :: l)) with (x :: alter f n l). simpl. by rewrite IH.
Qed.

Lemma sumf_zero_lookup {A} (g : A -> Z) l i x :
  (forall y, 0 <= g y) -> sumf g l = 0 -> l !! i = Some x -> g x = 0.
Proof. intros Hg H Hi. pose proof (sumf_lookup_le g l i x Hg Hi). specialize (Hg x). lia. Qed.

(** ** Requests in flight

    A request that was written is in exactly one place: at the server, as a
    reply on its way, in the hands of a read loop before or after it has taken
    [pending], or in the channel of its caller. *)

Definition isReply (m : msg) : Z := match m with MReply _ _ => 1 | _ => 0 end.
Definition connTok (c : netConn) : Z := Z.of_nat (length (asked c)) + sumf isReply (inq c).
Definition handTok (th : cthread) : Z := match th with TLoop (LDeliver _ _) => 1 | _ => 0 end.
Definition putTok (th : cthread) : Z := match th with TLoop (LPut _ _ _) => 1 | _ => 0 end.
Definition filledTok (x : option response) : Z := match x with Some _ => 1 | None => 0 end.

Definition before (w : cworld) (ths : list cthread) : Z := sumf connTok (conns w) + sumf handTok ths.
Definition afterTok (w : cworld) (ths : list cthread) : Z := sumf putTok ths + sumf filledTok (chans w).

(** Goroutines that hold [sendMu], and those that wait for a reply. *)
Definition sendPoint (p : cpc) : bool :=
  match p with CIdle | SLock _ | AConnect _ | KClose | KClosePut _ _ | KCloseConn _ => false | _ => true end.
Definition inSend (th : cthread) : Z := match th with TCaller x => Z.b2z (sendPoint (cpoint x)) | _ => 0 end.
Definition waits (th : cthread) : Z :=
  match th with TCaller x => match cpoint x with SWait _ _ => 1 | _ => 0 end | _ => 0 end.

(** [r] is the answer to the request [ch]. *)
Definition fits (w : cworld) (ch : nat) (r : response) : Prop :=
  exists e t, (ch, e, t) ∈ answered w /\ r = respOf e t.

Definition matched (w : cworld) (x : option nat * response) : Prop :=
  match x.1 with Some ch => fits w ch x.2 | None => True end.

(** Everything in flight belongs to the request [ch]. *)
Definition connFor (w : cworld) (ch : nat) (c : netConn) : Prop :=
  (forall r, r ∈ asked c -> r = ch) /\ (forall e t, MReply e t ∈ inq c -> (ch, e, t) ∈ answered w).
Definition loopFor (w : cworld) (ch : nat) (th : cthread) : Prop :=
  match th with
  | TLoop (LDeliver _ r) => fits w ch r
  | TLoop (LPut _ p r) => p = Some ch /\ fits w ch r
  | _ => True
  end.
Record tokFor (w : cworld) (ths : list cthread) (ch : nat) : Prop := {
  tf_conns : forall n c, conns w !! n = Some c -> connFor w ch c;
  tf_loops : forall i th, ths !! i = Some th -> loopFor w ch th;
  tf_chans : forall i r, chans w !! i = Some (Some r) -> i = ch /\ fits w ch r
}.

Definition healthyAt (n : nat) (w : cworld) : Prop := exists c, conns w !! n = Some c /\ healthy c = true.

(** What a read loop, the network and a caller rely on at each point. *)
Definition loopConn (p : lpc) : option nat :=
  match p with LIdle => None | LRead n | LDeliver n _ | LPut n _ _ | LFail n _ | LFailPut n _ _ | LFailClose n => Some n end.
Definition loopOk (w : cworld) (p : lpc) : Prop :=
  match p with LFail _ _ | LFailPut _ _ _ | LFailClose _ => False | _ => True end /\
  forall n, loopConn p = Some n -> cconn w = Some n.

Definition pointOk (w : cworld) (ths : list cthread) (p : cpc) : Prop :=
  match p with
  | CIdle | SLock _ | SCheck _ | SReread _ _ => True
  | SCtx _ _ | STimer _ _ _ | SConnect _ _ KDial => cconn w = None
  | SConnect _ _ (KInit n) | SConnect _ _ (KInstall n) => cconn w = None /\ healthyAt n w
  | SConnect _ _ (KCloseOld old n) => old = None /\ cconn w = Some n
  | SConnect _ _ (KSpawn n) => cconn w = Some n
  | SPend _ n => cconn w = Some n
  | SDeadline _ n ch | SWrite _ n ch => cconn w = Some n /\ cpending w = Some ch /\ chans w !! ch = Some None
  | SWait _ ch => is_Some (chans w !! ch) /\ tokFor w ths ch /\ (0 < before w ths -> cpending w = Some ch)
  | SReturn ch r => matched w (ch, r)
  | _ => False
  end.

Definition threadOk (w : cworld) (ths : list cthread) (th : cthread) : Prop :=
  match th with
  | TCaller x => pointOk w ths (cpoint x) /\ Forall (matched w) (results x)
  | TLoop p => loopOk w p
  | TNet ev => match ev with Some ev => calmOp ev | None => True end
  end.

Record CInv (c : cworld * list cthread) : Prop := {
  ci_closed : cclosed c.1 = false;
  ci_ctx : doneCtxs c.1 = ∅;
  ci_mu : sumf inSend c.2 = Z.b2z (sendMu c.1);
  ci_count : before c.1 c.2 + afterTok c.1 c.2 = sumf waits c.2;
  ci_queue : forall n, n ∈ loopQ c.1 -> cconn c.1 = Some n;
  ci_conn : forall n, cconn c.1 = Some n -> healthyAt n c.1;
  ci_good : forall n x, conns c.1 !! n = Some x -> MBad ∉ inq x;
  ci_threads : forall i th, c.2 !! i = Some th -> threadOk c.1 c.2 th
}.

Lemma isReply_nonneg m : 0 <= isReply m.
Proof. by destruct m. Qed.
Lemma connTok_nonneg c : 0 <= connTok c.
Proof. unfold connTok. pose proof (sumf_nonneg isReply (inq c) isReply_nonneg). lia. Qed.
Lemma handTok_nonneg th : 0 <= handTok th.
Proof. by destruct th as [|[]|]. Qed.
Lemma putTok_nonneg th : 0 <= putTok th.
Proof. by destruct th as [|[]|]. Qed.
Lemma filledTok_nonneg x : 0 <= filledTok x.
Proof. by destruct x. Qed.
Lemma inSend_nonneg th : 0 <= inSend th.
Proof. destruct th as [x| |]; simpl; try done. by destruct (sendPoint _). Qed.
Lemma waits_le th : 0 <= waits th <= inSend th.
Proof. destruct th as [[[] ?]| |]; simpl; lia. Qed.

#[local] Hint Resolve isReply_nonneg connTok_nonneg handTok_nonneg putTok_nonneg filledTok_nonneg inSend_nonneg : core.

Lemma before_nonneg w ths : 0 <= before w ths.
Proof.
  unfold before. pose proof (sumf_nonneg connTok (conns w) connTok_nonneg). pose proof (sumf_nonneg handTok ths handTok_nonneg).
  lia.
Qed.
Lemma afterTok_nonneg w ths : 0 <= afterTok w ths.
Proof.
  unfold afterTok. pose proof (sumf_nonneg putTok ths putTok_nonneg).
  pose proof (sumf_nonneg filledTok (chans w) filledTok_nonneg). lia.
Qed.

Lemma waits_sum ths : 0 <= sumf waits ths <= sumf inSend ths.
Proof. induction ths as [|x l IH]; simpl; [lia|]. pose proof (waits_le x). lia. Qed.

Lemma sumf_isReply_0 q : sumf isReply q = 0 -> forall e t, MReply e t ∉ q.
Proof.
  intros H e t [i Hi]%list_elem_of_lookup. pose proof (sumf_zero_lookup isReply q i _ isReply_nonneg H Hi). done.
Qed.

(** When nothing is in flight, it belongs to whoever you like. *)
Lemma tokFor_empty w ths ch : before w ths + afterTok w ths = 0 -> tokFor w ths ch.
Proof.
  intros H. pose proof (before_nonneg w ths) as Hb. pose proof (afterTok_nonneg w ths) as Ha.
  unfold before, afterTok in *.
  pose proof (sumf_nonneg connTok (conns w) ltac:(auto)). pose proof (sumf_nonneg handTok ths ltac:(auto)).
  pose proof (sumf_nonneg putTok ths ltac:(auto)). pose proof (sumf_nonneg filledTok (chans w) ltac:(auto)). split.
  - intros n c Hc. pose proof (sumf_zero_lookup connTok (conns w) n c ltac:(auto) ltac:(lia) Hc) as Hz. unfold connTok in Hz.
    pose proof (sumf_nonneg isReply (inq c) ltac:(auto)). split.
    + destruct (asked c); [by intros r ?%not_elem_of_nil|simpl in Hz; lia].
    + intros e t Hq. by destruct (sumf_isReply_0 (inq c) ltac:(lia) e t).
  - intros i th Hi. pose proof (sumf_zero_lookup handTok ths i th ltac:(auto) ltac:(lia) Hi).
    pose proof (sumf_zero_lookup putTok ths i th ltac:(auto) ltac:(lia) Hi). by destruct th as [|[]|].
  - intros i r Hi. by pose proof (sumf_zero_lookup filledTok (chans w) i _ ltac:(auto) ltac:(lia) Hi).
Qed.

(** ** One request at a time *)

Section Exclusive.
Context (w : cworld) (ths : list cthread) (t : nat) (x : caller).
Hypothesis HI : CInv (w, ths).
Hypothesis Ht : ths !! t = Some (TCaller x).
Hypothesis Hx : sendPoint (cpoint x) = true.

Lemma holder_mu : sendMu w = true.
Proof.
  pose proof (ci_mu _ HI) as H. simpl in H.
  pose proof (sumf_lookup_le inSend ths t _ ltac:(auto) Ht) as H1. simpl in H1. rewrite Hx in H1.
  destruct (sendMu w); simpl in *; [done|lia].
Qed.

Lemma holder_sum : sumf inSend ths = 1.
Proof. pose proof (ci_mu _ HI) as H. simpl in H. by rewrite holder_mu in H. Qed.

Lemma holder_other i y : i <> t -> ths !! i = Some (TCaller y) -> sendPoint (cpoint y) = false.
Proof.
  intros Hi Hy. pose proof (sumf_lookup_two inSend ths i t _ _ ltac:(auto) Hi Hy Ht) as H. rewrite holder_sum in H.
  simpl in H. rewrite Hx in H. by destruct (sendPoint (cpoint y)); simpl in H.
Qed.

Lemma holder_waits : sumf waits ths = waits (TCaller x).
Proof.
  apply (sumf_single waits ths t); [done|]. intros j y Hj Hne. destruct y as [y| |]; try done.
  pose proof (holder_other j y Hne Hj) as H. simpl. by destruct (cpoint y).
Qed.
End Exclusive.

Lemma outside_ok w ths p : sendPoint p = false -> pointOk w ths p -> forall w' ths', pointOk w' ths' p.
Proof. by destruct p. Qed.

Lemma matched_mono w w' x : (forall y, y ∈ answered w -> y ∈ answered w') -> matched w x -> matched w' x.
Proof. intros H. unfold matched, fits. destruct x as [[ch|] r]; simpl; [|done]. intros (e & t & ? & ?). eauto. Qed.

(** A step of the goroutine that holds [sendMu]. *)
Lemma CInv_caller w ths t x x' w' :
  CInv (w, ths) -> ths !! t = Some (TCaller x) -> sendPoint (cpoint x) = true ->
  cclosed w' = false -> doneCtxs w' = ∅ -> answered w' = answered w -> sendMu w' = sendPoint (cpoint x') ->
  (cconn w' = cconn w \/ cconn w = None) ->
  before w' ths + afterTok w' ths = waits (TCaller x') ->
  (forall n, n ∈ loopQ w' -> cconn w' = Some n) -> (forall n, cconn w' = Some n -> healthyAt n w') ->
  (forall n c, conns w' !! n = Some c -> MBad ∉ inq c) ->
  threadOk w' (<[t:=TCaller x']> ths) (TCaller x') ->
  CInv (w', <[t:=TCaller x']> ths).
Proof.
  intros HI Ht Hx E1 E2 E3 E4 Ec Hn Hq Hh Hg Hok. pose proof (holder_sum w ths t x HI Ht Hx) as Hs.
  pose proof (holder_waits w ths t x HI Ht Hx) as Hw. split; simpl; try done.
  - rewrite (sumf_insert _ _ _ _ _ Ht), Hs. simpl. rewrite Hx, E4. simpl. lia.
  - unfold before, afterTok in *. rewrite !(sumf_insert _ _ _ _ _ Ht), Hw. simpl in *. lia.
  - intros i th Hi. destruct (decide (i = t)) as [->|Hne].
    { rewrite list_lookup_insert_eq in Hi by (by eapply lookup_lt_Some). by simplify_eq. }
    rewrite list_lookup_insert_ne in Hi by done. pose proof (ci_threads _ HI i th Hi) as H. simpl in H.
    destruct th as [y|p|ev]; simpl in *.
    + destruct H as [H1 H2]. split.
      * eapply outside_ok; [|exact H1]. by apply (holder_other w ths t x HI Ht Hx i).
      * eapply Forall_impl; [exact H2|]. intros z. apply matched_mono. by rewrite E3.
    + destruct H as [H1 H2]. split; [done|]. intros n Hn'. destruct Ec as [-> |Ec]; [by apply H2|].
      specialize (H2 n Hn'). congruence.
    + done.
Qed.

(** A step of the holder that leaves the connections alone. *)
Lemma CInv_quiet w ths t x p' w' :
  CInv (w, ths) -> ths !! t = Some (TCaller x) -> sendPoint (cpoint x) = true ->
  cclosed w' = cclosed w -> doneCtxs w' = doneCtxs w -> answered w' = answered w -> cconn w' = cconn w ->
  conns w' = conns w -> loopQ w' = loopQ w -> sendMu w' = sendPoint p' ->
  sumf filledTok (chans w') - sumf filledTok (chans w) = waits (TCaller (mkCaller p' [])) - waits (TCaller x) ->
  pointOk w' (<[t:=TCaller (mkCaller p' (results x))]> ths) p' ->
  CInv (w', <[t:=TCaller (mkCaller p' (results x))]> ths).
Proof.
  intros HI Ht Hx E1 E2 E3 E4 E5 E6 E7 Hf Hok. pose proof (holder_waits w ths t x HI Ht Hx) as Hw.
  destruct HI as [I1 I2 I3 I4 I5 I6 I7 I8] eqn:EI. clear EI. simpl in *. rewrite Hw in I4.
  eapply CInv_caller; [done|exact Ht|done|congruence|congruence|done|done|by left| | | | |].
  - unfold before, afterTok in *. rewrite E5. simpl in *. lia.
  - by rewrite E4, E6.
  - unfold healthyAt. by rewrite E4, E5.
  - by rewrite E5.
  - split; [done|]. simpl. destruct (I8 t _ Ht) as [_ Hr]. eapply Forall_impl; [exact Hr|]. intros z.
    apply matched_mono. by rewrite E3.
Qed.

Lemma healthy_alter n f w c :
  conns w !! n = Some c -> healthy (f c) = true -> healthyAt n (updConn n f w).
Proof.
  intros Hc Hf. exists (f c). split; [|done]. unfold updConn. simpl. by rewrite list_lookup_alter_eq, Hc.
Qed.

Lemma lookup_updConn n f w m c :
  conns (updConn n f w) !! m = Some c ->
  (m = n /\ exists c0, conns w !! n = Some c0 /\ c = f c0) \/ conns w !! m = Some c.
Proof.
  unfold updConn. simpl. destruct (decide (m = n)) as [->|Hne].
  - rewrite list_lookup_alter_eq. intros (c0 & H & ->)%fmap_Some. left. eauto.
  - rewrite list_lookup_alter_ne by done. by right.
Qed.

(** What [Connect] does, when it is called without a connection. *)
Lemma connect_cases cfg o k w r w' ths ctx d :
  Connect_step cfg o k w = (r, w') -> pointOk w ths (SConnect ctx d k) -> cclosed w = false ->
  (w' = w /\ ((exists e, r = Return (Some e) /\ cconn w = None) \/
              (exists n, r = Next (KInstall n) /\ cconn w = None /\ healthyAt n w) \/
              (exists n, r = Next (KSpawn n) /\ cconn w = Some n))) \/
  (exists n, r = Next (KInit n) /\ n = length (conns w) /\ cconn w = None /\
             w' = set_conns (conns w ++ [mkConn false false [] []]) w) \/
  (exists n e, r = Return (Some e) /\ cconn w = None /\ w' = closeConn n w) \/
  (exists n, r = Next (KCloseOld None n) /\ cconn w = None /\ healthyAt n w /\ w' = set_cconn (Some n) w) \/
  (exists n, r = Return None /\ cconn w = Some n /\ w' = set_loopQ (loopQ w ++ [n]) w).
Proof.
  intros H Hp Hc. destruct k as [|n|n|old n|n]; simpl in H, Hp.
  - case_decide; simplify_eq; [left; split; [done|left; eauto]|].
    destruct (alt o); simplify_eq; [left; split; [done|left; eauto]|]. right. left. eexists. done.
  - destruct Hp as [Hn Hh]. destruct (alt o); simplify_eq; [do 2 right; left; do 2 eexists; done|].
    left. split; [done|]. right. left. eauto.
  - destruct Hp as [Hn Hh]. rewrite Hc in H. simplify_eq. rewrite Hn. do 3 right. left. eauto.
  - destruct Hp as [-> Hn]. simplify_eq. left. split; [done|]. right. right. eauto.
  - simplify_eq. do 4 right. eauto.
Qed.

(** Without a connection nothing is in flight, so closing or adding one does
    not change what is. *)
Lemma sumf_closeConn n w : sumf connTok (conns (closeConn n w)) = sumf connTok (conns w).
Proof.
  by apply sumf_alter_frame.
Qed.

(** The steps of [Connect] inside [send]. *)
Lemma CInv_connect cfg o w ths t x k ctx d x' w' :
  CInv (w, ths) -> ths !! t = Some (TCaller x) -> cpoint x = SConnect ctx d k ->
  caller_step cfg o x w = Some (x', w') -> CInv (w', <[t:=TCaller x']> ths).
Proof.
  intros HI Ht Ep Hs. assert (Hx : sendPoint (cpoint x) = true) by (by rewrite Ep).
  pose proof (holder_mu w ths t x HI Ht Hx) as Hmu. pose proof (holder_waits w ths t x HI Ht Hx) as Hw.
  pose proof HI as [I1 I2 I3 I4 I5 I6 I7 I8]. simpl in *. rewrite Hw, Ep in I4.
  destruct (I8 t _ Ht) as [Hp Hr]. rewrite Ep in Hp.
  assert (Eo : ownPoint (cpoint x) = false) by (by rewrite Ep).
  destruct (caller_send cfg o x w x' w' Hs Eo) as [Hs' Er]. rewrite Ep in Hs'. clear Hs.
  destruct x' as [p' rs]. simpl in Er, Hs'. subst rs.
  destruct (Connect_step cfg o k w) as [r w1] eqn:EC.
  destruct (connect_cases _ _ _ _ _ _ ths ctx d EC Hp I1)
    as [[-> [(e & -> & En)|[(n & -> & En & Hh)|(n & -> & En)]]]|
        [(n & -> & -> & En & ->)|[(n & e & -> & En & ->)|[(n & -> & En & Hh & ->)|(n & -> & En & ->)]]]];
    injection Hs' as <- <-.
  - apply (CInv_quiet w ths t x); auto. simpl. rewrite Ep. lia.
  - apply (CInv_quiet w ths t x); simpl; auto. rewrite Ep. lia.
  - apply (CInv_quiet w ths t x); simpl; auto. rewrite Ep. lia.
  - apply (CInv_caller w ths t x); simpl; auto.
    + unfold before, afterTok in *. simpl. rewrite sumf_app. simpl. unfold connTok at 2. simpl. lia.
    + intros n Hn. congruence.
    + intros n c [Hc|[_ [_ <-]%list_lookup_singleton_Some]]%lookup_app_Some; [by eapply I7|]. apply not_elem_of_nil.
    + split; [|done]. split; [done|]. eexists. split; [by apply list_lookup_middle|done].
  - apply (CInv_caller w ths t x); simpl; auto.
    + unfold before, afterTok in *. rewrite sumf_closeConn. simpl. lia.
    + intros m Hm. congruence.
    + intros m c [(-> & c0 & Hc & ->)|Hc]%lookup_updConn; [exact (I7 n c0 Hc)|exact (I7 m c Hc)].
  - apply (CInv_caller w ths t x); simpl; auto.
    + intros m Hm%I5. congruence.
    + by intros m [= <-].
  - apply (CInv_caller w ths t x); simpl; auto.
    + intros m [Hm|Hm]%elem_of_app; [by apply I5|]. apply list_elem_of_singleton in Hm. by subst.
Qed.

(** Writing the request. *)
Lemma CInv_write w ths t c n ch rs cn :
  CInv (w, ths) -> ths !! t = Some (TCaller (mkCaller (SWrite c n ch) rs)) ->
  cconn w = Some n -> cpending w = Some ch -> chans w !! ch = Some None -> conns w !! n = Some cn ->
  CInv (updConn n (fun c => mkConn (shut c) (broken c) (inq c) (asked c ++ [ch])) w,
        <[t:=TCaller (mkCaller (SWait c ch) rs)]> ths).
Proof.
  intros HI Ht En Ep Ech Hc. set (x := mkCaller (SWrite c n ch) rs) in *.
  pose proof (holder_mu w ths t x HI Ht eq_refl) as Hmu. pose proof (holder_waits w ths t x HI Ht eq_refl) as Hw.
  pose proof HI as [I1 I2 I3 I4 I5 I6 I7 I8]. simpl in I1, I2, I3, I4, I5, I6, I7, I8. rewrite Hw in I4. simpl in I4.
  destruct (I8 t _ Ht) as [_ Hr]. set (f := fun c => mkConn (shut c) (broken c) (inq c) (asked c ++ [ch])).
  apply (CInv_caller w ths t x); simpl; auto.
  - unfold before, afterTok in *. simpl. rewrite (sumf_alter _ _ _ _ _ Hc). unfold connTok at 2 3. simpl.
    rewrite length_app. simpl. lia.
  - intros m Hm. destruct (I6 m Hm) as (c0 & H0 & Hh). rewrite En in Hm. injection Hm as <-.
    apply (healthy_alter n f w c0 H0). exact Hh.
  - intros m c0 [(-> & c1 & H1 & ->)|H1]%(lookup_updConn n f); [exact (I7 n c1 H1)|exact (I7 m c0 H1)].
  - split; [|done]. split; [by eexists|]. split; [|done]. destruct (tokFor_empty w ths ch I4) as [T1 T2 T3]. split.
    + intros m c0 [(-> & c1 & H1 & ->)|H1]%(lookup_updConn n f); [|exact (T1 m c0 H1)].
      destruct (T1 n c1 H1) as [A1 A2]. split; [|exact A2]. simpl. intros r [Hr'|Hr']%elem_of_app; [by apply A1|].
      by apply list_elem_of_singleton in Hr'.
    + intros i th [(-> & <- & _)|[_ Hi]]%list_lookup_insert_Some; [done|]. exact (T2 i th Hi).
    + exact T3.
Qed.

(** The other steps of [send]. *)
Lemma CInv_send cfg o w ths t x x' w' :
  CInv (w, ths) -> ths !! t = Some (TCaller x) -> sendPoint (cpoint x) = true ->
  caller_step cfg o x w = Some (x', w') -> CInv (w', <[t:=TCaller x']> ths).
Proof.
  intros HI Ht Hx Hs.
  pose proof (holder_mu w ths t x HI Ht Hx) as Hmu. pose proof (holder_waits w ths t x HI Ht Hx) as Hw.
  pose proof HI as [I1 I2 I3 I4 I5 I6 I7 I8]. simpl in I1, I2, I3, I4, I5, I6, I7, I8. rewrite Hw in I4.
  destruct (I8 t _ Ht) as [Hp Hr].
  assert (Hctx : forall c, ctxIsDone c w = false) by (intros c; unfold ctxIsDone; rewrite I2; by apply bool_decide_eq_false).
  assert (Hq : forall p' w1, (x', w') = (mkCaller p' (results x), w1) -> cclosed w1 = cclosed w ->
    doneCtxs w1 = doneCtxs w -> answered w1 = answered w -> cconn w1 = cconn w -> conns w1 = conns w ->
    loopQ w1 = loopQ w -> sendMu w1 = true -> sendPoint p' = true ->
    sumf filledTok (chans w1) - sumf filledTok (chans w) = waits (TCaller (mkCaller p' [])) - waits (TCaller x) ->
    pointOk w1 (<[t:=TCaller (mkCaller p' (results x))]> ths) p' -> CInv (w', <[t:=TCaller x']> ths)).
  { intros p' w1 [= -> ->] ?????????. apply (CInv_quiet w ths t x); congruence. }
  unfold caller_step in Hs. destruct x as [p rs]. simpl in Hx, Hp, Hr, Hs, I4, Hq.
  destruct p as [|c|c|c d|c d k|c d|c d since|c n|c n ch|c n ch|c ch|ch e|n ch|n|n|ch r|k| |ch n|n]; try done.
  - simpl in Hs. injection Hs as <- <-. eapply Hq; try done; rewrite I1; destruct (cconn w) as [n|] eqn:En; try done;
      destruct (AutoReconnect cfg); try done; simpl; lia.
  - simpl in Hs. rewrite Hctx in Hs. injection Hs as <- <-. by eapply Hq; try done; simpl; lia.
  - by apply (CInv_connect cfg o w ths t (mkCaller (SConnect c d k) rs) k c d).
  - simpl in Hs. injection Hs as <- <-. eapply Hq; try done; destruct (cconn w) as [n|] eqn:En; try done; simpl; lia.
  - simpl in Hs. rewrite Hctx in Hs. simpl in Hs. destruct (d <=? clk o - since); [|done]. injection Hs as <- <-.
    by eapply Hq; try done; simpl; lia.
  - simpl in Hs. injection Hs as <- <-. eapply Hq; try done.
    + simpl. rewrite sumf_app. simpl. lia.
    + simpl in *. split; [done|]. split; [done|]. by apply list_lookup_middle.
  - destruct Hp as (En & Ep & Ech). destruct (I6 n En) as (cn & Hc & Hh). simpl in Hs. rewrite Hc in Hs. simpl in Hs.
    rewrite Hh, andb_false_r in Hs. injection Hs as <- <-. by eapply Hq; try done; simpl; lia.
  - destruct Hp as (En & Ep & Ech). destruct (I6 n En) as (cn & Hc & Hh). simpl in Hs. rewrite Hc in Hs. simpl in Hs.
    unfold healthy in Hh. apply andb_true_iff in Hh as [Hh1%negb_true_iff Hh2%negb_true_iff]. rewrite Hh1, Hh2 in Hs.
    injection Hs as <- <-. eapply CInv_write; eauto.
  - destruct Hp as ([y Hy] & Htf & Hpend). simpl in Hs. rewrite Hy in Hs. simpl in Hs. rewrite Hctx in Hs.
    destruct y as [r|]; [|done]. simpl in Hs. injection Hs as <- <-. eapply Hq; try done.
    + simpl. rewrite (sumf_insert _ _ _ _ _ Hy). simpl. lia.
    + destruct (tf_chans _ _ _ Htf ch r Hy) as [_ Hf]. exact Hf.
  - simpl in Hs. injection Hs as <- <-.
    apply (CInv_caller w ths t (mkCaller (SReturn ch r) rs)); simpl; auto.
    split; [done|]. apply Forall_app. split; [done|]. by apply Forall_singleton.
Qed.

(** ** Steps of the read loops and of the network *)

(** What the goroutine that waits for [ch] knows. *)
Definition waitOk (w : cworld) (ths : list cthread) (ch : nat) : Prop :=
  is_Some (chans w !! ch) /\ tokFor w ths ch /\ (0 < before w ths -> cpending w = Some ch).

(** If something is in flight, somebody waits for it. *)
Lemma in_flight_waiter w ths :
  CInv (w, ths) -> 1 <= before w ths + afterTok w ths ->
  before w ths + afterTok w ths = 1 /\ exists i c ch rs, ths !! i = Some (TCaller (mkCaller (SWait c ch) rs)) /\ waitOk w ths ch.
Proof.
  intros HI H. pose proof (ci_count _ HI) as Hc. pose proof (ci_mu _ HI) as Hm. pose proof (waits_sum ths) as Hs.
  simpl in Hc, Hm. split; [destruct (sendMu w); simpl in Hm; lia|].
  destruct (sumf_pos waits ths) as (i & th & Hi & Hp); [lia|].
  destruct th as [[p rs]| |]; simpl in Hp; try lia. destruct p; try lia. pose proof (ci_threads _ HI i _ Hi) as [Hok _]. simpl in Hok.
  exists i, ctx, ch, rs. done.
Qed.

Lemma CInv_other w ths t th th' w' :
  CInv (w, ths) -> ths !! t = Some th -> inSend th = 0 -> inSend th' = 0 ->
  cclosed w' = cclosed w -> doneCtxs w' = doneCtxs w -> sendMu w' = sendMu w -> cconn w' = cconn w ->
  (forall n, n ∈ loopQ w' -> n ∈ loopQ w) -> (forall n, healthyAt n w -> healthyAt n w') ->
  (forall n c, conns w' !! n = Some c -> MBad ∉ inq c) -> (forall y, y ∈ answered w -> y ∈ answered w') ->
  before w' (<[t:=th']> ths) + afterTok w' (<[t:=th']> ths) = before w ths + afterTok w ths ->
  threadOk w' (<[t:=th']> ths) th' ->
  (before w ths + afterTok w ths = 0 -> cpending w' = cpending w /\ chans w' = chans w) ->
  (forall ch, waitOk w ths ch -> waitOk w' (<[t:=th']> ths) ch) ->
  CInv (w', <[t:=th']> ths).
Proof.
  intros HI Ht S1 S2 E1 E2 E3 E4 Hq Hh Hg Ha Hn Hok H0 Hw.
  pose proof (waits_le th) as W1. pose proof (waits_le th') as W2.
  pose proof HI as [I1 I2 I3 I4 I5 I6 I7 I8]. simpl in I1, I2, I3, I4, I5, I6, I7, I8.
  split; simpl; try congruence.
  - rewrite (sumf_insert _ _ _ _ _ Ht), E3. lia.
  - rewrite Hn, (sumf_insert _ _ _ _ _ Ht). lia.
  - intros n Hn'. rewrite E4. auto.
  - intros n Hn'. rewrite E4 in Hn'. auto.
  - exact Hg.
  - intros i y Hi. destruct (decide (i = t)) as [->|Hne].
    { rewrite list_lookup_insert_eq in Hi by (by eapply lookup_lt_Some). by simplify_eq. }
    rewrite list_lookup_insert_ne in Hi by done. pose proof (I8 i y Hi) as H. destruct y as [[p rs]|p|ev]; simpl in *.
    + destruct H as [H1 H2]. split; [|eapply Forall_impl; [exact H2|]; intros z; by apply matched_mono].
      assert (Hpre : sendPoint p = true -> waits (TCaller (mkCaller p rs)) = 0 -> cpending w' = cpending w /\ chans w' = chans w).
      { intros Hp Hp0. apply H0. rewrite I4, (holder_waits w ths i _ HI Hi Hp). done. }
      destruct p as [| | | |c d k| | | | | | | | | | | | | | |]; simpl in *; rewrite ?E4; try done.
      * destruct k; try done; destruct H1; split; auto.
      * by destruct Hpre as [-> ->].
      * by destruct Hpre as [-> ->].
      * by apply Hw.
      * by apply (matched_mono w).
    + destruct H as [H1 H2]. split; [done|]. by rewrite E4.
    + done.
Qed.

(** The loops and the channels see only what changed. *)
Lemma tokFor_step w ths t th' w' ch :
  tokFor w ths ch -> (forall y, y ∈ answered w -> y ∈ answered w') ->
  (forall n c, conns w' !! n = Some c -> connFor w' ch c) ->
  (forall i r, chans w' !! i = Some (Some r) -> i = ch /\ fits w' ch r) -> loopFor w' ch th' ->
  tokFor w' (<[t:=th']> ths) ch.
Proof.
  intros [T1 T2 T3] Ha H1 H2 H3. split; [done| |done].
  assert (Hf : forall r, fits w ch r -> fits w' ch r) by (intros r (e & x & ? & ?); exists e, x; auto).
  intros i th [(-> & <- & _)|[_ Hi]]%list_lookup_insert_Some; [done|].
  specialize (T2 i th Hi). destruct th as [|[]|]; simpl in *; try done; [by apply Hf|]. destruct T2. split; auto.
Qed.

Lemma tok_lookup w ths i th : ths !! i = Some th -> handTok th + putTok th <= before w ths + afterTok w ths.
Proof.
  intros Hi. unfold before, afterTok. pose proof (sumf_lookup_le handTok ths i th ltac:(auto) Hi).
  pose proof (sumf_lookup_le putTok ths i th ltac:(auto) Hi).
  pose proof (sumf_nonneg connTok (conns w) ltac:(auto)). pose proof (sumf_nonneg filledTok (chans w) ltac:(auto)). lia.
Qed.

(** A read loop takes the next message from its connection. *)
Lemma CInv_read w ths t n c m q p' :
  CInv (w, ths) -> ths !! t = Some (TLoop (LRead n)) -> conns w !! n = Some c -> inq c = m :: q ->
  match m with MReply e x => p' = LDeliver n (respOf e x) | MOther _ => p' = LRead n | MBad => False end ->
  CInv (updConn n (fun c => mkConn (shut c) (broken c) q (asked c)) w, <[t:=TLoop p']> ths).
Proof.
  intros HI Ht Hc Eq Hm. set (f := fun c => mkConn (shut c) (broken c) q (asked c)).
  pose proof HI as [I1 I2 I3 I4 I5 I6 I7 I8]. simpl in I1, I2, I3, I4, I5, I6, I7, I8.
  destruct (I8 t _ Ht) as [_ Hl]. specialize (Hl n eq_refl).
  assert (Ecount : handTok (TLoop p') + connTok (f c) = connTok c /\ putTok (TLoop p') = 0).
  { unfold connTok. rewrite Eq. destruct m; simplify_eq; simpl; lia. }
  assert (Hsub : forall e x, MReply e x ∈ q -> MReply e x ∈ inq c) by (intros; rewrite Eq; by right).
  apply (CInv_other w ths t (TLoop (LRead n))); try done.
  - intros k (c0 & H0 & Hh). destruct (decide (k = n)) as [->|Hne].
    + by apply (healthy_alter n f w c0 H0).
    + exists c0. split; [|done]. unfold updConn. simpl. by rewrite list_lookup_alter_ne.
  - intros k c0 [(-> & c1 & H1 & ->)|H1]%(lookup_updConn n f); [|exact (I7 k c0 H1)].
    rewrite Hc in H1. injection H1 as <-. simpl. intros Hb. apply (I7 n c Hc). rewrite Eq. by right.
  - unfold before, afterTok. simpl. rewrite (sumf_alter _ _ _ _ _ Hc), !(sumf_insert _ _ _ _ _ Ht). fold f. simpl in *. lia.
  - simpl. split; [by destruct m; simplify_eq|]. intros k Hk.
    destruct m; try done; subst p'; simpl in Hk; injection Hk as <-; exact Hl.
  - intros ch (W1 & W2 & W3). split; [done|]. split.
    + apply (tokFor_step w ths); try done.
      * intros k c0 [(-> & c1 & H1 & ->)|H1]%(lookup_updConn n f); [|exact (tf_conns _ _ _ W2 k c0 H1)].
        rewrite Hc in H1. injection H1 as <-. destruct (tf_conns _ _ _ W2 n c Hc) as [A1 A2]. split; [exact A1|]. simpl. auto.
      * exact (tf_chans _ _ _ W2).
      * destruct m as [e x| |ty]; simplify_eq; simpl; [|done..]. exists e, x. split; [|done].
        destruct (tf_conns _ _ _ W2 n c Hc) as [_ A2]. apply A2. rewrite Eq. by left.
    + intros Hb. apply W3. pose proof (before_nonneg w ths). unfold before in *. simpl in Hb.
      rewrite (sumf_alter _ _ _ _ _ Hc), (sumf_insert _ _ _ _ _ Ht) in Hb. fold f in Hb. simpl in *. lia.
Qed.

(** A read loop takes the pending request. *)
Lemma CInv_deliver w ths t n r :
  CInv (w, ths) -> ths !! t = Some (TLoop (LDeliver n r)) ->
  CInv (set_cpending None w, <[t:=TLoop (LPut n (cpending w) r)]> ths).
Proof.
  intros HI Ht. pose proof HI as [I1 I2 I3 I4 I5 I6 I7 I8]. simpl in I1, I2, I3, I4, I5, I6, I7, I8.
  destruct (I8 t _ Ht) as [_ Hl]. pose proof (tok_lookup w ths t _ Ht) as H1. simpl in H1.
  assert (Hb : 1 <= before w ths).
  { unfold before. pose proof (sumf_lookup_le handTok ths t _ ltac:(auto) Ht) as H2. simpl in H2.
    pose proof (sumf_nonneg connTok (conns w) ltac:(auto)). lia. }
  destruct (in_flight_waiter w ths HI H1) as [Hone _].
  assert (Hb' : before (set_cpending None w) (<[t:=TLoop (LPut n (cpending w) r)]> ths) = before w ths - 1).
  { unfold before. simpl. rewrite (sumf_insert _ _ _ _ _ Ht). simpl. lia. }
  apply (CInv_other w ths t (TLoop (LDeliver n r))); try done.
  - rewrite Hb'. unfold afterTok. simpl. rewrite (sumf_insert _ _ _ _ _ Ht). simpl. lia.
  - lia.
  - intros ch (W1 & W2 & W3). split; [done|]. split.
    + apply (tokFor_step w ths); try done; [exact (tf_conns _ _ _ W2)|exact (tf_chans _ _ _ W2)|].
      simpl. split; [apply W3; lia|]. exact (tf_loops _ _ _ W2 t _ Ht).
    + rewrite Hb'. pose proof (afterTok_nonneg w ths). lia.
Qed.

(** A read loop puts the reply into the channel of the request. *)
Lemma CInv_put w ths t n p r :
  CInv (w, ths) -> ths !! t = Some (TLoop (LPut n p r)) -> CInv (put p r w, <[t:=TLoop (LRead n)]> ths).
Proof.
  intros HI Ht. pose proof HI as [I1 I2 I3 I4 I5 I6 I7 I8]. simpl in I1, I2, I3, I4, I5, I6, I7, I8.
  destruct (I8 t _ Ht) as [_ Hl]. pose proof (tok_lookup w ths t _ Ht) as H1. simpl in H1.
  destruct (in_flight_waiter w ths HI H1) as [Hone (i & c & ch & rs & Hi & W1 & W2 & W3)].
  destruct (tf_loops _ _ _ W2 t _ Ht) as [-> Hf]. destruct W1 as [y Hy].
  assert (Hput : 1 <= sumf putTok ths) by (pose proof (sumf_lookup_le putTok ths t _ ltac:(auto) Ht); done).
  assert (Hz : before w ths = 0 /\ sumf filledTok (chans w) = 0).
  { pose proof (before_nonneg w ths). pose proof (sumf_nonneg filledTok (chans w) ltac:(auto)). unfold afterTok in Hone. lia. }
  destruct Hz as [Hb0 Hf0].
  assert (y = None) as ->.
  { pose proof (sumf_zero_lookup filledTok (chans w) ch y ltac:(auto) Hf0 Hy). by destruct y. }
  set (w' := put (Some ch) r w).
  assert (Hb' : before w' (<[t:=TLoop (LRead n)]> ths) = 0).
  { unfold before in *. simpl. rewrite (sumf_insert _ _ _ _ _ Ht). simpl. lia. }
  apply (CInv_other w ths t (TLoop (LPut n (Some ch) r))); try done.
  - rewrite Hb', Hb0. unfold afterTok. simpl. rewrite (sumf_insert _ _ _ _ _ Ht), (sumf_alter _ _ _ _ _ Hy). simpl. lia.
  - lia.
  - intros ch' (V1 & V2 & V3). destruct (tf_loops _ _ _ V2 t _ Ht) as [[= <-] _]. split; [|split].
    + simpl. by rewrite list_lookup_alter_eq, Hy.
    + apply (tokFor_step w ths); try done; [exact (tf_conns _ _ _ V2)|]. simpl. intros j r' Hj.
      destruct (decide (j = ch)) as [->|Hne]; [|rewrite list_lookup_alter_ne in Hj by done; exact (tf_chans _ _ _ V2 j r' Hj)].
      rewrite list_lookup_alter_eq, Hy in Hj. injection Hj as <-. done.
    + rewrite Hb'. lia.
Qed.

Lemma CInv_loop o w ths t p p' w' :
  CInv (w, ths) -> ths !! t = Some (TLoop p) -> readLoop_step o p w = Some (p', w') ->
  CInv (w', <[t:=TLoop p']> ths).
Proof.
  intros HI Ht Hs. pose proof HI as [I1 I2 I3 I4 I5 I6 I7 I8]. simpl in I1, I2, I3, I4, I5, I6, I7, I8.
  destruct (I8 t _ Ht) as [Hok Hl]. destruct p as [|n|n r|n ch r|n e|n ch e|n]; simpl in Hs; try done.
  - apply bind_Some in Hs as (n & Hn & Hs). injection Hs as <- <-.
    apply (CInv_other w ths t (TLoop LIdle)); try done.
    + simpl. intros m [i Hi]%list_elem_of_lookup. rewrite list_lookup_delete in Hi. by eapply list_elem_of_lookup_2.
    + unfold before, afterTok. simpl. rewrite !(sumf_insert _ _ _ _ _ Ht). simpl. lia.
    + simpl. split; [done|]. simpl. intros m [= <-]. apply I5. by eapply list_elem_of_lookup_2.
    + intros ch (W1 & W2 & W3). split; [done|]. split.
      * apply (tokFor_step w ths); try done; [exact (tf_conns _ _ _ W2)|exact (tf_chans _ _ _ W2)].
      * unfold before in *. simpl. rewrite (sumf_insert _ _ _ _ _ Ht). simpl. intros. apply W3. lia.
  - destruct (I6 n (Hl n eq_refl)) as (c & Hc & Hh). rewrite Hc in Hs. simpl in Hs. rewrite Hh in Hs. simpl in Hs.
    destruct (inq c) as [|m q] eqn:Eq; [done|]. injection Hs as <- <-. apply (CInv_read w ths t n c m q); try done.
    destruct m; try done. apply (I7 n c Hc). rewrite Eq. by left.
  - injection Hs as <- <-. by apply CInv_deliver.
  - injection Hs as <- <-. by apply CInv_put.
Qed.

(** The network changes one connection. *)
Lemma CInv_network w ths t ev n f w' :
  CInv (w, ths) -> ths !! t = Some (TNet ev) ->
  (forall c, healthy (f c) = healthy c) -> (forall c, conns w !! n = Some c -> connTok (f c) = connTok c) ->
  (forall c, MBad ∉ inq c -> MBad ∉ inq (f c)) ->
  w' = set_answered (answered w') (updConn n f w) -> (forall y, y ∈ answered w -> y ∈ answered w') ->
  (forall ch c, conns w !! n = Some c -> connFor w ch c -> connFor w' ch (f c)) ->
  CInv (w', <[t:=TNet None]> ths).
Proof.
  intros HI Ht F1 F2 F3 Ew Ha Hf. pose proof HI as [I1 I2 I3 I4 I5 I6 I7 I8]. simpl in I1, I2, I3, I4, I5, I6, I7, I8.
  assert (Ec : conns w' = alter f n (conns w)) by (by rewrite Ew).
  assert (Hlook : forall k c, conns w' !! k = Some c -> (k = n /\ exists c0, conns w !! n = Some c0 /\ c = f c0) \/ conns w !! k = Some c).
  { intros k c Hk. apply (lookup_updConn n f). unfold updConn. simpl. by rewrite <- Ec. }
  assert (Es : sumf connTok (conns w') = sumf connTok (conns w)).
  { rewrite Ec. destruct (conns w !! n) as [c|] eqn:E; [rewrite (sumf_alter _ _ _ _ _ E), (F2 c eq_refl); lia|].
    f_equal. apply list_eq. intros i. destruct (decide (i = n)) as [->|].
    - by rewrite list_lookup_alter_eq, E.
    - by rewrite list_lookup_alter_ne. }
  apply (CInv_other w ths t (TNet ev)); try done; try (by rewrite Ew).
  - intros k (c & Hc & Hh). destruct (decide (k = n)) as [->|Hne].
    + exists (f c). by rewrite Ec, list_lookup_alter_eq, Hc, F1.
    + exists c. by rewrite Ec, list_lookup_alter_ne.
  - intros k c [(-> & c0 & H0 & ->)|Hc]%Hlook; [apply F3, (I7 n c0 H0)|exact (I7 k c Hc)].
  - unfold before, afterTok. rewrite Es, !(sumf_insert _ _ _ _ _ Ht), Ew. simpl. lia.
  - intros ch (W1 & W2 & W3). split; [by rewrite Ew|]. split.
    + apply (tokFor_step w ths); try done.
      * intros k c [(-> & c0 & H0 & ->)|Hc]%Hlook; [exact (Hf ch c0 H0 (tf_conns _ _ _ W2 n c0 H0))|].
        destruct (tf_conns _ _ _ W2 k c Hc) as [A1 A2]. split; [done|]. intros e x Hq. by apply Ha, A2.
      * rewrite Ew. intros i r Hi. destruct (tf_chans _ _ _ W2 i r Hi) as [-> (e & x & H1 & H2)]. split; [done|].
        exists e, x. split; [by apply Ha|done].
    + unfold before in *. rewrite Es, (sumf_insert _ _ _ _ _ Ht), Ew. simpl. intros. apply W3. lia.
Qed.

Lemma CInv_net w ths t ev w' :
  CInv (w, ths) -> ths !! t = Some (TNet (Some ev)) -> network ev w = Some w' -> CInv (w', <[t:=TNet None]> ths).
Proof.
  intros HI Ht Hs. pose proof (ci_threads _ HI t _ Ht) as Hc. simpl in Hc.
  destruct ev as [| | |n i e x|n ty| |]; try done; simpl in Hs.
  - apply bind_Some in Hs as (c & Hn & Hs). apply bind_Some in Hs as (r & Hr & Hs). injection Hs as <-.
    apply (CInv_network w ths t (Some (Answer n i e x)) n
      (fun c => mkConn (shut c) (broken c) (inq c ++ [MReply e x]) (delete i (asked c)))); try done.
    + intros c0 H0. rewrite Hn in H0. injection H0 as <-. unfold connTok. simpl. rewrite sumf_app. simpl.
      pose proof (lookup_lt_Some _ _ _ Hr). rewrite length_delete by eauto. lia.
    + simpl. intros c0 Hb [?|Hq]%elem_of_app; [done|]. by apply list_elem_of_singleton in Hq.
    + simpl. intros y Hy. apply elem_of_app. by left.
    + intros ch c0 H0 [A1 A2]. rewrite Hn in H0. injection H0 as <-. split; simpl.
      * intros r' [j Hj]%list_elem_of_lookup. apply A1. rewrite list_lookup_delete in Hj. by eapply list_elem_of_lookup_2.
      * intros e' x' [Hq|Hq]%elem_of_app; apply elem_of_app; [left; by apply A2|right].
        apply list_elem_of_singleton in Hq. injection Hq as -> ->. rewrite (A1 r) by (by eapply list_elem_of_lookup_2).
        by apply list_elem_of_singleton.
  - injection Hs as <-. apply (CInv_network w ths t (Some (Push n ty)) n
      (fun c => mkConn (shut c) (broken c) (inq c ++ [MOther ty]) (asked c))); try done.
    + intros c0 _. unfold connTok. simpl. rewrite sumf_app. simpl. lia.
    + simpl. intros c0 Hb [?|Hq]%elem_of_app; [done|]. by apply list_elem_of_singleton in Hq.
    + intros ch c0 H0 [A1 A2]. split; [done|]. simpl. intros e' x' [Hq|Hq]%elem_of_app; [by apply A2|].
      by apply list_elem_of_singleton in Hq.
Qed.

(** [sendMu] is taken. *)
Lemma CInv_lock w ths t ctx rs :
  CInv (w, ths) -> ths !! t = Some (TCaller (mkCaller (SLock ctx) rs)) -> sendMu w = false ->
  CInv (set_sendMu true w, <[t:=TCaller (mkCaller (SCheck ctx) rs)]> ths).
Proof.
  intros HI Ht Hm. pose proof HI as [I1 I2 I3 I4 I5 I6 I7 I8]. simpl in I1, I2, I3, I4, I5, I6, I7, I8.
  split; simpl; try done.
  - rewrite (sumf_insert _ _ _ _ _ Ht), I3, Hm. simpl. lia.
  - unfold before, afterTok in *. simpl. rewrite !(sumf_insert _ _ _ _ _ Ht). simpl. lia.
  - intros i y Hi. destruct (decide (i = t)) as [->|Hne].
    { rewrite list_lookup_insert_eq in Hi by (by eapply lookup_lt_Some). injection Hi as <-. split; [done|].
      by destruct (I8 t _ Ht). }
    rewrite list_lookup_insert_ne in Hi by done. pose proof (I8 i y Hi) as H. destruct y as [y|p|ev]; try done. simpl in *.
    destruct H as [H1 H2]. split; [|done]. eapply outside_ok; [|exact H1].
    pose proof (sumf_lookup_le inSend ths i _ ltac:(auto) Hi) as H3. rewrite I3, Hm in H3. simpl in H3.
    by destruct (sendPoint (cpoint y)).
Qed.

(** C25: every reply reaches the request it answers.  As long as no context is
    cancelled, no connection breaks and the user calls nothing but methods
    that send a request, every [send] that returns a reply of the server
    returns the server's answer to its own request, for any number of
    concurrent callers, whatever else the server sends and however often
    attempts to connect fail. *)
Theorem replies_matched cfg callers loops nets w ths t th ch r :
  reach (clientMachine cfg) undisturbed (clientStart callers loops nets) (w, ths) ->
  ths !! t = Some (TCaller th) -> (Some ch, r) ∈ results th ->
  exists isErr text, (ch, isErr, text) ∈ answered w /\ r = respOf isErr text.
Proof.
  intros HR Ht Hr. assert (HI : CInv (w, ths)).
  { apply (reach_invariant (clientMachine cfg) undisturbed CInv (clientStart callers loops nets)) with (c := (w, ths));
      [| | | |done].
    - unfold clientStart. split; try done.
      + simpl. by rewrite !sumf_app, !sumf_replicate.
      + unfold before, afterTok. simpl. by rewrite !sumf_app, !sumf_replicate.
      + simpl. intros n Hn. by apply not_elem_of_nil in Hn.
      + simpl. intros i x Hi. apply list_elem_of_lookup_2 in Hi. rewrite !elem_of_app, !elem_of_replicate in Hi.
        destruct Hi as [[-> _]|[[-> _]|[-> _]]]; simpl; done.
    - intros sh l u x x' op now HI HP Hu Hc.
      assert (Hsame : inSend x = 0 /\ inSend x' = 0 /\ handTok x' = handTok x /\ putTok x' = putTok x /\
        threadOk sh (<[u:=x']> l) x' /\ forall ch, loopFor sh ch x').
      { pose proof (ci_threads _ HI u x Hu) as Hx. unfold clientMachine, ccall in Hc. simpl in Hc, Hx.
        repeat case_match; simplify_eq; simpl in *; try done; destruct Hx; done. }
      destruct Hsame as (S1 & S2 & S3 & S4 & S5 & S6).
      assert (Eb : before sh (<[u:=x']> l) = before sh l /\ afterTok sh (<[u:=x']> l) = afterTok sh l).
      { unfold before, afterTok. rewrite !(sumf_insert _ _ _ _ _ Hu). lia. }
      destruct Eb as [Eb1 Eb2]. apply (CInv_other sh l u x); try done; [exact (ci_good _ HI)|lia|].
      intros c (W1 & W2 & W3). split; [done|]. rewrite Eb1. split; [|done].
      apply (tokFor_step sh l); try done; [exact (tf_conns _ _ _ W2)|exact (tf_chans _ _ _ W2)].
    - intros sh l u x x' sh' o HI HP Hu Hs. simpl in Hs. destruct x as [x|p|[ev|]]; try done; simpl in Hs.
      + apply bind_Some in Hs as ([y w1] & Hy & Hs). injection Hs as <- <-.
        destruct (sendPoint (cpoint x)) eqn:Ex; [by eapply CInv_send|].
        pose proof (ci_threads _ HI u _ Hu) as [Hp _]. destruct x as [p rs]. simpl in *.
        destruct p; try done. unfold caller_step in Hy. simpl in Hy.
        destruct (sendMu sh) eqn:Em; [done|]. injection Hy as <- <-. by apply CInv_lock.
      + apply bind_Some in Hs as ([y w1] & Hy & Hs). injection Hs as <- <-. by eapply CInv_loop.
      + apply bind_Some in Hs as (w1 & Hy & Hs). injection Hs as <- <-. by eapply CInv_net.
    - done. }
  pose proof (ci_threads _ HI t _ Ht) as [_ Hm]. simpl in Hm. exact (proj1 (Forall_forall _ _) Hm _ Hr).
Qed.

(** * Concrete executions *)

Definition sampleClient : ClientConfig := mkClientConfig "ws" "" 1 10 0 true.
Definition sampleClients : machine cworld cthread cop := clientMachine sampleClient.

(** Goroutine 0 calls [send], goroutine 1 is the read loop, goroutine 2 the
    network, goroutine 3 the read loop of a second connection. *)
Definition clients0 : Prelude.config (Sh:=cworld) (Th:=cthread) :=
  (newClient, [TCaller (mkCaller CIdle []); TLoop LIdle; TNet None; TLoop LIdle]).

Definition sendWith (ctx n : nat) : list (label cop) := Call 0%nat (Send ctx) 0 :: runs 0 n.
Definition netEvent (ev : cop) : list (label cop) := [Call 2%nat ev 0; Run 2%nat o0].
(** The first [send] connects and waits; the read loop starts. *)
Definition firstSend : list (label cop) := sendWith 0 12 ++ runs 1 1.
(** The server answers a request of connection [n] and loop [t] delivers. *)
Definition answer (n t : nat) (text : string) : list (label cop) := netEvent (Answer n 0 false text) ++ runs t 3.

Definition resultsOf (c : Prelude.config (Sh:=cworld) (Th:=cthread)) : list (option nat * response) :=
  match c.2 with TCaller x :: _ => results x | _ => [] end.

Definition goodRun : list (label cop) := firstSend ++ answer 0 1 "one" ++ runs 0 2.

Lemma replies_matched_witness :
  exists isErr text, (0%nat, isErr, text) ∈ answered (after sampleClients goodRun (clientStart 1 1 1)).1 /\
    mkResp "one" None = respOf isErr text.
Proof.
  set (c := after sampleClients goodRun (clientStart 1 1 1)).
  refine (replies_matched sampleClient 1 1 1 c.1 c.2 0 (mkCaller CIdle [(Some 0%nat, mkResp "one" None)]) 0 (mkResp "one" None)
            _ _ _).
  - apply (execs_reach sampleClients undisturbed goodRun); [|by_eval].
    repeat (constructor; [exact I|]). constructor.
  - by_eval.
  - simpl. left.
Defined.

(** A [send] is cancelled, the next one is sent, and the server answers the
    first. *)
Definition cancelRun : list (label cop) :=
  firstSend ++ [Cancel 0] ++ runs 0 3 ++ sendWith 1 5 ++ answer 0 1 "one" ++ runs 0 2.

(** Cancelling a [send] shifts the replies: the answer to the request that
    was given up is returned by the next [send] as its own. *)
Theorem cancel_shifts_replies :
  exists w ths, reach sampleClients any_label clients0 (w, ths) /\
    resultsOf (w, ths) = [(None, failure ErrCtx); (Some 1%nat, mkResp "one" None)] /\
    answered w = [(0%nat, false, "one")].
Proof.
  exists (after sampleClients cancelRun clients0).1, (after sampleClients cancelRun clients0).2.
  split; [apply (execs_reach sampleClients any_label cancelRun); [apply Forall_any|by_eval]|].
  split; by_eval.
Qed.

(** The connection breaks; a write fails; the next [send] connects again and
    writes; only now the read loop of the old connection sees the error and
    fails the pending request, which is the new one. *)
Definition writeErrorRun : list (label cop) :=
  firstSend ++ answer 0 1 "one" ++ runs 0 2 ++ netEvent (Break 0) ++
  sendWith 1 4 ++ [Run 0%nat (Oracle true 0 0)] ++ runs 0 4 ++
  sendWith 2 12 ++ runs 3 1 ++ runs 1 4 ++ runs 0 2 ++
  sendWith 3 5 ++ answer 1 3 "three" ++ runs 0 2.

(** A lost connection shifts the replies, without any cancellation.
    After a failed write the read loop of the old connection is still running;
    when it sees the error it fails the request that is pending by then, which
    was sent on the new connection.  That request is answered later, and its
    answer is returned by the next [send], and so on for all that follow. *)
Theorem write_error_shifts_replies :
  exists w ths, reach sampleClients no_cancel clients0 (w, ths) /\
    resultsOf (w, ths) =
      [(Some 0%nat, mkResp "one" None); (None, failure ErrWrite); (Some 2%nat, failure ErrRead);
       (Some 3%nat, mkResp "three" None)] /\
    answered w = [(0%nat, false, "one"); (2%nat, false, "three")].
Proof.
  exists (after sampleClients writeErrorRun clients0).1, (after sampleClients writeErrorRun clients0).2.
  split; [apply (execs_reach sampleClients no_cancel writeErrorRun); [|by_eval]|].
  - repeat (constructor; [exact I|]). constructor.
  - split; by_eval.
Qed.

(** The read loop has taken [pending] and not yet closed the connection when
    a [send] leaves its channel and writes. *)
Definition hangRun : list (label cop) :=
  firstSend ++ answer 0 1 "one" ++ runs 0 2 ++ sendWith 1 2 ++ netEvent (Break 0) ++ runs 1 2 ++ runs 0 3 ++ runs 1 2.

(** A [send] can wait for ever.  It has the connection in hand while the
    read loop fails it: the loop takes the pending request, there is none yet,
    the [send] leaves its channel and writes to the broken connection with
    success, and no read loop is left to answer it.  No goroutine of the
    client can move. *)
Theorem send_hangs :
  exists w ths, reach sampleClients no_cancel clients0 (w, ths) /\
    (exists rs, ths !! 0%nat = Some (TCaller (mkCaller (SWait 1 1) rs))) /\
    forall t o, exec sampleClients (Run t o) (w, ths) = None.
Proof.
  exists (after sampleClients hangRun clients0).1, (after sampleClients hangRun clients0).2.
  split; [apply (execs_reach sampleClients no_cancel hangRun); [|by_eval]|].
  - repeat (constructor; [exact I|]). constructor.
  - split; [eexists; by_eval|]. intros t o. do 4 (destruct t as [|t]; [by_eval|]). by destruct t.
Qed.
