(* ===== verification/Syncctl.v ===== *)
(** * The command line (cmd/syncctl/main.go)

    The arguments are split by [splitGlobalArgs] and parsed by Go's package
    [flag], which is modelled ([flagParse]); a command builds its message,
    sends it and waits for the reply.  The connection is the list of messages
    the client will read from it, the end of the list a failed read; dialling
    and writing succeed or fail as given.  Numbers and durations are parsed
    and printed by functions that are arguments; numbers in the statistics
    are integers. *)

From Stdlib Require Import ZArith Lia Ascii.
From stdpp Require Import base list gmap strings sorting pretty.
From S2P Require Import Prelude.
From S2P Require Import Auth.
From S2P Require Import Access.
From S2P Require Import Server.
From S2P Require Import ClientAPI.

#[local] Open Scope Z_scope.

(** ** Package flag *)

Inductive fval := FStr (s : string) | FInt (z : Z) | FBool (b : bool) | FDur (ns : Z).

Inductive flagErr := BadSyntax (arg : string) | NotDefined (name : string) | Help | NeedsArgument (name : string)
| InvalidValue (name value : string).

(** The name and, after the first [=] that is not its first byte, the
    value. *)
Fixpoint cutEq (s : string) : string * option string :=
  match s with
  | EmptyString => ("", None)
  | String c r =>
      if decide (c = "="%char) then ("", Some r) else let '(n, v) := cutEq r in (String c n, v)
  end.

Inductive argClass := Stop | Terminator | Bad | Flag (name : string) (val : option string).

Definition classifyName (name : string) : argClass :=
  match name with
  | EmptyString => Bad
  | String c r =>
      if decide (c = "-"%char \/ c = "="%char) then Bad
      else let '(n, v) := cutEq r in Flag (String c n) v
  end.

Definition classify (s : string) : argClass :=
  match s with
  | String "-" (String "-" EmptyString) => Terminator
  | String "-" (String "-" name) => classifyName name
  | String "-" (String c r) => classifyName (String c r)
  | _ => Stop
  end.

Section Syncctl.
Context (parseInt parseDuration : string -> option Z) (parseBool : string -> option bool).

(** [Value.Set] *)
Definition setFlag (old : fval) (v : string) : option fval :=
  match old with
  | FStr _ => Some (FStr v)
  | FInt _ => FInt <$> parseInt v
  | FBool _ => FBool <$> parseBool v
  | FDur _ => FDur <$> parseDuration v
  end.

(** [FlagSet.Parse]: the values and the arguments that are left. *)
Fixpoint flagParse (vals : gmap string fval) (args : list string) : flagErr + gmap string fval * list string :=
  match args with
  | [] => inr (vals, [])
  | a :: rest =>
      match classify a with
      | Stop => inr (vals, a :: rest)
      | Terminator => inr (vals, rest)
      | Bad => inl (BadSyntax a)
      | Flag name v =>
          match vals !! name, v, rest with
          | None, _, _ => inl (if decide (name = "help" \/ name = "h") then Help else NotDefined name)
          | Some (FBool b), None, _ => flagParse (<[name:=FBool true]> vals) rest
          | Some old, Some v, _ =>
              match setFlag old v with
              | Some x => flagParse (<[name:=x]> vals) rest
              | None => inl (InvalidValue name v)
              end
          | Some old, None, v :: rest =>
              match setFlag old v with
              | Some x => flagParse (<[name:=x]> vals) rest
              | None => inl (InvalidValue name v)
              end
          | Some _, None, [] => inl (NeedsArgument name)
          end
      end
  end.

Definition strOf (vals : gmap string fval) (k : string) : string :=
  match vals !! k with Some (FStr s) => s | _ => "" end.
Definition intOf (vals : gmap string fval) (k : string) : Z :=
  match vals !! k with Some (FInt z) | Some (FDur z) => z | _ => 0 end.
Definition boolOf (vals : gmap string fval) (k : string) : bool :=
  match vals !! k with Some (FBool b) => b | _ => false end.

(** ** Global arguments *)

Record config := mkCliConfig { server : string; apiKey : string; asJSON : bool; timeout : Z; insecure : bool }.

Definition defaultServerURL : string := "ws://localhost:8085/ws".
Definition defaultTimeout : Z := 30000000000.     (* ns *)

Definition hasInlineValue (arg : string) : bool := bool_decide ("="%char ∈ bytesOf arg).

Definition flagNeedsValue (arg : string) : bool :=
  bool_decide ((cutEq arg).1 ∈ ["--server"; "--api-key"; "--timeout"]).

Definition hasDash (a : string) : bool := match a with String "-" _ => true | _ => false end.

Fixpoint splitGlobalArgs (args : list string) : string + list string * string * list string :=
  match args with
  | [] => inr ([], "help", [])
  | a :: rest =>
      if decide (a = "--") then
        match rest with
        | [] => inl "missing command after --"
        | c :: r => inr ([], c, r)
        end
      else if negb (hasDash a) then inr ([], a, rest)
      else if hasInlineValue a || negb (flagNeedsValue a) then
        match splitGlobalArgs rest with inr (g, c, r) => inr (a :: g, c, r) | inl e => inl e end
      else
        match rest with
        | [] => inl ("flag requires value: " +:+ a)
        | v :: rest =>
            match splitGlobalArgs rest with inr (g, c, r) => inr (a :: v :: g, c, r) | inl e => inl e end
        end
  end.

Context (flagError : flagErr -> string).

Definition parseArgs (args : list string) (getenv : string -> string) : string + config * string * list string :=
  let srv := if decide (getenv "SYNCPRIM_SERVER" = "") then defaultServerURL else getenv "SYNCPRIM_SERVER" in
  match splitGlobalArgs args with
  | inl e => inl e
  | inr (g, c, r) =>
      let vals : gmap string fval :=
        <["server":=FStr srv]> (<["api-key":=FStr (getenv "SYNCPRIM_API_KEY")]> (<["json":=FBool false]>
          (<["timeout":=FDur defaultTimeout]> {["insecure":=FBool false]}))) in
      match flagParse vals g with
      | inl e => inl (flagError e)
      | inr (vals, _) =>
          if intOf vals "timeout" <=? 0 then inl "--timeout must be positive"
          else inr (mkCliConfig (strOf vals "server") (strOf vals "api-key") (boolOf vals "json")
                      (intOf vals "timeout") (boolOf vals "insecure"), c, r)
      end
  end.

(** ** Messages *)

Definition buildCreateMessage (ptype id name : string) (capacity parties : Z) : string + apiRequest :=
  let base := idName id name in
  if decide (ptype = "rwlock") then inr (mkReq "createRWLock" base)
  else if decide (ptype = "semaphore") then
    if capacity <=? 0 then inl "semaphore requires --capacity > 0"
    else inr (mkReq "createSemaphore" (<["capacity":=VInt capacity]> base))
  else if decide (ptype = "mutex") then inr (mkReq "createMutex" base)
  else if decide (ptype = "condvar") then inr (mkReq "createCondVar" base)
  else if decide (ptype = "barrier") then
    if parties <=? 0 then inl "barrier requires --parties > 0"
    else inr (mkReq "createBarrier" (<["parties":=VInt parties]> base))
  else if decide (ptype = "waitgroup") then inr (mkReq "createWaitGroup" base)
  else if decide (ptype = "once") then inr (mkReq "createOnce" base)
  else if decide (ptype = "singleflight") then inr (mkReq "createSingleflight" base)
  else inl ("unsupported primitive type: " +:+ ptype).

(** [strings.ToLower] on the ASCII letters. *)
Definition lowerChar (c : ascii) : ascii :=
  let n := nat_of_ascii c in if ((65 <=? n) && (n <=? 90))%nat then ascii_of_nat (n + 32) else c.
Fixpoint ToLower (s : string) : string :=
  match s with EmptyString => "" | String c r => String (lowerChar c) (ToLower r) end.

Definition canonicalTypeName (ptype : string) : string :=
  let l := ToLower ptype in
  if decide (l = "rwlock") then "RWLock"
  else if decide (l = "semaphore") then "Semaphore"
  else if decide (l = "mutex") then "Mutex"
  else if decide (l = "condvar") then "CondVar"
  else if decide (l = "barrier") then "Barrier"
  else if decide (l = "waitgroup") then "WaitGroup"
  else if decide (l = "once") then "Once"
  else if decide (l = "singleflight") then "Singleflight"
  else ptype.

(** ** Primitives as shown *)

(** A value of the statistics, as the JSON decoder leaves it. *)
Inductive sval := SBool (b : bool) | SNum (z : Z) | SOther (shown : string).

Record primitiveInfo := mkPrim {
  pID : string; pType : string; pName : string; pCreatedAt : option Z; pBlockedCount : Z; pStats : gmap string sval
}.

Definition asInt64 (v : option sval) : Z := match v with Some (SNum z) => z | _ => 0 end.
Definition asBool (v : option sval) : bool := match v with Some (SBool b) => b | _ => false end.

Definition summarizeState (p : primitiveInfo) : string :=
  let s := pStats p in
  if decide (pType p = "Mutex") then if asBool (s !! "IsLocked") then "locked" else "unlocked"
  else if decide (pType p = "RWLock") then
    if asBool (s !! "WriterHeld") then "writer-held"
    else if 0 <? asInt64 (s !! "CurrentReaders") then pretty (asInt64 (s !! "CurrentReaders")) +:+ " readers"
    else "idle"
  else if decide (pType p = "Semaphore") then
    if 0 <? asInt64 (s !! "Capacity")
    then pretty (asInt64 (s !! "CurrentCount")) +:+ "/" +:+ pretty (asInt64 (s !! "Capacity")) +:+ " available"
    else "active"
  else if decide (pType p = "Barrier") then
    if 0 <? asInt64 (s !! "Parties")
    then pretty (asInt64 (s !! "Arrived")) +:+ "/" +:+ pretty (asInt64 (s !! "Parties")) +:+ " arrived"
    else "active"
  else if decide (pType p = "WaitGroup") then "count=" +:+ pretty (asInt64 (s !! "Count"))
  else if decide (pType p = "Once") then if asBool (s !! "Done") then "done" else "pending"
  else "active".

Definition withDefaultID (id : string) (p : primitiveInfo) : primitiveInfo :=
  if decide (pID p = "") then mkPrim id (pType p) (pName p) (pCreatedAt p) (pBlockedCount p) (pStats p) else p.

(** Byte order. *)
Definition strLe (a b : string) : Prop := String.leb a b = true.
#[export] Instance strLe_dec a b : Decision (strLe a b).
Proof. unfold strLe. apply _. Defined.
Definition idLe (p q : primitiveInfo) : Prop := strLe (pID p) (pID q).
#[export] Instance idLe_dec p q : Decision (idLe p q).
Proof. unfold idLe. apply _. Defined.

Definition sortPrimitives (prims : gmap string primitiveInfo) : list primitiveInfo :=
  merge_sort idLe ((fun x => withDefaultID x.1 x.2) <$> map_to_list prims).

(** ** The connection *)

(** What is read: a state, a reply with its text if it has one, anything
    else; [None]: the payload cannot be decoded. *)
Inductive wsMessage :=
| WState (ty : string) (prims : option (gmap string primitiveInfo))
| WReply (isErr : bool) (payload : option (option string))
| WOther (ty : string).

Definition readFailed : string := "syncctl: read failed".

(** The primitives, and what is left to read. *)
Fixpoint readPrimitivesState (incoming : list wsMessage) : string + gmap string primitiveInfo * list wsMessage :=
  match incoming with
  | [] => inl readFailed
  | WState _ (Some prims) :: rest => inr (map_imap (fun id p => Some (withDefaultID id p)) prims, rest)
  | WState _ None :: _ => inl "syncctl: invalid state payload"
  | _ :: rest => readPrimitivesState rest
  end.

Fixpoint waitForAck (incoming : list wsMessage) : string + bool * string :=
  match incoming with
  | [] => inl readFailed
  | WReply isErr (Some text) :: _ =>
      let ty := if isErr then "error" else "success" in
      inr (isErr, match text with Some s => if decide (s = "") then ty else s | None => ty end)
  | WReply _ None :: _ => inl "syncctl: invalid response payload"
  | _ :: rest => waitForAck rest
  end.

(** The answers of the network: the error of the dial, whether a write
    succeeds, what can be read. *)
Record net := mkNet { dialErr : option string; writeErr : option string; incoming : list wsMessage }.

(** ** Commands *)

Inductive output :=
| OLine (s : string)
| OTable (rows : list (list string))
| OJson (fields : list (string * string))
| OJsonList (objects : list (list (string * string)))
| OJsonPrim (p : primitiveInfo).

(** [failMsg]: the message of the [commandError]. *)
Record result := mkRes { code : Z; out : list output; failMsg : option string; requests : list apiRequest }.

Definition bad (c : Z) (msg : string) : result := mkRes c [] (Some msg) [].

(** Dial, read the state, send the request, wait for the reply. *)
Definition exchange (n : net) (r : apiRequest) (ok : string -> list output) : result :=
  match dialErr n with
  | Some e => bad 1 e
  | None =>
      match readPrimitivesState (incoming n) with
      | inl e => bad 1 e
      | inr (_, rest) =>
          match writeErr n with
          | Some e => bad 1 e
          | None =>
              match waitForAck rest with
              | inl e => mkRes 1 [] (Some e) [r]
              | inr (true, msg) => mkRes 1 [] (Some msg) [r]
              | inr (false, msg) => mkRes 0 (ok msg) None [r]
              end
          end
      end
  end.

Definition createUsage : string := "usage: syncctl create <type> <id> [--name <name>] [--capacity N] [--parties N]".
Definition opUsage : string := "usage: syncctl op <id> <operation> [--hold <ms>] [--delta N]".

Definition createFlags : gmap string fval :=
  <["name":=FStr ""]> (<["capacity":=FInt 0]> {["parties":=FInt 0]}).
Definition opFlags : gmap string fval := <["hold":=FInt 0]> (<["hold-ms":=FInt 0]> {["delta":=FInt 0]}).

Definition runCreate (cfg : config) (args : list string) (n : net) : result :=
  match flagParse createFlags args with
  | inl e => bad 2 (flagError e)
  | inr (vals, pos) =>
      match pos with
      | t :: id :: _ =>
          let ptype := ToLower t in
          let primName := if decide (strOf vals "name" = "") then id else strOf vals "name" in
          match buildCreateMessage ptype id primName (intOf vals "capacity") (intOf vals "parties") with
          | inl e => bad 2 e
          | inr r =>
              exchange n r (fun msg =>
                if asJSON cfg
                then [OJson [("result", "ok"); ("id", id); ("type", canonicalTypeName ptype); ("message", msg)]]
                else [OLine msg])
          end
      | _ => bad 2 createUsage
      end
  end.

Definition finalHold (vals : gmap string fval) (o : string) : Z :=
  let hold := if decide (intOf vals "hold-ms" <> 0) then intOf vals "hold-ms" else intOf vals "hold" in
  if decide (o = "add" /\ intOf vals "delta" <> 0) then intOf vals "delta" else hold.

Definition opRequest (id o : string) (hold : Z) : apiRequest :=
  mkReq "primitiveOp" (<["id":=VStr id]> (<["op":=VStr o]> {["holdMs":=VInt hold]})).

Definition runOp (cfg : config) (args : list string) (n : net) : result :=
  match flagParse opFlags args with
  | inl e => bad 2 (flagError e)
  | inr (vals, pos) =>
      match pos with
      | id :: o :: _ =>
          exchange n (opRequest id o (finalHold vals o)) (fun msg =>
            if asJSON cfg then [OJson [("result", "ok"); ("id", id); ("operation", o); ("message", msg)]]
            else [OLine msg])
      | _ => bad 2 opUsage
      end
  end.

Definition runDelete (cfg : config) (args : list string) (n : net) : result :=
  match args with
  | [id] =>
      exchange n (DeletePrimitive id) (fun msg =>
        if asJSON cfg then [OJson [("result", "ok"); ("id", id); ("message", msg)]] else [OLine msg])
  | _ => bad 2 "usage: syncctl delete <id>"
  end.

Definition runList (cfg : config) (n : net) : result :=
  match dialErr n with
  | Some e => bad 1 e
  | None =>
      match readPrimitivesState (incoming n) with
      | inl e => bad 1 e
      | inr (prims, _) =>
          let ps := sortPrimitives prims in
          mkRes 0
            (if asJSON cfg then
               [OJsonList ((fun p => [("id", pID p); ("type", pType p); ("name", pName p);
                                      ("state", summarizeState p)]) <$> ps)]
             else [OTable (["ID"; "TYPE"; "NAME"; "STATE"] ::
                           ((fun p => [pID p; pType p; pName p; summarizeState p]) <$> ps))])
            None []
      end
  end.

Context (showTime : Z -> string) (showStat : sval -> string).

Definition statLines (p : primitiveInfo) : list output :=
  let keys := merge_sort strLe ((map_to_list (pStats p)).*1) in
  omap (fun k => (fun v => OLine ("  " +:+ k +:+ ": " +:+ showStat v)) <$> pStats p !! k) keys.

Definition runStats (cfg : config) (args : list string) (n : net) : result :=
  match args with
  | [id] =>
      match dialErr n with
      | Some e => bad 1 e
      | None =>
          match readPrimitivesState (incoming n) with
          | inl e => bad 1 e
          | inr (prims, _) =>
              match prims !! id with
              | None => bad 1 ("primitive not found: " +:+ id)
              | Some p =>
                  mkRes 0
                    (if asJSON cfg then [OJsonPrim p]
                     else [OLine ("Primitive: " +:+ pID p); OLine ("Type:      " +:+ pType p);
                           OLine ("Name:      " +:+ pName p); OLine ("State:     " +:+ summarizeState p)] ++
                          match pCreatedAt p with Some t => [OLine ("Created:   " +:+ showTime t)] | None => [] end ++
                          [OLine ""; OLine "Stats:"] ++ statLines p)
                    None []
              end
          end
      end
  | _ => bad 2 "usage: syncctl stats <id>"
  end.

Definition tokenUsage : string :=
  "usage: syncctl token generate --secret <secret> --sub <subject> [--role <role>] [--namespace <ns>] [--ttl <dur>]".
Definition tokenFlags : gmap string fval :=
  <["secret":=FStr ""]> (<["sub":=FStr ""]> (<["role":=FStr ""]> (<["namespace":=FStr ""]>
    {["ttl":=FDur 3600000000000]}))).

(** [now] in nanoseconds; [Unix] rounds down to seconds. *)
Context (generateJWT : Claims -> string -> string + string).

Definition runToken (now : Z) (args : list string) : result :=
  match args with
  | "generate" :: rest =>
      match flagParse tokenFlags rest with
      | inl e => bad 2 (flagError e)
      | inr (vals, _) =>
          if decide (strOf vals "secret" = "") then bad 2 "--secret is required"
          else if decide (strOf vals "sub" = "") then bad 2 "--sub is required"
          else if intOf vals "ttl" <=? 0 then bad 2 "--ttl must be positive"
          else
            match generateJWT (mkClaims (strOf vals "sub") (strOf vals "role") (strOf vals "namespace")
                                 (now / 1000000000) ((now + intOf vals "ttl") / 1000000000)) (strOf vals "secret") with
            | inr token => mkRes 0 [OLine token] None []
            | inl e => bad 1 e
            end
      end
  | _ => bad 2 tokenUsage
  end.

Definition printUsage : list output :=
  OLine <$> ["syncctl [--server <url>] [--api-key <key>] [--json] [--timeout <dur>] [--insecure] <command>";
    "";
    "Commands:";
    "  list                          List primitives";
    "  create <type> <id>            Create primitive";
    "  op <id> <operation>           Execute primitive operation";
    "  delete <id>                   Delete primitive";
    "  stats <id>                    Show primitive statistics";
    "  token generate                Generate an HS256 JWT";
    "  version                       Print syncctl version";
    "  help                          Show help";
    "";
    "Environment:";
    "  SYNCPRIM_SERVER               Default server URL";
    "  SYNCPRIM_API_KEY              Bearer API key"].

Definition runE (now : Z) (args : list string) (getenv : string -> string) (n : net) : result :=
  match parseArgs args getenv with
  | inl e => bad 2 e
  | inr (cfg, cmd, cmdArgs) =>
      if decide (cmd = "help" \/ cmd = "") then mkRes 0 printUsage None []
      else if decide (cmd = "version") then mkRes 0 [OLine "syncctl dev"] None []
      else if decide (cmd = "list") then runList cfg n
      else if decide (cmd = "create") then runCreate cfg cmdArgs n
      else if decide (cmd = "op") then runOp cfg cmdArgs n
      else if decide (cmd = "delete") then runDelete cfg cmdArgs n
      else if decide (cmd = "stats") then runStats cfg cmdArgs n
      else if decide (cmd = "token") then runToken now cmdArgs
      else bad 2 ("unknown command: " +:+ cmd)
  end.

(** The exit code, standard output and standard error. *)
Definition run (now : Z) (args : list string) (getenv : string -> string) (n : net) : Z * list output * list string :=
  let res := runE now args getenv n in (code res, out res, match failMsg res with Some m => [m] | None => [] end).

(** * Properties *)

(** [splitGlobalArgs] loses no argument: its three parts, with or without
    the separator, are the arguments in their order; without a command the
    command is "help". *)
Theorem split_complete args g c r :
  splitGlobalArgs args = inr (g, c, r) ->
  args = g ++ c :: r \/ args = g ++ "--" :: c :: r \/ (args = g /\ c = "help" /\ r = []).
Proof.
  remember (length args) as k eqn:Ek. revert args g Ek. induction k as [k IH] using lt_wf_ind. intros args g Ek H.
  destruct args as [|a rest]; simpl in H; [simplify_eq; tauto|]. case_decide as Ea.
  { subst a. destruct rest; simplify_eq. auto. }
  destruct (negb (hasDash a)); [simplify_eq; auto|]. destruct (hasInlineValue a || negb (flagNeedsValue a)).
  - destruct (splitGlobalArgs rest) as [e|[[g' c'] r']] eqn:E; simplify_eq.
    destruct (IH (length rest) ltac:(simpl; lia) rest g' eq_refl E) as [-> |[-> |(-> & -> & ->)]]; auto.
  - destruct rest as [|v rest]; [done|]. destruct (splitGlobalArgs rest) as [e|[[g' c'] r']] eqn:E; simplify_eq.
    destruct (IH (length rest) ltac:(simpl; lia) rest g' eq_refl E) as [-> |[-> |(-> & -> & ->)]]; auto.
Qed.

Lemma classify_stop a : hasDash a = false -> classify a = Stop.
Proof. destruct a as [|c a]; [done|]. simpl. intros H. by destruct c as [[] [] [] [] [] [] [] []]. Qed.

Lemma flagParse_stop vals a rest : hasDash a = false -> flagParse vals (a :: rest) = inr (vals, a :: rest).
Proof. intros H. simpl. by rewrite (classify_stop a H). Qed.

(** The flags are ignored where the usage messages put them.  Package
    [flag] stops at the first argument that is no flag, so whatever follows
    the type and the id of [create], or the id and the operation of [op], has
    no effect; in particular a semaphore or a barrier cannot be created in
    the documented way, and the attempt ends with exit code 2. *)
Theorem documented_flags_ignored cfg t id o rest n :
  hasDash t = false -> hasDash id = false ->
  runCreate cfg (t :: id :: rest) n = runCreate cfg [t; id] n /\
  runOp cfg (id :: o :: rest) n = runOp cfg [id; o] n /\
  runCreate cfg ("semaphore" :: id :: rest) n = bad 2 "semaphore requires --capacity > 0" /\
  runCreate cfg ("barrier" :: id :: rest) n = bad 2 "barrier requires --parties > 0".
Proof.
  intros Ht Hid. unfold runCreate, runOp. rewrite !flagParse_stop by done. by split_and!.
Qed.

(** The exit code says how a command ended. *)
Definition coded (res : result) : Prop :=
  (code res = 0 /\ failMsg res = None) \/
  (code res = 1 /\ is_Some (failMsg res)) \/
  (code res = 2 /\ is_Some (failMsg res) /\ requests res = []).

Lemma bad_coded c msg : c = 1 \/ c = 2 -> coded (bad c msg).
Proof. intros [-> | ->]; unfold coded, bad; simpl; eauto 10. Qed.

Lemma exchange_coded n r ok : coded (exchange n r ok).
Proof. unfold exchange. repeat case_match; try (apply bad_coded; auto); unfold coded; simpl; eauto 10. Qed.

#[local] Hint Resolve bad_coded exchange_coded : core.

Lemma ok_coded o l : coded (mkRes 0 o None l).
Proof. by left. Qed.
#[local] Hint Resolve ok_coded : core.

(** Exit codes.  Whatever the arguments, the environment and the network
    do, the exit code is 0 exactly when there is no error message, 1 or 2
    otherwise, and a command that ends with 2 (wrong usage) has sent nothing
    to the server; the message goes to standard error. *)
Theorem exit_codes now args getenv n :
  let res := runE now args getenv n in
  let '(status, _, stderr) := run now args getenv n in
  (status = 0 \/ status = 1 \/ status = 2) /\ (status = 0 <-> stderr = []) /\
  (status = 2 -> requests res = []).
Proof.
  assert (H : coded (runE now args getenv n)).
  { unfold runE. destruct (parseArgs args getenv) as [e|[[cfg cmd] cmdArgs]]; [auto|].
    repeat (case_decide; [auto|]); auto.
    - unfold runList. repeat case_match; auto.
    - unfold runCreate. repeat case_match; auto.
    - unfold runOp. repeat case_match; auto.
    - unfold runDelete. repeat case_match; auto.
    - unfold runStats. repeat case_match; auto.
    - unfold runToken. repeat case_match; auto. }
  cbv zeta. unfold run. destruct H as [[-> ->]|[[-> [m ->]]|(-> & [m ->] & ->)]]; split_and!; auto; done.
Qed.
End Syncctl.

Section Understood.
Context (now : Z) (conn : nat) (s : Server) (cp : nat).
Hypothesis Hcp : connPrimsFor conn s = Some cp.
Hypothesis Hrole : roleForConn (role <$> connStates s !! conn) = RoleAdmin.

(** What [create] sends, the server understands.  Every message
    [buildCreateMessage] makes, with numbers in the range of [int32], leads at
    the server to the creation of an object of the type that [create] reports,
    with the given id and name, and with the given number as capacity or
    number of parties. *)
Theorem create_understood ptype id name capacity parties r :
  validatePrimID id = "" -> validatePrimName name = "" -> capacity <= MaxInt32 -> parties <= MaxInt32 ->
  buildCreateMessage ptype id name capacity parties = inr r ->
  exists o, handle now conn r s = (HCreate cp id name o, s) /\
    Scheduler.showType (kindOf o) = canonicalTypeName ptype /\
    match o with OSemaphore c n => c = capacity /\ n = capacity | OBarrier k => k = parties | _ => True end.
Proof.
  intros Hid Hname Hc Hp Hb. destruct (decode_idName id name) as (D1 & D2 & D3).
  assert (Hbasic : forall o, createBasic jsonCodec o conn (idName id name) s = (HCreate cp id name o, s)).
  { intros o. unfold createBasic. rewrite D1, validated_ok by done. by apply create_ok. }
  unfold buildCreateMessage in Hb.
  repeat match type of Hb with (if decide (ptype = ?x) then _ else _) = _ =>
      destruct (decide (ptype = x)) as [-> |] end; simplify_eq;
    try (eexists; split; [unfold handle, handleMessage; simpl; rewrite (admin_allowed conn s Hrole); apply Hbasic|done]).
  - case_match; simplify_eq. bool_facts. assert (Hr : int32_range capacity) by (unfold int32_range, MaxInt32 in *; lia).
    exists (OSemaphore capacity capacity). split; [|done].
    unfold handle, handleMessage. simpl. rewrite (admin_allowed conn s Hrole). simpl. unfold handleCreateSemaphore.
    rewrite (D2 capacity Hr), validated_ok by done. rewrite (proj2 (Z.leb_gt capacity 0)) by lia. by apply create_ok.
  - case_match; simplify_eq. bool_facts. assert (Hr : int32_range parties) by (unfold int32_range, MaxInt32 in *; lia).
    exists (OBarrier parties). split; [|done].
    unfold handle, handleMessage. simpl. rewrite (admin_allowed conn s Hrole). simpl. unfold handleCreateBarrier.
    rewrite (D3 parties Hr), validated_ok by done. rewrite (proj2 (Z.leb_gt parties 0)) by lia. by apply create_ok.
Qed.
End Understood.

(** * Concrete inputs *)

(** A flag written with one dash, which package [flag] accepts, makes its
    value the command. *)
Lemma split_single_dash : splitGlobalArgs ["-server"; "ws://h/ws"; "list"] = inr (["-server"], "ws://h/ws", ["list"]).
Proof. reflexivity. Qed.

Lemma split_complete_witness :
  splitGlobalArgs ["--json"; "--timeout"; "3s"; "op"; "m"; "lock"] = inr (["--json"; "--timeout"; "3s"], "op", ["m"; "lock"]) /\
  (["--json"; "--timeout"; "3s"; "op"; "m"; "lock"] = ["--json"; "--timeout"; "3s"] ++ "op" :: ["m"; "lock"] \/
   ["--json"; "--timeout"; "3s"; "op"; "m"; "lock"] = ["--json"; "--timeout"; "3s"] ++ "--" :: "op" :: ["m"; "lock"] \/
   (["--json"; "--timeout"; "3s"; "op"; "m"; "lock"] = ["--json"; "--timeout"; "3s"] /\ "op" = "help" /\ ["m"; "lock"] = [])).
Proof.
  assert (H : splitGlobalArgs ["--json"; "--timeout"; "3s"; "op"; "m"; "lock"] =
              inr (["--json"; "--timeout"; "3s"], "op", ["m"; "lock"])) by reflexivity.
  split; [exact H|]. exact (split_complete _ _ _ _ H).
Defined.

Definition cliConfig : config := mkCliConfig defaultServerURL "" false defaultTimeout false.
Definition deadNet : net := mkNet (Some "refused") None [].

Lemma documented_flags_ignored_witness :
  runCreate (fun _ => Some 3) (fun _ => None) (fun _ => None) (fun _ => "") cliConfig
    ["semaphore"; "s"; "--capacity"; "3"] deadNet = bad 2 "semaphore requires --capacity > 0".
Proof.
  exact (proj1 (proj2 (proj2 (documented_flags_ignored (fun _ => Some 3) (fun _ => None) (fun _ => None) (fun _ => "") cliConfig
    "semaphore" "s" "x" ["--capacity"; "3"] deadNet eq_refl eq_refl)))).
Defined.

Lemma create_understood_witness :
  exists o, handle 0 0 (mkReq "createSemaphore" (<["capacity":=VInt 3]> (idName "s" "s"))) apiEnd.1 = (HCreate 0 "s" "s" o, apiEnd.1) /\
    Scheduler.showType (kindOf o) = "Semaphore" /\
    match o with OSemaphore c n => c = 3 /\ n = 3 | OBarrier k => k = 0 | _ => True end.
Proof.
  assert (H1 : connPrimsFor 0 apiEnd.1 = Some 0%nat) by by_eval.
  assert (H2 : roleForConn (role <$> connStates apiEnd.1 !! 0%nat) = RoleAdmin) by by_eval.
  assert (H3 : validatePrimID "s" = "") by by_eval.
  assert (H4 : validatePrimName "s" = "") by by_eval.
  refine (create_understood 0 0 apiEnd.1 0 H1 H2 "semaphore" "s" "s" 3 0 _ H3 H4 _ _ eq_refl); unfold MaxInt32; lia.
Defined.
