(* ===== verification/ServerMain.v ===== *)
(** * The server program (cmd/server/main.go)

    The flags become the configuration of the server; the program serves
    until [Start] returns or a signal arrives, then shuts down.  Package
    [flag] is the model of Syncctl.v, on the command-line flag set, which
    ends the program on an error.  Building the server and shutting it down
    are the functions of Snapshot.v; what happens in between is an
    argument. *)

From Stdlib Require Import ZArith Lia Ascii.
From stdpp Require Import base list gmap strings.
From S2P Require Import Prelude.
From S2P Require Import Auth.
From S2P Require Import AuditLog.
From S2P Require Import Scheduler.
From S2P Require Import Metrics.
From S2P Require Import Access.
From S2P Require Import Server.
From S2P Require Import Registry.
From S2P Require Import Snapshot.
From S2P Require Import Delta.
From S2P Require Import Http.
From S2P Require Import Syncctl.

#[local] Open Scope Z_scope.

Definition comma : ascii := ","%char.

(** [strings.Split] and the loop that keeps what is not blank. *)
Definition parseOrigins (v : string) : list string :=
  if decide (v <> "")
  then filter (fun o => o <> "") ((fun p => TrimSpace (ofBytes p)) <$> splitOn comma (bytesOf v))
  else [].

Definition serverFlags : gmap string fval :=
  <["addr":=FStr ":8085"]> (<["allowed-origins":=FStr ""]> (<["tls-cert":=FStr ""]> (<["tls-key":=FStr ""]>
  (<["api-key":=FStr ""]> (<["jwt-secret":=FStr ""]> (<["default-namespace":=FStr "default"]>
  (<["max-conns":=FInt 0]> (<["snapshot-path":=FStr ""]> (<["audit-log-path":=FStr ""]>
  (<["audit-log-max-bytes":=FInt 0]> (<["audit-log-keep-files":=FInt 0]>
  {["disable-compression":=FBool false]}))))))))))).

Definition configOf (vals : gmap string fval) : Config :=
  mkConfig (parseOrigins (strOf vals "allowed-origins")) (strOf vals "tls-cert") (strOf vals "tls-key")
    (strOf vals "api-key") (strOf vals "jwt-secret") (strOf vals "default-namespace") (intOf vals "max-conns")
    (strOf vals "snapshot-path") (boolOf vals "disable-compression") [] (strOf vals "audit-log-path")
    (intOf vals "audit-log-max-bytes") (intOf vals "audit-log-keep-files").

(** What ends the wait of [main]: the result of [Start], or a signal. *)
Inductive mainEvent := StartReturned (err : option string) | SignalReceived.

Inductive logHandler := JSONHandler | TextHandler.

Definition logHandlerOf (logFormat : string) : logHandler :=
  if decide (logFormat = "json") then JSONHandler else TextHandler.

Section Main.
Context (parseInt parseDuration : string -> option Z) (parseBool : string -> option bool).
Context (marshalSnap : snapshotFile -> option string) (unmarshalSnap : string -> option snapshotFile)
  (unmarshalLegacy : string -> option (gmap string legacyPrimitiveSnapshot)) (statsOf : object -> Z).

(** The exit code and the files the program leaves.  [serve] is the life of
    the server until the event; a panic ends the program with code 2. *)
Definition main (args : list string) (now : Z) (r : osResults) (readOk writeOk : bool) (files : FS)
    (serve : Server -> Server * mainEvent) : Z * FS :=
  match flagParse parseInt parseDuration parseBool serverFlags args with
  | inl Help => (0, files)
  | inl _ => (2, files)
  | inr (vals, _) =>
      match NewServerWithConfig unmarshalSnap unmarshalLegacy statsOf now (configOf vals) r readOk files with
      | None => (2, files)
      | Some (s, files) =>
          match serve s with
          | (_, StartReturned (Some _)) => (1, files)
          | (s, _) =>
              match Shutdown marshalSnap writeOk s files with
              | Some (_, files) => (0, files)
              | None => (2, files)
              end
          end
      end
  end.

(** * Origins *)

Lemma TrimSpace_space s : TrimSpace (String " "%char s) = TrimSpace s.
Proof. reflexivity. Qed.

Fixpoint padded (n : nat) (s : string) : string := match n with O => s | S n => String " "%char (padded n s) end.

Lemma TrimSpace_padded n s : TrimSpace (padded n s) = TrimSpace s.
Proof. induction n as [|n IH]; [done|]. simpl padded. by rewrite TrimSpace_space. Qed.

Lemma padded_free n s : comma ∉ bytesOf s -> comma ∉ bytesOf (padded n s).
Proof. intros H. induction n as [|n IH]; [done|]. simpl. rewrite not_elem_of_cons. split; [done|exact IH]. Qed.

Definition originOk (o : string) : Prop := o <> "" /\ TrimSpace o = o /\ comma ∉ bytesOf o.

#[export] Instance originOk_dec o : Decision (originOk o).
Proof. unfold originOk. apply _. Defined.

(** The flag as one would write it: the origins, each after some spaces,
    separated by commas. *)
Definition originsFlag (os : list (nat * string)) : string :=
  ofBytes (joinWith comma ((fun p : nat * string => bytesOf (padded p.1 p.2)) <$> os)).

Lemma joinWith_nonempty c (ps : list (list ascii)) p : p ∈ ps -> p <> [] -> joinWith c ps <> [].
Proof.
  destruct ps as [|q [|q' ps]]; intros Hp Hn; [by apply not_elem_of_nil in Hp| |].
  - apply list_elem_of_singleton in Hp as ->. done.
  - simpl. by destruct q.
Qed.

Lemma parseOrigins_flag os : Forall originOk os.*2 -> parseOrigins (originsFlag os) = os.*2.
Proof.
  intros H. destruct os as [|x os]; [done|]. unfold parseOrigins. rewrite decide_True.
  - unfold originsFlag. rewrite String.list_ascii_of_string_of_list_ascii, splitOn_join; [|done|].
    + induction (x :: os) as [|[n o] l IH]; [done|]. inversion H as [|? ? (H1 & H2 & H3) Hl]; subst.
      rewrite !fmap_cons, filter_cons. simpl.
      rewrite String.string_of_list_ascii_of_string, TrimSpace_padded, H2, decide_True by done.
      f_equal. apply (IH Hl).
    + apply Forall_fmap. rewrite Forall_fmap in H. eapply Forall_impl; [exact H|]. intros [n o] (_ & _ & Hc). simpl.
      by apply padded_free.
  - intros E. apply (f_equal String.list_ascii_of_string) in E. unfold originsFlag in E.
    rewrite String.list_ascii_of_string_of_list_ascii in E. revert E.
    apply (joinWith_nonempty _ _ (bytesOf (padded x.1 x.2))); [left|].
    inversion H as [|? ? (H1 & _) _]; subst. destruct x as [[|n] o]; [|done]. simpl in *. by destruct o.
Qed.

(** Flags that are not mentioned keep their values. *)
Lemma flagParse_keeps k vals args vals' rest :
  Forall (fun a => forall v, classify a <> Flag k v) args ->
  flagParse parseInt parseDuration parseBool vals args = inr (vals', rest) -> vals' !! k = vals !! k.
Proof.
  remember (length args) as n eqn:Hn. assert (Hle : (length args <= n)%nat) by lia. clear Hn.
  revert vals args Hle. induction n as [|n IH]; intros vals args Hle HF HP.
  { destruct args; [|simpl in Hle; lia]. simpl in HP. by simplify_eq. }
  destruct args as [|a args]; [simpl in HP; by simplify_eq|]. simpl in Hle.
  inversion HF as [|? ? Ha Hargs]; subst. simpl in HP.
  destruct (classify a) as [| | |name v] eqn:Ec; try by simplify_eq.
  assert (Hne : name <> k) by (intros ->; by eapply Ha).
  assert (Hset : forall x vs, <[name:=x]> vs !! k = (vs : gmap string fval) !! k)
    by (intros; by apply lookup_insert_ne).
  destruct (vals !! name) as [old|] eqn:Eo; [|done].
  assert (Hone : forall x, flagParse parseInt parseDuration parseBool (<[name:=x]> vals) args = inr (vals', rest) ->
    vals' !! k = vals !! k) by (intros x E; rewrite <- (Hset x vals); apply (IH (<[name:=x]> vals) args); [lia|done|exact E]).
  assert (Htwo : forall x v' args', args = v' :: args' ->
    flagParse parseInt parseDuration parseBool (<[name:=x]> vals) args' = inr (vals', rest) -> vals' !! k = vals !! k).
  { intros x v' args' -> E. rewrite <- (Hset x vals).
    apply (IH (<[name:=x]> vals) args'); [simpl in Hle; lia|by inversion Hargs|exact E]. }
  destruct old, v; try (destruct (setFlag _ _ _ _ _); [by eapply Hone|done]);
    try (by eapply Hone); destruct args as [|v' args']; try done;
    destruct (setFlag _ _ _ _ _); [by eapply Htwo|done|by eapply Htwo|done|by eapply Htwo|done].
Qed.

(** The flag -allowed-origins means what it says.  Started with a list of
    origins, separated by commas and any number of spaces, and any other
    flags after it, the server has exactly these origins in its
    configuration; so it accepts the WebSocket requests of these origins, and
    all requests if one of them is "*", and refuses every other. *)
Theorem origins_configured parseURL parseIP os post vals rest origin :
  os <> [] -> Forall originOk os.*2 -> Forall (fun a => forall v, classify a <> Flag "allowed-origins" v) post ->
  flagParse parseInt parseDuration parseBool serverFlags ("-allowed-origins" :: originsFlag os :: post) =
    inr (vals, rest) ->
  AllowedOrigins (configOf vals) = os.*2 /\
  (checkOrigin parseURL parseIP (configOf vals) origin = true <-> "*" ∈ os.*2 \/ origin ∈ os.*2).
Proof.
  intros Hn Hos Hpost HP.
  assert (E : AllowedOrigins (configOf vals) = os.*2).
  { change (flagParse parseInt parseDuration parseBool (<["allowed-origins":=FStr (originsFlag os)]> serverFlags) post
      = inr (vals, rest)) in HP. simpl. unfold strOf. rewrite (flagParse_keeps _ _ _ _ _ Hpost HP).
    rewrite lookup_insert_eq. by apply parseOrigins_flag. }
  split; [exact E|]. unfold checkOrigin. rewrite E.
  assert (Hx : forall l : list string, existsb (fun a => bool_decide (a = "*") || bool_decide (origin = a)) l = true <->
    "*" ∈ l \/ origin ∈ l).
  { intros l. rewrite existsb_exists. split.
    - intros (a & Ha%list_elem_of_In & H). apply orb_true_iff in H as [H|H]; apply bool_decide_eq_true in H; subst; auto.
    - intros [H|H]; eexists; (split; [by apply list_elem_of_In|]); apply orb_true_iff;
        [left|right]; by apply bool_decide_eq_true_2. }
  destruct os as [|x os]; [done|]. apply Hx.
Qed.

Lemma restoreOne_stop now ns cp s p : stop (restoreOne statsOf now ns cp p s) = stop s.
Proof.
  unfold restoreOne. case_decide; [done|]. destruct (typeOf _); [|done]. destruct (heap s !! cp); [|done].
  simpl. done.
Qed.

Lemma loadSnapshot_stop now readOk files s :
  stop (loadSnapshot unmarshalSnap unmarshalLegacy statsOf now readOk files s) = stop s.
Proof.
  assert (HF : forall ns cp l s0, stop (foldl (fun s p => restoreOne statsOf now ns cp p s) s0 l) = stop s0).
  { intros ns cp l. induction l as [|p l IH]; intros s0; [done|]. simpl. by rewrite IH, restoreOne_stop. }
  assert (HR : forall ns l, stop (restoreSnapshotPrimitives statsOf now ns l s) = stop s).
  { intros ns l. unfold restoreSnapshotPrimitives, getOrCreateNamespacePrims.
    destruct (namespaces s !! ns); simpl; by rewrite HF. }
  unfold loadSnapshot. repeat case_match; try done; apply HR.
Qed.

Lemma NewServer_stop now vals r readOk files :
  exists s files', NewServerWithConfig unmarshalSnap unmarshalLegacy statsOf now (configOf vals) r readOk files =
    Some (s, files') /\ stop s = false.
Proof.
  unfold NewServerWithConfig, newServer. simpl.
  destruct (if decide (strOf vals "audit-log-path" <> "") then _ else _) as [logger files'].
  simpl. eexists _, _. split; [reflexivity|]. by rewrite loadSnapshot_stop.
Qed.

(** The ways the program ends.  A request for help exits with 0 and a bad flag
    with 2, both before anything is done; an error of [Start] with 1 and
    without writing a snapshot; a signal, or a server that was closed, with 0
    after the shutdown has written the snapshot of the server as it was
    then.  The panics of the constructor and of a second shutdown are not
    reached. *)
Theorem main_exit args now r readOk writeOk files serve :
  (forall s, stop (serve s).1 = stop s) ->
  match flagParse parseInt parseDuration parseBool serverFlags args with
  | inl e => main args now r readOk writeOk files serve = (if e is Help then 0 else 2, files)
  | inr (vals, _) =>
      exists s files', NewServerWithConfig unmarshalSnap unmarshalLegacy statsOf now (configOf vals) r readOk files =
        Some (s, files') /\
      main args now r readOk writeOk files serve =
        if (serve s).2 is StartReturned (Some _) then (1, files')
        else (0, saveSnapshot marshalSnap writeOk (serve s).1 files')
  end.
Proof.
  intros Hserve. unfold main. destruct (flagParse _ _ _ serverFlags args) as [e|[vals rest]]; [by destruct e|].
  destruct (NewServer_stop now vals r readOk files) as (s & files' & E & Hs). exists s, files'.
  split; [exact E|]. rewrite E. pose proof (Hserve s) as Hstop. rewrite Hs in Hstop.
  destruct (serve s) as [s' ev]. simpl in *. unfold Shutdown.
  assert (Hns : stop (set_shutdownCtx true (set_draining true s')) = false) by done. rewrite Hns.
  by destruct ev as [[e|]|].
Qed.
End Main.

Definition someOrigins : list (nat * string) := [(0%nat, "http://a.example"); (1%nat, "https://b.example:8443")].

Lemma origins_configured_witness :
  originsFlag someOrigins = "http://a.example, https://b.example:8443" /\
  exists vals rest, flagParse (fun _ => None) (fun _ => None) (fun _ => None) serverFlags
      ["-allowed-origins"; "http://a.example, https://b.example:8443"; "-addr"; ":9000"] = inr (vals, rest) /\
    (checkOrigin (fun _ => None) (fun _ => None) (configOf vals) "https://b.example:8443" = true <->
     "*" ∈ someOrigins.*2 \/ "https://b.example:8443" ∈ someOrigins.*2).
Proof.
  split; [by_eval|]. eexists _, _. split; [reflexivity|].
  eapply (origins_configured (fun _ => None) (fun _ => None) (fun _ => None) (fun _ => None) (fun _ => None)
    someOrigins ["-addr"; ":9000"]); [discriminate|by_decide| |reflexivity].
  repeat constructor; intros v E; vm_compute in E; discriminate.
Defined.

Lemma main_exit_witness :
  (main (fun _ => None) (fun _ => None) (fun _ => None) (fun _ => Some "J") (fun _ => None) (fun _ => None)
     (fun _ => 0) ["-snapshot-path"; "s.json"] 0 allOk true true ∅ (fun s => (s, SignalReceived))).1 = 0.
Proof.
  pose proof (main_exit (fun _ => None) (fun _ => None) (fun _ => None) (fun _ => Some "J") (fun _ => None)
    (fun _ => None) (fun _ => 0) ["-snapshot-path"; "s.json"] 0 allOk true true ∅ (fun s => (s, SignalReceived))
    (fun _ => eq_refl)) as H.
  destruct (flagParse _ _ _ serverFlags _) as [e|[vals rest]] eqn:E; [vm_compute in E; discriminate|].
  destruct H as (s & files' & _ & ->). reflexivity.
Defined.
