(* ===== verification/Dial.v ===== *)
(** * Connecting to the server (pkg/client/client.go, cmd/syncctl/main.go, web/server.go)

    How the Go client and the command line connect: the header they send,
    what [HandleWebSocket] makes of it before the upgrade, the errors they
    report, the deadlines they set and the first message they read.  The
    dialer of the websocket package and the way a header travels are
    arguments. *)

From Stdlib Require Import ZArith Lia Ascii.
From stdpp Require Import base list gmap strings pretty.
From S2P Require Import Prelude.
From S2P Require Import Scheduler.
From S2P Require Import Auth.
From S2P Require Import Access.
From S2P Require Import Server.
From S2P Require Import Registry.
From S2P Require Import Delta.
From S2P Require Import ClientAPI.
From S2P Require Import Client.
From S2P Require Import Syncctl.

#[local] Open Scope Z_scope.

(** ** What the server answers before the upgrade *)

Inductive answer :=
| Refused (status : Z) (text : string)
| UpgraderRefused
| Accepted (claims : option Claims) (ns : string).

Section Handshake.
Context (validateJWT : Z -> string -> string -> jwtError + Claims).

(** The text of an error of [ValidateJWT]; [detail]: that of the error it
    wraps. *)
Definition jwtText (detail : string) (e : jwtError) : string :=
  match e with
  | ErrFormat => "invalid JWT format"
  | ErrHeaderEncoding => "invalid header encoding: " +:+ detail
  | ErrHeaderJSON => "invalid header JSON: " +:+ detail
  | ErrHeaderUnsupported => "unsupported JWT header"
  | ErrSignature => "invalid signature"
  | ErrPayloadEncoding => "invalid payload encoding: " +:+ detail
  | ErrPayloadJSON => "invalid payload JSON: " +:+ detail
  | ErrMissingSub => "missing sub claim"
  | ErrMissingExp => "missing exp claim"
  | ErrExpired => "token expired"
  end.

Context (detail : string).

(** The text of the reply to a request that is not authenticated. *)
Definition unauthorizedText (now : Z) (authHeader : string) (s : Server) : string :=
  if decide (JWTSecret (cfg s) <> "") then
    let token := TrimPrefix authHeader bearer in
    if decide (token = "" \/ token = authHeader) then "Unauthorized: JWT required"
    else match validateJWT now token (JWTSecret (cfg s)) with
         | inl e => "Unauthorized: " +:+ jwtText detail e
         | inr _ => ""
         end
  else "Unauthorized".

(** [HandleWebSocket] up to the upgrade; [refuses]: the upgrader refuses the
    request (its origin, or its form). *)
Definition HandleWebSocket (now : Z) (authHeader queryNs : string) (refuses : bool) (s : Server) : answer * Server :=
  let '(r, s') := authenticate validateJWT now authHeader s in
  match r with
  | inl _ => (Refused 401 (unauthorizedText now authHeader s), s')
  | inr claims =>
      if draining s' then (Refused 503 "Server is shutting down", s')
      else match extractNamespace (cfg s') (Namespace <$> claims) queryNs with
           | inl err => (Refused 400 ("Bad Request: " +:+ err), s')
           | inr ns =>
               if maxConns s' <=? activeConns s' then (Refused 503 "Service Unavailable: too many connections", s')
               else if refuses then (UpgraderRefused, s')
               else (Accepted claims ns, s')
           end
  end.

(** Where a session stands after the answer. *)
Definition pointOf (a : answer) : spc :=
  match a with Accepted claims ns => SAdd claims ns | _ => SEnd end.
End Handshake.

(** ** Dialling *)

Record dialer := mkDialer { HandshakeTimeout : Z; InsecureSkipVerify : bool }.

(** The results of [DialContext]: a connection, or an error, with the status
    of the answer if the server has answered. *)
Inductive dialed (C : Type) := Connected (c : C) | Failed (err : string) (status : option Z).
Arguments Connected {C} _.
Arguments Failed {C} _ _.

Definition authHeaders (apiKey : string) : gmap string string :=
  if decide (apiKey = "") then ∅ else {["Authorization":=bearer +:+ apiKey]}.

Section Dial.
Context {C : Type} (DialContext : dialer -> string -> gmap string string -> dialed C).

(** [Client.dial] *)
Definition client_dial (cfg : ClientConfig) : string + C :=
  if decide (URL cfg = "") then inl "client: URL is required"
  else match DialContext (mkDialer (ReconnectDelay cfg) false) (URL cfg) (authHeaders (Client.APIKey cfg)) with
       | Connected c => inr c
       | Failed err (Some status) => inl ("client: dial failed: " +:+ err +:+ " (http " +:+ pretty status +:+ ")")
       | Failed err None => inl ("client: dial failed: " +:+ err)
       end.

(** [dial] of syncctl *)
Definition syncctl_dial (cfg : Syncctl.config) : string + C :=
  let d := mkDialer (if 0 <? timeout cfg then timeout cfg else 0) (insecure cfg) in
  match DialContext d (Syncctl.server cfg) (authHeaders (apiKey cfg)) with
  | Connected c => inr c
  | Failed err (Some status) =>
      inl ("syncctl: failed to connect to " +:+ Syncctl.server cfg +:+ ": " +:+ err +:+ " (http " +:+ pretty status +:+ ")")
  | Failed err None => inl ("syncctl: failed to connect to " +:+ Syncctl.server cfg +:+ ": " +:+ err)
  end.
End Dial.

(** ** Reading and writing *)

(** A connection, as its owner sees it: the deadline set, what the next
    calls answer and what has been written. *)
Record wsConn (M : Type) := mkWs {
  readDeadline : option Z;
  setError : option string;
  reads : list (string + M);
  writeError : option string;
  wrote : list M
}.
Arguments mkWs {M} _ _ _ _ _.
Arguments readDeadline {M} _.
Arguments setError {M} _.
Arguments reads {M} _.
Arguments writeError {M} _.
Arguments wrote {M} _.

(** [deadlineFromContext] *)
Definition deadlineFromContext (now : Z) (ctxDeadline : option Z) (fallback : Z) : Z :=
  match ctxDeadline with Some d => d | None => now + fallback end.

Definition SetReadDeadline {M} (d : option Z) (c : wsConn M) : option string * wsConn M :=
  match setError c with
  | Some e => (Some e, c)
  | None => (None, mkWs d None (reads c) (writeError c) (wrote c))
  end.

(** [ReadJSON]; no answer left: the connection is closed. *)
Definition ReadJSON {M} (c : wsConn M) : (string + M) * wsConn M :=
  match reads c with
  | r :: rest => (r, mkWs (readDeadline c) (setError c) rest (writeError c) (wrote c))
  | [] => (inl "EOF", c)
  end.

Definition WriteJSON {M} (m : M) (c : wsConn M) : option string * wsConn M :=
  match writeError c with
  | Some e => (Some e, c)
  | None => (None, mkWs (readDeadline c) (setError c) (reads c) None (wrote c ++ [m]))
  end.

(** [readMessage] of syncctl; [ctxErr]: the context is done when the read has
    failed. *)
Definition readMessage {M} (now : Z) (ctxDeadline : option Z) (ctxErr : bool) (c : wsConn M) : (string + M) * wsConn M :=
  let '(e, c) := SetReadDeadline (Some (deadlineFromContext now ctxDeadline defaultTimeout)) c in
  match e with
  | Some e => (inl ("syncctl: set read deadline: " +:+ e), c)
  | None =>
      let '(r, c) := ReadJSON c in
      (match r with
       | inr m => inr m
       | inl e => inl (if ctxErr then "syncctl: operation timed out" else "syncctl: read failed: " +:+ e)
       end, c)
  end.

(** [sendMessage] of syncctl *)
Definition sendMessage {P R} (marshal : P -> string + R) (msgType : string) (payload : P)
    (c : wsConn (string * R)) : option string * wsConn (string * R) :=
  match marshal payload with
  | inl e => (Some ("syncctl: marshal payload: " +:+ e), c)
  | inr data =>
      let '(e, c) := WriteJSON (msgType, data) c in
      ((fun e => "syncctl: send " +:+ msgType +:+ " failed: " +:+ e) <$> e, c)
  end.

(** [Client.readInitialState]; a message is its type and its payload. *)
Definition readInitialState {R} (now : Z) (ctxDeadline : option Z) (c : wsConn (string * R))
    : option string * wsConn (string * R) :=
  let '(e, c) := SetReadDeadline (Some (deadlineFromContext now ctxDeadline 5000000000)) c in
  match e with
  | Some e => (Some ("client: set read deadline: " +:+ e), c)
  | None =>
      match ReadJSON c with
      | (inl e, c) => (Some ("client: read initial state: " +:+ e), c)
      | (inr (ty, _), c) =>
          if decide (ty <> "initialState" /\ ty <> "state") then (Some ("client: expected initialState, got " +:+ ty), c)
          else SetReadDeadline None c
      end
  end.

(** * The answer is what the session does *)

Section Session.
Context {Raw : Type} (validateJWT : Z -> string -> string -> jwtError + Claims) (codec : Codec Raw).
Context (statsOf : object -> Z) (primitiveSnapshotKey : PrimitiveInfo -> string).

(** A session by itself, [n] steps at one moment. *)
Fixpoint alone (n : nat) (o : oracle) (th : session (Raw:=Raw)) (s : Server) : session (Raw:=Raw) * Server :=
  match n with
  | O => (th, s)
  | S n => match session_step validateJWT codec statsOf primitiveSnapshotKey o th s with
           | Some (th, s) => alone n o th s
           | None => (th, s)
           end
  end.

(** [HandleWebSocket] as one function and as the steps of a session that
    nothing interrupts agree. *)
Lemma handshake_session detail o conn hdr queryNs t0 s :
  let '(a, s') := HandleWebSocket validateJWT detail (clk o) hdr queryNs (alt o) s in
  alone 4 o (mkSession conn SNone (Some (Server.Connect hdr queryNs)) t0) s = (mkSession conn (pointOf a) None t0, s').
Proof.
  unfold HandleWebSocket. cbn [alone session_step sconn spoint inbox]. 
  destruct (authenticate validateJWT (clk o) hdr s) as [[r|claims] s'] eqn:E; [done|].
  cbn [session_step sconn spoint inbox at_]. destruct (draining s'); [done|].
  destruct (extractNamespace _ _ _) as [err|ns]; [done|]. cbn [session_step sconn spoint inbox at_].
  destruct (maxConns s' <=? activeConns s'); [done|]. cbn [session_step sconn spoint inbox at_]. by destruct (alt o).
Qed.
End Session.

(** * Keys and tokens *)

Definition visible (c : ascii) : bool := (33 <=? byteOf c) && (byteOf c <=? 126).
Definition allVisible (s : string) : Prop := Forall (fun c => visible c = true) (bytesOf s).

Lemma TrimPrefix_bearer k : TrimPrefix (bearer +:+ k) bearer = k.
Proof.
  unfold TrimPrefix. replace (stripPrefix (bytesOf bearer) (bytesOf (bearer +:+ k))) with (Some (bytesOf k)).
  - apply String.string_of_list_ascii_of_string.
  - symmetry. by apply stripPrefix_Some.
Qed.

Lemma bearer_ne k : bearer +:+ k <> k.
Proof.
  intros E. apply (f_equal (fun x => length (bytesOf x))) in E.
  rewrite bytesOf_app, length_app in E. simpl in E. lia.
Qed.

(** What the package websocket and HTTP do for a client of the server [s] at
    the time [now]: the server sees a header as it was sent if it has only
    visible characters after the scheme; a request that is refused gives the
    error of a bad handshake with the status. *)
Record delivers {C} (validateJWT : Z -> string -> string -> jwtError + Claims) (detail : string)
    (DialContext : dialer -> string -> gmap string string -> dialed C)
    (opened : option Claims -> string -> C) (arrives : option string -> string) (upgraderStatus : Z)
    (now : Z) (queryNs : string) (refuses : bool) (s : Server) : Prop := {
  header_missing : arrives None = "";
  header_arrives : forall v, v <> "" -> allVisible v -> arrives (Some (bearer +:+ v)) = bearer +:+ v;
  dial_delivers : forall d url h, DialContext d url h =
    match (HandleWebSocket validateJWT detail now (arrives (h !! "Authorization")) queryNs refuses s).1 with
    | Accepted claims ns => Connected (opened claims ns)
    | Refused status _ => Failed "websocket: bad handshake" (Some status)
    | UpgraderRefused => Failed "websocket: bad handshake" (Some upgraderStatus)
    end
}.

Section Network.
Context (validateJWT : Z -> string -> string -> jwtError + Claims) (detail : string).
Context {C : Type} (DialContext : dialer -> string -> gmap string string -> dialed C).
Context (opened : option Claims -> string -> C) (arrives : option string -> string) (upgraderStatus : Z).
Context (now : Z) (queryNs : string) (refuses : bool) (s : Server).
Context (Hnet : delivers validateJWT detail DialContext opened arrives upgraderStatus now queryNs refuses s).

Lemma header_of key : key = "" \/ allVisible key ->
  arrives (authHeaders key !! "Authorization") = if decide (key = "") then "" else bearer +:+ key.
Proof.
  intros Hk. unfold authHeaders. case_decide; [rewrite lookup_empty; apply Hnet|].
  rewrite lookup_singleton_eq. destruct Hk as [?|Hk]; [done|]. by apply Hnet.
Qed.

(** A server that uses an API key answers 401 to every other key, and both
    clients say so; with the right key they are connected. *)
Theorem api_key_checked ns (c : ClientConfig) (sc : Syncctl.config) :
  JWTSecret (cfg s) = "" -> Access.APIKey (cfg s) <> "" -> draining s = false -> activeConns s < maxConns s ->
  refuses = false -> extractNamespace (cfg s) None queryNs = inr ns ->
  (Client.APIKey c = "" \/ allVisible (Client.APIKey c)) -> (apiKey sc = "" \/ allVisible (apiKey sc)) -> URL c <> "" ->
  client_dial DialContext c =
    (if decide (Client.APIKey c = Access.APIKey (cfg s)) then inr (opened None ns)
     else inl "client: dial failed: websocket: bad handshake (http 401)") /\
  syncctl_dial DialContext sc =
    (if decide (apiKey sc = Access.APIKey (cfg s)) then inr (opened None ns)
     else inl ("syncctl: failed to connect to " +:+ Syncctl.server sc +:+ ": websocket: bad handshake (http 401)")).
Proof.
  intros Hj Hk Hd Hm Hr Hns Hc Hsc Hu.
  assert (HA : forall key, key = "" \/ allVisible key ->
    (HandleWebSocket validateJWT detail now (arrives (authHeaders key !! "Authorization")) queryNs refuses s).1 =
    if decide (key = Access.APIKey (cfg s)) then Accepted None ns else Refused 401 "Unauthorized").
  { intros key Hkey. rewrite (header_of key Hkey). unfold HandleWebSocket, authenticate, unauthorizedText. rewrite Hj.
    rewrite !(decide_False (P := ("" <> "")%string)) by auto.
    rewrite (decide_True (P := (Access.APIKey (cfg s) <> "")%string)) by done. destruct (decide (key = "")) as [-> |Hne].
    - rewrite decide_True by auto. by rewrite decide_False by auto.
    - rewrite TrimPrefix_bearer. pose proof (bearer_ne key).
      destruct (decide (key = Access.APIKey (cfg s))) as [E|E].
      + rewrite decide_False by (intros [?|[?|?]]; congruence). simpl. rewrite Hd, Hns, Hr.
        by rewrite (proj2 (Z.leb_gt _ _) Hm).
      + by rewrite decide_True by auto. }
  unfold client_dial, syncctl_dial. rewrite decide_False by done. rewrite !(dial_delivers _ _ _ _ _ _ _ _ _ _ Hnet), !HA by done.
  split; case_decide; done.
Qed.
End Network.

(** ** A token from syncctl *)

Lemma EncodeToString_visible x : allVisible (EncodeToString x).
Proof.
  unfold allVisible, EncodeToString. rewrite String.list_ascii_of_string_of_list_ascii. apply Forall_fmap.
  eapply Forall_impl; [apply encode_sextets, bytes_octets|]. intros i Hi. simpl.
  assert (H : Forall (fun i => visible (encChar i) = true) (seqZ 0 64)) by by_decide.
  rewrite Forall_forall in H. apply H, elem_of_seqZ. unfold sextet in Hi. lia.
Qed.

Lemma allVisible_app a b : allVisible a -> allVisible b -> allVisible (a +:+ b).
Proof.
  unfold allVisible. intros Ha Hb. rewrite bytesOf_app. by apply Forall_app.
Qed.

Section Token.
Context (hmacSHA256 : string -> string -> string).
Context (marshalHeader : header -> option string) (unmarshalHeader : string -> option header).
Context (marshalClaims : Claims -> option string) (unmarshalClaims : string -> option Claims).

Lemma token_visible claims secret token :
  GenerateJWT hmacSHA256 marshalHeader marshalClaims claims secret = Some token -> token <> "" /\ allVisible token.
Proof.
  unfold GenerateJWT, sign. intros (hj & _ & (pj & _ & [= <-])%bind_Some)%bind_Some.
  assert (Hdot : allVisible ".") by (by repeat constructor). split.
  - intros E. apply (f_equal (fun x => length (bytesOf x))) in E. rewrite !bytesOf_app, !length_app in E. simpl in E. lia.
  - by repeat apply allVisible_app; try apply EncodeToString_visible.
Qed.

Context (parseInt parseDuration : string -> option Z) (parseBool : string -> option bool) (flagError : flagErr -> string).
Context (jsonError : string).

Definition generate (claims : Claims) (secret : string) : string + string :=
  match GenerateJWT hmacSHA256 marshalHeader marshalClaims claims secret with
  | Some token => inr token
  | None => inl jsonError
  end.

Definition tokenArgs (secret sub role namespace ttl : string) : list string :=
  ["generate"; "--secret"; secret; "--sub"; sub; "--role"; role; "--namespace"; namespace; "--ttl"; ttl].

(** A flag with its value in the next argument. *)
Lemma flagParse_str vals name arg old v rest :
  classify arg = Flag name None -> vals !! name = Some (FStr old) ->
  flagParse parseInt parseDuration parseBool vals (arg :: v :: rest) =
  flagParse parseInt parseDuration parseBool (<[name:=FStr v]> vals) rest.
Proof. intros Hc Hv. cbn [flagParse]. by rewrite Hc, Hv. Qed.

Lemma flagParse_dur vals name arg old v d rest :
  classify arg = Flag name None -> vals !! name = Some (FDur old) -> parseDuration v = Some d ->
  flagParse parseInt parseDuration parseBool vals (arg :: v :: rest) =
  flagParse parseInt parseDuration parseBool (<[name:=FDur d]> vals) rest.
Proof. intros Hc Hv Hd. cbn [flagParse]. rewrite Hc, Hv. cbn [setFlag]. by rewrite Hd. Qed.

Lemma tokenArgs_parsed secret sub role namespace ttl d now :
  parseDuration ttl = Some d -> secret <> "" -> sub <> "" -> 0 < d ->
  runToken parseInt parseDuration parseBool flagError generate now (tokenArgs secret sub role namespace ttl) =
  match generate (mkClaims sub role namespace (now / 1000000000) ((now + d) / 1000000000)) secret with
  | inr token => mkRes 0 [OLine token] None []
  | inl e => bad 1 e
  end.
Proof.
  intros Hd Hs Hu Hp. unfold runToken, tokenArgs.
  rewrite (flagParse_str _ "secret" _ ""), (flagParse_str _ "sub" _ ""), (flagParse_str _ "role" _ ""),
    (flagParse_str _ "namespace" _ ""), (flagParse_dur _ "ttl" _ 3600000000000 _ d) by (done || by_eval).
  cbn [flagParse]. unfold strOf, intOf. simplify_map_eq.
  by rewrite (proj2 (Z.leb_gt _ _) Hp).
Qed.

(** Time in nanoseconds, as the clock gives it. *)
Definition validate (now : Z) (token secret : string) : jwtError + Claims :=
  ValidateJWT hmacSHA256 unmarshalHeader unmarshalClaims (now / 1000000000) token secret.

End Token.

(** ** Instances *)

Definition noDuration (s : string) : option Z := if decide (s = "1h") then Some 3600000000000 else None.

Definition aliceClaims : Claims := mkClaims "alice" "operator" "team" 100 3700.

Definition aliceUnmarshal (j : string) : option Claims := if decide (j = "C") then Some aliceClaims else None.

Definition aliceToken : string :=
  default "" (GenerateJWT sampleMac sampleMarshalHeader sampleMarshalClaims aliceClaims "key").

(** A server with the secret "key", and a network that delivers. *)
Definition secretConfig : Config := mkConfig [] "" "" "" "key" "" 0 "" false [] "" 0 0.

Definition perfectDial (V : Z -> string -> string -> jwtError + Claims) (now : Z) (s : Server)
    (_ : dialer) (_ : string) (h : gmap string string) : dialed (option Claims * string) :=
  match (HandleWebSocket V "" now (default "" (h !! "Authorization")) "" false s).1 with
  | Accepted claims ns => Connected (claims, ns)
  | Refused status _ => Failed "websocket: bad handshake" (Some status)
  | UpgraderRefused => Failed "websocket: bad handshake" (Some 403)
  end.

Lemma perfect_delivers V now s :
  delivers V "" (perfectDial V now s) pair (fun v => default "" v) 403 now "" false s.
Proof. by split. Qed.

Definition aliceValidate : Z -> string -> string -> jwtError + Claims :=
  validate sampleMac sampleUnmarshalHeader aliceUnmarshal.


(** * The first message

    Connection 1 has registered and not yet been sent the initial state when
    an update is published. *)
Definition earlyUpdate : list (label (request (Raw := string * string))) :=
  connectAs 0 ++ [Call 1%nat (Server.Connect "" "") 0] ++ runs 1 12 ++ publish 2 ++ runs 1 4.

(** What a connection is sent, in order. *)
Definition received (conn : nat) (s : Server) : list (string * payload) :=
  omap (fun x => if decide (x.1 = conn) then Some (outType x.2, outPayload x.2) else None) (sent s).

Definition fresh (msgs : list (string * payload)) : wsConn (string * payload) := mkWs None None (inr <$> msgs) None [].

(** The Go client can be turned away by the server's own update.  The
    broadcaster sees a connection as soon as it is registered, so an "update"
    can precede the "initialState"; [readInitialState] takes the first
    message for the initial state, and [Connect] fails on a healthy
    connection. *)
Theorem update_before_initial_state :
  exists h ths, reach sampleHub any_label hubStart (h, ths) /\
    (received 1 (srv h)).*1 = ["update"; "initialState"] /\
    (readInitialState 0 None (fresh (received 1 (srv h)))).1 = Some "client: expected initialState, got update".
Proof.
  exists (after sampleHub earlyUpdate hubStart).1, (after sampleHub earlyUpdate hubStart).2.
  split; [apply (execs_reach sampleHub any_label earlyUpdate); [apply Forall_any|by_eval]|].
  split; vm_compute; reflexivity.
Qed.
